(* ===== verification/_CoqProject ===== *)
-Q . S2P
Prelude.v
Libc.v
Printf.v
Sds.v
SdsText.v
SdsFormat.v
SdsSplit.v
SdsQuote.v
Dict.v
Reader.v
Resp.v
ReaderSpec.v
Replies.v
Command.v
CommandSpec.v
CommandFormat.v
Kernel.v
Context.v
Net.v
NetSpec.v
ContextSpec.v
ClientSpec.v
Async.v
AsyncSpec.v
AsyncCommand.v
AsyncLoop.v
AsyncFree.v
SdsTheorems.v
DictTheorems.v
ReaderTheorems.v
CommandTheorems.v
ClientTheorems.v
AsyncTheorems.v
Calls.v
Parallel.v
Adapters.v
AdaptersSpec.v
Ltram.v
Smoketest.v
Matmul.v
RwStress.v
StringHashtable.v
Table.v
TbbTables.v
HashtableDb.v
HashtableSpec.v
HashtableOps.v
HashtableTheorems.v
HashtableRaces.v
Databases.v
YcsbUtils.v
Fnv.v
PropertiesTheorems.v
Generators.v
Workload.v
WorkloadSpec.v
Driver.v
Client.v
WorkloadRun.v
Binary64.v
WorkloadTheorems.v
Threads.v
ThreadsSpec.v
ThreadsTheorems.v
WorkloadRequests.v
RedisDb.v
RedisDbTheorems.v
