(* ===== verification/Prelude.v ===== *)
(** * LtRAM policy bench: verification library

    The repository measures placement policies for long-term RAM: a kernel
    module that counts and promotes write faults, its self-test, three small
    workloads, and the YCSB-C benchmark with an in-memory database and with
    Redis through the vendored client hiredis.  This library models the parts
    that compute and proves what they promise.

    ** Shared definitions

    - Prelude.v (this file): the result type [res], the state monad [M W]
      with [Stuck] for undefined behaviour and failed assertions, weakest
      preconditions ([wp]) with the tactics [wp_step] and [wp_steps],
      machine integers with their wrap-around, and lemmas on lists.
    - Libc.v, Printf.v: the C library as the sources use it.  A pointer is the
      list of bytes from its address to the end of its block; [malloc] is the
      class [Libc], whose instances decide when it fails.
    - Kernel.v: system calls of a client as the class [Kernel]; the scripted
      kernel follows a list of results.
    - Calls.v: programs that only call out, as trees of calls: traces, the
      logic [tpost] of traces with a ghost state, the logic [dpost] against
      an interface, and the interpretation of a tree in a world.
    - Parallel.v: several trees over one world.  A rule for schedules whose
      threads keep an invariant each for its own part, how many turns a thread
      needs, and that every thread of a fair schedule ends.

    ** hiredis (src/workloads/YCSB-C/redis/hiredis/)

    - Sds.v, SdsText.v: sds.c.  A string is its header and its whole buffer.
      SdsFormat.v, SdsSplit.v and SdsQuote.v prove the formats, splitting and
      quoting; SdsTheorems.v: sequences of operations refine byte strings,
      growing keeps its promise of room, quoted arguments read back.
    - Dict.v: dict.c, arrays of chains with a rehash that moves every entry.
      DictTheorems.v: the operations are those of a finite map.
    - Reader.v: read.c, the incremental parser with its stack of tasks.
      Resp.v is the protocol as a tree with its encoding, ReaderSpec.v the
      refinement of a recursive builder, ReaderTheorems.v the round trip in
      any chunks, malformed input, and freeing.
    - Replies.v, Command.v, Context.v: hiredis.c.  Reply objects are nodes of
      a heap and are freed explicitly.  CommandSpec.v and CommandFormat.v give
      formats a meaning ([fmt_args]); CommandTheorems.v: the three formatters
      encode it, no text put into a conversion changes the number of arguments,
      the reader is the inverse.  ContextSpec.v, ClientSpec.v and
      ClientTheorems.v: no byte of the output is lost or doubled, a
      command on a blocking connection returns the peer's reply, and pipelined
      commands get their replies in order.
    - Net.v: net.c and the connect functions; NetSpec.v: they end, and an error
      status comes with an error in the context but for the exits named there.
    - Async.v: async.c.  AsyncSpec.v, AsyncCommand.v, AsyncLoop.v, AsyncFree.v
      and AsyncTheorems.v: a command does what it does to an abstract client
      with queues and maps; the n-th reply goes to the n-th callback, once;
      freeing runs every pending callback once with NULL.
    - Adapters.v: the hooks of adapters/*.h, over calls of the event libraries.
      AdaptersSpec.v: six of them leave their library watching what async.c
      asked for, the other two watch both directions from the start; and which
      callbacks may use a context that a handler has freed.

    ** LtRAM (src/ltram_module/) and the small workloads (src/workloads/)

    - Ltram.v: ltram.c.  Any number of write faults handled at once, in steps;
      the counters account for each.
    - Smoketest.v: ltram_smoketest.c.  The counts of the tests, and what a
      clean result says of the placement of folios.
    - Matmul.v: matmul/matrix_multiply.c.  The loop order gives the textbook
      sums, and the benchmark gives its memory back on every path.
    - RwStress.v: rwstress/ltram_rw_stress.c.  Every page is read, then
      written, within its mapping and protection.

    ** YCSB-C (src/workloads/YCSB-C/)

    - StringHashtable.v: lib/string_hashtable.h as a class, with what every
      table promises a database.  Table.v: lib/string.h, and the instance of
      lib/stl_hashtable.h.  TbbTables.v: the instances of
      lib/tbb_rand_hashtable.h and lib/tbb_scan_hashtable.h over the
      containers of TBB; each answers like a map.
    - HashtableDb.v: db/hashtable_db.cc and db/lock_stl_db.h over any tables,
      as trees of atomic calls of tables and of the allocator.
      HashtableSpec.v gives every call a rule, HashtableOps.v every operation
      a specification over maps of maps, with the strings and the copies of
      keys that it loses.  HashtableTheorems.v: sequences of operations refine
      the maps, and the destructor frees all that the database holds but the
      copies of keys; nothing is lost that is not counted.  HashtableRaces.v:
      for every database, schedules of two threads that lose a record or use
      a block that is freed.
    - Databases.v: the databases of db/tbb_rand_db.h, db/tbb_scan_db.h and
      db/basic_db.h, and that the first two are maps of maps as well.
    - YcsbUtils.v: core/utils.h and core/properties.h.  PropertiesTheorems.v: a
      property file says what was written.
      Fnv.v: its hash keeps the numbers below 2^32 apart.
    - Generators.v: the generators of core/; Binary64.v: the arithmetic of
      [double] with rounding, for the instances; Workload.v: core/core_workload.cc
      and .h; Client.v: core/client.h and the loop and [main] of ycsbc.cc with
      one thread.  WorkloadSpec.v: names of keys, ranges of draws, shares of
      operations.  WorkloadRun.v and WorkloadTheorems.v: a uniform workload is
      set up without an exception, loads all its records and completes all its
      transactions, against the interface of the database and then on the
      hash tables.  The arithmetic of [double] is any there, under one
      condition on the properties: the shares of the operations, as it rounds
      them, leave no gap in [0,1) ([total]), as the assertion of the discrete
      generator fails in a gap.  In exact arithmetic there is none
      ([exact_shares]), nor with one share that divided by itself is 1
      ([one_share]); of other shares with rounding it has to be checked.
      WorkloadRequests.v: over traces whose draws are in their documented
      ranges, what requests never ask for.
    - Threads.v: [main] with any number of threads, which share the workload
      and the hash tables: every draw and every call of a table is a step.
      One thread does what the client does.  ThreadsSpec.v: what a thread may
      rely on while the others run, as a view of the shared world.
      ThreadsTheorems.v: threads load exactly the records of one client in
      any order of their steps, and a benchmark of reads, scans and
      insertions ends with every operation a success, under the same condition
      on the shares.
    - Driver.v: the command line of ycsbc.cc and db/db_factory.cc.
    - RedisDb.v: redis/redis_client.h and db/redis_db.cc on the client of
      Context.v.  RedisDbTheorems.v: what a read returns and an update sends.

    ** Parameters

    Code that is not in the repository is an argument: the allocator ([Libc]),
    system calls ([Kernel]), the kernel functions of the two modules and of
    the stress test (constructors of call types), floats ([FloatOps]), doubles
    and random engines ([Doubles], [rnd]), the order in which
    [std::unordered_map] iterates ([Order]), the containers of TBB
    ([TbbContainer]), event libraries ([EventLibrary]),
    event hooks and user callbacks.
    What is assumed of them is named: classes carry laws (a block has the size
    asked for, a read returns no more than asked, a container finds what was
    put in), [EventLibrary] says what the
    documentation of the event libraries does, [rnd_spec] the documented
    ranges of random numbers.

    ** Fuel and bounds

    Loops whose rounds the input bounds take that bound as fuel: the length of
    a format, of a line, of a file, of a chain.  Loops that a peer ends
    ([write_all], [read_until], event loops) take a fuel, and their theorems
    say how much is enough: one more than the results in the script.  The loop
    of [NextTransactionKey] needs one draw for a uniform workload.  A schedule
    is a list of turns; [load_turns] is how many a loading thread needs, and
    for the transactions, whose length depends on the draws, a fair schedule
    has enough from some turn on.  Theorems ask for texts below 2^31 bytes less the preallocation of sds, replies below
    2^29 bytes, tables and counts below 2^64.

    ** Not modelled

    Freeing plain C blocks has no effect, except for reply nodes and for the
    strings and tables of the database, whose lifetime the theorems are about,
    and for the copies of keys that the tables make ([String::Copy], over
    lib/mem_alloc.h): of these only the number that is live is kept, so that
    leaks are counted, but no use after a free of one could be seen.
    Printing, messages and timers are left out.  A callback of dict.c cannot
    change the table, and the notification callbacks of async.c cannot change
    the context.  [strerror_r] is its POSIX variant.  Each method of a table
    is one step, also for the tables of TBB, whose methods are several steps
    of their containers; draws from the random engine, which generators share
    without a lock of its own, are one step too.  Several clients run over the
    hash tables only, and their theorems leave out updates, which are not safe
    beside reads (HashtableRaces.v).  Ranges of the plain zipfian and of the
    latest generator depend on the rounding of doubles and are not proved.
    [MemAlloc::New] and [Delete], which nothing uses, the test programs of
    hiredis, examples, and basic_tests/cow_to_dram.c (which is a comment) are not
    modelled. *)

From Stdlib Require Import ZArith Lia Ascii.
From stdpp Require Import base list strings gmap numbers.
#[global] Open Scope Z_scope.

(** ** Results of C code

    [Stuck] stands for undefined behaviour (an access outside an object, a
    dereference of NULL) and for a failed [assert]. *)
Inductive res (A : Type) : Type :=
  | Ok (a : A)
  | Stuck.
Arguments Ok {A} a.
Arguments Stuck {A}.

Global Instance res_ret : MRet res := λ A a, Ok a.
Global Instance res_bind : MBind res := λ A B f m,
  match m with Ok a => f a | Stuck => Stuck end.

(** A computation over a world [W] (the allocator's state, the object store,
    the sockets): explicit state passing, with [Stuck] as failure. *)
Definition M (W A : Type) : Type := W -> res (A * W).

Global Instance M_ret {W} : MRet (M W) := λ A a w, Ok (a, w).
Global Instance M_bind {W} : MBind (M W) := λ A B f m w,
  match m w with Ok (a, w') => f a w' | Stuck => Stuck end.

Definition stuck {W A} : M W A := λ _, Stuck.
Definition lift {W A} (r : res A) : M W A := λ w,
  match r with Ok a => Ok (a, w) | Stuck => Stuck end.
Definition massert {W} (b : bool) : M W unit := if b then mret tt else stuck.
Definition rassert (b : bool) : res unit := if b then Ok tt else Stuck.

(** Reading through a pointer that may be NULL. *)
Definition deref {A} (o : option A) : res A :=
  match o with Some a => Ok a | None => Stuck end.

(** ** Weakest preconditions *)
Definition rwp {A} (r : res A) (Q : A -> Prop) : Prop :=
  match r with Ok a => Q a | Stuck => False end.

Definition wp {W A} (m : M W A) (Q : A -> W -> Prop) (w : W) : Prop :=
  match m w with Ok (a, w') => Q a w' | Stuck => False end.

Section wp_rules.
Context {W A B : Type}.

Lemma wp_ret (a : A) (Q : A -> W -> Prop) w : Q a w -> wp (mret a) Q w.
Proof. done. Qed.

Lemma wp_bind (m : M W A) (f : A -> M W B) (Q : B -> W -> Prop) w :
  wp m (λ a w', wp (f a) Q w') w -> wp (m ≫= f) Q w.
Proof.
  unfold wp, mbind, M_bind. by destruct (m w) as [[a w']|].
Qed.

Lemma wp_mono (m : M W A) (P Q : A -> W -> Prop) w :
  wp m P w -> (∀ a w', P a w' -> Q a w') -> wp m Q w.
Proof. unfold wp. destruct (m w) as [[a w']|]; eauto. Qed.

Lemma wp_lift (r : res A) (Q : A -> W -> Prop) w :
  rwp r (λ a, Q a w) -> wp (lift r) Q w.
Proof. unfold wp, lift, rwp. by destruct r. Qed.

Lemma wp_lift_ok (a : A) (r : res A) (Q : A -> W -> Prop) w :
  r = Ok a -> Q a w -> wp (lift r) Q w.
Proof. intros -> HQ. done. Qed.

Lemma wp_massert (b : bool) (Q : unit -> W -> Prop) w :
  b = true -> Q tt w -> wp (massert b) Q w.
Proof. by intros ->. Qed.

Lemma wp_eq (m m' : M W A) (Q : A -> W -> Prop) w : m w = m' w -> wp m' Q w -> wp m Q w.
Proof. unfold wp. by intros ->. Qed.

Lemma wp_inv (m : M W A) (Q : A -> W -> Prop) w :
  wp m Q w -> ∃ a w', m w = Ok (a, w') ∧ Q a w'.
Proof. unfold wp. destruct (m w) as [[a w']|]; [eauto | done]. Qed.
End wp_rules.

Lemma rwp_bind {A B} (r : res A) (f : A -> res B) (Q : B -> Prop) :
  rwp r (λ a, rwp (f a) Q) -> rwp (r ≫= f) Q.
Proof. by destruct r. Qed.

Lemma rwp_mono {A} (r : res A) (P Q : A -> Prop) :
  rwp r P -> (∀ a, P a -> Q a) -> rwp r Q.
Proof. destruct r; simpl; eauto. Qed.

(** [wp_step] runs one monadic step of the goal; [wp_steps] runs all those
    whose result is immediate. *)
Ltac wp_step :=
  lazymatch goal with
  | |- wp (_ ≫= _) _ _ => apply wp_bind
  | |- wp (mret _) _ _ => apply wp_ret
  | |- wp (lift (Ok _)) _ _ => eapply wp_lift_ok; [reflexivity|]
  | |- wp (lift (deref (Some _))) _ _ => eapply wp_lift_ok; [reflexivity|]
  | |- wp (massert true) _ _ => apply wp_massert; [reflexivity|]
  | |- wp (massert _) _ _ => apply wp_massert
  | |- rwp (_ ≫= _) _ => apply rwp_bind
  | |- rwp (Ok _) _ => cbn [rwp]
  end.
Ltac wp_steps := repeat (wp_step; cbv beta iota).

(** [rsimpl] runs the binds of [res] whose result is known. *)
Ltac rsimpl := cbn [mbind res_bind mret res_ret].

(** ** Machine integers, with their wrap-around written out *)
Definition wrap (w z : Z) : Z := z mod 2 ^ w.
Definition swrap (w z : Z) : Z := (z + 2 ^ (w - 1)) mod 2 ^ w - 2 ^ (w - 1).

Definition u8 : Z -> Z := wrap 8.
Definition u32 : Z -> Z := wrap 32.
Definition u64 : Z -> Z := wrap 64.
Definition i32 : Z -> Z := swrap 32.
Definition i64 : Z -> Z := swrap 64.

Definition INT_MAX : Z := 2 ^ 31 - 1.
Definition LONG_MAX : Z := 2 ^ 63 - 1.

Lemma wrap_small w z : 0 ≤ z < 2 ^ w -> wrap w z = z.
Proof. apply Z.mod_small. Qed.

Lemma swrap_small w z :
  0 < w -> - 2 ^ (w - 1) ≤ z < 2 ^ (w - 1) -> swrap w z = z.
Proof.
  intros Hw Hz. unfold swrap.
  assert (2 ^ w = 2 * 2 ^ (w - 1)) as Hp.
  { replace w with (Z.succ (w - 1)) at 1 by lia.
    rewrite Z.pow_succ_r by lia. lia. }
  rewrite Z.mod_small by lia. lia.
Qed.

Lemma wrap_range w z : 0 ≤ w -> 0 ≤ wrap w z < 2 ^ w.
Proof. intros. apply Z.mod_pos_bound. lia. Qed.

(** Wrapping at every step of a sum is wrapping once. *)
Lemma swrap_add w a b : 0 < w -> swrap w (swrap w a + b) = swrap w (a + b).
Proof.
  intros Hw. unfold swrap. f_equal.
  replace ((a + 2 ^ (w - 1)) mod 2 ^ w - 2 ^ (w - 1) + b + 2 ^ (w - 1))
    with ((a + 2 ^ (w - 1)) mod 2 ^ w + b) by lia.
  rewrite Z.add_mod_idemp_l by lia. f_equal. lia.
Qed.

Lemma swrap_range w z :
  0 < w -> - 2 ^ (w - 1) ≤ swrap w z < 2 ^ (w - 1).
Proof.
  intros Hw. unfold swrap.
  assert (2 ^ w = 2 * 2 ^ (w - 1)) as Hp.
  { replace w with (Z.succ (w - 1)) at 1 by lia.
    rewrite Z.pow_succ_r by lia. lia. }
  pose proof (Z.mod_pos_bound (z + 2 ^ (w - 1)) (2 ^ w)). lia.
Qed.

Lemma u32_small z : 0 ≤ z < 2 ^ 32 -> u32 z = z.
Proof. apply wrap_small. Qed.
Lemma u64_small z : 0 ≤ z < 2 ^ 64 -> u64 z = z.
Proof. apply wrap_small. Qed.
Lemma i32_small z : - 2 ^ 31 ≤ z < 2 ^ 31 -> i32 z = z.
Proof. intros. apply swrap_small; lia. Qed.
Lemma i64_small z : - 2 ^ 63 ≤ z < 2 ^ 63 -> i64 z = z.
Proof. intros. apply swrap_small; lia. Qed.
Lemma i32_range z : - 2 ^ 31 ≤ i32 z < 2 ^ 31.
Proof. apply (swrap_range 32); lia. Qed.
Lemma i64_range z : - 2 ^ 63 ≤ i64 z < 2 ^ 63.
Proof. apply (swrap_range 64); lia. Qed.
Lemma u32_range z : 0 ≤ u32 z < 2 ^ 32.
Proof. apply (wrap_range 32); lia. Qed.
Lemma u64_range z : 0 ≤ u64 z < 2 ^ 64.
Proof. apply (wrap_range 64); lia. Qed.

(** ** Bytes *)
Abbreviation bytes := (list ascii) (only parsing).

Definition NUL : ascii := Ascii.zero.
Definition CR : ascii := "013".
Definition LF : ascii := "010".
Definition bs (s : string) : bytes := String.list_ascii_of_string s.

(** A byte as an [unsigned char], as a (signed) [char], and back. *)
Definition uchar (c : ascii) : Z := Z.of_N (N_of_ascii c).
Definition schar (c : ascii) : Z := swrap 8 (uchar c).
Definition of_uchar (z : Z) : ascii := ascii_of_N (Z.to_N (u8 z)).

Lemma uchar_range c : 0 ≤ uchar c < 256.
Proof.
  unfold uchar. pose proof (N_ascii_bounded c). lia.
Qed.

Lemma of_uchar_uchar c : of_uchar (uchar c) = c.
Proof.
  unfold of_uchar. pose proof (uchar_range c) as Hc.
  unfold u8. rewrite wrap_small by lia.
  unfold uchar. rewrite N2Z.id. apply ascii_N_embedding.
Qed.

Lemma uchar_of_uchar z : 0 ≤ z < 256 -> uchar (of_uchar z) = z.
Proof.
  intros Hz. unfold uchar, of_uchar, u8. rewrite wrap_small by lia.
  rewrite N_ascii_embedding by lia. lia.
Qed.

Lemma uchar_inj c d : uchar c = uchar d -> c = d.
Proof. intros H. by rewrite <- (of_uchar_uchar c), H, of_uchar_uchar. Qed.

(** ** Length of a list in [Z] *)
Definition zlen {A} (l : list A) : Z := Z.of_nat (length l).

Lemma zlen_nil {A} : zlen (@nil A) = 0.
Proof. done. Qed.
Lemma zlen_cons {A} (x : A) l : zlen (x :: l) = zlen l + 1.
Proof. unfold zlen. simpl. lia. Qed.
Lemma zlen_app {A} (l k : list A) : zlen (l ++ k) = zlen l + zlen k.
Proof. unfold zlen. rewrite length_app. lia. Qed.
Lemma zlen_snoc {A} (l : list A) x : zlen (l ++ [x]) = zlen l + 1.
Proof. rewrite zlen_app. done. Qed.
Lemma zlen_nonneg {A} (l : list A) : 0 ≤ zlen l.
Proof. unfold zlen. lia. Qed.
Lemma zlen_take {A} n (l : list A) :
  0 ≤ n ≤ zlen l -> zlen (take (Z.to_nat n) l) = n.
Proof. unfold zlen. intros. rewrite length_take. lia. Qed.
Lemma zlen_drop {A} n (l : list A) :
  0 ≤ n ≤ zlen l -> zlen (drop (Z.to_nat n) l) = zlen l - n.
Proof. unfold zlen. intros. rewrite length_drop. lia. Qed.
Lemma zlen_rev {A} (l : list A) : zlen (rev l) = zlen l.
Proof. unfold zlen. by rewrite length_rev. Qed.
Lemma zlen_replicate {A} n (x : A) : zlen (replicate n x) = Z.of_nat n.
Proof. unfold zlen. by rewrite length_replicate. Qed.
Lemma zlen_to_nat {A} (l : list A) : Z.to_nat (zlen l) = length l.
Proof. unfold zlen. lia. Qed.
Lemma zlen_zero {A} (l : list A) : zlen l = 0 -> l = [].
Proof. destruct l; [done|]. rewrite zlen_cons. pose proof (zlen_nonneg l). lia. Qed.

Create Rewrite HintDb zlen.
#[export] Hint Rewrite @zlen_nil @zlen_cons @zlen_app @zlen_rev
  @zlen_replicate : zlen.

(** [zl] solves arithmetic goals over lengths of lists. *)
Ltac zlen_facts :=
  repeat match goal with
    | |- context [zlen ?l] =>
        lazymatch goal with
        | _ : 0 ≤ zlen l |- _ => fail
        | _ => pose proof (zlen_nonneg l)
        end
    | H : context [zlen ?l] |- _ =>
        lazymatch goal with
        | _ : 0 ≤ zlen l |- _ => fail
        | _ => pose proof (zlen_nonneg l)
        end
    end.
Ltac zl := autorewrite with zlen in *; zlen_facts; lia.

(** [csimp] removes from the goal the wrap-arounds that do not wrap. *)
Ltac csimp :=
  repeat match goal with
  | |- context [i32 ?z] => rewrite (i32_small z) by zl
  | |- context [u64 ?z] => rewrite (u64_small z) by zl
  | |- context [u32 ?z] => rewrite (u32_small z) by zl
  | |- context [i64 ?z] => rewrite (i64_small z) by zl
  end.

Lemma take_zlen {A} (l k : list A) : take (Z.to_nat (zlen l)) (l ++ k) = l.
Proof. rewrite zlen_to_nat. apply take_app_length. Qed.
Lemma drop_zlen {A} (l k : list A) : drop (Z.to_nat (zlen l)) (l ++ k) = k.
Proof. rewrite zlen_to_nat. apply drop_app_length. Qed.

(** A list of [zlen] [n + m] splits in two. *)
Lemma split_zlen {A} (l : list A) n :
  0 ≤ n ≤ zlen l -> ∃ a b, l = a ++ b ∧ zlen a = n.
Proof.
  intros Hn. exists (take (Z.to_nat n) l), (drop (Z.to_nat n) l).
  split; [by rewrite take_drop | by apply zlen_take].
Qed.

(** Two ways to cut a list: one prefix extends the other. *)
Lemma app_cases {A} (a b c d : list A) :
  a ++ b = c ++ d ->
  (∃ e, a = c ++ e ∧ d = e ++ b) ∨ (∃ e, e ≠ [] ∧ c = a ++ e ∧ b = e ++ d).
Proof.
  revert c. induction a as [|x a IH]; intros c E.
  - destruct c as [|y c]; [left; by exists [] | right; by exists (y :: c)].
  - destruct c as [|y c]; [left; by exists (x :: a)|].
    injection E as -> E. destruct (IH _ E) as [(e & -> & ->)|(e & He & -> & ->)].
    + left. by exists e.
    + right. by exists e.
Qed.

(** ** Prefixes and suffixes by a predicate *)
Section while.
Context {A : Type} (P : A -> bool).

Fixpoint take_while (l : list A) : list A :=
  match l with
  | [] => []
  | x :: l' => if P x then x :: take_while l' else []
  end.

Fixpoint drop_while (l : list A) : list A :=
  match l with
  | [] => []
  | x :: l' => if P x then drop_while l' else l
  end.

Lemma take_drop_while l : take_while l ++ drop_while l = l.
Proof. induction l as [|x l IH]; simpl; [done|]. destruct (P x); simpl; congruence. Qed.

Lemma take_while_Forall l : Forall P (take_while l).
Proof.
  induction l as [|x l IH]; simpl; [constructor|].
  destruct (P x) eqn:E; constructor; [by rewrite E|done].
Qed.

Lemma drop_while_head l : match drop_while l with [] => True | x :: _ => P x = false end.
Proof. induction l as [|x l IH]; simpl; [done|]. by destruct (P x) eqn:E. Qed.

(** What is left after dropping from both ends. *)
Definition strip (l : list A) : list A :=
  rev (drop_while (rev (drop_while l))).

Lemma strip_split l :
  ∃ a b, l = a ++ strip l ++ b ∧ Forall P a ∧ Forall P b ∧
    match strip l with [] => b = [] | x :: _ => P x = false end ∧
    match rev (strip l) with [] => True | x :: _ => P x = false end.
Proof.
  exists (take_while l), (rev (take_while (rev (drop_while l)))).
  assert (strip l ++ rev (take_while (rev (drop_while l))) = drop_while l) as E.
  { unfold strip. by rewrite <- rev_app_distr, take_drop_while, rev_involutive. }
  split_and!.
  - by rewrite E, take_drop_while.
  - apply take_while_Forall.
  - apply Forall_rev, take_while_Forall.
  - pose proof (drop_while_head l) as Hh.
    destruct (strip l) as [|x s] eqn:Es.
    + simpl in E. rewrite E.
      destruct (drop_while l) as [|y k]; [done|]. exfalso.
      assert (Forall P (y :: k)) as HF.
      { rewrite <- E. apply Forall_rev, take_while_Forall. }
      inversion HF as [|? ? Hy]; subst. by rewrite Hh in Hy.
    + rewrite <- E in Hh. done.
  - unfold strip. rewrite rev_involutive. apply drop_while_head.
Qed.
End while.
