(* ===== verification/Libc.v ===== *)
(** * Libc: the C library functions the program uses

    Memory blocks are lists of bytes, and a pointer into a block is the list
    of bytes from that address to the end of the block.  Every access is
    checked: reading or writing outside the block is [Stuck].  [malloc] and
    [calloc] are an interface: a class whose instances choose when an
    allocation fails and what fresh memory holds. *)

From Stdlib Require Import ZArith Lia Ascii.
From stdpp Require Import base list strings gmap numbers.
From S2P Require Import Prelude.

(** ** Memory primitives *)
Definition load (p : bytes) (i : Z) : res ascii :=
  if bool_decide (0 ≤ i < zlen p)
  then match p !! Z.to_nat i with Some c => Ok c | None => Stuck end
  else Stuck.

Definition memcpy (dst : bytes) (off : Z) (src : bytes) (n : Z) : res bytes :=
  if bool_decide (0 ≤ n ≤ zlen src ∧ 0 ≤ off ∧ off + n ≤ zlen dst)
  then Ok (take (Z.to_nat off) dst ++ take (Z.to_nat n) src
             ++ drop (Z.to_nat (off + n)) dst)
  else Stuck.

Definition store (dst : bytes) (i : Z) (c : ascii) : res bytes :=
  memcpy dst i [c] 1.

Definition memset (dst : bytes) (off : Z) (c : ascii) (n : Z) : res bytes :=
  memcpy dst off (replicate (Z.to_nat n) c) n.

(** [p + i], which may point one past the end. *)
Definition ptr_add (p : bytes) (i : Z) : res bytes :=
  if bool_decide (0 ≤ i ≤ zlen p) then Ok (drop (Z.to_nat i) p) else Stuck.

(** ** Strings *)
Fixpoint strlen (p : bytes) : res Z :=
  match p with
  | [] => Stuck
  | c :: p' => if decide (c = NUL) then Ok 0
               else n ← strlen p'; mret (n + 1)
  end.

(** [memcmp] of the first [n] bytes: the sign of the first difference. *)
Fixpoint memcmp_nat (a b : bytes) (n : nat) : res Z :=
  match n, a, b with
  | O, _, _ => Ok 0
  | S n', x :: a', y :: b' =>
      if decide (x = y) then memcmp_nat a' b' n'
      else Ok (if decide (uchar x < uchar y) then -1 else 1)
  | _, _, _ => Stuck
  end.
Definition memcmp (a b : bytes) (n : Z) : res Z := memcmp_nat a b (Z.to_nat n).

(** [strchr cset c != NULL]: the terminator counts as a member. *)
Fixpoint strchr (p : bytes) (c : ascii) : res bool :=
  match p with
  | [] => Stuck
  | d :: p' => if decide (d = c) then Ok true
               else if decide (d = NUL) then Ok false
               else strchr p' c
  end.

(** A C string literal, with its terminator. *)
Definition cstr (s : string) : bytes := bs s ++ [NUL].

Definition isspace (c : ascii) : bool :=
  bool_decide (9 ≤ uchar c ≤ 13) || bool_decide (c = " "%char).
Definition isprint (c : ascii) : bool := bool_decide (32 ≤ uchar c ≤ 126).
Definition isdigit (c : ascii) : bool := bool_decide (48 ≤ uchar c ≤ 57).
Definition tolower (c : ascii) : ascii :=
  if bool_decide (65 ≤ uchar c ≤ 90) then of_uchar (uchar c + 32) else c.
Definition toupper (c : ascii) : ascii :=
  if bool_decide (97 ≤ uchar c ≤ 122) then of_uchar (uchar c - 32) else c.

(** ** The allocator *)
Class Libc (W : Type) := {
  (** [malloc n w] is [None] when it returns NULL, and otherwise a block of
      [n] bytes of unspecified contents. *)
  malloc : Z -> W -> option bytes * W;
  malloc_zlen n w b w' : 0 ≤ n -> malloc n w = (Some b, w') -> zlen b = n;
}.

Section alloc.
Context {W : Type} `{!Libc W}.

Definition c_malloc (n : Z) : M W (option bytes) := λ w, Ok (malloc n w).

Definition c_calloc (n : Z) : M W (option bytes) :=
  b ← c_malloc n;
  mret ((λ _, replicate (Z.to_nat n) NUL) <$> b).

(** [realloc] of a block to [n] bytes: the common prefix is kept. *)
Definition c_realloc (old : bytes) (n : Z) : M W (option bytes) :=
  b ← c_malloc n;
  mret ((λ junk, take (Z.to_nat n) old ++ drop (length old) junk) <$> b).

(** Some allocation can fail.  An operation returns NULL only then. *)
Definition oom : Prop := ∃ n w, fst (malloc n w) = None.

Lemma wp_malloc n (Q : option bytes -> W -> Prop) w :
  0 ≤ n ->
  (∀ w', oom -> Q None w') ->
  (∀ b w', zlen b = n -> Q (Some b) w') ->
  wp (c_malloc n) Q w.
Proof.
  intros Hn HNone HSome. unfold wp, c_malloc.
  destruct (malloc n w) as [[b|] w'] eqn:E.
  - apply HSome. by eapply malloc_zlen.
  - apply HNone. exists n, w. by rewrite E.
Qed.

Lemma wp_calloc n (Q : option bytes -> W -> Prop) w :
  0 ≤ n ->
  (∀ w', oom -> Q None w') ->
  (∀ w', Q (Some (replicate (Z.to_nat n) NUL)) w') ->
  wp (c_calloc n) Q w.
Proof.
  intros Hn HNone HSome. unfold c_calloc. wp_step.
  apply wp_malloc; [done | intros | intros]; wp_steps; simpl; auto.
Qed.

Lemma wp_realloc old n (Q : option bytes -> W -> Prop) w :
  zlen old ≤ n ->
  (∀ w', oom -> Q None w') ->
  (∀ ext w', zlen ext = n - zlen old -> Q (Some (old ++ ext)) w') ->
  wp (c_realloc old n) Q w.
Proof.
  intros Hn HNone HSome. unfold c_realloc. wp_step.
  pose proof (zlen_nonneg old).
  apply wp_malloc; [lia | intros; wp_steps; simpl; auto |].
  intros b w' Hb. wp_steps. simpl.
  rewrite take_ge by (unfold zlen in *; lia).
  apply HSome. unfold zlen in *. rewrite length_drop. lia.
Qed.
End alloc.
Arguments oom W {_}.

(** ** Computations that only allocate

    [R] relates two worlds that differ by calls to the allocator. *)
Class AllocRel {W} `{!Libc W} (R : W -> W -> Prop) := {
  alloc_preorder :: PreOrder R;
  alloc_malloc n w : R w (snd (malloc n w));
}.

Section alloc_only.
Context {W : Type} `{!Libc W} (R : W -> W -> Prop) `{!AllocRel R}.

Definition alloc_only {A} (m : M W A) : Prop := ∀ w a w', m w = Ok (a, w') -> R w w'.

Lemma alloc_only_ret {A} (a : A) : alloc_only (mret a).
Proof. by intros w ? ? [= -> ->]. Qed.

Lemma alloc_only_lift {A} (r : res A) : alloc_only (lift r).
Proof. intros w a w'. unfold lift. destruct r; [by intros [= -> ->] | done]. Qed.

Lemma alloc_only_bind {A B} (m : M W A) (f : A -> M W B) :
  alloc_only m -> (∀ a, alloc_only (f a)) -> alloc_only (m ≫= f).
Proof.
  intros Hm Hf w b w2. unfold mbind, M_bind. destruct (m w) as [[a w1]|] eqn:E; [|done].
  intros E2. etrans; [by eapply Hm | by eapply Hf].
Qed.

Lemma alloc_only_malloc n : alloc_only (c_malloc n).
Proof. intros w a w' [= E]. pose proof (alloc_malloc n w) as H. by rewrite E in H. Qed.

Lemma wp_alloc_only {A} (m : M W A) (Q : A -> W -> Prop) w :
  alloc_only m -> wp m Q w -> wp m (λ a w', Q a w' ∧ R w w') w.
Proof.
  intros Hm. unfold wp. destruct (m w) as [[a w']|] eqn:E; [|done].
  intros HQ. split; [done|]. by eapply Hm.
Qed.

(** Computations whose result does not depend on the allocator's state. *)
Definition alloc_mono {A} (m : M W A) : Prop := ∀ (Q : A -> W -> Prop) w w',
  R w w' -> (∀ a w1 w2, R w1 w2 -> Q a w1 -> Q a w2) -> wp m Q w -> wp m Q w'.

Lemma alloc_mono_ret {A} (a : A) : alloc_mono (mret a).
Proof. intros Q w w' HR HQ. by apply HQ. Qed.

Lemma alloc_mono_stuck {A} : alloc_mono (A := A) stuck.
Proof. by intros Q w w' HR HQ. Qed.

Lemma alloc_mono_bind {A B} (m : M W A) (f : A -> M W B) :
  alloc_mono m -> (∀ a, alloc_mono (f a)) -> alloc_mono (m ≫= f).
Proof.
  intros Hm Hf Q w w' HR HQ Hwp. apply wp_bind.
  apply (Hm _ w); [done | intros a w1 w2 H12; by apply Hf |].
  unfold wp, mbind, M_bind in *. by destruct (m w) as [[a w1]|].
Qed.

Lemma alloc_mono_massert b : alloc_mono (massert b).
Proof. destruct b; [apply alloc_mono_ret | apply alloc_mono_stuck]. Qed.
End alloc_only.

(** [alloc] shows that a computation only allocates. *)
Ltac alloc :=
  repeat first
    [ progress intros
    | apply alloc_only_ret
    | apply alloc_only_lift
    | apply alloc_only_malloc
    | apply alloc_only_bind
    | match goal with |- AllocRel _ => typeclasses eauto end
    | case_match ].

(** An allocator that never fails and hands out zeroed blocks. *)
Definition malloc_zero (n : Z) (w : unit) : option bytes * unit :=
  (Some (replicate (Z.to_nat n) NUL), w).
#[export] Program Instance zero_libc : Libc unit := {| malloc := malloc_zero |}.
Next Obligation.
  intros n w b w' Hn [= <- <-]. rewrite zlen_replicate. lia.
Qed.

Lemma zero_libc_no_oom : ¬ oom unit.
Proof. intros (n & w & H). done. Qed.

(** ** Facts about the memory primitives *)
Lemma load_app_r (a b : bytes) (c : ascii) i :
  i = zlen a -> load (a ++ c :: b) i = Ok c.
Proof.
  intros ->. unfold load. rewrite bool_decide_true by zl.
  rewrite zlen_to_nat, lookup_app_r by lia. by rewrite Nat.sub_diag.
Qed.

Lemma load_0 c p : load (c :: p) 0 = Ok c.
Proof. apply (load_app_r [] p c 0 eq_refl). Qed.

Lemma load_1 a c p : load (a :: c :: p) 1 = Ok c.
Proof. apply (load_app_r [a] p c 1 eq_refl). Qed.

Lemma load_2 a b c p : load (a :: b :: c :: p) 2 = Ok c.
Proof. apply (load_app_r [a; b] p c 2 eq_refl). Qed.

Lemma load_lt (p : bytes) i :
  0 ≤ i < zlen p -> ∃ c, load p i = Ok c ∧ p !! Z.to_nat i = Some c.
Proof.
  intros Hi. unfold load. rewrite bool_decide_true by done.
  destruct (lookup_lt_is_Some_2 p (Z.to_nat i)) as [c Hc].
  - unfold zlen in Hi. lia.
  - exists c. by rewrite Hc.
Qed.

Lemma memcpy_app (a b d src : bytes) off n :
  off = zlen a -> n = zlen b -> n ≤ zlen src ->
  memcpy (a ++ b ++ d) off src n = Ok (a ++ take (Z.to_nat n) src ++ d).
Proof.
  intros -> -> Hn. unfold memcpy. rewrite bool_decide_true by zl.
  rewrite take_zlen. rewrite <- zlen_app, (app_assoc a b d), drop_zlen. done.
Qed.

Lemma store_app (a d : bytes) x c off :
  off = zlen a -> store (a ++ x :: d) off c = Ok (a ++ c :: d).
Proof.
  intros Ho. unfold store. change (x :: d) with ([x] ++ d).
  by rewrite (memcpy_app a [x] d [c] off 1).
Qed.

Lemma memset_app (a b d : bytes) c off n :
  off = zlen a -> n = zlen b ->
  memset (a ++ b ++ d) off c n = Ok (a ++ replicate (Z.to_nat n) c ++ d).
Proof.
  intros Ho Hn. unfold memset.
  pose proof (zlen_nonneg b).
  rewrite (memcpy_app a b d) by zl.
  rewrite take_ge by (rewrite length_replicate; lia). done.
Qed.

Lemma strlen_app (s tl : bytes) :
  NUL ∉ s -> strlen (s ++ NUL :: tl) = Ok (zlen s).
Proof.
  induction s as [|c s IH]; intros Hs; simpl.
  - done.
  - rewrite decide_False by set_solver.
    rewrite IH by set_solver. simpl. by rewrite zlen_cons.
Qed.

Lemma memcmp_refl (a t u : bytes) : memcmp (a ++ t) (a ++ u) (zlen a) = Ok 0.
Proof.
  unfold memcmp. rewrite zlen_to_nat.
  induction a as [|x a IH]; simpl; [by destruct t, u|].
  by rewrite decide_True.
Qed.

(** [memcmp] is zero exactly on equal blocks. *)
Lemma memcmp_eq (a b : bytes) n :
  0 ≤ n ≤ zlen a -> n ≤ zlen b ->
  ∃ z, memcmp a b n = Ok z ∧
       (z = 0 <-> take (Z.to_nat n) a = take (Z.to_nat n) b).
Proof.
  intros Ha Hb. unfold memcmp.
  assert (Z.to_nat n ≤ length a ∧ Z.to_nat n ≤ length b)%nat as [Hna Hnb]
    by (unfold zlen in *; lia).
  clear Ha Hb. revert a b Hna Hnb.
  induction (Z.to_nat n) as [|k IH]; intros a b Hna Hnb; simpl.
  { exists 0. split; [by destruct a, b | done]. }
  destruct a as [|x a], b as [|y b]; simpl in *; try lia.
  case_decide as Hxy; [subst y|].
  - destruct (IH a b) as (z & Hz & Hiff); [lia..|].
    exists z. rewrite Hz. split; [done|]. rewrite Hiff. split; congruence.
  - eexists. split; [done|]. split; [|congruence].
    case_decide; lia.
Qed.

Lemma strchr_app (s tl : bytes) c :
  NUL ∉ s -> c ≠ NUL -> strchr (s ++ NUL :: tl) c = Ok (bool_decide (c ∈ s)).
Proof.
  intros Hs Hc. induction s as [|d s IH]; cbn [strchr app].
  - rewrite decide_False by done. by rewrite decide_True.
  - destruct (decide (d = c)) as [->|Hdc].
    + rewrite bool_decide_true; [done | apply elem_of_cons; by left].
    + rewrite decide_False by set_solver. rewrite IH by set_solver.
      f_equal. apply bool_decide_ext. set_solver.
Qed.
