(* ===== verification/Printf.v ===== *)
(** * Printf: numbers as text, and the [printf] family

    Digits of a number, least significant first as the program's conversion
    loops produce them, and the C library's [vsnprintf] for the conversions
    the program passes to it: the integer conversions with their flags, field
    width and precision, [%c], [%s] and [%%].  The text of a floating point
    conversion is a parameter. *)

From Stdlib Require Import ZArith Lia Ascii.
From stdpp Require Import base list strings gmap numbers.
From S2P Require Import Prelude Libc.

(** ** Digits *)
Definition digit_char (upper : bool) (d : Z) : ascii :=
  of_uchar (if bool_decide (d < 10) then 48 + d
            else if upper then 55 + d else 87 + d).

(** The loop [do { *p++ = '0' + v % base; v /= base; } while (v)]. *)
Fixpoint rdigits (fuel : nat) (upper : bool) (base v : Z) : bytes :=
  match fuel with
  | O => []
  | S fuel' =>
      digit_char upper (v mod base)
        :: (if bool_decide (v / base = 0) then []
            else rdigits fuel' upper base (v / base))
  end.

(** 64 digits are enough for a 64-bit number in any base. *)
Definition utoa (v : Z) : bytes := rev (rdigits 64 false 10 v).

(** The signed decimal text of [z]. *)
Definition itoa (z : Z) : bytes :=
  if bool_decide (z < 0) then "-"%char :: utoa (- z) else utoa z.

Definition is_digit (c : ascii) : Prop := 48 ≤ uchar c < 58.

(** The value of a string of decimal digits, most significant first. *)
Definition dval (s : bytes) : Z :=
  foldl (λ acc c, acc * 10 + (uchar c - 48)) 0 s.

(** ** printf *)
Inductive varg :=
  | VInt (z : Z)          (** an [int], or a type promoted to it *)
  | VUInt (z : Z)
  | VLong (z : Z)
  | VULong (z : Z)
  | VLLong (z : Z)
  | VULLong (z : Z)
  | VSize (z : Z)
  | VPtr (p : bytes)      (** a pointer to bytes *)
  | VSds (len : Z) (buf : bytes) (** an [sds]: the length in its header, its bytes *)
  | VDouble (text : bytes -> bytes). (** a [double]: its text per directive *)

Record spec := Spec {
  sp_minus : bool; sp_zero : bool; sp_plus : bool; sp_space : bool;
  sp_alt : bool;
  sp_width : Z;
  sp_prec : option Z;
  sp_size : bytes;  (** the length modifier read so far *)
  sp_text : bytes;  (** the directive read so far *)
}.
Definition spec0 : spec :=
  Spec false false false false false 0 None [] [].

Definition pad_to (n : Z) (c : ascii) (s : bytes) : bytes :=
  replicate (Z.to_nat (n - zlen s)) c ++ s.

Definition fmt_field (sp : spec) (sign body : bytes) : bytes :=
  if sp_minus sp then
    let s := sign ++ body in s ++ replicate (Z.to_nat (sp_width sp - zlen s)) " "%char
  else if sp_zero sp && bool_decide (sp_prec sp = None) then
    sign ++ pad_to (sp_width sp - zlen sign) "0"%char body
  else pad_to (sp_width sp) " "%char (sign ++ body).

Definition fmt_digits (sp : spec) (upper : bool) (base v : Z) : bytes :=
  let ds := if bool_decide (v = 0 ∧ sp_prec sp = Some 0) then []
            else rev (rdigits 64 upper base v) in
  pad_to (default 0 (sp_prec sp)) "0"%char ds.

Definition fmt_signed (sp : spec) (v : Z) : bytes :=
  let sign := if bool_decide (v < 0) then ["-"%char]
              else if sp_plus sp then ["+"%char]
              else if sp_space sp then [" "%char] else [] in
  fmt_field sp sign (fmt_digits sp false 10 (Z.abs v)).

Definition fmt_unsigned (sp : spec) (conv : ascii) (v : Z) : bytes :=
  let upper := bool_decide (conv = "X"%char) in
  let base := if bool_decide (conv = "u"%char) then 10
              else if bool_decide (conv = "o"%char) then 8 else 16 in
  let ds := fmt_digits sp upper base v in
  let alt := sp_alt sp && bool_decide (v ≠ 0) in
  if alt && bool_decide (base = 8) then fmt_field sp [] ("0"%char :: ds)
  else if alt && bool_decide (base = 16)
  then fmt_field sp ["0"%char; conv] ds
  else fmt_field sp [] ds.

(** The argument of an integer conversion, read at its length modifier. *)
Definition int_arg (sp : spec) (a : varg) : res Z :=
  match a with
  | VInt z | VUInt z =>
      if decide (sp_size sp = bs "hh") then Ok (swrap 8 z)
      else if decide (sp_size sp = bs "h") then Ok (swrap 16 z)
      else if decide (sp_size sp = []) then Ok (i32 z) else Stuck
  | VLong z | VULong z =>
      if decide (sp_size sp = bs "l") then Ok (i64 z) else Stuck
  | VLLong z | VULLong z =>
      if decide (sp_size sp = bs "ll") then Ok (i64 z) else Stuck
  | VSize z => if decide (sp_size sp = bs "z") then Ok (i64 z) else Stuck
  | _ => Stuck
  end.

(** The unsigned reading of a value of the size the modifier names. *)
Definition unsign (sp : spec) (z : Z) : Z :=
  if decide (sp_size sp = bs "hh") then wrap 8 z
  else if decide (sp_size sp = bs "h") then wrap 16 z
  else if decide (sp_size sp = []) then u32 z else u64 z.

(** The bytes of a C string up to its terminator. *)
Definition cstring (p : bytes) : res bytes :=
  n ← strlen p; mret (take (Z.to_nat n) p).

(** One conversion: the text, and the arguments left. *)
Definition fmt_conv (sp : spec) (conv : ascii) (args : list varg) :
    res (bytes * list varg) :=
  if decide (conv = "%"%char) then Ok ([conv], args) else
  match args with
  | [] => Stuck
  | a :: args' =>
      if decide (conv ∈ bs "di") then
        z ← int_arg sp a; mret (fmt_signed sp z, args')
      else if decide (conv ∈ bs "ouxX") then
        z ← int_arg sp a; mret (fmt_unsigned sp conv (unsign sp z), args')
      else if decide (conv = "c"%char) then
        z ← int_arg sp a; mret (fmt_field sp [] [of_uchar z], args')
      else if decide (conv = "s"%char) then
        match a with
        | VPtr p =>
            s ← cstring p;
            let s' := match sp_prec sp with
                      | Some n => take (Z.to_nat n) s | None => s end in
            mret (fmt_field sp [] s', args')
        | _ => Stuck
        end
      else match a with
           | VDouble text => Ok (text (sp_text sp ++ [conv]), args')
           | _ => Stuck
           end
  end.

(** The scanner of a format: plain text, or inside a directive. *)
Inductive pstate :=
  | Plain
  | Directive (sp : spec).

Definition is_flag (c : ascii) : bool := bool_decide (c ∈ bs "#0-+ ").

Definition add_flag (sp : spec) (c : ascii) : spec :=
  let '(Spec m z p s a w pr sz t) := sp in
  if decide (c = "-"%char) then Spec true z p s a w pr sz (t ++ [c])
  else if decide (c = "0"%char) then Spec m true p s a w pr sz (t ++ [c])
  else if decide (c = "+"%char) then Spec m z true s a w pr sz (t ++ [c])
  else if decide (c = " "%char) then Spec m z p true a w pr sz (t ++ [c])
  else Spec m z p s true w pr sz (t ++ [c]).

Definition add_digit (sp : spec) (c : ascii) : spec :=
  let d := uchar c - 48 in
  let '(Spec m z p s a w pr sz t) := sp in
  match pr with
  | None => Spec m z p s a (w * 10 + d) None sz (t ++ [c])
  | Some n => Spec m z p s a w (Some (n * 10 + d)) sz (t ++ [c])
  end.

Definition directive_char (sp : spec) (c : ascii) : option spec :=
  let '(Spec m z p s a w pr sz t) := sp in
  if is_flag c && bool_decide (w = 0 ∧ pr = None) then Some (add_flag sp c)
  else if isdigit c then Some (add_digit sp c)
  else if decide (c = "."%char) then
    Some (Spec m z p s a w (Some 0) sz (t ++ [c]))
  else if decide (c ∈ bs "hlz") then
    Some (Spec m z p s a w pr (sz ++ [c]) (t ++ [c]))
  else None.

(** The whole output of [vsnprintf], before it is cut to the buffer. *)
Fixpoint format (fmt : bytes) (st : pstate) (args : list varg) : res bytes :=
  match fmt with
  | [] => match st with Plain => Ok [] | Directive _ => Stuck end
  | c :: fmt' =>
      match st with
      | Plain =>
          if decide (c = "%"%char) then format fmt' (Directive spec0) args
          else s ← format fmt' Plain args; mret (c :: s)
      | Directive sp =>
          match directive_char sp c with
          | Some sp' => format fmt' (Directive sp') args
          | None =>
              '(t, args') ← fmt_conv sp c args;
              s ← format fmt' Plain args'; mret (t ++ s)
          end
      end
  end.

(** [vsnprintf(buf, size, fmt, args)]: the bytes written into [buf], cut to
    [size - 1] and terminated, and the length of the whole output. *)
Definition vsnprintf (buf : bytes) (size : Z) (fmt : bytes) (args : list varg) :
    res (bytes * Z) :=
  f ← cstring fmt;
  out ← format f Plain args;
  let n := Z.min (zlen out) (size - 1) in
  buf1 ← memcpy buf 0 out n;
  buf2 ← store buf1 n NUL;
  mret (buf2, zlen out).

(** [sprintf(buf + pos, fmt, args)]: the buffer, and the length written. *)
Definition sprintf (buf : bytes) (pos : Z) (fmt : bytes) (args : list varg) :
    res (bytes * Z) :=
  f ← cstring fmt;
  out ← format f Plain args;
  buf1 ← memcpy buf pos out (zlen out);
  buf2 ← store buf1 (pos + zlen out) NUL;
  mret (buf2, zlen out).

Example printf_int :
  format (bs "x=%05d|%-4s|%x") Plain [VInt (-42); VPtr (cstr "ab"); VUInt 48879]
  = Ok (bs "x=-0042|ab  |beef").
Proof. vm_compute. reflexivity. Qed.

(** ** Facts about digits *)
Lemma rdigits_value fuel v :
  0 ≤ v < 10 ^ Z.of_nat fuel -> dval (rev (rdigits fuel false 10 v)) = v.
Proof.
  revert v. induction fuel as [|fuel IH]; intros v Hv.
  { simpl in *. unfold dval. simpl. lia. }
  rewrite Nat2Z.inj_succ, Z.pow_succ_r in Hv by lia.
  cbn [rdigits rev]. unfold dval. rewrite foldl_app. cbn [foldl].
  pose proof (Z.mod_pos_bound v 10).
  assert (uchar (digit_char false (v mod 10)) = 48 + v mod 10) as ->.
  { unfold digit_char. rewrite bool_decide_true by lia.
    apply uchar_of_uchar. lia. }
  pose proof (Z.div_mod v 10).
  case_bool_decide as Hd; [cbn [rev foldl]; lia|].
  fold (dval (rev (rdigits fuel false 10 (v / 10)))).
  rewrite IH; [lia|]. split; [apply Z.div_pos; lia|].
  apply Z.div_lt_upper_bound; lia.
Qed.

Lemma rdigits_digits fuel v :
  0 ≤ v -> Forall is_digit (rdigits fuel false 10 v).
Proof.
  revert v. induction fuel as [|fuel IH]; intros v Hv; cbn [rdigits];
    [constructor|].
  pose proof (Z.mod_pos_bound v 10). constructor.
  - unfold is_digit, digit_char. rewrite bool_decide_true by lia.
    rewrite uchar_of_uchar; lia.
  - case_bool_decide; [constructor|]. apply IH. apply Z.div_pos; lia.
Qed.

(** The number of digits brackets the value. *)
Lemma rdigits_zlen fuel v :
  0 ≤ v < 10 ^ Z.of_nat fuel -> (0 < fuel)%nat ->
  1 ≤ zlen (rdigits fuel false 10 v) ≤ Z.of_nat fuel ∧
  v < 10 ^ zlen (rdigits fuel false 10 v) ∧
  (0 < v -> 10 ^ (zlen (rdigits fuel false 10 v) - 1) ≤ v).
Proof.
  revert v. induction fuel as [|fuel IH]; intros v Hv Hf; [lia|].
  rewrite Nat2Z.inj_succ, Z.pow_succ_r in Hv by lia.
  cbn [rdigits]. rewrite zlen_cons.
  pose proof (Z.mod_pos_bound v 10). pose proof (Z.div_mod v 10).
  case_bool_decide as Hd.
  { rewrite zlen_nil. change (10 ^ (0 + 1)) with 10.
    change (10 ^ (0 + 1 - 1)) with 1. lia. }
  assert (0 ≤ v / 10 < 10 ^ Z.of_nat fuel) as Hq.
  { split; [apply Z.div_pos; lia|]. apply Z.div_lt_upper_bound; lia. }
  assert (0 < fuel)%nat as Hf'.
  { destruct fuel; [|lia]. simpl in Hq. lia. }
  destruct (IH (v / 10) Hq Hf') as (Hl & Hu & Hlo).
  specialize (Hlo ltac:(lia)).
  set (n := zlen (rdigits fuel false 10 (v / 10))) in *.
  rewrite Z.pow_add_r by lia. change (10 ^ 1) with 10.
  replace (n + 1 - 1) with (Z.succ (n - 1)) by lia.
  rewrite Z.pow_succ_r by lia. lia.
Qed.

Lemma utoa_value v : 0 ≤ v < 2 ^ 64 -> dval (utoa v) = v.
Proof. intros. apply rdigits_value. simpl. lia. Qed.

Lemma utoa_digits v : 0 ≤ v -> Forall is_digit (utoa v).
Proof. intros. by apply Forall_rev, rdigits_digits. Qed.

Lemma utoa_zlen v :
  0 ≤ v < 2 ^ 64 ->
  1 ≤ zlen (utoa v) ≤ 20 ∧ v < 10 ^ zlen (utoa v) ∧
  (0 < v -> 10 ^ (zlen (utoa v) - 1) ≤ v).
Proof.
  intros Hv. unfold utoa. rewrite zlen_rev.
  destruct (rdigits_zlen 64 v) as (Hl & Hu & Hlo); [simpl; lia | lia |].
  split_and!; [lia | | done | done].
  destruct (decide (v = 0)) as [->|Hv0]; [by vm_compute|].
  specialize (Hlo ltac:(lia)).
  destruct (Z.le_gt_cases (zlen (rdigits 64 false 10 v)) 20) as [|Hgt]; [done|].
  assert (10 ^ 20 ≤ 10 ^ (zlen (rdigits 64 false 10 v) - 1)) by
    (apply Z.pow_le_mono_r; lia).
  lia.
Qed.

Lemma digit_not_special c :
  is_digit c -> c ≠ CR ∧ c ≠ LF ∧ c ≠ NUL ∧ c ≠ "-"%char ∧ c ≠ "+"%char.
Proof. unfold is_digit. intros Hc. split_and!; intros ->;
  destruct Hc as [Hc _]; by apply Hc.
Qed.

(** More fuel than digits changes nothing. *)
Lemma rdigits_fuel f g up base v :
  2 ≤ base -> 0 ≤ v < base ^ Z.of_nat f -> v < base ^ Z.of_nat g ->
  (0 < f)%nat -> (0 < g)%nat ->
  rdigits f up base v = rdigits g up base v.
Proof.
  intros Hb. revert g v. induction f as [|f IH]; intros g v Hf Hg Hf0 Hg0; [lia|].
  destruct g as [|g]; [lia|]. cbn [rdigits]. f_equal.
  case_bool_decide as Hq; [done|].
  rewrite Nat2Z.inj_succ, Z.pow_succ_r in Hf, Hg by lia.
  assert (0 ≤ v / base) by (apply Z.div_pos; lia).
  assert (v / base < base ^ Z.of_nat f) by (apply Z.div_lt_upper_bound; lia).
  assert (v / base < base ^ Z.of_nat g) by (apply Z.div_lt_upper_bound; lia).
  apply IH; [lia | lia | |]; (destruct f, g; simpl in *; lia).
Qed.

Lemma utoa_rdigits f v :
  0 ≤ v < 2 ^ 64 -> (20 ≤ f)%nat -> rdigits f false 10 v = rev (utoa v).
Proof.
  intros Hv Hf. unfold utoa. rewrite rev_involutive.
  assert (10 ^ 20 ≤ 10 ^ Z.of_nat f) by (apply Z.pow_le_mono_r; lia).
  apply rdigits_fuel; [lia | lia | simpl; lia | lia | lia].
Qed.

(** The output of [vsnprintf] in a buffer of its size. *)
Lemma vsnprintf_ok buf size f ftl args out :
  zlen buf = size -> 1 ≤ size -> NUL ∉ f ->
  format f Plain args = Ok out ->
  ∃ pre rest, vsnprintf buf size (f ++ NUL :: ftl) args = Ok (pre ++ NUL :: rest, zlen out) ∧
    pre = take (Z.to_nat (size - 1)) out ∧
    zlen pre + zlen rest + 1 = size ∧
    rest = drop (Z.to_nat (zlen pre + 1)) buf.
Proof.
  intros Hbuf Hsize Hf Hout. unfold vsnprintf, cstring. rewrite strlen_app by done.
  rsimpl. rewrite take_zlen, Hout. rsimpl. cbv zeta.
  set (n := Z.min (zlen out) (size - 1)). pose proof (zlen_nonneg out).
  destruct (split_zlen buf n) as (a & b & -> & Ha); [lia|].
  destruct b as [|x rest]; [zl|].
  pose proof (memcpy_app [] a (x :: rest) out 0 n) as Hm. cbn [app] in Hm.
  rewrite Hm by (try done; lia). rsimpl.
  assert (zlen (take (Z.to_nat n) out) = n) as Hn by (apply zlen_take; lia).
  rewrite store_app by done. rsimpl.
  exists (take (Z.to_nat n) out), rest. split_and!.
  - done.
  - unfold n. destruct (Z.min_spec (zlen out) (size - 1)) as [[? ->]|[? ->]]; [|done].
    rewrite !take_ge; [done | |]; unfold zlen in *; lia.
  - zl.
  - rewrite Hn, <- Ha.
    replace (Z.to_nat (zlen a + 1)) with (length a + 1)%nat by (unfold zlen; lia).
    by rewrite drop_app_add.
Qed.
