(* ===== verification/Sds.v ===== *)
(** * Sds: the dynamic strings of hiredis (sds.c, sds.h)

    A string is a [struct sdshdr]: its length, the free bytes after it and the
    whole flexible array member, allocated bytes past the terminator included.
    Every operation that the C code runs in place returns the new header and
    buffer; NULL is [None].  [mk c tl] is the well-formed string of contents
    [c] with the bytes [tl] free after its terminator. *)

From Stdlib Require Import ZArith Lia Ascii.
From stdpp Require Import base list strings gmap numbers.
From S2P Require Import Prelude Libc Printf.

Record sdshdr := Sdshdr {
  sh_len : Z;   (** int len *)
  sh_free : Z;  (** int free *)
  sh_buf : bytes; (** char buf[] *)
}.

Definition SDS_MAX_PREALLOC : Z := 1024 * 1024.
(** sizeof(struct sdshdr) *)
Definition SDS_HDR : Z := 8.

Definition sdslen (s : sdshdr) : Z := u64 (sh_len s).
Definition sdsavail (s : sdshdr) : Z := u64 (sh_free s).

(** The header's own bytes stand before the array in the allocated block. *)
Definition hdr_bytes : bytes := replicate 8 NUL.

Section ops.
Context {W : Type} `{!Libc W}.

Definition sdsnewlen (init : option bytes) (initlen : Z) :
    M W (option sdshdr) :=
  blk ← (match init with
         | Some _ => c_malloc (u64 (SDS_HDR + initlen + 1))
         | None => c_calloc (u64 (SDS_HDR + initlen + 1))
         end);
  match blk with
  | None => mret None
  | Some b =>
      let buf := drop 8 b in
      buf1 ← lift (match init with
                   | Some p => if bool_decide (initlen ≠ 0)
                               then memcpy buf 0 p initlen else Ok buf
                   | None => Ok buf
                   end);
      buf2 ← lift (store buf1 initlen NUL);
      mret (Some (Sdshdr (i32 initlen) 0 buf2))
  end.

Definition sdsempty : M W (option sdshdr) := sdsnewlen (Some (cstr "")) 0.

Definition sdsnew (init : option bytes) : M W (option sdshdr) :=
  initlen ← lift (match init with None => Ok 0 | Some p => strlen p end);
  sdsnewlen init initlen.

Definition sdsdup (s : sdshdr) : M W (option sdshdr) :=
  sdsnewlen (Some (sh_buf s)) (sdslen s).

Definition sdsupdatelen (s : sdshdr) : res sdshdr :=
  n ← strlen (sh_buf s);
  let reallen := i32 n in
  mret (Sdshdr reallen (i32 (sh_free s + i32 (sh_len s - reallen))) (sh_buf s)).

Definition sdsclear (s : sdshdr) : res sdshdr :=
  buf ← store (sh_buf s) 0 NUL;
  mret (Sdshdr 0 (i32 (sh_free s + sh_len s)) buf).

Definition sdsMakeRoomFor (s : sdshdr) (addlen : Z) : M W (option sdshdr) :=
  let free := sdsavail s in
  if bool_decide (addlen ≤ free) then mret (Some s) else
  let len := sdslen s in
  let newlen := u64 (len + addlen) in
  let newlen := if bool_decide (newlen < SDS_MAX_PREALLOC)
                then u64 (newlen * 2) else u64 (newlen + SDS_MAX_PREALLOC) in
  newsh ← c_realloc (hdr_bytes ++ sh_buf s) (u64 (SDS_HDR + newlen + 1));
  mret ((λ b, Sdshdr (sh_len s) (i32 (newlen - len)) (drop 8 b)) <$> newsh).

(** realloc's result is used without a check for NULL. *)
Definition sdsRemoveFreeSpace (s : sdshdr) : M W sdshdr :=
  newsh ← c_realloc (hdr_bytes ++ sh_buf s) (u64 (SDS_HDR + sh_len s + 1));
  b ← lift (deref newsh);
  mret (Sdshdr (sh_len s) 0 (drop 8 b)).

Definition sdsAllocSize (s : sdshdr) : Z :=
  u64 (SDS_HDR + sh_len s + sh_free s + 1).

Definition sdsIncrLen (s : sdshdr) (incr : Z) : res sdshdr :=
  _ ← rassert (bool_decide (incr ≤ sh_free s));
  let len := i32 (sh_len s + incr) in
  let free := i32 (sh_free s - incr) in
  _ ← rassert (bool_decide (0 ≤ free));
  buf ← store (sh_buf s) len NUL;
  mret (Sdshdr len free buf).

Definition sdsgrowzero (s : sdshdr) (len : Z) : M W (option sdshdr) :=
  let curlen := u64 (sh_len s) in
  if bool_decide (len ≤ curlen) then mret (Some s) else
  o ← sdsMakeRoomFor s (u64 (len - curlen));
  match o with
  | None => mret None
  | Some s' =>
      buf ← lift (memset (sh_buf s') curlen NUL (u64 (len - curlen + 1)));
      let totlen := u64 (i32 (sh_len s' + sh_free s')) in
      let len' := i32 len in
      mret (Some (Sdshdr len' (i32 (totlen - len')) buf))
  end.

Definition sdscatlen (s : sdshdr) (t : bytes) (len : Z) : M W (option sdshdr) :=
  let curlen := sdslen s in
  o ← sdsMakeRoomFor s len;
  match o with
  | None => mret None
  | Some s' =>
      buf1 ← lift (memcpy (sh_buf s') curlen t len);
      buf2 ← lift (store buf1 (u64 (curlen + len)) NUL);
      mret (Some (Sdshdr (i32 (curlen + len)) (i32 (sh_free s' - len)) buf2))
  end.

Definition sdscat (s : sdshdr) (t : bytes) : M W (option sdshdr) :=
  n ← lift (strlen t); sdscatlen s t n.

Definition sdscatsds (s t : sdshdr) : M W (option sdshdr) :=
  sdscatlen s (sh_buf t) (sdslen t).

Definition sdscpylen (s : sdshdr) (t : bytes) (len : Z) : M W (option sdshdr) :=
  let totlen := u64 (i32 (sh_free s + sh_len s)) in
  o ← (if bool_decide (totlen < len)
       then sdsMakeRoomFor s (u64 (len - sh_len s)) else mret (Some s));
  match o with
  | None => mret None
  | Some s' =>
      let totlen := if bool_decide (totlen < len)
                    then u64 (i32 (sh_free s' + sh_len s')) else totlen in
      buf1 ← lift (memcpy (sh_buf s') 0 t len);
      buf2 ← lift (store buf1 len NUL);
      mret (Some (Sdshdr (i32 len) (i32 (totlen - len)) buf2))
  end.

Definition sdscpy (s : sdshdr) (t : bytes) : M W (option sdshdr) :=
  n ← lift (strlen t); sdscpylen s t n.
End ops.

(** ** In-place operations *)

(** The scan [while (sp <= end && strchr(cset, *sp)) sp++]. *)
Fixpoint trim_left (fuel : nat) (buf cset : bytes) (sp end_ : Z) : res Z :=
  match fuel with
  | O => Stuck
  | S fuel' =>
      if bool_decide (sp ≤ end_) then
        c ← load buf sp; b ← strchr cset c;
        if (b : bool) then trim_left fuel' buf cset (sp + 1) end_ else Ok sp
      else Ok sp
  end.

(** The scan [while (ep > start && strchr(cset, *ep)) ep--]. *)
Fixpoint trim_right (fuel : nat) (buf cset : bytes) (ep : Z) : res Z :=
  match fuel with
  | O => Stuck
  | S fuel' =>
      if bool_decide (ep > 0) then
        c ← load buf ep; b ← strchr cset c;
        if (b : bool) then trim_right fuel' buf cset (ep - 1) else Ok ep
      else Ok ep
  end.

Definition sdstrim (s : sdshdr) (cset : bytes) : res sdshdr :=
  let fuel := S (S (length (sh_buf s))) in
  let end_ := sdslen s - 1 in
  sp ← trim_left fuel (sh_buf s) cset 0 end_;
  ep ← trim_right fuel (sh_buf s) cset end_;
  let len := if bool_decide (sp > ep) then 0 else (ep - sp) + 1 in
  buf1 ← (if bool_decide (sp ≠ 0)
          then src ← ptr_add (sh_buf s) sp; memcpy (sh_buf s) 0 src len
          else Ok (sh_buf s));
  buf2 ← store buf1 len NUL;
  mret (Sdshdr (i32 len) (i32 (sh_free s + (sh_len s - len))) buf2).

Definition sdsrange (s : sdshdr) (start end_ : Z) : res sdshdr :=
  let len := sdslen s in
  if bool_decide (len = 0) then Ok s else
  let start := if bool_decide (start < 0)
               then (let st := i32 (len + start) in
                     if bool_decide (st < 0) then 0 else st)
               else start in
  let end_ := if bool_decide (end_ < 0)
              then (let en := i32 (len + end_) in
                    if bool_decide (en < 0) then 0 else en)
              else end_ in
  let newlen := if bool_decide (start > end_) then 0 else end_ - start + 1 in
  let '(start, newlen) :=
    if bool_decide (newlen ≠ 0) then
      if bool_decide (i32 len ≤ start) then (start, 0)
      else if bool_decide (i32 len ≤ end_) then
        let end' := i32 (len - 1) in
        (start, if bool_decide (start > end') then 0 else end' - start + 1)
      else (start, newlen)
    else (0, newlen) in
  buf1 ← (if bool_decide (start ≠ 0 ∧ newlen ≠ 0)
          then src ← ptr_add (sh_buf s) start; memcpy (sh_buf s) 0 src newlen
          else Ok (sh_buf s));
  buf2 ← store buf1 newlen NUL;
  mret (Sdshdr (i32 newlen) (i32 (sh_free s + (sh_len s - newlen))) buf2).

(** [for (j = 0; j < len; j++) s[j] = f(s[j])]. *)
Fixpoint map_chars (fuel : nat) (f : ascii -> ascii) (buf : bytes) (j len : Z) :
    res bytes :=
  match fuel with
  | O => if bool_decide (j < len) then Stuck else Ok buf
  | S fuel' =>
      if bool_decide (j < len) then
        c ← load buf j; buf' ← store buf j (f c);
        map_chars fuel' f buf' (j + 1) len
      else Ok buf
  end.

Definition sdstolower (s : sdshdr) : res sdshdr :=
  let len := i32 (sdslen s) in
  buf ← map_chars (length (sh_buf s)) tolower (sh_buf s) 0 len;
  mret (Sdshdr (sh_len s) (sh_free s) buf).

Definition sdstoupper (s : sdshdr) : res sdshdr :=
  let len := i32 (sdslen s) in
  buf ← map_chars (length (sh_buf s)) toupper (sh_buf s) 0 len;
  mret (Sdshdr (sh_len s) (sh_free s) buf).

(** The inner loop of [sdsmapchars]: the first [from[i]] equal to [c]. *)
Fixpoint mapchar (c : ascii) (from to : bytes) (setlen : nat) {struct setlen} :
    res ascii :=
  match setlen, from, to with
  | O, _, _ => Ok c
  | S n, f :: from', t :: to' =>
      if decide (c = f) then Ok t else mapchar c from' to' n
  | _, _, _ => Stuck
  end.

Fixpoint mapchars_loop (fuel : nat) (buf from to : bytes) (setlen : nat)
    (j l : Z) : res bytes :=
  match fuel with
  | O => if bool_decide (j < l) then Stuck else Ok buf
  | S fuel' =>
      if bool_decide (j < l) then
        c ← load buf j; d ← mapchar c from to setlen;
        buf' ← store buf j d;
        mapchars_loop fuel' buf' from to setlen (j + 1) l
      else Ok buf
  end.

Definition sdsmapchars (s : sdshdr) (from to : bytes) (setlen : Z) : res sdshdr :=
  buf ← mapchars_loop (length (sh_buf s)) (sh_buf s) from to
          (Z.to_nat setlen) 0 (sdslen s);
  mret (Sdshdr (sh_len s) (sh_free s) buf).

Definition sdscmp (s1 s2 : sdshdr) : res Z :=
  let l1 := sdslen s1 in
  let l2 := sdslen s2 in
  let minlen := if bool_decide (l1 < l2) then l1 else l2 in
  cmp ← memcmp (sh_buf s1) (sh_buf s2) minlen;
  mret (if bool_decide (cmp = 0) then i32 (l1 - l2) else cmp).

(** ** The representation invariant *)
Definition mk (c tl : bytes) : sdshdr :=
  Sdshdr (zlen c) (zlen tl) (c ++ NUL :: tl).

(** [sds_rep s c]: [s] is well formed and its contents are [c]. *)
Definition sds_rep (s : sdshdr) (c : bytes) : Prop :=
  ∃ tl, s = mk c tl ∧ zlen c + zlen tl < 2 ^ 31.

Definition contents (s : sdshdr) : bytes := take (Z.to_nat (sh_len s)) (sh_buf s).

(** What an operation that may run out of memory promises. *)
Definition sds_post {W} `{!Libc W} (c : bytes) (o : option sdshdr) : Prop :=
  match o with None => oom W | Some s => sds_rep s c end.

Lemma sds_rep_contents s c : sds_rep s c -> contents s = c.
Proof. intros (tl & -> & _). apply take_zlen. Qed.

Lemma sds_rep_len s c : sds_rep s c -> sdslen s = zlen c.
Proof.
  intros (tl & -> & Hfit). unfold sdslen. simpl. apply u64_small. zl.
Qed.

(** The operations the reader calls touch the world only to allocate. *)
Section allocation.
Context {W : Type} `{!Libc W} (R : W -> W -> Prop) `{!AllocRel R}.

Lemma sdsempty_alloc : alloc_only R sdsempty.
Proof. unfold sdsempty, sdsnewlen. alloc. Qed.

Lemma sdscatlen_alloc s t n : alloc_only R (sdscatlen s t n).
Proof. unfold sdscatlen, sdsMakeRoomFor, c_realloc. alloc. Qed.
End allocation.

Section specs.
Context {W : Type} `{!Libc W}.

(** A string whose terminator has been overwritten: [c], then the bytes [r]
    that stand for the terminator and the free space. *)
Definition open_sds (c r : bytes) : sdshdr :=
  Sdshdr (zlen c) (zlen r - 1) (c ++ r).

Lemma mk_open c tl : mk c tl = open_sds c (NUL :: tl).
Proof. unfold mk, open_sds. f_equal. zl. Qed.

Lemma sdsMakeRoomFor_open c r n w :
  1 ≤ zlen r -> zlen c + zlen r - 1 < 2 ^ 31 ->
  0 ≤ n -> zlen c + n + SDS_MAX_PREALLOC < 2 ^ 31 ->
  wp (sdsMakeRoomFor (open_sds c r) n) (λ o _,
    match o with
    | None => oom W
    | Some s => ∃ ext, s = open_sds c (r ++ ext) ∧ n ≤ zlen (r ++ ext) - 1
                       ∧ zlen c + zlen (r ++ ext) - 1 < 2 ^ 31
    end) w.
Proof.
  intros Hr Hfit Hn Hroom. unfold SDS_MAX_PREALLOC in *.
  unfold sdsMakeRoomFor, sdsavail, sdslen, open_sds. cbn [sh_len sh_free sh_buf].
  rewrite !(u64_small (zlen _)), (u64_small (zlen r - 1)) by zl.
  case_bool_decide as Hfree.
  { wp_steps. exists []. rewrite app_nil_r. split_and!; [done | lia | done]. }
  cbv zeta. rewrite (u64_small (zlen c + n)) by zl.
  set (newlen := if bool_decide _ then _ else _).
  assert (zlen c + n ≤ newlen ≤ zlen c + n + 1048576) as Hnew.
  { unfold newlen, SDS_MAX_PREALLOC. case_bool_decide; rewrite u64_small; zl. }
  clearbody newlen. wp_step. unfold SDS_HDR, hdr_bytes.
  apply wp_realloc; [rewrite u64_small; zl | intros; wp_steps; done |].
  intros ext w' Hext. wp_steps. exists ext.
  rewrite u64_small in Hext by zl. autorewrite with zlen in Hext.
  rewrite <- !app_assoc. cbn [drop replicate app fmap option_fmap option_map].
  rewrite i32_small by zl. split_and!; [f_equal; zl | zl | zl].
Qed.

Lemma sdsMakeRoomFor_wp c tl n w :
  zlen c + zlen tl < 2 ^ 31 -> 0 ≤ n -> zlen c + n + SDS_MAX_PREALLOC < 2 ^ 31 ->
  wp (sdsMakeRoomFor (mk c tl) n) (λ o _,
    match o with
    | None => oom W
    | Some s => ∃ tl', s = mk c (tl ++ tl') ∧ n ≤ zlen (tl ++ tl')
                       ∧ zlen c + zlen (tl ++ tl') < 2 ^ 31
    end) w.
Proof.
  intros Hfit Hn Hroom. rewrite mk_open.
  eapply wp_mono; [apply sdsMakeRoomFor_open; [zl | zl | done | done]|].
  intros [s|] w'; [|done]. intros (ext & -> & Hle & Hlt). exists ext.
  rewrite mk_open. autorewrite with zlen in *. split_and!; [done | lia | lia].
Qed.

(** Writing [t] over the free bytes, and the terminator after it. *)
Lemma append_bytes c tl t n :
  0 ≤ n ≤ zlen t -> n ≤ zlen tl ->
  ∃ tl', zlen tl' = zlen tl - n ∧
    (buf1 ← memcpy (c ++ NUL :: tl) (zlen c) t n;
     store buf1 (zlen c + n) NUL)
    = Ok ((c ++ take (Z.to_nat n) t) ++ NUL :: tl').
Proof.
  intros Ht Htl.
  destruct (split_zlen (NUL :: tl) n) as (a & b & Hab & Ha); [zl|].
  assert (zlen b = zlen tl + 1 - n) as Hb.
  { pose proof (f_equal zlen Hab) as E. zl. }
  destruct b as [|x b]; [zl|].
  exists b. split; [zl|].
  rewrite Hab, memcpy_app by lia. rsimpl.
  rewrite app_assoc, store_app; [done|].
  rewrite zlen_app, zlen_take; lia.
Qed.

Lemma sdscatlen_wp s c t n w :
  sds_rep s c -> 0 ≤ n ≤ zlen t -> zlen c + n + SDS_MAX_PREALLOC < 2 ^ 31 ->
  wp (sdscatlen s t n) (λ o _, sds_post (c ++ take (Z.to_nat n) t) o) w.
Proof.
  intros (tl & -> & Hfit) Hn Hroom. unfold sdscatlen.
  rewrite (sds_rep_len (mk c tl) c) by (by exists tl). wp_step.
  eapply wp_mono; [apply sdsMakeRoomFor_wp; [done | lia | done]|].
  intros [s'|] w'; [|intros; wp_steps; done].
  intros (tl' & -> & Htl & Hfit'). clear Hfit.
  generalize dependent (tl ++ tl'). clear tl tl'. intros tl Htl Hfit.
  unfold SDS_MAX_PREALLOC in *.
  destruct (append_bytes c tl t n) as (tl2 & Hlen & E); [done | zl |].
  apply wp_bind, wp_lift. simpl.
  destruct (memcpy _ _ _ _) as [buf1|]; [|done]. simpl in E |- *.
  rewrite u64_small by zl. wp_step. eapply wp_lift_ok; [exact E|]. wp_steps.
  exists tl2. rewrite !i32_small by zl. split.
  - unfold mk. f_equal; [rewrite zlen_app, zlen_take; lia | lia].
  - rewrite zlen_app, zlen_take; lia.
Qed.

Lemma sdsnewlen_wp init n w :
  0 ≤ n < 2 ^ 31 ->
  (∀ p, init = Some p -> n ≤ zlen p) ->
  wp (sdsnewlen init n) (λ o _,
    sds_post (match init with
              | Some p => take (Z.to_nat n) p
              | None => replicate (Z.to_nat n) NUL end) o) w.
Proof.
  intros Hn Hinit. unfold sdsnewlen, SDS_HDR. rewrite u64_small by lia. wp_step.
  assert (∀ (b : bytes) (w' : W), zlen b = 8 + n + 1 ->
    ∃ h x d, b = h ++ d ++ [x] ∧
    length h = 8%nat ∧ zlen d = n) as Hsplit.
  { intros b _ Hb. destruct (split_zlen b 8) as (h & b' & -> & Hh); [lia|].
    destruct (split_zlen b' n) as (d & x & -> & Hd); [zl|].
    destruct x as [|x [|]]; [zl| |zl]. exists h, x, d.
    split_and!; [done | unfold zlen in Hh; lia | done]. }
  destruct init as [p|].
  - specialize (Hinit p eq_refl).
    apply wp_malloc; [lia | intros; wp_steps; done |].
    intros b w' Hb. destruct (Hsplit b w' Hb) as (h & x & d & -> & Hh & Hd).
    rewrite (drop_app_length' h) by done.
    wp_steps. eapply (wp_lift_ok (take (Z.to_nat n) p ++ [x])).
    { case_bool_decide as Hz.
      - apply (memcpy_app [] d [x] p 0 n); [done | lia | lia].
      - assert (n = 0) as -> by (destruct (decide (n = 0)); [done | tauto]).
        rewrite (zlen_zero d) by done. done. }
    wp_step. eapply wp_lift_ok.
    { apply (store_app _ []). rewrite zlen_take; lia. }
    wp_steps. exists []. rewrite i32_small by lia. unfold mk.
    autorewrite with zlen. rewrite zlen_take by lia. split; [done|lia].
  - apply wp_calloc; [lia | intros; wp_steps; done |]. intros w'.
    replace (Z.to_nat (8 + n + 1)) with (8 + (Z.to_nat n + 1))%nat by lia.
    rewrite replicate_add, drop_app_length' by done. rewrite replicate_add. simpl.
    wp_steps. eapply wp_lift_ok.
    { apply (store_app _ []). autorewrite with zlen. lia. }
    wp_steps. exists []. rewrite i32_small by lia. unfold mk.
    autorewrite with zlen. split; [f_equal; lia | lia].
Qed.

Lemma sdsempty_wp w : wp sdsempty (λ o _, sds_post [] o) w.
Proof. apply (sdsnewlen_wp (Some (cstr "")) 0); [lia|]. intros p [= <-]. done. Qed.

Lemma sdscatsds_wp s t c d w :
  sds_rep s c -> sds_rep t d -> zlen c + zlen d + SDS_MAX_PREALLOC < 2 ^ 31 ->
  wp (sdscatsds s t) (λ o _, sds_post (c ++ d) o) w.
Proof.
  intros Hs Ht Hroom. unfold sdscatsds. rewrite (sds_rep_len t d) by done.
  destruct Ht as (tl & -> & Hfit). simpl.
  eapply wp_mono; [apply sdscatlen_wp; [done | zl | done]|].
  intros o w'. cbv beta iota. by rewrite take_zlen.
Qed.

Lemma sdscat_wp s t c d tl w :
  sds_rep s c -> t = d ++ NUL :: tl -> NUL ∉ d ->
  zlen c + zlen d + SDS_MAX_PREALLOC < 2 ^ 31 ->
  wp (sdscat s t) (λ o _, sds_post (c ++ d) o) w.
Proof.
  intros Hs -> Hd Hroom. unfold sdscat. wp_step.
  eapply wp_lift_ok; [by apply strlen_app|].
  eapply wp_mono; [apply sdscatlen_wp; [done | zl | done]|].
  intros o w'. cbv beta iota. by rewrite take_zlen.
Qed.

Lemma sdsdup_wp s c w : sds_rep s c -> wp (sdsdup s) (λ o _, sds_post c o) w.
Proof.
  intros Hs. unfold sdsdup. rewrite (sds_rep_len s c) by done.
  destruct Hs as (tl & -> & Hfit). simpl.
  eapply wp_mono; [apply sdsnewlen_wp; [zl | intros p [= <-]; zl] |].
  intros o w'. cbv beta iota. by rewrite take_zlen.
Qed.

Lemma sdscpylen_wp s c t n w :
  sds_rep s c -> 0 ≤ n ≤ zlen t -> n + SDS_MAX_PREALLOC < 2 ^ 31 ->
  wp (sdscpylen s t n) (λ o _, sds_post (take (Z.to_nat n) t) o) w.
Proof.
  intros (tl & -> & Hfit) Hn Hroom. unfold sdscpylen, SDS_MAX_PREALLOC in *. simpl.
  rewrite (i32_small (zlen tl + zlen c)), (u64_small (zlen tl + zlen c)) by zl.
  (* the string afterwards, whatever block it stands in *)
  assert (∀ c' tl', n ≤ zlen c' + zlen tl' -> zlen c' + zlen tl' < 2 ^ 31 -> ∀ w',
    wp (buf1 ← lift (memcpy (c' ++ NUL :: tl') 0 t n);
        buf2 ← lift (store buf1 n NUL);
        mret (Some (Sdshdr (i32 n) (i32 (zlen c' + zlen tl' - n)) buf2)))
      (λ o (_ : W), sds_post (take (Z.to_nat n) t) o) w') as Hfinish.
  { intros c' tl' Hle Hlt w'.
    destruct (split_zlen (c' ++ NUL :: tl') n) as (a & b & Hab & Ha); [zl|].
    destruct b as [|x b]; [pose proof (f_equal zlen Hab); zl|].
    assert (zlen b = zlen c' + zlen tl' - n) as Hb
      by (pose proof (f_equal zlen Hab); zl).
    rewrite Hab. wp_step. eapply wp_lift_ok.
    { apply (memcpy_app [] a (x :: b)); [done | lia | lia]. }
    wp_step. eapply wp_lift_ok.
    { apply store_app. simpl. rewrite zlen_take; lia. }
    wp_steps. exists b. rewrite !i32_small by zl. unfold mk. simpl.
    rewrite zlen_take by lia. split; [f_equal; lia | lia]. }
  wp_step. case_bool_decide as Hgrow.
  - rewrite (u64_small (n - zlen c)) by zl.
    eapply wp_mono; [apply sdsMakeRoomFor_wp; [done | zl | unfold SDS_MAX_PREALLOC; lia]|].
    intros [s'|] w'; [|intros; wp_steps; done].
    intros (tl' & -> & Hle & Hlt). simpl.
    set (T := zlen (tl ++ tl')) in *.
    rewrite (i32_small (T + zlen c)), (u64_small (T + zlen c)) by zl.
    rewrite (Z.add_comm T). apply Hfinish; lia.
  - apply wp_ret. rewrite (Z.add_comm (zlen tl)). apply Hfinish; lia.
Qed.

Lemma sdsgrowzero_wp s c n w :
  sds_rep s c -> 0 ≤ n -> n + SDS_MAX_PREALLOC < 2 ^ 31 ->
  wp (sdsgrowzero s n) (λ o _,
    sds_post (c ++ replicate (Z.to_nat (n - zlen c)) NUL) o) w.
Proof.
  intros (tl & -> & Hfit) Hn Hroom. unfold sdsgrowzero, SDS_MAX_PREALLOC in *. simpl.
  rewrite (u64_small (zlen c)) by zl. case_bool_decide as Hle.
  { wp_steps. exists tl. rewrite Z2Nat.nonpos by lia. simpl.
    by rewrite app_nil_r. }
  rewrite (u64_small (n - zlen c)) by zl. wp_step.
  eapply wp_mono;
    [apply sdsMakeRoomFor_wp; [done | zl | unfold SDS_MAX_PREALLOC; lia]|].
  intros [s'|] w'; [|intros; wp_steps; done].
  intros (tl' & -> & Htl & Hlt). generalize dependent (tl ++ tl').
  clear tl tl' Hfit. intros tl Htl Hlt. simpl.
  csimp.
  destruct (split_zlen tl (n - zlen c)) as (a & b & -> & Ha); [zl|].
  change (c ++ NUL :: a ++ b) with (c ++ (NUL :: a) ++ b). wp_step.
  eapply wp_lift_ok; [apply memset_app; zl|].
  wp_steps. exists b. unfold mk. csimp. split; [|zl].
  f_equal; [zl | zl |].
  replace (Z.to_nat (n - zlen c + 1)) with (Z.to_nat (n - zlen c) + 1)%nat by lia.
  rewrite replicate_add, <- !app_assoc. done.
Qed.
End specs.

(** ** Specifications of the in-place operations *)

(** Cutting the buffer to [n] bytes that already start it. *)
Lemma cut_store c tl n :
  0 ≤ n ≤ zlen c ->
  ∃ tl', zlen tl' = zlen c + zlen tl - n ∧
    store (c ++ NUL :: tl) n NUL = Ok (take (Z.to_nat n) c ++ NUL :: tl').
Proof.
  intros Hn. destruct (split_zlen c n) as (a & b & -> & Ha); [done|].
  rewrite <- Ha, take_zlen. destruct b as [|x b].
  - exists tl. split; [zl|]. rewrite app_nil_r. by apply store_app.
  - exists (b ++ NUL :: tl). split; [zl|]. rewrite <- app_assoc.
    by apply store_app.
Qed.

(** Moving [n] bytes from offset [i] to the front, then cutting. *)
Lemma cut_move c tl i n :
  0 ≤ i -> 0 ≤ n -> i + n ≤ zlen c ->
  ∃ tl', zlen tl' = zlen c + zlen tl - n ∧
    (src ← ptr_add (c ++ NUL :: tl) i;
     buf1 ← memcpy (c ++ NUL :: tl) 0 src n;
     store buf1 n NUL)
    = Ok (take (Z.to_nat n) (drop (Z.to_nat i) c) ++ NUL :: tl').
Proof.
  intros Hi Hn Hin. unfold ptr_add. rewrite bool_decide_true by zl. rsimpl.
  destruct (split_zlen (c ++ NUL :: tl) n) as (a & b & Hab & Ha); [zl|].
  destruct b as [|x b]; [pose proof (f_equal zlen Hab); zl|].
  exists b. split; [pose proof (f_equal zlen Hab); zl|].
  rewrite drop_app_le by (unfold zlen in *; lia).
  rewrite Hab, (memcpy_app [] a (x :: b)); [|done|done|].
  2:{ rewrite zlen_app, zlen_drop by lia. zl. }
  cbn [mbind res_bind app]. rewrite take_app_le.
  2:{ rewrite length_drop. unfold zlen in *. lia. }
  apply store_app. rewrite zlen_take; [done|]. rewrite zlen_drop; lia.
Qed.

(** The substring the indexes [start] and [end_] denote: negative ones count
    from the end, and the interval is cut to the string. *)
Definition range_of (c : bytes) (start end_ : Z) : bytes :=
  let i := if bool_decide (start < 0) then Z.max 0 (zlen c + start) else start in
  let j := if bool_decide (end_ < 0) then Z.max 0 (zlen c + end_) else end_ in
  take (Z.to_nat (j - i + 1)) (drop (Z.to_nat i) c).

Lemma sds_rep_mk c tl : zlen c + zlen tl < 2 ^ 31 -> sds_rep (mk c tl) c.
Proof. intros. by exists tl. Qed.

(** The tail shared by [sdsrange] and [sdstrim]. *)
Lemma cut_result c tl i n (move : bool) :
  zlen c + zlen tl < 2 ^ 31 ->
  0 ≤ i -> 0 ≤ n -> i + n ≤ zlen c ∨ n = 0 ->
  (move = true -> i + n ≤ zlen c) ->
  (move = false -> i = 0 ∨ n = 0) ->
  ∃ s', sds_rep s' (take (Z.to_nat n) (drop (Z.to_nat i) c)) ∧
    (buf1 ← (if move
             then src ← ptr_add (c ++ NUL :: tl) i; memcpy (c ++ NUL :: tl) 0 src n
             else Ok (c ++ NUL :: tl));
     buf2 ← store buf1 n NUL;
     mret (Sdshdr (i32 n) (i32 (zlen tl + (zlen c - n))) buf2)) = Ok s'.
Proof.
  intros Hfit Hi Hn Hin Hmove Hstay.
  assert (∃ tl', zlen tl' = zlen c + zlen tl - n ∧
    (buf1 ← (if move
             then src ← ptr_add (c ++ NUL :: tl) i; memcpy (c ++ NUL :: tl) 0 src n
             else Ok (c ++ NUL :: tl)); store buf1 n NUL)
    = Ok (take (Z.to_nat n) (drop (Z.to_nat i) c) ++ NUL :: tl')) as (tl' & Hl & E).
  { destruct move.
    - destruct (cut_move c tl i n) as (tl' & Hl & E); [lia..|eauto|].
      exists tl'. split; [done|]. rewrite <- E. by destruct (ptr_add _ _).
    - destruct (cut_store c tl n) as (tl' & Hl & E); [zl|].
      exists tl'. split; [done|]. rsimpl. rewrite E.
      destruct (Hstay eq_refl) as [-> | ->]; done. }
  exists (mk (take (Z.to_nat n) (drop (Z.to_nat i) c)) tl').
  assert (zlen (take (Z.to_nat n) (drop (Z.to_nat i) c)) = n) as Hz.
  { destruct (decide (n = 0)) as [->|]; [done|].
    rewrite zlen_take; [done|]. rewrite zlen_drop; lia. }
  split; [apply sds_rep_mk; lia|].
  destruct (if move then _ else _) as [buf1|]; [|done]. simpl in E |- *.
  rewrite E. simpl. unfold mk. csimp. rewrite Hz. repeat f_equal. lia.
Qed.

Lemma sdsrange_ok s c start end_ :
  sds_rep s c -> - 2 ^ 31 ≤ start < 2 ^ 31 -> - 2 ^ 31 ≤ end_ < 2 ^ 31 ->
  ∃ s', sdsrange s start end_ = Ok s' ∧ sds_rep s' (range_of c start end_).
Proof.
  intros Hs Hst Hen. unfold sdsrange. rewrite (sds_rep_len s c) by done.
  pose proof Hs as (tl & E & Hfit). pose proof (zlen_nonneg tl).
  case_bool_decide as Hz.
  { exists s. split; [done|]. apply zlen_zero in Hz as ->. unfold range_of.
    by rewrite drop_nil, take_nil. }
  assert (∀ z, - 2 ^ 31 ≤ z < 2 ^ 31 ->
    (if bool_decide (z < 0)
     then (let st := i32 (zlen c + z) in if bool_decide (st < 0) then 0 else st)
     else z)
    = (if bool_decide (z < 0) then Z.max 0 (zlen c + z) else z)) as Hnorm.
  { intros z Hzr. case_bool_decide; [|done]. cbv zeta.
    rewrite i32_small by zl. case_bool_decide; lia. }
  rewrite !Hnorm by done. clear Hnorm. unfold range_of.
  set (i := if bool_decide (start < 0) then _ else _).
  set (j := if bool_decide (end_ < 0) then _ else _).
  assert (0 ≤ i < 2 ^ 31 ∧ 0 ≤ j < 2 ^ 31) as [Hi Hj].
  { unfold i, j. do 2 case_bool_decide; lia. }
  clearbody i j. pose proof (zlen_nonneg c).
  rewrite (i32_small (zlen c)), (i32_small (zlen c - 1)) by lia.
  subst s. simpl.
  (* the number of bytes kept, and whether they move *)
  assert (∃ i' n, 0 ≤ i' ∧ 0 ≤ n ∧ (i' + n ≤ zlen c ∨ n = 0) ∧
    take (Z.to_nat (j - i + 1)) (drop (Z.to_nat i) c)
    = take (Z.to_nat n) (drop (Z.to_nat i') c) ∧
    (let newlen := if bool_decide (i > j) then 0 else j - i + 1 in
     if bool_decide (newlen ≠ 0)
     then if bool_decide (zlen c ≤ i) then (i, 0)
          else if bool_decide (zlen c ≤ j)
               then (i, if bool_decide (i > zlen c - 1) then 0
                        else zlen c - 1 - i + 1)
               else (i, newlen)
     else (0, newlen)) = (i', n))
    as (i' & n & Hi' & Hn & Hin & Htake & E2).
  { destruct (decide (i > j)) as [Hij|Hij].
    { exists 0, 0. rewrite !(bool_decide_true (i > j)) by done. simpl.
      rewrite Z2Nat.nonpos by lia. split_and!; try done; lia. }
    exists i. rewrite !(bool_decide_false (i > j)) by done. cbv zeta.
    rewrite (bool_decide_true (j - i + 1 ≠ 0)) by lia.
    case_bool_decide as Hci.
    { exists 0. split_and!; try done; try lia.
      rewrite (drop_ge c) by (unfold zlen in *; lia). by rewrite !take_nil. }
    case_bool_decide as Hcj.
    - exists (zlen c - i). rewrite (bool_decide_false (i > zlen c - 1)) by lia.
      split_and!; [lia | lia | lia | | f_equal; lia].
      rewrite !take_ge; [done | |]; rewrite length_drop; unfold zlen in *; lia.
    - exists (j - i + 1). split_and!; try done; lia. }
  cbv zeta in E2. rewrite E2, Htake. clear E2 Htake.
  destruct (cut_result c tl i' n (bool_decide (i' ≠ 0 ∧ n ≠ 0))) as (s' & Hs' & E);
    [lia | lia | lia | done | rewrite bool_decide_eq_true; lia
    | rewrite bool_decide_eq_false; lia |].
  exists s'. split; [|done]. rewrite <- E. by case_bool_decide.
Qed.

(** The bytes [sdstrim] removes: those of the set, and the terminator. *)
Definition in_cset (cset : bytes) (c : ascii) : bool :=
  bool_decide (c ∈ cset) || bool_decide (c = NUL).

Lemma strchr_cset cset tl c :
  NUL ∉ cset -> strchr (cset ++ NUL :: tl) c = Ok (in_cset cset c).
Proof.
  intros Hset. unfold in_cset. destruct (decide (c = NUL)) as [->|Hc].
  - rewrite (bool_decide_false (NUL ∈ cset)) by done. clear Hset.
    rewrite (bool_decide_true (NUL = NUL)) by done. cbn [orb].
    induction cset as [|d cset IH]; cbn [strchr app]; [by rewrite decide_True|].
    destruct (decide (d = NUL)); done.
  - rewrite strchr_app by done. by rewrite (bool_decide_false (c = NUL)), orb_false_r.
Qed.

(** The left scan stops at the first byte not in the set, or past the end. *)
Lemma trim_left_ok fuel a b rest d cset tl :
  NUL ∉ cset -> Forall (in_cset cset) b -> (length b < fuel)%nat ->
  match rest with [] => True | x :: _ => in_cset cset x = false end ->
  trim_left fuel (a ++ b ++ rest ++ d) (cset ++ NUL :: tl) (zlen a)
    (zlen (a ++ b ++ rest) - 1) = Ok (zlen (a ++ b)).
Proof.
  intros Hset Hb Hf Hrest. revert a fuel Hf.
  induction b as [|x b IH]; intros a fuel Hf; destruct fuel as [|fuel]; simpl in Hf; try lia;
    cbn [trim_left].
  - destruct rest as [|x rest]; simpl.
    + rewrite app_nil_r. by rewrite bool_decide_false by lia.
    + rewrite bool_decide_true by zl. rewrite load_app_r by done. simpl.
      rewrite strchr_cset, Hrest by done. simpl. by rewrite app_nil_r.
  - inversion Hb as [|? ? Hx Hb']; subst.
    rewrite bool_decide_true by zl. simpl. rewrite load_app_r by done. simpl.
    rewrite strchr_cset by done. simpl. destruct (in_cset cset x); [|done].
    specialize (IH Hb' (a ++ [x]) fuel ltac:(lia)).
    rewrite <- !app_assoc in IH. simpl in IH. rewrite zlen_app in IH. done.
Qed.

(** The right scan stops at the last byte not in the set, or at the start. *)
Lemma trim_right_ok fuel a x b d cset tl :
  NUL ∉ cset -> Forall (in_cset cset) b -> (length b < fuel)%nat ->
  in_cset cset x = false ∨ a = [] ->
  trim_right fuel (a ++ x :: b ++ d) (cset ++ NUL :: tl) (zlen (a ++ x :: b) - 1)
    = Ok (zlen a).
Proof.
  intros Hset Hb Hf Hx. revert d fuel Hf.
  induction b as [|y b IH] using rev_ind; intros d fuel Hf;
    destruct fuel as [|fuel]; rewrite ?length_app in Hf; simpl in Hf; try lia;
    cbn [trim_right].
  - case_bool_decide as Hp; [|f_equal; zl].
    rewrite load_app_r by zl. simpl. rewrite strchr_cset by done. simpl.
    destruct Hx as [-> | ->]; [f_equal; zl | zl].
  - apply Forall_app in Hb as [Hb Hy].
    inversion Hy as [|? ? Hy' _]; subst.
    rewrite bool_decide_true by zl.
    rewrite (app_assoc (a ++ _)) || idtac.
    replace (a ++ x :: (b ++ [y]) ++ d) with ((a ++ x :: b) ++ y :: d)
      by (by rewrite <- !app_assoc).
    rewrite load_app_r by zl. simpl. rewrite strchr_cset by done. simpl.
    destruct (in_cset cset y); [|done].
    specialize (IH Hb (y :: d) fuel ltac:(lia)). rewrite <- app_assoc. simpl.
    rewrite <- IH. f_equal. zl.
Qed.

Lemma sdstrim_ok s c cset tl :
  sds_rep s c -> NUL ∉ cset ->
  ∃ s', sdstrim s (cset ++ NUL :: tl) = Ok s' ∧
        sds_rep s' (strip (in_cset cset) c).
Proof.
  intros Hs Hset. unfold sdstrim. rewrite (sds_rep_len s c) by done.
  destruct Hs as (ftl & -> & Hfit). cbn [mk sh_buf sh_len sh_free]. cbv zeta.
  destruct (strip_split (in_cset cset) c) as (a & b & E & Ha & Hb & Hh & Hl).
  generalize dependent (strip (in_cset cset) c). intros m E Hh Hl. subst c.
  set (fuel := S (S (length ((a ++ m ++ b) ++ NUL :: ftl)))).
  assert (trim_left fuel ((a ++ m ++ b) ++ NUL :: ftl) (cset ++ NUL :: tl)
            0 (zlen (a ++ m ++ b) - 1) = Ok (zlen a)) as ->.
  { rewrite <- app_assoc.
    apply (trim_left_ok fuel [] a (m ++ b) (NUL :: ftl)); [done | done | |].
    - unfold fuel. rewrite !length_app. lia.
    - destruct m; [by subst b | done]. }
  rsimpl.
  assert (∃ ep, trim_right fuel ((a ++ m ++ b) ++ NUL :: ftl) (cset ++ NUL :: tl)
            (zlen (a ++ m ++ b) - 1) = Ok ep ∧
          (if bool_decide (zlen a > ep) then 0 else ep - zlen a + 1) = zlen m)
    as (ep & -> & Hlen).
  { destruct m as [|y m' _] using rev_ind.
    - subst b. rewrite !app_nil_r in *. destruct a as [|x a].
      { exists (-1). split; [done|]. by rewrite bool_decide_true by done. }
      exists 0. split.
      + apply (trim_right_ok fuel [] x a (NUL :: ftl)); [done | | | by right].
        * by inversion Ha.
        * unfold fuel. rewrite !length_app. simpl. lia.
      + rewrite bool_decide_true by zl. done.
    - exists (zlen (a ++ m')). split; [|rewrite bool_decide_false; zl].
      rewrite rev_app_distr in Hl. simpl in Hl.
      replace (a ++ (m' ++ [y]) ++ b) with ((a ++ m') ++ y :: b)
        by (by rewrite <- !app_assoc).
      rewrite <- app_assoc. cbn [app].
      apply trim_right_ok; [done | done | | by left].
      unfold fuel. rewrite !length_app. simpl. lia. }
  rsimpl. rewrite Hlen.
  destruct (cut_result (a ++ m ++ b) ftl (zlen a) (zlen m) (bool_decide (zlen a ≠ 0)))
    as (s' & Hs' & E'); [done | zl | zl | zl | intros; zl | |].
  { rewrite bool_decide_eq_false. zl. }
  rewrite drop_zlen, take_zlen in Hs'. exists s'. split; [|done].
  rewrite <- E'. by destruct (bool_decide (zlen a ≠ 0)).
Qed.

(** ** Bytewise maps *)
Lemma map_chars_ok fuel f a b d :
  (length b ≤ fuel)%nat ->
  map_chars fuel f (a ++ b ++ d) (zlen a) (zlen (a ++ b)) = Ok (a ++ map f b ++ d).
Proof.
  revert a fuel. induction b as [|x b IH]; intros a fuel Hf.
  - destruct fuel; cbn [map_chars]; by rewrite bool_decide_false by zl.
  - destruct fuel as [|fuel]; [simpl in Hf; lia|]. cbn [map_chars app].
    rewrite bool_decide_true by zl. rewrite load_app_r by done. rsimpl.
    rewrite store_app by done. rsimpl.
    specialize (IH (a ++ [f x]) fuel ltac:(simpl in Hf; lia)).
    rewrite <- !app_assoc in IH. cbn [app] in IH. cbn [map app].
    rewrite <- IH. f_equal; zl.
Qed.

(** A bytewise map of the string keeps its length and free space. *)
Lemma sds_map_ok (f : ascii -> ascii) s c :
  sds_rep s c ->
  ∃ s', (buf ← map_chars (length (sh_buf s)) f (sh_buf s) 0 (i32 (sdslen s));
         mret (Sdshdr (sh_len s) (sh_free s) buf)) = Ok s' ∧ sds_rep s' (map f c).
Proof.
  intros Hs. rewrite (sds_rep_len s c) by done. destruct Hs as (tl & -> & Hfit).
  cbn [mk sh_buf sh_len sh_free]. rewrite i32_small by zl.
  exists (mk (map f c) tl). unfold mk.
  assert (zlen (map f c) = zlen c) as Hl by (unfold zlen; by rewrite length_map).
  rewrite Hl. split; [|exists tl; unfold mk; by rewrite Hl].
  pose proof (map_chars_ok (length (c ++ NUL :: tl)) f [] c (NUL :: tl)) as E.
  rewrite zlen_nil in E. cbn [app] in E. rewrite E; [done|].
  rewrite length_app. lia.
Qed.

Lemma sdstolower_ok s c :
  sds_rep s c -> ∃ s', sdstolower s = Ok s' ∧ sds_rep s' (map tolower c).
Proof. apply sds_map_ok. Qed.

Lemma sdstoupper_ok s c :
  sds_rep s c -> ∃ s', sdstoupper s = Ok s' ∧ sds_rep s' (map toupper c).
Proof. apply sds_map_ok. Qed.

(** The byte [sdsmapchars] puts for [c]. *)
Fixpoint subst_char (from to : bytes) (c : ascii) : ascii :=
  match from, to with
  | f :: from', t :: to' => if decide (c = f) then t else subst_char from' to' c
  | _, _ => c
  end.

Lemma mapchar_ok c from to n :
  (n ≤ length from)%nat -> (n ≤ length to)%nat ->
  mapchar c from to n = Ok (subst_char (take n from) (take n to) c).
Proof.
  revert from to. induction n as [|n IH]; intros from to Hf Ht; cbn [mapchar].
  { done. }
  destruct from, to; simpl in Hf, Ht; try lia. cbn [take subst_char].
  case_decide; [done|]. apply IH; lia.
Qed.

Lemma mapchars_loop_ok fuel from to n a b d :
  (length b ≤ fuel)%nat -> (n ≤ length from)%nat -> (n ≤ length to)%nat ->
  mapchars_loop fuel (a ++ b ++ d) from to n (zlen a) (zlen (a ++ b))
  = Ok (a ++ map (subst_char (take n from) (take n to)) b ++ d).
Proof.
  intros Hl Hf Ht. revert a fuel Hl. induction b as [|x b IH]; intros a fuel Hl.
  - destruct fuel; cbn [mapchars_loop]; by rewrite bool_decide_false by zl.
  - destruct fuel as [|fuel]; [simpl in Hl; lia|]. cbn [mapchars_loop app].
    rewrite bool_decide_true by zl. rewrite load_app_r by done. rsimpl.
    rewrite mapchar_ok by done. rsimpl.
    rewrite store_app by done. cbn [mbind res_bind map app].
    specialize (IH (a ++ [subst_char (take n from) (take n to) x]) fuel
                  ltac:(simpl in Hl; lia)).
    rewrite <- !app_assoc in IH. cbn [app] in IH. rewrite <- IH. f_equal; zl.
Qed.

Lemma sdsmapchars_ok s c from to n :
  sds_rep s c -> 0 ≤ n ≤ zlen from -> n ≤ zlen to ->
  ∃ s', sdsmapchars s from to n = Ok s' ∧
    sds_rep s' (map (subst_char (take (Z.to_nat n) from) (take (Z.to_nat n) to)) c).
Proof.
  intros Hs Hf Ht. unfold sdsmapchars. rewrite (sds_rep_len s c) by done.
  destruct Hs as (tl & -> & Hfit). cbn [mk sh_buf sh_len sh_free].
  set (g := subst_char _ _). exists (mk (map g c) tl). unfold mk.
  assert (zlen (map g c) = zlen c) as Hl by (unfold zlen; by rewrite length_map).
  rewrite Hl. split; [|exists tl; unfold mk; by rewrite Hl].
  pose proof (mapchars_loop_ok (length (c ++ NUL :: tl)) from to (Z.to_nat n)
                [] c (NUL :: tl)) as E.
  rewrite zlen_nil in E. cbn [app] in E. rewrite E; [done| | |].
  - rewrite length_app. lia.
  - unfold zlen in *. lia.
  - unfold zlen in *. lia.
Qed.

(** ** The order of [sdscmp] *)
Fixpoint bytes_cmp (a b : bytes) : comparison :=
  match a, b with
  | [], [] => Eq
  | [], _ :: _ => Lt
  | _ :: _, [] => Gt
  | x :: a', y :: b' =>
      match Z.compare (uchar x) (uchar y) with
      | Eq => bytes_cmp a' b'
      | o => o
      end
  end.

Lemma bytes_cmp_eq a b : bytes_cmp a b = Eq -> a = b.
Proof.
  revert b. induction a as [|x a IH]; intros [|y b]; cbn [bytes_cmp]; try done.
  destruct (Z.compare_spec (uchar x) (uchar y)) as [E| |]; [|done..].
  intros H. f_equal; [by apply uchar_inj | auto].
Qed.

Lemma memcmp_bytes_cmp a b ta tb :
  ∃ z, memcmp (a ++ ta) (b ++ tb) (Z.min (zlen a) (zlen b)) = Ok z ∧
    Z.compare (if bool_decide (z = 0) then zlen a - zlen b else z) 0 = bytes_cmp a b.
Proof.
  unfold memcmp.
  replace (Z.to_nat (Z.min (zlen a) (zlen b))) with (Nat.min (length a) (length b))
    by (unfold zlen; lia).
  revert b. induction a as [|x a IH]; intros b; cbn [length Nat.min].
  { exists 0. split; [by destruct b, (ta), (tb)|]. rewrite bool_decide_true by done.
    destruct b; [done|]. cbn [bytes_cmp]. apply Z.compare_lt_iff. zl. }
  destruct b as [|y b]; cbn [length Nat.min].
  { exists 0. split; [by destruct (tb)|]. rewrite bool_decide_true by done.
    apply Z.compare_gt_iff. zl. }
  cbn [app memcmp_nat bytes_cmp].
  destruct (decide (x = y)) as [->|Hxy].
  - rewrite Z.compare_refl. destruct (IH b) as (z & Hz & Hc). exists z.
    split; [done|]. rewrite <- Hc, !zlen_cons. f_equal. case_bool_decide; lia.
  - eexists. split; [done|].
    destruct (Z.compare_spec (uchar x) (uchar y)) as [E|E|E].
    + by apply uchar_inj in E.
    + by rewrite decide_True by done.
    + by rewrite decide_False by lia.
Qed.

Lemma sdscmp_ok s1 s2 c1 c2 :
  sds_rep s1 c1 -> sds_rep s2 c2 ->
  ∃ z, sdscmp s1 s2 = Ok z ∧ Z.compare z 0 = bytes_cmp c1 c2.
Proof.
  intros H1 H2. unfold sdscmp. rewrite (sds_rep_len s1 c1), (sds_rep_len s2 c2) by done.
  destruct H1 as (t1 & -> & Hf1), H2 as (t2 & -> & Hf2). cbn [mk sh_buf].
  replace (if bool_decide (zlen c1 < zlen c2) then zlen c1 else zlen c2)
    with (Z.min (zlen c1) (zlen c2)) by (case_bool_decide; lia).
  destruct (memcmp_bytes_cmp c1 c2 (NUL :: t1) (NUL :: t2)) as (z & -> & Hz).
  rsimpl. eexists. split; [done|]. csimp. done.
Qed.

(** ** Length bookkeeping *)
Lemma sdsclear_ok s c :
  sds_rep s c -> ∃ s', sdsclear s = Ok s' ∧ sds_rep s' [].
Proof.
  intros (tl & -> & Hfit). unfold sdsclear. cbn [mk sh_buf sh_len sh_free].
  destruct (cut_store c tl 0) as (tl' & Hl & E); [zl|]. rewrite E.
  rsimpl. eexists. split; [done|].
  exists tl'. unfold mk. csimp. split; [|zl]. f_equal; zl.
Qed.

Lemma sdsupdatelen_ok s c d r :
  sds_rep s c -> c = d ++ NUL :: r -> NUL ∉ d ->
  ∃ s', sdsupdatelen s = Ok s' ∧ sds_rep s' d.
Proof.
  intros (tl & -> & Hfit) -> Hd. unfold sdsupdatelen. cbn [mk sh_buf sh_len sh_free].
  rewrite <- app_assoc. cbn [app]. rewrite strlen_app by done. rsimpl.
  eexists. split; [done|]. exists (r ++ NUL :: tl). unfold mk. csimp.
  split; [f_equal; zl | zl].
Qed.

(** After [sdsMakeRoomFor] and a write of [n] bytes past the end. *)
Lemma sdsIncrLen_ok c tl n :
  zlen c + zlen tl < 2 ^ 31 -> 0 ≤ n ≤ zlen tl ->
  ∃ s', sdsIncrLen (mk c tl) n = Ok s' ∧
    sds_rep s' (take (Z.to_nat (zlen c + n)) (c ++ NUL :: tl)).
Proof.
  intros Hfit Hn. unfold sdsIncrLen, rassert. cbn [mk sh_buf sh_len sh_free].
  csimp. rewrite (bool_decide_true (n ≤ zlen tl)) by lia. rsimpl.
  rewrite (bool_decide_true (0 ≤ zlen tl - n)) by lia. rsimpl.
  destruct (split_zlen (c ++ NUL :: tl) (zlen c + n)) as (a & b & Hab & Ha); [zl|].
  destruct b as [|x b]; [pose proof (f_equal zlen Hab); zl|].
  rewrite Hab, store_app by done. rsimpl.
  eexists. split; [done|]. rewrite <- Ha, take_zlen.
  exists b. unfold mk. csimp. pose proof (f_equal zlen Hab). split; [f_equal; zl|zl].
Qed.
