(* ===== verification/SdsText.v ===== *)
(** * SdsText: numbers, formats, splitting and quoting over sds (sds.c)

    The conversions of sds.c between numbers, argument lists and text:
    [sdsll2str], [sdscatfmt], [sdssplitlen], [sdsjoin], [sdscatrepr] and
    [sdssplitargs]. *)

From Stdlib Require Import ZArith Lia Ascii.
From stdpp Require Import base list strings gmap numbers.
From S2P Require Import Prelude Libc Printf Sds.

Definition SDS_LLSTR_SIZE : Z := 21.

(** ** Numbers to text *)

(** [do { *p++ = '0'+(v%10); v /= 10; } while(v);] *)
Fixpoint put_digits (fuel : nat) (buf : bytes) (p v : Z) : res (bytes * Z) :=
  match fuel with
  | O => Stuck
  | S fuel' =>
      buf' ← store buf p (digit_char false (v mod 10));
      if bool_decide (v / 10 = 0) then Ok (buf', p + 1)
      else put_digits fuel' buf' (p + 1) (v / 10)
  end.

(** [while(s < p) { aux = *s; *s = *p; *p = aux; s++; p--; }] *)
Fixpoint swap_ends (fuel : nat) (buf : bytes) (s p : Z) : res bytes :=
  match fuel with
  | O => Stuck
  | S fuel' =>
      if bool_decide (s < p) then
        aux ← load buf s; b ← load buf p;
        buf1 ← store buf s b; buf2 ← store buf1 p aux;
        swap_ends fuel' buf2 (s + 1) (p - 1)
      else Ok buf
  end.

(** The buffer after the call, and the length of the text. *)
Definition sdsll2str (s : bytes) (value : Z) : res (bytes * Z) :=
  let v := u64 (if bool_decide (value < 0) then i64 (- value) else value) in
  '(buf, p) ← put_digits 21 s 0 v;
  '(buf, p) ← (if bool_decide (value < 0)
               then b ← store buf p "-"%char; mret (b, p + 1) else Ok (buf, p));
  let l := p in
  buf ← store buf p NUL;
  buf ← swap_ends 21 buf 0 (p - 1);
  mret (buf, i32 l).

Definition sdsull2str (s : bytes) (v : Z) : res (bytes * Z) :=
  '(buf, p) ← put_digits 21 s 0 v;
  let l := p in
  buf ← store buf p NUL;
  buf ← swap_ends 21 buf 0 (p - 1);
  mret (buf, i32 l).

(** [do { *p-- = '0'+(v%10); v /= 10; } while(v);] *)
Fixpoint put_digits_down (fuel : nat) (buf : bytes) (p v : Z) : res (bytes * Z) :=
  match fuel with
  | O => Stuck
  | S fuel' =>
      buf' ← store buf p (digit_char false (v mod 10));
      if bool_decide (v / 10 = 0) then Ok (buf', p - 1)
      else put_digits_down fuel' buf' (p - 1) (v / 10)
  end.

Section text.
Context {W : Type} `{!Libc W}.

Definition sdsfromlonglong (value : Z) : M W (option sdshdr) :=
  let v := u64 (if bool_decide (value < 0) then i64 (- value) else value) in
  '(buf, p) ← lift (put_digits_down 21 (replicate 32 NUL) 31 v);
  '(buf, p) ← lift (if bool_decide (value < 0)
                    then b ← store buf p "-"%char; mret (b, p - 1)
                    else Ok (buf, p));
  let p := p + 1 in
  q ← lift (ptr_add buf p);
  sdsnewlen (Some q) (32 - p).

(** ** printf-style concatenation *)

(** The loop that doubles the buffer until the output fits. *)
Fixpoint vprintf_loop (fuel : nat) (s : sdshdr) (fmt : bytes)
    (ap : list varg) (buflen : Z) : M W (option sdshdr) :=
  match fuel with
  | O => stuck
  | S fuel' =>
      o ← c_malloc buflen;
      match o with
      | None => mret None
      | Some buf =>
          buf ← lift (store buf (buflen - 2) NUL);
          '(buf, _) ← lift (vsnprintf buf buflen fmt ap);
          c ← lift (load buf (buflen - 2));
          if decide (c = NUL) then sdscat s buf
          else vprintf_loop fuel' s fmt ap (u64 (buflen * 2))
      end
  end.

Definition sdscatvprintf (s : sdshdr) (fmt : bytes) (ap : list varg) :
    M W (option sdshdr) := vprintf_loop 60 s fmt ap 16.

Definition sdscatprintf (s : sdshdr) (fmt : bytes) (ap : list varg) :
    M W (option sdshdr) := sdscatvprintf s fmt ap.

(** [if (sh->free < l) s = sdsMakeRoomFor(s,l);], whose NULL is not checked. *)
Definition ensure_room (s : sdshdr) (l : Z) : M W sdshdr :=
  if bool_decide (sh_free s < l)
  then o ← sdsMakeRoomFor s (u64 l); lift (deref o) else mret s.

(** [memcpy(s+i,str,l); sh->len += l; sh->free -= l;] *)
Definition put_bytes (s : sdshdr) (i : Z) (str : bytes) (l : Z) : res sdshdr :=
  buf ← memcpy (sh_buf s) i str l;
  mret (Sdshdr (i32 (sh_len s + l)) (i32 (sh_free s - l)) buf).

Definition put_number (s : sdshdr) (i : Z) (conv : res (bytes * Z)) :
    M W (sdshdr * Z) :=
  '(buf, l) ← lift conv;
  s ← ensure_room s l;
  s ← lift (put_bytes s i buf l);
  mret (s, i32 (i + l)).

(** One [%] conversion of [sdscatfmt]. *)
Definition catfmt_conv (next : ascii) (s : sdshdr) (i : Z) (ap : list varg) :
    M W (sdshdr * Z * list varg) :=
  let llbuf := replicate (Z.to_nat SDS_LLSTR_SIZE) NUL in
  let number conv ap' := '(s, i) ← put_number s i conv; mret (s, i, ap') in
  let copy str l ap' :=
    s ← ensure_room s l; s ← lift (put_bytes s i str l); mret (s, i32 (i + l), ap') in
  if decide (next = "s"%char) then
    match ap with
    | VPtr str :: ap' => l ← lift (strlen str); copy str (i32 l) ap'
    | _ => stuck
    end
  else if decide (next = "S"%char) then
    match ap with
    | VSds len str :: ap' => copy str (i32 (u64 len)) ap'
    | _ => stuck
    end
  else if decide (next = "i"%char) then
    match ap with VInt z :: ap' => number (sdsll2str llbuf (i32 z)) ap' | _ => stuck end
  else if decide (next = "I"%char) then
    match ap with VLLong z :: ap' => number (sdsll2str llbuf (i64 z)) ap' | _ => stuck end
  else if decide (next = "u"%char) then
    match ap with VUInt z :: ap' => number (sdsull2str llbuf (u32 z)) ap' | _ => stuck end
  else if decide (next = "U"%char) then
    match ap with VULLong z :: ap' => number (sdsull2str llbuf (u64 z)) ap' | _ => stuck end
  else if decide (next = "T"%char) then
    match ap with VSize z :: ap' => number (sdsull2str llbuf (u64 z)) ap' | _ => stuck end
  else
    buf ← lift (store (sh_buf s) i next);
    mret (Sdshdr (i32 (sh_len s + 1)) (i32 (sh_free s - 1)) buf, i32 (i + 1), ap).

Fixpoint catfmt_loop (f : bytes) (s : sdshdr) (i : Z) (ap : list varg)
    {struct f} : M W (sdshdr * Z) :=
  match f with
  | [] => stuck
  | c :: f1 =>
      if decide (c = NUL) then mret (s, i) else
      s ← (if bool_decide (sh_free s = 0)
           then o ← sdsMakeRoomFor s 1; lift (deref o) else mret s);
      if decide (c = "%"%char) then
        match f1 with
        | [] => stuck
        | next :: f2 =>
            '(s, i, ap) ← catfmt_conv next s i ap;
            catfmt_loop f2 s i ap
        end
      else
        buf ← lift (store (sh_buf s) i c);
        catfmt_loop f1 (Sdshdr (i32 (sh_len s + 1)) (i32 (sh_free s - 1)) buf)
          (i32 (i + 1)) ap
  end.

Definition sdscatfmt (s : sdshdr) (fmt : bytes) (ap : list varg) : M W sdshdr :=
  '(s, i) ← catfmt_loop fmt s (i32 (sdslen s)) ap;
  buf ← lift (store (sh_buf s) i NUL);
  mret (Sdshdr (sh_len s) (sh_free s) buf).

(** ** Splitting and joining *)

Definition sep_at (s : bytes) (j : Z) (sep : bytes) (seplen : Z) : res bool :=
  p ← ptr_add s j;
  c ← load p 0; d ← load sep 0;
  if bool_decide (seplen = 1 ∧ c = d) then Ok true
  else z ← memcmp p sep seplen; mret (bool_decide (z = 0)).

(** Storing a token: the array has [slots] places. *)
Definition push_token (tokens : list sdshdr) (slots : Z) (t : sdshdr) :
    res (list sdshdr) :=
  if bool_decide (zlen tokens < slots) then Ok (tokens ++ [t]) else Stuck.

(** The tokens, or [None] after the cleanup on an allocation failure. *)
Fixpoint split_loop (fuel : nat) (s : bytes) (len : Z) (sep : bytes) (seplen : Z)
    (tokens : list sdshdr) (slots start j : Z) : M W (option (list sdshdr)) :=
  match fuel with
  | O => stuck
  | S fuel' =>
      if bool_decide (j < len - (seplen - 1)) then
        (* make room for the next element and the final one *)
        grown ← (if bool_decide (slots < zlen tokens + 2)
                 then o ← c_malloc (u64 (8 * (slots * 2)));
                      mret (match o with Some _ => Some (slots * 2) | None => None end)
                 else mret (Some slots));
        match grown with
        | None => mret None
        | Some slots =>
            found ← lift (sep_at s j sep seplen);
            if (found : bool) then
              p ← lift (ptr_add s start);
              o ← sdsnewlen (Some p) (j - start);
              match o with
              | None => mret None
              | Some t =>
                  tokens ← lift (push_token tokens slots t);
                  split_loop fuel' s len sep seplen tokens slots
                    (j + seplen) (j + seplen - 1 + 1)
              end
            else split_loop fuel' s len sep seplen tokens slots start (j + 1)
        end
      else
        p ← lift (ptr_add s start);
        o ← sdsnewlen (Some p) (len - start);
        match o with
        | None => mret None
        | Some t => tokens ← lift (push_token tokens slots t); mret (Some tokens)
        end
  end.

(** The array returned, or NULL, and [*count] when it is written. *)
Definition sdssplitlen (s : bytes) (len : Z) (sep : bytes) (seplen : Z) :
    M W (option (list sdshdr) * option Z) :=
  if bool_decide (seplen < 1 ∨ len < 0) then mret (None, None) else
  tokens ← c_malloc (8 * 5);
  match tokens with
  | None => mret (None, None)
  | Some _ =>
      if bool_decide (len = 0) then mret (Some [], Some 0) else
      o ← split_loop (S (Z.to_nat len)) s len sep seplen [] 5 0 0;
      match o with
      | None => mret (None, Some 0)
      | Some ts => mret (Some ts, Some (zlen ts))
      end
  end.

(** The loop of [sdsjoin] and [sdsjoinsds] over [cat]; a NULL from a
    concatenation is dereferenced by the next one. *)
Fixpoint join_loop {T} (cat : sdshdr -> T -> M W (option sdshdr))
    (join : option sdshdr) (argv : list T) (sep : bytes) (seplen : Z) :
    M W (option sdshdr) :=
  match argv with
  | [] => mret join
  | a :: argv' =>
      s ← lift (deref join);
      join ← cat s a;
      join ← (match argv' with
              | [] => mret join
              | _ :: _ => s ← lift (deref join); sdscatlen s sep seplen
              end);
      join_loop cat join argv' sep seplen
  end.

Definition sdsjoin (argv : list bytes) (sep : bytes) (seplen : Z) :
    M W (option sdshdr) :=
  join ← sdsempty; join_loop sdscat join argv sep seplen.

Definition sdsjoinsds (argv : list sdshdr) (sep : bytes) (seplen : Z) :
    M W (option sdshdr) :=
  join ← sdsempty; join_loop sdscatsds join argv sep seplen.

(** ** Quoting *)

(** One byte of [sdscatrepr]. *)
Definition catrepr_char (s : sdshdr) (c : ascii) : M W (option sdshdr) :=
  if decide (c = "\"%char ∨ c = "034"%char) then
    sdscatprintf s (cstr "\%c") [VInt (schar c)]
  else if decide (c = LF) then sdscatlen s (cstr "\n") 2
  else if decide (c = CR) then sdscatlen s (cstr "\r") 2
  else if decide (c = "009"%char) then sdscatlen s (cstr "\t") 2
  else if decide (c = "007"%char) then sdscatlen s (cstr "\a") 2
  else if decide (c = "008"%char) then sdscatlen s (cstr "\b") 2
  else if isprint c then sdscatprintf s (cstr "%c") [VInt (schar c)]
  else sdscatprintf s (cstr "\x%02x") [VInt (uchar c)].

Fixpoint catrepr_loop (s : option sdshdr) (p : bytes) (len : nat) {struct len} :
    M W (option sdshdr) :=
  match len with
  | O => mret s
  | S len' =>
      match p with
      | [] => stuck
      | c :: p' =>
          s ← lift (deref s); s ← catrepr_char s c; catrepr_loop s p' len'
      end
  end.

Definition sdscatrepr (s : sdshdr) (p : bytes) (len : Z) : M W (option sdshdr) :=
  let dquote := "034"%char :: [NUL] in
  s ← sdscatlen s dquote 1;
  s ← catrepr_loop s p (Z.to_nat len);
  s ← lift (deref s);
  sdscatlen s dquote 1.
End text.

Definition is_hex_digit (c : ascii) : bool :=
  bool_decide (48 ≤ uchar c ≤ 57) || bool_decide (97 ≤ uchar c ≤ 102)
  || bool_decide (65 ≤ uchar c ≤ 70).

Definition hex_digit_to_int (c : ascii) : Z :=
  let z := uchar c in
  if bool_decide (48 ≤ z ≤ 57) then z - 48
  else if bool_decide (97 ≤ z ≤ 102) then z - 97 + 10
  else if bool_decide (65 ≤ z ≤ 70) then z - 65 + 10
  else 0.

(** The byte of an escape [\xHH] whose [x] is at [p]. *)
Definition hex_escape (p : bytes) : res (option ascii) :=
  x ← load p 0;
  if decide (x = "x"%char) then
    h1 ← load p 1;
    if is_hex_digit h1 then
      h2 ← load p 2;
      if is_hex_digit h2
      then Ok (Some (of_uchar (hex_digit_to_int h1 * 16 + hex_digit_to_int h2)))
      else Ok None
    else Ok None
  else Ok None.

Definition unescape (c : ascii) : ascii :=
  if decide (c = "n"%char) then LF
  else if decide (c = "r"%char) then CR
  else if decide (c = "t"%char) then "009"%char
  else if decide (c = "b"%char) then "008"%char
  else if decide (c = "a"%char) then "007"%char
  else c.

Section splitargs.
Context {W : Type} `{!Libc W}.

(** [current = sdscatlen(current,&c,1)]: a NULL [current] is dereferenced. *)
Definition cat_char (cur : option sdshdr) (c : ascii) : M W (option sdshdr) :=
  s ← lift (deref cur); sdscatlen s [c] 1.

(** [*(p+1) && !isspace( *(p+1))], read at [p+1]. *)
Definition bad_close (p1 : bytes) : res bool :=
  c ← load p1 0; mret (bool_decide (c ≠ NUL) && negb (isspace c)).

(** The loop over one token: the token and where the scan stands after it,
    or [None] for [goto err]. *)
Fixpoint token_loop (p : bytes) (inq insq : bool) (cur : option sdshdr)
    {struct p} : M W (option sdshdr * option bytes) :=
  match p with
  | [] => stuck
  | c :: p1 =>
      if inq then
        if decide (c = "\"%char) then
          esc ← lift (hex_escape p1);
          match esc with
          | Some b =>
              cur ← cat_char cur b;
              match p1 with
              | _ :: _ :: _ :: p4 => token_loop p4 inq insq cur
              | _ => stuck
              end
          | None =>
              match p1 with
              | [] => stuck
              | c1 :: p2 =>
                  if decide (c1 = NUL) then
                    cur ← cat_char cur c; token_loop p1 inq insq cur
                  else cur ← cat_char cur (unescape c1); token_loop p2 inq insq cur
              end
          end
        else if decide (c = "034"%char) then
          bad ← lift (bad_close p1);
          mret (cur, if (bad : bool) then None else Some p1)
        else if decide (c = NUL) then mret (cur, None)
        else cur ← cat_char cur c; token_loop p1 inq insq cur
      else if insq then
        if decide (c = "\"%char) then
          match p1 with
          | [] => stuck
          | c1 :: p2 =>
              if decide (c1 = "'"%char) then
                cur ← cat_char cur c1; token_loop p2 inq insq cur
              else cur ← cat_char cur c; token_loop p1 inq insq cur
          end
        else if decide (c = "'"%char) then
          bad ← lift (bad_close p1);
          mret (cur, if (bad : bool) then None else Some p1)
        else if decide (c = NUL) then mret (cur, None)
        else cur ← cat_char cur c; token_loop p1 inq insq cur
      else
        if decide (c = NUL) then mret (cur, Some p)
        else if decide (c = " "%char ∨ c = LF ∨ c = CR ∨ c = "009"%char)
        then mret (cur, Some p1)
        else if decide (c = "034"%char) then token_loop p1 true insq cur
        else if decide (c = "'"%char) then token_loop p1 inq true cur
        else cur ← cat_char cur c; token_loop p1 inq insq cur
  end.

(** The vector of tokens; [None] is a returned NULL. *)
Fixpoint args_loop (fuel : nat) (p : bytes) (vector : list (option sdshdr)) :
    M W (option (list (option sdshdr))) :=
  match fuel with
  | O => stuck
  | S fuel' =>
      let p := drop_while isspace p in
      c ← lift (load p 0);
      if decide (c = NUL) then
        match vector with
        | [] => o ← c_malloc 8;
                mret (match o with Some _ => Some [] | None => None end)
        | _ :: _ => mret (Some vector)
        end
      else
        cur ← sdsempty;
        '(cur, rest) ← token_loop p false false cur;
        match rest with
        | None => mret None
        | Some p' =>
            v ← c_malloc (u64 (8 * (zlen vector + 1)));
            _ ← lift (deref v);
            args_loop fuel' p' (vector ++ [cur])
        end
  end.

Definition sdssplitargs (line : bytes) : M W (option (list (option sdshdr))) :=
  args_loop (S (length line)) line [].
End splitargs.

Definition result_contents {A} (f : A -> sdshdr) (r : res (option (list A) * unit)) :
    option (list bytes) :=
  match r with Ok (Some l, _) => Some (map (λ a, contents (f a)) l) | _ => None end.

Example splitargs_doc :
  result_contents (default (mk [] []))
    (sdssplitargs (cstr "foo bar 'a b' x\") tt)
  = Some [bs "foo"; bs "bar"; bs "a b"; bs "x\"].
Proof. vm_compute. reflexivity. Qed.

Example catfmt_doc :
  (contents ∘ fst) <$> (match sdscatfmt (mk (bs "x") []) (cstr "*%i:%s%%%U")
     [VInt (-5); VPtr (cstr "hi"); VULLong 18446744073709551615] tt with
   Ok a => Some a | Stuck => None end)
  = Some (bs "x*-5:hi%18446744073709551615").
Proof. vm_compute. reflexivity. Qed.

(** ** Numbers: the loops compute the decimal text *)
Lemma put_digits_ok fuel a b v :
  0 ≤ v < 10 ^ Z.of_nat fuel -> (0 < fuel)%nat ->
  zlen (rdigits fuel false 10 v) ≤ zlen b ->
  ∃ b', zlen b = zlen (rdigits fuel false 10 v) + zlen b' ∧
    put_digits fuel (a ++ b) (zlen a) v
    = Ok (a ++ rdigits fuel false 10 v ++ b', zlen a + zlen (rdigits fuel false 10 v)).
Proof.
  revert a b v. induction fuel as [|fuel IH]; intros a b v Hv Hf Hb; [lia|].
  rewrite Nat2Z.inj_succ, Z.pow_succ_r in Hv by lia.
  cbn [rdigits put_digits] in *. rewrite zlen_cons in Hb.
  destruct b as [|x b]; [zl|]. rewrite store_app by done. rsimpl.
  case_bool_decide as Hq.
  - exists b. split; [zl|]. do 2 f_equal; zl.
  - assert (0 < fuel)%nat by (destruct fuel; [simpl in Hv; pose proof (Z.div_small v 10); lia | lia]).
    destruct (IH (a ++ [digit_char false (v mod 10)]) b (v / 10)) as (b' & Hl & E);
      [split; [apply Z.div_pos; lia | apply Z.div_lt_upper_bound; lia] | done | zl |].
    exists b'. split; [zl|]. rewrite <- !app_assoc in E. cbn [app] in E.
    rewrite zlen_snoc in E. cbn [app]. rewrite E.
    do 2 f_equal; zl.
Qed.

(** Swapping from both ends reverses the segment. *)
Lemma swap_ends_ok fuel a m d :
  zlen m < 2 * Z.of_nat fuel ->
  swap_ends fuel (a ++ m ++ d) (zlen a) (zlen a + zlen m - 1) = Ok (a ++ rev m ++ d).
Proof.
  revert a m d. induction fuel as [|fuel IH]; intros a m d Hf; [zl|].
  cbn [swap_ends]. destruct m as [|x m].
  { by rewrite bool_decide_false by zl. }
  destruct m as [|y m _] using rev_ind.
  { by rewrite bool_decide_false by zl. }
  rewrite bool_decide_true by zl. cbn [app]. rewrite <- app_assoc. cbn [app].
  rewrite (load_app_r a (m ++ y :: d) x (zlen a)) by done. rsimpl.
  pose proof (app_assoc a (x :: m) (y :: d)) as Ex.
  pose proof (app_assoc a (y :: m) (y :: d)) as Ey.
  pose proof (app_assoc a (y :: m) (x :: d)) as Ez. cbn [app] in Ex, Ey, Ez.
  rewrite Ex, load_app_r by zl. rsimpl.
  rewrite <- Ex, (store_app a _ x y (zlen a)) by done. rsimpl.
  rewrite Ey, store_app by zl. rsimpl. rewrite <- Ez.
  specialize (IH (a ++ [y]) m (x :: d) ltac:(zl)).
  rewrite <- !app_assoc in IH. cbn [app] in IH. cbn [rev].
  rewrite rev_app_distr. cbn [rev app]. rewrite <- app_assoc. cbn [app].
  rewrite <- IH. f_equal; zl.
Qed.

Lemma itoa_zlen z : - 2 ^ 63 ≤ z < 2 ^ 63 -> 1 ≤ zlen (itoa z) ≤ 20.
Proof.
  intros Hz. unfold itoa. case_bool_decide as Hneg.
  - rewrite zlen_cons. destruct (utoa_zlen (- z)) as (Hl & Hu & Hlo); [lia|].
    specialize (Hlo ltac:(lia)).
    destruct (Z.le_gt_cases (zlen (utoa (- z))) 19); [lia|].
    assert (10 ^ 19 ≤ 10 ^ (zlen (utoa (- z)) - 1)) by (apply Z.pow_le_mono_r; lia).
    lia.
  - destruct (utoa_zlen z); lia.
Qed.

(** The unsigned magnitude the C code computes for a signed value. *)
Lemma magnitude value :
  - 2 ^ 63 ≤ value < 2 ^ 63 ->
  u64 (if bool_decide (value < 0) then i64 (- value) else value) = Z.abs value.
Proof.
  intros Hv. case_bool_decide as Hn; [|rewrite u64_small; lia].
  destruct (decide (value = - 2 ^ 63)) as [->|]; [done|].
  rewrite i64_small, u64_small; lia.
Qed.

Lemma sdsull2str_ok v buf :
  0 ≤ v < 2 ^ 64 -> SDS_LLSTR_SIZE ≤ zlen buf ->
  ∃ rest, sdsull2str buf v = Ok (utoa v ++ NUL :: rest, zlen (utoa v)).
Proof.
  intros Hv Hbuf. unfold sdsull2str, SDS_LLSTR_SIZE in *.
  destruct (utoa_zlen v Hv) as (Hl & _).
  destruct (put_digits_ok 21 [] buf v) as (b' & Hb & E).
  { simpl. lia. }
  { lia. }
  { rewrite utoa_rdigits, zlen_rev by lia. lia. }
  rewrite utoa_rdigits, zlen_rev in * by lia. cbn [app] in E.
  rewrite zlen_nil in E. rewrite E. rsimpl.
  destruct b' as [|x b']; [zl|]. rewrite store_app by zl. rsimpl.
  pose proof (swap_ends_ok 21 [] (rev (utoa v)) (NUL :: b')) as Es.
  rewrite zlen_rev, zlen_nil, rev_involutive in Es. cbn [app] in Es.
  rewrite Es by lia. rsimpl. exists b'. by rewrite i32_small by lia.
Qed.

Lemma sdsll2str_ok value buf :
  - 2 ^ 63 ≤ value < 2 ^ 63 -> SDS_LLSTR_SIZE ≤ zlen buf ->
  ∃ rest, sdsll2str buf value = Ok (itoa value ++ NUL :: rest, zlen (itoa value)).
Proof.
  intros Hv Hbuf. unfold sdsll2str, SDS_LLSTR_SIZE in *. rewrite magnitude by done.
  pose proof (itoa_zlen value Hv) as Hi.
  destruct (utoa_zlen (Z.abs value)) as (Hl & _); [lia|].
  destruct (put_digits_ok 21 [] buf (Z.abs value)) as (b' & Hb & E).
  { simpl. lia. }
  { lia. }
  { rewrite utoa_rdigits, zlen_rev by lia. lia. }
  rewrite utoa_rdigits, zlen_rev in * by lia. cbn [app] in E.
  rewrite zlen_nil in E. rewrite E. rsimpl.
  assert (∃ x b2, (if bool_decide (value < 0)
      then b ← store (rev (utoa (Z.abs value)) ++ b') (0 + zlen (utoa (Z.abs value))) "-"%char;
           mret (b, 0 + zlen (utoa (Z.abs value)) + 1)
      else Ok (rev (utoa (Z.abs value)) ++ b', 0 + zlen (utoa (Z.abs value))))
      = Ok (rev (itoa value) ++ x :: b2, zlen (itoa value))) as (x & b2 & ->).
  { unfold itoa in *. case_bool_decide as Hn.
    - rewrite Z.abs_neq in * by lia. rewrite zlen_cons in *.
      destruct b' as [|y [|x b2]]; [zl|zl|]. rewrite store_app by zl.
      rsimpl. exists x, b2. cbn [rev]. rewrite <- app_assoc.
      repeat f_equal.
    - rewrite Z.abs_eq in * by lia. destruct b' as [|x b2]; [zl|].
      by exists x, b2. }
  rsimpl. rewrite store_app by zl. rsimpl.
  pose proof (swap_ends_ok 21 [] (rev (itoa value)) (NUL :: b2)) as Es.
  rewrite zlen_rev, zlen_nil, rev_involutive, Z.add_0_l in Es. cbn [app] in Es.
  rewrite Es by lia. rsimpl. exists b2. by rewrite i32_small by lia.
Qed.

(** Writing downwards puts the digits in their final order. *)
Lemma put_digits_down_ok fuel a b v :
  0 ≤ v < 10 ^ Z.of_nat fuel -> (0 < fuel)%nat ->
  zlen (rdigits fuel false 10 v) ≤ zlen a ->
  ∃ a', zlen a = zlen a' + zlen (rdigits fuel false 10 v) ∧
    put_digits_down fuel (a ++ b) (zlen a - 1) v
    = Ok (a' ++ rev (rdigits fuel false 10 v) ++ b, zlen a' - 1).
Proof.
  revert a b v. induction fuel as [|fuel IH]; intros a b v Hv Hf Ha; [lia|].
  rewrite Nat2Z.inj_succ, Z.pow_succ_r in Hv by lia.
  cbn [rdigits put_digits_down] in *. rewrite zlen_cons in Ha.
  destruct a as [|x a _] using rev_ind; [zl|].
  rewrite <- app_assoc. cbn [app]. rewrite store_app by zl. rsimpl.
  case_bool_decide as Hq.
  - exists a. split; [zl|]. cbn [rev app]. f_equal; f_equal; zl.
  - assert (0 < fuel)%nat by (destruct fuel; [simpl in Hv; pose proof (Z.div_small v 10); lia | lia]).
    destruct (IH a (digit_char false (v mod 10) :: b) (v / 10)) as (a' & Hl & E);
      [split; [apply Z.div_pos; lia | apply Z.div_lt_upper_bound; lia] | done | zl |].
    exists a'. split; [zl|]. cbn [rev]. rewrite <- !app_assoc. cbn [app].
    rewrite <- E. f_equal. zl.
Qed.

Section number_specs.
Context {W : Type} `{!Libc W}.

Lemma sdsfromlonglong_wp value w :
  - 2 ^ 63 ≤ value < 2 ^ 63 ->
  wp (sdsfromlonglong value) (λ o _, sds_post (itoa value) o) w.
Proof.
  intros Hv. unfold sdsfromlonglong. rewrite magnitude by done.
  destruct (utoa_zlen (Z.abs value)) as (Hl & _); [lia|].
  pose proof (itoa_zlen value Hv) as Hi.
  destruct (put_digits_down_ok 21 (replicate 32 NUL) [] (Z.abs value)) as (a & Ha & E).
  { simpl. lia. }
  { lia. }
  { rewrite utoa_rdigits, zlen_rev by lia. rewrite zlen_replicate. lia. }
  rewrite utoa_rdigits, zlen_rev, rev_involutive, !app_nil_r in * by lia.
  rewrite zlen_replicate in *. cbn [Z.of_nat Pos.of_succ_nat Pos.succ Z.sub Z.add] in *.
  wp_step. eapply wp_lift_ok; [exact E|]. cbv beta iota.
  assert (∃ a2, zlen a2 + zlen (itoa value) = 32 ∧
    (if bool_decide (value < 0)
     then b ← store (a ++ utoa (Z.abs value)) (zlen a - 1) "-"%char;
          mret (b, zlen a - 1 - 1)
     else Ok (a ++ utoa (Z.abs value), zlen a - 1))
    = Ok (a2 ++ itoa value, zlen a2 - 1)) as (a2 & Ha2 & E2).
  { unfold itoa in *. case_bool_decide as Hn.
    - rewrite Z.abs_neq in * by lia.
      destruct a as [|x a _] using rev_ind; [zl|].
      exists a. split; [zl|]. rewrite <- app_assoc. cbn [app].
      rewrite store_app by zl. rsimpl. do 2 f_equal; zl.
    - rewrite Z.abs_eq in * by lia. exists a. split; [zl|]. done. }
  wp_step. eapply wp_lift_ok; [exact E2|]. cbv beta iota zeta.
  replace (zlen a2 - 1 + 1) with (zlen a2) by lia.
  wp_step. eapply wp_lift_ok.
  { unfold ptr_add. rewrite bool_decide_true by zl. by rewrite drop_zlen. }
  eapply wp_mono; [apply sdsnewlen_wp; [lia | intros p [= <-]; lia]|].
  intros o w'. cbv beta iota. rewrite take_ge; [done|]. unfold zlen in *. lia.
Qed.
End number_specs.

(** ** printf-style concatenation *)
Section format_specs.
Context {W : Type} `{!Libc W}.

Lemma vprintf_loop_wp fuel s c f ftl ap out buflen w :
  sds_rep s c -> NUL ∉ f -> NUL ∉ out -> format f Plain ap = Ok out ->
  zlen c + zlen out + SDS_MAX_PREALLOC < 2 ^ 31 ->
  16 ≤ buflen -> (zlen out + 2 ≤ buflen ∨ buflen < 2 ^ 40) ->
  zlen out + 2 ≤ buflen * 2 ^ (Z.of_nat fuel - 1) -> (0 < fuel)%nat ->
  wp (vprintf_loop fuel s (f ++ NUL :: ftl) ap buflen)
     (λ o _, sds_post (c ++ out) o) w.
Proof.
  intros Hs Hf Hout Hfmt Hroom. revert buflen w.
  induction fuel as [|fuel IH]; intros buflen w H16 Hbig Hfit Hpos; [lia|].
  cbn [vprintf_loop]. wp_step. apply wp_malloc; [lia | intros; wp_steps; done |].
  intros buf w' Hbuf. wp_step.
  destruct (split_zlen buf (buflen - 2)) as (a & b & -> & Ha); [lia|].
  destruct b as [|x b]; [zl|].
  eapply wp_lift_ok; [by apply store_app|].
  destruct (vsnprintf_ok (a ++ NUL :: b) buflen f ftl ap out)
    as (pre & rest & E & Hpre & Hlen & Hrest); [zl | lia | done | done |].
  wp_step. eapply wp_lift_ok; [exact E|]. cbv beta iota.
  assert (zlen (pre ++ NUL :: rest) = buflen) as Htot by zl.
  destruct (Z.le_gt_cases (zlen out) (buflen - 2)) as [Hle|Hgt].
  - (* the output fits: the byte at buflen-2 is a terminator *)
    assert (pre = out) as ->.
    { rewrite Hpre. apply take_ge. unfold zlen in *. lia. }
    assert (load (out ++ NUL :: rest) (buflen - 2) = Ok NUL) as Hload.
    { destruct (Z.eq_dec (zlen out) (buflen - 2)) as [Heq|Hne];
        [by apply load_app_r|].
      destruct (load_lt (out ++ NUL :: rest) (buflen - 2)) as (d & -> & Hd); [zl|].
      f_equal. rewrite lookup_app_r in Hd by (unfold zlen in *; lia).
      replace (Z.to_nat (buflen - 2) - length out)%nat
        with (S (Z.to_nat (buflen - 2 - (zlen out + 1)))) in Hd
        by (unfold zlen in *; lia).
      cbn [lookup list_lookup] in Hd. fold (@list_lookup ascii) in Hd.
      change (rest !! Z.to_nat (buflen - 2 - (zlen out + 1)) = Some d) in Hd.
      rewrite Hrest, lookup_drop in Hd.
      rewrite lookup_app_r in Hd by (unfold zlen in *; lia).
      replace (Z.to_nat (zlen out + 1) + Z.to_nat (buflen - 2 - (zlen out + 1))
               - length a)%nat with O in Hd by (unfold zlen in *; lia).
      cbn in Hd. congruence. }
    wp_step. eapply wp_lift_ok; [exact Hload|].
    rewrite decide_True by done. by eapply sdscat_wp.
  - (* cut: the byte at buflen-2 is one of the output *)
    assert (∃ d, load (pre ++ NUL :: rest) (buflen - 2) = Ok d ∧ d ≠ NUL)
      as (d & Hload & Hd).
    { assert (zlen pre = buflen - 1) by (rewrite Hpre; apply zlen_take; lia).
      destruct (load_lt (pre ++ NUL :: rest) (buflen - 2)) as (d & -> & Hd); [zl|].
      exists d. split; [done|]. intros ->. apply Hout.
      rewrite lookup_app_l in Hd by (unfold zlen in *; lia).
      apply list_elem_of_lookup_2 in Hd. rewrite Hpre in Hd.
      by apply list_elem_of_In, in_firstn_in || eapply elem_of_take in Hd as (?&?&?);
      eapply list_elem_of_lookup_2. }
    wp_step. eapply wp_lift_ok; [exact Hload|]. rewrite decide_False by done.
    destruct Hbig as [|Hbig]; [lia|]. rewrite u64_small by lia.
    destruct fuel as [|fuel]; [simpl in Hfit; lia|].
    assert (zlen out < 2 ^ 31) by (unfold SDS_MAX_PREALLOC in *; zl).
    apply IH; [lia | | | lia].
    + destruct (Z.le_gt_cases (zlen out + 2) (buflen * 2)); [by left|right; lia].
    + replace (Z.of_nat (S (S fuel)) - 1) with (Z.succ (Z.of_nat (S fuel) - 1)) in Hfit by lia.
      rewrite Z.pow_succ_r in Hfit by lia. lia.
Qed.

Lemma sdscatprintf_wp s c f ftl ap out w :
  sds_rep s c -> NUL ∉ f -> NUL ∉ out -> format f Plain ap = Ok out ->
  zlen c + zlen out + SDS_MAX_PREALLOC < 2 ^ 31 ->
  wp (sdscatprintf s (f ++ NUL :: ftl) ap) (λ o _, sds_post (c ++ out) o) w.
Proof.
  intros. apply vprintf_loop_wp; try done; [right; lia | | lia].
  unfold SDS_MAX_PREALLOC in *. simpl. zl.
Qed.
End format_specs.
