(* ===== verification/SdsFormat.v ===== *)
(** * SdsFormat: what [sdscatfmt] appends (sds.c)

    The text of a format as a function of the format and its arguments,
    [catfmt_text], and the proof that [sdscatfmt], which grows the string
    as it goes and counts its length by hand, appends exactly that text. *)

From Stdlib Require Import ZArith Lia Ascii.
From stdpp Require Import base list strings gmap numbers.
From S2P Require Import Prelude Libc Printf Sds SdsText.

(** ** Specification *)

(** The text of one conversion, and the arguments left. *)
Definition conv_text (next : ascii) (ap : list varg) : option (bytes * list varg) :=
  if decide (next = "s"%char) then
    match ap with
    | VPtr str :: ap' => match cstring str with Ok t => Some (t, ap') | Stuck => None end
    | _ => None
    end
  else if decide (next = "S"%char) then
    match ap with
    | VSds len str :: ap' =>
        if bool_decide (0 ≤ len ≤ zlen str) then Some (take (Z.to_nat len) str, ap') else None
    | _ => None
    end
  else if decide (next = "i"%char) then
    match ap with VInt z :: ap' => Some (itoa (i32 z), ap') | _ => None end
  else if decide (next = "I"%char) then
    match ap with VLLong z :: ap' => Some (itoa (i64 z), ap') | _ => None end
  else if decide (next = "u"%char) then
    match ap with VUInt z :: ap' => Some (utoa (u32 z), ap') | _ => None end
  else if decide (next = "U"%char) then
    match ap with VULLong z :: ap' => Some (utoa (u64 z), ap') | _ => None end
  else if decide (next = "T"%char) then
    match ap with VSize z :: ap' => Some (utoa (u64 z), ap') | _ => None end
  else Some ([next], ap).

Fixpoint catfmt_text (f : bytes) (ap : list varg) : option bytes :=
  match f with
  | [] => Some []
  | c :: f1 =>
      if decide (c = "%"%char) then
        match f1 with
        | [] => None
        | next :: f2 =>
            match conv_text next ap with
            | Some (t, ap') => app t <$> catfmt_text f2 ap'
            | None => None
            end
        end
      else cons c <$> catfmt_text f1 ap
  end.

Lemma strlen_bounds p n : strlen p = Ok n -> 0 ≤ n < zlen p.
Proof.
  revert n. induction p as [|c p IH]; intros n; cbn [strlen]; [done|].
  rewrite zlen_cons. pose proof (zlen_nonneg p).
  case_decide; [intros [= <-]; lia|].
  destruct (strlen p) as [m|]; [|done]. rsimpl. intros [= <-].
  specialize (IH m eq_refl). lia.
Qed.

(** ** The invariant: an open string, and [i] at its end *)
Section catfmt.
Context {W : Type} `{!Libc W} (no_oom : ¬ oom W).

(** [o] is the string [c] with room for a terminator, and [i] its length. *)
Definition at_end (c : bytes) (s : sdshdr) (i : Z) : Prop :=
  ∃ r, s = open_sds c r ∧ i = zlen c ∧ 1 ≤ zlen r ∧ zlen c + zlen r - 1 < 2 ^ 31.

Lemma ensure_room_wp c r l w :
  1 ≤ zlen r -> zlen c + zlen r - 1 < 2 ^ 31 ->
  0 ≤ l -> zlen c + l + SDS_MAX_PREALLOC < 2 ^ 31 ->
  wp (ensure_room (open_sds c r) l) (λ s _, ∃ r', s = open_sds c r' ∧
    l + 1 ≤ zlen r' ∧ zlen c + zlen r' - 1 < 2 ^ 31) w.
Proof.
  intros Hr Hfit Hl Hroom. unfold ensure_room. cbn [open_sds sh_free].
  case_bool_decide; [|wp_steps; exists r; split_and!; [done | lia | done]].
  wp_step. unfold SDS_MAX_PREALLOC in *. csimp.
  eapply wp_mono; [by apply sdsMakeRoomFor_open; unfold SDS_MAX_PREALLOC|].
  intros [s|] w'; [|done]. intros (ext & -> & Hle & Hlt).
  unfold deref. wp_steps. exists (r ++ ext). split_and!; [done | lia | done].
Qed.

Lemma put_bytes_ok c r str l :
  0 ≤ l ≤ zlen str -> l + 1 ≤ zlen r -> zlen c + zlen r - 1 < 2 ^ 31 ->
  ∃ r', put_bytes (open_sds c r) (zlen c) str l
          = Ok (open_sds (c ++ take (Z.to_nat l) str) r') ∧
        zlen r' = zlen r - l.
Proof.
  intros Hl Hr Hfit. unfold put_bytes. cbn [open_sds sh_buf sh_len sh_free].
  destruct (split_zlen r l) as (a & b & -> & Ha); [lia|].
  rewrite memcpy_app by lia. rsimpl. exists b. split; [|zl].
  unfold open_sds. rewrite <- app_assoc, !zlen_app, zlen_take by lia.
  csimp. do 2 f_equal; lia.
Qed.

(** Copying the first [l] bytes of [str] to the end. *)
Lemma copy_wp c r str l w :
  1 ≤ zlen r -> zlen c + zlen r - 1 < 2 ^ 31 ->
  0 ≤ l ≤ zlen str -> zlen c + l + SDS_MAX_PREALLOC < 2 ^ 31 ->
  wp (s ← ensure_room (open_sds c r) l;
      s ← lift (put_bytes s (zlen c) str l); mret (s, i32 (zlen c + l)))
     (λ '(s, i) _, at_end (c ++ take (Z.to_nat l) str) s i) w.
Proof.
  intros Hr Hfit Hl Hroom. wp_step.
  eapply wp_mono; [apply ensure_room_wp; [done | done | lia | done]|].
  intros s w' (r' & -> & Hr' & Hfit').
  destruct (put_bytes_ok c r' str l) as (r2 & E & Hr2); [done..|].
  wp_step. eapply wp_lift_ok; [exact E|]. wp_steps.
  exists r2. unfold SDS_MAX_PREALLOC in *. rewrite zlen_app, zlen_take by lia. csimp.
  split_and!; [done | done | lia | lia].
Qed.

Lemma put_number_wp c r t rest w :
  1 ≤ zlen r -> zlen c + zlen r - 1 < 2 ^ 31 ->
  zlen c + zlen t + SDS_MAX_PREALLOC < 2 ^ 31 ->
  wp (put_number (open_sds c r) (zlen c) (Ok (t ++ rest, zlen t)))
     (λ '(s, i) _, at_end (c ++ t) s i) w.
Proof.
  intros Hr Hfit Hroom. unfold put_number. wp_step. eapply wp_lift_ok; [done|]. cbv beta iota.
  pose proof (zlen_nonneg t).
  pose proof (copy_wp c r (t ++ rest) (zlen t) w Hr Hfit ltac:(zl) Hroom) as Hcp.
  by rewrite take_zlen in Hcp.
Qed.

(** A byte stored over the first free one. *)
Lemma put_char_wp c r x :
  2 ≤ zlen r -> zlen c + zlen r - 1 < 2 ^ 31 ->
  ∃ buf, store (sh_buf (open_sds c r)) (zlen c) x = Ok buf ∧
    at_end (c ++ [x]) (Sdshdr (i32 (sh_len (open_sds c r) + 1))
                         (i32 (sh_free (open_sds c r) - 1)) buf) (i32 (zlen c + 1)).
Proof.
  intros Hr Hfit. destruct r as [|y r]; [zl|]. cbn [open_sds sh_buf sh_len sh_free].
  rewrite store_app by done. eexists. split; [done|]. exists r.
  unfold open_sds. rewrite <- app_assoc. autorewrite with zlen in *. csimp.
  split_and!; [f_equal; lia | lia | lia | lia].
Qed.

(** One conversion appends its text. *)
Lemma catfmt_conv_wp next c r ap t ap' w :
  2 ≤ zlen r -> zlen c + zlen r - 1 < 2 ^ 31 ->
  conv_text next ap = Some (t, ap') ->
  zlen c + zlen t + SDS_MAX_PREALLOC < 2 ^ 31 ->
  wp (catfmt_conv next (open_sds c r) (zlen c) ap)
     (λ '(s, i, aps) _, at_end (c ++ t) s i ∧ aps = ap') w.
Proof.
  intros Hr Hfit. unfold conv_text, catfmt_conv. cbv zeta.
  assert (SDS_LLSTR_SIZE ≤ zlen (replicate (Z.to_nat SDS_LLSTR_SIZE) NUL)) as Hbuf
    by (by rewrite zlen_replicate).
  assert (∀ t' conv w', (∃ rest, conv = Ok (t' ++ NUL :: rest, zlen t')) ->
    zlen c + zlen t' + SDS_MAX_PREALLOC < 2 ^ 31 ->
    wp ('(s, i) ← put_number (open_sds c r) (zlen c) conv; mret (s, i, ap'))
       (λ '(s, i, aps) _, at_end (c ++ t') s i ∧ aps = ap') w') as Hnum.
  { intros t' conv w' (rest & ->) Hroom. wp_step.
    eapply wp_mono; [apply put_number_wp; [lia | done | done]|].
    intros [s i] w2 Hat. wp_steps. done. }
  assert (∀ str l w', 0 ≤ l ≤ zlen str ->
    zlen c + l + SDS_MAX_PREALLOC < 2 ^ 31 ->
    wp (s ← ensure_room (open_sds c r) l; s ← lift (put_bytes s (zlen c) str l);
        mret (s, i32 (zlen c + l), ap'))
       (λ '(s, i, aps) _, at_end (c ++ take (Z.to_nat l) str) s i ∧ aps = ap') w') as Hcopy.
  { intros str l w' Hl Hroom.
    pose proof (copy_wp c r str l w' ltac:(lia) Hfit Hl Hroom) as H.
    unfold wp, mbind, M_bind in H |- *. 
    destruct (ensure_room _ _ _) as [[s w2]|]; [|done].
    destruct (lift _ _) as [[s2 w3]|]; [|done]. done. }
  pose proof (zlen_nonneg c). unfold SDS_MAX_PREALLOC in *.
  intros E Hroom.
  repeat case_decide; subst; try (destruct ap as [|[] aps]; try done; []).
  - unfold cstring in E. destruct (strlen p) as [n|] eqn:Hn; [|done]. cbn [mbind res_bind mret res_ret] in E.
    simplify_eq. destruct (strlen_bounds _ _ Hn). rewrite zlen_take in Hroom by lia.
    wp_step. eapply wp_lift_ok; [done|]. rewrite (i32_small n) by lia. apply Hcopy; lia.
  - case_bool_decide; [|done]. simplify_eq. rewrite zlen_take in Hroom by lia.
    rewrite (u64_small len), (i32_small len) by lia. apply Hcopy; lia.
  - simplify_eq. apply Hnum; [|done]. apply sdsll2str_ok; [|done]. pose proof (i32_range z). lia.
  - simplify_eq. apply Hnum; [|done]. apply sdsll2str_ok; [apply i64_range|done].
  - simplify_eq. apply Hnum; [|done]. apply sdsull2str_ok; [pose proof (u32_range z); lia|done].
  - simplify_eq. apply Hnum; [|done]. apply sdsull2str_ok; [apply u64_range|done].
  - simplify_eq. apply Hnum; [|done]. apply sdsull2str_ok; [apply u64_range|done].
  - simplify_eq.
    destruct (put_char_wp c r next) as (buf & Eb & Hat); [done..|].
    wp_step. eapply wp_lift_ok; [exact Eb|]. wp_steps. done.
Qed.

Lemma catfmt_loop_wp f ftl c r ap t w :
  NUL ∉ f -> 1 ≤ zlen r -> zlen c + zlen r - 1 < 2 ^ 31 ->
  catfmt_text f ap = Some t ->
  zlen c + zlen t + SDS_MAX_PREALLOC + 1 < 2 ^ 31 ->
  wp (catfmt_loop (f ++ NUL :: ftl) (open_sds c r) (zlen c) ap)
     (λ '(s, i) _, at_end (c ++ t) s i) w.
Proof.
  remember (length f) as n eqn:Hn. revert f Hn c r ap t w.
  induction (lt_wf n) as [n _ IH]. intros f -> c r ap t w Hf Hr Hfit Ht Hroom.
  destruct f as [|x f].
  { cbn [app catfmt_loop]. rewrite decide_True by done. simplify_eq/=. wp_steps.
    exists r. by rewrite app_nil_r. }
  cbn [app catfmt_loop]. rewrite decide_False by set_solver.
  (* room for one byte *)
  wp_step. apply wp_mono with (λ s _, ∃ r', s = open_sds c r' ∧ 2 ≤ zlen r' ∧
      zlen c + zlen r' - 1 < 2 ^ 31).
  { pose proof (ensure_room_wp c r 1 w Hr Hfit ltac:(lia)) as H.
    unfold ensure_room in H. cbn [open_sds sh_free] in H |- *.
    replace (bool_decide (zlen r - 1 = 0)) with (bool_decide (zlen r - 1 < 1))
      by (apply bool_decide_ext; lia).
    eapply wp_mono; [apply H; cbn [catfmt_text] in Ht; zl|].
    intros s w' (r' & -> & ? & ?). exists r'. split_and!; [done | lia | done]. }
  intros s w' (r' & -> & Hr' & Hfit'). cbn [catfmt_text] in Ht.
  case_decide as Hx.
  - destruct f as [|next f]; [done|]. cbn [app].
    destruct (conv_text next ap) as [[t1 ap']|] eqn:Hc; [|done].
    apply fmap_Some in Ht as (t2 & Ht & ->).
    wp_step. eapply wp_mono; [eapply catfmt_conv_wp; [done | done | done | zl]|].
    intros [[s i] aps] w2 [(r2 & -> & -> & Hr2 & Hfit2) ->].
    rewrite app_assoc. eapply (IH (length f)); try done; [simpl; lia | set_solver | zl].
  - apply fmap_Some in Ht as (t2 & Ht & ->).
    destruct (put_char_wp c r' x) as (buf & E & r2 & E2 & Hi & Hr2 & Hfit2); [done..|].
    wp_step. eapply wp_lift_ok; [exact E|]. rewrite E2, Hi.
    change (x :: t2) with ([x] ++ t2). rewrite app_assoc.
    eapply (IH (length f)); try done; [simpl; lia | set_solver | zl].
Qed.

(** [sdscatfmt] appends the text of its format. *)
Lemma sdscatfmt_wp s c f ftl ap t w :
  sds_rep s c -> NUL ∉ f -> catfmt_text f ap = Some t ->
  zlen c + zlen t + SDS_MAX_PREALLOC + 1 < 2 ^ 31 ->
  wp (sdscatfmt s (f ++ NUL :: ftl) ap) (λ s' _, sds_rep s' (c ++ t)) w.
Proof.
  intros Hs Hf Ht Hroom. unfold sdscatfmt. rewrite (sds_rep_len s c) by done.
  destruct Hs as (tl & -> & Hfit). csimp. rewrite mk_open. wp_step.
  eapply wp_mono; [apply catfmt_loop_wp; [done | zl | zl | done | done]|].
  intros [s i] w' (r & -> & -> & Hr & Hfit').
  destruct r as [|y r]; [zl|]. cbn [open_sds sh_buf sh_len sh_free].
  wp_step. eapply wp_lift_ok; [by apply store_app|]. wp_steps.
  exists r. unfold mk. split; [f_equal; zl | zl].
Qed.
End catfmt.
