(* ===== verification/SdsSplit.v ===== *)
(** * SdsSplit: splitting and joining (sds.c)

    [sdssplitlen] returns tokens that contain no separator and whose join
    with the separator is the text; [sdsjoin] and [sdsjoinsds] compute the
    join. *)

From Stdlib Require Import ZArith Lia Ascii.
From stdpp Require Import base list strings gmap numbers.
From S2P Require Import Prelude Libc Printf Sds SdsText.

(** ** Specification *)
Fixpoint join (sep : bytes) (l : list bytes) : bytes :=
  match l with
  | [] => []
  | [x] => x
  | x :: l' => x ++ sep ++ join sep l'
  end.

Definition occurs (sep t : bytes) : Prop := ∃ a b, t = a ++ sep ++ b.

Lemma join_snoc sep l x :
  join sep (l ++ [x]) = concat (map (λ t, t ++ sep) l) ++ x.
Proof.
  induction l as [|y l IH]; [done|]. cbn [map concat app].
  rewrite <- !app_assoc, <- IH. cbn [join]. destruct l; done.
Qed.

Lemma join_cons sep x y l : join sep (x :: y :: l) = x ++ sep ++ join sep (y :: l).
Proof. done. Qed.

(** ** Splitting *)
Section split.
Context {W : Type} `{!Libc W}.

(** The separator test at [rest]. *)
Lemma sep_at_ok pre rest sep stl :
  1 ≤ zlen sep ≤ zlen rest ->
  ∃ b, sep_at (pre ++ rest) (zlen pre) (sep ++ stl) (zlen sep) = Ok b ∧
    (b = true <-> ∃ r, rest = sep ++ r).
Proof.
  intros Hs. unfold sep_at, ptr_add. rewrite bool_decide_true by zl.
  rewrite drop_zlen. rsimpl.
  destruct rest as [|c rest]; [zl|]. destruct sep as [|d sep]; [zl|].
  cbn [app]. rewrite !load_0. rsimpl.
  assert (∀ b, (memcmp (c :: rest) (d :: sep ++ stl) (zlen (d :: sep))
      ≫= λ z, Ok (bool_decide (z = 0))) = Ok b ->
    (b = true <-> ∃ r, c :: rest = (d :: sep) ++ r)) as Hcmp.
  { intros b. destruct (memcmp_eq (c :: rest) (d :: sep ++ stl) (zlen (d :: sep)))
      as (z & -> & Hz); [zl | zl |]. rsimpl. intros [= <-].
    rewrite bool_decide_eq_true, Hz. change (d :: sep ++ stl) with ((d :: sep) ++ stl).
    rewrite take_zlen. split.
    - intros E. exists (drop (Z.to_nat (zlen (d :: sep))) (c :: rest)).
      rewrite <- E at 1. by rewrite take_drop.
    - intros [r ->]. apply take_zlen. }
  case_bool_decide as H1.
  - exists true. split; [done|]. split; [|done]. intros _. destruct H1 as [H1 ->].
    destruct sep; [by exists rest | zl].
  - destruct (memcmp_eq (c :: rest) (d :: sep ++ stl) (zlen (d :: sep)))
      as (z & E & _); [zl | zl |].
    rewrite E in Hcmp |- *. rsimpl. eexists. split; [done|]. by apply Hcmp.
Qed.

(** The state of the scan: [L] tokens done, [cur] scanned, [rest] to go. *)
Record scan (sep : bytes) (L : list bytes) (cur rest : bytes)
    (tokens : list sdshdr) (slots : Z) : Prop := {
  scan_tokens : Forall2 sds_rep tokens L;
  scan_slots : zlen tokens + 1 ≤ slots;
  scan_none : Forall (λ t, ¬ occurs sep t) L;
  scan_cur : ∀ a b, cur ++ rest = a ++ sep ++ b -> zlen cur ≤ zlen a;
}.

Lemma scan_cur_token sep L cur rest tokens slots :
  scan sep L cur rest tokens slots -> 1 ≤ zlen sep -> ¬ occurs sep cur.
Proof.
  intros Hs Hsep (a & b & ->).
  assert (zlen (a ++ sep ++ b) ≤ zlen a); [|zl].
  eapply scan_cur; [exact Hs|]. by rewrite <- !app_assoc.
Qed.

Lemma scan_skip sep L cur x rest tokens slots :
  scan sep L cur (x :: rest) tokens slots ->
  (¬ ∃ r, x :: rest = sep ++ r) ->
  scan sep L (cur ++ [x]) rest tokens slots.
Proof.
  intros Hs Hno. destruct Hs as [Ht Hsl Hn Hc]. split; [done..|].
  intros a b E. rewrite <- app_assoc in E. cbn [app] in E.
  pose proof (Hc a b E) as Hle. rewrite zlen_snoc.
  destruct (Z.eq_dec (zlen cur) (zlen a)) as [Heq|]; [|lia]. exfalso.
  apply Hno. apply app_inj_1 in E as [-> ->]; [by exists b|].
  unfold zlen in *. lia.
Qed.

Lemma scan_push sep L cur rest tokens slots t :
  scan sep L cur (sep ++ rest) tokens slots -> 1 ≤ zlen sep -> sds_rep t cur ->
  zlen tokens + 2 ≤ slots ->
  scan sep (L ++ [cur]) [] rest (tokens ++ [t]) slots.
Proof.
  intros Hs Hsep Ht Hslots. pose proof (scan_cur_token _ _ _ _ _ _ Hs Hsep).
  destruct Hs. split.
  - apply Forall2_app; [done|]. by repeat constructor.
  - zl.
  - apply Forall_app. split; [done|]. by repeat constructor.
  - intros a b _. zl.
Qed.

Lemma scan_grow sep L cur rest tokens slots n :
  scan sep L cur rest tokens slots -> slots ≤ n -> scan sep L cur rest tokens n.
Proof. intros [] ?. split; [done | lia | done | done]. Qed.

Definition split_post (sep text : bytes) (o : option (list sdshdr)) : Prop :=
  match o with
  | None => oom W
  | Some ts => ∃ L, Forall2 sds_rep ts L ∧ join sep L = text
                    ∧ Forall (λ t, ¬ occurs sep t) L
  end.

Lemma push_token_ok tokens slots t :
  zlen tokens + 1 ≤ slots -> push_token tokens slots t = Ok (tokens ++ [t]).
Proof. intros. unfold push_token. by rewrite bool_decide_true by lia. Qed.

Lemma split_loop_wp fuel sep stl L cur rest tl tokens slots w :
  let text := concat (map (λ t, t ++ sep) L) ++ cur ++ rest in
  1 ≤ zlen sep -> zlen text < 2 ^ 31 ->
  scan sep L cur rest tokens slots -> zlen rest < Z.of_nat fuel ->
  wp (split_loop fuel (text ++ tl) (zlen text) (sep ++ stl) (zlen sep) tokens slots
        (zlen (concat (map (λ t, t ++ sep) L)))
        (zlen (concat (map (λ t, t ++ sep) L) ++ cur)))
     (λ o _, split_post sep text o) w.
Proof.
  intros text Hsep Hlen Hs Hfuel.
  remember (concat (map (λ t, t ++ sep) L) ++ cur ++ rest) as full eqn:Hfull.
  subst text.
  revert L cur rest Hfull tokens slots w Hs Hfuel.
  induction fuel as [|fuel IH]; intros L cur rest Hfull tokens slots w Hs Hfuel; [zl|].
  set (dn := concat (map (λ t, t ++ sep) L)) in *. cbn [split_loop].
  assert (∀ m, ptr_add (full ++ m) (zlen dn) = Ok (cur ++ rest ++ m)) as Hptr.
  { intros m. unfold ptr_add. rewrite Hfull, bool_decide_true by zl.
    by rewrite <- !app_assoc, drop_zlen. }
  case_bool_decide as Hj; cycle 1.
  { rewrite Hptr. wp_steps.
    assert (zlen full - zlen dn = zlen (cur ++ rest)) as -> by (subst full; zl).
    eapply wp_mono; [apply sdsnewlen_wp; [subst full; zl|]|].
    { intros p [= <-]. zl. }
    intros [t|] w'; cbn beta iota; [|intros; wp_steps; done].
    rewrite app_assoc, take_zlen. intros Ht.
    rewrite push_token_ok by (by destruct Hs). wp_steps.
    exists (L ++ [cur ++ rest]). split_and!.
    - apply Forall2_app; [by destruct Hs | by repeat constructor].
    - by rewrite join_snoc, Hfull.
    - apply Forall_app. split; [by destruct Hs|]. constructor; [|done].
      intros (a & b & E). pose proof (scan_cur _ _ _ _ _ _ Hs a b E).
      apply (f_equal zlen) in E. subst full. zl. }
  wp_step.
  apply wp_mono with (λ o _, match o with None => oom W
    | Some n => slots ≤ n ∧ zlen tokens + 2 ≤ n end).
  { pose proof (scan_slots _ _ _ _ _ _ Hs). pose proof (zlen_nonneg tokens).
    case_bool_decide; [|wp_steps; lia]. wp_step.
    apply wp_malloc; [apply u64_range | done | intros; wp_steps; lia]. }
  clear w. intros [n|] w; [|intros; wp_steps; done]. intros [Hn1 Hn2].
  apply (scan_grow _ _ _ _ _ _ n) in Hs; [|done]. clear slots Hn1.
  assert (full ++ tl = (dn ++ cur) ++ rest ++ tl) as Hft
    by (rewrite Hfull; by rewrite <- !app_assoc).
  destruct (sep_at_ok (dn ++ cur) (rest ++ tl) sep stl) as (b & E & Hb);
    [subst full; zl|].
  rewrite <- Hft in E. wp_step. eapply wp_lift_ok; [exact E|]. clear E Hft.
  destruct b.
  - destruct Hb as [Hb _]. destruct (Hb eq_refl) as [r Hr].
    assert (∃ r', rest = sep ++ r') as [r' ->].
    { exists (take (length rest - length sep) r).
      apply (f_equal (take (length rest))) in Hr.
      rewrite take_app_length in Hr. rewrite Hr at 1.
      rewrite take_app. f_equal. apply take_ge. subst full. unfold zlen in *.
      rewrite !length_app in *. lia. }
    rewrite Hptr. wp_steps.
    replace (zlen (dn ++ cur) - zlen dn) with (zlen cur) by zl.
    eapply wp_mono; [apply sdsnewlen_wp; [subst full; zl|]|].
    { intros p [= <-]. zl. }
    intros [t|] w'; cbn beta iota; [|intros; wp_steps; done].
    rewrite take_zlen. intros Ht.
    rewrite push_token_ok by lia. wp_steps.
    pose proof (scan_push _ _ _ _ _ _ t Hs Hsep Ht Hn2) as Hs'.
    specialize (IH (L ++ [cur]) [] r').
    rewrite map_app, concat_app in IH. cbn [map concat] in IH. fold dn in IH.
    rewrite !app_nil_r in IH.
    replace (zlen (dn ++ cur) + zlen sep) with (zlen (dn ++ cur ++ sep)) by zl.
    replace (zlen (dn ++ cur ++ sep) - 1 + 1) with (zlen (dn ++ cur ++ sep)) by zl.
    apply IH; [|done | subst full; zl]. rewrite Hfull. by rewrite <- !app_assoc.
  - destruct rest as [|x rest]; [subst full; zl|].
    replace (zlen (dn ++ cur) + 1) with (zlen (dn ++ cur ++ [x])) by zl.
    apply (IH L (cur ++ [x]) rest); [|apply scan_skip; [done|] | zl].
    + rewrite Hfull. by rewrite <- !app_assoc.
    + intros [r Hr]. destruct Hb as [_ Hb]. discriminate Hb.
      exists (r ++ tl). by rewrite Hr, <- app_assoc.
Qed.

(** The tokens of [sdssplitlen]: none for the empty text, and otherwise
    separator-free parts of the text. *)
Lemma sdssplitlen_wp text tl sep stl w :
  1 ≤ zlen sep -> 1 ≤ zlen text < 2 ^ 31 ->
  wp (sdssplitlen (text ++ tl) (zlen text) (sep ++ stl) (zlen sep))
     (λ '(o, count) _, split_post sep text o ∧
        ∀ ts, o = Some ts -> count = Some (zlen ts)) w.
Proof.
  intros Hsep Htext. unfold sdssplitlen. rewrite bool_decide_false by lia.
  wp_step. apply wp_malloc; [done | intros; wp_steps; done |].
  intros b w' _. rewrite bool_decide_false by lia. wp_step.
  eapply wp_mono; [apply (split_loop_wp _ sep stl [] [] text tl [] 5 w');
    [done | cbn [map concat app]; lia | | zl]|].
  { split; [constructor | done | constructor | intros; zl]. }
  intros [ts|] w2 Hpost; wp_steps; (split; [done|]); by intros ? [= <-].
Qed.
End split.

(** ** Joining *)
Section joining.
Context {W : Type} `{!Libc W} (no_oom : ¬ oom W).

Lemma sds_post_Some c o : sds_post c o -> ∃ s, o = Some s ∧ sds_rep s c.
Proof. destruct o as [s|]; [by exists s|done]. Qed.

(** [cat] appends the bytes [R] relates to its argument. *)
Context {T : Type} (R : T -> bytes -> Prop) (cat : sdshdr -> T -> M W (option sdshdr)).
Hypothesis cat_ok : ∀ s c t d w,
  sds_rep s c -> R t d -> zlen c + zlen d + SDS_MAX_PREALLOC < 2 ^ 31 ->
  wp (cat s t) (λ o _, sds_post (c ++ d) o) w.

Lemma join_loop_wp argv L s c sep stl w :
  Forall2 R argv L -> sds_rep s c ->
  zlen c + zlen (join sep L) + SDS_MAX_PREALLOC < 2 ^ 31 ->
  wp (join_loop cat (Some s) argv (sep ++ stl) (zlen sep))
     (λ o _, sds_post (c ++ join sep L) o) w.
Proof.
  intros HR. revert s c w. induction HR as [|a x argv L Ha HR IH]; intros s c w Hs Hroom.
  { cbn [join_loop join]. wp_steps. by rewrite app_nil_r. }
  cbn [join_loop deref]. wp_steps.
  assert (zlen c + zlen x + SDS_MAX_PREALLOC < 2 ^ 31).
  { destruct L; [done|]. rewrite join_cons in Hroom. zl. }
  eapply wp_mono; [by eapply cat_ok|].
  intros o w' (s' & -> & Hs')%sds_post_Some.
  inversion HR as [|b y argv' L' Hb HR']; subst; clear HR.
  { wp_steps. by cbn [join_loop join]. }
  rewrite join_cons in Hroom |- *. cbn [deref]. wp_steps.
  eapply wp_mono; [apply sdscatlen_wp; [exact Hs' | zl | zl]|].
  rewrite take_zlen. intros o2 w2 (s2 & -> & Hs2)%sds_post_Some.
  rewrite !app_assoc. rewrite <- (app_assoc c x sep). apply IH; [|zl].
  by rewrite app_assoc.
Qed.
End joining.

Section join_specs.
Context {W : Type} `{!Libc W} (no_oom : ¬ oom W).

Lemma sdsjoinsds_wp argv L sep stl w :
  Forall2 sds_rep argv L -> zlen (join sep L) + SDS_MAX_PREALLOC < 2 ^ 31 ->
  wp (sdsjoinsds argv (sep ++ stl) (zlen sep)) (λ o _, sds_post (join sep L) o) w.
Proof.
  intros HR Hroom. unfold sdsjoinsds. wp_step.
  eapply wp_mono; [apply sdsempty_wp|]. intros o w' (s & -> & Hs)%sds_post_Some; [|done].
  apply (join_loop_wp no_oom sds_rep sdscatsds) with (c := []) (L := L); [|done|done|zl].
  intros. by apply sdscatsds_wp.
Qed.

(** A C string of contents [d]. *)
Definition c_string (p d : bytes) : Prop := (NUL ∉ d) ∧ (∃ tl, p = d ++ NUL :: tl).

Lemma sdsjoin_wp argv L sep stl w :
  Forall2 c_string argv L -> zlen (join sep L) + SDS_MAX_PREALLOC < 2 ^ 31 ->
  wp (sdsjoin argv (sep ++ stl) (zlen sep)) (λ o _, sds_post (join sep L) o) w.
Proof.
  intros HR Hroom. unfold sdsjoin. wp_step.
  eapply wp_mono; [apply sdsempty_wp|]. intros o w' (s & -> & Hs)%sds_post_Some; [|done].
  apply (join_loop_wp no_oom c_string sdscat) with (c := []) (L := L); [|done|done|zl].
  intros s2 c t d w2 Hs2 [Hd (tl & ->)] Hr. by eapply sdscat_wp.
Qed.

(** Splitting and joining back. *)
Lemma split_join_wp text tl sep stl w :
  1 ≤ zlen sep -> 1 ≤ zlen text -> zlen text + SDS_MAX_PREALLOC < 2 ^ 31 ->
  wp ('(o, _) ← sdssplitlen (text ++ tl) (zlen text) (sep ++ stl) (zlen sep);
      ts ← lift (deref o);
      sdsjoinsds ts (sep ++ stl) (zlen sep))
     (λ o _, sds_post text o) w.
Proof.
  intros Hsep Htext Hroom. wp_step. unfold SDS_MAX_PREALLOC in *.
  eapply wp_mono; [apply sdssplitlen_wp; [done | lia]|].
  intros [[ts|] cnt] w' [Hpost _]; [|done].
  destruct Hpost as (L & HL & <- & _). wp_steps. by apply sdsjoinsds_wp.
Qed.
End join_specs.
