(* ===== verification/SdsQuote.v ===== *)
(** * SdsQuote: quoting and its inverse (sds.c)

    [sdscatrepr] writes a string between double quotes with its special and
    non-printable bytes escaped; [sdssplitargs] reads a line of such
    arguments back. *)

From Stdlib Require Import ZArith Lia Ascii.
From stdpp Require Import base list strings gmap numbers.
From S2P Require Import Prelude Libc Printf Sds SdsText SdsSplit.

(** ** Specification *)
Definition DQUOTE : ascii := "034".

Definition repr_char (c : ascii) : bytes :=
  if decide (c = "\"%char ∨ c = DQUOTE) then ["\"%char; c]
  else if decide (c = LF) then bs "\n"
  else if decide (c = CR) then bs "\r"
  else if decide (c = "009"%char) then bs "\t"
  else if decide (c = "007"%char) then bs "\a"
  else if decide (c = "008"%char) then bs "\b"
  else if isprint c then [c]
  else bs "\x" ++ [digit_char false (uchar c / 16); digit_char false (uchar c mod 16)].

(** The text of [sdscatrepr]. *)
Definition quote (p : bytes) : bytes :=
  DQUOTE :: concat (map repr_char p) ++ [DQUOTE].

Ltac no_nul := refine (bool_decide_eq_true_1 _ _); vm_compute; reflexivity.

(** A fact about every byte, by its 256 cases. *)
Ltac each_byte c := destruct c as [[] [] [] [] [] [] [] []]; vm_compute; try done.

Lemma format_escaped c :
  format (bs "\%c") Plain [VInt (schar c)] = Ok ["\"%char; c].
Proof. each_byte c. Qed.
Lemma format_plain c : format (bs "%c") Plain [VInt (schar c)] = Ok [c].
Proof. each_byte c. Qed.
Lemma format_hex c :
  format (bs "\x%02x") Plain [VInt (uchar c)]
  = Ok (bs "\x" ++ [digit_char false (uchar c / 16); digit_char false (uchar c mod 16)]).
Proof. each_byte c. Qed.

Lemma repr_char_no_NUL c : NUL ∉ repr_char c.
Proof.
  assert (bool_decide (NUL ∉ repr_char c) = true) as H by each_byte c.
  by apply bool_decide_eq_true in H.
Qed.

Section quoting.
Context {W : Type} `{!Libc W} (no_oom : ¬ oom W).

Lemma catrepr_char_wp s c x w :
  sds_rep s c -> zlen c + zlen (repr_char x) + SDS_MAX_PREALLOC < 2 ^ 31 ->
  wp (catrepr_char s x) (λ o _, sds_post (c ++ repr_char x) o) w.
Proof.
  intros Hs. pose proof (repr_char_no_NUL x) as Hnul. revert Hnul.
  unfold repr_char, catrepr_char. fold DQUOTE.
  repeat case_decide; [| | | | | | destruct (isprint x)]; intros Hnul Hroom.
  - apply sdscatprintf_wp with (f := bs "\%c") (ftl := []);
      [done | no_nul | done | apply format_escaped | done].
  - apply (sdscatlen_wp s c (cstr "\n") 2); [done | done | done].
  - apply (sdscatlen_wp s c (cstr "\r") 2); [done | done | done].
  - apply (sdscatlen_wp s c (cstr "\t") 2); [done | done | done].
  - apply (sdscatlen_wp s c (cstr "\a") 2); [done | done | done].
  - apply (sdscatlen_wp s c (cstr "\b") 2); [done | done | done].
  - apply sdscatprintf_wp with (f := bs "%c") (ftl := []);
      [done | no_nul | done | apply format_plain | done].
  - apply sdscatprintf_wp with (f := bs "\x%02x") (ftl := []);
      [done | no_nul | done | apply format_hex | done].
Qed.

Lemma catrepr_loop_wp p tl s c w :
  sds_rep s c -> zlen c + zlen (concat (map repr_char p)) + SDS_MAX_PREALLOC < 2 ^ 31 ->
  wp (catrepr_loop (Some s) (p ++ tl) (length p))
     (λ o _, sds_post (c ++ concat (map repr_char p)) o) w.
Proof.
  revert s c w. induction p as [|x p IH]; intros s c w Hs Hroom;
    cbn [map concat length app catrepr_loop] in *.
  { wp_steps. by rewrite app_nil_r. }
  cbn [deref]. wp_steps.
  eapply wp_mono; [apply catrepr_char_wp; [done | zl]|].
  intros o w' (s' & -> & Hs')%sds_post_Some; [|done].
  rewrite app_assoc. apply IH; [done | zl].
Qed.

Lemma sdscatrepr_wp s c p tl w :
  sds_rep s c -> zlen c + zlen (quote p) + SDS_MAX_PREALLOC < 2 ^ 31 ->
  wp (sdscatrepr s (p ++ tl) (zlen p)) (λ o _, sds_post (c ++ quote p) o) w.
Proof.
  intros Hs Hroom. unfold sdscatrepr, quote in *. cbv zeta. wp_step.
  eapply wp_mono; [apply sdscatlen_wp; [exact Hs | zl | zl]|].
  intros o w' (s' & -> & Hs')%sds_post_Some; [|done]. wp_step.
  change (take (Z.to_nat 1) _) with [DQUOTE] in Hs'.
  rewrite zlen_to_nat. eapply wp_mono; [apply catrepr_loop_wp; [exact Hs' | zl]|].
  intros o w2 (s2 & -> & Hs2)%sds_post_Some; [|done]. cbn [deref]. wp_steps.
  eapply wp_mono; [apply sdscatlen_wp; [exact Hs2 | zl | zl]|].
  intros o w3 Ho. cbn [take Z.to_nat Pos.to_nat] in Ho.
  by rewrite <- !app_assoc in Ho.
Qed.

End quoting.

(** ** Reading back *)
Lemma hex_escape_other c p : c ≠ "x"%char -> hex_escape (c :: p) = Ok None.
Proof. intros Hc. unfold hex_escape. rewrite load_0. rsimpl. by rewrite decide_False. Qed.

Lemma hex_escape_hex h1 h2 p :
  is_hex_digit h1 = true -> is_hex_digit h2 = true ->
  hex_escape ("x"%char :: h1 :: h2 :: p)
  = Ok (Some (of_uchar (hex_digit_to_int h1 * 16 + hex_digit_to_int h2))).
Proof.
  intros H1 H2. unfold hex_escape. rewrite load_0. rsimpl. rewrite decide_True by done.
  rewrite load_1. rsimpl. rewrite H1.
  rewrite load_2. rsimpl. by rewrite H2.
Qed.

(** The two hexadecimal digits of a byte. *)
Lemma hex_digits c :
  is_hex_digit (digit_char false (uchar c / 16)) = true ∧
  is_hex_digit (digit_char false (uchar c mod 16)) = true ∧
  of_uchar (hex_digit_to_int (digit_char false (uchar c / 16)) * 16
            + hex_digit_to_int (digit_char false (uchar c mod 16))) = c.
Proof. split_and!; each_byte c. Qed.

Section reading.
Context {W : Type} `{!Libc W} (no_oom : ¬ oom W).

(** Inside quotes, the escape of a byte reads as that byte. *)
Lemma token_loop_repr x rest insq cur (w : W) :
  token_loop (repr_char x ++ rest) true insq cur w
  = (cur ← cat_char cur x; token_loop rest true insq cur) w.
Proof.
  unfold repr_char.
  repeat case_decide; subst; [| | | | | | destruct (isprint x) eqn:Hp].
  - destruct H as [-> | ->]; cbn [app token_loop]; by rewrite hex_escape_other.
  - cbn [bs String.list_ascii_of_string app token_loop]. by rewrite hex_escape_other.
  - cbn [bs String.list_ascii_of_string app token_loop]. by rewrite hex_escape_other.
  - cbn [bs String.list_ascii_of_string app token_loop]. by rewrite hex_escape_other.
  - cbn [bs String.list_ascii_of_string app token_loop]. by rewrite hex_escape_other.
  - cbn [bs String.list_ascii_of_string app token_loop]. by rewrite hex_escape_other.
  - cbn [app token_loop]. rewrite !decide_False; [done | | |].
    + intros ->. discriminate Hp.
    + naive_solver.
    + naive_solver.
  - destruct (hex_digits x) as (Hh1 & Hh2 & E).
    cbn [bs String.list_ascii_of_string app token_loop].
    rewrite hex_escape_hex, E by done. done.
Qed.

(** The tokens of quoted strings after [s]. *)
Lemma token_loop_quoted p rest insq s c w :
  sds_rep s c -> zlen c + zlen p + SDS_MAX_PREALLOC < 2 ^ 31 ->
  match rest with [] => False | x :: _ => x = NUL ∨ isspace x = true end ->
  wp (token_loop (concat (map repr_char p) ++ DQUOTE :: rest) true insq (Some s))
     (λ '(o, r) _, r = Some rest ∧ sds_post (c ++ p) o) w.
Proof.
  revert s c w. induction p as [|x p IH]; intros s c w Hs Hroom Hrest.
  - destruct rest as [|y rest]; [done|]. cbn [map concat app token_loop].
    rewrite decide_False, decide_True by done.
    unfold bad_close. rewrite load_0. rsimpl. wp_steps.
    replace (bool_decide (y ≠ NUL) && negb (isspace y)) with false.
    { rewrite app_nil_r. done. }
    destruct Hrest as [-> | ->]; [done|]. by rewrite andb_false_r.
  - cbn [map concat]. rewrite <- app_assoc. unfold wp. rewrite token_loop_repr.
    apply wp_bind. unfold cat_char. cbn [deref]. wp_steps.
    eapply wp_mono; [apply sdscatlen_wp; [done | zl | zl]|].
    intros o w' (s' & -> & Hs')%sds_post_Some; [|done].
    change (x :: p) with ([x] ++ p). rewrite app_assoc.
    apply IH; [done | zl | done].
Qed.

(** A quoted string, read as one argument. *)
Lemma token_loop_quote p rest s w :
  sds_rep s [] -> zlen p + SDS_MAX_PREALLOC < 2 ^ 31 ->
  match rest with [] => False | x :: _ => x = NUL ∨ isspace x = true end ->
  wp (token_loop (quote p ++ rest) false false (Some s))
     (λ '(o, r) _, r = Some rest ∧ sds_post p o) w.
Proof.
  intros Hs Hroom Hrest.
  unfold quote. cbn [app token_loop]. rewrite <- app_assoc. cbn [app].
  rewrite decide_False by done. rewrite decide_False by (intros [|[|[|]]]; done).
  rewrite decide_True by done.
  by apply (token_loop_quoted p rest false s []).
Qed.

Lemma args_loop_space fuel c p v :
  isspace c = true -> args_loop fuel (c :: p) v = args_loop fuel p v.
Proof. intros Hc. destruct fuel; [done|]. cbn [args_loop drop_while]. by rewrite Hc. Qed.

(** A line of quoted arguments. *)
Definition quoted_line (ps : list bytes) : bytes :=
  concat (map (λ p, quote p ++ [" "%char]) ps).

Definition arg_rep (o : option sdshdr) (p : bytes) : Prop :=
  ∃ s, o = Some s ∧ sds_rep s p.

Lemma args_loop_quoted ps fuel tl vector dn w :
  (length ps < fuel)%nat ->
  Forall (λ p, zlen p + SDS_MAX_PREALLOC < 2 ^ 31) ps ->
  Forall2 arg_rep vector dn ->
  wp (args_loop fuel (quoted_line ps ++ NUL :: tl) vector)
     (λ o _, ∃ v, o = Some v ∧ Forall2 arg_rep v (dn ++ ps)) w.
Proof.
  intros Hf Hps. revert fuel Hf vector dn w.
  induction Hps as [|p ps Hp Hps IH]; intros fuel Hf vector dn w Hv;
    (destruct fuel as [|fuel]; [simpl in Hf; lia|]).
  - cbn [quoted_line map concat app args_loop drop_while].
    change (isspace NUL) with false. cbv iota. rewrite load_0. wp_steps.
    rewrite decide_True, app_nil_r by done.
    destruct vector as [|o vector]; [|wp_steps; by eexists].
    wp_step. apply wp_malloc; [done | done |]. intros b w' _. wp_steps.
    by exists [].
  - cbn [length] in Hf. unfold quoted_line. cbn [map concat].
    fold (quoted_line ps). rewrite <- !app_assoc. cbn [app args_loop].
    set (rest := " "%char :: quoted_line ps ++ NUL :: tl).
    assert (drop_while isspace (quote p ++ rest) = quote p ++ rest) as -> by done.
    cbv zeta.
    assert (load (quote p ++ rest) 0 = Ok DQUOTE) as -> by apply load_0. wp_steps. rewrite decide_False by done.
    wp_step. eapply wp_mono; [apply sdsempty_wp|].
    intros o w' (s & -> & Hs)%sds_post_Some; [|done]. wp_step.
    eapply wp_mono; [apply token_loop_quote; [done | done | by right]|].
    intros [o r] w2 [-> (s2 & -> & Hs2)%sds_post_Some]; [|done]. wp_step.
    apply wp_malloc; [apply u64_range | done |]. intros b w3 _. cbn [deref]. wp_steps.
    unfold rest. rewrite args_loop_space by done.
    change (p :: ps) with ([p] ++ ps). rewrite app_assoc. apply IH; [lia|].
    apply Forall2_app; [done|]. constructor; [by exists s2|constructor].
Qed.

(** [sdssplitargs] gives back the strings that were quoted. *)
Lemma sdssplitargs_wp ps tl w :
  Forall (λ p, zlen p + SDS_MAX_PREALLOC < 2 ^ 31) ps ->
  wp (sdssplitargs (quoted_line ps ++ NUL :: tl))
     (λ o _, ∃ v, o = Some v ∧ Forall2 arg_rep v ps) w.
Proof.
  intros Hps. apply (args_loop_quoted ps _ tl [] []); [|done|constructor].
  rewrite length_app. cbn [length].
  enough (length ps ≤ length (quoted_line ps))%nat by lia. clear.
  induction ps as [|p ps IH]; [done|]. unfold quoted_line in *.
  cbn [map concat length]. rewrite !length_app. cbn [length]. lia.
Qed.
End reading.
