(* ===== verification/Dict.v ===== *)
(** * Dict: the hash table of hiredis (dict.c, dict.h)

    A table is an array of chains, and a chain the list of its entries from
    its head.  The [dictType] is a record of the functions the table calls
    back.  The results of [malloc] and [calloc] are used unchecked, as in the
    code: after a failure the access through NULL is [Stuck]. *)

From Stdlib Require Import ZArith Lia Ascii.
From stdpp Require Import base list strings gmap numbers.
From S2P Require Import Prelude Libc.

Definition DICT_OK : Z := 0.
Definition DICT_ERR : Z := 1.
Definition DICT_HT_INITIAL_SIZE : Z := 4.

(** ** Hash function *)
Fixpoint gen_hash_loop (len : nat) (buf : bytes) (hash : Z) : res Z :=
  match len with
  | O => Ok hash
  | S len' =>
      match buf with
      | [] => Stuck
      | c :: buf' =>
          gen_hash_loop len' buf'
            (u32 (u32 (u32 (Z.shiftl hash 5) + hash) + uchar c))
      end
  end.

(** A negative [len] counts down through every other [int]: [Stuck]. *)
Definition dictGenHashFunction (buf : bytes) (len : Z) : res Z :=
  if bool_decide (len < 0) then Stuck else gen_hash_loop (Z.to_nat len) buf 5381.

(** ** Data *)
Record dictEntry (K V : Type) := Entry { e_key : K; e_val : V }.
Arguments Entry {K V}.
Arguments e_key {K V}.
Arguments e_val {K V}.

(** The functions of a table; [None] is a NULL function pointer. *)
Record dictType (W K V : Type) := DictType {
  hashFunction : K -> res Z;
  keyDup : option (K -> M W K);
  valDup : option (V -> M W V);
  keyCompare : option (K -> K -> res Z);
  keyDestructor : option (K -> M W unit);
  valDestructor : option (V -> M W unit);
  key_same : K -> K -> bool; (** equality of the pointers *)
}.
Arguments hashFunction {W K V}.
Arguments keyDup {W K V}.
Arguments valDup {W K V}.
Arguments keyCompare {W K V}.
Arguments keyDestructor {W K V}.
Arguments valDestructor {W K V}.
Arguments key_same {W K V}.

Record dict (K V : Type) := Dict {
  table : option (list (list (dictEntry K V)));
  size : Z;
  sizemask : Z;
  used : Z;
}.
Arguments Dict {K V}.
Arguments table {K V}.
Arguments size {K V}.
Arguments sizemask {K V}.
Arguments used {K V}.

(** The iterator: [entry] and [nextEntry] are chains from that entry on. *)
Record dictIterator (K V : Type) := Iter {
  it_ht : dict K V;
  it_index : Z;
  it_entry : list (dictEntry K V);
  it_next : list (dictEntry K V);
}.
Arguments Iter {K V}.
Arguments it_ht {K V}.
Arguments it_index {K V}.
Arguments it_entry {K V}.
Arguments it_next {K V}.

Section ops.
Context {W : Type} `{!Libc W} {K V : Type} (ty : dictType W K V).

Definition dictFreeEntryVal (e : dictEntry K V) : M W unit :=
  match valDestructor ty with Some g => g (e_val e) | None => mret tt end.
Definition dictFreeEntryKey (e : dictEntry K V) : M W unit :=
  match keyDestructor ty with Some g => g (e_key e) | None => mret tt end.
Definition dictSetHashVal (v : V) : M W V :=
  match valDup ty with Some g => g v | None => mret v end.
Definition dictSetHashKey (k : K) : M W K :=
  match keyDup ty with Some g => g k | None => mret k end.
Definition dictCompareHashKeys (k1 k2 : K) : res bool :=
  match keyCompare ty with
  | Some g => z ← g k1 k2; mret (bool_decide (z ≠ 0))
  | None => Ok (key_same ty k1 k2)
  end.
Definition dictHashKey (k : K) : res Z := hashFunction ty k.

(** ** The array *)
Definition bucket (t : option (list (list (dictEntry K V)))) (h : Z) :
    res (list (dictEntry K V)) :=
  t ← deref t;
  if bool_decide (0 ≤ h) then deref (t !! Z.to_nat h) else Stuck.

Definition set_bucket (t : option (list (list (dictEntry K V)))) (h : Z)
    (b : list (dictEntry K V)) : res (option (list (list (dictEntry K V)))) :=
  t ← deref t;
  if bool_decide (0 ≤ h < zlen t) then Ok (Some (<[Z.to_nat h := b]> t)) else Stuck.

Definition _dictReset : dict K V := Dict None 0 0 0.
Definition _dictInit : dict K V := _dictReset.

Definition dictCreate : M W (dict K V) :=
  ht ← c_malloc 48; _ ← lift (deref ht); mret _dictInit.

Fixpoint next_power_loop (fuel : nat) (i size : Z) : res Z :=
  match fuel with
  | O => Stuck
  | S fuel' =>
      if bool_decide (size ≤ i) then Ok i
      else next_power_loop fuel' (u64 (i * 2)) size
  end.

Definition _dictNextPower (size : Z) : res Z :=
  if bool_decide (LONG_MAX ≤ size) then Ok LONG_MAX
  else next_power_loop 64 DICT_HT_INITIAL_SIZE size.

(** Moving the entries of one chain to the new table [n]. *)
Fixpoint rehash_chain (he : list (dictEntry K V)) (mask : Z)
    (n : option (list (list (dictEntry K V)))) (used : Z) :
    res (option (list (list (dictEntry K V))) * Z) :=
  match he with
  | [] => Ok (n, used)
  | e :: nextHe =>
      hash ← dictHashKey (e_key e);
      let h := Z.land hash mask in
      b ← bucket n h;
      n ← set_bucket n h (e :: b);
      rehash_chain nextHe mask n (u64 (used - 1))
  end.

Fixpoint rehash_loop (fuel : nat) (ht : dict K V) (mask i : Z)
    (n : option (list (list (dictEntry K V)))) (used : Z) :
    res (option (list (list (dictEntry K V))) * Z) :=
  match fuel with
  | O => Stuck
  | S fuel' =>
      if bool_decide (i < size ht ∧ used > 0) then
        he ← bucket (table ht) i;
        '(n, used) ← rehash_chain he mask n used;
        rehash_loop fuel' ht mask (i + 1) n used
      else Ok (n, used)
  end.

Definition dictExpand (ht : dict K V) (newsize : Z) : M W (dict K V * Z) :=
  realsize ← lift (_dictNextPower newsize);
  if bool_decide (used ht > newsize) then mret (ht, DICT_ERR) else
  let mask := u64 (realsize - 1) in
  blk ← c_calloc (realsize * 8);
  let n := (λ _, replicate (Z.to_nat realsize) []) <$> blk in
  '(n, count) ← lift (rehash_loop (S (Z.to_nat (size ht))) ht mask 0 n (used ht));
  _ ← massert (bool_decide (count = 0));
  mret (Dict n realsize mask (used ht), DICT_OK).

Definition _dictExpandIfNeeded (ht : dict K V) : M W (dict K V * Z) :=
  if bool_decide (size ht = 0) then dictExpand ht DICT_HT_INITIAL_SIZE
  else if bool_decide (used ht = size ht) then dictExpand ht (u64 (size ht * 2))
  else mret (ht, DICT_OK).

(** The position of the first entry of the key in a chain, and the entry. *)
Fixpoint find_in (key : K) (he : list (dictEntry K V)) (pos : nat) :
    res (option (nat * dictEntry K V)) :=
  match he with
  | [] => Ok None
  | e :: next =>
      eq ← dictCompareHashKeys key (e_key e);
      if (eq : bool) then Ok (Some (pos, e)) else find_in key next (S pos)
  end.

Definition _dictKeyIndex (ht : dict K V) (key : K) : M W (dict K V * Z) :=
  '(ht, r) ← _dictExpandIfNeeded ht;
  if bool_decide (r = DICT_ERR) then mret (ht, -1) else
  hash ← lift (dictHashKey key);
  let h := Z.land hash (sizemask ht) in
  he ← lift (bucket (table ht) h);
  found ← lift (find_in key he 0);
  mret (ht, match found with Some _ => -1 | None => i32 (u32 h) end).

Definition dictAdd (ht : dict K V) (key : K) (val : V) : M W (dict K V * Z) :=
  '(ht, index) ← _dictKeyIndex ht key;
  if bool_decide (index = -1) then mret (ht, DICT_ERR) else
  entry ← c_malloc 24;
  _ ← lift (deref entry);
  b ← lift (bucket (table ht) index);
  key ← dictSetHashKey key;
  val ← dictSetHashVal val;
  t ← lift (set_bucket (table ht) index (Entry key val :: b));
  mret (Dict t (size ht) (sizemask ht) (u64 (used ht + 1)), DICT_OK).

(** The entry found, with its chain and its position there. *)
Definition dictFind (ht : dict K V) (key : K) :
    res (option (Z * nat * dictEntry K V)) :=
  if bool_decide (size ht = 0) then Ok None else
  hash ← dictHashKey key;
  let h := Z.land hash (sizemask ht) in
  he ← bucket (table ht) h;
  found ← find_in key he 0;
  match found with
  | Some (pos, e) => Ok (Some (h, pos, e))
  | None => Ok None
  end.

Definition dictReplace (ht : dict K V) (key : K) (val : V) : M W (dict K V * Z) :=
  '(ht, r) ← dictAdd ht key val;
  if bool_decide (r = DICT_OK) then mret (ht, 1) else
  found ← lift (dictFind ht key);
  '(h, pos, auxentry) ← lift (deref found);
  val ← dictSetHashVal val;
  b ← lift (bucket (table ht) h);
  t ← lift (set_bucket (table ht) h (<[pos := Entry (e_key auxentry) val]> b));
  _ ← dictFreeEntryVal auxentry;
  mret (Dict t (size ht) (sizemask ht) (used ht), 0).

Definition dictDelete (ht : dict K V) (key : K) : M W (dict K V * Z) :=
  if bool_decide (size ht = 0) then mret (ht, DICT_ERR) else
  hash ← lift (dictHashKey key);
  let h := Z.land hash (sizemask ht) in
  de ← lift (bucket (table ht) h);
  found ← lift (find_in key de 0);
  match found with
  | None => mret (ht, DICT_ERR)
  | Some (pos, e) =>
      t ← lift (set_bucket (table ht) h (delete pos de));
      _ ← dictFreeEntryKey e;
      _ ← dictFreeEntryVal e;
      mret (Dict t (size ht) (sizemask ht) (u64 (used ht - 1)), DICT_OK)
  end.

Fixpoint clear_chain (he : list (dictEntry K V)) (used : Z) : M W Z :=
  match he with
  | [] => mret used
  | e :: nextHe =>
      _ ← dictFreeEntryKey e;
      _ ← dictFreeEntryVal e;
      clear_chain nextHe (u64 (used - 1))
  end.

Fixpoint clear_loop (fuel : nat) (ht : dict K V) (i used : Z) : M W unit :=
  match fuel with
  | O => stuck
  | S fuel' =>
      if bool_decide (i < size ht ∧ used > 0) then
        he ← lift (bucket (table ht) i);
        used ← clear_chain he used;
        clear_loop fuel' ht (i + 1) used
      else mret tt
  end.

Definition _dictClear (ht : dict K V) : M W (dict K V * Z) :=
  _ ← clear_loop (S (Z.to_nat (size ht))) ht 0 (used ht);
  mret (_dictReset, DICT_OK).

(** The table is gone afterwards. *)
Definition dictRelease (ht : dict K V) : M W unit := _ ← _dictClear ht; mret tt.

(** ** Iteration *)
Definition dictGetIterator (ht : dict K V) : M W (dictIterator K V) :=
  it ← c_malloc 40; _ ← lift (deref it); mret (Iter ht (-1) [] []).

Fixpoint next_loop (fuel : nat) (it : dictIterator K V) :
    res (dictIterator K V * option (dictEntry K V)) :=
  match fuel with
  | O => Stuck
  | S fuel' =>
      let yield (it : dictIterator K V) :=
        match it_entry it with
        | [] => next_loop fuel' it
        | e :: next => Ok (Iter (it_ht it) (it_index it) (it_entry it) next, Some e)
        end in
      match it_entry it with
      | [] =>
          let index := i32 (it_index it + 1) in
          if bool_decide (i64 (size (it_ht it)) ≤ index)
          then Ok (Iter (it_ht it) index [] (it_next it), None)
          else b ← bucket (table (it_ht it)) index;
               yield (Iter (it_ht it) index b (it_next it))
      | _ :: _ => yield (Iter (it_ht it) (it_index it) (it_next it) (it_next it))
      end
  end.

Definition dictNext (it : dictIterator K V) :
    res (dictIterator K V * option (dictEntry K V)) :=
  next_loop (3 + Z.to_nat (size (it_ht it))) it.

(** [it = dictGetIterator(ht); while ((de = dictNext(it)) != NULL) ...] *)
Fixpoint iterate (fuel : nat) (it : dictIterator K V) : res (list (dictEntry K V)) :=
  match fuel with
  | O => Stuck
  | S fuel' =>
      '(it, e) ← dictNext it;
      match e with
      | None => Ok []
      | Some e => es ← iterate fuel' it; mret (e :: es)
      end
  end.
End ops.

(** ** Abstract tables *)

(** The reading of keys and values a [dictType] respects: [krep k a] says the
    key [k] stands for [a], and the callbacks of the type depend on [a]. *)
Class DictLaws {W K V} (ty : dictType W K V) (A B : Type) `{Countable A} := {
  krep : K -> A -> Prop;
  vrep : V -> B -> Prop;
  key_hash : A -> Z;
  hash_ok k a : krep k a -> dictHashKey ty k = Ok (key_hash a);
  hash_range a : 0 ≤ key_hash a < 2 ^ 32;
  compare_ok k1 k2 a1 a2 : krep k1 a1 -> krep k2 a2 ->
    dictCompareHashKeys ty k1 k2 = Ok (bool_decide (a1 = a2));
  keyDup_ok k a w : krep k a -> wp (dictSetHashKey ty k) (λ k' _, krep k' a) w;
  valDup_ok v b w : vrep v b -> wp (dictSetHashVal ty v) (λ v' _, vrep v' b) w;
  keyFree_ok e a w : krep (e_key e) a -> wp (dictFreeEntryKey ty e) (λ _ _, True) w;
  valFree_ok e b w : vrep (e_val e) b -> wp (dictFreeEntryVal ty e) (λ _ _, True) w;
}.

(** ** Powers of two *)
Lemma next_power_loop_ok fuel j n :
  0 ≤ j ≤ 63 -> n ≤ 2 ^ 63 -> 63 - j < Z.of_nat fuel ->
  ∃ k, next_power_loop fuel (2 ^ j) n = Ok (2 ^ k) ∧ j ≤ k ≤ 63 ∧ n ≤ 2 ^ k
       ∧ (k = j ∨ 2 ^ (k - 1) < n).
Proof.
  revert j. induction fuel as [|fuel IH]; intros j Hj Hn Hf; [lia|].
  cbn [next_power_loop]. case_bool_decide as Hc.
  { exists j. split_and!; [done | lia | lia | done | by left]. }
  destruct (decide (j = 63)) as [->|]; [lia|].
  assert (2 ^ j * 2 = 2 ^ (j + 1)) as E by (rewrite Z.pow_add_r by lia; lia).
  rewrite E, u64_small.
  2:{ split; [apply Z.pow_nonneg; lia | apply Z.pow_lt_mono_r; lia]. }
  destruct (IH (j + 1)) as (k & Hk & Hjk & Hnk & Hmin); [lia | done | lia |].
  exists k. split_and!; [done | lia | lia | done |].
  right. destruct Hmin as [->|]; [|done]. replace (j + 1 - 1) with j by lia. lia.
Qed.

(** The least power of two, at least the initial size, that holds [n]. *)
Lemma dictNextPower_ok n :
  n < LONG_MAX ->
  ∃ k, _dictNextPower n = Ok (2 ^ k) ∧ 2 ≤ k ≤ 63 ∧ n ≤ 2 ^ k ∧ (k = 2 ∨ 2 ^ (k - 1) < n).
Proof.
  intros Hn. unfold _dictNextPower. rewrite bool_decide_false by lia. unfold LONG_MAX in Hn.
  apply (next_power_loop_ok 64 2 n); lia.
Qed.

(** The index of a hash in a table of [2 ^ k] chains. *)
Definition slot (k hash : Z) : nat := Z.to_nat (Z.land hash (Z.ones k)).

Lemma slot_ok k hash :
  0 ≤ k -> 0 ≤ hash ->
  Z.land hash (Z.ones k) = Z.of_nat (slot k hash) ∧ Z.of_nat (slot k hash) < 2 ^ k.
Proof.
  intros Hk Hh. unfold slot. rewrite Z.land_ones by done.
  pose proof (Z.mod_pos_bound hash (2 ^ k)). lia.
Qed.

Lemma mask_ones k : 0 ≤ k ≤ 62 -> u64 (2 ^ k - 1) = Z.ones k.
Proof.
  intros Hk. assert (2 ^ k ≤ 2 ^ 62) by (apply Z.pow_le_mono_r; lia).
  assert (0 < 2 ^ k) by (apply Z.pow_pos_nonneg; lia).
  rewrite u64_small by lia. rewrite Z.ones_equiv. lia.
Qed.

(** ** The invariant *)
Section spec.
Context {W : Type} `{!Libc W} {K V : Type} (ty : dictType W K V).
Context {A B : Type} `{Countable A} `{!DictLaws ty A B}.

Definition entry_rep (e : dictEntry K V) (p : A * B) : Prop :=
  krep (e_key e) p.1 ∧ vrep (e_val e) p.2.

(** Every entry is in the chain of its hash. *)
Definition placed (k : Z) (c : list (list (A * B))) : Prop :=
  ∀ i b, c !! i = Some b -> Forall (λ p, slot k (key_hash p.1) = i) b.

(** [chains k t c]: the array [t] of [2 ^ k] chains holds the pairs [c]. *)
Definition chains (k : Z) (t : list (list (dictEntry K V)))
    (c : list (list (A * B))) : Prop :=
  Forall2 (Forall2 entry_rep) t c ∧ zlen t = 2 ^ k ∧ placed k c.

(** The table [ht] is well formed and holds the finite map [m]. *)
Inductive dict_rep (ht : dict K V) (m : gmap A B) : Prop :=
  | rep_empty : ht = Dict None 0 0 0 -> m = ∅ -> dict_rep ht m
  | rep_table k t c :
      ht = Dict (Some t) (2 ^ k) (Z.ones k) (zlen (concat c)) ->
      2 ≤ k ≤ 31 -> chains k t c -> NoDup (concat c).*1 ->
      zlen (concat c) ≤ 2 ^ k -> m = list_to_map (concat c) -> dict_rep ht m.

Lemma dict_rep_used ht m : dict_rep ht m -> used ht = Z.of_nat (base.size m).
Proof.
  intros [-> ->|k t c -> Hk Hc Hnd Hle ->]; [done|]. cbn [used].
  by rewrite map_size_list_to_map by done.
Qed.

Lemma chains_bucket k t c i b :
  chains k t c -> t !! i = Some b ->
  ∃ d, c !! i = Some d ∧ Forall2 entry_rep b d ∧ Forall (λ p, slot k (key_hash p.1) = i) d.
Proof.
  intros (Ht & _ & Hp) Hi. destruct (Forall2_lookup_l _ _ _ _ _ Ht Hi) as (d & Hd & Hb).
  exists d. split_and!; [done | done | by apply Hp].
Qed.

Lemma chains_slot k t c a :
  chains k t c -> 0 ≤ k ->
  ∃ b d, bucket (Some t) (Z.land (key_hash a) (Z.ones k)) = Ok b ∧
    t !! slot k (key_hash a) = Some b ∧ c !! slot k (key_hash a) = Some d ∧
    Forall2 entry_rep b d ∧ Forall (λ p, slot k (key_hash p.1) = slot k (key_hash a)) d.
Proof.
  intros Hc Hk. pose proof Hc as (_ & Ht & _). pose proof (hash_range a).
  destruct (slot_ok k (key_hash a)) as [E Hlt]; [lia..|].
  destruct (lookup_lt_is_Some_2 t (slot k (key_hash a))) as [b Hb].
  { unfold zlen in Ht. lia. }
  destruct (chains_bucket _ _ _ _ _ Hc Hb) as (d & Hd & Hbd & Hs).
  exists b, d. split_and!; try done.
  unfold bucket. cbn [deref]. rsimpl. rewrite E, bool_decide_true by lia.
  by rewrite Nat2Z.id, Hb.
Qed.

(** Changing a chain. *)
Lemma chains_insert k t c i b d :
  chains k t c -> Forall2 entry_rep b d ->
  Forall (λ p, slot k (key_hash p.1) = i) d ->
  chains k (<[i := b]> t) (<[i := d]> c).
Proof.
  intros (Ht & Hl & Hp) Hb Hd. split_and!.
  - by apply Forall2_insert.
  - by unfold zlen in *; rewrite length_insert.
  - intros j d' Hj. apply list_lookup_insert_Some in Hj as [(-> & <- & _)|[_ Hj]];
      [done | by apply Hp].
Qed.

Lemma set_bucket_ok k t c a b :
  chains k t c -> 0 ≤ k ->
  set_bucket (Some t) (Z.land (key_hash a) (Z.ones k)) b
  = Ok (Some (<[slot k (key_hash a) := b]> t)).
Proof.
  intros (_ & Ht & _) Hk. pose proof (hash_range a).
  destruct (slot_ok k (key_hash a)) as [E Hlt]; [lia..|].
  unfold set_bucket. cbn [deref]. rsimpl. rewrite E, Ht.
  rewrite bool_decide_true by lia. by rewrite Nat2Z.id.
Qed.

(** ** Chains and the map *)
Lemma concat_take_drop {X} i (c : list (list X)) d :
  c !! i = Some d -> concat c ≡ₚ d ++ concat (take i c ++ drop (S i) c).
Proof.
  intros Hi. rewrite <- (take_drop_middle c i d Hi) at 1.
  rewrite !concat_app. cbn [concat]. rewrite !app_assoc.
  apply Permutation_app_tail, Permutation_app_comm.
Qed.

Lemma concat_insert {X} i (c : list (list X)) d d' :
  c !! i = Some d -> concat (<[i := d']> c) ≡ₚ d' ++ concat (take i c ++ drop (S i) c).
Proof.
  intros Hi. rewrite (concat_take_drop i _ d').
  - by rewrite take_insert_ge, drop_insert_lt by lia.
  - apply list_lookup_insert_eq. by eapply lookup_lt_Some.
Qed.

(** A key is in the table exactly when it is in its chain. *)
Lemma placed_lookup k (c : list (list (A * B))) a d :
  placed k c -> c !! slot k (key_hash a) = Some d -> NoDup (concat c).*1 ->
  ∀ b, (list_to_map (concat c) : gmap A B) !! a = Some b <-> (a, b) ∈ d.
Proof.
  intros Hp Hd Hnd b. rewrite <- elem_of_list_to_map by done.
  rewrite (concat_take_drop _ _ _ Hd), elem_of_app. split; [|by left].
  intros [?|Hin]; [done|]. exfalso.
  rewrite concat_app, elem_of_app in Hin.
  assert (∃ j b', c !! j = Some b' ∧ (a, b) ∈ b' ∧ j ≠ slot k (key_hash a))
    as (j & b' & Hj & Hin' & Hne).
  { destruct Hin as [Hin|Hin]; apply list_elem_of_In, in_concat in Hin as (b' & Hb' & Hin);
      apply list_elem_of_In in Hb', Hin; apply list_elem_of_lookup in Hb' as [j Hj].
    - apply lookup_take_Some in Hj as [Hj Hlt]. exists j, b'. split_and!; [done..|lia].
    - rewrite lookup_drop in Hj. eexists _, b'. split_and!; [done..|lia]. }
  pose proof (Hp _ _ Hj) as HF. rewrite Forall_forall in HF.
  apply list_elem_of_In in Hin'. specialize (HF _ Hin'). done.
Qed.

Lemma find_in_ok key a he d pos :
  krep key a -> Forall2 entry_rep he d ->
  ∃ r, find_in ty key he pos = Ok r ∧
    match r with
    | None => a ∉ d.*1
    | Some (p, e) => ∃ i b, p = (pos + i)%nat ∧ he !! i = Some e ∧ d !! i = Some (a, b)
                            ∧ entry_rep e (a, b)
    end.
Proof.
  intros Hk Hd. revert pos. induction Hd as [|e [a' b'] he d He Hd IH]; intros pos;
    cbn [find_in].
  { exists None. split; [done | by apply not_elem_of_nil]. }
  rewrite (compare_ok key (e_key e) a a') by (try done; apply He). rsimpl.
  case_bool_decide as Ha; [subst a'|].
  - eexists. split; [done|]. exists O, b'. split_and!; [lia | done..|done].
  - destruct (IH (S pos)) as (r & -> & Hr). exists r. split; [done|].
    destruct r as [[p e']|].
    + destruct Hr as (i & b & -> & ? & ? & ?). exists (S i), b. split_and!; [lia | done..].
    + cbn. apply not_elem_of_cons. done.
Qed.

(** ** Searching *)

(** The chain of a key, and the search in it. *)
Lemma chain_find k t c key a :
  2 ≤ k -> chains k t c -> NoDup (concat c).*1 -> krep key a ->
  ∃ bk d r, bucket (Some t) (Z.land (key_hash a) (Z.ones k)) = Ok bk ∧
    c !! slot k (key_hash a) = Some d ∧ Forall2 entry_rep bk d ∧
    Forall (λ p, slot k (key_hash p.1) = slot k (key_hash a)) d ∧
    find_in ty key bk 0 = Ok r ∧
    match (list_to_map (concat c) : gmap A B) !! a with
    | None => r = None
    | Some b => ∃ pos e, r = Some (pos, e) ∧ bk !! pos = Some e ∧
                         d !! pos = Some (a, b) ∧ entry_rep e (a, b)
    end.
Proof.
  intros Hk Hc Hnd Hkey.
  destruct (chains_slot k t c a) as (bk & d & Hbk & Ht & Hd & Hbd & Hs); [done | lia |].
  destruct (find_in_ok key a bk d 0) as (r & E & Hr); [done..|].
  exists bk, d, r. split_and!; [done..|].
  pose proof (placed_lookup k c a d) as Hl. destruct Hc as (_ & _ & Hp).
  specialize (Hl Hp Hd Hnd). destruct r as [[pos e]|].
  - destruct Hr as (i & b' & -> & He & Hi & Hrep).
    rewrite (proj2 (Hl b')) by (by eapply list_elem_of_lookup_2).
    by exists i, e.
  - destruct (list_to_map (concat c) !! a) as [b'|] eqn:E'; [|done].
    exfalso. apply Hr. by apply (list_elem_of_fmap_2 fst d (a, b')), Hl.
Qed.

Lemma dictFind_ok ht m key a :
  dict_rep ht m -> krep key a ->
  ∃ r, dictFind ty ht key = Ok r ∧
    match m !! a with
    | None => r = None
    | Some b => ∃ h pos e, r = Some (h, pos, e) ∧ entry_rep e (a, b)
    end.
Proof.
  intros [-> ->|k t c -> Hk Hc Hnd Hu ->] Hkey; unfold dictFind; cbn [size table sizemask].
  { exists None. split; [done|]. by rewrite lookup_empty. }
  rewrite bool_decide_false by (pose proof (Z.pow_pos_nonneg 2 k); lia).
  rewrite (hash_ok key a) by done. rsimpl.
  destruct (chain_find k t c key a) as (bk & d & r & -> & _ & _ & _ & E & Hr); [lia | done..|].
  rsimpl. rewrite E. rsimpl.
  destruct (list_to_map (concat c) !! a) as [b|].
  - destruct Hr as (pos & e & -> & _ & _ & He). eexists. split; [done|]. by eexists _, _, e.
  - subst r. by exists None.
Qed.

(** ** Growing *)
Lemma rehash_chain_ok he d k n c cnt :
  Forall2 entry_rep he d -> 0 ≤ k -> chains k n c -> zlen d ≤ cnt < 2 ^ 64 ->
  ∃ n' c', rehash_chain ty he (Z.ones k) (Some n) cnt = Ok (Some n', cnt - zlen d) ∧
    chains k n' c' ∧ concat c' ≡ₚ d ++ concat c.
Proof.
  intros Hd Hk. revert n c cnt. induction Hd as [|e [a b] he d He Hd IH];
    intros n c cnt Hc Hcnt; cbn [rehash_chain].
  { exists n, c. split_and!; [do 2 f_equal; zl | done | done]. }
  rewrite (hash_ok _ a) by apply He. rsimpl.
  destruct (chains_slot k n c a) as (x & y & -> & Hn & Hcs & Hxy & Hs); [done | lia |].
  rsimpl. rewrite (set_bucket_ok k n c) by done. rsimpl. rewrite u64_small by zl.
  destruct (IH (<[slot k (key_hash a) := e :: x]> n)
               (<[slot k (key_hash a) := (a, b) :: y]> c) (cnt - 1)) as (n' & c' & E & Hc' & Hp);
    [apply chains_insert; [done | by constructor | by constructor] | zl |].
  exists n', c'. rewrite E. split_and!; [do 2 f_equal; zl | done |].
  rewrite Hp, concat_insert by done. rewrite (concat_take_drop _ c) by done.
  cbn [app]. by rewrite <- Permutation_middle.
Qed.

(** The loop over the old table moves every entry, and stops when [used]
    reaches zero, which it does when they are all moved. *)
Lemma rehash_loop_ok fuel old mask0 u0 oc k n c i :
  Forall2 (Forall2 entry_rep) old oc -> zlen old < 2 ^ 64 -> zlen (concat oc) < 2 ^ 64 ->
  0 ≤ k -> chains k n c -> 0 ≤ i ≤ zlen old ->
  zlen old - i < Z.of_nat fuel ->
  ∃ n' c', rehash_loop ty fuel (Dict (Some old) (zlen old) mask0 u0) (Z.ones k) i (Some n)
               (zlen (concat (drop (Z.to_nat i) oc))) = Ok (Some n', 0) ∧
    chains k n' c' ∧ concat c' ≡ₚ concat (drop (Z.to_nat i) oc) ++ concat c.
Proof.
  intros Hold Hlen Htot Hk. revert i n c. induction fuel as [|fuel IH]; intros i n c Hc Hi Hf; [lia|].
  pose proof (Forall2_length Hold : length old = length oc) as Hl.
  cbn [rehash_loop size table]. case_bool_decide as Hcond.
  - destruct Hcond as [Hlt Hpos].
    destruct (lookup_lt_is_Some_2 old (Z.to_nat i)) as [b Hb]; [unfold zlen in *; lia|].
    destruct (Forall2_lookup_l _ _ _ _ _ Hold Hb) as (d & Hd & Hbd).
    unfold bucket at 1. cbn [deref]. rsimpl. rewrite bool_decide_true by lia.
    rewrite Hb. cbn [deref]. rsimpl.
    rewrite (drop_S oc d (Z.to_nat i)) in * by done. cbn [concat] in *.
    assert (zlen (d ++ concat (drop (S (Z.to_nat i)) oc)) ≤ zlen (concat oc)) as Hle.
    { rewrite <- (take_drop_middle oc (Z.to_nat i) d Hd) at 2.
      rewrite concat_app. cbn [concat]. zl. }
    destruct (rehash_chain_ok b d k n c (zlen (d ++ concat (drop (S (Z.to_nat i)) oc))))
      as (n1 & c1 & -> & Hc1 & Hp1); [done | done | done | zl |]. rsimpl.
    destruct (IH (i + 1) n1 c1) as (n2 & c2 & E & Hc2 & Hp2); [done | lia | lia |].
    replace (Z.to_nat (i + 1)) with (S (Z.to_nat i)) in E, Hp2 by lia.
    exists n2, c2. split_and!; [|done|].
    + rewrite <- E. f_equal. zl.
    + rewrite Hp2, Hp1. rewrite <- app_assoc, (app_assoc d), (app_assoc _ d).
      apply Permutation_app_tail, Permutation_app_comm.
  - assert (concat (drop (Z.to_nat i) oc) = []) as E.
    { apply zlen_zero. pose proof (zlen_nonneg (concat (drop (Z.to_nat i) oc))).
      destruct (decide (i < zlen old)); [lia|].
      rewrite drop_ge; [done|]. unfold zlen in *. lia. }
    rewrite E, zlen_nil. by exists n, c.
Qed.

Lemma empty_chains k :
  0 ≤ k -> chains k (replicate (Z.to_nat (2 ^ k)) []) (replicate (Z.to_nat (2 ^ k)) [])
           ∧ concat (replicate (Z.to_nat (2 ^ k)) (@nil (A * B))) = [].
Proof.
  intros Hk. pose proof (Z.pow_nonneg 2 k). split; [split_and!|].
  - induction (Z.to_nat (2 ^ k)); constructor; [constructor | done].
  - rewrite zlen_replicate. lia.
  - intros i b Hi. apply lookup_replicate in Hi as [-> _]. constructor.
  - by induction (Z.to_nat (2 ^ k)).
Qed.

Lemma list_to_map_perm (l l' : list (A * B)) :
  NoDup l.*1 -> l' ≡ₚ l -> (list_to_map l' : gmap A B) = list_to_map l ∧ NoDup l'.*1.
Proof.
  intros Hnd Hp. assert (NoDup l'.*1) by (by rewrite Hp).
  split; [|done]. by apply list_to_map_proper.
Qed.
End spec.

Section mutators.
Context {W : Type} `{!Libc W} {K V : Type} (ty : dictType W K V).
Context {A B : Type} `{Countable A} `{!DictLaws ty A B} (no_oom : ¬ oom W).

(** Growing keeps the map. *)
Lemma dictExpand_wp ht m k w :
  dict_rep ty ht m -> 2 ≤ k ≤ 31 -> used ht ≤ 2 ^ k ->
  wp (dictExpand ty ht (2 ^ k)) (λ '(ht', r) _,
    r = DICT_OK ∧ dict_rep ty ht' m ∧ size ht' = 2 ^ k ∧ used ht' = used ht) w.
Proof.
  intros Hrep Hk Hused. unfold dictExpand.
  assert (2 ^ k ≤ 2 ^ 31) by (apply Z.pow_le_mono_r; lia).
  assert (2 ^ 2 ≤ 2 ^ k) by (apply Z.pow_le_mono_r; lia).
  destruct (dictNextPower_ok (2 ^ k)) as (j & E & Hj & Hle & Hmin); [unfold LONG_MAX; lia|].
  assert (j = k) as ->.
  { apply Z.pow_le_mono_r_iff in Hle; [|lia..]. destruct Hmin as [->|Hlt]; [lia|].
    apply Z.pow_lt_mono_r_iff in Hlt; lia. }
  rewrite E. clear E Hmin Hle. wp_steps. rewrite bool_decide_false by lia.
  rewrite mask_ones by lia. wp_step. apply wp_calloc; [lia | done |].
  intros w'. cbn [fmap option_fmap option_map].
  destruct (empty_chains ty k) as [Hc0 Hnil]; [lia|].
  assert (∃ n' c', rehash_loop ty (S (Z.to_nat (size ht))) ht (Z.ones k) 0
      (Some (replicate (Z.to_nat (2 ^ k)) [])) (used ht) = Ok (Some n', 0) ∧
      chains ty k n' c' ∧ NoDup (concat c').*1 ∧ used ht = zlen (concat c') ∧
      m = list_to_map (concat c')) as (n' & c' & E & Hc' & Hnd' & Hu' & Hm).
  { destruct Hrep as [-> ->|k0 t c -> Hk0 (Ht & Hlen & Hp) Hnd Hu ->].
    - eexists _, _. split; [done|]. split; [exact Hc0|].
      rewrite Hnil. split_and!; [constructor | done | done].
    - cbn [size used] in *. assert (2 ^ k0 ≤ 2 ^ 31) by (apply Z.pow_le_mono_r; lia).
      destruct (rehash_loop_ok ty (S (Z.to_nat (2 ^ k0))) t (Z.ones k0) (zlen (concat c)) c k
                  _ _ 0 Ht ltac:(lia) ltac:(lia) ltac:(lia) Hc0) as (n' & c' & E & Hc' & Hp');
        [pose proof (zlen_nonneg t); lia | lia |].
      rewrite Hlen in E. cbn [Z.to_nat drop] in E, Hp'. rewrite Hnil, app_nil_r in Hp'.
      exists n', c'. destruct (list_to_map_perm _ _ Hnd Hp') as [Hm Hnd'].
      split_and!; [done | done | done | | done].
      unfold zlen. by rewrite Hp'. }
  wp_step. eapply wp_lift_ok; [exact E|]. cbv beta iota. rewrite bool_decide_true by done.
  wp_step. apply wp_massert; [done|]. wp_steps. split_and!; [done | | done | done].
  apply (rep_table _ _ _ k n' c'); [by rewrite Hu' | done | done | done | lia | done].
Qed.

Lemma dictExpandIfNeeded_wp ht m w :
  dict_rep ty ht m -> used ht < 2 ^ 31 ->
  wp (_dictExpandIfNeeded ty ht) (λ '(ht', r) _,
    r = DICT_OK ∧ dict_rep ty ht' m ∧ used ht' < size ht' ∧ used ht' = used ht) w.
Proof.
  intros Hrep Hu. unfold _dictExpandIfNeeded.
  case_bool_decide as H0; [|case_bool_decide as H1].
  - assert (used ht = 0) as Hu0.
    { destruct Hrep as [-> ?|k t c -> Hk]; [done|]. cbn [size] in H0.
      pose proof (Z.pow_pos_nonneg 2 k). lia. }
    eapply wp_mono; [apply (dictExpand_wp ht m 2); [done | lia | lia]|].
    intros [ht' r] w' (-> & ? & Hs & Hu'). split_and!; [done..| lia | done].
  - destruct Hrep as [-> ?|k t c -> Hk Hc Hnd Hle ->]; [done|]. cbn [size used] in *.
    assert (k < 31).
    { apply (Z.pow_lt_mono_r_iff 2); lia. }
    assert (2 ^ k * 2 = 2 ^ (k + 1)) as E by (rewrite Z.pow_add_r by lia; lia).
    assert (2 ^ (k + 1) ≤ 2 ^ 31) by (apply Z.pow_le_mono_r; lia).
    rewrite E, u64_small by lia.
    eapply wp_mono; [apply (dictExpand_wp _ (list_to_map (concat c)) (k + 1))|].
    + by apply (rep_table _ _ _ k t c).
    + lia.
    + cbn [used]. lia.
    + intros [ht' r] w' (-> & ? & Hs & Hu'). cbn [used] in Hu'.
      assert (0 < 2 ^ k) by (apply Z.pow_pos_nonneg; lia).
      split_and!; [done..| lia | done].
  - wp_steps. split_and!; [done | done | | done].
    destruct Hrep as [-> ?|k t c -> Hk Hc Hnd Hle ->]; [done|]. cbn [size used] in *. lia.
Qed.

(** ** Adding, replacing, deleting *)
Lemma dictKeyIndex_wp ht m key a w :
  dict_rep ty ht m -> used ht < 2 ^ 31 -> krep key a ->
  wp (_dictKeyIndex ty ht key) (λ '(ht', r) _,
    ∃ k t c, ht' = Dict (Some t) (2 ^ k) (Z.ones k) (zlen (concat c)) ∧
      2 ≤ k ≤ 31 ∧ chains ty k t c ∧ NoDup (concat c).*1 ∧ zlen (concat c) < 2 ^ k ∧
      m = list_to_map (concat c) ∧
      r = match m !! a with Some _ => -1 | None => Z.land (key_hash a) (Z.ones k) end) w.
Proof.
  intros Hrep Hu Hkey. unfold _dictKeyIndex. wp_step.
  eapply wp_mono; [by apply dictExpandIfNeeded_wp|].
  intros [ht' r] w' (-> & Hrep' & Hlt & Hu'). rewrite bool_decide_false by done.
  destruct Hrep' as [-> ?|k t c -> Hk Hc Hnd Hle ->]; [done|].
  cbn [size used sizemask table] in *. rewrite (hash_ok key a) by done. wp_steps.
  destruct (chain_find ty k t c key a) as (bk & d & rr & -> & _ & _ & _ & E & Hr);
    [lia | done..|]. wp_steps. rewrite E. wp_steps.
  exists k, t, c. split_and!; try done; [lia..|].
  destruct (list_to_map (concat c) !! a) as [b|].
  - destruct Hr as (pos & e & -> & _). done.
  - subst rr. pose proof (hash_range (ty := ty) a).
    destruct (slot_ok k (key_hash a)) as [-> Hs]; [lia..|].
    assert (2 ^ k ≤ 2 ^ 31) by (apply Z.pow_le_mono_r; lia).
    rewrite u32_small, i32_small by lia. done.
Qed.

(** Rebuilding the invariant after a change of one chain. *)
Lemma dict_rep_update k t c a d bk' d' (X : list (A * B)) :
  2 ≤ k ≤ 31 -> chains ty k t c -> c !! slot k (key_hash a) = Some d ->
  Forall2 (entry_rep ty) bk' d' ->
  Forall (λ p, slot k (key_hash p.1) = slot k (key_hash a)) d' ->
  d' ++ concat (take (slot k (key_hash a)) c ++ drop (S (slot k (key_hash a))) c) ≡ₚ X ->
  NoDup X.*1 -> zlen X ≤ 2 ^ k ->
  ∃ t', set_bucket (Some t) (Z.land (key_hash a) (Z.ones k)) bk' = Ok t' ∧
    dict_rep ty (Dict t' (2 ^ k) (Z.ones k) (zlen X)) (list_to_map X).
Proof.
  intros Hk Hc Hd Hb' Hp' HX Hnd HXk.
  rewrite (set_bucket_ok ty k t c) by (done || lia).
  eexists. split; [done|].
  assert (concat (<[slot k (key_hash a) := d']> c) ≡ₚ X) as E by (by rewrite (concat_insert _ c d d') by done).
  destruct (list_to_map_perm _ _ Hnd E) as [Em Hnd'].
  assert (zlen (concat (<[slot k (key_hash a) := d']> c)) = zlen X) as El
    by (unfold zlen; by rewrite E).
  apply (rep_table ty _ _ k (<[slot k (key_hash a) := bk']> t) (<[slot k (key_hash a) := d']> c)).
  - by rewrite El.
  - done.
  - by apply chains_insert.
  - done.
  - lia.
  - done.
Qed.

Lemma dictAdd_wp ht m key val a b w :
  dict_rep ty ht m -> used ht < 2 ^ 31 -> krep key a -> vrep val b ->
  wp (dictAdd ty ht key val) (λ '(ht', r) _,
    match m !! a with
    | Some _ => r = DICT_ERR ∧ dict_rep ty ht' m
    | None => r = DICT_OK ∧ dict_rep ty ht' (<[a := b]> m)
    end) w.
Proof.
  intros Hrep Hu Hkey Hval. unfold dictAdd. wp_step.
  eapply wp_mono; [by apply dictKeyIndex_wp|].
  intros [ht' r] w' (k & t & c & -> & Hk & Hc & Hnd & Hlt & -> & ->).
  destruct (list_to_map (concat c) !! a) as [b0|] eqn:Ha.
  { rewrite bool_decide_true by done. wp_steps. split; [done|].
    by apply (rep_table _ _ _ k t c); [..|lia|]. }
  destruct (chain_find ty k t c key a) as (bk & d & _ & Hbk & Hd & Hbd & Hs & _ & _);
    [lia | done..|].
  destruct (slot_ok k (key_hash a)) as [Hslot Hsl]; [lia | apply hash_range|].
  rewrite bool_decide_false by lia. wp_step.
  apply wp_malloc; [lia | done |]. intros eb w2 _. cbn [deref table size sizemask used].
  wp_steps. rewrite Hbk. wp_steps.
  eapply wp_mono; [by apply keyDup_ok|]. intros key' w3 Hkey'. wp_step.
  eapply wp_mono; [by apply valDup_ok|]. intros val' w4 Hval'.
  destruct (dict_rep_update k t c a d (Entry key' val' :: bk) ((a, b) :: d)
              ((a, b) :: concat c)) as (t' & -> & Hrep'); try done.
  - by constructor.
  - by constructor.
  - cbn [app]. by rewrite <- (concat_take_drop _ c d).
  - cbn. constructor; [|done]. by apply not_elem_of_list_to_map.
  - zl.
  - wp_steps. split; [done|]. assert (2 ^ k ≤ 2 ^ 31) by (apply Z.pow_le_mono_r; lia).
    rewrite zlen_cons in Hrep'. by rewrite u64_small by zl.
Qed.

(** A pair at a position of a list, replaced or removed. *)
Lemma perm_insert {X} (l : list X) i x y :
  l !! i = Some x -> <[i := y]> l ≡ₚ y :: delete i l ∧ l ≡ₚ x :: delete i l.
Proof.
  intros Hi. split; [|by apply delete_Permutation].
  rewrite insert_take_drop by (by eapply lookup_lt_Some).
  by rewrite delete_take_drop, <- Permutation_middle.
Qed.

Lemma dictReplace_wp ht m key val a b w :
  dict_rep ty ht m -> used ht < 2 ^ 31 -> krep key a -> vrep val b ->
  wp (dictReplace ty ht key val) (λ '(ht', r) _,
    dict_rep ty ht' (<[a := b]> m) ∧
    r = match m !! a with Some _ => 0 | None => 1 end) w.
Proof.
  intros Hrep Hu Hkey Hval. unfold dictReplace. wp_step.
  eapply wp_mono; [by eapply dictAdd_wp|]. intros [ht' r] w'.
  destruct (m !! a) as [b0|] eqn:Ha; intros [-> Hrep'].
  2:{ rewrite bool_decide_true by done. wp_steps. done. }
  rewrite bool_decide_false by done. clear ht Hrep Hu.
  destruct Hrep' as [-> ->|k t c -> Hk Hc Hnd Hle ->]; [by rewrite lookup_empty in Ha|].
  destruct (chain_find ty k t c key a) as (bk & d & r & Hbk & Hd & Hbd & Hs & Hf & Hr);
    [lia | done..|].
  rewrite Ha in Hr. destruct Hr as (pos & e & -> & He & Hp & Hke & Hve).
  unfold dictFind. cbn [size table sizemask used].
  rewrite bool_decide_false by (pose proof (Z.pow_pos_nonneg 2 k); lia).
  rewrite (hash_ok key a) by done. cbn [mbind res_bind]. rewrite Hbk.
  cbn [mbind res_bind]. rewrite Hf. rsimpl. cbn [deref]. wp_steps.
  eapply wp_mono; [by apply valDup_ok|]. intros val' w2 Hval'.
  rewrite Hbk. wp_steps.
  destruct (perm_insert d pos (a, b0) (a, b) Hp) as [E1 E2].
  set (R := concat (take (slot k (key_hash a)) c ++ drop (S (slot k (key_hash a))) c)).
  assert (concat c ≡ₚ (a, b0) :: delete pos d ++ R) as Ec.
  { rewrite (concat_take_drop _ c d) by done. exact (Permutation_app_tail R E2). }
  assert (NoDup ((a, b0) :: delete pos d ++ R).*1) as Hnd' by (by rewrite <- Ec).
  destruct (dict_rep_update k t c a d (<[pos := Entry (e_key e) val']> bk)
              (<[pos := (a, b)]> d) ((a, b) :: delete pos d ++ R)) as (t' & -> & Hrep'); try done.
  - by apply Forall2_insert.
  - by apply Forall_insert.
  - exact (Permutation_app_tail R E1).
  - assert (zlen (concat c) = zlen ((a, b0) :: delete pos d ++ R)) as El
      by (unfold zlen; by rewrite Ec).
    rewrite zlen_cons in *. lia.
  - wp_steps. eapply wp_mono; [by eapply valFree_ok|]. intros _ w3 _. wp_steps.
    split; [|done].
    destruct (list_to_map_perm _ _ Hnd (Permutation_sym Ec)) as [Em _].
    rewrite <- Em. cbn [list_to_map foldr].
    assert (zlen (concat c) = zlen ((a, b0) :: delete pos d ++ R)) as El
      by (unfold zlen; by rewrite Ec).
    rewrite El. rewrite !zlen_cons in *. cbn [uncurry] in *. 
    by rewrite insert_insert_eq.
Qed.

Lemma dictDelete_wp ht m key a w :
  dict_rep ty ht m -> krep key a ->
  wp (dictDelete ty ht key) (λ '(ht', r) _,
    dict_rep ty ht' (delete a m) ∧
    r = match m !! a with Some _ => DICT_OK | None => DICT_ERR end) w.
Proof.
  intros Hrep Hkey. unfold dictDelete.
  destruct Hrep as [-> ->|k t c -> Hk Hc Hnd Hle ->].
  { cbn [size]. rewrite bool_decide_true by done. wp_steps.
    rewrite delete_empty, lookup_empty. split; [by apply rep_empty|done]. }
  cbn [size table sizemask used].
  rewrite bool_decide_false by (pose proof (Z.pow_pos_nonneg 2 k); lia).
  rewrite (hash_ok key a) by done. wp_steps.
  destruct (chain_find ty k t c key a) as (bk & d & r & -> & Hd & Hbd & Hs & Hf & Hr);
    [lia | done..|].
  wp_steps. rewrite Hf. wp_steps.
  destruct (list_to_map (concat c) !! a) as [b0|] eqn:Ha; cycle 1.
  { subst r. wp_steps. rewrite delete_id by done. split; [|done].
    by apply (rep_table _ _ _ k t c). }
  destruct Hr as (pos & e & -> & He & Hp & Hke & Hve).
  destruct (perm_insert d pos (a, b0) (a, b0) Hp) as [_ E2].
  set (R := concat (take (slot k (key_hash a)) c ++ drop (S (slot k (key_hash a))) c)).
  assert (concat c ≡ₚ (a, b0) :: delete pos d ++ R) as Ec.
  { rewrite (concat_take_drop _ c d) by done. exact (Permutation_app_tail R E2). }
  assert (NoDup ((a, b0) :: delete pos d ++ R).*1) as Hnd' by (by rewrite <- Ec).
  assert (zlen (concat c) = zlen (delete pos d ++ R) + 1) as El
    by (rewrite <- (zlen_cons (a, b0)); unfold zlen; by rewrite Ec).
  inversion Hnd' as [|? ? Hna Hnd2]; subst.
  destruct (dict_rep_update k t c a d (delete pos bk) (delete pos d)
              (delete pos d ++ R)) as (t' & -> & Hrep'); try done.
  - by apply Forall2_delete.
  - by apply Forall_delete.
  - lia.
  - wp_steps. eapply wp_mono; [by eapply keyFree_ok|]. intros _ w2 _. wp_step.
    eapply wp_mono; [by eapply valFree_ok|]. intros _ w3 _. wp_steps. split; [|done].
    assert (2 ^ k ≤ 2 ^ 31) by (apply Z.pow_le_mono_r; lia).
    rewrite El. replace (u64 (zlen (delete pos d ++ R) + 1 - 1))
      with (zlen (delete pos d ++ R)) by (rewrite u64_small; zl).
    destruct (list_to_map_perm _ _ Hnd (Permutation_sym Ec)) as [Em _].
    rewrite <- Em. cbn [list_to_map foldr]. 
    rewrite delete_insert_eq, delete_id; [done|]. by apply not_elem_of_list_to_map.
Qed.

(** ** Releasing: every destructor call succeeds, and the loop stops *)
Lemma clear_chain_wp he d cnt w :
  Forall2 (entry_rep ty) he d -> zlen d ≤ cnt < 2 ^ 64 ->
  wp (clear_chain ty he cnt) (λ r _, r = cnt - zlen d) w.
Proof.
  intros Hd. revert cnt w. induction Hd as [|e p he d [Hk Hv] Hd IH]; intros cnt w Hc;
    cbn [clear_chain].
  { wp_steps. zl. }
  wp_step. eapply wp_mono; [by eapply keyFree_ok|]. intros _ w2 _. wp_step.
  eapply wp_mono; [by eapply valFree_ok|]. intros _ w3 _.
  rewrite u64_small by zl.
  eapply wp_mono; [apply IH; zl|]. intros r w4 ->. zl.
Qed.

Lemma clear_loop_wp fuel t c mask u i w :
  Forall2 (Forall2 (entry_rep ty)) t c -> zlen (concat c) < 2 ^ 64 -> 0 ≤ i ≤ zlen t ->
  zlen t - i < Z.of_nat fuel ->
  wp (clear_loop ty fuel (Dict (Some t) (zlen t) mask u) i
        (zlen (concat (drop (Z.to_nat i) c)))) (λ _ _, True) w.
Proof.
  intros Ht Hc. revert i w. induction fuel as [|fuel IH]; intros i w Hi Hf; [lia|].
  cbn [clear_loop size table]. case_bool_decide as Hcond; [|by wp_steps].
  destruct (lookup_lt_is_Some_2 t (Z.to_nat i)) as [b Hb]; [unfold zlen in *; lia|].
  destruct (Forall2_lookup_l _ _ _ _ _ Ht Hb) as (d & Hd & Hbd).
  unfold bucket. cbn [deref mbind res_bind]. rewrite bool_decide_true by lia.
  rewrite Hb. wp_steps. rewrite (drop_S c d) by done. cbn [concat].
  assert (zlen (d ++ concat (drop (S (Z.to_nat i)) c)) ≤ zlen (concat c)) as Hle.
  { rewrite <- (take_drop_middle c (Z.to_nat i) d Hd) at 2.
    rewrite concat_app. cbn [concat]. zl. }
  eapply wp_mono; [apply clear_chain_wp; [done | zl]|]. intros r w' ->.
  rewrite zlen_app.
  replace (zlen d + zlen (concat (drop (S (Z.to_nat i)) c)) - zlen d)
    with (zlen (concat (drop (Z.to_nat (i + 1)) c))).
  { apply IH; lia. }
  replace (Z.to_nat (i + 1)) with (S (Z.to_nat i)) by lia. lia.
Qed.

Lemma dictRelease_wp ht m w : dict_rep ty ht m -> wp (dictRelease ty ht) (λ _ _, True) w.
Proof.
  intros Hrep. unfold dictRelease, _dictClear. wp_step.
  apply wp_mono with (λ _ _, True); [|by intros; wp_steps]. wp_step.
  apply wp_mono with (λ _ _, True); [|by intros; wp_steps].
  destruct Hrep as [-> ->|k t c -> Hk (Ht & Hl & _) Hnd Hle ->]; [done|].
  cbn [size used]. rewrite <- Hl.
  apply (clear_loop_wp _ t c _ _ 0 w Ht).
  - assert (2 ^ k ≤ 2 ^ 31) by (apply Z.pow_le_mono_r; lia). lia.
  - pose proof (zlen_nonneg t). lia.
  - pose proof (zlen_nonneg t). lia.
Qed.
End mutators.

Lemma Forall2_concat {X Y} (R : X -> Y -> Prop) ls ks :
  Forall2 (Forall2 R) ls ks -> Forall2 R (concat ls) (concat ks).
Proof. induction 1; [constructor | by apply Forall2_app]. Qed.

(** ** Iteration visits every entry once *)
Section iteration.
Context {K V : Type} (t : list (list (dictEntry K V))) (mask u : Z).
Hypothesis size_int : zlen t < 2 ^ 31.
#[local] Abbreviation ht := (Dict (Some t) (zlen t) mask u).

(** From NULL, the next entry is the head of the next chain not empty. *)
Lemma next_loop_scan fuel i nx :
  -1 ≤ i < zlen t -> zlen t - i ≤ Z.of_nat fuel ->
  ∃ it' e, next_loop fuel (Iter ht i [] nx) = Ok (it', e) ∧
    match e with
    | None => concat (drop (Z.to_nat (i + 1)) t) = []
    | Some x => ∃ j nx', it' = Iter ht j (x :: nx') nx' ∧ i < j < zlen t ∧
        concat (drop (Z.to_nat (i + 1)) t) = x :: nx' ++ concat (drop (Z.to_nat (j + 1)) t)
    end.
Proof.
  revert i. induction fuel as [|fuel IH]; intros i Hi Hf; [lia|].
  cbn [next_loop it_entry it_index it_ht it_next size table]. cbv zeta.
  rewrite i32_small, i64_small by lia. case_bool_decide as Hend.
  { eexists _, None. split; [done|]. rewrite drop_ge; [done|]. unfold zlen in *. lia. }
  destruct (lookup_lt_is_Some_2 t (Z.to_nat (i + 1))) as [b Hb]; [unfold zlen in *; lia|].
  unfold bucket. cbn [deref mbind res_bind]. rewrite bool_decide_true by lia.
  rewrite Hb. cbn [deref mbind res_bind]. rewrite (drop_S t b) by done. cbn [concat].
  replace (S (Z.to_nat (i + 1))) with (Z.to_nat (i + 1 + 1)) by lia.
  destruct b as [|x b].
  - destruct (IH (i + 1)) as (it' & e & -> & He); [lia | lia |].
    exists it', e. split; [done|]. destruct e as [x|]; [|done].
    destruct He as (j & nx' & -> & Hj & E). exists j, nx'. split_and!; [done | lia | lia | done].
  - eexists _, (Some x). split; [done|]. exists (i + 1), b. split_and!; [done | lia | lia | done].
Qed.

(** What an iterator has still to return. *)
Definition remaining (it : dictIterator K V) : list (dictEntry K V) :=
  match it_entry it with
  | [] => concat (drop (Z.to_nat (it_index it + 1)) t)
  | _ :: _ => it_next it ++ concat (drop (Z.to_nat (it_index it + 1)) t)
  end.

Lemma dictNext_ok i es nx :
  -1 ≤ i < zlen t ->
  ∃ it' e, dictNext (Iter ht i es nx) = Ok (it', e) ∧
    match e with
    | None => remaining (Iter ht i es nx) = []
    | Some x => ∃ j nx', it' = Iter ht j (x :: nx') nx' ∧ -1 ≤ j < zlen t ∧
        remaining (Iter ht i es nx) = x :: remaining it'
    end.
Proof.
  intros Hi. unfold dictNext, remaining. cbn [it_ht it_entry it_next it_index size].
  destruct es as [|y es].
  - destruct (next_loop_scan (3 + Z.to_nat (zlen t)) i nx) as (it' & e & -> & He); [lia..|].
    exists it', e. split; [done|]. destruct e as [x|]; [|done].
    destruct He as (j & nx' & -> & Hj & E). exists j, nx'. split_and!; [done | lia | lia | done].
  - change (3 + Z.to_nat (zlen t))%nat with (S (2 + Z.to_nat (zlen t))).
    remember (2 + Z.to_nat (zlen t))%nat as f eqn:Hf.
    cbn [next_loop it_entry it_next it_ht it_index]. cbv zeta. destruct nx as [|x nx].
    + destruct (next_loop_scan f i []) as (it' & e & -> & He); [lia..|].
      exists it', e. split; [done|].
      destruct e as [x|]; [|done].
      destruct He as (j & nx' & -> & Hj & E). exists j, nx'. split_and!; [done | lia | lia | done].
    + eexists _, (Some x). split; [done|]. exists i, nx. split_and!; [done | lia | lia | done].
Qed.

Lemma iterate_ok fuel i es nx :
  -1 ≤ i < zlen t -> (length (remaining (Iter ht i es nx)) < fuel)%nat ->
  iterate fuel (Iter ht i es nx) = Ok (remaining (Iter ht i es nx)).
Proof.
  revert i es nx. induction fuel as [|fuel IH]; intros i es nx Hi Hf; [lia|].
  cbn [iterate]. destruct (dictNext_ok i es nx Hi) as (it' & e & -> & He).
  rsimpl. destruct e as [x|]; [|by rewrite He].
  destruct He as (j & nx' & -> & Hj & E). rewrite E in *. cbn [length] in Hf.
  rewrite IH by (done || lia). done.
Qed.

(** The loop over a fresh iterator. *)
Lemma iterate_all fuel :
  (length (concat t) < fuel)%nat -> iterate fuel (Iter ht (-1) [] []) = Ok (concat t).
Proof.
  intros Hf. pose proof (zlen_nonneg t).
  rewrite (iterate_ok fuel (-1) [] []); [done | lia | done].
Qed.
End iteration.

(** ** Bernstein's hash: [hash * 33 + c], modulo [2 ^ 32] *)
Definition bernstein (s : bytes) : Z :=
  foldl (λ h c, (h * 33 + uchar c) mod 2 ^ 32) 5381 s.

Lemma gen_hash_loop_ok s tl h :
  0 ≤ h < 2 ^ 32 ->
  gen_hash_loop (length s) (s ++ tl) h
  = Ok (foldl (λ h c, (h * 33 + uchar c) mod 2 ^ 32) h s).
Proof.
  revert h. induction s as [|c s IH]; intros h Hh; [done|].
  cbn [length app gen_hash_loop foldl]. rewrite Z.shiftl_mul_pow2 by lia.
  assert (u32 (u32 (u32 (h * 2 ^ 5) + h) + uchar c) = (h * 33 + uchar c) mod 2 ^ 32) as ->.
  { unfold u32, wrap. rewrite Zplus_mod_idemp_l, <- Z.add_assoc, Zplus_mod_idemp_l.
    f_equal. lia. }
  apply IH. apply Z.mod_pos_bound. lia.
Qed.

Lemma dictGenHashFunction_ok s tl :
  dictGenHashFunction (s ++ tl) (zlen s) = Ok (bernstein s).
Proof.
  unfold dictGenHashFunction. rewrite bool_decide_false by zl. rewrite zlen_to_nat.
  apply gen_hash_loop_ok. lia.
Qed.

Lemma bernstein_range s : 0 ≤ bernstein s < 2 ^ 32.
Proof.
  unfold bernstein. destruct s as [|c s _] using rev_ind; [done|].
  rewrite foldl_app. apply Z.mod_pos_bound. lia.
Qed.
