(* ===== verification/Reader.v ===== *)
(** * Reader: the incremental protocol parser of hiredis (read.c, read.h)

    The reader owns an sds buffer with a cursor, and a stack of tasks, one
    per level of nested arrays.  The functions that create reply objects are
    a record over a world [W]; a NULL function pointer is [None], and the
    parser then uses the type code itself as the object. *)

From Stdlib Require Import ZArith Lia Ascii.
From stdpp Require Import base list strings gmap numbers.
From S2P Require Import Prelude Libc Printf Sds.

Definition REDIS_ERR : Z := -1.
Definition REDIS_OK : Z := 0.
Definition REDIS_ERR_IO : Z := 1.
Definition REDIS_ERR_OTHER : Z := 2.
Definition REDIS_ERR_EOF : Z := 3.
Definition REDIS_ERR_PROTOCOL : Z := 4.
Definition REDIS_ERR_OOM : Z := 5.

Definition REDIS_REPLY_STRING : Z := 1.
Definition REDIS_REPLY_ARRAY : Z := 2.
Definition REDIS_REPLY_INTEGER : Z := 3.
Definition REDIS_REPLY_NIL : Z := 4.
Definition REDIS_REPLY_STATUS : Z := 5.
Definition REDIS_REPLY_ERROR : Z := 6.

Definition REDIS_READER_MAX_BUF : Z := 1024 * 16.

(** A [void *] to a reply object: NULL, a type code cast to a pointer, or an
    object of the creation functions. *)
Inductive vptr (Ob : Type) :=
  | Null
  | Cast (type : Z)
  | Obj (o : Ob).
Arguments Null {Ob}.
Arguments Cast {Ob}.
Arguments Obj {Ob}.

Definition is_null {Ob} (p : vptr Ob) : bool :=
  match p with Null => true | _ => false end.

Record redisReadTask (Ob : Type) := Task {
  t_type : Z;
  t_elements : Z;
  t_idx : Z;
  t_obj : vptr Ob;
  t_parent : option nat; (** the parent's place in the stack *)
  t_privdata : Z;
}.
Arguments Task {Ob}.
Arguments t_type {Ob}.
Arguments t_elements {Ob}.
Arguments t_idx {Ob}.
Arguments t_obj {Ob}.
Arguments t_parent {Ob}.
Arguments t_privdata {Ob}.

(** What a creation function reads of its task: its type, its index, the
    object of its parent, and the user's field. *)
Record task_view (Ob : Type) := View {
  tv_type : Z;
  tv_idx : Z;
  tv_parent : option (vptr Ob);
  tv_privdata : Z;
}.
Arguments View {Ob}.
Arguments tv_type {Ob}.
Arguments tv_idx {Ob}.
Arguments tv_parent {Ob}.
Arguments tv_privdata {Ob}.

Record redisReplyObjectFunctions (W Ob : Type) := Functions {
  createString : option (task_view Ob -> bytes -> Z -> M W (vptr Ob));
  createArray : option (task_view Ob -> Z -> M W (vptr Ob));
  createInteger : option (task_view Ob -> Z -> M W (vptr Ob));
  createNil : option (task_view Ob -> M W (vptr Ob));
  freeObject : option (vptr Ob -> M W unit);
}.
Arguments Functions {W Ob}.
Arguments createString {W Ob}.
Arguments createArray {W Ob}.
Arguments createInteger {W Ob}.
Arguments createNil {W Ob}.
Arguments freeObject {W Ob}.

Record redisReader (Ob : Type) := Reader {
  r_err : Z;
  r_errstr : bytes; (** char errstr[128] *)
  r_buf : option sdshdr;
  r_pos : Z;
  r_len : Z;
  r_maxbuf : Z;
  r_rstack : list (redisReadTask Ob); (** rstack[9] *)
  r_ridx : Z;
  r_reply : vptr Ob;
  r_privdata : Z;
}.
Arguments Reader {Ob}.
Arguments r_err {Ob}.
Arguments r_errstr {Ob}.
Arguments r_buf {Ob}.
Arguments r_pos {Ob}.
Arguments r_len {Ob}.
Arguments r_maxbuf {Ob}.
Arguments r_rstack {Ob}.
Arguments r_ridx {Ob}.
Arguments r_reply {Ob}.
Arguments r_privdata {Ob}.

(** ** Scanning *)

(** [chrtos]: a byte between quotes, escaped; the buffer and the length. *)
Definition chrtos (buf : bytes) (size : Z) (byte : ascii) : res (bytes * Z) :=
  let print s args := vsnprintf buf size s args in
  if decide (byte = "\"%char ∨ byte = "034"%char) then
    print ("034"%char :: bs "\%c" ++ ["034"%char; NUL]) [VInt (schar byte)]
  else if decide (byte = LF) then print ("034"%char :: bs "\n" ++ ["034"%char; NUL]) []
  else if decide (byte = CR) then print ("034"%char :: bs "\r" ++ ["034"%char; NUL]) []
  else if decide (byte = "009"%char) then print ("034"%char :: bs "\t" ++ ["034"%char; NUL]) []
  else if decide (byte = "007"%char) then print ("034"%char :: bs "\a" ++ ["034"%char; NUL]) []
  else if decide (byte = "008"%char) then print ("034"%char :: bs "\b" ++ ["034"%char; NUL]) []
  else if isprint byte then
    print ("034"%char :: bs "%c" ++ ["034"%char; NUL]) [VInt (schar byte)]
  else print ("034"%char :: bs "\x%02x" ++ ["034"%char; NUL]) [VInt (uchar byte)].

(** [while(pos < _len && s[pos] != '\r') pos++;] *)
Fixpoint seek_cr (fuel : nat) (s : bytes) (pos len : Z) : res Z :=
  match fuel with
  | O => Stuck
  | S fuel' =>
      if bool_decide (pos < len) then
        c ← load s pos;
        if decide (c = CR) then Ok pos else seek_cr fuel' s (pos + 1) len
      else Ok pos
  end.

Fixpoint seek_loop (fuel : nat) (s : bytes) (pos len : Z) : res (option Z) :=
  match fuel with
  | O => Stuck
  | S fuel' =>
      if bool_decide (pos < len) then
        pos ← seek_cr (S (Z.to_nat len)) s pos len;
        c ← load s pos;
        if decide (c = CR) then
          d ← load s (pos + 1);
          if decide (d = LF) then Ok (Some pos) else seek_loop fuel' s (pos + 1) len
        else Ok None
      else Ok None
  end.

(** The offset of the first [\r\n] in the first [len] bytes. *)
Definition seekNewline (s : bytes) (len : Z) : res (option Z) :=
  let _len := i32 (u64 (len - 1)) in
  seek_loop (2 + Z.to_nat _len) s 0 _len.

Fixpoint digits_loop (s : bytes) (v : Z) : res (option Z) :=
  match s with
  | [] => Stuck
  | c :: s' =>
      if decide (c = CR) then Ok (Some v) else
      let dec := schar c - 48 in
      if bool_decide (0 ≤ dec < 10) then digits_loop s' (i64 (i64 (v * 10) + dec))
      else Ok None
  end.

Definition readLongLong (s : bytes) : res Z :=
  c ← load s 0;
  let '(mult, s) := if decide (c = "-"%char) then (-1, drop 1 s)
                    else if decide (c = "+"%char) then (1, drop 1 s) else (1, s) in
  o ← digits_loop s 0;
  mret (match o with Some v => i64 (mult * v) | None => -1 end).

Section reader.
Context {W : Type} `{!Libc W} {Ob : Type}.
Context (fn : option (redisReplyObjectFunctions W Ob)).

(** ** Errors *)
Definition set_reply (r : redisReader Ob) (p : vptr Ob) : redisReader Ob :=
  Reader (r_err r) (r_errstr r) (r_buf r) (r_pos r) (r_len r) (r_maxbuf r)
    (r_rstack r) (r_ridx r) p (r_privdata r).
Definition set_pos (r : redisReader Ob) (pos : Z) : redisReader Ob :=
  Reader (r_err r) (r_errstr r) (r_buf r) pos (r_len r) (r_maxbuf r)
    (r_rstack r) (r_ridx r) (r_reply r) (r_privdata r).
Definition set_stack (r : redisReader Ob) (rs : list (redisReadTask Ob)) (ridx : Z) :
    redisReader Ob :=
  Reader (r_err r) (r_errstr r) (r_buf r) (r_pos r) (r_len r) (r_maxbuf r)
    rs ridx (r_reply r) (r_privdata r).

Definition __redisReaderSetError (r : redisReader Ob) (type : Z) (str : bytes) :
    M W (redisReader Ob) :=
  reply ← (match r_reply r, fn ≫= freeObject with
           | Null, _ => mret Null
           | p, Some free => _ ← free p; mret Null
           | p, None => mret p
           end);
  let '(buf, pos, len) := match r_buf r with
                          | Some _ => (None, 0, 0)
                          | None => (None, r_pos r, r_len r) end in
  n ← lift (strlen str);
  let n := if bool_decide (n < 127) then n else 127 in
  e ← lift (memcpy (r_errstr r) 0 str n);
  e ← lift (store e n NUL);
  mret (Reader type e buf pos len (r_maxbuf r) (r_rstack r) (-1) reply (r_privdata r)).

Definition __redisReaderSetErrorProtocolByte (r : redisReader Ob) (byte : ascii) :
    M W (redisReader Ob) :=
  '(cbuf, _) ← lift (chrtos (replicate 8 NUL) 8 byte);
  '(sbuf, _) ← lift (vsnprintf (replicate 128 NUL) 128
                       (cstr "Protocol error, got %s as reply type byte") [VPtr cbuf]);
  __redisReaderSetError r REDIS_ERR_PROTOCOL sbuf.

Definition __redisReaderSetErrorOOM (r : redisReader Ob) : M W (redisReader Ob) :=
  __redisReaderSetError r REDIS_ERR_OOM (cstr "Out of memory").

(** ** Buffer *)

(** The buffer from the offset [pos] on. *)
Definition buf_at (r : redisReader Ob) (pos : Z) : res bytes :=
  b ← deref (r_buf r); ptr_add (sh_buf b) pos.

Definition readBytes (r : redisReader Ob) (n : Z) : res (redisReader Ob * option bytes) :=
  if bool_decide (n ≤ u64 (r_len r - r_pos r)) then
    p ← buf_at r (r_pos r);
    mret (set_pos r (u64 (r_pos r + n)), Some p)
  else Ok (r, None).

(** The line and its length, without its [\r\n]. *)
Definition readLine (r : redisReader Ob) : res (redisReader Ob * option (bytes * Z)) :=
  p ← buf_at r (r_pos r);
  s ← seekNewline p (u64 (r_len r - r_pos r));
  match s with
  | Some s => let len := i32 s in
              Ok (set_pos r (u64 (r_pos r + i32 (len + 2))), Some (p, len))
  | None => Ok (r, None)
  end.

(** ** Tasks *)
Definition task_at (r : redisReader Ob) (i : Z) : res (redisReadTask Ob) :=
  if bool_decide (0 ≤ i) then deref (r_rstack r !! Z.to_nat i) else Stuck.

Definition set_task (r : redisReader Ob) (i : Z) (t : redisReadTask Ob) :
    res (redisReader Ob) :=
  if bool_decide (0 ≤ i < zlen (r_rstack r))
  then Ok (set_stack r (<[Z.to_nat i := t]> (r_rstack r)) (r_ridx r)) else Stuck.

Definition view (r : redisReader Ob) (t : redisReadTask Ob) : res (task_view Ob) :=
  parent ← (match t_parent t with
            | None => Ok None
            | Some i => p ← task_at r (Z.of_nat i); mret (Some (t_obj p)) end);
  mret (View (t_type t) (t_idx t) parent (t_privdata t)).

Fixpoint next_task (fuel : nat) (r : redisReader Ob) : res (redisReader Ob) :=
  match fuel with
  | O => Stuck
  | S fuel' =>
      if bool_decide (0 ≤ r_ridx r) then
        if bool_decide (r_ridx r = 0) then Ok (set_stack r (r_rstack r) (-1)) else
        cur ← task_at r (r_ridx r);
        prv ← task_at r (r_ridx r - 1);
        _ ← rassert (bool_decide (t_type prv = REDIS_REPLY_ARRAY));
        if bool_decide (t_idx cur = i32 (t_elements prv - 1))
        then next_task fuel' (set_stack r (r_rstack r) (r_ridx r - 1))
        else
          _ ← rassert (bool_decide (t_idx cur < t_elements prv));
          set_task r (r_ridx r) (Task (-1) (-1) (i32 (t_idx cur + 1)) (t_obj cur)
                                   (t_parent cur) (t_privdata cur))
      else Ok r
  end.

Definition moveToNextTask (r : redisReader Ob) : res (redisReader Ob) :=
  next_task (2 + Z.to_nat (r_ridx r)) r.

(** The creation functions, or the type code when there is none. *)
Definition new_string (v : task_view Ob) (p : bytes) (len : Z) : M W (vptr Ob) :=
  match fn ≫= createString with Some g => g v p len | None => mret (Cast (tv_type v)) end.
Definition new_integer (v : task_view Ob) (z : Z) : M W (vptr Ob) :=
  match fn ≫= createInteger with
  | Some g => g v z | None => mret (Cast REDIS_REPLY_INTEGER) end.
Definition new_nil (v : task_view Ob) : M W (vptr Ob) :=
  match fn ≫= createNil with Some g => g v | None => mret (Cast REDIS_REPLY_NIL) end.
Definition new_array (v : task_view Ob) (n : Z) : M W (vptr Ob) :=
  match fn ≫= createArray with
  | Some g => g v n | None => mret (Cast REDIS_REPLY_ARRAY) end.

(** [if (r->ridx == 0) r->reply = obj; moveToNextTask(r);] *)
Definition finish_item (r : redisReader Ob) (obj : vptr Ob) : M W (redisReader Ob * Z) :=
  let r := if bool_decide (r_ridx r = 0) then set_reply r obj else r in
  r ← lift (moveToNextTask r);
  mret (r, REDIS_OK).

Definition oom_error (r : redisReader Ob) : M W (redisReader Ob * Z) :=
  r ← __redisReaderSetErrorOOM r; mret (r, REDIS_ERR).

Definition processLineItem (r : redisReader Ob) : M W (redisReader Ob * Z) :=
  cur ← lift (task_at r (r_ridx r));
  '(r, l) ← lift (readLine r);
  match l with
  | None => mret (r, REDIS_ERR)
  | Some (p, len) =>
      v ← lift (view r cur);
      obj ← (if bool_decide (t_type cur = REDIS_REPLY_INTEGER)
             then z ← lift (readLongLong p); new_integer v z
             else new_string v p (u64 len));
      if is_null obj then oom_error r else finish_item r obj
  end.

Definition processBulkItem (r : redisReader Ob) : M W (redisReader Ob * Z) :=
  cur ← lift (task_at r (r_ridx r));
  p ← lift (buf_at r (r_pos r));
  s ← lift (seekNewline p (u64 (r_len r - r_pos r)));
  match s with
  | None => mret (r, REDIS_ERR)
  | Some s =>
      let bytelen := u64 (s + 2) in
      len ← lift (readLongLong p);
      v ← lift (view r cur);
      (* the object when there is one, and the bytes of the item *)
      '(made, bytelen) ←
        (if bool_decide (len < 0) then obj ← new_nil v; mret (Some obj, bytelen)
         else
           let bytelen := u64 (bytelen + i64 (len + 2)) in
           if bool_decide (u64 (r_pos r + bytelen) ≤ r_len r) then
             q ← lift (ptr_add p (s + 2));
             obj ← new_string v q (u64 len); mret (Some obj, bytelen)
           else mret (None, bytelen));
      match made with
      | None => mret (r, REDIS_ERR)
      | Some obj =>
          if is_null obj then oom_error r
          else finish_item (set_pos r (u64 (r_pos r + bytelen))) obj
      end
  end.

Definition processMultiBulkItem (r : redisReader Ob) : M W (redisReader Ob * Z) :=
  cur ← lift (task_at r (r_ridx r));
  if bool_decide (r_ridx r = 8) then
    r ← __redisReaderSetError r REDIS_ERR_PROTOCOL
          (cstr "No support for nested multi bulk replies with depth > 7");
    mret (r, REDIS_ERR)
  else
  '(r, l) ← lift (readLine r);
  match l with
  | None => mret (r, REDIS_ERR)
  | Some (p, _) =>
      elements ← lift (readLongLong p);
      let root := bool_decide (r_ridx r = 0) in
      v ← lift (view r cur);
      obj ← (if bool_decide (elements = -1) then new_nil v
             else new_array v (i32 elements));
      if is_null obj then oom_error r else
      r ← (if bool_decide (elements > 0) then
             r ← lift (set_task r (r_ridx r)
                   (Task (t_type cur) (i32 elements) (t_idx cur) obj
                      (t_parent cur) (t_privdata cur)));
             let i := r_ridx r in
             lift (set_task (set_stack r (r_rstack r) (i + 1)) (i + 1)
                     (Task (-1) (-1) 0 Null (Some (Z.to_nat i)) (r_privdata r)))
           else lift (moveToNextTask r));
      mret (if root then set_reply r obj else r, REDIS_OK)
  end.

Definition type_of_byte (c : ascii) : option Z :=
  if decide (c = "-"%char) then Some REDIS_REPLY_ERROR
  else if decide (c = "+"%char) then Some REDIS_REPLY_STATUS
  else if decide (c = ":"%char) then Some REDIS_REPLY_INTEGER
  else if decide (c = "$"%char) then Some REDIS_REPLY_STRING
  else if decide (c = "*"%char) then Some REDIS_REPLY_ARRAY
  else None.

Definition process_typed (r : redisReader Ob) (type : Z) : M W (redisReader Ob * Z) :=
  if bool_decide (type = REDIS_REPLY_ERROR ∨ type = REDIS_REPLY_STATUS
                  ∨ type = REDIS_REPLY_INTEGER) then processLineItem r
  else if bool_decide (type = REDIS_REPLY_STRING) then processBulkItem r
  else if bool_decide (type = REDIS_REPLY_ARRAY) then processMultiBulkItem r
  else stuck.

Definition processItem (r : redisReader Ob) : M W (redisReader Ob * Z) :=
  cur ← lift (task_at r (r_ridx r));
  if bool_decide (t_type cur < 0) then
    '(r, p) ← lift (readBytes r 1);
    match p with
    | None => mret (r, REDIS_ERR)
    | Some p =>
        c ← lift (load p 0);
        match type_of_byte c with
        | None => r ← __redisReaderSetErrorProtocolByte r c; mret (r, REDIS_ERR)
        | Some type =>
            r ← lift (set_task r (r_ridx r)
                  (Task type (t_elements cur) (t_idx cur) (t_obj cur)
                     (t_parent cur) (t_privdata cur)));
            process_typed r type
        end
    end
  else process_typed r (t_type cur).

(** ** The reader *)
Definition redisReaderCreateWithFunctions : M W (option (redisReader Ob)) :=
  r ← c_calloc 560;
  match r with
  | None => mret None
  | Some _ =>
      buf ← sdsempty;
      match buf with
      | None => mret None
      | Some b =>
          mret (Some (Reader 0 (replicate 128 NUL) (Some b) 0 0 REDIS_READER_MAX_BUF
                        (replicate 9 (Task 0 0 0 Null None 0)) (-1) Null 0))
      end
  end.

Definition redisReaderFree (r : redisReader Ob) : M W unit :=
  match r_reply r, fn ≫= freeObject with
  | Null, _ => mret tt
  | p, Some free => free p
  | _, None => mret tt
  end.

Definition redisReaderFeed (r : redisReader Ob) (buf : option bytes) (len : Z) :
    M W (redisReader Ob * Z) :=
  if bool_decide (r_err r ≠ 0) then mret (r, REDIS_ERR) else
  match buf with
  | Some buf =>
      if bool_decide (1 ≤ len) then
        cur ← lift (deref (r_buf r));
        '(cur, pos) ← (if bool_decide (r_len r = 0 ∧ r_maxbuf r ≠ 0
                                       ∧ sdsavail cur > r_maxbuf r)
                       then o ← sdsempty; b ← lift (deref o); mret (b, 0)
                       else mret (cur, r_pos r));
        newbuf ← sdscatlen cur buf len;
        let r := Reader (r_err r) (r_errstr r) (Some cur) pos (r_len r) (r_maxbuf r)
                   (r_rstack r) (r_ridx r) (r_reply r) (r_privdata r) in
        match newbuf with
        | None => oom_error r
        | Some b =>
            mret (Reader (r_err r) (r_errstr r) (Some b) pos (sdslen b) (r_maxbuf r)
                    (r_rstack r) (r_ridx r) (r_reply r) (r_privdata r), REDIS_OK)
        end
      else mret (r, REDIS_OK)
  | None => mret (r, REDIS_OK)
  end.

(** [while (r->ridx >= 0) if (processItem(r) != REDIS_OK) break;] *)
Fixpoint process_loop (fuel : nat) (r : redisReader Ob) : M W (redisReader Ob) :=
  match fuel with
  | O => stuck
  | S fuel' =>
      if bool_decide (0 ≤ r_ridx r) then
        '(r, st) ← processItem r;
        if bool_decide (st = REDIS_OK) then process_loop fuel' r else mret r
      else mret r
  end.

(** The status, and [*reply]. *)
Definition redisReaderGetReply (r : redisReader Ob) :
    M W (redisReader Ob * Z * vptr Ob) :=
  if bool_decide (r_err r ≠ 0) then mret (r, REDIS_ERR, Null) else
  if bool_decide (r_len r = 0) then mret (r, REDIS_OK, Null) else
  r ← (if bool_decide (r_ridx r = -1)
       then r ← lift (set_task r 0 (Task (-1) (-1) (-1) Null None (r_privdata r)));
            mret (set_stack r (r_rstack r) 0)
       else mret r);
  (* every item that is read takes a byte of the buffer *)
  r ← process_loop (2 + Z.to_nat (r_len r)) r;
  if bool_decide (r_err r ≠ 0) then mret (r, REDIS_ERR, Null) else
  r ← lift (if bool_decide (1024 ≤ r_pos r) then
              b ← deref (r_buf r);
              b ← sdsrange b (i32 (r_pos r)) (-1);
              mret (Reader (r_err r) (r_errstr r) (Some b) 0 (sdslen b) (r_maxbuf r)
                      (r_rstack r) (r_ridx r) (r_reply r) (r_privdata r))
            else Ok r);
  if bool_decide (r_ridx r = -1)
  then mret (set_reply r Null, REDIS_OK, r_reply r) else mret (r, REDIS_OK, Null).
End reader.
