(* ===== verification/Resp.v ===== *)
(** * Resp: the Redis protocol, and the scanners of the reader (read.c)

    Replies as a tree, their encoding on the wire, and the two scanners of
    read.c on encoded text: [seekNewline] finds the end of a line, and
    [readLongLong] reads back a decimal number. *)

From Stdlib Require Import ZArith Lia Ascii.
From stdpp Require Import base list strings gmap numbers.
From S2P Require Import Prelude Libc Printf Sds Reader.

(** ** Replies and their encoding *)
#[warnings="-register-all"] Inductive reply :=
  | RStatus (s : bytes)
  | RError (s : bytes)
  | RInteger (z : Z)
  | RString (s : bytes)
  | RNil
  | RNilArray
  | RArray (l : list reply).

Definition crlf (s : bytes) : bytes := s ++ [CR; LF].

Definition type_byte (rep : reply) : ascii :=
  match rep with
  | RStatus _ => "+" | RError _ => "-" | RInteger _ => ":"
  | RString _ | RNil => "$" | RNilArray | RArray _ => "*"
  end.

(** What follows the type byte. *)
Fixpoint body (rep : reply) : bytes :=
  match rep with
  | RStatus s | RError s => crlf s
  | RInteger z => crlf (itoa z)
  | RString s => crlf (itoa (zlen s)) ++ crlf s
  | RNil | RNilArray => crlf (bs "-1")
  | RArray l =>
      crlf (itoa (zlen l))
        ++ (fix go l := match l with
                        | [] => []
                        | x :: l' => (type_byte x :: body x) ++ go l'
                        end) l
  end.

Definition encode (rep : reply) : bytes := type_byte rep :: body rep.
Definition encode_list (l : list reply) : bytes := concat (map encode l).

Lemma body_array l : body (RArray l) = crlf (itoa (zlen l)) ++ encode_list l.
Proof. cbn [body]. f_equal. unfold encode_list. induction l as [|x l IH]; [done|]. cbn. by rewrite <- IH. Qed.

Definition no_crlf (s : bytes) : Prop := ∀ a b, s ≠ a ++ CR :: LF :: b.

(** Replies a server can send: lines without [\r\n], 64-bit numbers. *)
Fixpoint wf (rep : reply) : Prop :=
  match rep with
  | RStatus s | RError s => no_crlf s
  | RInteger z => - 2 ^ 63 < z < 2 ^ 63
  | RString _ | RNil | RNilArray => True
  | RArray l =>
      zlen l < 2 ^ 31
      ∧ (fix go l := match l with [] => True | x :: l' => wf x ∧ go l' end) l
  end.

Lemma wf_array l : wf (RArray l) <-> zlen l < 2 ^ 31 ∧ Forall wf l.
Proof.
  cbn [wf]. apply Morphisms_Prop.and_iff_morphism; [done|].
  induction l as [|x l IH]; [split; [constructor|done]|].
  rewrite Forall_cons_iff. by rewrite IH.
Qed.

(** The number of nested arrays, nil arrays included. *)
Fixpoint depth (rep : reply) : nat :=
  match rep with
  | RNilArray => 1
  | RArray l =>
      S ((fix go l := match l with [] => O | x :: l' => Nat.max (depth x) (go l') end) l)
  | _ => 0
  end.

Lemma depth_array l d : (depth (RArray l) ≤ S d)%nat <-> Forall (λ x, (depth x ≤ d)%nat) l.
Proof.
  cbn [depth]. induction l as [|x l IH]; [split; [constructor | lia]|].
  rewrite Forall_cons_iff, <- IH. lia.
Qed.

(** ** [seekNewline] finds the first [\r\n] *)
Fixpoint find_crlf (s : bytes) : option nat :=
  match s with
  | c :: ((d :: _) as s') =>
      if decide (c = CR ∧ d = LF) then Some O else S <$> find_crlf s'
  | _ => None
  end.

Lemma find_crlf_cons c d s :
  find_crlf (c :: d :: s)
  = if decide (c = CR ∧ d = LF) then Some O else S <$> find_crlf (d :: s).
Proof. done. Qed.

Lemma find_crlf_skip k s : CR ∉ k -> find_crlf (k ++ s) = Nat.add (length k) <$> find_crlf s.
Proof.
  induction k as [|c k IH]; intros Hk; cbn [app length].
  { by destruct (find_crlf s). }
  apply not_elem_of_cons in Hk as [Hc Hk].
  destruct (k ++ s) as [|d s'] eqn:E.
  - destruct k; [|done]. by destruct s.
  - rewrite find_crlf_cons, decide_False by (intros [? ?]; by subst). rewrite IH by done.
    by destruct (find_crlf s).
Qed.

Lemma find_crlf_line l rest :
  no_crlf l -> find_crlf (l ++ CR :: LF :: rest) = Some (length l).
Proof.
  induction l as [|c l IH]; intros Hl; cbn [app length]; [done|].
  assert (no_crlf l) as Hl'.
  { intros a b ->. by apply (Hl (c :: a) b). }
  destruct (l ++ CR :: LF :: rest) as [|d s'] eqn:E; [by destruct l|].
  rewrite find_crlf_cons, decide_False; [by rewrite IH|].
  intros [-> ->]. destruct l as [|d' l]; cbn [app] in E; [discriminate E|].
  injection E as -> _. by apply (Hl [] l).
Qed.

Lemma find_crlf_none s : no_crlf s -> find_crlf s = None.
Proof.
  induction s as [|c s IH]; intros Hs; [done|].
  destruct s as [|d s]; [done|]. rewrite find_crlf_cons, decide_False.
  - rewrite IH; [done|]. intros a b E. apply (Hs (c :: a) b). by rewrite E.
  - intros [-> ->]. by apply (Hs [] s).
Qed.

(** A part of a line that ends before its [\n]. *)
Lemma no_crlf_prefix l s t :
  no_crlf l -> crlf l = s ++ t -> t ≠ [] -> no_crlf s.
Proof.
  intros Hl E Ht a b ->. unfold crlf in E.
  destruct t as [|x t _] using rev_ind; [done|].
  rewrite app_assoc in E. change [CR; LF] with ([CR] ++ [LF]) in E. rewrite app_assoc in E.
  apply app_inj_tail in E as [E _]. rewrite <- !app_assoc in E. cbn [app] in E.
  destruct (b ++ t) as [|y u _] using rev_ind.
  - change (l ++ [CR] = a ++ [CR; LF]) in E. change [CR; LF] with ([CR] ++ [LF]) in E.
    rewrite app_assoc in E. by apply app_inj_tail in E as [_ E].
  - change (CR :: LF :: u ++ [y]) with ((CR :: LF :: u) ++ [y]) in E.
    rewrite app_assoc in E. apply app_inj_tail in E as [E _]. by apply (Hl a u).
Qed.

Section seek.
Context (tl : bytes).

(** The inner scan stops at a [\r] or at the last byte. *)
Lemma seek_cr_ok fuel a m :
  m ≠ [] -> (length m ≤ fuel)%nat ->
  ∃ k m2, m = k ++ m2 ∧ (CR ∉ k) ∧ m2 ≠ [] ∧
    seek_cr fuel (a ++ m ++ NUL :: tl) (zlen a) (zlen (a ++ m) - 1) = Ok (zlen (a ++ k)) ∧
    (match m2 with c :: _ :: _ => c = CR | _ => True end).
Proof.
  revert a m. induction fuel as [|fuel IH]; intros a m Hm Hf.
  { destruct m; [done|simpl in Hf; lia]. }
  destruct m as [|c m]; [done|]. cbn [seek_cr].
  destruct m as [|d m].
  { exists [], [c]. rewrite bool_decide_false by zl. rewrite app_nil_r.
    split_and!; [done | apply not_elem_of_nil | done..]. }
  rewrite bool_decide_true by zl. cbn [app]. rewrite load_app_r by done. rsimpl.
  case_decide as Hc.
  { exists [], (c :: d :: m). rewrite app_nil_r. split_and!; [done | apply not_elem_of_nil | done..]. }
  destruct (IH (a ++ [c]) (d :: m)) as (k & m2 & E & Hk & Hm2 & Es & H2); [done | simpl in *; lia |].
  exists (c :: k), m2. split_and!; [by rewrite E | | done | | done].
  - by apply not_elem_of_cons.
  - rewrite <- !app_assoc in Es. cbn [app] in Es.
    replace (zlen a + 1) with (zlen (a ++ [c])) by zl. exact Es.
Qed.

Lemma seek_loop_ok fuel a m :
  (length m < fuel)%nat ->
  seek_loop fuel (a ++ m ++ NUL :: tl) (zlen a) (zlen (a ++ m) - 1)
  = Ok ((λ n, zlen a + Z.of_nat n) <$> find_crlf m).
Proof.
  revert a m. induction fuel as [|fuel IH]; intros a m Hf; [lia|]. cbn [seek_loop].
  destruct m as [|c [|c' m]].
  { by rewrite bool_decide_false by zl. }
  { by rewrite bool_decide_false by zl. }
  rewrite bool_decide_true by zl.
  set (mm := c :: c' :: m) in *.
  destruct (seek_cr_ok (S (Z.to_nat (zlen (a ++ mm) - 1))) a mm)
    as (k & m2 & E & Hk & Hm2 & -> & H2); [done | unfold zlen; rewrite length_app; lia |].
  rsimpl. rewrite E, find_crlf_skip by done.
  destruct m2 as [|x m2]; [done|].
  replace (a ++ (k ++ x :: m2) ++ NUL :: tl) with ((a ++ k) ++ x :: m2 ++ NUL :: tl)
    by (by rewrite <- !app_assoc).
  rewrite (load_app_r (a ++ k) _ x (zlen (a ++ k))) by done. rsimpl.
  destruct m2 as [|y m2].
  - case_decide as Hx; [|done].
    change (x :: [] ++ NUL :: tl) with ([x] ++ NUL :: tl).
    rewrite (app_assoc (a ++ k) [x]), load_app_r by zl. rsimpl.
    destruct fuel as [|fuel]; [simpl in Hf; lia|]. cbn [seek_loop].
    by rewrite bool_decide_false by zl.
  - subst x. rewrite decide_True by done.
    cbn [app]. change (CR :: y :: m2 ++ NUL :: tl) with ([CR] ++ y :: m2 ++ NUL :: tl).
    rewrite (app_assoc (a ++ k) [CR]), load_app_r by zl. rsimpl. rewrite find_crlf_cons.
    destruct (decide (y = LF)) as [->|Hy].
    + rewrite decide_True by done. cbn. do 2 f_equal. unfold zlen. rewrite length_app. lia.
    + rewrite decide_False by (intros [_ ?]; done).
      specialize (IH ((a ++ k) ++ [CR]) (y :: m2)).
      replace (zlen (a ++ k) + 1) with (zlen ((a ++ k) ++ [CR])) by zl.
      replace (zlen (a ++ k ++ CR :: y :: m2) - 1)
        with (zlen (((a ++ k) ++ [CR]) ++ y :: m2) - 1) by zl.
      cbn [app] in IH. rewrite IH.
      * destruct (find_crlf (y :: m2)) as [n|]; [|done]. cbn. do 2 f_equal.
        rewrite !zlen_app, zlen_cons, zlen_nil. unfold zlen. lia.
      * apply (f_equal length) in E. rewrite length_app in E. cbn [length] in *. lia.
Qed.
End seek.

Lemma seekNewline_ok s tl :
  zlen s < 2 ^ 31 ->
  seekNewline (s ++ NUL :: tl) (zlen s) = Ok (Z.of_nat <$> find_crlf s).
Proof.
  intros Hs. unfold seekNewline. destruct s as [|c s]; [done|].
  rewrite u64_small, i32_small by zl.
  pose proof (seek_loop_ok tl (2 + Z.to_nat (zlen (c :: s) - 1)) [] (c :: s)) as E.
  cbn [app] in E |- *. rewrite zlen_nil in E. rewrite E; [done|].
  unfold zlen. cbn [length]. lia.
Qed.

(** ** [readLongLong] reads back a number *)
Lemma digits_loop_ok ds rest v :
  Forall is_digit ds -> 0 ≤ v ->
  foldl (λ acc c, acc * 10 + (uchar c - 48)) v ds < 2 ^ 63 ->
  digits_loop (ds ++ CR :: rest) v = Ok (Some (foldl (λ acc c, acc * 10 + (uchar c - 48)) v ds)).
Proof.
  intros Hds. revert v. induction Hds as [|c ds Hc Hds IH]; intros v Hv Hlt.
  { by cbn. }
  cbn [app digits_loop foldl] in *.
  pose proof (digit_not_special c Hc) as (HCR & _). unfold is_digit in Hc.
  rewrite decide_False by done.
  unfold schar. rewrite swrap_small by lia.
  rewrite bool_decide_true by lia.
  assert (v * 10 + (uchar c - 48)
          ≤ foldl (λ acc c, acc * 10 + (uchar c - 48)) (v * 10 + (uchar c - 48)) ds) as Hmono.
  { assert (0 ≤ v * 10 + (uchar c - 48)) as H0 by lia. revert H0. clear Hlt IH Hc Hv.
    generalize (v * 10 + (uchar c - 48)). induction Hds as [|d ds Hd Hds IH]; intros u Hu;
      cbn [foldl]; [lia|]. unfold is_digit in Hd.
    etrans; [|apply IH]; lia. }
  rewrite (i64_small (v * 10)), i64_small by lia. apply IH; lia.
Qed.

Lemma readLongLong_ok z rest :
  - 2 ^ 63 < z < 2 ^ 63 -> readLongLong (itoa z ++ CR :: rest) = Ok z.
Proof.
  intros Hz. unfold readLongLong, itoa. case_bool_decide as Hneg.
  - cbn [app]. rewrite load_0. rsimpl. rewrite decide_True by done. cbv beta iota zeta. cbn [drop]. rewrite drop_0.
    pose proof (utoa_digits (- z) ltac:(lia)) as Hd.
    pose proof (utoa_value (- z) ltac:(lia)) as Hv. unfold dval in Hv.
    rewrite digits_loop_ok, Hv by (done || lia || (rewrite Hv; lia)).
    rsimpl. do 2 f_equal. rewrite i64_small; lia.
  - pose proof (utoa_digits z ltac:(lia)) as Hd.
    pose proof (utoa_value z ltac:(lia)) as Hv. unfold dval in Hv.
    destruct (utoa z) as [|c ds] eqn:E.
    { pose proof (utoa_zlen z ltac:(lia)) as [Hl _]. rewrite E, zlen_nil in Hl. lia. }
    cbn [app]. rewrite load_0. rsimpl.
    assert (is_digit c) as Hc by (by inversion Hd).
    apply digit_not_special in Hc as (_ & _ & _ & Hm & Hp).
    rewrite !decide_False by done. cbv beta iota zeta.
    change (c :: ds ++ CR :: rest) with ((c :: ds) ++ CR :: rest).
    rewrite digits_loop_ok, Hv by (done || lia || (rewrite Hv; lia)).
    rsimpl. do 2 f_equal. rewrite i64_small; lia.
Qed.

Lemma itoa_no_crlf z : - 2 ^ 63 ≤ z < 2 ^ 63 -> no_crlf (itoa z).
Proof.
  intros Hz a b E. assert (CR ∈ itoa z) as Hin.
  { rewrite E. apply elem_of_app. right. by left. }
  unfold itoa in Hin. 
  assert (∀ v, 0 ≤ v -> CR ∉ utoa v) as Hno.
  { intros v Hv H. pose proof (utoa_digits v Hv) as Hd.
    apply list_elem_of_In in H. rewrite Forall_forall in Hd. apply Hd in H.
    by apply digit_not_special in H as (? & _). }
  case_bool_decide.
  - apply elem_of_cons in Hin as [Hin|Hin]; [done|]. by apply Hno in Hin; [|lia].
  - by apply Hno in Hin; [|lia].
Qed.
