(* ===== verification/ReaderSpec.v ===== *)
(** * ReaderSpec: the reader refines a recursive builder

    [build] creates the objects of a reply tree by recursion, in the order of
    the encoding.  The reader, which reads chunks of bytes as they arrive and
    keeps its place on a bounded stack, calls the creation functions in the
    same order with the same arguments, whatever the chunks. *)

From Stdlib Require Import ZArith Lia Ascii.
From stdpp Require Import base list strings gmap numbers.
From S2P Require Import Prelude Libc Printf Sds Reader Resp.

Definition type_code (rep : reply) : Z :=
  match rep with
  | RStatus _ => REDIS_REPLY_STATUS
  | RError _ => REDIS_REPLY_ERROR
  | RInteger _ => REDIS_REPLY_INTEGER
  | RString _ | RNil => REDIS_REPLY_STRING
  | RNilArray | RArray _ => REDIS_REPLY_ARRAY
  end.

(** The bytes after the type byte that make the item itself: for an array,
    its header. *)
Definition head (rep : reply) : bytes :=
  match rep with RArray l => crlf (itoa (zlen l)) | _ => body rep end.

Section spec.
Context {W : Type} `{!Libc W} {Ob : Type}.
Context (fn : option (redisReplyObjectFunctions W Ob)) (pd : Z).

(** ** The builder *)

(** A creation that must not return NULL. *)
Definition made (m : M W (vptr Ob)) : M W (vptr Ob) :=
  o ← m; _ ← massert (negb (is_null o)); mret o.

(** The object of an item that has no children. *)
Definition build_item (v : task_view Ob) (rep : reply) : M W (vptr Ob) :=
  match rep with
  | RStatus s | RError s | RString s => new_string fn v s (zlen s)
  | RInteger z => new_integer fn v z
  | RNil | RNilArray => new_nil fn v
  | RArray l => new_array fn v (zlen l)
  end.

Fixpoint build (parent : option (vptr Ob)) (idx : Z) (rep : reply) {struct rep} :
    M W (vptr Ob) :=
  o ← made (build_item (View (type_code rep) idx parent pd) rep);
  match rep with
  | RArray l =>
      _ ← (fix go (l : list reply) (i : Z) : M W unit :=
             match l with
             | [] => mret tt
             | x :: l' => _ ← build (Some o) i x; go l' (i + 1)
             end) l 0;
      mret o
  | _ => mret o
  end.

Fixpoint build_list (o : vptr Ob) (i : Z) (l : list reply) : M W unit :=
  match l with
  | [] => mret tt
  | x :: l' => _ ← build (Some o) i x; build_list o (i + 1) l'
  end.

Lemma build_unfold parent idx rep w :
  build parent idx rep w
  = (o ← made (build_item (View (type_code rep) idx parent pd) rep);
     match rep with
     | RArray l => _ ← build_list o 0 l; mret o
     | _ => mret o
     end) w.
Proof.
  destruct rep as [s|s|z|s| | |l]; try done. cbn [build].
  unfold mbind, M_bind. destruct (made _ w) as [[o w1]|]; [|done].
  set (go := fix go (l : list reply) (i : Z) : M W unit := _).
  assert (∀ l i w', go l i w' = build_list o i l w') as ->; [|done].
  clear. induction l as [|x l IH]; intros i w'; [done|].
  cbn [build_list]. unfold go; fold go. unfold mbind, M_bind.
  destruct (build (Some o) i x w') as [[? w2]|]; [|done]. apply IH.
Qed.

(** ** What is left to do *)

(** An array being read: its object, its length, the items after the
    current one. *)
Record frame := Frame { f_obj : vptr Ob; f_n : Z; f_rest : list reply }.

(** Frames are listed from the innermost. *)
Definition cur_idx (fs : list frame) : Z :=
  match fs with [] => -1 | f :: _ => f_n f - 1 - zlen (f_rest f) end.
Definition cur_parent (fs : list frame) : option (vptr Ob) :=
  match fs with [] => None | f :: _ => Some (f_obj f) end.
Definition parent_of (fs : list frame) : option nat :=
  match fs with [] => None | _ :: fs' => Some (length fs') end.

Fixpoint root_obj (fs : list frame) (o : vptr Ob) : vptr Ob :=
  match fs with [] => o | f :: fs' => root_obj fs' (f_obj f) end.

Fixpoint finish (fs : list frame) (o : vptr Ob) : M W (vptr Ob) :=
  match fs with
  | [] => mret o
  | f :: fs' =>
      _ ← build_list (f_obj f) (f_n f - zlen (f_rest f)) (f_rest f);
      finish fs' (f_obj f)
  end.

(** All the creations from the current item on. *)
Definition run (fs : list frame) (rep : reply) : M W (vptr Ob) :=
  o ← build (cur_parent fs) (cur_idx fs) rep; finish fs o.

(** The item after the current one. *)
Fixpoint next (fs : list frame) : option (list frame * reply) :=
  match fs with
  | [] => None
  | f :: fs' =>
      match f_rest f with
      | [] => next fs'
      | x :: l => Some (Frame (f_obj f) (f_n f) l :: fs', x)
      end
  end.

(** The bytes still to come. *)
Definition rest_stream (fs : list frame) : bytes :=
  concat (map (λ f, encode_list (f_rest f)) fs).
Definition stream (fs : list frame) (rep : reply) (typed : bool) : bytes :=
  (if typed then [] else [type_byte rep]) ++ body rep ++ rest_stream fs.

Lemma rest_stream_next fs :
  rest_stream fs = match next fs with None => [] | Some (gs, x) => stream gs x false end.
Proof.
  induction fs as [|f fs IH]; [done|]. unfold rest_stream in *. cbn [map concat next].
  destruct (f_rest f) as [|x l]; [done|].
  unfold stream, rest_stream. cbn [map concat f_rest]. unfold encode_list. cbn [map concat].
  unfold encode. cbn [app]. by rewrite <- !app_assoc.
Qed.

Lemma finish_next fs o Q w :
  wp (finish fs o) Q w ->
  match next fs with
  | None => Q (root_obj fs o) w
  | Some (gs, x) => wp (run gs x) Q w ∧ ∀ o', root_obj gs o' = root_obj fs o
  end.
Proof.
  revert o. induction fs as [|f fs IH]; intros o Hwp; [done|]. cbn [finish next] in *.
  destruct (f_rest f) as [|x l] eqn:E.
  - cbn [build_list] in Hwp. by apply IH.
  - split; [|done]. unfold run. cbn [cur_parent cur_idx f_obj f_n f_rest].
    cbn [build_list] in Hwp. rewrite zlen_cons in Hwp.
    replace (f_n f - 1 - zlen l) with (f_n f - (zlen l + 1)) by lia.
    unfold wp, mbind, M_bind in *.
    destruct (build (Some (f_obj f)) _ x w) as [[o1 w1]|]; [|done].
    cbn [finish f_obj f_n f_rest]. unfold mbind, M_bind.
    by replace (f_n f - zlen l) with (f_n f - (zlen l + 1) + 1) by lia.
Qed.

(** Running an item: its creation, then its children or what follows. *)
Lemma run_step fs rep Q w :
  wp (run fs rep) Q w ->
  wp (build_item (View (type_code rep) (cur_idx fs) (cur_parent fs) pd) rep)
     (λ o w', is_null o = false ∧
        match rep with
        | RArray (x :: l) => wp (run (Frame o (zlen (x :: l)) l :: fs) x) Q w'
        | _ => wp (finish fs o) Q w'
        end) w.
Proof.
  unfold run. intros Hwp. unfold wp at 1, mbind, M_bind in Hwp.
  rewrite build_unfold in Hwp. unfold made, wp, mbind, M_bind, massert in *.
  destruct (build_item _ rep w) as [[o w1]|]; [|done].
  destruct (is_null o) eqn:Ho; [done|]. split; [done|]. cbn [negb mret M_ret] in Hwp.
  destruct rep as [s|s|z|s| | |l]; try done.
  destruct l as [|x l]; [done|]. cbn [build_list cur_parent cur_idx f_obj f_n f_rest].
  cbn [build_list] in Hwp. unfold mbind, M_bind in *. rewrite zlen_cons.
  replace (zlen l + 1 - 1 - zlen l) with 0 by lia.
  destruct (build (Some o) 0 x w1) as [[o2 w2]|]; [|done].
  cbn [finish f_obj f_n f_rest]. unfold mbind, M_bind.
  replace (zlen l + 1 - zlen l) with (0 + 1) by lia.
  destruct (build_list o (0 + 1) l w2) as [[[] w3]|]; done.
Qed.

(** ** The reader's state *)

(** No error, [rd] read and [un] not yet. *)
Record live (r : redisReader Ob) (rd un : bytes) : Prop := {
  live_err : r_err r = 0;
  live_buf : ∃ s, r_buf r = Some s ∧ sds_rep s (rd ++ un);
  live_pos : r_pos r = zlen rd;
  live_len : r_len r = zlen (rd ++ un);
  live_stack : length (r_rstack r) = 9%nat;
  live_privdata : r_privdata r = pd;
}.

Definition frame_task (f : frame) (fs : list frame) : redisReadTask Ob :=
  Task REDIS_REPLY_ARRAY (f_n f) (cur_idx fs) (f_obj f) (parent_of fs) pd.

Fixpoint frames_ok (rs : list (redisReadTask Ob)) (fs : list frame) : Prop :=
  match fs with
  | [] => True
  | f :: fs' =>
      rs !! length fs' = Some (frame_task f fs') ∧
      zlen (f_rest f) < f_n f < 2 ^ 31 ∧ is_null (f_obj f) = false ∧ Forall wf (f_rest f) ∧
      Forall (λ x, (depth x + S (length fs') ≤ 8)%nat) (f_rest f) ∧
      frames_ok rs fs'
  end.

(** The current task, of a type read or not. *)
Definition current (rs : list (redisReadTask Ob)) (fs : list frame) (ty : Z) : Prop :=
  ∃ el ob, rs !! length fs = Some (Task ty el (cur_idx fs) ob (parent_of fs) pd).

Record at_item (r : redisReader Ob) (fs : list frame) (rep : reply) (ty : Z)
    (rd un : bytes) : Prop := {
  at_live : live r rd un;
  at_ridx : r_ridx r = zlen fs;
  at_frames : frames_ok (r_rstack r) fs;
  at_cur : current (r_rstack r) fs ty;
  at_reply : r_reply r = root_obj fs Null;
  at_wf : wf rep;
  at_depth : (depth rep + length fs ≤ 8)%nat;
}.

(** All items done: the object is in [r_reply]. *)
Record finished (r : redisReader Ob) (o : vptr Ob) (rd un : bytes) : Prop := {
  fin_live : live r rd un;
  fin_ridx : r_ridx r = -1;
  fin_reply : r_reply r = o;
}.

Lemma live_fit r rd un : live r rd un -> zlen (rd ++ un) < 2 ^ 31.
Proof. intros [_ (s & _ & tl & _ & Hfit) _ _ _ _]. zl. Qed.

Lemma live_set_stack r rd un rs i :
  live r rd un -> length rs = 9%nat -> live (set_stack r rs i) rd un.
Proof. by intros [] ?. Qed.

Lemma live_set_reply r rd un o : live r rd un -> live (set_reply r o) rd un.
Proof. by intros []. Qed.

Lemma live_set_pos r rd h un n :
  live r rd (h ++ un) -> n = zlen h ->
  live (set_pos r (u64 (r_pos r + n))) (rd ++ h) un.
Proof.
  intros Hl ->. pose proof (live_fit _ _ _ Hl) as Hfit.
  destruct Hl as [He Hb Hp Hn Hs Hd]. rewrite app_assoc in *. split; try done.
  cbn [set_pos r_pos]. rewrite Hp, u64_small; zl.
Qed.

(** The unread bytes, in memory. *)
Lemma buf_at_ok r rd un :
  live r rd un -> ∃ tl, buf_at r (r_pos r) = Ok (un ++ NUL :: tl).
Proof.
  intros [_ (s & Hs & tl & -> & Hfit) Hp _ _ _]. exists tl. unfold buf_at.
  rewrite Hs, Hp. cbn [deref mbind res_bind mk sh_buf]. rewrite <- app_assoc.
  unfold ptr_add. rewrite bool_decide_true by zl. by rewrite drop_zlen.
Qed.

Lemma live_unread r rd un : live r rd un -> u64 (r_len r - r_pos r) = zlen un.
Proof.
  intros Hl. pose proof (live_fit _ _ _ Hl) as Hfit. destruct Hl as [_ _ Hp Hn _ _].
  rewrite Hp, Hn. rewrite zlen_app in *. rewrite u64_small; zl.
Qed.

(** A whole line is available. *)
Lemma readLine_ok r rd l un :
  live r rd (crlf l ++ un) -> no_crlf l ->
  ∃ tl, readLine r = Ok (set_pos r (u64 (r_pos r + zlen (crlf l))),
                         Some (crlf l ++ un ++ NUL :: tl, zlen l)).
Proof.
  intros Hl Hno. unfold readLine. pose proof (live_fit _ _ _ Hl) as Hfit.
  destruct (buf_at_ok _ _ _ Hl) as (tl & ->). exists tl. rsimpl.
  rewrite (live_unread _ _ _ Hl), seekNewline_ok by zl.
  unfold crlf in *. rewrite <- !app_assoc in *. cbn [app] in *.
  rewrite find_crlf_line by done. cbn [fmap option_fmap option_map].
  rsimpl. fold (zlen l). rewrite (i32_small (zlen l)), (i32_small (zlen l + 2)) by zl.
  do 4 f_equal; zl.
Qed.

(** The line has not arrived. *)
Lemma readLine_none r rd un : live r rd un -> no_crlf un -> readLine r = Ok (r, None).
Proof.
  intros Hl Hno. unfold readLine. pose proof (live_fit _ _ _ Hl) as Hfit.
  destruct (buf_at_ok _ _ _ Hl) as (tl & ->). rsimpl.
  rewrite (live_unread _ _ _ Hl), seekNewline_ok, find_crlf_none by (done || zl). done.
Qed.

(** ** The stack *)
Lemma task_at_ok (r : redisReader Ob) (fs : list frame) t :
  r_rstack r !! length fs = Some t -> task_at r (zlen fs) = Ok t.
Proof.
  intros Ht. unfold task_at. rewrite bool_decide_true by zl. by rewrite zlen_to_nat, Ht.
Qed.

Lemma set_task_ok (r : redisReader Ob) (fs : list frame) t :
  (length fs < length (r_rstack r))%nat ->
  set_task r (zlen fs) t = Ok (set_stack r (<[length fs := t]> (r_rstack r)) (r_ridx r)).
Proof.
  intros Hn. unfold set_task. rewrite bool_decide_true by (unfold zlen; lia).
  by rewrite zlen_to_nat.
Qed.

Lemma frames_ok_insert rs fs i t :
  (length fs ≤ i)%nat -> frames_ok rs fs -> frames_ok (<[i := t]> rs) fs.
Proof.
  induction fs as [|f fs IH]; [done|]. cbn [frames_ok length]. intros Hi (Hf & Hrest).
  rewrite list_lookup_insert_ne by lia. split; [done|]. destruct Hrest as (?&?&?&?&?).
  do 4 (split; [done|]). apply IH; [lia|done].
Qed.

Lemma view_ok r fs ty el ob :
  frames_ok (r_rstack r) fs ->
  view r (Task ty el (cur_idx fs) ob (parent_of fs) pd)
  = Ok (View ty (cur_idx fs) (cur_parent fs) pd).
Proof.
  intros Hf. unfold view. cbn [t_parent t_type t_idx t_privdata].
  destruct fs as [|f fs]; [done|]. cbn [parent_of]. destruct Hf as (Hf & _).
  fold (zlen fs). by rewrite (task_at_ok _ _ _ Hf).
Qed.

(** [moveToNextTask] pops the arrays that are complete. *)
Lemma next_task_ok fuel r fs ty :
  frames_ok (r_rstack r) fs -> current (r_rstack r) fs ty -> r_ridx r = zlen fs ->
  (length fs < length (r_rstack r))%nat -> (length fs < fuel)%nat ->
  ∃ rs, length rs = length (r_rstack r) ∧
    match next fs with
    | None => next_task fuel r = Ok (set_stack r rs (-1))
    | Some (gs, x) =>
        next_task fuel r = Ok (set_stack r rs (zlen gs)) ∧ frames_ok rs gs ∧
        current rs gs (-1) ∧ wf x ∧ (depth x + length gs ≤ 8)%nat
    end.
Proof.
  revert r fs ty. induction fuel as [|fuel IH]; intros r fs ty Hf Hc Hi Hlen Hfuel; [lia|].
  cbn [next_task]. rewrite Hi. rewrite bool_decide_true by zl.
  destruct fs as [|f fs].
  { rewrite bool_decide_true by done. by exists (r_rstack r). }
  rewrite bool_decide_false by zl. destruct Hc as (el & ob & Hc).
  destruct Hf as (Hp & Hn & Hnn & Hwf & Hd & Hf).
  rewrite (task_at_ok _ (f :: fs) _ Hc). rsimpl.
  replace (zlen (f :: fs) - 1) with (zlen fs) by zl.
  rewrite (task_at_ok _ fs _ Hp). rsimpl.
  cbn [frame_task t_type t_idx t_elements t_obj t_parent t_privdata cur_idx].
  rewrite (bool_decide_true (REDIS_REPLY_ARRAY = _)) by done. cbn [rassert]. rsimpl.
  rewrite (i32_small (f_n f - 1)) by zl.
  cbn [next]. destruct (f_rest f) as [|x l] eqn:E.
  - rewrite bool_decide_true by zl.
    destruct (IH (set_stack r (r_rstack r) (zlen fs)) fs REDIS_REPLY_ARRAY)
      as (rs & Hrs & Hnext); [done | by eexists _, _ | done | simpl in *; lia.. |].
    exists rs. split; [done|]. by destruct (next fs) as [[gs x]|].
  - rewrite bool_decide_false by zl. rewrite bool_decide_true by zl. cbn [rassert]. rsimpl.
    rewrite (zlen_cons x) in *. rewrite (i32_small (_ + 1)) by zl.
    rewrite set_task_ok by done.
    match goal with |- context [set_stack r ?rs _] => exists rs end.
    inversion Hwf; inversion Hd; subst.
    split; [by rewrite length_insert|]. split; [by rewrite Hi|].
    split; [|split; [|split; [done | cbn [length]; lia]]].
    + cbn [frames_ok f_rest f_n f_obj].
      rewrite list_lookup_insert_ne by (cbn [length]; lia). rewrite Hp.
      split_and!; [done | lia | lia | done | done | done |].
      apply frames_ok_insert; [cbn [length]; lia | done].
    + eexists _, _. cbn [length]. rewrite list_lookup_insert_eq by done.
      cbn [cur_idx f_n f_rest parent_of]. do 2 f_equal. lia.
Qed.

(** ** One item *)

(** Where the reader stands after an item, [S] being the bytes to come:
    at the next item, or done. *)
Definition progress (Q : vptr Ob -> W -> Prop) (r : redisReader Ob)
    (rd un S : bytes) (w : W) : Prop :=
  (∃ gs x, at_item r gs x (-1) rd un ∧ wp (run gs x) Q w ∧ S = stream gs x false)
  ∨ (∃ o, finished r o rd un ∧ Q o w ∧ is_null o = false ∧ S = []).

Lemma root_non_null rs fs o :
  frames_ok rs fs -> is_null o = false -> is_null (root_obj fs o) = false.
Proof.
  revert o. induction fs as [|f fs IH]; intros o Hf Ho; [done|].
  destruct Hf as (_ & _ & Hn & _ & _ & Hf). by apply IH.
Qed.

Lemma next_root fs gs x o : next fs = Some (gs, x) -> root_obj gs o = root_obj fs Null.
Proof.
  intros Hn. destruct fs as [|f fs]; [done|]. revert f Hn.
  induction fs as [|f' fs IH]; intros f; cbn [next]; destruct (f_rest f) as [|y l];
    try done; try (by intros [= <- <-]).
  intros Hn. by apply IH in Hn.
Qed.

(** The end of an item that has no children. *)
Lemma finish_item_ok r fs ty o rd un Q w :
  live r rd un -> r_ridx r = zlen fs -> frames_ok (r_rstack r) fs ->
  current (r_rstack r) fs ty -> (length fs ≤ 8)%nat ->
  r_reply r = root_obj fs Null -> is_null o = false -> wp (finish fs o) Q w ->
  wp (finish_item r o) (λ '(r', st) w',
    st = REDIS_OK ∧ progress Q r' rd un (rest_stream fs) w') w.
Proof.
  intros Hl Hi Hf Hc H8 Hr Ho Hwp. unfold finish_item.
  set (r1 := if bool_decide (r_ridx r = 0) then set_reply r o else r).
  assert (live r1 rd un ∧ r_ridx r1 = zlen fs ∧ r_rstack r1 = r_rstack r ∧
          r_reply r1 = root_obj fs o) as (Hl1 & Hi1 & Hs1 & Hr1).
  { subst r1. rewrite Hi. destruct fs as [|f fs].
    - rewrite bool_decide_true by done. split_and!; try done. by apply live_set_reply.
    - rewrite bool_decide_false by zl. split_and!; done. }
  clearbody r1. wp_step.
  destruct (next_task_ok (2 + Z.to_nat (r_ridx r1)) r1 fs ty) as (rs & Hrs & Hnext).
  - by rewrite Hs1.
  - by rewrite Hs1.
  - done.
  - pose proof (live_stack _ _ _ Hl1). lia.
  - rewrite Hi1, zlen_to_nat. lia.
  - apply finish_next in Hwp. pose proof (rest_stream_next fs) as Hs.
    assert (length rs = 9%nat) as Hrs9 by (rewrite Hrs; by apply live_stack in Hl1).
    destruct (next fs) as [[gs x]|] eqn:Hn.
    + destruct Hnext as (E & Hf' & Hc' & Hwf' & Hd').
      unfold moveToNextTask. eapply wp_lift_ok; [exact E|]. wp_steps. split; [done|].
      left. exists gs, x. destruct Hwp as [Hwp _]. split_and!; [|done|done].
      split; try done; [by apply live_set_stack|].
      cbn [set_stack r_reply]. rewrite Hr1. rewrite (next_root _ _ _ Null Hn).
      destruct fs; [done|done].
    + unfold moveToNextTask. eapply wp_lift_ok; [exact Hnext|]. wp_steps. split; [done|].
      right. exists (root_obj fs o). split_and!; [|done| |done].
      * split; [by apply live_set_stack | done | done].
      * by eapply root_non_null.
Qed.
End spec.

Section items.
Context {W : Type} `{!Libc W} {Ob : Type}.
Context (fn : option (redisReplyObjectFunctions W Ob)) (pd : Z).

(** [createString] reads the bytes of its string and no others. *)
Hypothesis string_len : ∀ v p n w,
  0 ≤ n ≤ zlen p -> new_string fn v p n w = new_string fn v (take (Z.to_nat n) p) n w.

Lemma new_string_ok v s rest w : new_string fn v (s ++ rest) (zlen s) w = new_string fn v s (zlen s) w.
Proof. rewrite string_len by zl. by rewrite take_zlen. Qed.

(** The bytes after the item itself. *)
Definition after (fs : list (@frame Ob)) (rep : reply) : bytes :=
  match rep with
  | RArray l => encode_list l ++ rest_stream fs
  | _ => rest_stream fs
  end.

Lemma stream_head fs rep :
  stream fs rep true = head rep ++ after fs rep.
Proof.
  unfold stream. cbn [app]. destruct rep; try done.
  rewrite body_array. cbn [head after]. by rewrite <- app_assoc.
Qed.

(** The end of a childless item whose bytes are [h]. *)
Lemma finish_read_ok r fs rep ty h rd un o n Q w :
  at_item pd r fs rep ty rd (h ++ un) -> n = zlen h -> is_null o = false ->
  wp (finish fn pd fs o) Q w ->
  wp (finish_item (set_pos r (u64 (r_pos r + n))) o) (λ '(r', st) w',
    st = REDIS_OK ∧ progress fn pd Q r' (rd ++ h) un (rest_stream fs) w') w.
Proof.
  intros [Hl Hi Hf Hc Hr Hwf Hd] Hn Ho Hwp. eapply finish_item_ok; try done.
  - by apply live_set_pos.
  - lia.
Qed.

Lemma line_item_ok r fs rep s rd un Q w :
  at_item pd r fs rep (type_code rep) rd (crlf s ++ un) -> no_crlf s ->
  (rep = RStatus s ∨ rep = RError s ∨ ∃ z, rep = RInteger z ∧ s = itoa z) ->
  wp (run fn pd fs rep) Q w ->
  wp (processLineItem fn r) (λ '(r', st) w',
    st = REDIS_OK ∧ progress fn pd Q r' (rd ++ crlf s) un (rest_stream fs) w') w.
Proof.
  intros Hat Hno Hrep Hwp. pose proof Hat as [Hl Hi Hf (el & ob & Hc) Hr Hwf Hd].
  unfold processLineItem. rewrite Hi, (task_at_ok r fs _ Hc). wp_step.
  eapply wp_lift_ok; [done|]. wp_step.
  destruct (readLine_ok pd r rd s un Hl Hno) as (tl & E).
  eapply wp_lift_ok; [exact E|]. cbv beta iota. wp_step.
  eapply wp_lift_ok; [by apply view_ok|].
  apply run_step in Hwp. wp_step.
  apply wp_mono with (λ o w', is_null o = false ∧ wp (finish fn pd fs o) Q w').
  - cbn [t_type]. pose proof (live_fit _ _ _ _ Hl) as Hfit.
    destruct Hrep as [-> |[-> |(z & -> & ->)]]; cbn [type_code build_item] in *.
    + rewrite bool_decide_false by done. rewrite u64_small by (unfold crlf in *; zl).
      unfold crlf. rewrite <- app_assoc. unfold wp. by rewrite new_string_ok.
    + rewrite bool_decide_false by done. rewrite u64_small by (unfold crlf in *; zl).
      unfold crlf. rewrite <- app_assoc. unfold wp. by rewrite new_string_ok.
    + rewrite bool_decide_true by done. wp_step. unfold crlf. rewrite <- app_assoc.
      eapply wp_lift_ok; [by apply readLongLong_ok|]. done.
  - intros o w' [Ho Hfin]. rewrite Ho. by eapply finish_read_ok.
Qed.

(** A header line that holds a number. *)
Lemma header_ok (r : redisReader Ob) rd z un :
  live pd r rd (crlf (itoa z) ++ un) -> - 2 ^ 63 < z < 2 ^ 63 ->
  ∃ tl, buf_at r (r_pos r) = Ok (crlf (itoa z) ++ un ++ NUL :: tl) ∧
    seekNewline (crlf (itoa z) ++ un ++ NUL :: tl) (u64 (r_len r - r_pos r))
    = Ok (Some (zlen (itoa z))) ∧
    ∀ rest, readLongLong (crlf (itoa z) ++ rest) = Ok z.
Proof.
  intros Hl Hz. destruct (buf_at_ok pd r rd _ Hl) as (tl & E).
  pose proof (live_fit _ _ _ _ Hl) as Hfit. exists tl.
  rewrite <- app_assoc in E. split_and!; [done| |].
  - rewrite (live_unread _ _ _ _ Hl), app_assoc, seekNewline_ok by zl.
    unfold crlf. rewrite <- app_assoc. cbn [app]. rewrite find_crlf_line; [done|].
    apply itoa_no_crlf. lia.
  - intros rest. unfold crlf. rewrite <- app_assoc. by apply readLongLong_ok.
Qed.

Lemma bulk_item_ok r fs rep rd un Q w :
  at_item pd r fs rep (type_code rep) rd (body rep ++ un) ->
  (rep = RNil ∨ ∃ s, rep = RString s) ->
  wp (run fn pd fs rep) Q w ->
  wp (processBulkItem fn r) (λ '(r', st) w',
    st = REDIS_OK ∧ progress fn pd Q r' (rd ++ body rep) un (rest_stream fs) w') w.
Proof.
  intros Hat Hrep Hwp. pose proof Hat as [Hl Hi Hf (el & ob & Hc) Hr Hwf Hd].
  pose proof (live_fit _ _ _ _ Hl) as Hfit.
  unfold processBulkItem. rewrite Hi, (task_at_ok r fs _ Hc). wp_steps.
  apply run_step in Hwp. destruct Hrep as [-> |(s & ->)].
  - cbn [body type_code build_item] in *. change (bs "-1") with (itoa (-1)) in *.
    destruct (header_ok r rd (-1) un Hl) as (tl & -> & E & En); [lia|]. wp_steps.
    rewrite E. wp_steps. rewrite En. wp_steps. rewrite (view_ok pd) by done. wp_steps.
    rewrite bool_decide_true by done. wp_step.
    eapply wp_mono; [exact Hwp|]. intros o w' [Ho Hfin]. wp_steps. rewrite Ho.
    by eapply finish_read_ok.
  - cbn [body type_code build_item] in *. unfold crlf in Hfit.
    rewrite <- app_assoc in Hl, Hat.
    destruct (header_ok r rd (zlen s) _ Hl) as (tl & -> & E & En); [zl|]. wp_steps.
    rewrite E. wp_steps. rewrite En. wp_steps. rewrite (view_ok pd) by done. wp_steps.
    rewrite bool_decide_false by zl.
    rewrite (i64_small (zlen s + 2)), (u64_small (zlen (itoa (zlen s)) + 2)) by zl.
    rewrite (u64_small (zlen (itoa (zlen s)) + 2 + (zlen s + 2))) by zl.
    assert (r_pos r + (zlen (itoa (zlen s)) + 2 + (zlen s + 2)) ≤ r_len r) as Hle.
    { destruct Hl as [_ _ -> -> _ _]. unfold crlf. zl. }
    assert (r_pos r = zlen rd) as Hpos by apply Hl.
    rewrite bool_decide_true by (rewrite u64_small by zl; lia).
    unfold ptr_add. rewrite bool_decide_true by (unfold crlf; zl).
    replace (zlen (itoa (zlen s)) + 2) with (zlen (crlf (itoa (zlen s)))) by (unfold crlf; zl).
    rewrite drop_zlen. wp_steps.
    rewrite u64_small by zl.
    apply wp_mono with (λ o w', is_null o = false ∧ wp (finish fn pd fs o) Q w').
    { unfold wp, crlf. rewrite <- !app_assoc. by rewrite new_string_ok. }
    intros o w' [Ho Hfin]. wp_steps. rewrite Ho.
    eapply finish_read_ok; [by rewrite <- app_assoc | | done | done].
    unfold crlf. zl.
Qed.

(** Marking the root's reply after the move is the same as before it. *)
Lemma finish_item_after (r : redisReader Ob) o :
  (r' ← lift (moveToNextTask r);
   mret (if bool_decide (r_ridx r = 0) then set_reply r' o else r', REDIS_OK))
  = finish_item (W := W) r o.
Proof.
  unfold finish_item. cbv zeta.
  destruct (bool_decide (r_ridx r = 0)) eqn:H0; [|done].
  apply bool_decide_eq_true in H0. destruct r. cbn in H0. by subst.
Qed.

(** An array's header is read: what is left is to make its object. *)
Lemma array_header_ok r fs rep z rd un w :
  at_item pd r fs rep REDIS_REPLY_ARRAY rd (crlf (itoa z) ++ un) ->
  zlen fs ≤ 7 -> - 2 ^ 31 < z < 2 ^ 31 ->
  ∃ el ob, processMultiBulkItem fn r w =
    (let r1 := set_pos r (u64 (r_pos r + zlen (crlf (itoa z)))) in
     let v := View REDIS_REPLY_ARRAY (cur_idx fs) (cur_parent fs) pd in
     obj ← (if bool_decide (z = -1) then new_nil fn v else new_array fn v z);
     if is_null obj then oom_error fn r1 else
     r2 ← (if bool_decide (z > 0) then
             r2 ← lift (set_task r1 (zlen fs)
                    (Task REDIS_REPLY_ARRAY z (cur_idx fs) obj (parent_of fs) pd));
             lift (set_task (set_stack r2 (r_rstack r2) (r_ridx r2 + 1)) (r_ridx r2 + 1)
                     (Task (-1) (-1) 0 Null (Some (Z.to_nat (r_ridx r2))) (r_privdata r2)))
           else lift (moveToNextTask r1));
     mret (if bool_decide (r_ridx r1 = 0) then set_reply r2 obj else r2, REDIS_OK)) w ∧
    r_rstack r !! length fs = Some (Task REDIS_REPLY_ARRAY el (cur_idx fs) ob (parent_of fs) pd).
Proof.
  intros [Hl Hi Hf (el & ob & Hc) Hr Hwf Hd] Hfs Hz. exists el, ob. split; [|done].
  unfold processMultiBulkItem. rewrite Hi, (task_at_ok r fs _ Hc).
  destruct (readLine_ok pd r rd (itoa z) un Hl) as (tl & E); [apply itoa_no_crlf; lia|].
  rewrite bool_decide_false by lia.
  unfold mbind at 1 2 3, M_bind, lift at 1 2 3. rewrite E. cbv beta iota.
  unfold crlf at 1. rewrite <- app_assoc. cbn [app]. rewrite readLongLong_ok by lia.
  unfold mbind at 1. rewrite (view_ok pd) by done. cbn [set_pos r_ridx t_type t_idx t_parent t_privdata].
  rewrite Hi. rewrite (i32_small z) by lia. done.
Qed.

(** Entering an array: its task counts the items, the next one is its first. *)
Lemma enter_ok (r : redisReader Ob) fs x l o el ob rd un :
  live pd r rd un -> r_ridx r = zlen fs -> frames_ok pd (r_rstack r) fs ->
  r_rstack r !! length fs = Some (Task REDIS_REPLY_ARRAY el (cur_idx fs) ob (parent_of fs) pd) ->
  r_reply r = root_obj fs Null -> wf (RArray (x :: l)) ->
  (depth (RArray (x :: l)) + length fs ≤ 8)%nat -> is_null o = false ->
  ∃ r2 r3,
    set_task r (zlen fs) (Task REDIS_REPLY_ARRAY (zlen (x :: l)) (cur_idx fs) o (parent_of fs) pd) = Ok r2 ∧
    set_task (set_stack r2 (r_rstack r2) (r_ridx r2 + 1)) (r_ridx r2 + 1)
      (Task (-1) (-1) 0 Null (Some (Z.to_nat (r_ridx r2))) (r_privdata r2)) = Ok r3 ∧
    r_errstr r3 = r_errstr r ∧
    at_item pd (if bool_decide (r_ridx r = 0) then set_reply r3 o else r3)
      (Frame o (zlen (x :: l)) l :: fs) x (-1) rd un.
Proof.
  intros Hl Hi Hf Hc Hr Hwf Hd Ho.
  apply wf_array in Hwf as [Hlen Hwf]. inversion Hwf as [|? ? Hwx Hwl]; subst.
  assert (∃ d, depth (RArray (x :: l)) = S d) as [d Hd'] by (cbn; eauto).
  assert (Forall (λ y, (depth y ≤ d)%nat) (x :: l)) as Hdl by (apply depth_array; lia).
  inversion Hdl as [|? ? Hdx Hdls]; subst.
  assert (length (r_rstack r) = 9%nat) as H9 by apply (live_stack _ _ _ _ Hl).
  rewrite set_task_ok by lia. eexists _, _. split; [done|].
  cbn [r_ridx set_stack r_rstack r_privdata]. rewrite Hi.
  replace (zlen fs + 1) with (zlen (Frame o (zlen (x :: l)) l :: fs)) by zl.
  rewrite set_task_ok by (cbn [set_stack r_rstack length]; rewrite length_insert; lia).
  split; [done|]. split; [done|]. cbn [set_stack r_rstack r_ridx length].
  assert (∀ r' : redisReader Ob, r_rstack (if bool_decide (zlen fs = 0)
    then set_reply r' o else r') = r_rstack r') as Hstack by (by destruct (bool_decide _)).
  split; rewrite ?Hstack; try done.
  - destruct (bool_decide _); repeat (apply live_set_reply || apply live_set_stack);
      try done; cbn [set_stack r_rstack]; by rewrite !length_insert.
  - by destruct (bool_decide _).
  - cbn [set_stack r_rstack length frames_ok f_n f_rest f_obj].
    rewrite list_lookup_insert_ne by lia. rewrite list_lookup_insert_eq by lia.
    split_and!; [done | zl | lia | done | done | |].
    { eapply Forall_impl; [|exact Hdls]. cbn beta. lia. }
    apply frames_ok_insert; [lia|]. by apply frames_ok_insert.
  - eexists _, _. cbn [set_stack r_rstack length cur_idx f_n f_rest parent_of].
    rewrite list_lookup_insert_eq by (rewrite length_insert; lia).
    rewrite zlen_cons, zlen_to_nat. replace (zlen l + 1 - 1 - zlen l) with 0 by lia.
    repeat f_equal. apply (live_privdata _ _ _ _ Hl).
  - destruct fs as [|f fs]; [by rewrite bool_decide_true|]. by rewrite bool_decide_false by zl.
  - cbn [length]. lia.
Qed.

(** An array with items, up to its first item. *)
Lemma array_open_ok r fs x l rd un Q w :
  at_item pd r fs (RArray (x :: l)) REDIS_REPLY_ARRAY rd (crlf (itoa (zlen (x :: l))) ++ un) ->
  wp (run fn pd fs (RArray (x :: l))) Q w ->
  wp (processMultiBulkItem fn r) (λ '(r', st) w', st = REDIS_OK ∧ r_errstr r' = r_errstr r ∧
    ∃ o, at_item pd r' (Frame o (zlen (x :: l)) l :: fs) x (-1)
           (rd ++ crlf (itoa (zlen (x :: l)))) un ∧
      wp (run fn pd (Frame o (zlen (x :: l)) l :: fs) x) Q w') w.
Proof.
  intros Hat Hwp. pose proof Hat as [Hl Hi Hf _ Hr Hwf Hd].
  pose proof Hwf as [Hlen _]%wf_array.
  destruct (array_header_ok r fs _ (zlen (x :: l)) rd un w Hat) as (el & ob & E & Hc);
    [cbn [depth] in Hd; unfold zlen; lia | pose proof (zlen_nonneg (x :: l)); lia |].
  eapply wp_eq; [exact E|]. apply run_step in Hwp. cbv zeta. pose proof (zlen_nonneg l). rewrite (bool_decide_false (zlen (x :: l) = -1)) by (clear E; zl). wp_step.
  eapply wp_mono; [exact Hwp|]. intros o w' [Ho Hrun]. rewrite Ho.
  rewrite (bool_decide_true (zlen (x :: l) > 0)) by zl.
  edestruct (enter_ok (set_pos r (u64 (r_pos r + zlen (crlf (itoa (zlen (x :: l)))))))
    fs x l o el ob (rd ++ crlf (itoa (zlen (x :: l)))) un) as (r2 & r3 & E2 & E3 & Herr & Hat3); try done.
  { by apply live_set_pos. }
  wp_step. wp_step. eapply wp_lift_ok; [exact E2|]. cbv beta.
  eapply wp_lift_ok; [exact E3|]. wp_steps. split; [done|].
  split; [transitivity (r_errstr r3); [by destruct (bool_decide (r_ridx _ = 0)) | exact Herr]|]. by exists o.
Qed.

Lemma array_item_ok r fs rep rd un Q w :
  at_item pd r fs rep (type_code rep) rd (head rep ++ un) ->
  (rep = RNilArray ∨ ∃ l, rep = RArray l) ->
  wp (run fn pd fs rep) Q w ->
  wp (processMultiBulkItem fn r) (λ '(r', st) w',
    st = REDIS_OK ∧ progress fn pd Q r' (rd ++ head rep) un (after fs rep) w') w.
Proof.
  intros Hat Hrep Hwp. pose proof Hat as [Hl Hi Hf _ Hr Hwf Hd].
  assert (zlen fs ≤ 7) as Hfs.
  { destruct Hrep as [-> |(l & ->)]; cbn [depth] in Hd; unfold zlen; lia. }
  assert ((rep = RNilArray ∨ rep = RArray []) ∨ ∃ x l, rep = RArray (x :: l)) as [Hnone|(x & l & ->)].
  { destruct Hrep as [-> |([|x l] & ->)]; eauto. }
  2:{ eapply wp_mono; [by apply array_open_ok|].
      intros [r' st] w' (-> & _ & o & Hat' & Hrun). split; [done|]. left. eexists _, _.
      split_and!; [exact Hat' | done |]. cbn [after]. unfold stream, rest_stream, encode_list.
      cbn [map concat f_rest app]. unfold encode_list. by rewrite <- !app_assoc. }
  assert (∃ z, head rep = crlf (itoa z) ∧ type_code rep = REDIS_REPLY_ARRAY ∧ -1 ≤ z ≤ 0 ∧
    (rep = RNilArray ∧ z = -1 ∨ rep = RArray [] ∧ z = 0)) as (z & Hh & Hty & Hz & Hcase).
  { destruct Hnone as [-> | ->]; [exists (-1) | exists 0]; split_and!; auto; lia. }
  rewrite Hh in Hl, Hat |- *. rewrite Hty in Hat.
  destruct (array_header_ok r fs rep z rd un w Hat Hfs) as (el & ob & E & Hc); [lia|].
  eapply wp_eq; [exact E|]. apply run_step in Hwp. cbv zeta.
  rewrite (bool_decide_false (z > 0)) by lia. rewrite Hty in Hwp. wp_step.
  apply wp_mono with (λ o w', is_null o = false ∧ wp (finish fn pd fs o) Q w').
  { destruct Hcase as [[-> ->]|[-> ->]]; done. }
  intros o w' [Ho Hfin]. rewrite Ho. rewrite finish_item_after.
  assert (after fs rep = rest_stream fs) as -> by (by destruct Hnone as [-> | ->]).
  by eapply finish_read_ok.
Qed.

Lemma typed_ok r fs rep rd un Q w :
  at_item pd r fs rep (type_code rep) rd (head rep ++ un) ->
  wp (run fn pd fs rep) Q w ->
  wp (process_typed fn r (type_code rep)) (λ '(r', st) w',
    st = REDIS_OK ∧ progress fn pd Q r' (rd ++ head rep) un (after fs rep) w') w.
Proof.
  intros Hat Hwp. pose proof (at_wf _ _ _ _ _ _ _ Hat) as Hwf.
  destruct rep as [s|s|z|s| | |l]; cbn [type_code head after] in *; unfold process_typed.
  - apply (line_item_ok r fs (RStatus s) s); auto.
  - apply (line_item_ok r fs (RError s) s); auto.
  - apply (line_item_ok r fs (RInteger z) (itoa z)); eauto.
    apply itoa_no_crlf. cbn in Hwf. lia.
  - apply (bulk_item_ok r fs (RString s)); eauto.
  - apply (bulk_item_ok r fs RNil); eauto.
  - apply (array_item_ok r fs RNilArray); eauto.
  - apply (array_item_ok r fs (RArray l)); eauto.
Qed.

(** ** An item that has not arrived *)
Lemma line_item_none r fs rep ty rd un w :
  at_item pd r fs rep ty rd un -> no_crlf un ->
  processLineItem fn r w = Ok (r, REDIS_ERR, w).
Proof.
  intros [Hl Hi _ (el & ob & Hc) _ _ _] Hno. unfold processLineItem.
  rewrite Hi, (task_at_ok r fs _ Hc). unfold mbind, M_bind, lift.
  by rewrite (readLine_none pd r rd un Hl Hno).
Qed.

Lemma array_item_none r fs rep ty rd un w :
  at_item pd r fs rep ty rd un -> no_crlf un -> zlen fs ≤ 7 ->
  processMultiBulkItem fn r w = Ok (r, REDIS_ERR, w).
Proof.
  intros [Hl Hi _ (el & ob & Hc) _ _ _] Hno H7. unfold processMultiBulkItem.
  rewrite Hi, (task_at_ok r fs _ Hc). unfold mbind, M_bind, lift.
  rewrite bool_decide_false by lia.
  by rewrite (readLine_none pd r rd un Hl Hno).
Qed.

Lemma bulk_item_none r fs rep ty rd un t w :
  at_item pd r fs rep ty rd un -> un ++ t = body rep -> t ≠ [] ->
  (rep = RNil ∨ ∃ s, rep = RString s ∧ zlen s < 2 ^ 31) ->
  processBulkItem fn r w = Ok (r, REDIS_ERR, w).
Proof.
  intros Hat E Ht Hrep. pose proof Hat as [Hl Hi Hf (el & ob & Hc) _ _ _].
  pose proof (live_fit _ _ _ _ Hl) as Hfit.
  unfold processBulkItem. rewrite Hi, (task_at_ok r fs _ Hc). unfold mbind, M_bind, lift.
  assert (no_crlf un -> seekNewline
    (match buf_at r (r_pos r) with Ok p => p | Stuck => [] end) (u64 (r_len r - r_pos r))
    = Ok None) as Hnone.
  { intros Hno. destruct (buf_at_ok pd r rd un Hl) as (tl & ->).
    by rewrite (live_unread _ _ _ _ Hl), seekNewline_ok, find_crlf_none by (done || zl). }
  destruct (buf_at_ok pd r rd un Hl) as (tl & Eb). rewrite Eb in Hnone |- *.
  destruct Hrep as [-> |(s & -> & Hs)]; cbn [body] in E.
  { rewrite Hnone; [done|]. symmetry in E. by apply (no_crlf_prefix (bs "-1") un t
      (itoa_no_crlf (-1) ltac:(lia)) E). }
  assert (no_crlf (itoa (zlen s))) as Hitoa by (apply itoa_no_crlf; zl).
  destruct (app_cases _ _ _ _ E) as [(e & -> & E2)|(e & He & E2 & _)]; cycle 1.
  { rewrite Hnone; [done|]. by apply (no_crlf_prefix _ _ _ Hitoa E2). }
  destruct (header_ok r rd (zlen s) e Hl) as (tl' & Eb' & Es & En); [zl|].
  rewrite Eb in Eb'. injection Eb' as Eb'. rewrite Eb', Es, En.
  rewrite (view_ok pd) by done. rewrite bool_decide_false by zl.
  assert (zlen e < zlen (crlf s)) as Hlt.
  { rewrite E2. destruct t; [done|]. zl. }
  assert (r_pos r = zlen rd) as Hpos by apply Hl.
  assert (r_len r = zlen (rd ++ crlf (itoa (zlen s)) ++ e)) as Hlen by apply Hl.
  unfold crlf in Hlt, Hfit, Hlen.
  rewrite (i64_small (zlen s + 2)), (u64_small (zlen (itoa (zlen s)) + 2)) by zl.
  rewrite (u64_small (zlen (itoa (zlen s)) + 2 + (zlen s + 2))) by zl.
  rewrite bool_decide_false; [done|]. rewrite u64_small by zl. rewrite Hlen. zl.
Qed.

(** A typed item whose bytes are cut short changes nothing. *)
Lemma typed_none r fs rep rd un t w :
  at_item pd r fs rep (type_code rep) rd un -> un ++ t = head rep -> t ≠ [] ->
  zlen (head rep) < 2 ^ 31 ->
  process_typed fn r (type_code rep) w = Ok (r, REDIS_ERR, w).
Proof.
  intros Hat E Ht Hh. pose proof (at_wf _ _ _ _ _ _ _ Hat) as Hwf.
  pose proof (at_depth _ _ _ _ _ _ _ Hat) as Hd. symmetry in E.
  destruct rep as [s|s|z|s| | |l]; cbn [type_code head body] in *; unfold process_typed.
  - eapply line_item_none; [done|]. by eapply no_crlf_prefix.
  - eapply line_item_none; [done|]. by eapply no_crlf_prefix.
  - eapply line_item_none; [done|]. eapply no_crlf_prefix; [|done|done].
    apply itoa_no_crlf. cbn in Hwf. lia.
  - eapply bulk_item_none; [done | done | done |]. right. exists s. split; [done|].
    unfold crlf in Hh. zl.
  - eapply bulk_item_none; [done | done | done |]. by left.
  - eapply array_item_none; [done | | cbn [depth] in Hd; unfold zlen; lia].
    by apply (no_crlf_prefix (bs "-1") un t (itoa_no_crlf (-1) ltac:(lia)) E).
  - eapply array_item_none; [done | | cbn [depth] in Hd; unfold zlen; lia].
    eapply no_crlf_prefix; [|done|done].
    apply wf_array in Hwf as [Hwf _]. apply itoa_no_crlf. zl.
Qed.

(** ** The loop *)
Lemma type_of_byte_ok rep : type_of_byte (type_byte rep) = Some (type_code rep).
Proof. by destruct rep. Qed.

Lemma type_code_range rep : 0 ≤ type_code rep.
Proof. by destruct rep. Qed.

Definition code (rep : reply) (typed : bool) : Z := if typed then type_code rep else -1.

Lemma item_typed r fs rep rd un w :
  at_item pd r fs rep (type_code rep) rd un ->
  processItem fn r w = process_typed fn r (type_code rep) w.
Proof.
  intros [Hl Hi Hf (el & ob & Hc) Hr Hwf Hd]. unfold processItem.
  rewrite Hi, (task_at_ok r fs _ Hc). unfold mbind, M_bind, lift.
  cbn [t_type]. pose proof (type_code_range rep). by rewrite bool_decide_false by lia.
Qed.

(** Reading the type byte: an error, or the item of that type. *)
Lemma item_byte r fs rep c rd un w :
  at_item pd r fs rep (-1) rd (c :: un) ->
  let r1 := set_pos r (u64 (r_pos r + 1)) in
  match type_of_byte c with
  | None => processItem fn r w
            = (r2 ← __redisReaderSetErrorProtocolByte fn r1 c; mret (r2, REDIS_ERR)) w
  | Some ty => ∃ el ob,
      processItem fn r w = process_typed fn (set_stack r1
        (<[length fs := Task ty el (cur_idx fs) ob (parent_of fs) pd]> (r_rstack r)) (r_ridx r)) ty w
  end.
Proof.
  intros [Hl Hi Hf (el & ob & Hc) Hr Hwf Hd] r1. unfold processItem.
  rewrite Hi, (task_at_ok r fs _ Hc). unfold mbind, M_bind, lift. cbn [t_type].
  rewrite bool_decide_true by lia.
  assert (∃ p, readBytes r 1 = Ok (r1, Some (c :: p))) as (p & ->).
  { unfold readBytes. rewrite (live_unread _ _ _ _ Hl). rewrite bool_decide_true by zl.
    destruct (buf_at_ok pd r rd _ Hl) as (tl & ->). by eexists. }
  rewrite load_0. destruct (type_of_byte c) as [ty|]; [|done].
  assert (r_ridx r1 = zlen fs) as -> by done. exists el, ob.
  assert (length (r_rstack r) = 9%nat) as H9 by apply Hl.
  rewrite set_task_ok by (change (r_rstack r1) with (r_rstack r); lia). by rewrite <- Hi.
Qed.

Lemma item_untyped r fs rep rd un w :
  at_item pd r fs rep (-1) rd (type_byte rep :: un) ->
  ∃ r', processItem fn r w = process_typed fn r' (type_code rep) w ∧ r_errstr r' = r_errstr r ∧
    at_item pd r' fs rep (type_code rep) (rd ++ [type_byte rep]) un.
Proof.
  intros Hat. pose proof (item_byte r fs rep _ rd un w Hat) as E.
  rewrite type_of_byte_ok in E. destruct E as (el & ob & E). eexists. split; [exact E|]. split; [done|].
  destruct Hat as [Hl Hi Hf _ Hr Hwf Hd].
  assert (length (r_rstack r) = 9%nat) as H9 by apply Hl.
  assert (live pd (set_pos r (u64 (r_pos r + 1))) (rd ++ [type_byte rep]) un) as Hl'
    by (by apply live_set_pos).
  split; try done.
  - apply live_set_stack; [done|]. by rewrite length_insert.
  - by apply frames_ok_insert.
  - eexists _, _. cbn [set_stack r_rstack]. by rewrite list_lookup_insert_eq by lia.
Qed.

Lemma item_no_byte r fs rep rd w :
  at_item pd r fs rep (-1) rd [] -> processItem fn r w = Ok (r, REDIS_ERR, w).
Proof.
  intros [Hl Hi Hf (el & ob & Hc) Hr Hwf Hd]. unfold processItem.
  rewrite Hi, (task_at_ok r fs _ Hc). unfold mbind, M_bind, lift. cbn [t_type].
  rewrite bool_decide_true by lia. unfold readBytes.
  rewrite (live_unread _ _ _ _ Hl), zlen_nil. by rewrite bool_decide_false by lia.
Qed.

(** Where the loop stops: the reply is done, or bytes [t] are missing. *)
Definition stopped (Q : vptr Ob -> W -> Prop) (rd un more extra : bytes)
    (r : redisReader Ob) (w : W) : Prop :=
  ∃ k un', un = k ++ un' ∧
    ((∃ o, finished pd r o (rd ++ k) un' ∧ Q o w ∧ is_null o = false ∧ un' ++ more = extra)
     ∨ (∃ gs x typed t, at_item pd r gs x (code x typed) (rd ++ k) un' ∧
          wp (run fn pd gs x) Q w ∧ t ≠ [] ∧ un' ++ t = stream gs x typed ∧
          more = t ++ extra)).

Lemma head_nonempty rep : 2 ≤ zlen (head rep).
Proof. destruct rep; cbn [head body]; unfold crlf; zl. Qed.

Lemma body_nonempty rep : 2 ≤ zlen (body rep).
Proof. destruct rep; rewrite ?body_array; cbn [body]; unfold crlf; zl. Qed.

Lemma process_loop_ok fuel r fs rep typed rd un more extra Q w :
  at_item pd r fs rep (code rep typed) rd un ->
  un ++ more = stream fs rep typed ++ extra -> wp (run fn pd fs rep) Q w ->
  zlen (stream fs rep typed) < 2 ^ 31 -> zlen un < Z.of_nat fuel ->
  wp (process_loop fn fuel r) (stopped Q rd un more extra) w.
Proof.
  revert r fs rep typed rd un w. induction fuel as [|fuel IH];
    intros r fs rep typed rd un w Hat E Hwp Hlen Hf; [zl|].
  cbn [process_loop]. rewrite (at_ridx _ _ _ _ _ _ _ Hat), bool_decide_true by zl.
  (* the typed item, from [r1] with [un1] unread *)
  assert (∀ r1 k1 un1, at_item pd r1 fs rep (type_code rep) (rd ++ k1) un1 ->
    un = k1 ++ un1 -> un1 ++ more = stream fs rep true ++ extra ->
    zlen (stream fs rep true) < 2 ^ 31 ->
    wp ('(r, st) ← process_typed fn r1 (type_code rep);
        if bool_decide (st = REDIS_OK) then process_loop fn fuel r else mret r)
       (stopped Q rd un more extra) w) as Htyped.
  { intros r1 k1 un1 Hat1 Eun E1 Hlen1. rewrite Eun in Hf. rewrite stream_head, <- app_assoc in E1.
    rewrite stream_head in Hlen1. pose proof (head_nonempty rep) as Hh.
    destruct (app_cases _ _ _ _ E1) as [(e & -> & E2)|(t & Ht & E2 & E3)].
    - wp_step. eapply wp_mono; [by apply typed_ok|].
      intros [r2 st] w2 [-> [(gs & x & Hat2 & Hwp2 & HS)|(o & Hfin & HQ & Hnn & HS)]];
        rewrite bool_decide_true by done.
      + rewrite HS in E2, Hlen1. eapply wp_mono.
        * apply (IH r2 gs x false); [done | by rewrite <- E2 | done | zl | zl].
        * intros r3 w3 (k3 & un3 & E3 & Hout). exists (k1 ++ head rep ++ k3), un3.
          split; [by rewrite Eun, E3, <- !app_assoc|].
          by rewrite <- !app_assoc in Hout.
      + destruct fuel as [|fuel]; [zl|]. cbn [process_loop].
        rewrite (fin_ridx _ _ _ _ _ Hfin), bool_decide_false by lia. wp_steps.
        rewrite HS in E2. exists (k1 ++ head rep), e. rewrite Eun, <- app_assoc.
        split; [done|]. left. exists o. by rewrite <- app_assoc in Hfin.
    - unfold wp, mbind, M_bind.
      rewrite (typed_none r1 fs rep (rd ++ k1) un1 t) by (try done; zl).
      rewrite bool_decide_false by done. cbn.
      exists k1, un1. split; [done|]. right. exists fs, rep, true, (t ++ after fs rep).
      split_and!; [done | done | by destruct t | by rewrite stream_head, E2, app_assoc |].
      by rewrite E3, app_assoc. }
  destruct typed.
  { unfold wp, mbind, M_bind. rewrite (item_typed r fs rep rd un) by done.
    apply (Htyped r [] un); try done. by rewrite app_nil_r. }
  cbn [code] in Hat. destruct un as [|c un].
  - unfold wp, mbind, M_bind. rewrite (item_no_byte r fs rep rd) by done.
    rewrite bool_decide_false by done. exists [], []. split; [done|]. right.
    rewrite app_nil_r. by exists fs, rep, false, (stream fs rep false).
  - unfold stream in E, Hlen. cbn [app] in E, Hlen. injection E as -> E.
    destruct (item_untyped r fs rep rd un w Hat) as (r1 & Ei & _ & Hat1).
    unfold wp, mbind, M_bind. rewrite Ei.
    apply (Htyped r1 [type_byte rep] un); [done | done | done |].
    unfold stream. cbn [app]. zl.
Qed.
End items.

(** ** Feeding and getting replies *)
Section replies.
Context {W : Type} `{!Libc W} {Ob : Type} (no_oom : ¬ oom W).
Context (fn : option (redisReplyObjectFunctions W Ob)) (pd : Z).
Hypothesis string_len : ∀ v p n w,
  0 ≤ n ≤ zlen p -> new_string fn v p n w = new_string fn v (take (Z.to_nat n) p) n w.

(** Between two replies, with [un] unread. *)
Definition between (r : redisReader Ob) (un : bytes) : Prop :=
  ∃ rd, live pd r rd un ∧ zlen rd < 1024 ∧ r_ridx r = -1 ∧ r_reply r = Null.

(** Waiting for the end of a reply: the bytes [S] to come, of which [un] are
    here, make the object that satisfies [Q]. *)
Inductive awaits (Q : vptr Ob -> W -> Prop) (r : redisReader Ob) (S un : bytes) (w : W) : Prop :=
  | awaits_start rep :
      between r un -> wf rep -> (depth rep ≤ 8)%nat ->
      wp (build fn pd None (-1) rep) Q w -> S = encode rep -> awaits Q r S un w
  | awaits_rest rd gs x typed :
      at_item pd r gs x (code x typed) rd un -> zlen rd < 1024 ->
      wp (run fn pd gs x) Q w -> S = stream gs x typed -> awaits Q r S un w.

(** Dropping the bytes read. *)
Lemma discard_ok (r : redisReader Ob) rd un :
  live pd r rd un ->
  ∃ r', (if bool_decide (1024 ≤ r_pos r) then
           b ← deref (r_buf r);
           b ← sdsrange b (i32 (r_pos r)) (-1);
           mret (Reader (r_err r) (r_errstr r) (Some b) 0 (sdslen b) (r_maxbuf r)
                   (r_rstack r) (r_ridx r) (r_reply r) (r_privdata r))
         else Ok r) = Ok r' ∧
    (∃ rd', live pd r' rd' un ∧ zlen rd' < 1024) ∧ r_rstack r' = r_rstack r ∧
    r_ridx r' = r_ridx r ∧ r_reply r' = r_reply r.
Proof.
  intros Hl. pose proof (live_fit _ _ _ _ Hl) as Hfit.
  destruct Hl as [He (b & Hb & Hs) Hp Hn H9 Hpd].
  rewrite Hp. case_bool_decide as Hc.
  - rewrite Hb. cbn [deref]. rsimpl. rewrite i32_small by zl.
    destruct (sdsrange_ok b (rd ++ un) (zlen rd) (-1) Hs) as (b' & -> & Hs'); [zl | lia |].
    rsimpl. eexists. split; [done|].
    assert (range_of (rd ++ un) (zlen rd) (-1) = un) as E.
    { unfold range_of. rewrite (bool_decide_false (zlen rd < 0)) by zl.
      rewrite (bool_decide_true (-1 < 0)) by lia. cbv zeta.
      rewrite drop_zlen. rewrite Z.max_r by zl.
      apply take_ge. rewrite zlen_app. unfold zlen. lia. }
    rewrite E in Hs'. split_and!; try done. exists []. split; [|done].
    split; try done; [by exists b'|]. cbn [r_len app]. by apply sds_rep_len.
  - exists r. split; [done|]. split_and!; try done. exists rd. split; [|lia].
    split; try done. by exists b.
Qed.

(** What a call to [redisReaderGetReply] gives: the object, or nothing yet. *)
Definition got (Q : vptr Ob -> W -> Prop) (n : Z) (more extra : bytes)
    (r : redisReader Ob) (o : vptr Ob) (w : W) : Prop :=
  (is_null o = false ∧ Q o w ∧ ∃ un, between r un ∧ un ++ more = extra)
  ∨ (o = Null ∧ ∃ S un t, awaits Q r S un w ∧ t ≠ [] ∧ un ++ t = S ∧ more = t ++ extra
                          ∧ zlen S ≤ n).

Lemma get_reply_rest (r : redisReader Ob) Q rd un S more extra w0 :
  wp (process_loop fn (2 + Z.to_nat (r_len r)) r) (stopped fn pd Q rd un more extra) w0 ->
  un ++ more = S ++ extra ->
  wp (r ← process_loop fn (2 + Z.to_nat (r_len r)) r;
      if bool_decide (r_err r ≠ 0) then mret (r, REDIS_ERR, Null) else
      r ← lift (if bool_decide (1024 ≤ r_pos r) then
                  b ← deref (r_buf r);
                  b ← sdsrange b (i32 (r_pos r)) (-1);
                  mret (Reader (r_err r) (r_errstr r) (Some b) 0 (sdslen b) (r_maxbuf r)
                          (r_rstack r) (r_ridx r) (r_reply r) (r_privdata r))
                else Ok r);
      if bool_decide (r_ridx r = -1)
      then mret (set_reply r Null, REDIS_OK, r_reply r) else mret (r, REDIS_OK, Null))
     (λ '(r', st, o) w, st = REDIS_OK ∧ got Q (zlen S) more extra r' o w) w0.
Proof.
  intros Hloop E0. wp_step. eapply wp_mono; [exact Hloop|]. clear Hloop.
  intros r1 w1 (k1 & un1 & Eun & [(o & [Hl Hi Hr] & HQ & Hnn & Hex)|
    (gs & x & typed & t & [Hl Hi Hf Hc Hr Hwf Hd] & Hwp & Ht & HS & Hmore)]);
    (rewrite bool_decide_false by (intros H; apply H; apply Hl));
    destruct (discard_ok r1 (rd ++ k1) un1 Hl) as (r2 & E & (rd2 & Hl2 & Hrd2) & Hst & Hidx & Hrep);
    (wp_step; eapply wp_lift_ok; [exact E|]); rewrite Hidx, Hi.
  - rewrite bool_decide_true by done. wp_steps. split; [done|]. left.
    rewrite Hrep, Hr. split_and!; [done..|]. exists un1. split; [|done].
    exists rd2. split_and!; [by apply live_set_reply | done | | done].
    cbn [set_reply r_ridx]. by rewrite Hidx.
  - rewrite bool_decide_false by zl. wp_steps. split; [done|]. right. split; [done|].
    exists (stream gs x typed), un1, t. split_and!; try done.
    + eapply awaits_rest; [|done..]. split; try done; rewrite ?Hidx, ?Hst, ?Hrep; done.
    + rewrite Hmore, app_assoc in E0. apply app_inv_tail in E0.
      rewrite <- HS, <- E0, Eun. zl.
Qed.

(** The start of a reply: the root task is set. *)
Lemma park (r : redisReader Ob) rd un (w : W) :
  live pd r rd un -> r_ridx r = -1 -> r_reply r = Null ->
  wp (r ← lift (set_task r 0 (Task (-1) (-1) (-1) Null None (r_privdata r)));
      mret (set_stack r (r_rstack r) 0)) (λ r' w', w' = w ∧ r_len r' = r_len r ∧
        r_errstr r' = r_errstr r ∧ ∀ rep, wf rep -> (depth rep ≤ 8)%nat -> at_item pd r' [] rep (-1) rd un) w.
Proof.
  intros Hl Hi Hr. wp_step. assert (length (r_rstack r) = 9%nat) as H9 by apply Hl.
  change 0 with (zlen (@nil (@frame Ob))) at 1. rewrite set_task_ok by (cbn; lia).
  wp_steps. split_and!; [done..|]. intros rep Hwf Hd. split; try done.
  - apply live_set_stack; [by apply live_set_stack; rewrite ?length_insert|].
    cbn [set_stack r_rstack]. by rewrite length_insert.
  - eexists _, _. cbn [set_stack r_rstack length].
    rewrite list_lookup_insert_eq by lia. by rewrite (live_privdata _ _ _ _ Hl).
  - cbn [length]. lia.
Qed.

Lemma getReply_ok r Q S un more extra w :
  awaits Q r S un w -> un ++ more = S ++ extra -> zlen S < 2 ^ 31 ->
  (more = [] -> extra = [] -> un ≠ []) ->
  wp (redisReaderGetReply fn r) (λ '(r', st, o) w', st = REDIS_OK ∧ got Q (zlen S) more extra r' o w') w.
Proof.
  intros Haw E Hlen Hne. unfold redisReaderGetReply. pose proof Haw as Haw0.
  destruct Haw as [rep (rd & Hl & Hrd & Hi & Hr) Hwf Hd Hwp ->|rd gs x typed Hat Hrd Hwp ->].
  - rewrite bool_decide_false by (intros H; apply H; apply Hl).
    case_bool_decide as Hz.
    { assert (rd = [] ∧ un = []) as [-> ->].
      { rewrite (live_len _ _ _ _ Hl) in Hz. apply zlen_zero in Hz. by destruct rd, un. }
      wp_steps. split; [done|]. right. split; [done|].
      by exists (encode rep), [], (encode rep). }
    rewrite Hi, bool_decide_true by done. wp_step. apply wp_mono with (λ r' w',
      w' = w ∧ r_len r' = r_len r ∧ at_item pd r' [] rep (-1) rd un).
    { eapply wp_mono; [by apply (park r rd un)|]. intros r1 w1 (-> & ? & _ & Hat). auto. }
    intros r1 w1 (-> & Hlen1 & Hat). apply (get_reply_rest r1 Q rd un (encode rep)); [|done].
    assert (encode rep = stream (@nil (@frame Ob)) rep false) as Es
      by (unfold stream, encode; cbn; by rewrite app_nil_r).
    rewrite Es in E, Hlen. apply (process_loop_ok fn pd string_len _ r1 [] rep false); try done.
    + unfold run. unfold wp, mbind, M_bind in Hwp |- *. cbn [cur_parent cur_idx].
      destruct (build _ _ _ _ _ _) as [[o w1]|]; done.
    + pose proof (live_len _ _ _ _ Hl) as Hn. rewrite Hlen1, Hn. zl.
  - pose proof Hat as [Hl Hi Hf Hc Hr Hwf Hd].
    rewrite bool_decide_false by (intros H; apply H; apply Hl).
    case_bool_decide as Hz.
    { assert (rd = [] ∧ un = []) as [-> ->].
      { rewrite (live_len _ _ _ _ Hl) in Hz. apply zlen_zero in Hz. by destruct rd, un. }
      wp_steps. split; [done|]. right. split; [done|].
      exists (stream gs x typed), [], (stream gs x typed). split_and!; try done.
      unfold stream. intros En. apply app_eq_nil in En as [_ En].
      apply app_eq_nil in En as [En _].
      pose proof (body_nonempty x) as Hx. rewrite En in Hx. zl. }
    rewrite Hi, bool_decide_false by zl.
    assert (∀ (Q' : redisReader Ob * Z * vptr Ob -> W -> Prop) k,
      wp (k r) Q' w -> wp (mret r ≫= k) Q' w) as Hret by done.
    apply Hret. apply (get_reply_rest r Q rd un (stream gs x typed)); [|done].
    apply (process_loop_ok fn pd string_len _ r gs x typed); try done.
    rewrite (live_len _ _ _ _ Hl). zl.
Qed.

(** ** No reply to come yet

    After a call that found nothing to read the root task is set up. *)
Definition parked (r : redisReader Ob) (un : bytes) : Prop :=
  ∃ rd, zlen rd < 1024 ∧ live pd r rd un ∧
    ∀ rep, wf rep -> (depth rep ≤ 8)%nat -> at_item pd r [] rep (-1) rd un.

Definition waiting (r : redisReader Ob) (un : bytes) : Prop := between r un ∨ parked r un.

Lemma awaits_waiting Q r un rep w :
  waiting r un -> wf rep -> (depth rep ≤ 8)%nat ->
  wp (build fn pd None (-1) rep) Q w -> awaits Q r (encode rep) un w.
Proof.
  intros [Hb|(rd & Hrd & _ & Hat)] Hwf Hd Hwp; [by eapply awaits_start|].
  eapply (awaits_rest Q r _ un w rd [] rep false); [by apply Hat | done | |].
  - unfold run. unfold wp, mbind, M_bind in *. cbn [cur_parent cur_idx].
    by destruct (build _ _ _ _ _ _) as [[o w1]|].
  - unfold stream, encode. cbn. by rewrite app_nil_r.
Qed.

(** With nothing to read there is no reply, and the reader goes on waiting. *)
Lemma getReply_nothing (r : redisReader Ob) (w : W) :
  waiting r [] ->
  wp (redisReaderGetReply fn r) (λ '(r', st, o) w',
    st = REDIS_OK ∧ o = Null ∧ waiting r' [] ∧ w' = w) w.
Proof.
  intros Hwait. assert (∃ rd, live pd r rd []) as (rd & Hl).
  { destruct Hwait as [(rd & ? & _)|(rd & _ & ? & _)]; by exists rd. }
  unfold redisReaderGetReply. rewrite bool_decide_false by (intros H; apply H; apply Hl).
  case_bool_decide; [wp_steps; by split_and!|].
  wp_step. apply wp_mono with (λ r' w', w' = w ∧ ∃ rd', live pd r' rd' [] ∧
    ∀ rep, wf rep -> (depth rep ≤ 8)%nat -> at_item pd r' [] rep (-1) rd' []).
  { destruct Hwait as [(rd' & Hl' & _ & Hi & Hr)|(rd' & _ & Hl' & Hat)].
    - rewrite Hi, bool_decide_true by done. eapply wp_mono; [by apply (park r rd' [])|].
      intros r1 w1 (-> & _ & _ & Hat). split; [done|]. exists rd'. split; [|done].
      by apply (at_live _ _ _ _ _ _ _ (Hat RNil I ltac:(cbn; lia))).
    - pose proof (at_ridx _ _ _ _ _ _ _ (Hat RNil I ltac:(cbn; lia))) as Hi. rewrite Hi.
      rewrite bool_decide_false by done. wp_steps. split; [done|]. by exists rd'. }
  intros r1 w1 (-> & rd1 & Hl1 & Hat1).
  pose proof (Hat1 RNil I ltac:(cbn; lia)) as Hnil. wp_step.
  apply wp_mono with (λ r' w', w' = w ∧ r' = r1).
  { cbn [Nat.add process_loop]. rewrite (at_ridx _ _ _ _ _ _ _ Hnil), bool_decide_true by done.
    unfold wp, mbind, M_bind. rewrite (item_no_byte fn pd r1 [] RNil rd1) by done.
    by rewrite bool_decide_false by done. }
  intros r' w' [-> ->]. rewrite bool_decide_false by (intros H'; apply H'; apply Hl1).
  destruct (discard_ok r1 rd1 [] Hl1) as (r2 & E & (rd2 & Hl2 & Hrd2) & Hst & Hidx & Hrep).
  wp_step. eapply wp_lift_ok; [exact E|]. rewrite Hidx, (at_ridx _ _ _ _ _ _ _ Hnil).
  rewrite bool_decide_false by done. wp_steps. split_and!; try done.
  right. exists rd2. split_and!; [done..|]. intros rep Hwf Hd. destruct (Hat1 rep Hwf Hd) as [].
  split; try done; by rewrite ?Hst, ?Hidx, ?Hrep.
Qed.

(** ** Feeding *)
Lemma feed_live r rd un chunk rest w :
  live pd r rd un -> zlen rd < 1024 ->
  zlen un + zlen chunk + 1024 + SDS_MAX_PREALLOC < 2 ^ 31 ->
  wp (redisReaderFeed fn r (Some (chunk ++ rest)) (zlen chunk)) (λ '(r', st) w',
    st = REDIS_OK ∧ (∃ rd', live pd r' rd' (un ++ chunk) ∧ zlen rd' < 1024) ∧
    r_rstack r' = r_rstack r ∧ r_ridx r' = r_ridx r ∧ r_reply r' = r_reply r) w.
Proof.
  intros Hl Hrd Hroom. unfold redisReaderFeed.
  pose proof Hl as [He (b & Hb & Hs) Hp Hn H9 Hpd].
  rewrite bool_decide_false by (intros H; apply H; apply Hl).
  case_bool_decide as Hc; cycle 1.
  { wp_steps. destruct chunk; [|zl]. rewrite app_nil_r. split_and!; try done. by exists rd. }
  rewrite Hb. wp_steps.
  apply wp_mono with (λ '(b', pos) _, ∃ rd', sds_rep b' (rd' ++ un) ∧ pos = zlen rd' ∧ zlen rd' < 1024).
  { case_bool_decide as Hbig.
    - assert (rd = [] ∧ un = []) as [-> ->].
      { destruct Hbig as [Hz _]. rewrite Hn in Hz. apply zlen_zero in Hz. by destruct rd, un. }
      wp_step. eapply wp_mono; [apply sdsempty_wp|]. intros [b'|] w' Hb'; [|done].
      wp_steps. by exists [].
    - wp_steps. exists rd. by rewrite Hp. }
  intros [b' pos] w' (rd' & Hs' & -> & Hrd'). wp_step.
  eapply wp_mono; [apply sdscatlen_wp; [exact Hs' | zl | unfold SDS_MAX_PREALLOC in *; zl]|].
  rewrite take_zlen. intros [b2|] w2 Hb2; [|done]. wp_steps.
  split_and!; try done. exists rd'. split; [|done]. rewrite <- app_assoc in Hb2.
  split; try done; [by exists b2 | by apply sds_rep_len].
Qed.

End replies.

(** ** A reply read in chunks *)

(** The caller's loop: feed a chunk, ask for a reply, go on while there is
    none.  The chunks left are returned with the reply. *)
Fixpoint read_reply {W Ob} `{!Libc W} (fn : option (redisReplyObjectFunctions W Ob))
    (r : redisReader Ob) (chunks : list bytes) :
    M W (redisReader Ob * Z * vptr Ob * list bytes) :=
  match chunks with
  | [] => mret (r, REDIS_OK, Null, [])
  | c :: cs =>
      '(r, st) ← redisReaderFeed fn r (Some c) (zlen c);
      if bool_decide (st = REDIS_OK) then
        '(r, st, o) ← redisReaderGetReply fn r;
        if bool_decide (st = REDIS_OK) && is_null o then read_reply fn r cs
        else mret (r, st, o, cs)
      else mret (r, st, Null, cs)
  end.

Section session.
Context {W : Type} `{!Libc W} {Ob : Type} (no_oom : ¬ oom W).
Context (fn : option (redisReplyObjectFunctions W Ob)) (pd : Z).
Context (R : W -> W -> Prop) `{!AllocRel R}.
Hypothesis string_len : ∀ v p n w,
  0 ≤ n ≤ zlen p -> new_string fn v p n w = new_string fn v (take (Z.to_nat n) p) n w.
(** The creation functions do not depend on the allocator's state. *)
Hypothesis build_item_mono : ∀ v rep, alloc_mono R (build_item fn v rep).

Lemma made_mono m : alloc_mono R m -> alloc_mono R (made (Ob := Ob) m).
Proof.
  intros Hm. apply alloc_mono_bind; [done|]. intros o.
  apply alloc_mono_bind; [by apply alloc_mono_massert|]. intros _. by apply alloc_mono_ret.
Qed.

Lemma build_mono rep : ∀ parent idx, alloc_mono R (build fn pd parent idx rep).
Proof.
  revert rep. fix IH 1. intros rep parent idx. destruct rep as [s|s|z|s| | |l]; cbn [build];
    (apply alloc_mono_bind; [by apply made_mono|]; intros o);
    try by apply alloc_mono_ret.
  apply alloc_mono_bind; [|intros; by apply alloc_mono_ret].
  generalize 0. induction l as [|x l IHl]; intros i; [by apply alloc_mono_ret|].
  apply alloc_mono_bind; [apply IH | intros; apply IHl].
Qed.

Lemma build_list_mono o i l : alloc_mono R (build_list fn pd o i l).
Proof.
  revert i. induction l as [|x l IH]; intros i; [by apply alloc_mono_ret|].
  apply alloc_mono_bind; [by apply build_mono | auto].
Qed.

Lemma run_mono fs rep : alloc_mono R (run fn pd fs rep).
Proof.
  apply alloc_mono_bind; [by apply build_mono|]. induction fs as [|f fs IH]; intros o;
    [by apply alloc_mono_ret|].
  apply alloc_mono_bind; [apply build_list_mono | auto].
Qed.

Lemma redisReaderFeed_alloc r buf n : r_err r = 0 ->
  (∀ s, wp (redisReaderFeed fn r buf n) (λ '(_, st) _, st = REDIS_OK) s) ->
  alloc_only R (redisReaderFeed fn r buf n).
Proof.
  intros He Hok w [r' st] w' E. specialize (Hok w). unfold wp in Hok. rewrite E in Hok. subst st.
  revert E. unfold redisReaderFeed. rewrite bool_decide_false by (intros H; by apply H).
  destruct buf as [buf|]; [|by intros [= _ ->]].
  case_bool_decide; [|by intros [= _ ->]].
  unfold mbind at 1, M_bind at 1, lift. destruct (deref (r_buf r)) as [cur|]; [|done].
  unfold mbind, M_bind.
  set (m := if bool_decide _ then _ else _).
  assert (alloc_only R m) as Hm.
  { unfold m. case_bool_decide; [|alloc].
    apply alloc_only_bind; [done | apply sdsempty_alloc, _|]. intros o. alloc. }
  destruct (m w) as [[[b pos] w1]|] eqn:Em; [|done]. apply Hm in Em.
  destruct (sdscatlen b buf n w1) as [[o w2]|] eqn:E2; [|done].
  apply (sdscatlen_alloc R) in E2. destruct o as [b2|].
  - intros [= _ ->]. by etrans.
  - unfold oom_error, mbind, M_bind. destruct (__redisReaderSetErrorOOM _ _ _) as [[? ?]|]; done.
Qed.

Lemma awaits_mono Q r S un w w' :
  (∀ o w1 w2, R w1 w2 -> Q o w1 -> Q o w2) ->
  awaits fn pd Q r S un w -> R w w' -> awaits fn pd Q r S un w'.
Proof.
  intros HQ [rep Hb Hwf Hd Hwp ->|rd gs x typed Hat Hrd Hwp ->] HR.
  - eapply awaits_start; try done. by apply (build_mono rep None (-1) Q w).
  - eapply awaits_rest; try done. by apply (run_mono gs x Q w).
Qed.

(** Feeding a chunk to a reader that waits. *)
Lemma feed_ok Q r S un chunk w :
  (∀ o w1 w2, R w1 w2 -> Q o w1 -> Q o w2) ->
  awaits fn pd Q r S un w -> zlen un + zlen chunk + 1024 + SDS_MAX_PREALLOC < 2 ^ 31 ->
  wp (redisReaderFeed fn r (Some chunk) (zlen chunk)) (λ '(r', st) w',
    st = REDIS_OK ∧ awaits fn pd Q r' S (un ++ chunk) w') w.
Proof.
  intros HQ Haw Hroom.
  assert (∃ rd, live pd r rd un ∧ zlen rd < 1024) as (rd & Hl & Hrd).
  { destruct Haw as [rep (rd & Hl & Hrd & _)|rd gs x typed [Hl]]; by exists rd. }
  assert (∀ w0, wp (redisReaderFeed fn r (Some chunk) (zlen chunk)) (λ '(r', st) _,
    st = REDIS_OK ∧ (∃ rd', live pd r' rd' (un ++ chunk) ∧ zlen rd' < 1024) ∧
    r_rstack r' = r_rstack r ∧ r_ridx r' = r_ridx r ∧ r_reply r' = r_reply r) w0) as Hfeed.
  { intros w0. pose proof (feed_live no_oom fn pd r rd un chunk [] w0 Hl Hrd Hroom) as H.
    by rewrite app_nil_r in H. }
  eapply wp_mono.
  { apply (wp_alloc_only R); [|apply Hfeed].
    apply redisReaderFeed_alloc; [apply Hl|]. intros w0.
    eapply wp_mono; [apply Hfeed|]. by intros [? ?] ? [? _]. }
  intros [r' st] w' [(-> & (rd' & Hl' & Hrd') & Hs & Hi & Hr) HR]. split; [done|].
  eapply awaits_mono; [done| |done].
  destruct Haw as [rep (rd0 & Hl0 & _ & Hi0 & Hr0) Hwf Hd Hwp ->|rd0 gs x typed [] Hrd0 Hwp ->].
  - eapply awaits_start; try done. exists rd'. by rewrite Hi, Hr.
  - eapply awaits_rest; try done. split; rewrite ?Hs, ?Hi, ?Hr; done.
Qed.

(** Whatever the chunks, the reader builds the object of the reply, leaves
    the bytes after it, and reports nothing before the last byte. *)
Lemma read_reply_ok Q r S un chunks extra t w :
  (∀ o w1 w2, R w1 w2 -> Q o w1 -> Q o w2) ->
  awaits fn pd Q r S un w -> un ++ t = S -> t ≠ [] -> concat chunks = t ++ extra ->
  zlen S < 2 ^ 29 -> Forall (λ c, zlen c < 2 ^ 29) chunks ->
  wp (read_reply fn r chunks) (λ '(r', st, o, cs) w',
    st = REDIS_OK ∧ is_null o = false ∧ Q o w' ∧
    ∃ un', between pd r' un' ∧ un' ++ concat cs = extra) w.
Proof.
  intros HQ. revert r S un t w. induction chunks as [|c cs IH];
    intros r S un t w Haw HS Ht Hcat HlS Hlc.
  { cbn in Hcat. by destruct t. }
  inversion Hlc as [|? ? Hc Hlcs]; subst. cbn [read_reply concat] in *. wp_step.
  eapply wp_mono; [apply feed_ok; [done | exact Haw | unfold SDS_MAX_PREALLOC; zl]|].
  intros [r1 st] w1 [-> Haw1]. rewrite bool_decide_true by done. wp_step.
  eapply wp_mono.
  { apply (getReply_ok fn pd string_len r1 Q (un ++ t) (un ++ c) (concat cs) extra);
      [exact Haw1 | | lia |].
    - by rewrite <- app_assoc, Hcat, app_assoc.
    - intros Hcs -> Hnil. apply app_eq_nil in Hnil as [-> ->].
      rewrite Hcs in Hcat. cbn in Hcat. by destruct t. }
  intros [[r2 st] o] w2 [-> [(Ho & HQo & un2 & Hb & Hex)|
    (-> & S2 & un2 & t2 & Haw2 & Ht2 & HS2 & Hmore & HlS2)]].
  - rewrite Ho, andb_false_r. wp_steps. split_and!; [done..|]. by exists un2.
  - rewrite bool_decide_true by done. cbn [is_null andb].
    eapply (IH r2 S2 un2 t2); try done.
    lia.
Qed.

(** A reader just created is between two replies. *)
Lemma redisReaderCreate_ok w :
  pd = 0 ->
  wp redisReaderCreateWithFunctions (λ o _, ∃ r : redisReader Ob, o = Some r ∧ between pd r []) w.
Proof.
  intros ->. unfold redisReaderCreateWithFunctions. wp_step.
  apply wp_calloc; [lia | done |]. intros w1. cbn beta iota. wp_step.
  eapply wp_mono; [apply sdsempty_wp|]. intros [b|] w2 Hb; [|done]. wp_steps.
  eexists. split; [done|]. exists []. split_and!; try done. split; try done. by exists b.
Qed.

Lemma awaits_between Q r un rep w :
  between pd r un -> wf rep -> (depth rep ≤ 8)%nat ->
  wp (build fn pd None (-1) rep) Q w -> awaits fn pd Q r (encode rep) un w.
Proof. intros. by eapply awaits_start. Qed.
End session.
