(* ===== verification/Replies.v ===== *)
(** * Replies: the reply objects of hiredis (hiredis.c, hiredis.h)

    The default creation functions build a tree of [redisReply] nodes in an
    object store: a heap from locations to nodes, beside the state of the
    allocator.  Each new node is written into the [element] array of its
    parent; [freeReplyObject] walks the tree and deletes its nodes. *)

From Stdlib Require Import ZArith Lia Ascii.
From stdpp Require Import base list strings gmap numbers.
From S2P Require Import Prelude Libc Printf Sds Reader Resp ReaderSpec.

Record redisReply := Reply {
  type : Z;
  integer : Z;
  len : Z;
  str : option bytes;
  elements : Z;
  element : option (list (option nat)); (** pointers to nodes, or NULL *)
}.

Abbreviation heap := (gmap nat redisReply).

(** sizeof(struct redisReply) *)
Definition REPLY_SIZE : Z := 48.

Section replies.
Context {X : Type} `{!Libc X}.

Definition world : Type := X * heap.

#[export] Program Instance world_libc : Libc world := {|
  malloc n w := ((malloc n (fst w)).1, ((malloc n (fst w)).2, snd w))
|}.
Next Obligation.
  intros n [x h] b w' Hn E. cbn in *. injection E as E _.
  destruct (malloc n x) as [o x'] eqn:Em. cbn in E. subst o. by eapply malloc_zlen.
Qed.

(** Reading and writing a node; a dangling pointer is [Stuck]. *)
Definition get_node (l : nat) : M world redisReply := λ w,
  match snd w !! l with Some nd => Ok (nd, w) | None => Stuck end.
Definition put_node (l : nat) (nd : redisReply) : M world unit := λ w,
  match snd w !! l with Some _ => Ok (tt, (fst w, <[l := nd]> (snd w))) | None => Stuck end.
Definition new_node (nd : redisReply) : M world nat := λ w,
  let l := fresh (dom (snd w)) in Ok (l, (fst w, <[l := nd]> (snd w))).
Definition free_node (l : nat) : M world unit := λ w,
  match snd w !! l with Some _ => Ok (tt, (fst w, delete l (snd w))) | None => Stuck end.

Definition createReplyObject (ty : Z) : M world (option nat) :=
  r ← c_calloc REPLY_SIZE;
  match r with
  | None => mret None
  | Some _ => l ← new_node (Reply ty 0 0 None 0 None); mret (Some l)
  end.

(** [for (j = 0; j < r->elements; j++) if (r->element[j] != NULL) ...] *)
Fixpoint free_elements (free : nat -> M world unit) (els : list (option nat))
    (n : nat) {struct n} : M world unit :=
  match n with
  | O => mret tt
  | S n' =>
      match els with
      | [] => stuck
      | e :: els' =>
          _ ← (match e with Some l => free l | None => mret tt end);
          free_elements free els' n'
      end
  end.

Fixpoint free_reply (fuel : nat) (l : nat) : M world unit :=
  match fuel with
  | O => stuck
  | S fuel' =>
      nd ← get_node l;
      _ ← (if bool_decide (type nd = REDIS_REPLY_ARRAY) then
             match element nd with
             | Some els => free_elements (free_reply fuel') els (Z.to_nat (elements nd))
             | None => mret tt
             end
           else mret tt);
      free_node l
  end.

(** Each level of the recursion needs a node of its own. *)
Definition freeReplyObject (p : vptr nat) : M world unit := λ w,
  match p with
  | Null => Ok (tt, w)
  | Cast _ => Stuck
  | Obj l => free_reply (S (size (snd w))) l w
  end.

(** [if (task->parent) { ... parent->element[task->idx] = r; }] *)
Definition set_parent (v : task_view nat) (l : nat) : M world unit :=
  match tv_parent v with
  | None => mret tt
  | Some (Obj p) =>
      nd ← get_node p;
      _ ← massert (bool_decide (type nd = REDIS_REPLY_ARRAY));
      els ← lift (deref (element nd));
      els ← (if bool_decide (0 ≤ tv_idx v < zlen els)
             then mret (<[Z.to_nat (tv_idx v) := Some l]> els) else stuck);
      put_node p (Reply (type nd) (integer nd) (len nd) (str nd) (elements nd) (Some els))
  | Some _ => stuck
  end.

Definition createStringObject (v : task_view nat) (s : bytes) (n : Z) :
    M world (vptr nat) :=
  r ← createReplyObject (tv_type v);
  match r with
  | None => mret Null
  | Some l =>
      buf ← c_malloc (u64 (n + 1));
      match buf with
      | None => _ ← freeReplyObject (Obj l); mret Null
      | Some buf =>
          _ ← massert (bool_decide (tv_type v = REDIS_REPLY_ERROR
                 ∨ tv_type v = REDIS_REPLY_STATUS ∨ tv_type v = REDIS_REPLY_STRING));
          buf ← lift (memcpy buf 0 s n);
          buf ← lift (store buf n NUL);
          nd ← get_node l;
          _ ← put_node l (Reply (type nd) (integer nd) (i32 n) (Some buf)
                            (elements nd) (element nd));
          _ ← set_parent v l;
          mret (Obj l)
      end
  end.

Definition createArrayObject (v : task_view nat) (n : Z) : M world (vptr nat) :=
  r ← createReplyObject REDIS_REPLY_ARRAY;
  match r with
  | None => mret Null
  | Some l =>
      els ← (if bool_decide (n > 0)
             then b ← c_calloc (n * 8);
                  mret (match b with
                        | Some _ => Some (Some (replicate (Z.to_nat n) None))
                        | None => None end)
             else mret (Some None));
      match els with
      | None => _ ← freeReplyObject (Obj l); mret Null
      | Some els =>
          nd ← get_node l;
          _ ← put_node l (Reply (type nd) (integer nd) (len nd) (str nd) (u64 n) els);
          _ ← set_parent v l;
          mret (Obj l)
      end
  end.

Definition createIntegerObject (v : task_view nat) (z : Z) : M world (vptr nat) :=
  r ← createReplyObject REDIS_REPLY_INTEGER;
  match r with
  | None => mret Null
  | Some l =>
      nd ← get_node l;
      _ ← put_node l (Reply (type nd) z (len nd) (str nd) (elements nd) (element nd));
      _ ← set_parent v l;
      mret (Obj l)
  end.

Definition createNilObject (v : task_view nat) : M world (vptr nat) :=
  r ← createReplyObject REDIS_REPLY_NIL;
  match r with
  | None => mret Null
  | Some l => _ ← set_parent v l; mret (Obj l)
  end.

Definition defaultFunctions : redisReplyObjectFunctions world nat :=
  Functions (Some createStringObject) (Some createArrayObject)
    (Some createIntegerObject) (Some createNilObject) (Some freeReplyObject).

Definition redisReaderCreate : M world (option (redisReader nat)) :=
  redisReaderCreateWithFunctions.
End replies.
Arguments world : clear implicits.

Definition node_view (h : heap) (l : nat) : option (Z * Z * bytes * list nat) :=
  nd ← h !! l;
  Some (type nd, integer nd, default [] (str nd), omap id (default [] (element nd))).

Example parse_doc :
  match read_reply (Some (defaultFunctions (X := unit)))
          (Reader 0 (replicate 128 NUL) (Some (mk [] [])) 0 0 REDIS_READER_MAX_BUF
             (replicate 9 (Task 0 0 0 Null None 0)) (-1) Null 0)
          [bs "*2" ++ [CR; LF]; bs ":4"; bs "2" ++ [CR; LF]; bs "$3" ++ [CR; LF; "a"%char];
           bs "bc" ++ [CR]; [LF]] (tt, ∅) with
  | Ok (_, st, Obj l, _, (_, h)) =>
      st = 0 ∧ node_view h l = Some (2, 0, [], [1%nat; 2%nat]) ∧
      node_view h 1 = Some (3, 42, [], []) ∧
      node_view h 2 = Some (1, 0, bs "abc" ++ [NUL], [])
  | _ => False
  end.
Proof. vm_compute. done. Qed.

(** ** Trees in the heap *)

(** The node of an item without children. *)
Definition leaf_node (rep : reply) : redisReply :=
  match rep with
  | RStatus s => Reply REDIS_REPLY_STATUS 0 (zlen s) (Some (s ++ [NUL])) 0 None
  | RError s => Reply REDIS_REPLY_ERROR 0 (zlen s) (Some (s ++ [NUL])) 0 None
  | RString s => Reply REDIS_REPLY_STRING 0 (zlen s) (Some (s ++ [NUL])) 0 None
  | RInteger z => Reply REDIS_REPLY_INTEGER z 0 None 0 None
  | RNil | RNilArray | RArray _ => Reply REDIS_REPLY_NIL 0 0 None 0 None
  end.

Definition array_node (els : list (option nat)) : redisReply :=
  Reply REDIS_REPLY_ARRAY 0 0 None (zlen els)
    (match els with [] => None | _ :: _ => Some els end).

(** [tree h l rep D]: the node [l] of [h] is the root of a tree for [rep]
    whose nodes are [D], each of them in one place of the tree. *)
Inductive tree (h : heap) : nat -> reply -> gset nat -> Prop :=
  | tree_leaf l rep :
      (∀ xs, rep ≠ RArray xs) -> h !! l = Some (leaf_node rep) -> tree h l rep {[l]}
  | tree_array l xs ls D :
      h !! l = Some (array_node (map Some ls)) -> trees h ls xs D -> l ∉ D ->
      tree h l (RArray xs) ({[l]} ∪ D)
with trees (h : heap) : list nat -> list reply -> gset nat -> Prop :=
  | trees_nil : trees h [] [] ∅
  | trees_cons l ls x xs D E :
      tree h l x D -> trees h ls xs E -> D ## E -> trees h (l :: ls) (x :: xs) (D ∪ E).

Scheme tree_ind2 := Induction for tree Sort Prop
  with trees_ind2 := Induction for trees Sort Prop.
Combined Scheme tree_trees_ind from tree_ind2, trees_ind2.

(** A tree depends on its own nodes only. *)
Lemma tree_mono h h' :
  (∀ l rep D, tree h l rep D -> (∀ x, x ∈ D -> h' !! x = h !! x) -> tree h' l rep D) ∧
  (∀ ls xs D, trees h ls xs D -> (∀ x, x ∈ D -> h' !! x = h !! x) -> trees h' ls xs D).
Proof.
  apply tree_trees_ind.
  - intros l rep Hrep Hl Heq. constructor; [done|]. rewrite Heq; [done | set_solver].
  - intros l xs ls D Hl _ IH HD Heq.
    apply (tree_array h' l xs ls); [|apply IH; set_solver|done].
    rewrite Heq; [done | set_solver].
  - intros _. constructor.
  - intros l ls x xs D E _ IH1 _ IH2 HDE Heq. constructor; [apply IH1 | apply IH2 | done]; set_solver.
Qed.

Lemma trees_length h ls xs D : trees h ls xs D -> length ls = length xs.
Proof. induction 1; simpl; lia. Qed.

Lemma tree_dom h :
  (∀ l rep D, tree h l rep D -> l ∈ D ∧ D ⊆ dom h) ∧
  (∀ ls xs D, trees h ls xs D -> D ⊆ dom h).
Proof.
  apply tree_trees_ind.
  - intros l rep _ Hl. split; [set_solver|].
    intros x ->%elem_of_singleton. by apply elem_of_dom_2 in Hl.
  - intros l xs ls D Hl _ IH _. split; [set_solver|]. apply elem_of_dom_2 in Hl. set_solver.
  - set_solver.
  - intros l ls x xs D E _ [_ IH1] _ IH2 _. set_solver.
Qed.

(** ** The allocator's state does not show in the heap *)
Section mono.
Context {X : Type} `{!Libc X} (no_oom : ¬ oom X).

Definition same_heap (w w' : world X) : Prop := snd w = snd w'.

#[export] Instance same_heap_alloc : AllocRel same_heap.
Proof.
  split; [|by intros n [x h]]. split; [by intros ?|].
  intros w1 w2 w3. unfold same_heap. congruence.
Qed.

Lemma world_no_oom : ¬ oom (world X).
Proof. intros (n & [x h] & H). apply no_oom. by exists n, x. Qed.

Lemma mono_lift {A} (r : res A) : alloc_mono same_heap (lift (W := world X) r).
Proof. destruct r; [apply alloc_mono_ret | apply alloc_mono_stuck]. Qed.

(** An operation on the heap alone. *)
Ltac heap_op :=
  intros Q [x h] [x' h'] HR HQ; unfold same_heap in HR; cbn in HR; subst h';
  unfold wp, get_node, put_node, new_node, free_node; cbn;
  try match goal with |- context [h !! ?l] => destruct (h !! l); [|done] end;
  by apply HQ.

Lemma mono_get l : alloc_mono same_heap (get_node (X := X) l).
Proof. heap_op. Qed.
Lemma mono_put l nd : alloc_mono same_heap (put_node (X := X) l nd).
Proof. heap_op. Qed.
Lemma mono_new nd : alloc_mono same_heap (new_node (X := X) nd).
Proof. heap_op. Qed.

Lemma mono_free_node l : alloc_mono same_heap (free_node (X := X) l).
Proof. heap_op. Qed.

Lemma mono_free_reply fuel l : alloc_mono same_heap (free_reply (X := X) fuel l).
Proof.
  revert l. induction fuel as [|fuel IH]; intros l; [apply alloc_mono_stuck|].
  cbn [free_reply]. apply alloc_mono_bind; [apply mono_get|]. intros nd.
  apply alloc_mono_bind; [|intros; apply mono_free_node].
  case_bool_decide; [|apply alloc_mono_ret]. destruct (element nd) as [els|]; [|apply alloc_mono_ret].
  revert els. induction (Z.to_nat (elements nd)) as [|n IHn]; intros els;
    [apply (alloc_mono_ret same_heap tt)|].
  destruct els as [|e els]; [apply alloc_mono_stuck|]. cbn [free_elements].
  apply alloc_mono_bind; [destruct e; [apply IH | apply alloc_mono_ret] | auto].
Qed.

Lemma mono_free p : alloc_mono same_heap (freeReplyObject (X := X) p).
Proof.
  intros Q w w' HR HQ. destruct p as [|?|l]; [by apply HQ | done|].
  unfold wp, freeReplyObject. rewrite <- HR. by apply mono_free_reply.
Qed.

Lemma mono_calloc n : 0 ≤ n -> alloc_mono same_heap (c_calloc (W := world X) n).
Proof.
  intros Hn Q w w' HR HQ. unfold wp, c_calloc, c_malloc, mbind, M_bind.
  destruct (malloc n w) as [o w1] eqn:E, (malloc n w') as [o' w1'] eqn:E'.
  destruct o as [b|]; [|exfalso; apply world_no_oom; exists n, w; by rewrite E].
  destruct o' as [b'|]; [|exfalso; apply world_no_oom; exists n, w'; by rewrite E'].
  apply HQ. unfold same_heap in *.
  pose proof (alloc_malloc (R := same_heap) n w) as H1.
  pose proof (alloc_malloc (R := same_heap) n w') as H2.
  rewrite E in H1. rewrite E' in H2. unfold same_heap in H1, H2. cbn in H1, H2. congruence.
Qed.

(** Copying a string and its terminator overwrites all of a fresh block. *)
Lemma copy_fresh (b b' s : bytes) n :
  zlen b = u64 (n + 1) -> zlen b' = u64 (n + 1) ->
  (b1 ← memcpy b 0 s n; store b1 n NUL) = (b1 ← memcpy b' 0 s n; store b1 n NUL).
Proof.
  intros Hb Hb'. unfold memcpy. rewrite Hb, Hb'.
  case_bool_decide as Hc; [|done]. rsimpl. cbn [app take Z.to_nat].
  pose proof (u64_range (n + 1)).
  assert (u64 (n + 1) = n + 1) as Hu.
  { destruct (decide (n + 1 = 2 ^ 64)) as [E|]; [|apply u64_small; lia].
    rewrite E in Hc. change (u64 (2 ^ 64)) with 0 in Hc. lia. }
  rewrite Hu in Hb, Hb'. change (Z.to_nat 0) with O. rewrite !take_0. cbn [app].
  assert (∀ d : bytes, zlen d = n + 1 -> ∃ y, drop (Z.to_nat (0 + n)) d = [y]) as Hd.
  { intros d Hd. destruct (drop (Z.to_nat (0 + n)) d) as [|y [|z k]] eqn:E;
      apply (f_equal length) in E; rewrite length_drop in E; cbn [length] in E;
      unfold zlen in Hd; try lia. by exists y. }
  destruct (Hd b Hb) as [y ->], (Hd b' Hb') as [z ->].
  rewrite !store_app by (rewrite zlen_take; lia). done.
Qed.

Lemma mono_create ty : alloc_mono same_heap (createReplyObject (X := X) ty).
Proof.
  apply alloc_mono_bind; [by apply mono_calloc|]. intros [b|]; [|apply alloc_mono_ret].
  apply alloc_mono_bind; [apply mono_new | intros; apply alloc_mono_ret].
Qed.

Lemma mono_set_parent v l : alloc_mono same_heap (set_parent (X := X) v l).
Proof.
  unfold set_parent. destruct (tv_parent v) as [[|?|p]|];
    [apply alloc_mono_stuck | apply alloc_mono_stuck | | apply alloc_mono_ret].
  apply alloc_mono_bind; [apply mono_get|]. intros nd.
  apply alloc_mono_bind; [apply alloc_mono_massert|]. intros _.
  apply alloc_mono_bind; [apply mono_lift|]. intros els.
  apply alloc_mono_bind; [case_bool_decide; [apply alloc_mono_ret | apply alloc_mono_stuck]|].
  intros. apply mono_put.
Qed.

(** The part of [createStringObject] after the node is made. *)
Lemma mono_string v s n l :
  0 ≤ u64 (n + 1) ->
  alloc_mono same_heap (buf ← c_malloc (W := world X) (u64 (n + 1));
    match buf with
    | None => _ ← freeReplyObject (Obj l); mret Null
    | Some buf =>
        _ ← massert (bool_decide (tv_type v = REDIS_REPLY_ERROR
               ∨ tv_type v = REDIS_REPLY_STATUS ∨ tv_type v = REDIS_REPLY_STRING));
        buf ← lift (memcpy buf 0 s n);
        buf ← lift (store buf n NUL);
        nd ← get_node l;
        _ ← put_node l (Reply (type nd) (integer nd) (i32 n) (Some buf)
                          (elements nd) (element nd));
        _ ← set_parent v l;
        mret (Obj l)
    end).
Proof.
  intros Hn Q w w' HR HQ. unfold wp at 1, c_malloc, mbind at 1, M_bind at 1.
  destruct (malloc (u64 (n + 1)) w) as [[b|] w1] eqn:E;
    [|exfalso; apply world_no_oom; exists (u64 (n + 1)), w; by rewrite E].
  intros Hwp. unfold wp, mbind at 1, M_bind at 1.
  destruct (malloc (u64 (n + 1)) w') as [[b'|] w1'] eqn:E';
    [|exfalso; apply world_no_oom; exists (u64 (n + 1)), w'; by rewrite E'].
  apply malloc_zlen in E as Hb; [|done]. apply malloc_zlen in E' as Hb'; [|done].
  assert (same_heap w1 w1') as HR1.
  { pose proof (alloc_malloc (R := same_heap) (u64 (n + 1)) w) as H1.
    pose proof (alloc_malloc (R := same_heap) (u64 (n + 1)) w') as H2.
    rewrite E in H1. rewrite E' in H2. unfold same_heap in *. cbn in *. congruence. }
  revert Hwp. destruct (bool_decide _); [|done].
  pose proof (copy_fresh b b' s n Hb Hb') as Hcopy.
  unfold mbind, M_bind, massert, mret, M_ret, lift in *. unfold res_bind in Hcopy.
  destruct (memcpy b 0 s n) as [c|], (memcpy b' 0 s n) as [c'|]; try done.
  - rewrite Hcopy. destruct (store c' n NUL) as [c2|]; [|done].
    assert (alloc_mono same_heap (nd ← get_node (X := X) l;
      _ ← put_node l (Reply (type nd) (integer nd) (i32 n) (Some c2) (elements nd) (element nd));
      _ ← set_parent v l; mret (Obj l))) as Hm.
    { apply alloc_mono_bind; [apply mono_get|]. intros nd.
      apply alloc_mono_bind; [apply mono_put|]. intros _.
      apply alloc_mono_bind; [apply mono_set_parent | intros; apply alloc_mono_ret]. }
    intros Hwp. exact (Hm Q w1 w1' HR1 HQ Hwp).
  - by rewrite Hcopy.
Qed.

Lemma default_item_mono v rep :
  alloc_mono same_heap (build_item (Some (defaultFunctions (X := X))) v rep).
Proof.
  assert (∀ s, alloc_mono same_heap (createStringObject (X := X) v s (zlen s))) as Hstr.
  { intros s. apply alloc_mono_bind; [apply mono_create|].
    intros [l|]; [|apply alloc_mono_ret]. apply mono_string. apply u64_range. }
  assert (alloc_mono same_heap (createNilObject (X := X) v)) as Hnil.
  { apply alloc_mono_bind; [apply mono_create|]. intros [l|]; [|apply alloc_mono_ret].
    apply alloc_mono_bind; [apply mono_set_parent | intros; apply alloc_mono_ret]. }
  destruct rep as [s|s|z|s| | |xs]; cbn [build_item];
    unfold new_string, new_integer, new_nil, new_array; cbn [mbind option_bind];
    cbn [createString createInteger createNil createArray defaultFunctions]; auto.
  - apply alloc_mono_bind; [apply mono_create|]. intros [l|]; [|apply alloc_mono_ret].
    apply alloc_mono_bind; [apply mono_get|]. intros nd.
    apply alloc_mono_bind; [apply mono_put|]. intros _.
    apply alloc_mono_bind; [apply mono_set_parent | intros; apply alloc_mono_ret].
  - apply alloc_mono_bind; [apply mono_create|]. intros [l|]; [|apply alloc_mono_ret].
    apply alloc_mono_bind.
    { case_bool_decide; [|apply alloc_mono_ret].
      apply alloc_mono_bind; [apply mono_calloc; lia | intros; apply alloc_mono_ret]. }
    intros els. destruct els as [els|].
    + apply alloc_mono_bind; [apply mono_get|]. intros nd.
      apply alloc_mono_bind; [apply mono_put|]. intros _.
      apply alloc_mono_bind; [apply mono_set_parent | intros; apply alloc_mono_ret].
    + apply alloc_mono_bind; [apply mono_free | intros; apply alloc_mono_ret].
Qed.

Lemma default_string_len v p n w :
  0 ≤ n ≤ zlen p ->
  new_string (Some (defaultFunctions (X := X))) v p n w
  = new_string (Some defaultFunctions) v (take (Z.to_nat n) p) n w.
Proof.
  intros Hn. unfold new_string. cbn [mbind option_bind createString defaultFunctions].
  unfold createStringObject.
  assert (∀ b : bytes, memcpy b 0 p n = memcpy b 0 (take (Z.to_nat n) p) n) as Hcp.
  { intros b. unfold memcpy. rewrite zlen_take by done. rewrite take_take, Nat.min_id.
    erewrite bool_decide_ext; [done|]. lia. }
  unfold mbind, M_bind, lift.
  destruct (createReplyObject (tv_type v) w) as [[[l|] w1]|]; [|done..].
  destruct (c_malloc (u64 (n + 1)) w1) as [[[b|] w2]|]; [|done..].
  by rewrite Hcp.
Qed.
End mono.

(** ** The default functions build the tree of the reply *)

(** The parent array has a place for the item. *)
Definition parent_ok (h : heap) (parent : option (vptr nat)) (idx : Z) : Prop :=
  match parent with
  | None => True
  | Some p => ∃ q nd els, p = Obj q ∧ h !! q = Some nd ∧ type nd = REDIS_REPLY_ARRAY ∧
                element nd = Some els ∧ 0 ≤ idx < zlen els
  end.

Definition set_elem (i : Z) (l : nat) (nd : redisReply) : redisReply :=
  Reply (type nd) (integer nd) (len nd) (str nd) (elements nd)
    (Some (<[Z.to_nat i := Some l]> (default [] (element nd)))).

(** The heap after the item [l] is written in its parent. *)
Definition link (h : heap) (parent : option (vptr nat)) (idx : Z) (l : nat) : heap :=
  match parent with Some (Obj q) => alter (set_elem idx l) q h | _ => h end.

Definition item_node (rep : reply) : redisReply :=
  match rep with
  | RArray xs => array_node (replicate (length xs) None)
  | _ => leaf_node rep
  end.

Lemma link_dom h parent idx l : dom (link h parent idx l) = dom h.
Proof. destruct parent as [[]|]; try done. apply dom_alter_L. Qed.

Lemma link_insert h parent idx l nd :
  l ∉ dom h -> parent_ok h parent idx ->
  link (<[l := nd]> h) parent idx l = <[l := nd]> (link h parent idx l).
Proof.
  intros Hl Hp. destruct parent as [p|]; [|done].
  destruct Hp as (q & nd' & els & -> & Hq & _). cbn [link].
  apply alter_insert_ne. intros ->. by apply elem_of_dom_2 in Hq.
Qed.

Section build_spec.
Context {X : Type} `{!Libc X} (no_oom : ¬ oom X) (pd : Z).
#[local] Abbreviation fns := (Some (defaultFunctions (X := X))).

Lemma set_parent_ok v l x h :
  parent_ok h (tv_parent v) (tv_idx v) ->
  set_parent (X := X) v l (x, h) = Ok (tt, (x, link h (tv_parent v) (tv_idx v) l)).
Proof.
  unfold set_parent. destruct (tv_parent v) as [p|]; [|done].
  intros (q & nd & els & -> & Hq & Ht & He & Hi).
  unfold mbind, M_bind, get_node, massert, lift. cbn [snd]. rewrite Hq, Ht.
  rewrite bool_decide_true by done. rewrite He. cbn [deref mret M_ret].
  rewrite bool_decide_true by done. unfold put_node. cbn [snd fst mret M_ret]. rewrite Hq.
  do 3 f_equal. cbn [link]. apply map_eq. intros k.
  destruct (decide (k = q)) as [->|Hk].
  - rewrite lookup_insert_eq, lookup_alter_eq, Hq. cbn. unfold set_elem. by rewrite Ht, He.
  - by rewrite lookup_insert_ne, lookup_alter_ne.
Qed.

Lemma createReplyObject_wp ty x h :
  wp (createReplyObject (X := X) ty) (λ o w, ∃ l x', o = Some l ∧ (l ∉ dom h) ∧
    w = (x', <[l := Reply ty 0 0 None 0 None]> h)) (x, h).
Proof.
  unfold createReplyObject. wp_step. eapply wp_mono.
  { apply (wp_alloc_only same_heap (c_calloc REPLY_SIZE) (λ o _, o ≠ None)).
    - unfold c_calloc. alloc.
    - apply wp_calloc; [done | intros ? Ho; by apply world_no_oom in Ho | done]. }
  intros [b|] [x' h'] [Hb HR]; [|done]. unfold same_heap in HR. cbn in HR. subst h'.
  exists (fresh (dom h)), x'. split_and!; [done | apply is_fresh | done].
Qed.

(** The common end of the creation functions: fill the node, link it. *)
Lemma fill_link v l nd x h :
  l ∉ dom h -> parent_ok h (tv_parent v) (tv_idx v) ->
  set_parent (X := X) v l (x, <[l := nd]> h)
  = Ok (tt, (x, <[l := nd]> (link h (tv_parent v) (tv_idx v) l))).
Proof.
  intros Hl Hp. rewrite set_parent_ok; [by rewrite link_insert|].
  destruct (tv_parent v) as [p|]; [|done].
  destruct Hp as (q & nd' & els & -> & Hq & Hrest). exists q, nd', els.
  split; [done|]. split; [|done]. rewrite lookup_insert_ne; [done|].
  intros ->. by apply elem_of_dom_2 in Hq.
Qed.

Definition made_item (v : task_view nat) (rep : reply) (h : heap) (o : vptr nat)
    (w : world X) : Prop :=
  ∃ l, o = Obj l ∧ (l ∉ dom h) ∧
    snd w = <[l := item_node rep]> (link h (tv_parent v) (tv_idx v) l).

Lemma create_string_wp v rep s x h :
  rep = RStatus s ∨ rep = RError s ∨ rep = RString s -> tv_type v = type_code rep ->
  parent_ok h (tv_parent v) (tv_idx v) -> zlen s < 2 ^ 31 ->
  wp (createStringObject (X := X) v s (zlen s)) (made_item v rep h) (x, h).
Proof.
  intros Hrep Htv Hp Hs. unfold createStringObject. wp_step.
  eapply wp_mono; [apply createReplyObject_wp|]. intros o w (l & x' & -> & Hl & ->).
  wp_step. rewrite u64_small by zl.
  eapply wp_mono.
  { apply (wp_alloc_only same_heap (c_malloc (zlen s + 1))
      (λ o _, ∃ b, o = Some b ∧ zlen b = zlen s + 1)).
    - alloc.
    - apply wp_malloc; [zl | intros ? Ho; by apply world_no_oom in Ho |]. intros b w' Hb. by exists b. }
  intros o [x2 h2] [(b & -> & Hb) HR]. unfold same_heap in HR. cbn in HR. subst h2.
  rewrite Htv. rewrite bool_decide_true by (destruct Hrep as [->|[->| ->]]; auto). wp_steps.
  destruct (split_zlen b (zlen s)) as (b1 & b2 & -> & Hb1); [zl|].
  destruct b2 as [|y [|z b2]]; [zl| |zl].
  pose proof (memcpy_app [] b1 [y] s 0 (zlen s) eq_refl ltac:(lia) ltac:(lia)) as Em.
  cbn [app] in Em. eapply wp_lift_ok; [exact Em|].
  rewrite zlen_to_nat, take_ge by done. wp_step.
  eapply wp_lift_ok; [by apply store_app|]. unfold wp, mbind, M_bind, get_node, put_node.
  cbn [snd fst]. rewrite lookup_insert_eq. cbn [snd fst]. rewrite lookup_insert_eq.
  cbn [type integer len str elements element].
  rewrite insert_insert_eq, fill_link by done.
  exists l. split_and!; [done | done |]. cbn [snd]. f_equal.
  rewrite i32_small by zl. by destruct Hrep as [->|[->| ->]].
Qed.

Lemma build_item_wp v rep x h :
  tv_type v = type_code rep -> parent_ok h (tv_parent v) (tv_idx v) ->
  wf rep -> zlen (body rep) < 2 ^ 31 ->
  wp (build_item fns v rep) (made_item v rep h) (x, h).
Proof.
  intros Htv Hp Hwf Hs. destruct rep as [s|s|z|s| | |xs]; cbn [build_item];
    unfold new_string, new_integer, new_nil, new_array; cbn [mbind option_bind];
    cbn [createString createInteger createNil createArray defaultFunctions];
    cbn [body] in Hs; unfold crlf in Hs.
  - apply create_string_wp; auto. zl.
  - apply create_string_wp; auto. zl.
  - unfold createIntegerObject. wp_step.
    eapply wp_mono; [apply createReplyObject_wp|]. intros o w (l & x' & -> & Hl & ->).
    unfold wp, mbind, M_bind, get_node, put_node. cbn [snd fst]. rewrite lookup_insert_eq.
    cbn [snd fst]. rewrite lookup_insert_eq. cbn [type integer len str elements element].
    rewrite insert_insert_eq, fill_link by done. by exists l.
  - apply create_string_wp; auto. zl.
  - unfold createNilObject. wp_step.
    eapply wp_mono; [apply createReplyObject_wp|]. intros o w (l & x' & -> & Hl & ->).
    unfold wp, mbind, M_bind. rewrite fill_link by done. by exists l.
  - unfold createNilObject. wp_step.
    eapply wp_mono; [apply createReplyObject_wp|]. intros o w (l & x' & -> & Hl & ->).
    unfold wp, mbind, M_bind. rewrite fill_link by done. by exists l.
  - unfold createArrayObject. wp_step. apply wf_array in Hwf as [Hlen _].
    eapply wp_mono; [apply createReplyObject_wp|]. intros o w (l & x' & -> & Hl & ->).
    set (els := match xs with [] => None | _ => Some (replicate (length xs) (None : option nat)) end).
    wp_step. apply wp_mono with (λ o w, o = Some els ∧
      snd w = <[l := Reply REDIS_REPLY_ARRAY 0 0 None 0 None]> h).
    { destruct xs as [|y xs].
      - rewrite bool_decide_false by done. by wp_steps.
      - rewrite bool_decide_true by zl. wp_step. eapply wp_mono.
        { apply (wp_alloc_only same_heap (c_calloc (zlen (y :: xs) * 8)) (λ o _, o ≠ None)).
          - unfold c_calloc. alloc.
          - apply wp_calloc; [zl | intros ? Ho; by apply world_no_oom in Ho | done]. }
        intros [b|] [x2 h2] [Hb HR]; [|done]. unfold same_heap in HR. cbn in HR. subst h2.
        wp_steps. split; [|done]. unfold els. by rewrite zlen_to_nat. }
    intros o [x2 h2] [-> Hh2]. cbn in Hh2. subst h2.
    unfold wp, mbind, M_bind, get_node, put_node. cbn [snd fst]. rewrite lookup_insert_eq.
    cbn [snd fst]. rewrite lookup_insert_eq. cbn [type integer len str elements element].
    rewrite insert_insert_eq, fill_link by done. exists l. split_and!; [done|done|].
    cbn [snd]. f_equal. unfold item_node, array_node. rewrite u64_small by zl.
    rewrite zlen_replicate. fold (zlen xs). f_equal. subst els. by destruct xs.
Qed.

(** Writing consecutive elements. *)
Fixpoint set_elems (i : Z) (ls : list nat) (nd : redisReply) : redisReply :=
  match ls with
  | [] => nd
  | l :: ls' => set_elems (i + 1) ls' (set_elem i l nd)
  end.

Lemma set_elems_array ls dn rest :
  length rest = length ls -> dn ++ rest ≠ [] ->
  set_elems (zlen dn) ls (array_node (dn ++ rest)) = array_node (dn ++ map Some ls).
Proof.
  revert dn rest. induction ls as [|l ls IH]; intros dn rest Hl Hne.
  { destruct rest; [|done]. done. }
  destruct rest as [|y rest]; [done|]. cbn [set_elems].
  replace (set_elem (zlen dn) l (array_node (dn ++ y :: rest)))
    with (array_node ((dn ++ [Some l]) ++ rest)).
  - replace (zlen dn + 1) with (zlen (dn ++ [Some l])) by zl.
    rewrite IH; [by rewrite <- app_assoc | by injection Hl | by destruct dn].
  - unfold array_node, set_elem. cbn [type integer len str elements element].
    assert (default [] (match dn ++ y :: rest with [] => None | _ :: _ => Some (dn ++ y :: rest) end)
            = dn ++ y :: rest) as -> by (by destruct dn).
    rewrite zlen_to_nat, insert_app_r_alt, Nat.sub_diag by lia. cbn.
    rewrite <- app_assoc. cbn [app]. f_equal; [zl|]. by destruct dn.
Qed.

Lemma alter_compose_elems (h : heap) q i l ls :
  alter (set_elems (i + 1) ls) q (alter (set_elem i l) q h) = alter (set_elems i (l :: ls)) q h.
Proof.
  apply map_eq. intros k. destruct (decide (k = q)) as [->|Hk].
  - rewrite !lookup_alter_eq. by destruct (h !! q).
  - by rewrite !lookup_alter_ne.
Qed.

Definition built (parent : option (vptr nat)) (idx : Z) (rep : reply) (h : heap)
    (o : vptr nat) (w : world X) : Prop :=
  ∃ l D hn, o = Obj l ∧ tree hn l rep D ∧ dom hn = D ∧ D ## dom h ∧
    snd w = hn ∪ link h parent idx l.

Lemma set_elem_ok nd els i l :
  type nd = REDIS_REPLY_ARRAY -> element nd = Some els ->
  type (set_elem i l nd) = REDIS_REPLY_ARRAY ∧
  element (set_elem i l nd) = Some (<[Z.to_nat i := Some l]> els).
Proof. intros Ht He. unfold set_elem. cbn. by rewrite He. Qed.

(** The children of the array [q]. *)
Lemma build_list_wp xs q i x h nd els :
  Forall (λ rep, ∀ parent idx x h, parent_ok h parent idx ->
    wp (build fns pd parent idx rep) (built parent idx rep h) (x, h)) xs ->
  h !! q = Some nd -> type nd = REDIS_REPLY_ARRAY -> element nd = Some els ->
  0 ≤ i -> i + zlen xs ≤ zlen els ->
  wp (build_list fns pd (Obj q) i xs) (λ _ w, ∃ ls D hn, trees hn ls xs D ∧ dom hn = D ∧
    D ## dom h ∧ snd w = hn ∪ alter (set_elems i ls) q h) (x, h).
Proof.
  intros Hxs. revert i x h nd els. induction Hxs as [|rep xs Hrep Hxs IH];
    intros i x h nd els Hq Ht He Hi Hle; cbn [build_list].
  { wp_steps. exists [], ∅, ∅. split_and!; [constructor | by rewrite dom_empty_L | set_solver |].
    rewrite map_empty_union. symmetry. apply map_eq. intros k. 
    destruct (decide (k = q)) as [->|]; [rewrite lookup_alter_eq, Hq; done|].
    by rewrite lookup_alter_ne. }
  rewrite zlen_cons in Hle. wp_step. eapply wp_mono.
  { apply Hrep. exists q, nd, els. split_and!; try done; zl. }
  intros o [x1 h1] (l & D & hn & -> & Htree & Hdom & HD & Hh1). cbn [snd link] in Hh1. subst h1.
  assert (hn !! q = None) as Hnq.
  { apply not_elem_of_dom. rewrite Hdom. apply elem_of_dom_2 in Hq. set_solver. }
  assert ((hn ∪ alter (set_elem i l) q h) !! q = Some (set_elem i l nd)) as Hq1.
  { rewrite lookup_union_r by done. by rewrite lookup_alter_eq, Hq. }
  destruct (set_elem_ok nd els i l Ht He) as (Ht1 & He1).
  eapply wp_mono.
  { eapply (IH (i + 1) x1 _ _ _ Hq1 Ht1 He1); [lia|].
    unfold zlen in *. rewrite length_insert. lia. }
  intros [] [x2 h2] (ls & E & hm & Htrees & HdomE & HE & Hh2). cbn [snd] in *. subst h2.
  rewrite dom_union_L, dom_alter_L, Hdom in HE.
  assert (hn ##ₘ hm) as Hdis by (apply map_disjoint_dom_2; set_solver).
  exists (l :: ls), (D ∪ E), (hn ∪ hm). split_and!.
  - constructor; [| |set_solver].
    + eapply tree_mono; [exact Htree|]. intros k Hk. rewrite lookup_union_l; [done|].
      apply not_elem_of_dom. set_solver.
    + eapply tree_mono; [exact Htrees|]. intros k Hk. rewrite lookup_union_r; [done|].
      apply not_elem_of_dom. set_solver.
  - rewrite dom_union_L. by rewrite Hdom, HdomE.
  - set_solver.
  - rewrite <- alter_compose_elems. apply map_eq. intros k.
    destruct (decide (k = q)) as [->|Hk].
    + assert (hm !! q = None) as Hmq.
      { apply not_elem_of_dom. apply elem_of_dom_2 in Hq. set_solver. }
      rewrite lookup_union_r, lookup_alter_eq, lookup_union_r by done.
      rewrite (lookup_union_r (hn ∪ hm)) by (by rewrite lookup_union, Hnq, Hmq).
      by rewrite (lookup_alter_eq (set_elems (i + 1) ls)).
    + rewrite !lookup_union, !lookup_alter_ne, lookup_union, lookup_alter_ne by done.
      destruct (hn !! k) eqn:E1, (hm !! k) eqn:E2;
        [exfalso; by eapply map_disjoint_spec | by destruct (h !! k)..].
Qed.

Lemma encode_list_forall l :
  zlen (encode_list l) < 2 ^ 31 -> Forall (λ x, zlen (body x) < 2 ^ 31) l.
Proof.
  induction l as [|x l IH]; [constructor|]. unfold encode_list. cbn [map concat].
  unfold encode at 1. cbn [app]. fold (encode_list l). intros H.
  constructor; [zl | apply IH; zl].
Qed.

(** The builder, with the default functions, makes the tree of the reply
    in new nodes and links it to its parent. *)
Lemma build_wp : ∀ rep, wf rep -> zlen (body rep) < 2 ^ 31 ->
  ∀ parent idx x h, parent_ok h parent idx ->
  wp (build fns pd parent idx rep) (built parent idx rep h) (x, h).
Proof.
  fix IH 1. intros rep Hwf Hlen parent idx x h Hp.
  unfold wp. rewrite build_unfold. apply wp_bind. unfold made. wp_step.
  eapply wp_mono; [by apply build_item_wp|].
  intros o [x1 h1] (l & -> & Hl & Hh1). cbn [snd tv_parent tv_idx] in Hh1. subst h1.
  wp_step. apply wp_massert; [done|]. wp_steps.
  assert (∀ nd, (l ∉ dom (link h parent idx l)) ∧
    <[l := nd]> (link h parent idx l) = {[l := nd]} ∪ link h parent idx l) as Hins.
  { intros nd. rewrite link_dom. split; [done|]. by rewrite insert_union_singleton_l. }
  destruct rep as [s|s|z|s| | |xs]; try (
    wp_steps; unfold built; exists l, {[l]}; eexists; split_and!;
    [ done
    | constructor; [done | apply lookup_singleton_eq]
    | apply dom_singleton_L
    | set_solver
    | cbn [snd item_node]; by rewrite (proj2 (Hins _)) ]).
  (* an array: its children *)
  rewrite body_array in Hlen. unfold crlf in Hlen. rewrite zlen_app in Hlen.
  apply wf_array in Hwf as [Hxs Hwf].
  assert (Forall (λ x, zlen (body x) < 2 ^ 31) xs) as Hsmall.
  { apply encode_list_forall. zl. }
  assert (Forall (λ rep, ∀ parent idx x h, parent_ok h parent idx ->
    wp (build fns pd parent idx rep) (built parent idx rep h) (x, h)) xs) as Hbuild.
  { clear Hlen Hxs Hp Hl Hins. induction xs as [|y ys IHys]; [constructor|].
    inversion Hwf; inversion Hsmall; subst. constructor; [by apply IH | by apply IHys]. }
  clear IH. destruct xs as [|y ys].
  { wp_steps. unfold built. exists l, ({[l]} ∪ ∅). eexists. split_and!.
    - done.
    - apply (tree_array _ l [] []); [apply lookup_singleton_eq | constructor | set_solver].
    - rewrite dom_singleton_L. set_solver.
    - set_solver.
    - cbn [snd item_node]. by rewrite (proj2 (Hins _)). }
  wp_step. eapply wp_mono.
  { eapply (build_list_wp (y :: ys) l 0); [done | apply lookup_insert_eq | done | done | done |].
    unfold zlen. rewrite length_replicate. lia. }
  intros [] [x2 h2] (ls & D & hn & Htrees & Hdom & HD & Hh2). cbn [snd] in *. subst h2.
  wp_steps. cbn [item_node] in *.
  set (nd := array_node (replicate (length (y :: ys)) None)) in *.
  rewrite dom_insert_L, link_dom in HD.
  pose proof (trees_length _ _ _ _ Htrees) as Hll.
  assert (set_elems 0 ls nd = array_node (map Some ls)) as Hset.
  { apply (set_elems_array ls [] (replicate (length (y :: ys)) None)); [|done].
    by rewrite length_replicate. }
  exists l, ({[l]} ∪ D), ({[l := array_node (map Some ls)]} ∪ hn). split_and!.
  - done.
  - apply (tree_array _ l (y :: ys) ls).
    + by rewrite lookup_union, lookup_singleton_eq, union_Some_l.
    + eapply tree_mono; [exact Htrees|]. intros k Hk. rewrite lookup_union_r; [done|].
      apply lookup_singleton_ne. set_solver.
    + set_solver.
  - by rewrite dom_union_L, dom_singleton_L, Hdom.
  - set_solver.
  - cbn [snd]. assert (hn !! l = None) as Hnl by (apply not_elem_of_dom; set_solver).
    apply map_eq. intros k. destruct (decide (k = l)) as [->|Hk].
    + rewrite lookup_union_r, lookup_alter_eq, lookup_insert_eq by done. cbn. rewrite Hset.
      symmetry. apply lookup_union_Some_l. by rewrite lookup_union, lookup_singleton_eq, union_Some_l.
    + rewrite !lookup_union, lookup_alter_ne, lookup_insert_ne by done.
      rewrite lookup_singleton_ne by done. by destruct (hn !! k), (link h parent idx l !! k).
Qed.
End build_spec.

(** ** Freeing a tree deletes its nodes, each once, and no others *)
Section free_spec.
Context {X : Type} `{!Libc X}.

Definition without (D : gset nat) (h h' : heap) : Prop :=
  ∀ k, h' !! k = if decide (k ∈ D) then None else h !! k.

Lemma free_tree_ok h :
  (∀ l rep D, tree h l rep D -> ∀ fuel (x : X) h',
     (∀ k, k ∈ D -> h' !! k = h !! k) -> (size D ≤ fuel)%nat ->
     ∃ h2, free_reply fuel l (x, h') = Ok (tt, (x, h2)) ∧ without D h' h2) ∧
  (∀ ls xs D, trees h ls xs D -> ∀ fuel (x : X) h',
     (∀ k, k ∈ D -> h' !! k = h !! k) -> (size D ≤ fuel)%nat ->
     ∃ h2, free_elements (free_reply fuel) (map Some ls) (length ls) (x, h')
           = Ok (tt, (x, h2)) ∧ without D h' h2).
Proof.
  apply tree_trees_ind.
  - intros l rep Hrep Hl fuel x h' Heq Hf.
    destruct fuel as [|fuel]; [rewrite size_singleton in Hf; lia|].
    cbn [free_reply]. unfold mbind, M_bind, get_node, free_node. cbn [snd fst].
    rewrite Heq, Hl by set_solver.
    rewrite bool_decide_false by (destruct rep; try done; by eapply Hrep).
    cbn [mret M_ret snd fst]. rewrite Heq, Hl by set_solver.
    eexists. split; [done|]. intros k. case_decide as Hk.
    + apply elem_of_singleton in Hk as ->. apply lookup_delete_eq.
    + apply lookup_delete_ne. set_solver.
  - intros l xs ls D Hl Htrees IH HlD fuel x h' Heq Hf.
    rewrite size_union, size_singleton in Hf by set_solver.
    destruct fuel as [|fuel]; [lia|].
    cbn [free_reply]. unfold mbind, M_bind, get_node, free_node. cbn [snd fst].
    rewrite Heq, Hl by set_solver. cbn [array_node type]. rewrite bool_decide_true by done.
    assert (∃ h2, (match element (array_node (map Some ls)) with
      | Some els => free_elements (free_reply fuel) els
                      (Z.to_nat (elements (array_node (map Some ls))))
      | None => mret tt end) (x, h') = Ok (tt, (x, h2)) ∧ without D h' h2) as (h2 & E & H2).
    { destruct ls as [|l' ls].
      - inversion Htrees; subst. exists h'. split; [done|]. intros k.
        by rewrite decide_False by set_solver.
      - cbn [array_node element elements]. rewrite zlen_to_nat, length_map.
        apply IH; [|lia]. intros k Hk. apply Heq. set_solver. }
    rewrite E. cbn [snd fst]. rewrite H2, decide_False, Heq, Hl by set_solver.
    eexists. split; [done|]. intros k. destruct (decide (k = l)) as [->|Hk].
    + by rewrite lookup_delete_eq, decide_True by set_solver.
    + rewrite lookup_delete_ne, H2 by done. apply decide_ext. set_solver.
  - intros fuel x h' _ _. exists h'. split; [done|]. intros k.
    by rewrite decide_False by set_solver.
  - intros l ls y xs D E Hl IHl Hls IHls HDE fuel x h' Heq Hf.
    rewrite size_union in Hf by done. cbn [map length free_elements].
    destruct (IHl fuel x h') as (h1 & E1 & H1); [intros k Hk; apply Heq; set_solver | lia |].
    unfold mbind, M_bind. rewrite E1.
    destruct (IHls fuel x h1) as (h2 & E2 & H2); [|lia|].
    { intros k Hk. rewrite H1, decide_False by set_solver. apply Heq. set_solver. }
    exists h2. split; [exact E2|]. intros k. rewrite H2, H1.
    repeat case_decide; try done; set_solver.
Qed.

Lemma freeReplyObject_ok h hn l rep D (x : X) :
  tree hn l rep D -> dom hn = D -> D ## dom h ->
  freeReplyObject (Obj l) (x, hn ∪ h) = Ok (tt, (x, h)).
Proof.
  intros Ht Hdom HD. cbn [freeReplyObject snd].
  destruct (proj1 (free_tree_ok hn) l rep D Ht (S (size (hn ∪ h))) x (hn ∪ h)) as (h2 & -> & H2).
  - intros k Hk. apply lookup_union_l. apply not_elem_of_dom. set_solver.
  - rewrite <- Hdom, size_dom. 
    rewrite map_size_disj_union; [lia|]. apply map_disjoint_dom_2. set_solver.
  - do 3 f_equal. apply map_eq. intros k. rewrite H2. case_decide as Hk.
    + symmetry. apply not_elem_of_dom. set_solver.
    + apply lookup_union_r, not_elem_of_dom. set_solver.
Qed.
End free_spec.

(** ** The reader with the default functions *)
Section default_reader.
Context {X : Type} `{!Libc X} (no_oom : ¬ oom X).
#[local] Abbreviation fns := (Some (defaultFunctions (X := X))).

(** The object returned is the tree of the reply, in nodes added to [h]. *)
Definition reply_in (h : heap) (rep : reply) (o : vptr nat) (w : world X) : Prop :=
  ∃ l D hn, o = Obj l ∧ tree hn l rep D ∧ dom hn = D ∧ D ## dom h ∧ snd w = hn ∪ h.

Lemma read_reply_default r un rep chunks extra x h :
  between 0 r un -> un = [] -> wf rep -> (depth rep ≤ 8)%nat ->
  zlen (encode rep) < 2 ^ 29 -> Forall (λ c, zlen c < 2 ^ 29) chunks ->
  concat chunks = encode rep ++ extra ->
  wp (read_reply fns r chunks) (λ '(r', st, o, cs) w',
    st = REDIS_OK ∧ reply_in h rep o w' ∧
    ∃ un', between 0 r' un' ∧ un' ++ concat cs = extra) (x, h).
Proof.
  intros Hb -> Hwf Hd Hlen Hcs Hcat. eapply wp_mono.
  { apply (read_reply_ok (world_no_oom no_oom) fns 0 same_heap)
      with (Q := reply_in h rep) (S := encode rep) (un := []) (t := encode rep); try done.
    - intros. by apply default_string_len.
    - intros. by apply default_item_mono.
    - intros o w1 w2 HR (l & D & hn & ?). unfold same_heap in HR. unfold reply_in.
      rewrite <- HR. by exists l, D, hn.
    - apply awaits_between; try done. eapply wp_mono.
      + apply (build_wp no_oom 0 rep Hwf); [unfold encode in Hlen; zl | done].
      + done. }
  intros [[[r' st] o] cs] w' (-> & _ & HQ & Hun). done.
Qed.
End default_reader.
