(* ===== verification/Command.v ===== *)
(** * Command: formatting commands (hiredis.c, lines 190-570)

    The three ways the client encodes a command: from a printf-like format,
    and from an argument vector into a malloc'ed block or into an sds.  All
    of them compute the length first and assert it after writing. *)

From Stdlib Require Import ZArith Lia Ascii.
From stdpp Require Import base list strings gmap numbers.
From S2P Require Import Prelude Libc Printf Sds SdsText SdsFormat Reader Resp.

Fixpoint count_digits (fuel : nat) (v result : Z) : res Z :=
  match fuel with
  | O => Stuck
  | S fuel' =>
      if bool_decide (v < 10) then Ok result
      else if bool_decide (v < 100) then Ok (u32 (result + 1))
      else if bool_decide (v < 1000) then Ok (u32 (result + 2))
      else if bool_decide (v < 10000) then Ok (u32 (result + 3))
      else count_digits fuel' (v / 10000) (u32 (result + 4))
  end.

(** Six rounds are enough for a 64-bit number. *)
Definition countDigits (v : Z) : res Z := count_digits 6 v 1.

Definition bulklen (len : Z) : res Z :=
  d ← countDigits len; mret (u64 (1 + d + 2 + len + 2)).

(** ** The scanner of printf-like conversions *)

(** [while( *_p != '\0' && strchr(flags,*_p) != NULL) _p++;] *)
Fixpoint skip_flags (p : bytes) : res bytes :=
  match p with
  | [] => Stuck
  | c :: p' =>
      if decide (c = NUL) then Ok p else
      b ← strchr (cstr "#0-+ ") c;
      if (b : bool) then skip_flags p' else Ok p
  end.

Fixpoint skip_digits (p : bytes) : res bytes :=
  match p with
  | [] => Stuck
  | c :: p' =>
      if decide (c = NUL) then Ok p else
      if isdigit c then skip_digits p' else Ok p
  end.

(** The promoted argument types of [va_arg]. *)
Definition va_int (ap : list varg) : res (list varg) :=
  match ap with VInt _ :: ap' | VUInt _ :: ap' => Ok ap' | _ => Stuck end.
Definition va_long (ap : list varg) : res (list varg) :=
  match ap with VLong _ :: ap' | VULong _ :: ap' => Ok ap' | _ => Stuck end.
Definition va_llong (ap : list varg) : res (list varg) :=
  match ap with VLLong _ :: ap' | VULLong _ :: ap' => Ok ap' | _ => Stuck end.
Definition va_double (ap : list varg) : res (list varg) :=
  match ap with VDouble _ :: ap' => Ok ap' | _ => Stuck end.

(** [if ( *_p != '\0' && strchr(intfmts,*_p) != NULL)] after a modifier. *)
Definition sized_int (p : bytes) (ap : res (list varg)) :
    res (option (bytes * list varg)) :=
  c ← load p 0;
  if decide (c = NUL) then Ok None else
  b ← strchr (cstr "diouxX") c;
  if (b : bool) then ap' ← ap; Ok (Some (p, ap')) else Ok None.

(** From [c] at the percent sign: the conversion character's place and the
    arguments left, or [None] for [fmt_invalid].  The tests for integer and
    double conversions do not exclude the terminator. *)
Definition scan_directive (c : bytes) (ap : list varg) :
    res (option (bytes * list varg)) :=
  p ← ptr_add c 1;
  p ← skip_flags p;
  p ← skip_digits p;
  x ← load p 0;
  p ← (if decide (x = "."%char) then p ← ptr_add p 1; skip_digits p else Ok p);
  x ← load p 0;
  b ← strchr (cstr "diouxX") x;
  if (b : bool) then ap' ← va_int ap; Ok (Some (p, ap')) else
  b ← strchr (cstr "eEfFgGaA") x;
  if (b : bool) then ap' ← va_double ap; Ok (Some (p, ap')) else
  y ← load p 1;
  if decide (x = "h"%char ∧ y = "h"%char) then
    p ← ptr_add p 2; sized_int p (va_int ap)
  else if decide (x = "h"%char) then
    p ← ptr_add p 1; sized_int p (va_int ap)
  else if decide (x = "l"%char ∧ y = "l"%char) then
    p ← ptr_add p 2; sized_int p (va_llong ap)
  else if decide (x = "l"%char) then
    p ← ptr_add p 1; sized_int p (va_long ap)
  else Ok None.

Section command.
Context {W : Type} `{!Libc W}.

(** The loop's variables after it, or the error it jumps with. *)
Inductive parsed :=
  | Parsed (curarg : sdshdr) (curargv : list sdshdr) (touched : bool) (totlen : Z)
  | MemoryErr
  | FormatErr.

(** Moving the current argument to the vector. *)
Definition push_arg (curargv : list sdshdr) (curarg : sdshdr) (totlen : Z) :
    M W (option (list sdshdr * Z)) :=
  newargv ← c_malloc (u64 (8 * (zlen curargv + 1)));
  match newargv with
  | None => mret None
  | Some _ =>
      l ← lift (bulklen (sdslen curarg));
      mret (Some (curargv ++ [curarg], i32 (totlen + l)))
  end.

(** The value of a conversion: the new argument ([None] for NULL), the
    place to go on from, the arguments left; or [None] for a format error. *)
Definition convert (c : bytes) (next : ascii) (curarg : sdshdr) (ap : list varg) :
    M W (option (option sdshdr * bytes * list varg)) :=
  rest ← lift (ptr_add c 2);
  if decide (next = "s"%char) then
    match ap with
    | VPtr arg :: ap' =>
        size ← lift (strlen arg);
        a ← (if bool_decide (size > 0) then sdscatlen curarg arg size
             else mret (Some curarg));
        mret (Some (a, rest, ap'))
    | _ => stuck
    end
  else if decide (next = "b"%char) then
    match ap with
    | VPtr arg :: VSize size :: ap' =>
        a ← (if bool_decide (size > 0) then sdscatlen curarg arg size
             else mret (Some curarg));
        mret (Some (a, rest, ap'))
    | _ => stuck
    end
  else if decide (next = "%"%char) then
    a ← sdscat curarg (cstr "%"); mret (Some (a, rest, ap))
  else
    d ← lift (scan_directive c ap);
    match d with
    | None => mret None
    | Some (p, ap') =>
        let l := zlen c - zlen p + 1 in
        if bool_decide (l < 14) then
          a ← sdscatvprintf curarg (take (Z.to_nat l) c ++ [NUL]) ap;
          rest ← lift (ptr_add p 1);
          mret (Some (a, rest, ap'))
        else mret (Some (Some curarg, rest, ap'))
    end.

Fixpoint vformat_loop (fuel : nat) (c : bytes) (curarg : sdshdr)
    (curargv : list sdshdr) (touched : bool) (totlen : Z) (ap : list varg) :
    M W parsed :=
  match fuel with
  | O => stuck
  | S fuel' =>
      x ← lift (load c 0);
      if decide (x = NUL) then mret (Parsed curarg curargv touched totlen) else
      c1 ← lift (ptr_add c 1);
      next ← lift (load c 1);
      if bool_decide (x ≠ "%"%char ∨ next = NUL) then
        if decide (x = " "%char) then
          if touched then
            o ← push_arg curargv curarg totlen;
            match o with
            | None => mret MemoryErr
            | Some (curargv, totlen) =>
                a ← sdsempty;
                match a with
                | None => mret MemoryErr
                | Some a => vformat_loop fuel' c1 a curargv false totlen ap
                end
            end
          else vformat_loop fuel' c1 curarg curargv touched totlen ap
        else
          a ← sdscatlen curarg c 1;
          match a with
          | None => mret MemoryErr
          | Some a => vformat_loop fuel' c1 a curargv true totlen ap
          end
      else
        o ← convert c next curarg ap;
        match o with
        | None => mret FormatErr
        | Some (None, _, _) => mret MemoryErr
        | Some (Some a, rest, ap) => vformat_loop fuel' rest a curargv true totlen ap
        end
  end.

(** Writing the arguments: [$len\r\n], the bytes, [\r\n]. *)
Fixpoint write_args (cmd : bytes) (pos : Z) (args : list (bytes * Z)) :
    res (bytes * Z) :=
  match args with
  | [] => Ok (cmd, pos)
  | (p, len) :: args' =>
      '(cmd, n) ← sprintf cmd pos (bs "$%zu" ++ [CR; LF; NUL]) [VSize len];
      let pos := i32 (pos + n) in
      cmd ← memcpy cmd pos p len;
      let pos := i32 (pos + len) in
      cmd ← store cmd pos CR; let pos := i32 (pos + 1) in
      cmd ← store cmd pos LF; let pos := i32 (pos + 1) in
      write_args cmd pos args'
  end.

(** The block with the command, its terminator written, after the assert. *)
Definition write_command (cmd : bytes) (args : list (bytes * Z)) (totlen : Z) : res bytes :=
  '(cmd, pos) ← sprintf cmd 0 (bs "*%d" ++ [CR; LF; NUL]) [VInt (i32 (zlen args))];
  '(cmd, pos) ← write_args cmd (i32 pos) args;
  _ ← rassert (bool_decide (pos = totlen));
  store cmd pos NUL.

(** [*target] when it is written, and the result. *)
Definition redisvFormatCommand (target : bool) (format : bytes) (ap : list varg) :
    M W (option bytes * Z) :=
  if negb target then mret (None, -1) else
  curarg ← sdsempty;
  match curarg with
  | None => mret (None, -1)
  | Some curarg =>
      st ← vformat_loop (S (length format)) format curarg [] false 0 ap;
      match st with
      | MemoryErr => mret (None, -1)
      | FormatErr => mret (None, -2)
      | Parsed curarg curargv touched totlen =>
          o ← (if (touched : bool) then push_arg curargv curarg totlen
               else mret (Some (curargv, totlen)));
          match o with
          | None => mret (None, -1)
          | Some (curargv, totlen) =>
              d ← lift (countDigits (u64 (zlen curargv)));
              let totlen := i32 (totlen + (1 + d + 2)) in
              cmd ← c_malloc (u64 (i32 (totlen + 1)));
              match cmd with
              | None => mret (None, -1)
              | Some cmd =>
                  cmd ← lift (write_command cmd
                                (map (λ s, (sh_buf s, sdslen s)) curargv) totlen);
                  mret (Some cmd, totlen)
              end
          end
      end
  end.

Definition redisFormatCommand (target : bool) (format : bytes) (ap : list varg) :
    M W (option bytes * Z) :=
  '(t, len) ← redisvFormatCommand target format ap;
  mret (t, if bool_decide (len < 0) then -1 else len).

(** [argvlen ? argvlen[j] : strlen(argv[j])], for each argument. *)
Fixpoint arg_lengths (argv : list bytes) (argvlen : option (list Z)) :
    res (list (bytes * Z)) :=
  match argv with
  | [] => Ok []
  | a :: argv' =>
      len ← (match argvlen with
             | Some ls => deref (hd_error ls)
             | None => strlen a end);
      rest ← arg_lengths argv' ((λ ls, tl ls) <$> argvlen);
      Ok ((a, len) :: rest)
  end.

(** [totlen += bulklen(len)] in the type of [totlen]. *)
Fixpoint total (cast : Z -> Z) (totlen : Z) (args : list (bytes * Z)) : res Z :=
  match args with
  | [] => Ok totlen
  | (_, len) :: args' => l ← bulklen len; total cast (cast (totlen + l)) args'
  end.

Fixpoint cat_args (cmd : sdshdr) (args : list (bytes * Z)) : M W sdshdr :=
  match args with
  | [] => mret cmd
  | (p, len) :: args' =>
      cmd ← sdscatfmt cmd (bs "$%T" ++ [CR; LF; NUL]) [VSize len];
      o ← sdscatlen cmd p len;
      cmd ← lift (deref o);
      o ← sdscatlen cmd [CR; LF; NUL] 2;
      cmd ← lift (deref o);
      cat_args cmd args'
  end.

Definition redisFormatSdsCommandArgv (target : bool) (argv : list bytes)
    (argvlen : option (list Z)) : M W (option sdshdr * Z) :=
  if negb target then mret (None, -1) else
  d ← lift (countDigits (u64 (zlen argv)));
  args ← lift (arg_lengths argv argvlen);
  totlen ← lift (total u64 (1 + d + 2) args);
  cmd ← sdsempty;
  match cmd with
  | None => mret (None, -1)
  | Some cmd =>
      cmd ← sdsMakeRoomFor cmd totlen;
      match cmd with
      | None => mret (None, -1)
      | Some cmd =>
          cmd ← sdscatfmt cmd (bs "*%i" ++ [CR; LF; NUL]) [VInt (zlen argv)];
          cmd ← cat_args cmd args;
          _ ← massert (bool_decide (sdslen cmd = totlen));
          mret (Some cmd, i32 totlen)
      end
  end.

Definition redisFormatCommandArgv (target : bool) (argv : list bytes)
    (argvlen : option (list Z)) : M W (option bytes * Z) :=
  if negb target then mret (None, -1) else
  d ← lift (countDigits (u64 (zlen argv)));
  args ← lift (arg_lengths argv argvlen);
  totlen ← lift (total i32 (1 + d + 2) args);
  cmd ← c_malloc (u64 (i32 (totlen + 1)));
  match cmd with
  | None => mret (None, -1)
  | Some cmd =>
      cmd ← lift (write_command cmd args totlen);
      mret (Some cmd, totlen)
  end.
End command.

Example format_doc :
  redisFormatCommand true (cstr "SET %s  %b:%d%%")
    [VPtr (cstr "key"); VPtr (bs "va"); VSize 2; VInt (-7)] tt
  = Ok (Some (encode (RArray [RString (bs "SET"); RString (bs "key"); RString (bs "va:-7%")])
              ++ [NUL]), 34, tt).
Proof. vm_compute. reflexivity. Qed.
