(* ===== verification/CommandSpec.v ===== *)
(** * CommandSpec: formatted commands are arrays of bulk strings (hiredis.c)

    The three formatters of Command.v produce the encoding of an array of
    strings: the arguments of an argument vector, or those that the reference
    splitter [fmt_args] reads off a format. *)

From Stdlib Require Import ZArith Lia Ascii.
From stdpp Require Import base list strings gmap numbers.
From S2P Require Import Prelude Libc Printf Sds SdsText SdsFormat Reader Resp Command.

(** ** Lengths *)
Lemma count_digits_ok fuel v r n :
  0 ≤ v -> 1 ≤ n -> v < 10 ^ n -> (n = 1 ∨ 10 ^ (n - 1) ≤ v) ->
  n ≤ 4 * Z.of_nat fuel -> 0 ≤ r -> r + n < 2 ^ 32 ->
  count_digits fuel v r = Ok (r + n - 1).
Proof.
  revert v r n. induction fuel as [|fuel IH]; intros v r n Hv Hn Hu Hl Hf Hr Hfit; [lia|].
  assert (∀ k, 0 ≤ k -> v < 10 ^ k -> 1 ≤ k -> n ≤ k) as Hle.
  { intros k Hk Hvk Hk1. destruct Hl as [->|Hl]; [lia|].
    destruct (Z.le_gt_cases n k) as [|Hgt]; [done|].
    assert (10 ^ k ≤ 10 ^ (n - 1)) by (apply Z.pow_le_mono_r; lia). lia. }
  assert (∀ k, 0 ≤ k -> 10 ^ k ≤ v -> k < n) as Hlt.
  { intros k Hk Hvk. destruct (Z.le_gt_cases n k) as [Hge|]; [|done].
    assert (10 ^ n ≤ 10 ^ k) by (apply Z.pow_le_mono_r; lia). lia. }
  cbn [count_digits]. case_bool_decide as H1.
  { specialize (Hle 1). do 2 f_equal. lia. }
  case_bool_decide as H2.
  { specialize (Hle 2). specialize (Hlt 1). rewrite u32_small by lia. f_equal. lia. }
  case_bool_decide as H3.
  { specialize (Hle 3). specialize (Hlt 2). rewrite u32_small by lia. f_equal. lia. }
  case_bool_decide as H4.
  { specialize (Hle 4). specialize (Hlt 3). rewrite u32_small by lia. f_equal. lia. }
  specialize (Hlt 4 ltac:(lia) ltac:(lia)). rewrite u32_small by lia.
  destruct Hl as [->|Hl]; [lia|].
  assert (10 ^ n = 10000 * 10 ^ (n - 4)) as En.
  { replace n with (4 + (n - 4)) at 1 by lia. rewrite Z.pow_add_r by lia. lia. }
  assert (10 ^ (n - 1) = 10000 * 10 ^ (n - 4 - 1)) as Em.
  { replace (n - 1) with (4 + (n - 4 - 1)) by lia. rewrite Z.pow_add_r by lia. lia. }
  rewrite (IH _ _ (n - 4)); try lia; [f_equal; lia | apply Z.div_pos; lia | |right].
  - apply Z.div_lt_upper_bound; lia.
  - apply Z.div_le_lower_bound; lia.
Qed.

(** [countDigits] is the number of decimal digits. *)
Lemma countDigits_len v : 0 ≤ v < 2 ^ 64 -> countDigits v = Ok (zlen (utoa v)).
Proof.
  intros Hv. unfold countDigits.
  destruct (utoa_zlen v Hv) as ([H1 H20] & Hu & Hl).
  rewrite (count_digits_ok _ _ _ (zlen (utoa v))); [f_equal; lia | lia | lia | done | | lia..].
  destruct (decide (v = 0)) as [->|]; [by left | right; apply Hl; lia].
Qed.

Definition bulk (s : bytes) : bytes := encode (RString s).

Lemma bulk_eq s : bulk s = "$"%char :: itoa (zlen s) ++ [CR; LF] ++ s ++ [CR; LF].
Proof. unfold bulk, encode. cbn. unfold crlf. by rewrite <- !app_assoc. Qed.

Lemma itoa_utoa z : 0 ≤ z -> itoa z = utoa z.
Proof. intros. unfold itoa. by rewrite bool_decide_false by lia. Qed.

Lemma zlen_bulk s : zlen (bulk s) = 1 + zlen (itoa (zlen s)) + 2 + zlen s + 2.
Proof. rewrite bulk_eq. zl. Qed.

Lemma bulklen_ok s : zlen s < 2 ^ 31 -> bulklen (zlen s) = Ok (zlen (bulk s)).
Proof.
  intros Hs. unfold bulklen. rewrite countDigits_len by zl. rsimpl.
  rewrite zlen_bulk, itoa_utoa by zl.
  destruct (utoa_zlen (zlen s)) as ([? ?] & _); [zl|]. csimp. f_equal.
Qed.

Definition bulks (ss : list bytes) : bytes := concat (map bulk ss).

Lemma bulks_snoc ss s : bulks (ss ++ [s]) = bulks ss ++ bulk s.
Proof. unfold bulks. rewrite map_app, concat_app. cbn. by rewrite app_nil_r. Qed.

(** The command with the arguments [ss]. *)
Definition command (ss : list bytes) : reply := RArray (map RString ss).

Lemma encode_command ss :
  encode (command ss) = ("*"%char :: itoa (zlen ss) ++ [CR; LF]) ++ bulks ss.
Proof.
  unfold encode, command. rewrite body_array. unfold encode_list, bulks, crlf.
  assert (zlen (map RString ss) = zlen ss) as -> by (unfold zlen; f_equal; apply length_map).
  by rewrite map_map.
Qed.

Lemma zlen_command ss :
  zlen (encode (command ss)) = 1 + zlen (itoa (zlen ss)) + 2 + zlen (bulks ss).
Proof. rewrite encode_command. zl. Qed.

(** Every argument of a command is shorter than the command. *)
Lemma zlen_bulks_in s ss : s ∈ ss -> zlen s < zlen (bulks ss).
Proof.
  unfold bulks. induction 1 as [s ss|s t ss _ IH]; cbn [map concat].
  - rewrite zlen_app, zlen_bulk. zl.
  - rewrite zlen_app. zl.
Qed.

Lemma zlen_bulks_count ss : zlen ss ≤ zlen (bulks ss).
Proof.
  unfold bulks. induction ss as [|s ss IH]; cbn [map concat]; [done|].
  rewrite zlen_app, zlen_bulk. zl.
Qed.

(** ** Writing the command *)
Lemma pad_to_0 c s : pad_to 0 c s = s.
Proof. unfold pad_to. assert (Z.to_nat (0 - zlen s) = O) as -> by zl. done. Qed.

(** The directive [%zu], after its modifier. *)
Definition zspec : spec := Spec false false false false false 0 None ["z"%char] ["z"%char].

Lemma format_bulk_header z :
  0 ≤ z < 2 ^ 63 ->
  format (bs "$%zu" ++ [CR; LF]) Plain [VSize z] = Ok ("$"%char :: itoa z ++ [CR; LF]).
Proof.
  intros Hz. rewrite itoa_utoa by lia.
  assert (format (bs "$%zu" ++ [CR; LF]) Plain [VSize z]
          = Ok ("$"%char :: fmt_unsigned zspec "u" (u64 (i64 z)) ++ [CR; LF])) as ->
    by (by lazy -[fmt_unsigned u64 i64]).
  rewrite i64_small, u64_small by lia. unfold fmt_unsigned, fmt_field, fmt_digits.
  cbn -[rdigits pad_to]. rewrite bool_decide_false by (by intros [_ ?]).
  by rewrite !pad_to_0.
Qed.

Lemma format_command_header z :
  0 ≤ z < 2 ^ 31 ->
  format (bs "*%d" ++ [CR; LF]) Plain [VInt z] = Ok ("*"%char :: itoa z ++ [CR; LF]).
Proof.
  intros Hz. rewrite itoa_utoa by lia.
  assert (format (bs "*%d" ++ [CR; LF]) Plain [VInt z]
          = Ok ("*"%char :: fmt_signed spec0 (i32 z) ++ [CR; LF])) as ->
    by (by lazy -[fmt_signed i32]).
  rewrite i32_small by lia. unfold fmt_signed, fmt_field, fmt_digits.
  cbn -[rdigits pad_to]. rewrite bool_decide_false by lia.
  rewrite bool_decide_false by (by intros [_ ?]). rewrite Z.abs_eq by lia.
  by rewrite !pad_to_0.
Qed.

Lemma sprintf_ok a b x d f ftl args out pos :
  pos = zlen a -> NUL ∉ f -> format f Plain args = Ok out -> zlen b = zlen out ->
  sprintf (a ++ b ++ x :: d) pos (f ++ NUL :: ftl) args
  = Ok (a ++ out ++ NUL :: d, zlen out).
Proof.
  intros -> Hf Hout Hb. unfold sprintf, cstring. rewrite strlen_app by done. rsimpl.
  rewrite take_zlen, Hout. rsimpl.
  rewrite memcpy_app by (done || lia). rsimpl.
  rewrite zlen_to_nat, firstn_all, app_assoc, store_app by zl.
  by rewrite <- app_assoc.
Qed.

(** [p] points to at least the bytes [s], [len] is how many. *)
Definition holds (a : bytes * Z) (s : bytes) : Prop :=
  ∃ tl, a.1 = s ++ tl ∧ a.2 = zlen s.

Lemma write_args_ok args ss a r :
  Forall2 holds args ss -> zlen r = zlen (bulks ss) + 1 -> zlen a + zlen r < 2 ^ 31 ->
  ∃ x, write_args (a ++ r) (zlen a) args = Ok ((a ++ bulks ss) ++ [x], zlen (a ++ bulks ss)).
Proof.
  intros Hargs. revert a r. induction Hargs as [|[p len] s args ss (tl & Hp & Hl) _ IH];
    intros a r Hr Hfit; cbn [fst snd] in *; subst.
  { unfold bulks in *. cbn in *. destruct r as [|x [|]]; [zl | | zl].
    exists x. by rewrite app_nil_r. }
  unfold bulks in *. cbn [map concat] in *. rewrite bulk_eq in *.
  set (h := "$"%char :: itoa (zlen s) ++ [CR; LF]) in *.
  assert ("$"%char :: itoa (zlen s) ++ [CR; LF] ++ s ++ [CR; LF] = h ++ s ++ [CR; LF]) as E
    by (unfold h; cbn; by rewrite <- !app_assoc).
  rewrite E in *. clear E.
  destruct (split_zlen r (zlen h)) as (r1 & r2 & -> & Hr1); [zl|].
  destruct (split_zlen r2 (zlen s)) as (r3 & r4 & -> & Hr3); [zl|].
  destruct r4 as [|y1 [|y2 r4]]; [zl|zl|].
  cbn [write_args].
  assert (∃ x d, r3 ++ y1 :: y2 :: r4 = x :: d) as (x & d & Ed)
    by (destruct r3; eauto).
  rewrite Ed. change (bs "$%zu" ++ [CR; LF; NUL]) with ((bs "$%zu" ++ [CR; LF]) ++ NUL :: []).
  rewrite (sprintf_ok a r1 x d _ _ _ h); [rsimpl | done | | apply format_bulk_header; zl | done].
  2: { apply (bool_decide_unpack _). by vm_compute. }
  assert (∃ r3' y1', NUL :: d = r3' ++ y1' :: y2 :: r4 ∧ zlen r3' = zlen s) as (r3' & y1' & E2 & Hr3').
  { destruct r3 as [|z r3]; cbn [app] in Ed; injection Ed as <- <-.
    - by exists [], NUL.
    - exists (NUL :: r3), y1. split; [done | zl]. }
  rewrite E2. csimp. rewrite <- zlen_app, (app_assoc a h).
  rewrite memcpy_app by zl. rsimpl. csimp. rewrite take_zlen.
  rewrite <- zlen_app, (app_assoc (a ++ h) s).
  rewrite store_app by done. rsimpl. csimp.
  change (CR :: y2 :: r4) with ([CR] ++ y2 :: r4).
  rewrite (app_assoc _ [CR]), store_app by zl. rsimpl. csimp.
  destruct (IH ((a ++ h ++ s) ++ [CR; LF]) r4) as (z & E3); [zl | zl |].
  exists z. rewrite <- !app_assoc in *. cbn [app] in *. rewrite !zlen_app in *.
  rewrite <- E3. f_equal. zl.
Qed.

Lemma write_command_ok args ss cmd :
  Forall2 holds args ss -> zlen cmd = zlen (encode (command ss)) + 1 -> zlen cmd < 2 ^ 31 ->
  write_command cmd args (zlen (encode (command ss))) = Ok (encode (command ss) ++ [NUL]).
Proof.
  intros Hargs Hcmd Hfit. unfold write_command.
  assert (zlen args = zlen ss) as Hlen by (unfold zlen; by erewrite Forall2_length).
  pose proof (zlen_bulks_count ss). pose proof (zlen_command ss) as Hz.
  rewrite encode_command in *. set (h := "*"%char :: itoa (zlen ss) ++ [CR; LF]) in *.
  destruct (split_zlen cmd (zlen h)) as (r1 & r2 & -> & Hr1); [zl|].
  destruct r2 as [|x d]; [zl|].
  change (bs "*%d" ++ [CR; LF; NUL]) with ((bs "*%d" ++ [CR; LF]) ++ NUL :: []).
  pose proof (sprintf_ok [] r1 x d (bs "*%d" ++ [CR; LF]) [] [VInt (i32 (zlen args))] h 0) as Hs.
  cbn [app] in Hs |- *. rewrite Hs; [rsimpl | done | | | done].
  2: { apply (bool_decide_unpack _). by vm_compute. }
  2: { rewrite Hlen, i32_small by zl. apply format_command_header. zl. }
  csimp. destruct (write_args_ok args ss h (NUL :: d)) as (y & ->); [done | zl | zl |].
  rsimpl. unfold rassert. rewrite bool_decide_true by done. rsimpl.
  by rewrite store_app by done.
Qed.

(** ** Argument vectors *)

(** [argv] and [argvlen] hold the arguments [ss]: with lengths the bytes are
    arbitrary, without them the arguments are C strings. *)
Definition argv_rep (argv : list bytes) (argvlen : option (list Z)) (ss : list bytes) : Prop :=
  match argvlen with
  | Some ls => ls = map zlen ss ∧ Forall2 (λ p s, ∃ tl, p = s ++ tl) argv ss
  | None => Forall2 (λ p s, (NUL ∉ s) ∧ ∃ tl, p = s ++ NUL :: tl) argv ss
  end.

Lemma argv_rep_zlen argv argvlen ss : argv_rep argv argvlen ss -> zlen argv = zlen ss.
Proof.
  unfold argv_rep, zlen. destruct argvlen; [intros [_ H] | intros H];
    f_equal; by eapply Forall2_length.
Qed.

Lemma arg_lengths_ok argv argvlen ss :
  argv_rep argv argvlen ss ->
  ∃ args, arg_lengths argv argvlen = Ok args ∧ Forall2 holds args ss.
Proof.
  revert argvlen ss. induction argv as [|p argv IH]; intros argvlen ss.
  { destruct argvlen; [intros [-> H] | intros H]; inversion H; subst; exists []; done. }
  destruct argvlen as [ls|].
  - intros [-> H]. inversion H as [|? s ? ss' (tl & ->) Hss]; subst. cbn.
    destruct (IH (Some (map zlen ss')) ss') as (args & E & Hargs); [done|].
    cbn in E. rewrite E. rsimpl. eexists. split; [done|]. constructor; [by exists tl | done].
  - intros H. inversion H as [|? s ? ss' (Hs & tl & ->) Hss]; subst. cbn.
    destruct (IH None ss') as (args & E & Hargs); [done|]. cbn in E.
    rewrite strlen_app by done. rsimpl. rewrite E. rsimpl. eexists. split; [done|].
    constructor; [by eexists | done].
Qed.

Lemma total_ok cast args ss t :
  (∀ z, 0 ≤ z < 2 ^ 31 -> cast z = z) ->
  Forall2 holds args ss -> 0 ≤ t -> t + zlen (bulks ss) < 2 ^ 31 ->
  total cast t args = Ok (t + zlen (bulks ss)).
Proof.
  intros Hcast Hargs. revert t. unfold bulks.
  induction Hargs as [|[p len] s args ss (tl & Hp & Hl) _ IH]; intros t Ht Hfit;
    cbn [fst snd total map concat] in *; subst.
  { f_equal. zl. }
  rewrite zlen_app in *. pose proof (zlen_nonneg (bulk s)).
  pose proof (zlen_nonneg (concat (map bulk ss))). pose proof (zlen_bulk s).
  pose proof (zlen_nonneg (itoa (zlen s))). pose proof (zlen_nonneg s).
  rewrite bulklen_ok by lia. rsimpl. rewrite Hcast, IH by lia. f_equal. lia.
Qed.

(** The length of the command, computed before it is written. *)
Lemma header_len (ss : list bytes) :
  zlen ss < 2 ^ 31 -> countDigits (u64 (zlen ss)) = Ok (zlen (itoa (zlen ss))).
Proof.
  intros. pose proof (zlen_nonneg ss). by rewrite u64_small, countDigits_len, itoa_utoa by lia.
Qed.

Section formatters.
Context {W : Type} `{!Libc W}.

Definition block_post (ss : list bytes) : option bytes * Z -> W -> Prop := λ '(t, len) _,
  match t with
  | Some b => b = encode (command ss) ++ [NUL] ∧ len = zlen (encode (command ss))
  | None => len = -1 ∧ oom W
  end.

Lemma redisFormatCommandArgv_wp argv argvlen ss w :
  argv_rep argv argvlen ss -> zlen (encode (command ss)) + 1 < 2 ^ 31 ->
  wp (redisFormatCommandArgv true argv argvlen) (block_post ss) w.
Proof.
  intros Hargv Hfit. unfold redisFormatCommandArgv. cbn [negb].
  destruct (arg_lengths_ok _ _ _ Hargv) as (args & Ea & Hargs).
  pose proof (zlen_command ss) as Hlen. pose proof (zlen_bulks_count ss).
  pose proof (zlen_nonneg (itoa (zlen ss))). pose proof (zlen_nonneg (bulks ss)).
  wp_step. rewrite (argv_rep_zlen _ _ _ Hargv), header_len by lia. wp_steps.
  rewrite Ea. wp_steps.
  rewrite (total_ok _ _ ss) by (done || (intros; apply i32_small; lia) || lia). wp_steps.
  replace (1 + zlen (itoa (zlen ss)) + 2 + zlen (bulks ss)) with (zlen (encode (command ss))) by lia.
  csimp. apply wp_malloc; [zl | intros; wp_steps; done |].
  intros cmd w' Hcmd. wp_step. eapply wp_lift_ok; [apply write_command_ok; [done | done | lia]|]. by wp_steps.
Qed.

(** [sdscatlen] when memory does not run out. *)
Lemma sdscatlen_some (no_oom : ¬ oom W) s c t tl n w (Q : sdshdr -> W -> Prop) :
  sds_rep s c -> n = zlen t -> zlen c + n + SDS_MAX_PREALLOC < 2 ^ 31 ->
  (∀ s' w', sds_rep s' (c ++ t) -> Q s' w') ->
  wp (o ← sdscatlen s (t ++ tl) n; lift (deref o)) Q w.
Proof.
  intros Hs -> Hroom HQ. wp_step.
  eapply wp_mono; [apply sdscatlen_wp; [done | zl | done]|].
  rewrite take_zlen. intros [s'|] w' H; [|by destruct no_oom]. wp_steps. by apply HQ.
Qed.

Lemma cat_args_wp (no_oom : ¬ oom W) s c args ss w :
  sds_rep s c -> Forall2 holds args ss ->
  zlen c + zlen (bulks ss) + SDS_MAX_PREALLOC + 1 < 2 ^ 31 ->
  wp (cat_args s args) (λ s' _, sds_rep s' (c ++ bulks ss)) w.
Proof.
  intros Hs Hargs. revert s c w Hs. unfold bulks.
  induction Hargs as [|[p len] x args ss (tl & Hp & Hl) _ IH]; intros s c w Hs Hroom;
    cbn [fst snd cat_args map concat] in *; subst.
  { wp_steps. by rewrite app_nil_r. }
  rewrite zlen_app in Hroom. pose proof (zlen_bulk x). unfold SDS_MAX_PREALLOC in *.
  pose proof (zlen_nonneg (concat (map bulk ss))). pose proof (zlen_nonneg (itoa (zlen x))).
  set (h := "$"%char :: itoa (zlen x) ++ [CR; LF]).
  wp_step. change (bs "$%T" ++ [CR; LF; NUL]) with ((bs "$%T" ++ [CR; LF]) ++ NUL :: []).
  eapply wp_mono.
  { apply (sdscatfmt_wp no_oom s c _ _ _ h); [done | | | unfold h, SDS_MAX_PREALLOC; zl].
    - apply (bool_decide_unpack _). by vm_compute.
    - unfold h. rewrite itoa_utoa by zl. rewrite <- (u64_small (zlen x)) at 2 by zl.
      by lazy -[utoa u64 zlen]. }
  intros s1 w1 Hs1. 
  assert (zlen h = zlen (itoa (zlen x)) + 3) as Hh by (unfold h; zl).
  enough (wp (cmd ← (o ← sdscatlen s1 (x ++ tl) (zlen x); lift (deref o));
              cmd ← (o ← sdscatlen cmd ([CR; LF] ++ [NUL]) 2; lift (deref o));
              cat_args cmd args) (λ s' _, sds_rep s' (c ++ bulk x ++ concat (map bulk ss))) w1) as Hwp.
  { revert Hwp. unfold wp, mbind, M_bind. 
    destruct (sdscatlen s1 _ _) as [[o w2]|]; [|done].
    destruct (lift (deref o) w2) as [[s2 w3]|]; [|done].
    cbn [app]. by destruct (sdscatlen s2 _ _) as [[o2 w4]|]. }
  wp_step. apply (sdscatlen_some no_oom s1 (c ++ h)); [done | done | unfold SDS_MAX_PREALLOC; zl |].
  intros s2 w2 Hs2. wp_step.
  apply (sdscatlen_some no_oom s2 ((c ++ h) ++ x)); [done | done | unfold SDS_MAX_PREALLOC; zl |].
  intros s3 w3 Hs3. rewrite bulk_eq.
  replace (c ++ ("$"%char :: itoa (zlen x) ++ [CR; LF] ++ x ++ [CR; LF]) ++ concat (map bulk ss))
    with ((((c ++ h) ++ x) ++ [CR; LF]) ++ concat (map bulk ss))
    by (unfold h; rewrite <- ?app_assoc; cbn [app]; rewrite <- ?app_assoc; cbn [app]; rewrite <- ?app_assoc; done).
  apply IH; [done|]. zl.
Qed.

Lemma redisFormatSdsCommandArgv_wp (no_oom : ¬ oom W) argv argvlen ss w :
  argv_rep argv argvlen ss -> zlen (encode (command ss)) + SDS_MAX_PREALLOC + 1 < 2 ^ 31 ->
  wp (redisFormatSdsCommandArgv true argv argvlen) (λ '(t, len) _,
    ∃ s, t = Some s ∧ sds_rep s (encode (command ss)) ∧ len = zlen (encode (command ss))) w.
Proof.
  intros Hargv Hfit. unfold redisFormatSdsCommandArgv. cbn [negb].
  destruct (arg_lengths_ok _ _ _ Hargv) as (args & Ea & Hargs).
  pose proof (zlen_command ss) as Hlen. pose proof (zlen_bulks_count ss).
  pose proof (zlen_nonneg (itoa (zlen ss))). pose proof (zlen_nonneg (bulks ss)).
  pose proof (zlen_nonneg ss). unfold SDS_MAX_PREALLOC in *.
  wp_step. rewrite (argv_rep_zlen _ _ _ Hargv), header_len by lia. wp_steps.
  rewrite Ea. wp_steps.
  rewrite (total_ok _ _ ss) by (done || (intros; apply u64_small; lia) || lia). wp_steps.
  rewrite <- Hlen. eapply wp_mono; [apply sdsempty_wp|].
  intros [s|] w1 Hs; [|by destruct no_oom]. destruct Hs as (tl & -> & Htl). wp_step.
  eapply wp_mono; [apply sdsMakeRoomFor_wp; unfold SDS_MAX_PREALLOC; zl|].
  intros [s|] w2 Hs; [|by destruct no_oom]. destruct Hs as (tl' & -> & _ & Hfit2). wp_step.
  set (h := "*"%char :: itoa (zlen ss) ++ [CR; LF]).
  assert (zlen h = zlen (itoa (zlen ss)) + 3) as Hh by (unfold h; zl).
  change (bs "*%i" ++ [CR; LF; NUL]) with ((bs "*%i" ++ [CR; LF]) ++ NUL :: []).
  eapply wp_mono.
  { apply (sdscatfmt_wp no_oom _ [] _ _ _ h); [by eexists | | | unfold SDS_MAX_PREALLOC; zl].
    - apply (bool_decide_unpack _). by vm_compute.
    - unfold h. rewrite <- (i32_small (zlen ss)) at 2 by zl.
      by lazy -[itoa i32 zlen]. }
  intros s1 w3 Hs1. wp_step.
  eapply wp_mono; [apply (cat_args_wp no_oom s1 h args ss); [done | done | unfold SDS_MAX_PREALLOC; lia]|].
  intros s2 w4 Hs2. assert (h ++ bulks ss = encode (command ss)) as E by (by rewrite encode_command).
  rewrite E in Hs2. rewrite (sds_rep_len _ _ Hs2), bool_decide_true by done. wp_steps.
  exists s2. rewrite i32_small by lia. done.
Qed.
End formatters.
