(* ===== verification/CommandFormat.v ===== *)
(** * CommandFormat: what a printf-like command format means (hiredis.c)

    [fmt_args] splits a format into arguments at spaces and replaces the
    conversions [%s], [%b], [%%] and the plain integer conversions; the
    formatter produces the command with those arguments.  A format that ends
    inside a conversion is read past its terminator. *)

From Stdlib Require Import ZArith Lia Ascii.
From stdpp Require Import base list strings gmap numbers.
From S2P Require Import Prelude Libc Printf Sds SdsText SdsFormat Reader Resp Command CommandSpec.

(** ** Specification *)

(** The text of the conversion [next], and the arguments left. *)
Definition directive_text (next : ascii) (ap : list varg) : option (bytes * list varg) :=
  if decide (next = "s"%char) then
    match ap with
    | VPtr p :: ap' => match cstring p with Ok t => Some (t, ap') | Stuck => None end
    | _ => None
    end
  else if decide (next = "b"%char) then
    match ap with
    | VPtr p :: VSize n :: ap' =>
        if bool_decide (0 ≤ n ≤ zlen p) then Some (take (Z.to_nat n) p, ap') else None
    | _ => None
    end
  else if decide (next = "%"%char) then Some (["%"%char], ap)
  else if bool_decide (next ∈ bs "diouxX") then
    match ap with
    | VInt _ :: ap' | VUInt _ :: ap' =>
        match format ["%"%char; next] Plain ap with Ok t => Some (t, ap') | Stuck => None end
    | _ => None
    end
  else None.

(** The arguments of the format [f], given the current one [cur], which is
    pushed at a space or at the end when something [touched] it. *)
Fixpoint fmt_args (f : bytes) (ap : list varg) (cur : bytes) (touched : bool) :
    option (list bytes) :=
  match f with
  | [] => Some (if touched then [cur] else [])
  | c :: f1 =>
      if decide (c = "%"%char) then
        match f1 with
        | [] => Some [cur ++ ["%"%char]]
        | next :: f2 =>
            match directive_text next ap with
            | Some (t, ap') => fmt_args f2 ap' (cur ++ t) true
            | None => None
            end
        end
      else if decide (c = " "%char) then
        if touched then cons cur <$> fmt_args f1 ap [] false
        else fmt_args f1 ap cur false
      else fmt_args f1 ap (cur ++ [c]) true
  end.

Lemma fmt_args_grow f ap cur out :
  fmt_args f ap cur true = Some out -> ∃ x out', out = (cur ++ x) :: out'.
Proof.
  remember (length f) as n eqn:Hn. revert f Hn ap cur out.
  induction (lt_wf n) as [n _ IH]. intros f -> ap cur out E.
  assert (∀ f' ap' t, (length f' < length f)%nat -> fmt_args f' ap' (cur ++ t) true = Some out ->
    ∃ x out', out = (cur ++ x) :: out') as Hgo.
  { intros f' ap' t Hlt E'. destruct (IH _ Hlt f' eq_refl _ _ _ E') as (x & out' & ->).
    rewrite <- app_assoc. eauto. }
  destruct f as [|c f1]; cbn [fmt_args] in E.
  { injection E as <-. exists [], []. by rewrite app_nil_r. }
  case_decide.
  - destruct f1 as [|next f2]; [injection E as <-; eauto|].
    destruct (directive_text next ap) as [[t ap']|]; [|done].
    eapply Hgo; [|done]. simpl. lia.
  - case_decide; [|eapply Hgo; [|done]; simpl; lia].
    apply fmap_Some in E as (o & _ & ->). exists [], o. by rewrite app_nil_r.
Qed.

(** The text of an integer holds no terminator. *)
Lemma digit_char_not_NUL up d : 0 ≤ d < 16 -> digit_char up d ≠ NUL.
Proof.
  intros Hd E. apply (f_equal uchar) in E. unfold digit_char in E. revert E.
  change (uchar NUL) with 0.
  case_bool_decide; [rewrite uchar_of_uchar; lia|].
  destruct up; rewrite uchar_of_uchar; lia.
Qed.

Lemma rdigits_not_NUL fuel up base v : 2 ≤ base ≤ 16 -> NUL ∉ rdigits fuel up base v.
Proof.
  intros Hb. revert v. induction fuel as [|fuel IH]; intros v; cbn [rdigits]; [apply not_elem_of_nil|].
  apply not_elem_of_cons. split.
  - pose proof (Z.mod_pos_bound v base). intros E. by apply (digit_char_not_NUL up (v mod base)); [lia|].
  - case_bool_decide; [apply not_elem_of_nil | apply IH].
Qed.

Lemma format_int next a z ap :
  next ∈ bs "diouxX" -> a = VInt z ∨ a = VUInt z ->
  format ["%"%char; next] Plain (a :: ap)
  = Ok ((if bool_decide (next ∈ bs "di") then fmt_signed spec0 (i32 z)
         else fmt_unsigned spec0 next (u32 (i32 z))) ++ []).
Proof.
  intros Hn Ha.
  repeat (apply elem_of_cons in Hn as [->|Hn]); [..|by apply not_elem_of_nil in Hn];
    destruct Ha as [-> | ->]; by lazy -[fmt_signed fmt_unsigned u32 i32].
Qed.

Lemma format_int_not_NUL next a ap t :
  next ∈ bs "diouxX" -> (∃ z, a = VInt z ∨ a = VUInt z) ->
  format ["%"%char; next] Plain (a :: ap) = Ok t -> NUL ∉ t.
Proof.
  intros Hn Ha.
  assert (∀ fuel up base v, 2 ≤ base ≤ 16 -> NUL ∉ rev (rdigits fuel up base v)) as Hrev.
  { intros fuel up base v Hb H. apply (rdigits_not_NUL fuel up base v Hb).
    apply list_elem_of_In. apply list_elem_of_In in H. by apply in_rev. }
  assert (∀ z, NUL ∉ fmt_signed spec0 z ++ []) as Hs.
  { intros z. rewrite app_nil_r. unfold fmt_signed, fmt_field, fmt_digits. cbn -[rdigits pad_to].
    rewrite !pad_to_0. rewrite (bool_decide_false (_ = 0 ∧ _)) by (by intros [_ ?]).
    case_bool_decide; cbn [app]; [apply not_elem_of_cons; split; [done|]|]; by apply Hrev. }
  assert (∀ c z, c ∈ bs "ouxX" -> NUL ∉ fmt_unsigned spec0 c z ++ []) as Hu.
  { intros c z Hc. rewrite app_nil_r. unfold fmt_unsigned, fmt_field, fmt_digits.
    cbn -[rdigits pad_to bool_decide]. rewrite !pad_to_0.
    rewrite (bool_decide_false (_ = 0 ∧ _)) by (by intros [_ ?]).
    apply Hrev. repeat case_bool_decide; lia. }
  destruct Ha as (z & Ha). rewrite (format_int next a z) by done. intros [= <-].
  case_bool_decide as Hd; [apply Hs|]. apply Hu.
  repeat (apply elem_of_cons in Hn as [->|Hn]); [..|by apply not_elem_of_nil in Hn];
    first [apply (bool_decide_unpack _); by vm_compute
          | exfalso; apply Hd, (bool_decide_unpack _); by vm_compute].
Qed.

(** ** The scanner *)
Lemma ptr_add_1 c p : ptr_add (c :: p) 1 = Ok p.
Proof. unfold ptr_add. rewrite bool_decide_true by zl. done. Qed.

Lemma ptr_add_2 c d p : ptr_add (c :: d :: p) 2 = Ok p.
Proof. unfold ptr_add. rewrite bool_decide_true by zl. done. Qed.

Lemma scan_int next f2 ftl ap a :
  next ∈ bs "diouxX" -> (∃ z, a = VInt z ∨ a = VUInt z) ->
  scan_directive ("%"%char :: next :: f2 ++ NUL :: ftl) (a :: ap)
  = Ok (Some (next :: f2 ++ NUL :: ftl, ap)).
Proof.
  intros Hn Ha. unfold scan_directive. rewrite ptr_add_1. rsimpl.
  assert (va_int (a :: ap) = Ok ap) as Hva by (destruct Ha as (z & [-> | ->]); done).
  assert (next ≠ NUL ∧ strchr (cstr "#0-+ ") next = Ok false ∧ isdigit next = false
          ∧ next ≠ "."%char ∧ strchr (cstr "diouxX") next = Ok true)
    as (HN & Hfl & Hd & Hdot & Hint).
  { repeat (apply elem_of_cons in Hn as [->|Hn]); [..|by apply not_elem_of_nil in Hn];
      by vm_compute. }
  cbn [skip_flags]. rewrite decide_False, Hfl by done. rsimpl.
  cbn [skip_digits]. rewrite decide_False, Hd by done. rsimpl.
  rewrite load_0. rsimpl. rewrite decide_False by done. rsimpl.
  rewrite load_0. rsimpl. rewrite Hint. rsimpl. by rewrite Hva.
Qed.

Section vformat.
Context {W : Type} `{!Libc W}.

(** Appending at the end of the current argument, when there is something. *)
Lemma cat_if_wp s c p n w :
  sds_rep s c -> 0 ≤ n ≤ zlen p -> zlen c + n + SDS_MAX_PREALLOC < 2 ^ 31 ->
  wp (if bool_decide (n > 0) then sdscatlen s p n else mret (Some s))
     (λ o _, sds_post (c ++ take (Z.to_nat n) p) o) w.
Proof.
  intros Hs Hn Hroom. case_bool_decide; [by apply sdscatlen_wp|]. wp_step. cbn.
  assert (n = 0) as -> by lia. by rewrite app_nil_r.
Qed.

Lemma convert_wp next f2 ftl s c ap t ap' w :
  directive_text next ap = Some (t, ap') -> sds_rep s c ->
  zlen c + zlen t + SDS_MAX_PREALLOC < 2 ^ 31 ->
  wp (convert ("%"%char :: next :: f2 ++ NUL :: ftl) next s ap)
     (λ o _, ∃ a, o = Some (a, f2 ++ NUL :: ftl, ap') ∧ sds_post (c ++ t) a) w.
Proof.
  intros Ht Hs Hroom. unfold convert. wp_step. eapply wp_lift_ok; [apply ptr_add_2|].
  unfold directive_text in Ht. repeat case_decide.
  - destruct ap as [|[] ap]; try done. unfold cstring in Ht.
    destruct (strlen p) as [n|] eqn:En; [|done]. cbn in Ht. injection Ht as <- <-.
    pose proof (strlen_bounds _ _ En). wp_step. wp_step. wp_step.
    rewrite zlen_take in Hroom by lia.
    eapply wp_mono; [apply cat_if_wp; [done | lia | done]|]. intros o w' Ho. wp_steps. eauto.
  - destruct ap as [|[] [|[] ap]]; try done. case_bool_decide; [|done]. injection Ht as <- <-.
    rewrite zlen_take in Hroom by lia. wp_step.
    eapply wp_mono; [by apply cat_if_wp|]. intros o w' Ho. wp_steps. eauto.
  - injection Ht as <- <-. unfold sdscat. wp_step.
    wp_step. eapply wp_lift_ok; [done|].
    eapply wp_mono; [apply (sdscatlen_wp s c); [done | done | zl]|]. intros o w' Ho. wp_steps. eauto.
  - case_bool_decide as Hn; [|done]. destruct ap as [|a ap]; [done|].
    assert (∃ z, a = VInt z ∨ a = VUInt z) as Ha by (destruct a; try done; eauto).
    assert (format ["%"%char; next] Plain (a :: ap) = Ok t ∧ ap' = ap) as [Hfm ->].
    { destruct a; try done; destruct (format _ _ _); by simplify_eq. }
    wp_step. eapply wp_lift_ok; [by apply scan_int|]. cbv beta iota zeta.
    assert (zlen ("%"%char :: next :: f2 ++ NUL :: ftl) - zlen (next :: f2 ++ NUL :: ftl) + 1 = 2)
      as -> by zl.
    rewrite (bool_decide_true (2 < 14)) by lia. wp_step.
    change (take (Z.to_nat 2) ("%"%char :: next :: f2 ++ NUL :: ftl) ++ [NUL])
      with (["%"%char; next] ++ NUL :: []).
    eapply wp_mono.
    { apply (sdscatprintf_wp s c); [done | | by eapply format_int_not_NUL | done | done].
      apply not_elem_of_cons. split; [done|]. apply not_elem_of_cons.
      split; [|apply not_elem_of_nil]. intros <-. revert Hn. apply (bool_decide_unpack (NUL ∉ bs "diouxX")). by vm_compute. }
    intros o w' Ho. wp_steps. eapply wp_lift_ok; [apply ptr_add_1|]. wp_steps. eauto.
  - by case_bool_decide.
Qed.

Lemma push_arg_wp vec ss s c w :
  Forall2 sds_rep vec ss -> sds_rep s c -> zlen (bulks (ss ++ [c])) < 2 ^ 31 ->
  wp (push_arg vec s (zlen (bulks ss))) (λ o _,
    match o with
    | None => oom W
    | Some (vec', tot) => Forall2 sds_rep vec' (ss ++ [c]) ∧ tot = zlen (bulks (ss ++ [c]))
    end) w.
Proof.
  intros Hvec Hs Hfit. unfold push_arg. wp_step.
  apply wp_malloc; [apply u64_range | intros; wp_steps; done |].
  intros b w' Hb. wp_step. rewrite bulks_snoc, zlen_app in *.
  pose proof (zlen_bulk c). pose proof (zlen_nonneg (itoa (zlen c))).
  pose proof (zlen_nonneg (bulks ss)). pose proof (zlen_nonneg c).
  rewrite (sds_rep_len s c), bulklen_ok by (done || lia). wp_steps.
  rewrite i32_small by lia. split; [|done].
  apply Forall2_app; [done|]. by repeat constructor.
Qed.

(** What the loop has parsed so far, against the arguments [out]. *)
Definition parsed_post (out : list bytes) (p : parsed) : Prop :=
  match p with
  | Parsed cur vec touched tot => ∃ c ss,
      sds_rep cur c ∧ Forall2 sds_rep vec ss ∧ tot = zlen (bulks ss) ∧
      ss ++ (if touched then [c] else []) = out
  | MemoryErr => oom W
  | FormatErr => False
  end.

Lemma vformat_loop_wp fuel f ftl ap cur c vec ss touched out w :
  (length f < fuel)%nat -> NUL ∉ f -> sds_rep cur c -> Forall2 sds_rep vec ss ->
  (touched = false -> c = []) -> fmt_args f ap c touched = Some out ->
  zlen (bulks (ss ++ out)) + SDS_MAX_PREALLOC < 2 ^ 31 ->
  wp (vformat_loop fuel (f ++ NUL :: ftl) cur vec touched (zlen (bulks ss)) ap)
     (λ p _, parsed_post (ss ++ out) p) w.
Proof.
  revert f ap cur c vec ss touched out w.
  induction fuel as [|fuel IH]; intros f ap cur c vec ss touched out w Hf HN Hcur Hvec Htc Hout Hroom;
    [lia|].
  cbn [vformat_loop].
  destruct f as [|x f1]; cbn [app fmt_args length] in *.
  { wp_step. eapply wp_lift_ok; [apply load_0|]. rewrite decide_True by done. wp_steps.
    injection Hout as <-. by exists c, ss. }
  (* appending [t] and going on with [f2] *)
  assert (∀ t f2 ap2 s w2, (length f2 < S (length f1))%nat -> NUL ∉ f2 ->
    fmt_args f2 ap2 (c ++ t) true = Some out -> sds_post (c ++ t) s ->
    wp (match s with
        | None => mret MemoryErr
        | Some s => vformat_loop fuel (f2 ++ NUL :: ftl) s vec true (zlen (bulks ss)) ap2
        end) (λ p _, parsed_post (ss ++ out) p) w2) as Hgo.
  { intros t f2 ap2 [s|] w2 Hlt HN2 Hout2 Hs; [|by wp_steps].
    eapply (IH f2 ap2); try done. lia. }
  assert (∀ t f2 ap2, fmt_args f2 ap2 (c ++ t) true = Some out ->
    zlen c + zlen t + SDS_MAX_PREALLOC < 2 ^ 31) as Hlen.
  { intros t f2 ap2 E. destruct (fmt_args_grow _ _ _ _ E) as (y & o & ->).
    pose proof (zlen_bulks_in ((c ++ t) ++ y) (ss ++ ((c ++ t) ++ y) :: o)) as Hb.
    rewrite elem_of_app, elem_of_cons in Hb. specialize (Hb ltac:(tauto)). zl. }
  apply not_elem_of_cons in HN as [Hx HN].
  assert (∃ next q, f1 ++ NUL :: ftl = next :: q) as (next & q & Eq) by (destruct f1; eauto).
  wp_step. eapply wp_lift_ok; [apply load_0|]. rewrite decide_False by done.
  wp_step. eapply wp_lift_ok; [apply ptr_add_1|].
  wp_step. eapply wp_lift_ok; [rewrite Eq; apply load_1|].
  destruct (decide (x = "%"%char)) as [->|Hpc].
  - destruct f1 as [|d f2].
    + injection Eq as <- <-. rewrite bool_decide_true by auto. rewrite decide_False by done.
      assert (fmt_args [] ap (c ++ ["%"%char]) true = Some out) as Hout2 by done.
      wp_step. eapply wp_mono; [apply (sdscatlen_wp cur c); [done | zl | by eapply (Hlen ["%"%char])]|].
      intros s w' Hs. eapply (Hgo ["%"%char] []); [simpl; lia | apply not_elem_of_nil | done | done].
    + injection Eq as <- <-. apply not_elem_of_cons in HN as [Hd HN].
      rewrite bool_decide_false by (intros [?|?]; done).
      destruct (directive_text d ap) as [[t ap']|] eqn:Ht; [|done].
      wp_step. eapply wp_mono; [eapply convert_wp; [done | done | by eapply Hlen]|].
      intros o w' (a & -> & Ha).
      pose proof (Hgo t f2 ap' a w' ltac:(simpl; lia) HN Hout Ha). by destruct a.
  - rewrite bool_decide_true by auto. case_decide as Hsp.
    + destruct touched.
      * apply fmap_Some in Hout as (out' & Hout & ->).
        change (c :: out') with ([c] ++ out') in *. rewrite app_assoc in *.
        wp_step. eapply wp_mono; [apply push_arg_wp; [done..|]|].
        { unfold bulks, SDS_MAX_PREALLOC in *. rewrite map_app, concat_app in Hroom. zl. }
        intros [[vec' tot]|] w'; [|intros; by wp_steps]. intros [Hvec' ->].
        wp_step. eapply wp_mono; [apply sdsempty_wp|].
        intros [s|] w2 Hs; [|by wp_steps]. eapply IH; try done. simpl in Hf. lia.
      * eapply IH; try done. simpl in Hf. lia.
    + wp_step. eapply wp_mono; [apply (sdscatlen_wp cur c); [done | zl | by eapply (Hlen [x])]|].
      intros s w' Hs. eapply (Hgo [x] f1); [lia | done | done | done].
Qed.

Lemma redisvFormatCommand_wp f ftl ap ss w :
  NUL ∉ f -> fmt_args f ap [] false = Some ss ->
  zlen (encode (command ss)) + SDS_MAX_PREALLOC < 2 ^ 31 ->
  wp (redisvFormatCommand true (f ++ NUL :: ftl) ap) (block_post ss) w.
Proof.
  intros Hf Hss Hroom. pose proof (zlen_command ss) as Hlen. pose proof (zlen_bulks_count ss).
  pose proof (zlen_nonneg (itoa (zlen ss))). pose proof (zlen_nonneg (bulks ss)).
  pose proof (zlen_nonneg ss). unfold SDS_MAX_PREALLOC in *.
  unfold redisvFormatCommand. cbn [negb]. wp_step.
  eapply wp_mono; [apply sdsempty_wp|]. intros [cur|] w1 Hcur; [|by wp_steps].
  wp_step. eapply wp_mono.
  { apply (vformat_loop_wp _ f ftl ap cur [] [] [] false ss); try done.
    - rewrite length_app. simpl. lia.
    - cbn [app]. unfold SDS_MAX_PREALLOC. lia. }
  cbn [app]. intros [cur' vec touched tot| |] w2 Hp; [|by wp_steps|done].
  destruct Hp as (c & ss' & Hcur' & Hvec & -> & Hout). wp_step.
  apply wp_mono with (λ o _, match o with
    | None => oom W
    | Some (vec', tot') => Forall2 sds_rep vec' ss ∧ tot' = zlen (bulks ss) end).
  { destruct touched.
    - subst ss. apply push_arg_wp; [done | done | lia].
    - wp_steps. rewrite app_nil_r in Hout. by subst. }
  clear dependent vec. intros [[vec tot]|] w3; [|intros; by wp_steps]. intros [Hvec ->].
  assert (zlen vec = zlen ss) as Hvl by (unfold zlen; f_equal; by eapply Forall2_length).
  wp_step. rewrite Hvl, header_len by lia. wp_steps.
  replace (zlen (bulks ss) + (1 + zlen (itoa (zlen ss)) + 2)) with (zlen (encode (command ss))) by lia.
  csimp. apply wp_malloc; [lia | intros; by wp_steps |].
  intros cmd w' Hcmd. wp_step. eapply wp_lift_ok.
  { apply write_command_ok; [|done|lia]. apply Forall2_fmap_l.
    eapply Forall2_impl; [|done]. intros s b Hs. unfold compose, holds. cbn [fst snd]. rewrite (sds_rep_len s b) by done.
    destruct Hs as (tl & -> & _). by eexists. }
  by wp_steps.
Qed.
End vformat.
