(* ===== verification/Kernel.v ===== *)
(** * Kernel: the system calls the client makes

    Sockets are not under the program's control: a class whose instances say
    what each call returns in a world.  [errno] is part of the world.  The
    scripted kernel is the instance that follows a list of results, one per
    call, so that a theorem about every script is a theorem about every
    behaviour of the peer. *)

From Stdlib Require Import ZArith Lia Ascii.
From stdpp Require Import base list strings gmap numbers.
From S2P Require Import Prelude Libc.

(** ** errno values (Linux) *)
Definition EINTR : Z := 4.
Definition EAGAIN : Z := 11.
Definition EADDRNOTAVAIL : Z := 99.
Definition ETIMEDOUT : Z := 110.
Definition EHOSTUNREACH : Z := 113.
Definition EINPROGRESS : Z := 115.

Definition AF_LOCAL : Z := 1.
Definition AF_INET : Z := 2.
Definition AF_INET6 : Z := 10.
Definition O_NONBLOCK : Z := 2048.

Inductive sockopt :=
  | SO_REUSEADDR | SO_KEEPALIVE (val : Z) | TCP_KEEPIDLE (val : Z) | TCP_KEEPINTVL (val : Z)
  | TCP_KEEPCNT (val : Z) | TCP_NODELAY | SO_RCVTIMEO (sec usec : Z) | SO_SNDTIMEO (sec usec : Z).

(** The kernel's address structures are opaque. *)
Inductive addr :=
  | Inet (family id : Z)
  | Local (path : bytes).

Class Kernel (W : Type) := {
  errno : W -> Z;
  set_errno : Z -> W -> W;
  (** messages of [strerror] and [gai_strerror], without terminator *)
  strerror : Z -> bytes;
  gai_strerror : Z -> bytes;
  sys_read : Z -> Z -> W -> option bytes * W;
  sys_write : Z -> bytes -> W -> Z * W;
  sys_close : Z -> W -> W;
  sys_socket : Z -> W -> Z * W;
  sys_getfl : Z -> W -> Z * W;
  sys_setfl : Z -> Z -> W -> Z * W;
  sys_setsockopt : Z -> sockopt -> W -> Z * W;
  (** result and [SO_ERROR] value *)
  sys_so_error : Z -> W -> (Z * Z) * W;
  sys_poll : Z -> Z -> W -> Z * W;
  (** an error code, or the addresses *)
  sys_getaddrinfo : option bytes -> option bytes -> Z -> W -> (Z + list addr) * W;
  sys_bind : Z -> addr -> W -> Z * W;
  sys_connect : Z -> addr -> W -> Z * W;

  strerror_NUL e : NUL ∉ strerror e;
  gai_strerror_NUL e : NUL ∉ gai_strerror e;
  sys_read_len fd n w b w' : 0 ≤ n -> sys_read fd n w = (Some b, w') -> zlen b ≤ n;
  sys_write_len fd b w r w' : sys_write fd b w = (r, w') -> -1 ≤ r ≤ zlen b;
}.

(** The [n] bytes at [p] that a call hands to the kernel. *)
Definition user_bytes (p : bytes) (n : Z) : res bytes :=
  if bool_decide (0 ≤ n ≤ zlen p) then Ok (take (Z.to_nat n) p) else Stuck.

Section kernel.
Context {W : Type} `{!Kernel W}.

(** A system call as a computation. *)
Definition sys {A} (f : W -> A * W) : M W A := λ w, Ok (f w).
Definition get_errno : M W Z := λ w, Ok (errno w, w).
Definition put_errno (e : Z) : M W unit := λ w, Ok (tt, set_errno e w).
Definition close (fd : Z) : M W unit := λ w, Ok (tt, sys_close fd w).

(** [strerror_r] (POSIX): the message of [e], cut to [len], at [pos]. *)
Definition strerror_r (e : Z) (buf : bytes) (pos len : Z) : res bytes :=
  let n := Z.min (zlen (strerror e)) (len - 1) in
  buf ← memcpy buf pos (strerror e) n;
  store buf (pos + n) NUL.

Lemma wp_sys {A} (f : W -> A * W) (Q : A -> W -> Prop) w :
  (let '(a, w') := f w in Q a w') -> wp (sys f) Q w.
Proof. unfold wp, sys. by destruct (f w). Qed.

Lemma wp_get_errno (Q : Z -> W -> Prop) w : Q (errno w) w -> wp get_errno Q w.
Proof. done. Qed.

Lemma wp_put_errno e (Q : unit -> W -> Prop) w : Q tt (set_errno e w) -> wp (put_errno e) Q w.
Proof. done. Qed.

Lemma wp_close fd (Q : unit -> W -> Prop) w : Q tt (sys_close fd w) -> wp (close fd) Q w.
Proof. done. Qed.

Lemma strerror_r_ok e buf pos len :
  0 ≤ pos -> 1 ≤ len -> pos + len ≤ zlen buf ->
  ∃ tl, strerror_r e buf pos len
        = Ok (take (Z.to_nat pos) buf ++ take (Z.to_nat (len - 1)) (strerror e) ++ NUL :: tl) ∧
    pos + Z.min (zlen (strerror e)) (len - 1) + 1 + zlen tl = zlen buf.
Proof.
  intros Hp Hl Hfit. unfold strerror_r.
  set (n := Z.min _ _). pose proof (zlen_nonneg (strerror e)).
  destruct (split_zlen buf pos) as (a & b & -> & Ha); [zl|].
  destruct (split_zlen b n) as (b1 & b2 & -> & Hb1); [zl|].
  destruct b2 as [|x b2]; [zl|].
  rewrite memcpy_app by lia. rsimpl.
  assert (zlen (take (Z.to_nat n) (strerror e)) = n) as Hn by (apply zlen_take; lia).
  rewrite app_assoc, store_app by zl. exists b2. split; [|zl].
  rewrite <- app_assoc, <- Ha, take_zlen.
  assert (take (Z.to_nat n) (strerror e) = take (Z.to_nat (len - 1)) (strerror e)) as ->; [|done].
  unfold n. destruct (Z.min_spec (zlen (strerror e)) (len - 1)) as [[? ->]|[? ->]]; [|done].
  rewrite !take_ge; [done | |]; unfold zlen in *; lia.
Qed.
End kernel.

(** ** The scripted kernel *)
Inductive write_result :=
  | Accept (n : Z)      (** at most [n] bytes are taken *)
  | WriteFail (e : Z).
Inductive read_result :=
  | Chunk (b : bytes)
  | Eof
  | ReadFail (e : Z).

Record script := Script {
  k_errno : Z;
  k_sent : bytes;                (** what the peer has received *)
  k_open : gset Z;               (** open descriptors *)
  k_writes : list write_result;
  k_reads : list read_result;
  k_calls : list Z;              (** results of the other calls; a negative
                                     one is an error, with its errno *)
}.

Definition with_errno (e : Z) (k : script) : script :=
  Script e (k_sent k) (k_open k) (k_writes k) (k_reads k) (k_calls k).

(** The next result of the script for the other calls; 0 when it ends. *)
Definition scripted (k : script) : Z * script :=
  match k_calls k with
  | [] => (0, k)
  | z :: l =>
      let k' := Script (if bool_decide (z < 0) then - z else k_errno k) (k_sent k) (k_open k)
                  (k_writes k) (k_reads k) l in
      (if bool_decide (z < 0) then -1 else z, k')
  end.

Definition script_read (n : Z) (k : script) : option bytes * script :=
  match k_reads k with
  | [] => (Some [], k)
  | x :: l =>
      let k' e := Script e (k_sent k) (k_open k) (k_writes k) l (k_calls k) in
      match x with
      | Chunk b =>
          (Some (take (Z.to_nat n) b),
           Script (k_errno k) (k_sent k) (k_open k) (k_writes k)
             (if bool_decide (zlen b ≤ n) then l else Chunk (drop (Z.to_nat n) b) :: l) (k_calls k))
      | Eof => (Some [], k' (k_errno k))
      | ReadFail e => (None, k' e)
      end
  end.

Definition script_write (b : bytes) (k : script) : Z * script :=
  match k_writes k with
  | [] => (zlen b, Script (k_errno k) (k_sent k ++ b) (k_open k) [] (k_reads k) (k_calls k))
  | Accept n :: l =>
      let n := Z.max 0 (Z.min n (zlen b)) in
      (n, Script (k_errno k) (k_sent k ++ take (Z.to_nat n) b) (k_open k) l (k_reads k) (k_calls k))
  | WriteFail e :: l => (-1, Script e (k_sent k) (k_open k) l (k_reads k) (k_calls k))
  end.

Definition script_open (k : script) : Z * script :=
  let '(r, k) := scripted k in
  if bool_decide (r < 0) then (-1, k) else
  let fd := 1 + set_fold Z.max 2 (k_open k) in
  (fd, Script (k_errno k) (k_sent k) ({[fd]} ∪ k_open k) (k_writes k) (k_reads k) (k_calls k)).

Definition script_so_error (k : script) : (Z * Z) * script :=
  let '(r, k) := scripted k in ((0, r), k).

Definition script_getaddrinfo (fam : Z) (k : script) : (Z + list addr) * script :=
  let '(r, k) := scripted k in
  (if bool_decide (r < 0) then inl r else inr [Inet fam 1; Inet fam 2], k).

#[export] Program Instance script_kernel : Kernel script := {|
  errno := k_errno;
  set_errno := with_errno;
  strerror e := bs "error " ++ [of_uchar (48 + Z.abs e mod 10)];
  gai_strerror e := bs "gai error";
  sys_read _ := script_read;
  sys_write _ := script_write;
  sys_close fd k := Script (k_errno k) (k_sent k) (k_open k ∖ {[fd]}) (k_writes k) (k_reads k) (k_calls k);
  sys_socket _ := script_open;
  sys_getfl _ := scripted;
  sys_setfl _ _ := scripted;
  sys_setsockopt _ _ := scripted;
  sys_so_error _ := script_so_error;
  sys_poll _ _ := scripted;
  sys_getaddrinfo _ _ := script_getaddrinfo;
  sys_bind _ _ := scripted;
  sys_connect _ _ := scripted;
|}.
Next Obligation.
  intros e H. cbn in H. pose proof (Z.mod_pos_bound (Z.abs e) 10 eq_refl) as Hm.
  repeat (apply elem_of_cons in H as [H|H]; [try done|]); [|by apply not_elem_of_nil in H].
  apply (f_equal uchar) in H. rewrite uchar_of_uchar in H by lia. change (uchar NUL) with 0 in H. lia.
Qed.
Next Obligation. intros e. apply (bool_decide_unpack _). by vm_compute. Qed.
Next Obligation.
  intros ? n k b k' Hn E. unfold script_read in E.
  destruct (k_reads k) as [|[c| |e] l]; simplify_eq; try done.
  unfold zlen. rewrite length_take. lia.
Qed.
Next Obligation.
  intros ? b k r k' E. unfold script_write in E.
  destruct (k_writes k) as [|[n|e] l]; simplify_eq; zl.
Qed.

(** An allocator beside the scripted kernel. *)
Definition scripted_world (A : Type) : Type := A * script.

#[export] Program Instance scripted_libc {A} `{!Libc A} : Libc (scripted_world A) := {|
  malloc n w := ((malloc n (fst w)).1, ((malloc n (fst w)).2, snd w))
|}.
Next Obligation.
  intros A HA n [x k] b w' Hn E. cbn in *. injection E as E _.
  destruct (malloc n x) as [o x'] eqn:Em. cbn in E. subst o. by eapply malloc_zlen.
Qed.

(** A call to the kernel of the second component. *)
Definition on_snd {A K B} (f : K -> B * K) (w : A * K) : B * (A * K) :=
  let '(b, k) := f (snd w) in (b, (fst w, k)).

Definition on_fst {K A B} (f : K -> B * K) (w : K * A) : B * (K * A) :=
  let '(b, k) := f (fst w) in (b, (k, snd w)).

#[export] Program Instance scripted_kernel {A} : Kernel (scripted_world A) := {|
  errno w := errno (snd w);
  set_errno e w := (fst w, set_errno e (snd w));
  strerror := strerror (W := script);
  gai_strerror := gai_strerror (W := script);
  sys_read fd n := on_snd (sys_read fd n);
  sys_write fd b := on_snd (sys_write fd b);
  sys_close fd w := (fst w, sys_close fd (snd w));
  sys_socket f := on_snd (sys_socket f);
  sys_getfl fd := on_snd (sys_getfl fd);
  sys_setfl fd fl := on_snd (sys_setfl fd fl);
  sys_setsockopt fd o := on_snd (sys_setsockopt fd o);
  sys_so_error fd := on_snd (sys_so_error fd);
  sys_poll fd ms := on_snd (sys_poll fd ms);
  sys_getaddrinfo h p f := on_snd (sys_getaddrinfo h p f);
  sys_bind fd a := on_snd (sys_bind fd a);
  sys_connect fd a := on_snd (sys_connect fd a);
|}.
Next Obligation. intros A. apply strerror_NUL. Qed.
Next Obligation. intros A. apply gai_strerror_NUL. Qed.
Next Obligation.
  intros A fd n [x k] b w' Hn E. unfold on_snd in E. cbn [fst snd] in E.
  destruct (sys_read fd n k) as [o k'] eqn:Er. simplify_eq. by eapply sys_read_len.
Qed.
Next Obligation.
  intros A fd b [x k] r w' E. unfold on_snd in E. cbn [fst snd] in E.
  destruct (sys_write fd b k) as [o k'] eqn:Er. simplify_eq. by eapply sys_write_len.
Qed.

Lemma scripted_no_oom {A} `{!Libc A} : ¬ oom A -> ¬ oom (scripted_world A).
Proof. intros H (n & [x k] & E). apply H. by exists n, x. Qed.
