(* ===== verification/Context.v ===== *)
(** * Context: the connection context of hiredis (hiredis.h, hiredis.c)

    The record [redisContext], its error field, and the operations that
    move its buffers: reading from the socket into the reader, writing the
    output buffer to the socket, and appending a command.  The object
    functions of the reader are a parameter. *)

From Stdlib Require Import ZArith Lia Ascii.
From stdpp Require Import base list strings gmap numbers.
From S2P Require Import Prelude Libc Printf Sds Reader Command Kernel.

Definition REDIS_BLOCK : Z := 1.
Definition REDIS_CONNECTED : Z := 2.
Definition REDIS_DISCONNECTING : Z := 4.
Definition REDIS_FREEING : Z := 8.
Definition REDIS_IN_CALLBACK : Z := 16.
Definition REDIS_SUBSCRIBED : Z := 32.
Definition REDIS_MONITORING : Z := 64.
Definition REDIS_REUSEADDR : Z := 128.
Definition REDIS_KEEPALIVE_INTERVAL : Z := 15.
Definition REDIS_CONNECT_RETRIES : nat := 10.

Inductive redisConnectionType :=
  | REDIS_CONN_TCP
  | REDIS_CONN_UNIX.

Record timeval := Timeval { tv_sec : Z; tv_usec : Z }.

Record redisContext (Ob : Type) := Ctx {
  c_err : Z;
  c_errstr : bytes; (** char errstr[128] *)
  c_fd : Z;
  c_flags : Z;
  c_obuf : option sdshdr;
  c_reader : option (redisReader Ob);
  c_connection_type : redisConnectionType;
  c_timeout : option timeval;
  c_host : option bytes;
  c_source_addr : option bytes;
  c_port : Z;
  c_path : option bytes;
}.
Arguments Ctx {Ob}.
Arguments c_err {Ob}.
Arguments c_errstr {Ob}.
Arguments c_fd {Ob}.
Arguments c_flags {Ob}.
Arguments c_obuf {Ob}.
Arguments c_reader {Ob}.
Arguments c_connection_type {Ob}.
Arguments c_timeout {Ob}.
Arguments c_host {Ob}.
Arguments c_source_addr {Ob}.
Arguments c_port {Ob}.
Arguments c_path {Ob}.

Section setters.
Context {Ob : Type}.
Implicit Type c : redisContext Ob.

Definition set_error c (e : Z) (str : bytes) : redisContext Ob :=
  Ctx e str (c_fd c) (c_flags c) (c_obuf c) (c_reader c) (c_connection_type c)
    (c_timeout c) (c_host c) (c_source_addr c) (c_port c) (c_path c).
Definition set_fd c (fd : Z) : redisContext Ob :=
  Ctx (c_err c) (c_errstr c) fd (c_flags c) (c_obuf c) (c_reader c) (c_connection_type c)
    (c_timeout c) (c_host c) (c_source_addr c) (c_port c) (c_path c).
Definition set_flags c (fl : Z) : redisContext Ob :=
  Ctx (c_err c) (c_errstr c) (c_fd c) fl (c_obuf c) (c_reader c) (c_connection_type c)
    (c_timeout c) (c_host c) (c_source_addr c) (c_port c) (c_path c).
Definition set_obuf c (b : option sdshdr) : redisContext Ob :=
  Ctx (c_err c) (c_errstr c) (c_fd c) (c_flags c) b (c_reader c) (c_connection_type c)
    (c_timeout c) (c_host c) (c_source_addr c) (c_port c) (c_path c).
Definition set_reader c (r : option (redisReader Ob)) : redisContext Ob :=
  Ctx (c_err c) (c_errstr c) (c_fd c) (c_flags c) (c_obuf c) r (c_connection_type c)
    (c_timeout c) (c_host c) (c_source_addr c) (c_port c) (c_path c).
(** The connection's parameters. *)
Definition set_peer c (t : redisConnectionType) (tmo : option timeval)
    (host src : option bytes) (port : Z) (path : option bytes) : redisContext Ob :=
  Ctx (c_err c) (c_errstr c) (c_fd c) (c_flags c) (c_obuf c) (c_reader c) t
    tmo host src port path.

(** [c->flags & f] as a condition. *)
Definition has_flag c (f : Z) : bool := bool_decide (Z.land (c_flags c) f ≠ 0).
Definition add_flag c (f : Z) : redisContext Ob := set_flags c (Z.lor (c_flags c) f).
Definition clear_flag c (f : Z) : redisContext Ob := set_flags c (Z.ldiff (c_flags c) f).
End setters.

Section context.
Context {W : Type} `{!Libc W, !Kernel W} {Ob : Type}.
Context (fn : option (redisReplyObjectFunctions W Ob)).
Implicit Type c : redisContext Ob.

Definition __redisSetError c (type : Z) (str : option bytes) : M W (redisContext Ob) :=
  match str with
  | Some str =>
      len ← lift (strlen str);
      let len := if bool_decide (len < 127) then len else 127 in
      e ← lift (memcpy (c_errstr c) 0 str len);
      e ← lift (store e len NUL);
      mret (set_error c type e)
  | None =>
      _ ← massert (bool_decide (type = REDIS_ERR_IO));
      no ← get_errno;
      e ← lift (strerror_r no (c_errstr c) 0 128);
      mret (set_error c type e)
  end.

(** ** Reading and writing the socket *)
Definition redisBufferRead c : M W (redisContext Ob * Z) :=
  if bool_decide (c_err c ≠ 0) then mret (c, REDIS_ERR) else
  nread ← sys (sys_read (c_fd c) (1024 * 16));
  match nread with
  | None =>
      no ← get_errno;
      if bool_decide (no = EAGAIN ∧ has_flag c REDIS_BLOCK = false ∨ no = EINTR)
      then mret (c, REDIS_OK)
      else c ← __redisSetError c REDIS_ERR_IO None; mret (c, REDIS_ERR)
  | Some buf =>
      let nread := i32 (zlen buf) in
      if bool_decide (nread = 0) then
        c ← __redisSetError c REDIS_ERR_EOF (Some (cstr "Server closed the connection"));
        mret (c, REDIS_ERR)
      else
        r ← lift (deref (c_reader c));
        '(r, st) ← redisReaderFeed fn r (Some buf) (u64 nread);
        let c := set_reader c (Some r) in
        if bool_decide (st ≠ REDIS_OK) then
          c ← __redisSetError c (r_err r) (Some (r_errstr r)); mret (c, REDIS_ERR)
        else mret (c, REDIS_OK)
  end.

(** The context, the status, and [*done] when it is written. *)
Definition redisBufferWrite c : M W (redisContext Ob * Z * option bool) :=
  if bool_decide (c_err c ≠ 0) then mret (c, REDIS_ERR, None) else
  obuf ← lift (deref (c_obuf c));
  let finish c :=
    b ← lift (deref (c_obuf c)); mret (c, REDIS_OK, Some (bool_decide (sdslen b = 0))) in
  if bool_decide (sdslen obuf > 0) then
    p ← lift (user_bytes (sh_buf obuf) (sdslen obuf));
    nwritten ← sys (sys_write (c_fd c) p);
    let nwritten := i32 nwritten in
    if bool_decide (nwritten = -1) then
      no ← get_errno;
      if bool_decide (no = EAGAIN ∧ has_flag c REDIS_BLOCK = false ∨ no = EINTR)
      then finish c
      else c ← __redisSetError c REDIS_ERR_IO None; mret (c, REDIS_ERR, None)
    else if bool_decide (nwritten > 0) then
      if bool_decide (nwritten = i32 (sdslen obuf)) then
        b ← sdsempty; finish (set_obuf c b)
      else
        b ← lift (sdsrange obuf nwritten (-1)); finish (set_obuf c (Some b))
    else finish c
  else finish c.

(** ** Replies *)

(** The status, and [*reply] when it is written. *)
Definition redisGetReplyFromReader c : M W (redisContext Ob * Z * vptr Ob) :=
  r ← lift (deref (c_reader c));
  '(r, st, o) ← redisReaderGetReply fn r;
  let c := set_reader c (Some r) in
  if bool_decide (st = REDIS_ERR) then
    c ← __redisSetError c (r_err r) (Some (r_errstr r)); mret (c, REDIS_ERR, Null)
  else mret (c, REDIS_OK, o).

(** [do redisBufferWrite while (!wdone)], at most [fuel] rounds. *)
Fixpoint write_all (fuel : nat) c {struct fuel} : M W (redisContext Ob * Z) :=
  match fuel with
  | O => stuck
  | S fuel' =>
      '(c, st, done) ← redisBufferWrite c;
      if bool_decide (st = REDIS_ERR) then mret (c, REDIS_ERR) else
      if default false done then mret (c, REDIS_OK) else write_all fuel' c
  end.

(** [do redisBufferRead, redisGetReplyFromReader while (aux == NULL)]. *)
Fixpoint read_until (fuel : nat) c {struct fuel} : M W (redisContext Ob * Z * vptr Ob) :=
  match fuel with
  | O => stuck
  | S fuel' =>
      '(c, st) ← redisBufferRead c;
      if bool_decide (st = REDIS_ERR) then mret (c, REDIS_ERR, Null) else
      '(c, st, aux) ← redisGetReplyFromReader c;
      if bool_decide (st = REDIS_ERR) then mret (c, REDIS_ERR, Null) else
      if is_null aux then read_until fuel' c else mret (c, REDIS_OK, aux)
  end.

(** The fuel bounds the rounds of each loop; the peer decides how many
    there are. *)
Definition redisGetReply (fuel : nat) c : M W (redisContext Ob * Z * vptr Ob) :=
  '(c, st, aux) ← redisGetReplyFromReader c;
  if bool_decide (st = REDIS_ERR) then mret (c, REDIS_ERR, Null) else
  if is_null aux && has_flag c REDIS_BLOCK then
    '(c, st) ← write_all fuel c;
    if bool_decide (st = REDIS_ERR) then mret (c, REDIS_ERR, Null) else
    read_until fuel c
  else mret (c, REDIS_OK, aux).

(** ** Commands *)
Definition __redisAppendCommand c (cmd : bytes) (len : Z) : M W (redisContext Ob * Z) :=
  obuf ← lift (deref (c_obuf c));
  newbuf ← sdscatlen obuf cmd len;
  match newbuf with
  | None =>
      c ← __redisSetError c REDIS_ERR_OOM (Some (cstr "Out of memory")); mret (c, REDIS_ERR)
  | Some b => mret (set_obuf c (Some b), REDIS_OK)
  end.

Definition redisAppendFormattedCommand c (cmd : bytes) (len : Z) : M W (redisContext Ob * Z) :=
  '(c, st) ← __redisAppendCommand c cmd len;
  if bool_decide (st ≠ REDIS_OK) then mret (c, REDIS_ERR) else mret (c, REDIS_OK).

Definition redisvAppendCommand c (format : bytes) (ap : list varg) : M W (redisContext Ob * Z) :=
  '(cmd, len) ← redisvFormatCommand true format ap;
  if bool_decide (len = -1) then
    c ← __redisSetError c REDIS_ERR_OOM (Some (cstr "Out of memory")); mret (c, REDIS_ERR)
  else if bool_decide (len = -2) then
    c ← __redisSetError c REDIS_ERR_OTHER (Some (cstr "Invalid format string"));
    mret (c, REDIS_ERR)
  else
    cmd ← lift (deref cmd);
    '(c, st) ← __redisAppendCommand c cmd (u64 len);
    if bool_decide (st ≠ REDIS_OK) then mret (c, REDIS_ERR) else mret (c, REDIS_OK).

Definition redisAppendCommand := redisvAppendCommand.

Definition redisAppendCommandArgv c (argv : list bytes) (argvlen : option (list Z)) :
    M W (redisContext Ob * Z) :=
  '(cmd, len) ← redisFormatSdsCommandArgv true argv argvlen;
  if bool_decide (len = -1) then
    c ← __redisSetError c REDIS_ERR_OOM (Some (cstr "Out of memory")); mret (c, REDIS_ERR)
  else
    cmd ← lift (deref cmd);
    '(c, st) ← __redisAppendCommand c (sh_buf cmd) (u64 len);
    if bool_decide (st ≠ REDIS_OK) then mret (c, REDIS_ERR) else mret (c, REDIS_OK).

Definition __redisBlockForReply (fuel : nat) c : M W (redisContext Ob * vptr Ob) :=
  if has_flag c REDIS_BLOCK then
    '(c, st, reply) ← redisGetReply fuel c;
    if bool_decide (st ≠ REDIS_OK) then mret (c, Null) else mret (c, reply)
  else mret (c, Null).

Definition redisvCommand (fuel : nat) c (format : bytes) (ap : list varg) :
    M W (redisContext Ob * vptr Ob) :=
  '(c, st) ← redisvAppendCommand c format ap;
  if bool_decide (st ≠ REDIS_OK) then mret (c, Null) else __redisBlockForReply fuel c.

Definition redisCommand := redisvCommand.

Definition redisCommandArgv (fuel : nat) c (argv : list bytes) (argvlen : option (list Z)) :
    M W (redisContext Ob * vptr Ob) :=
  '(c, st) ← redisAppendCommandArgv c argv argvlen;
  if bool_decide (st ≠ REDIS_OK) then mret (c, Null) else __redisBlockForReply fuel c.

(** ** Life of a context *)
Definition redisContextInit : M W (option (redisContext Ob)) :=
  o ← c_calloc 240;
  match o with
  | None => mret None
  | Some _ =>
      obuf ← sdsempty;
      reader ← redisReaderCreateWithFunctions;
      match obuf, reader with
      | Some b, Some r =>
          mret (Some (Ctx 0 (replicate 128 NUL) 0 0 (Some b) (Some r) REDIS_CONN_TCP
                        None None None 0 None))
      | _, Some r => _ ← redisReaderFree fn r; mret None
      | _, None => mret None
      end
  end.

(** What freeing releases beyond memory: the descriptor and the reader's
    object under construction. *)
Definition redisFree (c : option (redisContext Ob)) : M W unit :=
  match c with
  | None => mret tt
  | Some c =>
      _ ← (if bool_decide (c_fd c > 0) then close (c_fd c) else mret tt);
      match c_reader c with Some r => redisReaderFree fn r | None => mret tt end
  end.

Definition redisFreeKeepFd c : M W Z :=
  let fd := c_fd c in
  _ ← redisFree (Some (set_fd c (-1)));
  mret fd.
End context.
