(* ===== verification/Net.v ===== *)
(** * Net: connecting a context (net.c, hiredis.c)

    Sockets options, waiting for a connection, and the loops over addresses
    of [_redisContextConnectTcp], with the connection functions of hiredis.c
    on top.  A pointer argument that may be one of the context's own strings
    says so, because the code compares the pointers before it copies. *)

From Stdlib Require Import ZArith Lia Ascii.
From stdpp Require Import base list strings gmap numbers.
From S2P Require Import Prelude Libc Printf Sds Reader Kernel Context.

(** A pointer argument: the context's own field, or another pointer. *)
Inductive arg (A : Type) :=
  | Own
  | Given (o : option A).
Arguments Own {A}.
Arguments Given {A}.

Definition arg_value {A} (own : option A) (a : arg A) : option A :=
  match a with Own => own | Given o => o end.

Section net.
Context {W : Type} `{!Libc W, !Kernel W} {Ob : Type}.
Context (fn : option (redisReplyObjectFunctions W Ob)).
Implicit Type c : redisContext Ob.

Definition redisContextCloseFd c : M W (redisContext Ob) :=
  if bool_decide (0 ≤ c_fd c) then _ ← close (c_fd c); mret (set_fd c (-1)) else mret c.

Definition __redisSetErrorFromErrno c (type : Z) (prefix : option bytes) :
    M W (redisContext Ob) :=
  no ← get_errno;
  '(buf, len) ← lift (match prefix with
                      | Some p => vsnprintf (replicate 128 NUL) 128 (cstr "%s: ") [VPtr p]
                      | None => Ok (replicate 128 NUL, 0) end);
  buf ← lift (strerror_r no buf len (128 - len));
  __redisSetError c type (Some buf).

(** [__redisSetErrorFromErrno(c,...); redisContextCloseFd(c); return REDIS_ERR] *)
Definition fail_errno c (prefix : option bytes) : M W (redisContext Ob * Z) :=
  c ← __redisSetErrorFromErrno c REDIS_ERR_IO prefix;
  c ← redisContextCloseFd c;
  mret (c, REDIS_ERR).

Definition redisSetReuseAddr c : M W (redisContext Ob * Z) :=
  rv ← sys (sys_setsockopt (c_fd c) SO_REUSEADDR);
  if bool_decide (rv = -1) then fail_errno c None else mret (c, REDIS_OK).

Definition redisCreateSocket c (type : Z) : M W (redisContext Ob * Z) :=
  s ← sys (sys_socket type);
  if bool_decide (s = -1) then
    c ← __redisSetErrorFromErrno c REDIS_ERR_IO None; mret (c, REDIS_ERR)
  else
    let c := set_fd c s in
    if bool_decide (type = AF_INET) then
      '(c, st) ← redisSetReuseAddr c;
      if bool_decide (st = REDIS_ERR) then mret (c, REDIS_ERR) else mret (c, REDIS_OK)
    else mret (c, REDIS_OK).

Definition redisSetBlocking c (blocking : bool) : M W (redisContext Ob * Z) :=
  flags ← sys (sys_getfl (c_fd c));
  if bool_decide (flags = -1) then fail_errno c (Some (cstr "fcntl(F_GETFL)")) else
  let flags := if blocking then Z.ldiff flags O_NONBLOCK else Z.lor flags O_NONBLOCK in
  rv ← sys (sys_setfl (c_fd c) flags);
  if bool_decide (rv = -1) then fail_errno c (Some (cstr "fcntl(F_SETFL)"))
  else mret (c, REDIS_OK).

(** [__redisSetError(c,REDIS_ERR_OTHER,strerror(errno)); return REDIS_ERR] *)
Definition fail_other c : M W (redisContext Ob * Z) :=
  no ← get_errno;
  c ← __redisSetError c REDIS_ERR_OTHER (Some (strerror no ++ [NUL]));
  mret (c, REDIS_ERR).

Definition redisKeepAlive c (interval : Z) : M W (redisContext Ob * Z) :=
  let fd := c_fd c in
  rv ← sys (sys_setsockopt fd (SO_KEEPALIVE 1));
  if bool_decide (rv = -1) then fail_other c else
  rv ← sys (sys_setsockopt fd (TCP_KEEPIDLE interval));
  if bool_decide (rv < 0) then fail_other c else
  let val := Z.quot interval 3 in
  let val := if bool_decide (val = 0) then 1 else val in
  rv ← sys (sys_setsockopt fd (TCP_KEEPINTVL val));
  if bool_decide (rv < 0) then fail_other c else
  rv ← sys (sys_setsockopt fd (TCP_KEEPCNT 3));
  if bool_decide (rv < 0) then fail_other c else mret (c, REDIS_OK).

Definition redisSetTcpNoDelay c : M W (redisContext Ob * Z) :=
  rv ← sys (sys_setsockopt (c_fd c) TCP_NODELAY);
  if bool_decide (rv = -1) then fail_errno c (Some (cstr "setsockopt(TCP_NODELAY)"))
  else mret (c, REDIS_OK).

Definition MAX_MSEC : Z := Z.quot (LONG_MAX - 999) 1000.

(** The argument of [poll]: [None] for an invalid timeout. *)
Definition timeout_msec (timeout : option timeval) : option Z :=
  match timeout with
  | None => Some (-1)
  | Some tv =>
      if bool_decide (tv_usec tv > 1000000 ∨ tv_sec tv > MAX_MSEC) then None
      else
        let msec := i64 (tv_sec tv * 1000 + Z.quot (tv_usec tv + 999) 1000) in
        Some (if bool_decide (msec < 0 ∨ msec > INT_MAX) then INT_MAX else msec)
  end.

Definition redisCheckSocketError c : M W (redisContext Ob * Z) :=
  '(rv, err) ← sys (sys_so_error (c_fd c));
  if bool_decide (rv = -1) then
    c ← __redisSetErrorFromErrno c REDIS_ERR_IO (Some (cstr "getsockopt(SO_ERROR)"));
    mret (c, REDIS_ERR)
  else if bool_decide (err ≠ 0) then
    _ ← put_errno err;
    c ← __redisSetErrorFromErrno c REDIS_ERR_IO None;
    mret (c, REDIS_ERR)
  else mret (c, REDIS_OK).

Definition redisContextWaitReady c (timeout : option timeval) : M W (redisContext Ob * Z) :=
  match timeout_msec timeout with
  | None => fail_errno c None
  | Some msec =>
      no ← get_errno;
      if bool_decide (no = EINPROGRESS) then
        rv ← sys (sys_poll (c_fd c) (i32 msec));
        if bool_decide (rv = -1) then fail_errno c (Some (cstr "poll(2)"))
        else if bool_decide (rv = 0) then
          _ ← put_errno ETIMEDOUT; fail_errno c None
        else
          '(c, st) ← redisCheckSocketError c;
          if bool_decide (st ≠ REDIS_OK) then mret (c, REDIS_ERR) else mret (c, REDIS_OK)
      else fail_errno c None
  end.

Definition redisContextSetTimeout c (tv : timeval) : M W (redisContext Ob * Z) :=
  rv ← sys (sys_setsockopt (c_fd c) (SO_RCVTIMEO (tv_sec tv) (tv_usec tv)));
  if bool_decide (rv = -1) then
    c ← __redisSetErrorFromErrno c REDIS_ERR_IO (Some (cstr "setsockopt(SO_RCVTIMEO)"));
    mret (c, REDIS_ERR)
  else
    rv ← sys (sys_setsockopt (c_fd c) (SO_SNDTIMEO (tv_sec tv) (tv_usec tv)));
    if bool_decide (rv = -1) then
      c ← __redisSetErrorFromErrno c REDIS_ERR_IO (Some (cstr "setsockopt(SO_SNDTIMEO)"));
      mret (c, REDIS_ERR)
    else mret (c, REDIS_OK).

(** ** The parameters the context keeps for a reconnect *)
Definition strdup (p : bytes) : M W (option bytes) :=
  n ← lift (strlen p);
  b ← c_malloc (u64 (n + 1));
  match b with
  | None => mret None
  | Some b => b ← lift (memcpy b 0 p (n + 1)); mret (Some b)
  end.

(** [if (own != p) own = strdup(p);] *)
Definition keep_string (own : option bytes) (p : arg bytes) : M W (option bytes) :=
  match p, own with
  | Own, _ => mret own
  | Given None, None => mret own
  | Given None, Some _ => stuck
  | Given (Some p), _ => strdup p
  end.

Definition keep_source (own : option bytes) (p : arg bytes) : M W (option bytes) :=
  match arg_value own p with
  | None => mret None
  | Some s => keep_string own p
  end.

Definition keep_timeout (own : option timeval) (t : arg timeval) : M W (option timeval) :=
  match t, arg_value own t with
  | _, None => mret None
  | Own, Some _ => mret own
  | Given _, Some tv =>
      b ← (match own with
           | None => b ← c_malloc 16; mret ((λ _, tt) <$> b)
           | Some _ => mret (Some tt) end);
      _ ← lift (deref b);
      mret (Some tv)
  end.

(** ** TCP *)

(** [for (b = bservinfo; ...) if (bind(...) != -1) { bound = 1; break; }] *)
Fixpoint bind_first (s : Z) (bs : list addr) : M W bool :=
  match bs with
  | [] => mret false
  | b :: bs' =>
      rv ← sys (sys_bind s b);
      if bool_decide (rv ≠ -1) then mret true else bind_first s bs'
  end.

(** [snprintf(buf,sizeof(buf),fmt,msg); __redisSetError(c,REDIS_ERR_OTHER,buf)] *)
Definition set_error_text c (fmt msg : bytes) : M W (redisContext Ob) :=
  '(buf, _) ← lift (vsnprintf (replicate 128 NUL) 128 fmt [VPtr msg]);
  __redisSetError c REDIS_ERR_OTHER (Some buf).

(** Binding the socket to the source address. *)
Definition bind_source c (s family : Z) (reuseaddr : bool) : M W (redisContext Ob * Z) :=
  match c_source_addr c with
  | None => mret (c, REDIS_OK)
  | Some src =>
      r ← sys (sys_getaddrinfo (Some src) None family);
      match r with
      | inl rv =>
          c ← set_error_text c (cstr "Can't get addr: %s") (gai_strerror rv ++ [NUL]);
          mret (c, REDIS_ERR)
      | inr bservinfo =>
          n ← (if reuseaddr then sys (sys_setsockopt s SO_REUSEADDR) else mret 0);
          if reuseaddr && bool_decide (n < 0) then mret (c, REDIS_ERR) else
          bound ← bind_first s bservinfo;
          if (bound : bool) then mret (c, REDIS_OK) else
          no ← get_errno;
          c ← set_error_text c (cstr "Can't bind socket: %s") (strerror no ++ [NUL]);
          mret (c, REDIS_ERR)
      end
  end.

(** What the loop does after an address. *)
Inductive step :=
  | Continue
  | Retry     (** [goto addrretry] *)
  | Fail
  | Done.

(** From a failed or successful [connect] to the end of the loop's body. *)
Definition after_connect c (rv : Z) (blocking reuseaddr : bool) (reuses : nat) :
    M W (redisContext Ob * step) :=
  no ← get_errno;
  '(c, next) ←
    (if bool_decide (rv ≠ -1) then mret (c, None)
     else if bool_decide (no = EHOSTUNREACH) then
       c ← redisContextCloseFd c; mret (c, Some Continue)
     else if bool_decide (no = EINPROGRESS) && negb blocking then mret (c, None)
     else if bool_decide (no = EADDRNOTAVAIL) && reuseaddr then
       mret (c, Some (if bool_decide (REDIS_CONNECT_RETRIES ≤ S reuses)%nat then Fail else Retry))
     else
       '(c, st) ← redisContextWaitReady c (c_timeout c);
       mret (c, if bool_decide (st ≠ REDIS_OK) then Some Fail else None));
  match next with
  | Some s => mret (c, s)
  | None =>
      '(c, st) ← (if blocking then redisSetBlocking c true else mret (c, REDIS_OK));
      if bool_decide (st ≠ REDIS_OK) then mret (c, Fail) else
      '(c, st) ← redisSetTcpNoDelay c;
      if bool_decide (st ≠ REDIS_OK) then mret (c, Fail) else
      mret (add_flag c REDIS_CONNECTED, Done)
  end.

Definition try_addr c (p : addr) (family : Z) (blocking reuseaddr : bool) (reuses : nat) :
    M W (redisContext Ob * step) :=
  s ← sys (sys_socket (match p with Inet f _ => f | Local _ => AF_LOCAL end));
  if bool_decide (s = -1) then mret (c, Continue) else
  let c := set_fd c s in
  '(c, st) ← redisSetBlocking c false;
  if bool_decide (st ≠ REDIS_OK) then mret (c, Fail) else
  '(c, st) ← bind_source c s family reuseaddr;
  if bool_decide (st ≠ REDIS_OK) then mret (c, Fail) else
  rv ← sys (sys_connect s p);
  after_connect c rv blocking reuseaddr reuses.

(** The tries of one address; [reuses] counts over all addresses and ends
    the retries when it reaches [REDIS_CONNECT_RETRIES], so this is enough
    fuel. *)
Fixpoint retry_addr (fuel : nat) c (p : addr) (family : Z) (blocking reuseaddr : bool)
    (reuses : nat) : M W (redisContext Ob * step * nat) :=
  '(c, st) ← try_addr c p family blocking reuseaddr reuses;
  match st, fuel with
  | Retry, O => stuck
  | Retry, S fuel' => retry_addr fuel' c p family blocking reuseaddr (S reuses)
  | _, _ => mret (c, st, reuses)
  end.

Fixpoint addr_loop c (ps : list addr) (family : Z) (blocking reuseaddr : bool) (reuses : nat) :
    M W (redisContext Ob * Z) :=
  match ps with
  | [] =>
      no ← get_errno;
      c ← set_error_text c (cstr "Can't create socket: %s") (strerror no ++ [NUL]);
      mret (c, REDIS_ERR)
  | p :: ps' =>
      '(c, st, reuses) ← retry_addr REDIS_CONNECT_RETRIES c p family blocking reuseaddr reuses;
      match st with
      | Continue => addr_loop c ps' family blocking reuseaddr reuses
      | Done => mret (c, REDIS_OK)
      | Fail | Retry => mret (c, REDIS_ERR)
      end
  end.

Definition _redisContextConnectTcp c (ad : arg bytes) (port : Z) (timeout : arg timeval)
    (source_addr : arg bytes) : M W (redisContext Ob * Z) :=
  let blocking := has_flag c REDIS_BLOCK in
  let reuseaddr := has_flag c REDIS_REUSEADDR in
  let addr_ptr := arg_value (c_host c) ad in
  host ← keep_string (c_host c) ad;
  tmo ← keep_timeout (c_timeout c) timeout;
  src ← keep_source (c_source_addr c) source_addr;
  let c := set_peer c REDIS_CONN_TCP tmo host src port (c_path c) in
  '(_port, _) ← lift (vsnprintf (replicate 6 NUL) 6 (cstr "%d") [VInt port]);
  r ← sys (sys_getaddrinfo (c_host c) (Some _port) AF_INET);
  match r with
  | inr servinfo => addr_loop c servinfo AF_INET blocking reuseaddr 0
  | inl _ =>
      r ← sys (sys_getaddrinfo addr_ptr (Some _port) AF_INET6);
      match r with
      | inr servinfo => addr_loop c servinfo AF_INET6 blocking reuseaddr 0
      | inl rv =>
          c ← __redisSetError c REDIS_ERR_OTHER (Some (gai_strerror rv ++ [NUL]));
          mret (c, REDIS_ERR)
      end
  end.

Definition redisContextConnectTcp c (ad : arg bytes) (port : Z) (timeout : arg timeval) :=
  _redisContextConnectTcp c ad port timeout (Given None).

Definition redisContextConnectBindTcp c (ad : arg bytes) (port : Z) (timeout : arg timeval)
    (source_addr : arg bytes) :=
  _redisContextConnectTcp c ad port timeout source_addr.

(** ** Unix sockets *)
Definition redisContextConnectUnix c (path : arg bytes) (timeout : arg timeval) :
    M W (redisContext Ob * Z) :=
  let blocking := has_flag c REDIS_BLOCK in
  '(c, st) ← redisCreateSocket c AF_LOCAL;
  if bool_decide (st < 0) then mret (c, REDIS_ERR) else
  '(c, st) ← redisSetBlocking c false;
  if bool_decide (st ≠ REDIS_OK) then mret (c, REDIS_ERR) else
  let path_ptr := arg_value (c_path c) path in
  kept ← keep_string (c_path c) path;
  let c := set_peer c REDIS_CONN_UNIX (c_timeout c) (c_host c) (c_source_addr c)
             (c_port c) kept in
  tmo ← keep_timeout (c_timeout c) timeout;
  let c := set_peer c REDIS_CONN_UNIX tmo (c_host c) (c_source_addr c) (c_port c) kept in
  p ← lift (deref path_ptr);
  p ← lift (cstring p);
  rv ← sys (sys_connect (c_fd c) (Local (take 107 p)));
  no ← get_errno;
  '(c, st) ← (if bool_decide (rv ≠ -1) then mret (c, REDIS_OK)
              else if bool_decide (no = EINPROGRESS) && negb blocking then mret (c, REDIS_OK)
              else redisContextWaitReady c (c_timeout c));
  if bool_decide (st ≠ REDIS_OK) then mret (c, REDIS_ERR) else
  '(c, st) ← (if blocking then redisSetBlocking c true else mret (c, REDIS_OK));
  if bool_decide (st ≠ REDIS_OK) then mret (c, REDIS_ERR) else
  mret (add_flag c REDIS_CONNECTED, REDIS_OK).

(** ** Connecting (hiredis.c) *)

(** [memset(c->errstr, '\0', strlen(c->errstr))] *)
Definition clear_errstr c : res (redisContext Ob) :=
  n ← strlen (c_errstr c);
  e ← memset (c_errstr c) 0 NUL n;
  mret (set_error c 0 e).

Definition redisReconnect c : M W (redisContext Ob * Z) :=
  c ← lift (clear_errstr c);
  _ ← (if bool_decide (c_fd c > 0) then close (c_fd c) else mret tt);
  r ← lift (deref (c_reader c));
  _ ← redisReaderFree fn r;
  obuf ← sdsempty;
  reader ← redisReaderCreateWithFunctions;
  let c := set_reader (set_obuf c obuf) reader in
  match c_connection_type c with
  | REDIS_CONN_TCP => redisContextConnectBindTcp c Own (c_port c) Own Own
  | REDIS_CONN_UNIX => redisContextConnectUnix c Own Own
  end.

(** [redisContextInit], the flags, and the connection; its status is
    dropped, the error is in the context. *)
Definition connect_with (flags : redisContext Ob -> redisContext Ob)
    (connect : redisContext Ob -> M W (redisContext Ob * Z)) :
    M W (option (redisContext Ob)) :=
  c ← redisContextInit fn;
  match c with
  | None => mret None
  | Some c => '(c, _) ← connect (flags c); mret (Some c)
  end.

Definition redisConnect (ip : bytes) (port : Z) :=
  connect_with (λ c, add_flag c REDIS_BLOCK)
    (λ c, redisContextConnectTcp c (Given (Some ip)) port (Given None)).
Definition redisConnectWithTimeout (ip : bytes) (port : Z) (tv : timeval) :=
  connect_with (λ c, add_flag c REDIS_BLOCK)
    (λ c, redisContextConnectTcp c (Given (Some ip)) port (Given (Some tv))).
Definition redisConnectNonBlock (ip : bytes) (port : Z) :=
  connect_with (λ c, clear_flag c REDIS_BLOCK)
    (λ c, redisContextConnectTcp c (Given (Some ip)) port (Given None)).

(** The two functions that do not test the new context for NULL. *)
Definition connect_unchecked (flags : redisContext Ob -> redisContext Ob)
    (connect : redisContext Ob -> M W (redisContext Ob * Z)) :
    M W (option (redisContext Ob)) :=
  c ← redisContextInit fn;
  c ← lift (deref c);
  '(c, _) ← connect (flags c); mret (Some c).
Definition redisConnectBindNonBlock (ip : bytes) (port : Z) (source_addr : option bytes) :=
  connect_unchecked (λ c, clear_flag c REDIS_BLOCK)
    (λ c, redisContextConnectBindTcp c (Given (Some ip)) port (Given None) (Given source_addr)).
Definition redisConnectBindNonBlockWithReuse (ip : bytes) (port : Z)
    (source_addr : option bytes) :=
  connect_unchecked (λ c, add_flag (clear_flag c REDIS_BLOCK) REDIS_REUSEADDR)
    (λ c, redisContextConnectBindTcp c (Given (Some ip)) port (Given None) (Given source_addr)).

Definition redisConnectUnix (path : bytes) :=
  connect_with (λ c, add_flag c REDIS_BLOCK)
    (λ c, redisContextConnectUnix c (Given (Some path)) (Given None)).
Definition redisConnectUnixWithTimeout (path : bytes) (tv : timeval) :=
  connect_with (λ c, add_flag c REDIS_BLOCK)
    (λ c, redisContextConnectUnix c (Given (Some path)) (Given (Some tv))).
Definition redisConnectUnixNonBlock (path : bytes) :=
  connect_with (λ c, clear_flag c REDIS_BLOCK)
    (λ c, redisContextConnectUnix c (Given (Some path)) (Given None)).

Definition redisConnectFd (fd : Z) : M W (option (redisContext Ob)) :=
  c ← redisContextInit fn;
  match c with
  | None => mret None
  | Some c => mret (Some (add_flag (set_fd c fd) (Z.lor REDIS_BLOCK REDIS_CONNECTED)))
  end.

Definition redisSetTimeout c (tv : timeval) : M W (redisContext Ob * Z) :=
  if has_flag c REDIS_BLOCK then redisContextSetTimeout c tv else mret (c, REDIS_ERR).

Definition redisEnableKeepAlive c : M W (redisContext Ob * Z) :=
  '(c, st) ← redisKeepAlive c REDIS_KEEPALIVE_INTERVAL;
  if bool_decide (st ≠ REDIS_OK) then mret (c, REDIS_ERR) else mret (c, REDIS_OK).
End net.

Definition blank : redisContext unit :=
  Ctx 0 (replicate 128 NUL) 0 0 (Some (mk [] [])) None REDIS_CONN_TCP None None None 0 None.

(** A blocking connection to the second address: the first is unreachable. *)
Example connect_second :
  match redisConnect (Ob := unit) (W := scripted_world unit) None (cstr "localhost") 6379
          (tt, Script 0 [] ∅ [] [] [0; 0; 2; 2; - EHOSTUNREACH; 0; 2; 2; 0; 2048]) with
  | Ok (Some c, (_, k)) =>
      (c_err c, c_fd c, c_flags c, bool_decide (k_open k = {[c_fd c]})) = (0, 3, 3, true)
  | _ => False
  end.
Proof. vm_compute. reflexivity. Qed.
