(* ===== verification/NetSpec.v ===== *)
(** * NetSpec: connecting ends, and reports its errors (net.c)

    Whatever the kernel answers, the connection functions return, keep the
    context's error buffer well formed, and an error status comes with an
    error in the context: except under [REDIS_REUSEADDR], where two exits
    leave it blank. *)

From Stdlib Require Import ZArith Lia Ascii.
From stdpp Require Import base list strings gmap numbers.
From S2P Require Import Prelude Libc Printf Sds SdsFormat Reader CommandSpec Kernel Context Net.

(** ** [printf] with one [%s] *)
Lemma format_text l f args out :
  "%"%char ∉ l -> format f Plain args = Ok out ->
  format (l ++ f) Plain args = Ok (l ++ out).
Proof.
  intros Hl Hf. induction l as [|c l IH]; [done|]. apply not_elem_of_cons in Hl as [Hc Hl].
  cbn [app format]. rewrite decide_False by done. rewrite IH by done. done.
Qed.

Lemma cstring_unique a b ta tb :
  NUL ∉ a -> NUL ∉ b -> a ++ NUL :: ta = b ++ NUL :: tb -> a = b.
Proof.
  intros Ha Hb E. apply app_cases in E as [(e & -> & E)|(e & He & -> & E)].
  - destruct e as [|x e]; [apply app_nil_r|]. injection E as <- _.
    exfalso. apply Ha, elem_of_app. right. by left.
  - destruct e as [|x e]; [done|]. injection E as <- _.
    exfalso. apply Hb, elem_of_app. right. by left.
Qed.

Lemma format_s l r p s :
  "%"%char ∉ l -> "%"%char ∉ r -> cstring p = Ok s ->
  format (l ++ "%"%char :: "s"%char :: r) Plain [VPtr p] = Ok (l ++ s ++ r).
Proof.
  intros Hl Hr Hp. apply format_text; [done|].
  cbn [format]. rewrite decide_True by done.
  change (directive_char spec0 "s") with (@None spec).
  assert (fmt_conv spec0 "s" [VPtr p] = Ok (fmt_field spec0 [] s, [])) as ->.
  { unfold fmt_conv. rewrite !decide_False by (done || by apply (bool_decide_unpack _); vm_compute).
    rewrite decide_True by done. rewrite Hp. done. }
  rsimpl. assert (format (r ++ []) Plain [] = Ok (r ++ [])) as E by (by apply format_text).
  rewrite !app_nil_r in E. rewrite E. rsimpl.
  unfold fmt_field. cbn [sp_minus spec0 sp_zero andb sp_width app]. by rewrite pad_to_0.
Qed.

Section reports.
Context {Ob : Type}.
Implicit Type c : redisContext Ob.

Definition ctx_ok c : Prop := zlen (c_errstr c) = 128.

(** Setting an error changes the error fields only. *)
Definition errored c (e : Z) (c' : redisContext Ob) : Prop :=
  ∃ str, c' = set_error c e str ∧ zlen str = 128.

(** The error fields and the descriptor are all that changes. *)
Definition touched c c' : Prop :=
  ∃ e str fd, c' = set_fd (set_error c e str) fd ∧ zlen str = 128.

Lemma touched_refl c : ctx_ok c -> touched c c.
Proof. intros Hc. exists (c_err c), (c_errstr c), (c_fd c). by destruct c. Qed.

Lemma touched_trans c1 c2 c3 : touched c1 c2 -> touched c2 c3 -> touched c1 c3.
Proof.
  intros (e & str & fd & -> & _) (e2 & str2 & fd2 & -> & H). by exists e2, str2, fd2.
Qed.

Lemma touched_ok c c' : touched c c' -> ctx_ok c'.
Proof. by intros (e & str & fd & -> & H). Qed.

Lemma touched_fd c fd : ctx_ok c -> touched c (set_fd c fd).
Proof. intros Hc. exists (c_err c), (c_errstr c), fd. by destruct c. Qed.

(** An error status is reported in the context, and no other is. *)
Definition reports c (p : redisContext Ob * Z) : Prop :=
  touched c p.1 ∧ ((p.2 = REDIS_OK ∧ c_err p.1 = c_err c) ∨ (p.2 = REDIS_ERR ∧ c_err p.1 ≠ 0)).

Lemma reports_ok c : ctx_ok c -> reports c (c, REDIS_OK).
Proof. intros Hc. split; [by apply touched_refl | by left]. Qed.

Lemma errored_reports c e c' : e ≠ 0 -> errored c e c' -> reports c (c', REDIS_ERR).
Proof.
  intros He (str & -> & Hs). split; [|by right].
  exists e, str, (c_fd c). cbn. by destruct c.
Qed.
End reports.

Section net_spec.
Context {W : Type} `{!Libc W, !Kernel W} {Ob : Type} (no_oom : ¬ oom W).
Context (fn : option (redisReplyObjectFunctions W Ob)).
Implicit Type c : redisContext Ob.

(** A terminated string. *)
Definition is_cstring (p : bytes) : Prop := ∃ s tl, p = s ++ NUL :: tl ∧ NUL ∉ s.

Lemma is_cstring_strlen p : is_cstring p -> ∃ n, strlen p = Ok n ∧ 0 ≤ n < zlen p.
Proof.
  intros (s & tl & -> & Hs). exists (zlen s). rewrite strlen_app by done. split; [done|zl].
Qed.

Lemma set_error_wp c e p w :
  ctx_ok c -> is_cstring p ->
  wp (__redisSetError c e (Some p)) (λ c' w', errored c e c' ∧ w' = w) w.
Proof.
  intros Hc Hp. unfold ctx_ok in Hc. destruct (is_cstring_strlen p Hp) as (n & Hn & Hb).
  unfold __redisSetError. wp_step. eapply wp_lift_ok; [exact Hn|].
  set (len := if bool_decide (n < 127) then n else 127).
  assert (0 ≤ len ≤ 127 ∧ len ≤ n) as Hlen by (unfold len; case_bool_decide; lia). clearbody len.
  destruct (split_zlen (c_errstr c) len) as (a & b & E & Ha); [lia|].
  rewrite E in *. destruct b as [|x b]; [zl|].
  pose proof (memcpy_app [] a (x :: b) p 0 len) as Hm. cbn [app] in Hm.
  wp_step. eapply wp_lift_ok; [apply Hm; [done | lia | lia]|].
  assert (zlen (take (Z.to_nat len) p) = len) as Ht by (apply zlen_take; lia).
  wp_step. eapply wp_lift_ok; [apply store_app; lia|]. wp_steps.
  split; [|done]. eexists. split; [done|]. zl.
Qed.

Lemma set_io_error_wp c w :
  ctx_ok c ->
  wp (__redisSetError c REDIS_ERR_IO None) (λ c' w', errored c REDIS_ERR_IO c' ∧ w' = w) w.
Proof.
  intros Hc. unfold __redisSetError. wp_step. apply wp_massert; [done|].
  wp_step. apply wp_get_errno. unfold ctx_ok in Hc.
  destruct (strerror_r_ok (errno w) (c_errstr c) 0 128) as (tl & E & Htl); [lia | lia | lia |].
  wp_step. eapply wp_lift_ok; [exact E|]. wp_steps. split; [|done].
  eexists. split; [done|]. rewrite take_0. cbn [app].
  rewrite zlen_app, zlen_cons. unfold zlen at 1. rewrite length_take. unfold zlen in *. lia.
Qed.

Lemma vsnprintf_cstring fmt args out :
  is_cstring fmt -> (∀ f tl, fmt = f ++ NUL :: tl -> NUL ∉ f -> format f Plain args = Ok out) ->
  NUL ∉ out ->
  ∃ buf, vsnprintf (replicate 128 NUL) 128 fmt args = Ok (buf, zlen out) ∧
    is_cstring buf ∧ zlen buf = 128.
Proof.
  intros (f & tl & -> & Hf) Hout HN.
  destruct (vsnprintf_ok (replicate 128 NUL) 128 f tl args out) as (pre & rest & E & Hpre & Hz & _);
    [done | lia | done | by eapply Hout |].
  eexists. split; [exact E|]. split; [|zl]. exists pre, rest. split; [done|].
  rewrite Hpre. intros H. apply HN. by eapply subseteq_take.
Qed.

Lemma set_errno_error_wp c pre w :
  ctx_ok c -> match pre with
              | None => True
              | Some p => ∃ s, p = s ++ [NUL] ∧ (NUL ∉ s) ∧ zlen s < 100 end ->
  wp (__redisSetErrorFromErrno c REDIS_ERR_IO pre) (λ c' w', errored c REDIS_ERR_IO c' ∧ w' = w) w.
Proof.
  intros Hc Hpre. unfold __redisSetErrorFromErrno. wp_step. apply wp_get_errno. wp_step.
  assert (∃ a b, match pre with
    | Some p => vsnprintf (replicate 128 NUL) 128 (cstr "%s: ") [VPtr p]
    | None => Ok (replicate 128 NUL, 0) end = Ok (a ++ b, zlen a) ∧ zlen (a ++ b) = 128
    ∧ zlen a < 110 ∧ NUL ∉ a) as (a & b & -> & Hab & Ha & HN).
  { destruct pre as [p|]; [|exists [], (replicate 128 NUL); split_and!; try done; apply not_elem_of_nil].
    destruct Hpre as (s & -> & Hs & Hl).
    assert (format (bs "%s: ") Plain [VPtr (s ++ [NUL])] = Ok (s ++ bs ": ")) as Hf.
    { apply (format_s [] (bs ": ")); [apply not_elem_of_nil | apply (bool_decide_unpack _); by vm_compute|].
      unfold cstring. rewrite strlen_app by done. rsimpl. by rewrite take_zlen. }
    destruct (vsnprintf_ok (replicate 128 NUL) 128 (bs "%s: ") [] [VPtr (s ++ [NUL])] (s ++ bs ": "))
      as (pr & rest & E & Hpre & Hz & _); [done | lia | apply (bool_decide_unpack _); by vm_compute | done |].
    rewrite take_ge in Hpre by (rewrite length_app; cbn; unfold zlen in Hl; lia). subst pr.
    exists (s ++ bs ": "), (NUL :: rest). split_and!; [exact E | zl | | ].
    - rewrite zlen_app. change (zlen (bs ": ")) with 2. lia.
    - apply not_elem_of_app. split; [done|]. apply (bool_decide_unpack _). by vm_compute. }
  eapply wp_lift_ok; [done|]. pose proof (zlen_nonneg a).
  destruct (strerror_r_ok (errno w) (a ++ b) (zlen a) (128 - zlen a)) as (tl & E & Htl); [lia..|].
  wp_step. eapply wp_lift_ok; [exact E|]. apply set_error_wp; [done|].
  rewrite take_zlen. eexists (a ++ _), tl. split; [by rewrite <- app_assoc|].
  apply not_elem_of_app. split; [done|]. intros H2. apply (strerror_NUL (errno w)).
  by eapply subseteq_take.
Qed.

Lemma wp_const_errored c e (m : M W (redisContext Ob)) w :
  e ≠ 0 -> wp m (λ c' w', errored c e c' ∧ w' = w) w ->
  wp (c ← m; mret (c, REDIS_ERR)) (λ p _, reports c p) w.
Proof.
  intros He Hm. wp_step. eapply wp_mono; [exact Hm|]. intros c' w' [H _]. wp_steps.
  by eapply errored_reports.
Qed.

Definition short_prefix (pre : option bytes) : Prop :=
  match pre with None => True | Some p => ∃ s, p = s ++ [NUL] ∧ (NUL ∉ s) ∧ zlen s < 100 end.

(** The calls' names are short strings. *)
Lemma short_prefix_cstr str :
  bool_decide (NUL ∉ bs str) && bool_decide (zlen (bs str) < 100) = true ->
  short_prefix (Some (cstr str)).
Proof.
  intros [H1%bool_decide_eq_true H2%bool_decide_eq_true]%andb_prop. by exists (bs str).
Qed.

Lemma closeFd_wp c w :
  ctx_ok c -> wp (redisContextCloseFd c) (λ c' _, touched c c' ∧ c_err c' = c_err c) w.
Proof.
  intros Hc. unfold redisContextCloseFd. case_bool_decide; wp_steps.
  - apply wp_close. wp_steps. split; [by apply touched_fd | done].
  - split; [by apply touched_refl | done].
Qed.

Lemma fail_errno_wp c pre w :
  ctx_ok c -> short_prefix pre -> wp (fail_errno c pre) (λ p _, reports c p) w.
Proof.
  intros Hc Hp. unfold fail_errno. wp_step.
  eapply wp_mono; [by apply set_errno_error_wp|]. intros c1 w1 [H1 _].
  apply (errored_reports _ REDIS_ERR_IO) in H1 as [Ht He]; [|done]. cbn [fst snd] in *.
  wp_step. eapply wp_mono; [apply closeFd_wp; by eapply touched_ok|].
  intros c2 w2 [Ht2 He2]. wp_steps. split; cbn [fst snd].
  - by eapply touched_trans.
  - right. rewrite He2. destruct He as [[? _]|[_ ?]]; done.
Qed.

Ltac destruct_call :=
  lazymatch goal with |- context [let '(_, _) := ?e in wp _ _ _] => destruct e as [? ?] eqn:? end.

(** [run_sys] takes one system call, whatever its result. *)
Ltac run_sys :=
  wp_step; lazymatch goal with |- wp (sys _) _ _ => apply wp_sys end;
  destruct_call; cbv beta iota zeta.
Ltac fail_with := apply fail_errno_wp; [done | first [exact I | apply short_prefix_cstr; by vm_compute]].
Ltac net := repeat first
  [ progress cbv beta iota zeta
  | fail_with
  | run_sys
  | wp_step; lazymatch goal with
      | |- wp get_errno _ _ => apply wp_get_errno
      | |- wp (put_errno _) _ _ => apply wp_put_errno end
  | case_bool_decide
  | wp_step; by apply reports_ok ].

Lemma redisSetReuseAddr_wp c w : ctx_ok c -> wp (redisSetReuseAddr c) (λ p _, reports c p) w.
Proof. intros Hc. unfold redisSetReuseAddr. net. Qed.

Lemma redisSetBlocking_wp c b w : ctx_ok c -> wp (redisSetBlocking c b) (λ p _, reports c p) w.
Proof. intros Hc. unfold redisSetBlocking. net. Qed.

Lemma redisSetTcpNoDelay_wp c w : ctx_ok c -> wp (redisSetTcpNoDelay c) (λ p _, reports c p) w.
Proof. intros Hc. unfold redisSetTcpNoDelay. net. Qed.

Lemma io_error_wp c pre w :
  ctx_ok c -> short_prefix pre ->
  wp (c ← __redisSetErrorFromErrno c REDIS_ERR_IO pre; mret (c, REDIS_ERR)) (λ p _, reports c p) w.
Proof. intros Hc Hp. apply (wp_const_errored _ REDIS_ERR_IO); [done|]. by apply set_errno_error_wp. Qed.

Lemma redisCheckSocketError_wp c w :
  ctx_ok c -> wp (redisCheckSocketError c) (λ p _, reports c p) w.
Proof.
  intros Hc. unfold redisCheckSocketError. net.
  match goal with p : (Z * Z)%type |- _ => destruct p end. net; apply io_error_wp;
    first [done | exact I | apply short_prefix_cstr; by vm_compute].
Qed.

(** A call whose status is tested and handed on. *)
Lemma pass_on_wp c (m : M W (redisContext Ob * Z)) w :
  wp m (λ p _, reports c p) w ->
  wp ('(c, st) ← m; if bool_decide (st ≠ REDIS_OK) then mret (c, REDIS_ERR) else mret (c, REDIS_OK))
     (λ p _, reports c p) w.
Proof.
  intros Hm. wp_step. eapply wp_mono; [exact Hm|]. intros [c' st] w' [Ht Hst]. cbn [fst snd] in *.
  destruct Hst as [[-> ?]|[-> ?]]; case_bool_decide; try done; wp_step; (split; [done|]); auto.
Qed.

Lemma redisContextWaitReady_wp c tmo w :
  ctx_ok c -> wp (redisContextWaitReady c tmo) (λ p _, reports c p) w.
Proof.
  intros Hc. unfold redisContextWaitReady. destruct (timeout_msec tmo); [|fail_with].
  net. by apply pass_on_wp, redisCheckSocketError_wp.
Qed.

Lemma redisKeepAlive_wp c n w : ctx_ok c -> wp (redisKeepAlive c n) (λ p _, reports c p) w.
Proof.
  intros Hc.
  assert (∀ w', wp (fail_other c) (λ p _, reports c p) w') as Hfail.
  { intros w'. unfold fail_other. wp_step. apply wp_get_errno.
    apply (wp_const_errored _ REDIS_ERR_OTHER); [done|]. apply set_error_wp; [done|].
    exists (strerror (errno w')), []. split; [done | apply strerror_NUL]. }
  unfold redisKeepAlive. repeat first [apply Hfail | progress net].
Qed.

Lemma redisContextSetTimeout_wp c tv w :
  ctx_ok c -> wp (redisContextSetTimeout c tv) (λ p _, reports c p) w.
Proof.
  intros Hc. unfold redisContextSetTimeout. net; apply io_error_wp;
    first [done | apply short_prefix_cstr; by vm_compute].
Qed.

(** ** The loop over addresses *)
Lemma set_error_text_wp c pre m w :
  ctx_ok c -> "%"%char ∉ pre -> NUL ∉ pre -> NUL ∉ m ->
  wp (set_error_text c (pre ++ bs "%s" ++ [NUL]) (m ++ [NUL]))
     (λ c' _, errored c REDIS_ERR_OTHER c') w.
Proof.
  intros Hc Hpre HN Hm. unfold set_error_text. wp_step.
  assert (NUL ∉ pre ++ bs "%s") as HN2.
  { apply not_elem_of_app. split; [done|]. apply (bool_decide_unpack _). by vm_compute. }
  destruct (vsnprintf_cstring (pre ++ bs "%s" ++ [NUL]) [VPtr (m ++ [NUL])] (pre ++ m))
    as (buf & E & Hbuf & _).
  - exists (pre ++ bs "%s"), []. split; [by rewrite <- app_assoc | done].
  - intros f tl Ef Hf. rewrite app_assoc in Ef.
    assert (f = pre ++ bs "%s") as ->.
    { symmetry. by eapply cstring_unique. }
    pose proof (format_s pre [] (m ++ [NUL]) m) as H. rewrite !app_nil_r in H. apply H; try done.
    + apply not_elem_of_nil.
    + unfold cstring. rewrite strlen_app by done. rsimpl. by rewrite take_zlen.
  - apply not_elem_of_app. done.
  - eapply wp_lift_ok; [exact E|]. eapply wp_mono; [by apply set_error_wp|]. by intros c' w' [? _].
Qed.

(** What a try of an address may end with. *)
Definition tried c (reuseaddr : bool) (p : redisContext Ob * step) : Prop :=
  match p.2 with
  | Continue => touched c p.1 ∧ c_err p.1 = c_err c
  | Retry => touched c p.1 ∧ c_err p.1 = c_err c
  | Fail => touched c p.1 ∧ (c_err p.1 ≠ 0 ∨ reuseaddr = true)
  | Done => ∃ c0, touched c c0 ∧ c_err c0 = c_err c ∧ p.1 = add_flag c0 REDIS_CONNECTED
  end.

Lemma tried_after c c1 reuseaddr p :
  touched c c1 -> c_err c1 = c_err c -> tried c1 reuseaddr p -> tried c reuseaddr p.
Proof.
  intros Ht He. unfold tried. destruct p as [c' [| | |]]; cbn [fst snd].
  - intros [? ?]. split; [by eapply touched_trans | congruence].
  - intros [? ?]. split; [by eapply touched_trans | congruence].
  - intros [? ?]. split; [by eapply touched_trans | done].
  - intros (c0 & ? & ? & ?). exists c0. split_and!; [by eapply touched_trans | congruence | done].
Qed.

Lemma bind_first_wp s l w : wp (bind_first s l) (λ _ _, True) w.
Proof.
  revert w. induction l as [|b l IH]; intros w; cbn [bind_first]; [by wp_steps|].
  run_sys. case_bool_decide; [by wp_steps | apply IH].
Qed.

Lemma bind_source_wp c s family reuseaddr w :
  ctx_ok c ->
  wp (bind_source c s family reuseaddr) (λ p _, touched c p.1 ∧
    ((p.2 = REDIS_OK ∧ c_err p.1 = c_err c) ∨
     (p.2 = REDIS_ERR ∧ (c_err p.1 ≠ 0 ∨ reuseaddr = true)))) w.
Proof.
  intros Hc. unfold bind_source.
  assert (∀ pre m w', "%"%char ∉ pre -> NUL ∉ pre -> NUL ∉ m ->
    wp (c ← set_error_text c (pre ++ bs "%s" ++ [NUL]) (m ++ [NUL]); mret (c, REDIS_ERR))
       (λ p _, touched c p.1 ∧ ((p.2 = REDIS_OK ∧ c_err p.1 = c_err c) ∨
          (p.2 = REDIS_ERR ∧ (c_err p.1 ≠ 0 ∨ reuseaddr = true)))) w') as Hfail.
  { intros pre m w' H1 H2 H3. wp_step. eapply wp_mono; [by apply set_error_text_wp|].
    intros c' w2 He. wp_steps. apply errored_reports in He as [Ht He]; [|done].
    split; [done|]. destruct He as [[? _]|[? ?]]; [done | tauto]. }
  destruct (c_source_addr c) as [src|]; [|wp_steps; split; [by apply touched_refl | by left]].
  run_sys. destruct s0 as [rv|l].
  - apply (Hfail (bs "Can't get addr: ")); [..|apply gai_strerror_NUL];
      apply (bool_decide_unpack _); by vm_compute.
  - wp_step. apply wp_mono with (λ _ _, True).
    { destruct reuseaddr; [apply wp_sys; by destruct (sys_setsockopt s SO_REUSEADDR w0) | by wp_steps]. }
    intros n w1 _. destruct (reuseaddr && bool_decide (n < 0)) eqn:Hr.
    { wp_steps. split; [by apply touched_refl|]. right. split; [done|].
      apply andb_prop in Hr as [-> _]. auto. }
    wp_step. eapply wp_mono; [apply bind_first_wp|]. intros [] w2 _; wp_steps.
    + split; [by apply touched_refl | by left].
    + apply wp_get_errno. apply (Hfail (bs "Can't bind socket: ")); [..|apply strerror_NUL];
        apply (bool_decide_unpack _); by vm_compute.
Qed.

Lemma after_connect_wp c rv blocking reuseaddr reuses w :
  ctx_ok c ->
  wp (after_connect c rv blocking reuseaddr reuses)
     (λ p _, tried c reuseaddr p ∧ (p.2 = Retry -> (S reuses < REDIS_CONNECT_RETRIES)%nat)) w.
Proof.
  intros Hc. unfold after_connect. wp_step. apply wp_get_errno. wp_step.
  set (Q := λ p : redisContext Ob * step,
    tried c reuseaddr p ∧ (p.2 = Retry -> (S reuses < REDIS_CONNECT_RETRIES)%nat)).
  apply wp_mono with (λ p _, match p.2 with
    | Some s => Q (p.1, s)
    | None => touched c p.1 ∧ c_err p.1 = c_err c end).
  { case_bool_decide; [wp_steps; split; [by apply touched_refl | done]|].
    case_bool_decide.
    { wp_step. eapply wp_mono; [by apply closeFd_wp|]. intros c' w' [? ?]. wp_steps. by split. }
    destruct (_ && negb blocking); [wp_steps; split; [by apply touched_refl | done]|].
    destruct (_ && reuseaddr) eqn:Hr.
    { apply andb_prop in Hr as [_ ->]. wp_steps. case_bool_decide; split; cbn [fst snd].
      - split; [by apply touched_refl | auto].
      - done.
      - split; [by apply touched_refl | auto].
      - intros _. lia. }
    wp_step. eapply wp_mono; [by apply redisContextWaitReady_wp|].
    intros [c' st] w' [Ht Hst]. cbn [fst snd] in *. destruct Hst as [[-> He]|[-> He]]; wp_steps; cbn [fst snd].
    - rewrite bool_decide_false by auto. by cbn.
    - rewrite bool_decide_true by done. split; [split; auto | done]. }
  intros [c1 [s|]] w1; cbn [fst snd]; [intros; by wp_steps|]. intros [Ht He]. wp_step.
  pose proof (touched_ok _ _ Ht) as Hc1.
  assert (∀ p, reports c1 p -> p.2 = REDIS_ERR -> Q (p.1, Fail)) as Hfail.
  { intros [c2 st] [Ht2 Hr] E. cbn [fst snd] in *. subst st. destruct Hr as [[? _]|[_ ?]]; [done|].
    split; [|done]. split; [by eapply touched_trans | auto]. }
  assert (∀ m : M W (redisContext Ob * Z), wp m (λ p _, reports c1 p) w1 ->
    wp m (λ p w2, if bool_decide (p.2 ≠ REDIS_OK) then Q (p.1, Fail)
                  else touched c p.1 ∧ c_err p.1 = c_err c) w1) as Hstep.
  { intros m Hm. eapply wp_mono; [exact Hm|]. intros [c2 st] w2 Hrep. case_bool_decide as Hst.
    - apply (Hfail (c2, st)); [done|]. cbn [fst snd] in *. destruct Hrep as [_ [[? _]|[? _]]]; [by destruct Hst | done].
    - destruct Hrep as [Ht2 [[_ He2]|[E _]]]; cbn [fst snd] in *; [|by rewrite E in Hst].
      split; [by eapply touched_trans | congruence]. }
  eapply wp_mono.
  { apply Hstep. destruct blocking; [by apply redisSetBlocking_wp | wp_steps; by apply reports_ok]. }
  intros [c2 st] w2. cbn [fst snd]. case_bool_decide; [intros; by wp_steps|]. intros [Ht2 He2].
  wp_step. eapply wp_mono; [apply redisSetTcpNoDelay_wp; by eapply touched_ok|].
  intros [c3 st3] w3 [Ht3 Hr]. cbn [fst snd] in *. destruct Hr as [[-> He3]|[-> He3]].
  - rewrite bool_decide_false by auto. wp_steps. split; [|done].
    exists c3. split_and!; [by eapply touched_trans | congruence | done].
  - rewrite bool_decide_true by done. wp_steps. split; [|done].
    split; [by eapply touched_trans | auto].
Qed.

Lemma try_addr_wp c p family blocking reuseaddr reuses w :
  ctx_ok c ->
  wp (try_addr c p family blocking reuseaddr reuses)
     (λ q _, tried c reuseaddr q ∧ (q.2 = Retry -> (S reuses < REDIS_CONNECT_RETRIES)%nat)) w.
Proof.
  intros Hc. unfold try_addr. wp_step. apply wp_sys. destruct_call.
  case_bool_decide; [wp_steps; split; [split; [by apply touched_refl | done] | done]|].
  pose proof (touched_fd c z Hc) as Ht. wp_step.
  eapply wp_mono; [apply redisSetBlocking_wp; by eapply touched_ok|].
  intros [c1 st] w1 [Ht1 Hr]. cbn [fst snd] in *. destruct Hr as [[-> He1]|[-> He1]].
  2:{ rewrite bool_decide_true by done. wp_steps. split; [|done].
      split; [by apply (touched_trans _ _ _ Ht) | auto]. }
  rewrite bool_decide_false by auto. wp_step.
  eapply wp_mono; [apply bind_source_wp; by eapply touched_ok|].
  intros [c2 st] w2 [Ht2 Hr]. cbn [fst snd] in *. destruct Hr as [[-> He2]|[-> He2]].
  2:{ rewrite bool_decide_true by done. wp_steps. split; [|done].
      split; [apply (touched_trans _ _ _ Ht); by eapply touched_trans | done]. }
  rewrite bool_decide_false by auto. wp_step. apply wp_sys. destruct_call.
  eapply wp_mono; [apply after_connect_wp; by eapply touched_ok|].
  intros q ? [Hq Hre]. split; [|done].
  eapply tried_after; [apply (touched_trans _ _ _ Ht); by eapply touched_trans | by rewrite He2, He1 | done].
Qed.

Lemma retry_addr_wp fuel c p family blocking reuseaddr reuses w :
  ctx_ok c -> (REDIS_CONNECT_RETRIES ≤ fuel + S reuses)%nat ->
  wp (retry_addr fuel c p family blocking reuseaddr reuses)
     (λ '(c', st, _) _, tried c reuseaddr (c', st) ∧ st ≠ Retry) w.
Proof.
  revert c reuses w. induction fuel as [|fuel IH]; intros c reuses w Hc Hf; cbn [retry_addr]; wp_step;
    (eapply wp_mono; [by apply try_addr_wp|]); intros [c1 st] w1 [Hq Hre]; cbn [fst snd] in *.
  - destruct st; [by wp_steps | specialize (Hre eq_refl); lia | by wp_steps | by wp_steps].
  - destruct st; [by wp_steps | | by wp_steps | by wp_steps].
    destruct Hq as [Ht He]. cbn [fst snd] in *.
    eapply wp_mono; [apply IH; [by eapply touched_ok | lia]|].
    intros [[c2 st] n] w2 [Hq2 Hst]. split; [|done]. by eapply tried_after.
Qed.

(** The end of a connection attempt: connected, or an error. *)
Definition attempted c (reuseaddr : bool) (p : redisContext Ob * Z) : Prop :=
  (p.2 = REDIS_OK ∧ ∃ c0, touched c c0 ∧ c_err c0 = c_err c ∧ p.1 = add_flag c0 REDIS_CONNECTED) ∨
  (p.2 = REDIS_ERR ∧ touched c p.1 ∧ (c_err p.1 ≠ 0 ∨ reuseaddr = true)).

Lemma attempted_after c c1 reuseaddr p :
  touched c c1 -> c_err c1 = c_err c -> attempted c1 reuseaddr p -> attempted c reuseaddr p.
Proof.
  intros Ht He [(E & c0 & ? & ? & ?)|(E & ? & ?)]; [left | right]; (split; [done|]).
  - exists c0. split_and!; [by eapply touched_trans | congruence | done].
  - split; [by eapply touched_trans | done].
Qed.

Lemma addr_loop_wp c ps family blocking reuseaddr reuses w :
  ctx_ok c -> wp (addr_loop c ps family blocking reuseaddr reuses) (λ p _, attempted c reuseaddr p) w.
Proof.
  revert c reuses w. induction ps as [|p ps IH]; intros c reuses w Hc; cbn [addr_loop].
  - wp_step. apply wp_get_errno. wp_step.
    eapply wp_mono; [apply (set_error_text_wp c (bs "Can't create socket: "));
      [done | apply (bool_decide_unpack _); by vm_compute.. | apply strerror_NUL]|].
    intros c' w' He. wp_steps. apply errored_reports in He as [Ht He]; [|done].
    right. cbn [fst snd] in *. destruct He as [[? _]|[_ ?]]; [done | auto].
  - wp_step. eapply wp_mono; [apply retry_addr_wp; [done | unfold REDIS_CONNECT_RETRIES; lia]|].
    intros [[c1 st] n] w1 [Hq Hst]. destruct st; [| done | |]; unfold tried in Hq; cbn [fst snd] in Hq.
    + destruct Hq as [Ht He]. eapply wp_mono; [apply IH; by eapply touched_ok|].
      intros q w2 Hq. by eapply attempted_after.
    + wp_steps. right. done.
    + wp_steps. by left.
Qed.

(** ** Connecting *)
Lemma strdup_wp p w :
  is_cstring p -> zlen p < 2 ^ 64 -> wp (strdup p) (λ o _, ∃ q, o = Some q ∧ is_cstring q) w.
Proof.
  intros (s & tl & -> & Hs) Hfit. unfold strdup. pose proof (zlen_nonneg s).
  wp_step. eapply wp_lift_ok; [by apply strlen_app|]. wp_step.
  rewrite u64_small by zl.
  apply wp_malloc; [lia | intros; done |]. intros b w' Hb.
  pose proof (memcpy_app [] b [] (s ++ NUL :: tl) 0 (zlen s + 1)) as Hm.
  cbn [app] in Hm. rewrite app_nil_r in Hm.
  wp_step. eapply wp_lift_ok; [apply Hm; [done | lia | zl]|]. wp_steps.
  eexists. split; [done|]. exists s, []. split; [|done]. rewrite app_nil_r.
  change (NUL :: tl) with ([NUL] ++ tl). rewrite app_assoc, <- zlen_snoc with (x := NUL).
  by rewrite take_zlen.
Qed.

(** A string argument: terminated, and NULL only for a NULL field. *)
Definition string_arg (own : option bytes) (a : arg bytes) : Prop :=
  match a with
  | Own => True
  | Given None => own = None
  | Given (Some p) => is_cstring p ∧ zlen p < 2 ^ 64
  end.

Lemma keep_string_wp own a w : string_arg own a -> wp (keep_string own a) (λ _ _, True) w.
Proof.
  intros Ha. unfold keep_string. destruct a as [|[p|]]; [by wp_steps | |].
  - destruct Ha. eapply wp_mono; [by apply strdup_wp | done].
  - cbn in Ha. subst own. by wp_steps.
Qed.

Lemma keep_source_wp own a w :
  (∀ p, a = Given (Some p) -> is_cstring p ∧ zlen p < 2 ^ 64) ->
  wp (keep_source own a) (λ _ _, True) w.
Proof.
  intros Ha. unfold keep_source. destruct a as [|[p|]]; cbn [arg_value].
  - destruct own; by wp_steps.
  - apply keep_string_wp. by apply Ha.
  - by wp_steps.
Qed.

Lemma keep_timeout_wp own a w : wp (keep_timeout own a) (λ _ _, True) w.
Proof.
  unfold keep_timeout. destruct a as [|[tv|]]; cbn [arg_value]; [destruct own; by wp_steps | |by wp_steps].
  wp_step. apply wp_mono with (λ o _, o = Some tt).
  - destruct own; [by wp_steps|]. wp_step.
    apply wp_malloc; [lia | intros; done |]. intros; by wp_steps.
  - intros ? w' ->. by wp_steps.
Qed.

Lemma redisContextConnectBindTcp_wp c ad port tmo src w :
  ctx_ok c -> - 2 ^ 31 ≤ port < 2 ^ 31 -> string_arg (c_host c) ad ->
  (∀ p, src = Given (Some p) -> is_cstring p ∧ zlen p < 2 ^ 64) ->
  wp (redisContextConnectBindTcp c ad port tmo src) (λ p _,
    ctx_ok p.1 ∧ c_obuf p.1 = c_obuf c ∧ c_reader p.1 = c_reader c ∧
    ((p.2 = REDIS_OK ∧ c_flags p.1 = Z.lor (c_flags c) REDIS_CONNECTED ∧ c_err p.1 = c_err c) ∨
     (p.2 = REDIS_ERR ∧ c_flags p.1 = c_flags c ∧
      (c_err p.1 ≠ 0 ∨ has_flag c REDIS_REUSEADDR = true)))) w.
Proof.
  intros Hc Hport Hhost Hsrc. unfold redisContextConnectBindTcp, _redisContextConnectTcp.
  wp_step. eapply wp_mono; [by apply keep_string_wp|]. intros host w1 _.
  wp_step. eapply wp_mono; [apply keep_timeout_wp|]. intros t w2 _.
  wp_step. eapply wp_mono; [by apply keep_source_wp|]. intros s w3 _. wp_step.
  set (c1 := set_peer c REDIS_CONN_TCP t host s port (c_path c)).
  assert (ctx_ok c1) as Hc1 by done.
  destruct (vsnprintf_ok (replicate 6 NUL) 6 (bs "%d") [] [VInt port] (fmt_signed spec0 (i32 port) ++ []))
    as (pre & rest & E & _); [done | lia | apply (bool_decide_unpack _); by vm_compute |
      by lazy -[fmt_signed i32] |].
  eapply wp_lift_ok; [exact E|].
  assert (∀ p, attempted c1 (has_flag c REDIS_REUSEADDR) p ->
    ctx_ok p.1 ∧ c_obuf p.1 = c_obuf c ∧ c_reader p.1 = c_reader c ∧
    ((p.2 = REDIS_OK ∧ c_flags p.1 = Z.lor (c_flags c) REDIS_CONNECTED ∧ c_err p.1 = c_err c) ∨
     (p.2 = REDIS_ERR ∧ c_flags p.1 = c_flags c ∧
      (c_err p.1 ≠ 0 ∨ has_flag c REDIS_REUSEADDR = true)))) as Hfin.
  { intros p [(Est & c0 & (e & str & fd & -> & Hstr) & He & ->)|(Est & (e & str & fd & Ep & Hstr) & Herr)].
    - split_and!; try done. left. done.
    - rewrite Ep in *. split_and!; try done. right. done. }
  cbv beta iota. run_sys. destruct s0 as [rv|servinfo].
  2:{ eapply wp_mono; [by apply addr_loop_wp|]. intros p w' Hp. by apply Hfin. }
  run_sys. destruct s0 as [rv2|servinfo].
  2:{ eapply wp_mono; [by apply addr_loop_wp|]. intros p w' Hp. by apply Hfin. }
  wp_step. eapply wp_mono; [apply (set_error_wp c1); [done|]|].
  { exists (gai_strerror rv2), []. split; [done | apply gai_strerror_NUL]. }
  intros c' w' [He _]. wp_steps. apply Hfin. apply errored_reports in He as [Ht He]; [|done].
  right. cbn [fst snd] in *. destruct He as [[? _]|[_ ?]]; [done | auto].
Qed.
End net_spec.
