(* ===== verification/ContextSpec.v ===== *)
(** * ContextSpec: the buffers of a connection (hiredis.c)

    Over the scripted kernel: no byte of the output buffer is lost, doubled
    or reordered however the socket takes it, and a command sent on a
    blocking connection comes back as the object of the peer's reply, however
    the reply is cut into reads. *)

From Stdlib Require Import ZArith Lia Ascii.
From stdpp Require Import base list strings gmap numbers.
From S2P Require Import Prelude Libc Printf Sds SdsFormat Reader Resp ReaderSpec Replies.
From S2P Require Import Command CommandSpec CommandFormat Kernel Context NetSpec.

(** ** The reader leaves the rest of the world alone

    A relation that allocation and the creation functions respect is
    respected by the reader. *)
Section frame.
Context {W : Type} `{!Libc W} {Ob : Type} (R : W -> W -> Prop) `{!AllocRel R}.
Context (fn : option (redisReplyObjectFunctions W Ob)).

Class FunctionsFrame : Prop := {
  frame_string v p n : alloc_only R (new_string fn v p n);
  frame_integer v z : alloc_only R (new_integer fn v z);
  frame_nil v : alloc_only R (new_nil fn v);
  frame_array v n : alloc_only R (new_array fn v n);
  frame_free free p : fn ≫= freeObject = Some free -> alloc_only R (free p);
}.
Context `{!FunctionsFrame}.

Ltac frame := repeat first [apply frame_string | apply frame_integer | apply frame_nil
  | apply frame_array | apply sdsempty_alloc | apply sdscatlen_alloc | progress alloc
  | match goal with |- AllocRel _ => typeclasses eauto end
  | by eapply frame_free | done].

Lemma set_error_frame r ty s : alloc_only R (__redisReaderSetError fn r ty s).
Proof. unfold __redisReaderSetError. frame. Qed.

Lemma oom_error_frame r : alloc_only R (oom_error fn r).
Proof. unfold oom_error, __redisReaderSetErrorOOM. apply alloc_only_bind; [done | apply set_error_frame | alloc]. Qed.

Lemma finish_item_frame (r : redisReader Ob) o : alloc_only R (finish_item r o).
Proof. unfold finish_item. frame. Qed.

Ltac frame2 := repeat first [apply set_error_frame | apply oom_error_frame
  | apply finish_item_frame | progress frame].

Lemma process_typed_frame r ty : alloc_only R (process_typed fn r ty).
Proof.
  unfold process_typed, processLineItem, processBulkItem, processMultiBulkItem. frame2.
Qed.

Lemma processItem_frame r : alloc_only R (processItem fn r).
Proof.
  unfold processItem, __redisReaderSetErrorProtocolByte.
  repeat first [apply process_typed_frame | progress frame2].
Qed.

#[local] Opaque processItem.
Lemma process_loop_frame fuel r : alloc_only R (process_loop fn fuel r).
Proof.
  revert r. induction fuel as [|fuel IH]; intros r; cbn [process_loop]; [by intros ? ? ?|].
  repeat first [apply IH | apply processItem_frame | progress frame2].
Qed.

#[local] Opaque process_loop.
Lemma redisReaderGetReply_frame r : alloc_only R (redisReaderGetReply fn r).
Proof.
  unfold redisReaderGetReply. repeat first [apply process_loop_frame | progress frame2].
Qed.

#[local] Opaque oom_error sdscatlen sdsempty.
Lemma redisReaderFeed_frame r b n : alloc_only R (redisReaderFeed fn r b n).
Proof. unfold redisReaderFeed. frame2. Qed.
End frame.

(** ** The default creation functions, for a relation that ignores the heap *)
Class HeapFrame {X} `{!Libc X} (R : world X -> world X -> Prop) : Prop := {
  heap_frame_alloc :: AllocRel R;
  heap_frame x h h' : R (x, h) (x, h');
}.

Section heap_frame.
Context {X : Type} `{!Libc X} (R : world X -> world X -> Prop) `{!HeapFrame R}.
Abbreviation fns := (Some (defaultFunctions (X := X))).

(** The node operations and what is built from them. *)
Lemma node_get l : alloc_only R (get_node (X := X) l).
Proof. intros w a w'. unfold get_node. destruct (_ !! _); [by intros [= -> ->] | done]. Qed.
Lemma node_put l nd : alloc_only R (put_node (X := X) l nd).
Proof.
  intros [x h] a w'. unfold put_node. destruct (_ !! _); [|done]. intros [= <- <-]. apply heap_frame.
Qed.
Lemma node_new nd : alloc_only R (new_node (X := X) nd).
Proof. intros [x h] a w' [= _ <-]. apply heap_frame. Qed.
Lemma node_free_node l : alloc_only R (free_node (X := X) l).
Proof.
  intros [x h] a w'. unfold free_node. destruct (_ !! _); [|done]. intros [= <- <-]. apply heap_frame.
Qed.

Lemma node_stuck {B} : alloc_only (A := B) R stuck.
Proof. by intros ? ? ?. Qed.

Lemma node_massert (b : bool) : alloc_only R (massert b).
Proof. destruct b; [by intros w a w' [= <- <-] | apply node_stuck]. Qed.

Ltac nodes := repeat first [apply node_get | apply node_put | apply node_new
  | apply node_free_node | apply node_massert | apply node_stuck | progress alloc].

Lemma node_free_reply fuel l : alloc_only R (free_reply (X := X) fuel l).
Proof.
  revert l. induction fuel as [|fuel IH]; intros l; cbn [free_reply]; [nodes|].
  apply alloc_only_bind; [typeclasses eauto | nodes |]. intros nd.
  apply alloc_only_bind; [typeclasses eauto | | intros; nodes].
  case_bool_decide; [|nodes]. destruct (element nd) as [els|]; [|nodes].
  revert els. induction (Z.to_nat (elements nd)) as [|n IHn]; intros els; cbn [free_elements]; [nodes|].
  destruct els as [|e els]; [nodes|].
  apply alloc_only_bind; [typeclasses eauto | destruct e; [apply IH | nodes] | auto].
Qed.

Lemma node_free p : alloc_only R (freeReplyObject (X := X) p).
Proof.
  intros w a w'. unfold freeReplyObject. destruct p as [|?|l]; [by intros [= <- <-] | done|].
  apply node_free_reply.
Qed.

Lemma node_create ty : alloc_only R (createReplyObject (X := X) ty).
Proof. unfold createReplyObject, c_calloc. nodes. Qed.

Lemma node_set_parent v l : alloc_only R (set_parent (X := X) v l).
Proof. unfold set_parent. nodes. Qed.

#[local] Opaque createReplyObject set_parent freeReplyObject get_node put_node new_node massert.
Ltac nodes2 := repeat first [apply node_create | apply node_set_parent | apply node_free
  | progress nodes].

#[export] Instance default_frame : FunctionsFrame R fns.
Proof.
  split; intros.
  - unfold new_string. cbn. unfold createStringObject. nodes2.
  - unfold new_integer. cbn. unfold createIntegerObject. nodes2.
  - unfold new_nil. cbn. unfold createNilObject. nodes2.
  - unfold new_array. cbn. unfold createArrayObject, c_calloc. nodes2.
  - simplify_eq/=. apply node_free.
Qed.

End heap_frame.

(** ** The world of a client: an allocator, a scripted kernel, a heap *)
Section client.
Context {A : Type} `{!Libc A} (no_oom : ¬ oom A).
Abbreviation X := (scripted_world A).
Abbreviation W := (world X).
Abbreviation fns := (Some (defaultFunctions (X := X))).

#[export] Program Instance client_kernel : Kernel W := {|
  errno w := errno (fst w);
  set_errno e w := (set_errno e (fst w), snd w);
  strerror := strerror (W := X);
  gai_strerror := gai_strerror (W := X);
  sys_read fd n := on_fst (sys_read fd n);
  sys_write fd b := on_fst (sys_write fd b);
  sys_close fd w := (sys_close fd (fst w), snd w);
  sys_socket f := on_fst (sys_socket f);
  sys_getfl fd := on_fst (sys_getfl fd);
  sys_setfl fd fl := on_fst (sys_setfl fd fl);
  sys_setsockopt fd o := on_fst (sys_setsockopt fd o);
  sys_so_error fd := on_fst (sys_so_error fd);
  sys_poll fd ms := on_fst (sys_poll fd ms);
  sys_getaddrinfo h p f := on_fst (sys_getaddrinfo h p f);
  sys_bind fd a := on_fst (sys_bind fd a);
  sys_connect fd a := on_fst (sys_connect fd a);
|}.
Next Obligation. apply strerror_NUL. Qed.
Next Obligation. apply gai_strerror_NUL. Qed.
Next Obligation.
  intros fd n [x h] b w' Hn E. unfold on_fst in E. cbn [fst snd] in E.
  destruct (sys_read fd n x) as [o x'] eqn:Er. simplify_eq. by eapply sys_read_len.
Qed.
Next Obligation.
  intros fd b [x h] r w' E. unfold on_fst in E. cbn [fst snd] in E.
  destruct (sys_write fd b x) as [o x'] eqn:Er. simplify_eq. by eapply sys_write_len.
Qed.

Lemma client_write fd b a k h :
  sys_write fd b ((a, k), h) = let '(r, k') := script_write b k in (r, ((a, k'), h)).
Proof. cbn. unfold on_fst, on_snd. cbn. by destruct (script_write b k). Qed.

Lemma client_read fd n a k h :
  sys_read fd n ((a, k), h) = let '(r, k') := script_read n k in (r, ((a, k'), h)).
Proof. cbn. unfold on_fst, on_snd. cbn. by destruct (script_read n k). Qed.

Definition script_of (w : W) : script := snd (fst w).

(** Nothing happened on the sockets. *)
Definition same_script (w w' : W) : Prop := script_of w' = script_of w.

#[export] Instance same_script_alloc : AllocRel same_script.
Proof.
  split; [|by intros n [[a k] h]]. split; [by intros ?|].
  intros w1 w2 w3. unfold same_script. congruence.
Qed.

#[export] Instance same_script_heap : HeapFrame same_script.
Proof. split; [apply _ | done]. Qed.

(** ** The output buffer *)

(** Only the allocator ran. *)
Definition same_but_alloc (w w' : W) : Prop := script_of w' = script_of w ∧ snd w' = snd w.

#[export] Instance same_but_alloc_alloc : AllocRel same_but_alloc.
Proof.
  split; [|by intros n [[a k] h]]. split; [by intros ?|].
  intros w1 w2 w3 [? ?] [? ?]. split; congruence.
Qed.

Lemma client_no_oom : ¬ oom W.
Proof. by apply world_no_oom, scripted_no_oom. Qed.

Definition fatal (x : write_result) (c : redisContext nat) : Prop :=
  match x with
  | WriteFail e => ¬ (e = EAGAIN ∧ has_flag c REDIS_BLOCK = false ∨ e = EINTR)
  | Accept _ => False
  end.

(** The bytes [b] of the buffer split in those the peer has got and those
    that are left. *)
Definition flushed (c c' : redisContext nat) (b : bytes) (w w' : W) : Prop :=
  ∃ b1 b2 s', b = b1 ++ b2 ∧ k_sent (script_of w') = k_sent (script_of w) ++ b1 ∧
    c_obuf c' = Some s' ∧ sds_rep s' b2 ∧
    c_reader c' = c_reader c ∧ c_flags c' = c_flags c ∧ c_fd c' = c_fd c ∧
    snd w' = snd w ∧ k_reads (script_of w') = k_reads (script_of w) ∧
    k_writes (script_of w') `suffix_of` k_writes (script_of w).

Definition empty_obuf (c : redisContext nat) : Prop := ∃ s, c_obuf c = Some s ∧ sds_rep s [].

(** How many of the bytes [b] the socket takes, and what the script has left. *)
Definition taken (b : bytes) (ws : list write_result) : Z :=
  match ws with
  | [] => zlen b
  | Accept n :: _ => Z.max 0 (Z.min n (zlen b))
  | WriteFail _ :: _ => 0
  end.
Definition writes_left (b : bytes) (ws : list write_result) : list write_result :=
  if bool_decide (0 < zlen b) then tail ws else ws.
Definition write_fails (c : redisContext nat) (b : bytes) (ws : list write_result) : Prop :=
  0 < zlen b ∧ ∃ x l, ws = x :: l ∧ fatal x c.

(** The bytes that the socket takes are sent and the others are kept; an error
    is reported exactly when it is fatal, and [done] is set exactly when
    nothing is left. *)
Definition written (c c' : redisContext nat) (st : Z) (done : option bool) (b : bytes) (w w' : W) : Prop :=
  let ws := k_writes (script_of w) in
  let n := Z.to_nat (taken b ws) in
  k_sent (script_of w') = k_sent (script_of w) ++ take n b ∧
  k_writes (script_of w') = writes_left b ws ∧
  (∃ s', c_obuf c' = Some s' ∧ sds_rep s' (drop n b)) ∧
  (write_fails c b ws -> st = REDIS_ERR ∧ done = None ∧ c_err c' = REDIS_ERR_IO) ∧
  (~ write_fails c b ws -> st = REDIS_OK ∧ c_err c' = 0 ∧ done = Some (bool_decide (drop n b = []))).

(** The rest of the connection is as it was. *)
Definition writes_only (c c' : redisContext nat) (w w' : W) : Prop :=
  c_reader c' = c_reader c ∧ c_flags c' = c_flags c ∧ c_fd c' = c_fd c ∧
  snd w' = snd w ∧ k_reads (script_of w') = k_reads (script_of w).

Lemma redisBufferWrite_exact c s b a k h :
  ctx_ok c -> c_err c = 0 -> c_obuf c = Some s -> sds_rep s b ->
  wp (redisBufferWrite c) (λ '(c', st, done) w',
    ctx_ok c' ∧ writes_only c c' ((a, k), h) w' ∧ written c c' st done b ((a, k), h) w') ((a, k), h).
Proof.
  intros Hok Hc Hb Hs. unfold redisBufferWrite. rewrite bool_decide_false by (by intros H; apply H).
  pose proof (zlen_nonneg b) as Hb0.
  assert (zlen b < 2 ^ 31) as Hbl by (destruct Hs as (tl & _ & Hfit); zl).
  wp_step. eapply wp_lift_ok; [by rewrite Hb|]. rewrite (sds_rep_len s b) by done.
  (* the end of the function *)
  set (Q := λ '(c', st, done) w', _ : Prop).
  set (n := taken b (k_writes k)). set (l := writes_left b (k_writes k)).
  assert (∀ c' s' w', c' = set_obuf c (Some s') -> sds_rep s' (drop (Z.to_nat n) b) ->
    k_sent (script_of w') = k_sent k ++ take (Z.to_nat n) b -> k_reads (script_of w') = k_reads k ->
    snd w' = h -> k_writes (script_of w') = l -> ~ write_fails c b (k_writes k) ->
    wp (b ← lift (deref (c_obuf c')); mret (c', REDIS_OK, Some (bool_decide (sdslen b = 0)))) Q w')
    as Hfin.
  { intros c' s' w' -> Hs' Hsent Hreads Hh Hws Hnf. cbn [c_obuf set_obuf]. wp_steps.
    rewrite (sds_rep_len s' _) by done. split_and!; [done|done|]. split; [done|]. split; [done|].
    split; [by exists s'|]. split; [done|]. intros _. split; [done|]. split; [done|].
    f_equal. apply bool_decide_ext. change (zlen (drop (Z.to_nat n) b) = 0 <-> drop (Z.to_nat n) b = []).
    split; [by apply zlen_zero|by intros ->]. }
  assert (set_obuf c (Some s) = c) as Hsame by (destruct c; cbn in *; by subst).
  case_bool_decide as Hpos.
  2:{ assert (b = []) as -> by (apply zlen_zero; lia).
      apply (Hfin c s); try done; [by rewrite drop_nil|by rewrite take_nil, app_nil_r|].
      intros [? _]. by cbn in *. }
  assert (take (Z.to_nat (zlen b)) (sh_buf s) = b ∧ zlen b ≤ zlen (sh_buf s)) as [Htake Hle].
  { destruct Hs as (tl & -> & _). cbn [mk sh_buf]. split; [apply take_zlen | zl]. }
  wp_step. unfold user_bytes. rewrite bool_decide_true by lia. wp_step. rewrite Htake. wp_step.
  apply wp_sys. rewrite client_write.
  assert (l = tail (k_writes k)) as Hl by (unfold l, writes_left; by rewrite bool_decide_true by lia).
  assert (∀ w', script_of w' = Script (k_errno k) (k_sent k ++ take (Z.to_nat n) b) (k_open k) l
                                     (k_reads k) (k_calls k) ->
    snd w' = h -> 0 ≤ n ≤ zlen b -> ~ write_fails c b (k_writes k) ->
    wp (let nw := i32 n in
        if bool_decide (nw = -1) then
          no ← get_errno;
          if bool_decide (no = EAGAIN ∧ has_flag c REDIS_BLOCK = false ∨ no = EINTR)
          then b ← lift (deref (c_obuf c)); mret (c, REDIS_OK, Some (bool_decide (sdslen b = 0)))
          else c ← __redisSetError c REDIS_ERR_IO None; mret (c, REDIS_ERR, None)
        else if bool_decide (nw > 0) then
          if bool_decide (nw = i32 (zlen b)) then
            b ← sdsempty;
            let c := set_obuf c b in
            b ← lift (deref (c_obuf c)); mret (c, REDIS_OK, Some (bool_decide (sdslen b = 0)))
          else
            b ← lift (sdsrange s nw (-1));
            let c := set_obuf c (Some b) in
            b ← lift (deref (c_obuf c)); mret (c, REDIS_OK, Some (bool_decide (sdslen b = 0)))
        else b ← lift (deref (c_obuf c)); mret (c, REDIS_OK, Some (bool_decide (sdslen b = 0))))
      Q w') as Haccept.
  { intros w' Hk Hh Hn Hnf. cbv zeta. rewrite !i32_small by lia.
    rewrite bool_decide_false by lia. case_bool_decide as Hn0; [case_bool_decide as Hall|].
    - wp_step. eapply wp_mono.
      { apply (wp_alloc_only same_but_alloc); [apply sdsempty_alloc, _ | apply sdsempty_wp]. }
      intros [s'|] w2 [Hs' [Hk2 Hh2]]; [|by destruct client_no_oom].
      apply (Hfin _ s'); try done; rewrite ?Hk2, ?Hk; try done.
      + by rewrite Hall, zlen_to_nat, drop_all.
      + congruence.
    - destruct (sdsrange_ok s b n (-1)) as (s' & E & Hs'); [done | lia | lia |].
      assert (range_of b n (-1) = drop (Z.to_nat n) b) as Er.
      { unfold range_of. rewrite (bool_decide_false (n < 0)), (bool_decide_true (-1 < 0)) by lia.
        apply take_ge. rewrite length_drop. unfold zlen in *. lia. }
      rewrite Er in Hs'. wp_step. eapply wp_lift_ok; [exact E|].
      apply (Hfin _ s'); try done; by rewrite ?Hk.
    - apply (Hfin c s); try done; rewrite ?Hk; try done. by replace n with 0 by lia. }
  cbv zeta in Haccept. unfold script_write. destruct (k_writes k) as [|x l'] eqn:Ekw.
  { apply Haccept; cbn [script_of fst snd];
      [by unfold n, taken; rewrite Hl, zlen_to_nat, firstn_all | done | unfold n, taken; lia | ].
    by intros (_ & x & l' & ? & _). }
  destruct x as [m|e].
  { apply Haccept; cbn [script_of fst snd]; [by rewrite Hl | done | unfold n, taken; lia | ].
    by intros (_ & x & l2 & [= <- <-] & ?). }
  clear Haccept. cbv beta iota zeta. rewrite i32_small by lia. rewrite bool_decide_true by done.
  wp_step. apply wp_get_errno. cbn [errno client_kernel scripted_kernel fst snd script_kernel k_errno].
  case_bool_decide as He.
  { apply (Hfin c s); cbn [script_of fst snd k_sent k_reads k_writes]; try done; [by rewrite app_nil_r|].
    intros (_ & x & l2 & [= <- <-] & Hf). by apply Hf. }
  wp_step. eapply wp_mono; [by apply set_io_error_wp|]. intros c' w' [(str & -> & Hstr) ->].
  wp_steps. split_and!; [done | done |]. unfold written. cbn [script_of fst snd]. rewrite Ekw.
  split; [by cbn; rewrite app_nil_r|]. split; [done|].
  split; [by exists s|]. split; [done|]. intros []. split; [lia|]. by exists (WriteFail e), l'.
Qed.

Lemma redisBufferWrite_wp c s b a k h :
  ctx_ok c -> c_err c = 0 -> c_obuf c = Some s -> sds_rep s b ->
  wp (redisBufferWrite c) (λ '(c', st, done) w',
    ctx_ok c' ∧ flushed c c' b ((a, k), h) w' ∧
    ((st = REDIS_OK ∧ c_err c' = 0 ∧ (done = Some true ∧ empty_obuf c' ∨
       done = Some false ∧ ∃ x, k_writes k = x :: k_writes (script_of w'))) ∨
     (st = REDIS_ERR ∧ done = None ∧ c_err c' = REDIS_ERR_IO ∧
      k_sent (script_of w') = k_sent k ∧
      ∃ x l, k_writes k = x :: l ∧ fatal x c))) ((a, k), h).
Proof.
  intros Hok Hc Hb Hs. eapply wp_mono; [by apply (redisBufferWrite_exact c s b)|].
  intros [[c' st] done] w' (Hok' & Hsame & Hsent & Hws & (s' & Hs' & Hrep) & Hf & Hnf).
  cbn [script_of fst snd] in Hsent, Hws, Hrep, Hf, Hnf. set (n := Z.to_nat (taken b (k_writes k))) in *.
  split; [done|]. split.
  { exists (take n b), (drop n b), s'. destruct Hsame as (? & ? & ? & ? & ?). split_and!; try done.
    - by rewrite take_drop.
    - rewrite Hws. unfold writes_left. cbn [script_of fst snd].
      destruct (bool_decide (0 < zlen b)); [|by exists []]. destruct (k_writes k) as [|x l]; [by exists []|]. by exists [x]. }
  assert (write_fails c b (k_writes k) ∨ ~ write_fails c b (k_writes k)) as [H|H].
  { unfold write_fails. destruct (decide (0 < zlen b)); [|right; tauto].
    destruct (k_writes k) as [|[m|e] ws]; [right; naive_solver|right; intros (_ & ? & ? & [= <- <-] & ?); done|].
    destruct (decide (e = EAGAIN ∧ has_flag c REDIS_BLOCK = false ∨ e = EINTR)) as [He|He].
    - right. intros (_ & ? & ? & [= <- <-] & Hx). by apply Hx.
    - left. split; [done|]. by exists (WriteFail e), ws. }
  - right. destruct (Hf H) as (-> & -> & He). split_and!; try done.
    + destruct H as (_ & x & l & E & Hx). rewrite Hsent. unfold n. rewrite E. destruct x as [m|e]; [done|]. cbn. by rewrite app_nil_r.
    + by destruct H as [_ ?].
  - left. destruct (Hnf H) as (-> & He & ->). split; [done|]. split; [done|]. case_bool_decide as Hd.
    + left. split; [done|]. exists s'. by rewrite <-Hd.
    + right. split; [done|]. rewrite Hws. unfold writes_left.
      assert (b ≠ []) as Hne by (intros ->; by rewrite drop_nil in Hd).
      assert (0 < zlen b) as Hpos by (destruct b; [done|zl]). rewrite bool_decide_true by done.
      destruct (k_writes k) as [|x l] eqn:E; [|by exists x].
      exfalso. apply Hd. unfold n. cbn [taken]. by rewrite zlen_to_nat, drop_all.
Qed.

Lemma sds_rep_inj s b1 b2 : sds_rep s b1 -> sds_rep s b2 -> b1 = b2.
Proof. intros H1 H2. by rewrite <- (sds_rep_contents s b1), <- (sds_rep_contents s b2). Qed.

Lemma flushed_trans c c1 c2 b b2 s1 w w1 w2 :
  flushed c c1 b w w1 -> c_obuf c1 = Some s1 -> sds_rep s1 b2 ->
  flushed c1 c2 b2 w1 w2 -> flushed c c2 b w w2.
Proof.
  intros (x1 & x2 & s & -> & Hk & Hs & Hr & ? & ? & ? & ? & ? & Hw1) Hs1 Hr1
    (y1 & y2 & s2 & -> & Hk2 & Hs2 & Hr2 & ? & ? & ? & ? & ? & Hw2).
  rewrite Hs in Hs1. injection Hs1 as ->. pose proof (sds_rep_inj _ _ _ Hr Hr1) as ->.
  exists (x1 ++ y1), y2, s2. rewrite Hk2, Hk, <- !app_assoc. split_and!; try done; try congruence.
  by etrans.
Qed.

(** All of the buffer reaches the peer unless a write fails for good. *)
Lemma write_all_wp fuel c s b a k h :
  ctx_ok c -> c_err c = 0 -> c_obuf c = Some s -> sds_rep s b ->
  (length (k_writes k) < fuel)%nat ->
  wp (write_all fuel c) (λ '(c', st) w',
    ctx_ok c' ∧ flushed c c' b ((a, k), h) w' ∧
    ((st = REDIS_OK ∧ c_err c' = 0 ∧ empty_obuf c') ∨
     (st = REDIS_ERR ∧ c_err c' = REDIS_ERR_IO ∧ Exists (λ x, fatal x c) (k_writes k)))) ((a, k), h).
Proof.
  revert c s b a k h. induction fuel as [|fuel IH]; intros c s b a k h Hok Hc Hb Hs Hf; [lia|].
  cbn [write_all]. wp_step. eapply wp_mono; [by eapply redisBufferWrite_wp|].
  intros [[c1 st] done] w1 (Hok1 & Hfl & [(-> & Hc1 & Hdone)|(-> & -> & Hc1 & _ & x & l & Ek & Hx)]).
  - rewrite bool_decide_false by done. destruct Hdone as [[-> He]|[-> (x & Ek)]]; cbn [default].
    + wp_steps. split_and!; [done | done|]. by left.
    + pose proof Hfl as (b1 & b2 & s1 & _ & _ & Hs1 & Hr1 & _ & Hfl1 & _).
      destruct w1 as [[a1 k1] h1]. eapply wp_mono.
      { eapply (IH c1 s1 b2 a1 k1 h1); try done. unfold script_of in Ek. cbn in Ek.
        rewrite Ek in Hf. simpl in Hf. lia. }
      intros [c2 st2] w2 (Hok2 & Hfl2 & Hres). split_and!; [done | by eapply flushed_trans|].
      destruct Hres as [?|(? & ? & Hex)]; [by left | right]. split_and!; [done..|].
      rewrite Ek. right. unfold script_of. cbn [fst snd].
      unfold fatal, has_flag in *. by rewrite <- Hfl1.
  - rewrite bool_decide_true by done. wp_steps. split_and!; [done | done|]. right.
    split_and!; [done..|]. rewrite Ek. by left.
Qed.

(** ** Reading a reply *)

(** Reads that bring the bytes [t], in chunks of any size up to that of
    the buffer, with interruptions. *)
Inductive delivers : list read_result -> bytes -> Prop :=
  | delivers_nil : delivers [] []
  | delivers_chunk b l t :
      b ≠ [] -> zlen b ≤ 1024 * 16 -> delivers l t -> delivers (Chunk b :: l) (b ++ t)
  | delivers_eintr l t : delivers l t -> delivers (ReadFail EINTR :: l) t.

(** The rest of the script is as it was. *)
Definition only_reads (w w' : W) : Prop :=
  k_sent (script_of w') = k_sent (script_of w) ∧
  k_writes (script_of w') = k_writes (script_of w) ∧
  k_open (script_of w') = k_open (script_of w) ∧
  k_reads (script_of w') `suffix_of` k_reads (script_of w).

#[local] Instance heap_rel : AllocRel (same_heap (X := X)) := same_heap_alloc.

Lemma client_item_mono v rep : alloc_mono (same_heap (X := X)) (build_item fns v rep).
Proof. by apply default_item_mono, scripted_no_oom. Qed.

Lemma client_awaits_mono Q r S un w w' :
  (∀ o w1 w2, same_heap (X := X) w1 w2 -> Q o w1 -> Q o w2) ->
  awaits fns 0 Q r S un w -> same_heap (X := X) w w' -> awaits fns 0 Q r S un w'.
Proof. apply awaits_mono. apply client_item_mono. Qed.

(** What a read leaves: the same reader, or one fed with a chunk. *)
Lemma redisBufferRead_wp Q c r S un t x l rest a k h :
  (∀ o w1 w2, same_heap (X := X) w1 w2 -> Q o w1 -> Q o w2) ->
  ctx_ok c -> c_err c = 0 -> c_reader c = Some r ->
  awaits fns 0 Q r S un ((a, k), h) -> zlen un < 2 ^ 29 ->
  k_reads k = x :: l ++ rest -> delivers (x :: l) t ->
  wp (redisBufferRead fns c) (λ '(c', st) w',
    st = REDIS_OK ∧ k_reads (script_of w') = l ++ rest ∧ only_reads ((a, k), h) w' ∧
    ∃ r' b t', c' = set_reader c (Some r') ∧ awaits fns 0 Q r' S (un ++ b) w' ∧
      t = b ++ t' ∧ delivers l t') ((a, k), h).
Proof.
  intros HQ Hok Hc Hr Haw Hun Hk Hd. unfold redisBufferRead.
  rewrite bool_decide_false by (by intros H; apply H).
  wp_step. apply wp_sys. rewrite client_read. unfold script_read. rewrite Hk.
  assert (set_reader c (Some r) = c) as Hsame by (destruct c; cbn in *; by subst).
  inversion Hd as [|b l' t' Hb Hlen Hd'|l' t' Hd']; subst.
  - cbv beta iota zeta. assert (take (Z.to_nat (1024 * 16)) b = b) as ->
      by (apply take_ge; unfold zlen in Hlen; lia).
    pose proof (zlen_nonneg b). rewrite i32_small by lia.
    assert (zlen b ≠ 0) by (intros ?; by apply Hb, zlen_zero).
    rewrite (bool_decide_false (zlen b = 0)) by done.
    rewrite (bool_decide_true (zlen b ≤ _)) by lia.
    wp_step. eapply wp_lift_ok; [by rewrite Hr|]. wp_step. rewrite u64_small by lia.
    set (w1 := ((a, Script _ _ _ _ (l ++ rest) _), h)).
    eapply wp_mono.
    { apply (wp_alloc_only same_script); [apply redisReaderFeed_frame; apply _|].
      apply (feed_ok (client_no_oom) fns 0 same_heap) with (Q := Q) (S := S) (un := un).
      - apply client_item_mono.
      - done.
      - by eapply client_awaits_mono.
      - unfold SDS_MAX_PREALLOC. lia. }
    intros [r' st] w2 [[-> Haw'] Hk2]. rewrite bool_decide_false by auto. wp_steps.
    unfold same_script in Hk2. rewrite Hk2. split_and!; try done.
    + unfold only_reads. rewrite Hk2. split_and!; try done. unfold script_of. cbn [fst snd]. rewrite Hk.
      by exists [Chunk b].
    + by exists r', b, t'.
  - wp_step. apply wp_get_errno. rewrite bool_decide_true by (by right). wp_steps.
    split_and!; try done.
    + split_and!; try done. unfold script_of. cbn [fst snd]. rewrite Hk. by exists [ReadFail EINTR].
    + exists r, [], t. rewrite app_nil_r. split_and!; try done. by eapply client_awaits_mono.
Qed.

(** Asking the reader, when it waits for a reply. *)
Lemma getReplyFromReader_wp (R : W -> W -> Prop) `{!HeapFrame R} Q c r S un more extra w :
  c_reader c = Some r -> awaits fns 0 Q r S un w -> un ++ more = S ++ extra ->
  zlen S < 2 ^ 31 -> (more = [] -> extra = [] -> un ≠ []) ->
  wp (redisGetReplyFromReader fns c) (λ '(c', st, o) w',
    st = REDIS_OK ∧ R w w' ∧ ∃ r', c' = set_reader c (Some r') ∧
      got fns 0 Q (zlen S) more extra r' o w') w.
Proof.
  intros Hr Haw E HS Hne. unfold redisGetReplyFromReader.
  wp_step. eapply wp_lift_ok; [by rewrite Hr|]. wp_step. eapply wp_mono.
  { apply (wp_alloc_only R); [apply redisReaderGetReply_frame; apply _|].
    apply (getReply_ok fns 0) with (Q := Q) (S := S) (un := un); try done.
    intros. by apply default_string_len. }
  intros [[r' st] o] w' [[-> Hgot] Hk]. rewrite bool_decide_false by done. wp_steps.
  split_and!; [done..|]. by exists r'.
Qed.

(** The end of a read: the object, the reader between replies, the bytes
    left over in the reader and in the reads to come. *)
Definition received (Q : vptr nat -> W -> Prop) (c c' : redisContext nat) (o : vptr nat)
    (rest : list read_result) (extra : bytes) (w w' : W) : Prop :=
  is_null o = false ∧ Q o w' ∧ only_reads w w' ∧
  ∃ r' un' l2 s2, c' = set_reader c (Some r') ∧ between 0 r' un' ∧
    k_reads (script_of w') = l2 ++ rest ∧ delivers l2 s2 ∧ un' ++ s2 = extra.

Lemma read_until_wp fuel Q c r S un t extra l rest a k h :
  (∀ o w1 w2, same_heap (X := X) w1 w2 -> Q o w1 -> Q o w2) ->
  ctx_ok c -> c_err c = 0 -> c_reader c = Some r ->
  awaits fns 0 Q r S un ((a, k), h) -> un ++ t = S -> t ≠ [] -> zlen S < 2 ^ 29 ->
  k_reads k = l ++ rest -> delivers l (t ++ extra) -> (length l ≤ fuel)%nat ->
  wp (read_until fns fuel c) (λ '(c', st, o) w',
    st = REDIS_OK ∧ received Q c c' o rest extra ((a, k), h) w') ((a, k), h).
Proof.
  intros HQ. revert c r S un t l a k h.
  induction fuel as [|fuel IH]; intros c r S un t l a k h Hok Hc Hr Haw HS Ht HlS Hk Hd Hf.
  { destruct l; [|simpl in Hf; lia]. inversion Hd as [E| |]. by destruct t. }
  destruct l as [|x l]; [inversion Hd as [E| |]; by destruct t|].
  cbn [read_until]. wp_step. eapply wp_mono.
  { eapply (redisBufferRead_wp Q c r S un (t ++ extra) x l rest a k h); try done.
    rewrite <- HS in HlS. zl. }
  intros [c1 st] w1 (-> & Hk1 & Hor1 & r1 & b & t' & -> & Haw1 & Et & Hd1).
  rewrite bool_decide_false by done. wp_step. eapply wp_mono.
  { apply (getReplyFromReader_wp same_script Q _ r1 S (un ++ b) t' extra); try done.
    - by rewrite <- app_assoc, <- Et, app_assoc, HS.
    - lia.
    - intros -> ->. rewrite !app_nil_r in Et. subst b. intros E.
      apply app_eq_nil in E as [_ E]. done. }
  intros [[c2 st] o] w2 (-> & Hk2 & r2 & -> & Hgot). rewrite bool_decide_false by done.
  unfold same_script in Hk2.
  destruct Hgot as [(Ho & HQo & un' & Hb & Hex)|(-> & S2 & un2 & t2 & Haw2 & Ht2 & HS2 & Ht' & HlS2)].
  - rewrite Ho. wp_steps. split; [done|]. split_and!; try done.
    + unfold only_reads in *. by rewrite Hk2.
    + exists r2, un', l, t'. rewrite Hk2. done.
  - cbn [is_null]. destruct w2 as [[a2 k2] h2]. unfold script_of in *. cbn [fst snd] in *.
    eapply wp_mono.
    { eapply (IH (set_reader (set_reader c (Some r1)) (Some r2)) r2 S2 un2 t2 l a2 k2 h2); try done.
      - lia.
      - by rewrite Hk2.
      - by rewrite <- Ht'.
      - simpl in Hf. lia. }
    intros [[c3 st] o] w3 (-> & Ho & HQo & Hor3 & r3 & un3 & l3 & s3 & -> & ?).
    split; [done|]. split_and!; try done.
    + unfold only_reads, script_of in *. cbn [fst snd] in *. rewrite Hk2 in Hor3.
      destruct Hor1 as (? & ? & ? & ?), Hor3 as (? & ? & ? & ?). split_and!; try congruence. by etrans.
    + by exists r3, un3, l3, s3.
Qed.

(** ** A command and its reply *)

(** A connection between commands: nothing to send, nothing half read. *)
Definition idle (c : redisContext nat) (r : redisReader nat) : Prop :=
  ctx_ok c ∧ c_err c = 0 ∧ c_reader c = Some r ∧ between 0 r [] ∧
  has_flag c REDIS_BLOCK = true.

Lemma received_result Q c1 c2 o rest extra w1 w2 :
  received Q c1 c2 o rest extra w1 w2 ->
  c_err c2 = c_err c1 ∧ c_obuf c2 = c_obuf c1 ∧ c_flags c2 = c_flags c1 ∧
  c_errstr c2 = c_errstr c1 ∧ k_sent (script_of w2) = k_sent (script_of w1).
Proof. by intros (_ & _ & (? & _) & r & un & l2 & s2 & -> & _). Qed.

(** A reply within the limits of the reader. *)
Definition readable (rep : reply) : Prop := wf rep ∧ (depth rep ≤ 8)%nat ∧ zlen (encode rep) < 2 ^ 29.

(** A blocking connection in use: [b] is still to be sent, the reader has
    [un], and the reads to come bring [t] before those of [rest].  The fuel is
    enough for both. *)
Record ready (fuel : nat) (c : redisContext nat) (k : script) (b un t : bytes) (rest : list read_result)
    : Prop := {
  ready_ok : ctx_ok c;
  ready_err : c_err c = 0;
  ready_block : has_flag c REDIS_BLOCK = true;
  ready_obuf : ∃ s, c_obuf c = Some s ∧ sds_rep s b;
  ready_writes : Forall (λ x, ¬ fatal x c) (k_writes k) ∧ (length (k_writes k) < fuel)%nat;
  ready_reader : ∃ r, c_reader c = Some r ∧ between 0 r un;
  ready_reads : ∃ l, k_reads k = l ++ rest ∧ delivers l t ∧ (length l ≤ fuel)%nat
}.

Lemma fatal_flags (c c' : redisContext nat) l :
  c_flags c' = c_flags c -> Forall (λ x, ¬ fatal x c) l -> Forall (λ x, ¬ fatal x c') l.
Proof.
  intros Hf Hl. eapply list.Forall_impl; [exact Hl|]. intros []; unfold fatal, has_flag; by rewrite ?Hf.
Qed.

(** A reply that the reader has whole, or as much of it as was read. *)
Lemma reader_reply_wp rep extra un t c r a k h :
  c_reader c = Some r -> between 0 r un -> readable rep -> un ++ t = encode rep ++ extra ->
  wp (redisGetReplyFromReader fns c) (λ '(c', st, o) w',
    st = REDIS_OK ∧ same_script ((a, k), h) w' ∧ ∃ r', c' = set_reader c (Some r') ∧
      got fns 0 (reply_in h rep) (zlen (encode rep)) t extra r' o w') ((a, k), h).
Proof.
  intros Hr Hb (Hwf & Hd & Hlen) Hun.
  assert (wp (build fns 0 None (-1) rep) (reply_in h rep) ((a, k), h)) as Hbuild.
  { eapply wp_mono.
    - apply (build_wp (scripted_no_oom no_oom) 0 rep Hwf); [unfold encode in Hlen; zl | done].
    - done. }
  pose proof (awaits_between fns 0 (reply_in h rep) r un rep ((a, k), h) Hb Hwf Hd Hbuild) as Haw.
  apply (getReplyFromReader_wp same_script (reply_in h rep) c r (encode rep) un t extra); try done; [lia|].
  intros -> ->. rewrite !app_nil_r in Hun. by subst un.
Qed.

Lemma reply_in_heap h rep o w1 w2 : same_heap (X := X) w1 w2 -> reply_in h rep o w1 -> reply_in h rep o w2.
Proof. intros HR (l & D & hn & ?). unfold same_heap in HR. unfold reply_in. rewrite <- HR. by exists l, D, hn. Qed.

(** What [redisGetReply] does when the reader waits for more: everything is
    sent, and then read until the reply is there. *)
Lemma flush_read_wp fuel c s b r S un t rep extra l rest a k h h1 :
  ctx_ok c -> c_err c = 0 -> has_flag c REDIS_BLOCK = true -> c_obuf c = Some s -> sds_rep s b ->
  Forall (λ x, ¬ fatal x c) (k_writes k) -> (length (k_writes k) < fuel)%nat ->
  c_reader c = Some r -> awaits fns 0 (reply_in h rep) r S un ((a, k), h1) -> un ++ t = S -> t ≠ [] ->
  zlen S < 2 ^ 29 -> k_reads k = l ++ rest -> delivers l (t ++ extra) -> (length l ≤ fuel)%nat ->
  wp ('(c, st) ← write_all fuel c;
      if bool_decide (st = REDIS_ERR) then mret (c, REDIS_ERR, Null) else read_until fns fuel c)
    (λ '(c', st, o) w', st = REDIS_OK ∧ reply_in h rep o w' ∧ ∃ un' t',
      k_sent (script_of w') = k_sent k ++ b ∧ un' ++ t' = extra ∧
      ready fuel c' (script_of w') [] un' t' rest) ((a, k), h1).
Proof.
  intros Hok Hc Hblk Hs Hrep Hfatal Hfw Hr Haw HS Ht HlS Hk Hdel Hfr.
  wp_step. eapply wp_mono; [by apply (write_all_wp fuel c s b a k h1)|].
  intros [c2 st] w2 (Hok2 & Hfl & [(-> & Hc2 & He2)|(_ & _ & Hex)]).
  2:{ exfalso. clear - Hex Hfatal. induction Hex; inversion Hfatal; auto. }
  rewrite bool_decide_false by done.
  destruct Hfl as (b1 & b2 & s2 & Eb & Hsent & Hs2 & Hr2 & Hrd2 & Hfl2 & _ & Hh2 & Hreads2 & [ws Hws]).
  assert (b2 = []) as ->.
  { destruct He2 as (s3 & Hs3 & Hr3). rewrite Hs2 in Hs3. injection Hs3 as <-.
    by eapply sds_rep_inj. }
  rewrite app_nil_r in Eb. subst b1.
  destruct w2 as [[a2 k2] h2]. unfold script_of in *. cbn [fst snd] in *. subst h2.
  eapply wp_mono.
  { apply (read_until_wp fuel (reply_in h rep) c2 r S un t extra l rest a2 k2 h1);
      try done; [apply reply_in_heap | congruence
        | by eapply client_awaits_mono; [apply reply_in_heap|..] | by rewrite Hreads2]. }
  intros [[c3 st] o] w3 [-> Hrec].
  pose proof (received_result _ _ _ _ _ _ _ _ Hrec) as (He3 & Hob & Hfl3 & _ & Hse).
  destruct Hrec as (Ho & HQo & (_ & Hws3 & _ & [l4 Hl4]) & r3 & un3 & l3 & s3 & -> & Hb3 & Hk3 & Hd3 & He).
  unfold script_of in *. cbn [fst snd] in *. split_and!; [done..|].
  exists un3, s3. split_and!; [by rewrite Hse|done|].
  rewrite Hws, Forall_app in Hfatal. rewrite Hws, length_app in Hfw.
  split; try done; try congruence.
  - unfold has_flag. by rewrite Hfl3, Hfl2.
  - rewrite Hws3. split; [|lia]. apply (fatal_flags c); [by rewrite Hfl3, Hfl2|apply Hfatal].
  - by exists r3.
  - exists l3. split_and!; try done. rewrite Hreads2, Hk, Hk3 in Hl4.
    apply (f_equal length) in Hl4. rewrite !length_app in Hl4. lia.
Qed.

(** The next reply is the one returned.  Unless the reader has it already,
    what is to be sent is sent first. *)
Lemma next_reply_wp fuel c b un t rest rep extra a k h :
  ready fuel c k b un t rest -> readable rep -> un ++ t = encode rep ++ extra ->
  wp (redisGetReply fns fuel c) (λ '(c', st, o) w',
    st = REDIS_OK ∧ reply_in h rep o w' ∧ ∃ b1 b' un' t',
      b = b1 ++ b' ∧ k_sent (script_of w') = k_sent k ++ b1 ∧ (un = [] -> b' = []) ∧
      un' ++ t' = extra ∧ ready fuel c' (script_of w') b' un' t' rest) ((a, k), h).
Proof.
  intros [Hok Hc Hblk (s & Hs & Hrep) [Hfatal Hfw] (r & Hr & Hb) (l & Hk & Hdel & Hfr)] Hread Hun.
  pose proof Hread as (_ & _ & Hlen).
  unfold redisGetReply. wp_step. eapply wp_mono; [by eapply reader_reply_wp|].
  intros [[c1 st] o] w1 (-> & Hk1 & r1 & -> & Hgot); rewrite bool_decide_false by done.
  destruct w1 as [[a1 k1] h1]. unfold same_script, script_of in *. cbn [fst snd] in *. subst k1.
  destruct Hgot as [(Ho & HQ & un' & Hb' & E)|(-> & S2 & un2 & t2 & Haw2 & Ht2 & HS2 & -> & HlS2)].
  - rewrite Ho. cbn [andb]. wp_steps. split_and!; [done..|].
    exists [], b, un', t. rewrite app_nil_r. split_and!; try done.
    + intros ->. exfalso. subst extra. assert (encode rep ≠ []) as Hne by done. apply Hne.
      apply (f_equal length) in Hun. rewrite !length_app in Hun. cbn [length] in Hun.
      apply length_zero_iff_nil. lia.
    + split; try done; [by exists s|by exists r1|by exists l].
  - cbn [is_null]. assert (has_flag (set_reader c (Some r1)) REDIS_BLOCK = true) as -> by done. cbn [andb].
    eapply wp_mono.
    { eapply (flush_read_wp fuel (set_reader c (Some r1))); try done. lia. }
    intros [[c2 st] o] w2 (-> & Ho & un' & t' & Hse & Hex & Hrdy). split_and!; [done..|].
    exists b, [], un', t'. by rewrite app_nil_r.
Qed.

(** On an idle connection everything is sent. *)
Lemma idle_ready fuel c r s b t l rest k :
  idle c r -> c_obuf c = Some s -> sds_rep s b -> Forall (λ x, ¬ fatal x c) (k_writes k) ->
  (length (k_writes k) < fuel)%nat -> k_reads k = l ++ rest -> delivers l t -> (length l ≤ fuel)%nat ->
  ready fuel c k b [] t rest.
Proof. intros (? & ? & ? & ? & ?) **. split; eauto. Qed.

Lemma redisGetReply_wp fuel c r s b rep extra l rest a k h :
  idle c r -> c_obuf c = Some s -> sds_rep s b ->
  wf rep -> (depth rep ≤ 8)%nat -> zlen (encode rep) < 2 ^ 29 ->
  Forall (λ x, ¬ fatal x c) (k_writes k) -> (length (k_writes k) < fuel)%nat ->
  k_reads k = l ++ rest -> delivers l (encode rep ++ extra) -> (length l ≤ fuel)%nat ->
  wp (redisGetReply fns fuel c) (λ '(c', st, o) w',
    st = REDIS_OK ∧ c_err c' = 0 ∧ empty_obuf c' ∧ reply_in h rep o w' ∧
    k_sent (script_of w') = k_sent k ++ b ∧
    ∃ r' un' l2 s2, c_reader c' = Some r' ∧ between 0 r' un' ∧
      k_reads (script_of w') = l2 ++ rest ∧ delivers l2 s2 ∧ un' ++ s2 = extra) ((a, k), h).
Proof.
  intros Hidle Hs Hrep Hwf Hd Hlen Hfatal Hfw Hk Hdel Hfr.
  eapply wp_mono.
  { eapply next_reply_wp; [by eapply idle_ready|done|reflexivity]. }
  intros [[c' st] o] w' (-> & Ho & b1 & b' & un & t & -> & Hse & Hb' & Hex & Hrdy).
  rewrite (Hb' eq_refl) in *. rewrite app_nil_r. destruct Hrdy as [_ He _ Hob _ (r' & ? & ?) (l' & ? & ? & ?)].
  split_and!; try done. by exists r', un, l', t.
Qed.
End client.
