(* ===== verification/ClientSpec.v ===== *)
(** * ClientSpec: a command and its reply (hiredis.c)

    Formatting and appending touch the world only to allocate, so a command
    issued on a blocking connection reaches the peer byte for byte, and the
    object returned is the peer's reply.  Several commands can be appended first:
    the replies then come in their order. *)

From Stdlib Require Import ZArith Lia Ascii.
From stdpp Require Import base list strings gmap numbers.
From S2P Require Import Prelude Libc Printf Sds SdsText SdsFormat Reader Resp ReaderSpec Replies.
From S2P Require Import Command CommandSpec CommandFormat Kernel Context NetSpec ContextSpec.

(** ** Formatting only allocates *)
Section frame.
Context {W : Type} `{!Libc W} (R : W -> W -> Prop) `{!AllocRel R}.

Lemma stuck_frame {A} : alloc_only (A := A) R stuck.
Proof. by intros ? ? ?. Qed.

Lemma massert_frame (b : bool) : alloc_only R (massert b).
Proof. destruct b; [by intros w a w' [= <- <-] | apply stuck_frame]. Qed.

Lemma sdsMakeRoomFor_frame s n : alloc_only R (sdsMakeRoomFor s n).
Proof. unfold sdsMakeRoomFor, c_realloc. alloc. Qed.
#[local] Opaque sdsMakeRoomFor massert stuck.

Ltac frame := repeat first [apply stuck_frame | apply massert_frame | apply sdsempty_alloc
  | apply sdscatlen_alloc | apply sdsMakeRoomFor_frame | done | progress alloc].

Lemma ensure_room_frame s l : alloc_only R (ensure_room s l).
Proof. unfold ensure_room. frame. Qed.
#[local] Opaque ensure_room.

Lemma put_number_frame s i conv : alloc_only R (put_number s i conv).
Proof. unfold put_number. repeat first [apply ensure_room_frame | progress frame]. Qed.
#[local] Opaque put_number.

Lemma catfmt_conv_frame next s i ap : alloc_only R (catfmt_conv next s i ap).
Proof.
  unfold catfmt_conv. repeat first [apply ensure_room_frame | apply put_number_frame | progress frame].
Qed.
#[local] Opaque catfmt_conv.

Lemma catfmt_loop_frame f s i ap : alloc_only R (catfmt_loop f s i ap).
Proof.
  remember (length f) as n eqn:Hn. revert f Hn s i ap.
  induction (lt_wf n) as [n _ IH]. intros f -> s i ap.
  destruct f as [|c f1]; cbn [catfmt_loop]; [apply stuck_frame|].
  case_decide; [frame|]. apply alloc_only_bind; [done | frame |]. intros s1.
  case_decide.
  - destruct f1 as [|next f2]; [apply stuck_frame|].
    apply alloc_only_bind; [done | apply catfmt_conv_frame |]. intros [[s2 i2] ap2].
    eapply IH; [|done]. simpl. lia.
  - apply alloc_only_bind; [done | frame |]. intros buf. eapply IH; [|done]. simpl. lia.
Qed.
#[local] Opaque catfmt_loop.

Lemma sdscatfmt_frame s f ap : alloc_only R (sdscatfmt s f ap).
Proof. unfold sdscatfmt. repeat first [apply catfmt_loop_frame | progress frame]. Qed.
#[local] Opaque sdscatfmt.

Lemma sdscat_frame s t : alloc_only R (sdscat s t).
Proof. unfold sdscat. frame. Qed.
#[local] Opaque sdscat.

Lemma vprintf_loop_frame fuel s f ap n : alloc_only R (vprintf_loop fuel s f ap n).
Proof.
  revert n. induction fuel as [|fuel IH]; intros n; cbn [vprintf_loop]; [apply stuck_frame|].
  repeat first [apply IH | apply sdscat_frame | progress frame].
Qed.

Lemma sdscatvprintf_frame s f ap : alloc_only R (sdscatvprintf s f ap).
Proof. apply vprintf_loop_frame. Qed.
#[local] Opaque sdscatvprintf.

Lemma convert_frame c next s ap : alloc_only R (convert c next s ap).
Proof.
  unfold convert. repeat first [apply sdscat_frame | apply sdscatvprintf_frame | progress frame].
Qed.
#[local] Opaque convert.

Lemma push_arg_frame vec s n : alloc_only R (push_arg vec s n).
Proof. unfold push_arg. frame. Qed.
#[local] Opaque push_arg.

Lemma vformat_loop_frame fuel c cur vec touched tot ap :
  alloc_only R (vformat_loop fuel c cur vec touched tot ap).
Proof.
  revert c cur vec touched tot ap.
  induction fuel as [|fuel IH]; intros c cur vec touched tot ap; cbn [vformat_loop]; [apply stuck_frame|].
  repeat first [apply IH | apply convert_frame | apply push_arg_frame | progress frame].
Qed.
#[local] Opaque vformat_loop.

Lemma redisvFormatCommand_frame f ap : alloc_only R (redisvFormatCommand true f ap).
Proof.
  unfold redisvFormatCommand. cbn [negb].
  repeat first [apply vformat_loop_frame | apply push_arg_frame | progress frame].
Qed.

Lemma cat_args_frame s args : alloc_only R (cat_args s args).
Proof.
  revert s. induction args as [|[p n] args IH]; intros s; cbn [cat_args]; [frame|].
  repeat first [apply IH | apply sdscatfmt_frame | progress frame].
Qed.
#[local] Opaque cat_args.

Lemma redisFormatSdsCommandArgv_frame argv argvlen :
  alloc_only R (redisFormatSdsCommandArgv true argv argvlen).
Proof.
  unfold redisFormatSdsCommandArgv. cbn [negb].
  repeat first [apply cat_args_frame | apply sdscatfmt_frame | progress frame].
Qed.
End frame.

(** ** Appending a command *)
Section append.
Context {W : Type} `{!Libc W, !Kernel W} {Ob : Type} (no_oom : ¬ oom W).
Implicit Type c : redisContext Ob.

(** [c'] is [c] with [t] added to the output buffer. *)
Definition appended c (b t : bytes) (c' : redisContext Ob) : Prop :=
  ∃ s, c' = set_obuf c (Some s) ∧ sds_rep s (b ++ t).

Lemma appendCommand_wp c s b t tl n w :
  c_obuf c = Some s -> sds_rep s b -> n = zlen t -> zlen b + n + SDS_MAX_PREALLOC < 2 ^ 31 ->
  wp (__redisAppendCommand c (t ++ tl) n) (λ '(c', st) _, st = REDIS_OK ∧ appended c b t c') w.
Proof.
  intros Hs Hb -> Hroom. unfold __redisAppendCommand.
  wp_step. eapply wp_lift_ok; [by rewrite Hs|]. wp_step.
  eapply wp_mono; [apply (sdscatlen_wp s b); [done | zl | done]|].
  rewrite take_zlen. intros [s'|] w' H; [|by destruct no_oom]. wp_steps. split; [done|]. by exists s'.
Qed.

(** After [__redisAppendCommand]: the status is tested and handed on. *)
Ltac checked lem :=
  eapply wp_mono; [lem|]; intros [c' st] w' [-> Hc'];
  rewrite bool_decide_false by auto; by wp_steps.

Lemma redisAppendFormattedCommand_wp c s b t tl n w :
  c_obuf c = Some s -> sds_rep s b -> n = zlen t -> zlen b + n + SDS_MAX_PREALLOC < 2 ^ 31 ->
  wp (redisAppendFormattedCommand c (t ++ tl) n)
     (λ '(c', st) _, st = REDIS_OK ∧ appended c b t c') w.
Proof.
  intros. unfold redisAppendFormattedCommand. wp_step. checked ltac:(by eapply appendCommand_wp).
Qed.

Lemma redisAppendCommandArgv_wp c s b argv argvlen ss w :
  c_obuf c = Some s -> sds_rep s b -> argv_rep argv argvlen ss ->
  zlen b + zlen (encode (command ss)) + SDS_MAX_PREALLOC + 1 < 2 ^ 31 ->
  wp (redisAppendCommandArgv c argv argvlen)
     (λ '(c', st) _, st = REDIS_OK ∧ appended c b (encode (command ss)) c') w.
Proof.
  intros Hs Hb Hargv Hroom. unfold redisAppendCommandArgv, SDS_MAX_PREALLOC in *.
  pose proof (zlen_nonneg b). pose proof (zlen_nonneg (encode (command ss))). wp_step.
  eapply wp_mono; [apply (redisFormatSdsCommandArgv_wp no_oom argv argvlen ss);
    [done | unfold SDS_MAX_PREALLOC; lia]|].
  intros [t len] w1 (cmd & -> & (tl & -> & Hfit) & ->).
  rewrite bool_decide_false by lia. wp_steps. rewrite u64_small by lia. cbn [mk sh_buf].
  checked ltac:(by apply (appendCommand_wp c s b _ (NUL :: tl)); try done; unfold SDS_MAX_PREALLOC; lia).
Qed.

Lemma redisvAppendCommand_wp c s b f ftl ap ss w :
  c_obuf c = Some s -> sds_rep s b -> NUL ∉ f -> fmt_args f ap [] false = Some ss ->
  zlen b + zlen (encode (command ss)) + SDS_MAX_PREALLOC + 1 < 2 ^ 31 ->
  wp (redisvAppendCommand c (f ++ NUL :: ftl) ap)
     (λ '(c', st) _, st = REDIS_OK ∧ appended c b (encode (command ss)) c') w.
Proof.
  intros Hs Hb Hf Hss Hroom. unfold redisvAppendCommand, SDS_MAX_PREALLOC in *.
  pose proof (zlen_nonneg b). pose proof (zlen_nonneg (encode (command ss))). wp_step.
  eapply wp_mono; [apply (redisvFormatCommand_wp f ftl ap ss);
    [done | done | unfold SDS_MAX_PREALLOC; lia]|].
  intros [[blk|] len] w1; [|intros [_ ?]; by destruct no_oom]. intros [-> ->].
  rewrite !bool_decide_false by lia. wp_steps. rewrite u64_small by lia.
  checked ltac:(by apply (appendCommand_wp c s b _ [NUL]); try done; unfold SDS_MAX_PREALLOC; lia).
Qed.

Lemma setError_frame (R : W -> W -> Prop) `{!AllocRel R} c ty str :
  alloc_only R (__redisSetError c ty str).
Proof.
  unfold __redisSetError. destruct str; [alloc|].
  apply alloc_only_bind; [done | apply massert_frame, _ |]. intros _.
  apply alloc_only_bind; [done | by intros w a w' [= <- <-] |]. alloc.
Qed.

Lemma appendCommand_frame (R : W -> W -> Prop) `{!AllocRel R} c t n :
  alloc_only R (__redisAppendCommand c t n).
Proof.
  unfold __redisAppendCommand. apply alloc_only_bind; [done | alloc |]. intros s.
  apply alloc_only_bind; [done | apply sdscatlen_alloc, _ |]. intros [s'|]; [alloc|].
  apply alloc_only_bind; [done | apply setError_frame, _ |]. alloc.
Qed.

#[local] Opaque __redisSetError __redisAppendCommand redisFormatSdsCommandArgv redisvFormatCommand.

Lemma redisAppendCommandArgv_frame (R : W -> W -> Prop) `{!AllocRel R} c argv argvlen :
  alloc_only R (redisAppendCommandArgv c argv argvlen).
Proof.
  unfold redisAppendCommandArgv. repeat first [apply setError_frame, _ | apply appendCommand_frame, _
    | apply redisFormatSdsCommandArgv_frame, _ | done | progress alloc].
Qed.

Lemma redisvAppendCommand_frame (R : W -> W -> Prop) `{!AllocRel R} c f ap :
  alloc_only R (redisvAppendCommand c f ap).
Proof.
  unfold redisvAppendCommand. repeat first [apply setError_frame, _ | apply appendCommand_frame, _
    | apply redisvFormatCommand_frame, _ | done | progress alloc].
Qed.
End append.

(** ** Command and reply on a blocking connection *)
Section exchange.
Context {A : Type} `{!Libc A} (no_oom : ¬ oom A).
Abbreviation X := (scripted_world A).
Abbreviation W := (world X).
Abbreviation fns := (Some (defaultFunctions (X := X))).

(** The peer that takes everything in the end and sends [rep]: writes
    succeed in parts or are interrupted, reads bring the reply and [extra]
    in chunks, and then whatever [rest] says. *)
Record peer (c : redisContext nat) (k : script) (rep : reply) (extra : bytes)
    (l rest : list read_result) : Prop := {
  peer_writes : Forall (λ x, ¬ fatal x c) (k_writes k);
  peer_reads : k_reads k = l ++ rest;
  peer_delivers : delivers l (encode rep ++ extra);
  peer_wf : wf rep;
  peer_depth : (depth rep ≤ 8)%nat;
  peer_len : zlen (encode rep) < 2 ^ 29;
}.

(** The command was sent, and the object is the reply. *)
Definition answered (sent : bytes) (rep : reply) (extra : bytes) (rest : list read_result)
    (h : heap) (c : redisContext nat) (o : vptr nat) (w : W) : Prop :=
  c_err c = 0 ∧ empty_obuf c ∧ reply_in h rep o w ∧ k_sent (script_of w) = sent ∧
  ∃ r un l2 s2, c_reader c = Some r ∧ between 0 r un ∧
    k_reads (script_of w) = l2 ++ rest ∧ delivers l2 s2 ∧ un ++ s2 = extra.

Lemma block_for_reply_wp fuel c r s b rep extra l rest a k h :
  idle c r -> c_obuf c = Some s -> sds_rep s b -> peer c k rep extra l rest ->
  (length (k_writes k) < fuel)%nat -> (length l ≤ fuel)%nat ->
  wp (__redisBlockForReply fns fuel c) (λ '(c', o) w',
    answered (k_sent k ++ b) rep extra rest h c' o w') ((a, k), h).
Proof.
  intros Hidle Hs Hb [] Hfw Hfl. unfold __redisBlockForReply.
  assert (has_flag c REDIS_BLOCK = true) as -> by apply Hidle. wp_step.
  eapply wp_mono; [by eapply (redisGetReply_wp no_oom)|].
  intros [[c' st] o] w' (-> & ?). rewrite bool_decide_false by auto. by wp_steps.
Qed.

(** The appended context is as idle as before. *)
Lemma idle_append c r s : idle c r -> idle (set_obuf c (Some s)) r.
Proof. done. Qed.

Lemma exchange_wp fuel c r b t rep extra l rest a k h
    (m : M W (redisContext nat * Z)) :
  idle c r -> peer c k rep extra l rest ->
  (length (k_writes k) < fuel)%nat -> (length l ≤ fuel)%nat ->
  alloc_only same_but_alloc m ->
  wp m (λ '(c', st) _, st = REDIS_OK ∧ appended c b t c') ((a, k), h) ->
  wp ('(c, st) ← m;
      if bool_decide (st ≠ REDIS_OK) then mret (c, Null) else __redisBlockForReply fns fuel c)
     (λ '(c', o) w', answered (k_sent k ++ b ++ t) rep extra rest h c' o w') ((a, k), h).
Proof.
  intros Hidle Hpeer Hfw Hfl Hframe Hm. wp_step.
  eapply wp_mono; [by apply (wp_alloc_only same_but_alloc)|].
  intros [c1 st] [[a1 k1] h1] [[-> (s1 & -> & Hs1)] [Hk Hh]].
  unfold script_of in Hk. cbn [fst snd] in *. subst k1 h1.
  rewrite bool_decide_false by auto.
  eapply block_for_reply_wp; [by apply idle_append | done | done | | done | done].
  destruct Hpeer. by split.
Qed.

Lemma redisCommandArgv_wp fuel c r s b argv argvlen ss rep extra l rest a k h :
  idle c r -> c_obuf c = Some s -> sds_rep s b -> argv_rep argv argvlen ss ->
  zlen b + zlen (encode (command ss)) + SDS_MAX_PREALLOC + 1 < 2 ^ 31 ->
  peer c k rep extra l rest -> (length (k_writes k) < fuel)%nat -> (length l ≤ fuel)%nat ->
  wp (redisCommandArgv fns fuel c argv argvlen) (λ '(c', o) w',
    answered (k_sent k ++ b ++ encode (command ss)) rep extra rest h c' o w') ((a, k), h).
Proof.
  intros. eapply exchange_wp; try done; [apply redisAppendCommandArgv_frame, _|].
  eapply redisAppendCommandArgv_wp; try done. by apply client_no_oom.
Qed.

Lemma redisCommand_wp fuel c r s b f ftl ap ss rep extra l rest a k h :
  idle c r -> c_obuf c = Some s -> sds_rep s b ->
  NUL ∉ f -> fmt_args f ap [] false = Some ss ->
  zlen b + zlen (encode (command ss)) + SDS_MAX_PREALLOC + 1 < 2 ^ 31 ->
  peer c k rep extra l rest -> (length (k_writes k) < fuel)%nat -> (length l ≤ fuel)%nat ->
  wp (redisCommand fns fuel c (f ++ NUL :: ftl) ap) (λ '(c', o) w',
    answered (k_sent k ++ b ++ encode (command ss)) rep extra rest h c' o w') ((a, k), h).
Proof.
  intros. eapply exchange_wp; try done; [apply redisvAppendCommand_frame, _|].
  eapply redisvAppendCommand_wp; try done. by apply client_no_oom.
Qed.

(** ** Pipelines *)

(** The peer of several commands: it answers with [reps]. *)
Record replying (c : redisContext nat) (k : script) (reps : list reply) (extra : bytes)
    (l rest : list read_result) : Prop := {
  replying_writes : Forall (λ x, ¬ fatal x c) (k_writes k);
  replying_reads : k_reads k = l ++ rest;
  replying_delivers : delivers l (encode_list reps ++ extra);
  replying_readable : Forall readable reps
}.

Lemma replying_ready fuel c r s b reps extra l rest k :
  idle c r -> c_obuf c = Some s -> sds_rep s b -> replying c k reps extra l rest ->
  (length (k_writes k) < fuel)%nat -> (length l ≤ fuel)%nat ->
  ready fuel c k b [] (encode_list reps ++ extra) rest.
Proof. intros ? ? ? [] ? ?. by eapply idle_ready. Qed.

(** Commands are appended first, and then a reply is taken for each. *)
Fixpoint append_commands (c : redisContext nat) (cmds : list (list bytes)) : M W (redisContext nat) :=
  match cmds with
  | [] => mret c
  | ss :: cmds' => '(c, _) ← redisAppendCommandArgv c ss (Some (map zlen ss)); append_commands c cmds'
  end.

Fixpoint get_replies (n fuel : nat) (c : redisContext nat) : M W (redisContext nat * list (vptr nat)) :=
  match n with
  | O => mret (c, [])
  | S n' =>
      '(c, _, o) ← redisGetReply fns fuel c;
      '(c, os) ← get_replies n' fuel c;
      mret (c, o :: os)
  end.

(** The objects are the trees of the replies, with nothing shared. *)
Definition replies_in (h : heap) (reps : list reply) (os : list (vptr nat)) (w : W) : Prop :=
  ∃ ls D hn, os = map Obj ls ∧ trees hn ls reps D ∧ dom hn = D ∧ D ## dom h ∧ snd w = hn ∪ h.

Lemma replies_in_cons h h1 rep reps o os (w1 w : W) :
  snd w1 = h1 -> reply_in h rep o w1 -> replies_in h1 reps os w -> replies_in h (rep :: reps) (o :: os) w.
Proof.
  intros <- (l & D1 & hn1 & -> & Ht1 & Hd1 & HD1 & Hw1) (ls & D2 & hn2 & -> & Ht2 & Hd2 & HD2 & Hw).
  rewrite Hw1 in *. rewrite dom_union_L, Hd1 in HD2.
  assert (D1 ## D2) as HD by set_solver.
  exists (l :: ls), (D1 ∪ D2), (hn2 ∪ hn1). split_and!.
  - done.
  - constructor; [|eapply tree_mono; [exact Ht2|]|done].
    + eapply tree_mono; [exact Ht1|]. intros x Hx. apply lookup_union_r, not_elem_of_dom. set_solver.
    + intros x Hx. apply lookup_union_l, not_elem_of_dom. set_solver.
  - rewrite dom_union_L. set_solver.
  - set_solver.
  - by rewrite Hw, assoc_L by apply _.
Qed.

Lemma ready_append fuel c k b un t rest x c' :
  ready fuel c k b un t rest -> appended c b x c' -> ready fuel c' k (b ++ x) un t rest.
Proof. intros [? ? ? _ ? ? ?] (s & -> & Hs). split; try done. by exists s. Qed.

Lemma append_commands_wp fuel c k b un t rest cmds a h :
  ready fuel c k b un t rest ->
  zlen b + zlen (concat (map (λ ss, encode (command ss)) cmds)) + SDS_MAX_PREALLOC + 1 < 2 ^ 31 ->
  wp (append_commands c cmds) (λ c' w', script_of w' = k ∧ snd w' = h ∧
    ready fuel c' k (b ++ concat (map (λ ss, encode (command ss)) cmds)) un t rest) ((a, k), h).
Proof.
  revert c b a. induction cmds as [|ss cmds IH]; intros c b a Hr Hroom; cbn [append_commands map concat] in *.
  { wp_steps. by rewrite app_nil_r. }
  rewrite zlen_app in Hroom. pose proof (zlen_nonneg (concat (map (λ ss, encode (command ss)) cmds))).
  destruct (ready_obuf _ _ _ _ _ _ _ Hr) as (s & Hs & Hb).
  wp_step. eapply wp_mono.
  { apply (wp_alloc_only same_but_alloc); [apply redisAppendCommandArgv_frame, _|].
    eapply (redisAppendCommandArgv_wp (client_no_oom no_oom) c s b _ _ ss); try done; [|lia].
    split; [done|]. clear. induction ss; constructor; [|done]. exists []. by rewrite app_nil_r. }
  intros [c1 st] [[a1 k1] h1] [[-> Hc1] [Hk Hh]]. unfold script_of in Hk. cbn [fst snd] in *. subst k1 h1.
  rewrite app_assoc. apply IH; [by eapply ready_append|]. rewrite zlen_app. lia.
Qed.

Lemma get_replies_wp fuel c k b un t rest reps extra a h :
  ready fuel c k b un t rest -> Forall readable reps -> un ++ t = encode_list reps ++ extra ->
  wp (get_replies (length reps) fuel c) (λ '(c', os) w', replies_in h reps os w' ∧ ∃ b1 b' un' t',
    b = b1 ++ b' ∧ k_sent (script_of w') = k_sent k ++ b1 ∧ (un = [] -> reps ≠ [] -> b' = []) ∧
    un' ++ t' = extra ∧ ready fuel c' (script_of w') b' un' t' rest) ((a, k), h).
Proof.
  intros Hr Hreps. revert c k b un t a h Hr.
  induction Hreps as [|rep reps Hrep _ IH]; intros c k b un t a h Hr Hun; cbn [length get_replies].
  { wp_steps. split.
    - exists [], ∅, ∅. split_and!; [done|apply trees_nil|apply dom_empty_L|set_solver|]. by rewrite map_empty_union.
    - exists [], b, un, t. unfold script_of. cbn [fst snd]. by rewrite app_nil_r. }
  wp_step. eapply wp_mono.
  { apply (next_reply_wp no_oom fuel c b un t rest rep (encode_list reps ++ extra)); try done.
    rewrite Hun. cbn [encode_list map concat]. by rewrite <-app_assoc. }
  intros [[c1 st] o] [[a1 k1] h1] (-> & Ho & b1 & b' & un1 & t1 & -> & Hse & Hb' & Hun1 & Hr1).
  unfold script_of in *. cbn [fst snd] in *.
  wp_step. eapply wp_mono; [by apply (IH c1 k1 b' un1 t1 a1 h1)|].
  intros [c2 os] w2 (Hos & b2 & b3 & un2 & t2 & -> & Hse2 & _ & Hun2 & Hr2). wp_steps. split.
  - by eapply replies_in_cons.
  - exists (b1 ++ b2), b3, un2, t2. rewrite <-!app_assoc in *. unfold script_of in *.
    split_and!; try done; [by rewrite Hse2, Hse, <-app_assoc|].
    intros E _. specialize (Hb' E). by apply app_eq_nil in Hb' as [_ ->].
Qed.
End exchange.
