(* ===== verification/Async.v ===== *)
(** * Async: the asynchronous client of hiredis (async.c, async.h)

    The asynchronous context over the connection of Context.v: the queues of
    callbacks, the tables of subscriptions, and the handlers an event library
    calls.  The user's callbacks and the event library are parameters; a
    handler that frees the context returns [None]. *)

From Stdlib Require Import ZArith Lia Ascii.
From stdpp Require Import base list strings gmap numbers.
From S2P Require Import Prelude Libc Printf Sds Dict Reader Replies Command Kernel Context Net.

(** ** Callback lists

    The nodes of a list are cells of a store; [head] and [tail] point into
    it. *)
Record redisCallback := Callback {
  cb_fn : option Z;      (** NULL, or which of the user's functions *)
  cb_privdata : Z;
}.

Record redisCallbackList := CallbackList {
  cells : gmap nat (redisCallback * option nat); (** a node and its [next] *)
  head : option nat;
  tail : option nat;
}.

Definition no_callbacks : redisCallbackList := CallbackList ∅ None None.

Section lists.
Context {W : Type} `{!Libc W}.

Definition __redisPushCallback (l : redisCallbackList) (source : redisCallback) :
    M W (redisCallbackList * Z) :=
  b ← c_malloc 24;
  match b with
  | None => mret (l, REDIS_ERR_OOM)
  | Some _ =>
      let cb := fresh (dom (cells l)) in
      let cs := <[cb := (source, None)]> (cells l) in
      cs ← lift (match tail l with
                 | Some t => '(c, _) ← deref (cs !! t); Ok (<[t := (c, Some cb)]> cs)
                 | None => Ok cs end);
      mret (CallbackList cs (match head l with None => Some cb | h => h end) (Some cb), REDIS_OK)
  end.

(** The list, the status, and [*target] when it is written. *)
Definition __redisShiftCallback (l : redisCallbackList) :
    res (redisCallbackList * Z * option redisCallback) :=
  match head l with
  | None => Ok (l, REDIS_ERR, None)
  | Some cb =>
      '(c, next) ← deref (cells l !! cb);
      Ok (CallbackList (delete cb (cells l)) next
            (if decide (tail l = Some cb) then None else tail l), REDIS_OK, Some c)
  end.
End lists.

(** ** The tables of subscriptions *)
Section callback_dict.
Context {W : Type} `{!Libc W}.

Definition callbackHash (key : sdshdr) : res Z :=
  dictGenHashFunction (sh_buf key) (i32 (sdslen key)).

Definition callbackValDup (src : redisCallback) : M W redisCallback :=
  dup ← c_malloc 24; _ ← lift (deref dup); mret src.

Definition callbackKeyCompare (key1 key2 : sdshdr) : res Z :=
  let l1 := i32 (sdslen key1) in
  let l2 := i32 (sdslen key2) in
  if bool_decide (l1 ≠ l2) then Ok 0 else
  z ← memcmp (sh_buf key1) (sh_buf key2) l1;
  Ok (if bool_decide (z = 0) then 1 else 0).

(** Freed memory does not come back in the model. *)
Definition callbackKeyDestructor (key : sdshdr) : M W unit := mret tt.
Definition callbackValDestructor (val : redisCallback) : M W unit := mret tt.

Definition callbackDict : dictType W sdshdr redisCallback :=
  DictType _ _ _ callbackHash None (Some callbackValDup) (Some callbackKeyCompare)
    (Some callbackKeyDestructor) (Some callbackValDestructor) (λ _ _, false).
End callback_dict.

(** ** String functions of the C library *)

(** [strchr(p,c)]: the string from [c] on, or [None] for NULL. *)
Fixpoint strchr_at (p : bytes) (c : ascii) : res (option bytes) :=
  match p with
  | [] => Stuck
  | d :: p' => if decide (d = c) then Ok (Some p)
               else if decide (d = NUL) then Ok None else strchr_at p' c
  end.

(** [strcasecmp(a,b) == 0] *)
Fixpoint strcaseeq (a b : bytes) : res bool :=
  match a, b with
  | x :: a', y :: b' =>
      if decide (tolower x = tolower y) then
        if decide (x = NUL) then Ok true else strcaseeq a' b'
      else Ok false
  | _, _ => Stuck
  end.

(** [strncasecmp(a,b,n) == 0] *)
Fixpoint strncaseeq (a b : bytes) (n : nat) : res bool :=
  match n, a, b with
  | O, _, _ => Ok true
  | S n', x :: a', y :: b' =>
      if decide (tolower x = tolower y) then
        if decide (x = NUL) then Ok true else strncaseeq a' b' n'
      else Ok false
  | _, _, _ => Stuck
  end.

(** [strtol(p,NULL,10)]: blanks, a sign, digits, cut to the range of long. *)
Fixpoint strtol_digits (p : bytes) (v : Z) : res Z :=
  match p with
  | [] => Stuck
  | c :: p' => if isdigit c then strtol_digits p' (v * 10 + (uchar c - 48)) else Ok v
  end.
Fixpoint strtol_blank (p : bytes) : res bytes :=
  match p with
  | [] => Stuck
  | c :: p' => if isspace c then strtol_blank p' else Ok p
  end.
Definition strtol (p : bytes) : res Z :=
  p ← strtol_blank p;
  c ← load p 0;
  let neg := bool_decide (c = "-"%char) in
  v ← strtol_digits (if neg || bool_decide (c = "+"%char) then drop 1 p else p) 0;
  let v := if (neg : bool) then - v else v in
  Ok (Z.max (- 2 ^ 63) (Z.min LONG_MAX v)).

(** ** The context *)
Record event_hooks (W : Type) := Hooks {
  addRead : option (M W unit);
  delRead : option (M W unit);
  addWrite : option (M W unit);
  delWrite : option (M W unit);
  cleanup : option (M W unit);
}.
Arguments Hooks {W}.
Arguments addRead {W}.
Arguments delRead {W}.
Arguments addWrite {W}.
Arguments delWrite {W}.
Arguments cleanup {W}.

Record redisAsyncContext (W : Type) := Async {
  ac_c : redisContext nat;
  ac_err : Z;
  ac_errstr : bool;              (** points to the context's [errstr] *)
  ac_ev : event_hooks W;
  ac_onDisconnect : option Z;
  ac_onConnect : option Z;
  ac_replies : redisCallbackList;
  ac_invalid : redisCallbackList;
  ac_channels : dict sdshdr redisCallback;
  ac_patterns : dict sdshdr redisCallback;
}.
Arguments Async {W}.
Arguments ac_c {W}.
Arguments ac_err {W}.
Arguments ac_errstr {W}.
Arguments ac_ev {W}.
Arguments ac_onDisconnect {W}.
Arguments ac_onConnect {W}.
Arguments ac_replies {W}.
Arguments ac_invalid {W}.
Arguments ac_channels {W}.
Arguments ac_patterns {W}.

Section setters.
Context {W : Type}.
Implicit Type ac : redisAsyncContext W.

Definition set_c ac (c : redisContext nat) :=
  Async c (ac_err ac) (ac_errstr ac) (ac_ev ac) (ac_onDisconnect ac) (ac_onConnect ac)
    (ac_replies ac) (ac_invalid ac) (ac_channels ac) (ac_patterns ac).
Definition set_lists ac (rs inv : redisCallbackList) :=
  Async (ac_c ac) (ac_err ac) (ac_errstr ac) (ac_ev ac) (ac_onDisconnect ac) (ac_onConnect ac)
    rs inv (ac_channels ac) (ac_patterns ac).
Definition set_subs ac (ch pa : dict sdshdr redisCallback) :=
  Async (ac_c ac) (ac_err ac) (ac_errstr ac) (ac_ev ac) (ac_onDisconnect ac) (ac_onConnect ac)
    (ac_replies ac) (ac_invalid ac) ch pa.
Definition set_callbacks ac (onDisconnect onConnect : option Z) :=
  Async (ac_c ac) (ac_err ac) (ac_errstr ac) (ac_ev ac) onDisconnect onConnect
    (ac_replies ac) (ac_invalid ac) (ac_channels ac) (ac_patterns ac).
Definition ac_flag ac (f : Z) : bool := has_flag (ac_c ac) f.
Definition ac_add ac (f : Z) := set_c ac (add_flag (ac_c ac) f).
Definition ac_clear ac (f : Z) := set_c ac (clear_flag (ac_c ac) f).
End setters.

(** Sets a pointer to the argument that starts at [start], and its length:
    what follows, the argument and its length; [None] at the end. *)
Definition nextArgument (start : bytes) : res (option (bytes * bytes * Z)) :=
  c ← load start 0;
  p ← (if decide (c = "$"%char) then Ok (Some start) else strchr_at start "$");
  match p with
  | None => Ok None
  | Some p =>
      q ← ptr_add p 1;
      n ← strtol q;
      let len := u64 (i32 n) in
      p ← strchr_at p CR;
      p ← deref p;
      str ← ptr_add p 2;
      next ← ptr_add p (u64 (2 + len + 2));
      Ok (Some (next, str, len))
  end.

Section async.
Context {X : Type} `{!Libc X, !Kernel (world X)}.
Abbreviation W := (world X).
Abbreviation fns := (Some (defaultFunctions (X := X))).
Abbreviation AC := (redisAsyncContext W).

(** The user's callbacks for replies, and those for connecting and
    disconnecting. *)
Context (user : Z -> AC -> vptr nat -> Z -> M W AC).
Context (notify : Z -> Z -> M W unit).

Definition hook (h : option (M W unit)) : M W unit := default (mret tt) h.

Definition redisAsyncInitialize (c : redisContext nat) : M W (option AC) :=
  o ← c_malloc 400;
  match o with
  | None => mret None
  | Some _ =>
      channels ← dictCreate;
      patterns ← dictCreate;
      mret (Some (Async (clear_flag c REDIS_CONNECTED) 0 false (Hooks None None None None None)
                    None None no_callbacks no_callbacks channels patterns))
  end.

Definition __redisAsyncCopyError (ac : AC) : AC :=
  Async (ac_c ac) (c_err (ac_c ac)) true (ac_ev ac) (ac_onDisconnect ac) (ac_onConnect ac)
    (ac_replies ac) (ac_invalid ac) (ac_channels ac) (ac_patterns ac).

(** Connecting: with the test of both results, and without. *)
Definition async_connect (connect : M W (option (redisContext nat))) : M W (option AC) :=
  c ← connect;
  match c with
  | None => mret None
  | Some c =>
      ac ← redisAsyncInitialize c;
      match ac with
      | None => _ ← redisFree fns (Some c); mret None
      | Some ac => mret (Some (__redisAsyncCopyError ac))
      end
  end.
Definition async_connect_unchecked (connect : M W (option (redisContext nat))) : M W (option AC) :=
  c ← connect;
  c ← lift (deref c);
  ac ← redisAsyncInitialize c;
  mret (__redisAsyncCopyError <$> ac).

Definition redisAsyncConnect (ip : bytes) (port : Z) :=
  async_connect (redisConnectNonBlock fns ip port).
Definition redisAsyncConnectBind (ip : bytes) (port : Z) (source_addr : option bytes) :=
  async_connect_unchecked (redisConnectBindNonBlock fns ip port source_addr).
Definition redisAsyncConnectBindWithReuse (ip : bytes) (port : Z) (source_addr : option bytes) :=
  async_connect_unchecked (redisConnectBindNonBlockWithReuse fns ip port source_addr).
Definition redisAsyncConnectUnix (path : bytes) :=
  async_connect (redisConnectUnixNonBlock fns path).

Definition redisAsyncSetConnectCallback (ac : AC) (fn : option Z) : M W (AC * Z) :=
  match ac_onConnect ac with
  | None =>
      _ ← hook (addWrite (ac_ev ac));
      mret (set_callbacks ac (ac_onDisconnect ac) fn, REDIS_OK)
  | Some _ => mret (ac, REDIS_ERR)
  end.

Definition redisAsyncSetDisconnectCallback (ac : AC) (fn : option Z) : AC * Z :=
  match ac_onDisconnect ac with
  | None => (set_callbacks ac fn (ac_onConnect ac), REDIS_OK)
  | Some _ => (ac, REDIS_ERR)
  end.

Definition __redisRunCallback (ac : AC) (cb : redisCallback) (reply : vptr nat) : M W AC :=
  match cb_fn cb with
  | Some fn =>
      ac ← user fn (ac_add ac REDIS_IN_CALLBACK) reply (cb_privdata cb);
      mret (ac_clear ac REDIS_IN_CALLBACK)
  | None => mret ac
  end.

(** ** Freeing *)

(** [while (__redisShiftCallback(&list,&cb) == REDIS_OK) __redisRunCallback(ac,&cb,NULL);]
    for the replies, or for the invalid commands. *)
Fixpoint drain (fuel : nat) (invalid : bool) (ac : AC) : M W AC :=
  match fuel with
  | O => stuck
  | S fuel' =>
      '(l, st, cb) ← lift (__redisShiftCallback (if invalid then ac_invalid ac else ac_replies ac));
      match cb with
      | Some cb =>
          let ac := if invalid then set_lists ac (ac_replies ac) l
                    else set_lists ac l (ac_invalid ac) in
          ac ← __redisRunCallback ac cb Null;
          drain fuel' invalid ac
      | None => mret ac
      end
  end.

(** [while ((de = dictNext(it)) != NULL) __redisRunCallback(ac,dictGetEntryVal(de),NULL);] *)
Fixpoint run_subscriptions (fuel : nat) (ac : AC) (it : dictIterator sdshdr redisCallback) :
    M W AC :=
  match fuel with
  | O => stuck
  | S fuel' =>
      '(it, de) ← lift (dictNext it);
      match de with
      | None => mret ac
      | Some de => ac ← __redisRunCallback ac (e_val de) Null; run_subscriptions fuel' ac it
      end
  end.

Definition __redisAsyncFree (fuel : nat) (ac : AC) : M W unit :=
  ac ← drain fuel false ac;
  ac ← drain fuel true ac;
  it ← dictGetIterator (ac_channels ac);
  ac ← run_subscriptions fuel ac it;
  _ ← dictRelease callbackDict (ac_channels ac);
  it ← dictGetIterator (ac_patterns ac);
  ac ← run_subscriptions fuel ac it;
  _ ← dictRelease callbackDict (ac_patterns ac);
  _ ← hook (cleanup (ac_ev ac));
  _ ← (match ac_onDisconnect ac with
       | Some f =>
           if ac_flag ac REDIS_CONNECTED then
             if ac_flag ac REDIS_FREEING then notify f REDIS_OK
             else notify f (if bool_decide (ac_err ac = 0) then REDIS_OK else REDIS_ERR)
           else mret tt
       | None => mret tt
       end);
  redisFree fns (Some (ac_c ac)).

(** In a callback the context stays, flagged; otherwise it is gone. *)
Definition redisAsyncFree (fuel : nat) (ac : AC) : M W (option AC) :=
  let ac := ac_add ac REDIS_FREEING in
  if ac_flag ac REDIS_IN_CALLBACK then mret (Some ac)
  else _ ← __redisAsyncFree fuel ac; mret None.

Definition __redisAsyncDisconnect (fuel : nat) (ac : AC) : M W unit :=
  let ac := __redisAsyncCopyError ac in
  if bool_decide (ac_err ac = 0) then
    '(l, st, _) ← lift (__redisShiftCallback (ac_replies ac));
    _ ← massert (bool_decide (st = REDIS_ERR));
    __redisAsyncFree fuel (set_lists ac l (ac_invalid ac))
  else __redisAsyncFree fuel (ac_add ac REDIS_DISCONNECTING).

Definition redisAsyncDisconnect (fuel : nat) (ac : AC) : M W (option AC) :=
  let ac := ac_add ac REDIS_DISCONNECTING in
  if negb (ac_flag ac REDIS_IN_CALLBACK) && bool_decide (head (ac_replies ac) = None)
  then _ ← __redisAsyncDisconnect fuel ac; mret None
  else mret (Some ac).

(** ** Replies *)
Definition element_at (nd : redisReply) (i : nat) : M W redisReply :=
  els ← lift (deref (element nd));
  e ← lift (deref (els !! i));
  l ← lift (deref e);
  get_node l.

(** The context, and the callback when it is written. *)
Definition __redisGetSubscribeCallback (ac : AC) (nd : redisReply) (cb : redisCallback) :
    M W (AC * redisCallback) :=
  if bool_decide (type nd = REDIS_REPLY_ARRAY) then
    _ ← massert (bool_decide (2 ≤ elements nd));
    e0 ← element_at nd 0;
    _ ← massert (bool_decide (type e0 = REDIS_REPLY_STRING));
    stype ← lift (deref (str e0));
    c ← lift (load stype 0);
    let pvariant := bool_decide (tolower c = "p"%char) in
    let callbacks := if pvariant then ac_patterns ac else ac_channels ac in
    e1 ← element_at nd 1;
    _ ← massert (bool_decide (type e1 = REDIS_REPLY_STRING));
    s1 ← lift (deref (str e1));
    o ← sdsnewlen (Some s1) (u64 (len e1));
    (* [callbackHash] reads the name *)
    sname ← lift (if bool_decide (size callbacks = 0) then Ok (default (Sdshdr 0 0 []) o) else deref o);
    de ← lift (dictFind (callbackDict (W := W)) callbacks sname);
    match de with
    | None => mret (ac, cb)
    | Some (_, _, e) =>
        q ← lift (ptr_add stype (if pvariant then 1 else 0));
        unsub ← lift (strcaseeq q (cstr "unsubscribe"));
        if (unsub : bool) then
          '(callbacks, _) ← dictDelete callbackDict callbacks sname;
          let ac := if pvariant then set_subs ac (ac_channels ac) callbacks
                    else set_subs ac callbacks (ac_patterns ac) in
          e2 ← element_at nd 2;
          _ ← massert (bool_decide (type e2 = REDIS_REPLY_INTEGER));
          mret (if bool_decide (integer e2 = 0) then ac_clear ac REDIS_SUBSCRIBED else ac, e_val e)
        else mret (ac, e_val e)
    end
  else
    '(l, _, o) ← lift (__redisShiftCallback (ac_invalid ac));
    mret (set_lists ac (ac_replies ac) l, default cb o).

(** The loop's body on a reply: [inl] goes on with the callback kept in
    [cb], [inr] leaves the function with the context freed. *)
Definition process_reply (fuel : nat) (ac : AC) (cb : redisCallback) (reply : vptr nat) :
    M W ((AC * redisCallback) + unit) :=
  let run ac cb :=
    match cb_fn cb with
    | Some _ =>
        ac ← __redisRunCallback ac cb reply;
        _ ← freeReplyObject reply;
        if ac_flag ac REDIS_FREEING then _ ← __redisAsyncFree fuel ac; mret (inr tt)
        else mret (inl (ac, cb))
    | None => _ ← freeReplyObject reply; mret (inl (ac, cb))
    end in
  '(l, st, o) ← lift (__redisShiftCallback (ac_replies ac));
  match o with
  | Some cb => run (set_lists ac l (ac_invalid ac)) cb
  | None =>
      p ← (match reply with Obj p => mret p | _ => stuck end);
      nd ← get_node p;
      if bool_decide (type nd = REDIS_REPLY_ERROR) then
        s ← lift (deref (str nd));
        '(e, _) ← lift (vsnprintf (c_errstr (ac_c ac)) 128 (cstr "%s") [VPtr s]);
        _ ← freeReplyObject reply;
        _ ← __redisAsyncDisconnect fuel (set_c ac (set_error (ac_c ac) REDIS_ERR_OTHER e));
        mret (inr tt)
      else
        _ ← massert (ac_flag ac REDIS_SUBSCRIBED || ac_flag ac REDIS_MONITORING);
        '(ac, cb) ← (if ac_flag ac REDIS_SUBSCRIBED then __redisGetSubscribeCallback ac nd cb
                     else mret (ac, cb));
        run ac cb
  end.

(** [None]: the context was freed on the way. *)
Fixpoint process_callbacks (fuel : nat) (ac : AC) (cb : redisCallback) : M W (option AC) :=
  match fuel with
  | O => stuck
  | S fuel' =>
      '(c, status, reply) ← redisGetReply fns fuel' (ac_c ac);
      let ac := set_c ac c in
      if bool_decide (status = REDIS_OK) then
        if is_null reply then
          obuf ← lift (if ac_flag ac REDIS_DISCONNECTING then deref (c_obuf c)
                       else Ok (Sdshdr 0 0 []));
          if ac_flag ac REDIS_DISCONNECTING && bool_decide (sdslen obuf = 0)
             && bool_decide (head (ac_replies ac) = None)
          then _ ← __redisAsyncDisconnect fuel' ac; mret None
          else if ac_flag ac REDIS_MONITORING then
            '(l, _) ← __redisPushCallback (ac_replies ac) cb;
            mret (Some (set_lists ac l (ac_invalid ac)))
          else mret (Some ac)
        else
          r ← process_reply fuel' ac cb reply;
          match r with
          | inl (ac, cb) => process_callbacks fuel' ac cb
          | inr _ => mret None
          end
      else _ ← __redisAsyncDisconnect fuel' ac; mret None
  end.

Definition redisProcessCallbacks (fuel : nat) (ac : AC) : M W (option AC) :=
  process_callbacks fuel ac (Callback None 0).

(** ** Events *)
Definition notify_connect (ac : AC) (status : Z) : M W unit :=
  match ac_onConnect ac with Some f => notify f status | None => mret tt end.

(** The context unless it was freed, and the status. *)
Definition __redisAsyncHandleConnect (fuel : nat) (ac : AC) : M W (option AC * Z) :=
  '(c, st) ← redisCheckSocketError (ac_c ac);
  let ac := set_c ac c in
  if bool_decide (st = REDIS_ERR) then
    no ← get_errno;
    if bool_decide (no = EINPROGRESS) then mret (Some ac, REDIS_OK) else
    _ ← notify_connect ac REDIS_ERR;
    _ ← __redisAsyncDisconnect fuel ac;
    mret (None, REDIS_ERR)
  else
    let ac := ac_add ac REDIS_CONNECTED in
    _ ← notify_connect ac REDIS_OK;
    mret (Some ac, REDIS_OK).

(** The part the two handlers share: [k] runs on a connected context. *)
Definition when_connected (fuel : nat) (ac : AC) (k : AC -> M W (option AC)) : M W (option AC) :=
  if ac_flag ac REDIS_CONNECTED then k ac else
  '(o, st) ← __redisAsyncHandleConnect fuel ac;
  if bool_decide (st ≠ REDIS_OK) then mret None else
  ac ← lift (deref o);
  if ac_flag ac REDIS_CONNECTED then k ac else mret (Some ac).

Definition redisAsyncHandleRead (fuel : nat) (ac : AC) : M W (option AC) :=
  when_connected fuel ac (λ ac,
    '(c, st) ← redisBufferRead fns (ac_c ac);
    let ac := set_c ac c in
    if bool_decide (st = REDIS_ERR) then _ ← __redisAsyncDisconnect fuel ac; mret None
    else
      _ ← hook (addRead (ac_ev ac));
      redisProcessCallbacks fuel ac).

Definition redisAsyncHandleWrite (fuel : nat) (ac : AC) : M W (option AC) :=
  when_connected fuel ac (λ ac,
    '(c, st, done) ← redisBufferWrite (ac_c ac);
    let ac := set_c ac c in
    if bool_decide (st = REDIS_ERR) then _ ← __redisAsyncDisconnect fuel ac; mret None
    else
      _ ← (if default false done then hook (delWrite (ac_ev ac)) else hook (addWrite (ac_ev ac)));
      _ ← hook (addRead (ac_ev ac));
      mret (Some ac)).

(** ** Commands *)

(** One table entry per channel of a SUBSCRIBE command. *)
Fixpoint subscribe_loop (fuel : nat) (ht : dict sdshdr redisCallback) (p : bytes)
    (cb : redisCallback) : M W (dict sdshdr redisCallback) :=
  match fuel with
  | O => stuck
  | S fuel' =>
      o ← lift (nextArgument p);
      match o with
      | None => mret ht
      | Some (p, astr, alen) =>
          sname ← sdsnewlen (Some astr) alen;
          sname ← lift (deref sname);
          '(ht, _) ← dictReplace callbackDict ht sname cb;
          subscribe_loop fuel' ht p cb
      end
  end.

Definition __redisAsyncCommand (ac : AC) (fn : option Z) (privdata : Z) (cmd : bytes) (len : Z) :
    M W (AC * Z) :=
  if ac_flag ac (Z.lor REDIS_DISCONNECTING REDIS_FREEING) then mret (ac, REDIS_ERR) else
  let cb := Callback fn privdata in
  let append ac :=
    '(c, _) ← __redisAppendCommand (ac_c ac) cmd len;
    _ ← hook (addWrite (ac_ev ac));
    mret (set_c ac c, REDIS_OK) in
  o ← lift (nextArgument cmd);
  '(p, cstr, _) ← lift (deref o);
  c ← lift (load p 0);
  let hasnext := bool_decide (c = "$"%char) in
  c ← lift (load cstr 0);
  let pvariant := bool_decide (tolower c = "p"%char) in
  cstr ← lift (ptr_add cstr (if pvariant then 1 else 0));
  sub ← lift (if hasnext then strncaseeq cstr (bs "subscribe" ++ [CR; LF; NUL]) 11 else Ok false);
  if (sub : bool) then
    let ac := ac_add ac REDIS_SUBSCRIBED in
    ht ← subscribe_loop (S (length p)) (if pvariant then ac_patterns ac else ac_channels ac) p cb;
    append (if pvariant then set_subs ac (ac_channels ac) ht else set_subs ac ht (ac_patterns ac))
  else
  unsub ← lift (strncaseeq cstr (bs "unsubscribe" ++ [CR; LF; NUL]) 13);
  if (unsub : bool) then
    if negb (ac_flag ac REDIS_SUBSCRIBED) then mret (ac, REDIS_ERR) else append ac
  else
  mon ← lift (strncaseeq cstr (bs "monitor" ++ [CR; LF; NUL]) 9);
  if (mon : bool) then
    let ac := ac_add ac REDIS_MONITORING in
    '(l, _) ← __redisPushCallback (ac_replies ac) cb;
    append (set_lists ac l (ac_invalid ac))
  else if ac_flag ac REDIS_SUBSCRIBED then
    '(l, _) ← __redisPushCallback (ac_invalid ac) cb;
    append (set_lists ac (ac_replies ac) l)
  else
    '(l, _) ← __redisPushCallback (ac_replies ac) cb;
    append (set_lists ac l (ac_invalid ac)).

Definition redisvAsyncCommand (ac : AC) (fn : option Z) (privdata : Z) (format : bytes)
    (ap : list varg) : M W (AC * Z) :=
  '(cmd, len) ← redisvFormatCommand true format ap;
  if bool_decide (len < 0) then mret (ac, REDIS_ERR) else
  cmd ← lift (deref cmd);
  __redisAsyncCommand ac fn privdata cmd (u64 len).

Definition redisAsyncCommand := redisvAsyncCommand.

(** A failed formatting is not noticed: [cmd] is then uninitialised. *)
Definition redisAsyncCommandArgv (ac : AC) (fn : option Z) (privdata : Z) (argv : list bytes)
    (argvlen : option (list Z)) : M W (AC * Z) :=
  '(cmd, len) ← redisFormatSdsCommandArgv true argv argvlen;
  cmd ← lift (deref cmd);
  __redisAsyncCommand ac fn privdata (sh_buf cmd) (u64 len).

Definition redisAsyncFormattedCommand := __redisAsyncCommand.
End async.
