(* ===== verification/AsyncSpec.v ===== *)
(** * AsyncSpec: callback queues and subscriptions (async.c)

    The pointer lists of callbacks are queues, and the tables of subscriptions
    are finite maps from channel names to callbacks; a SUBSCRIBE command
    registers exactly its channels. *)

From Stdlib Require Import ZArith Lia Ascii.
From stdpp Require Import base list strings gmap numbers.
From S2P Require Import Prelude Libc Printf Sds Dict Reader Resp Replies Command CommandSpec.
From S2P Require Import CommandFormat Kernel Context Net Async.

(** ** Queues *)

(** The cells from [h] on, at the places [ls], hold the callbacks [cbs]. *)
Fixpoint chain (cs : gmap nat (redisCallback * option nat)) (h : option nat)
    (ls : list nat) (cbs : list redisCallback) : Prop :=
  match ls, cbs with
  | [], [] => h = None
  | x :: ls', cb :: cbs' => h = Some x ∧ ∃ next, cs !! x = Some (cb, next) ∧ chain cs next ls' cbs'
  | _, _ => False
  end.

(** The list [l] is the queue [cbs], first out first. *)
Definition queue (l : redisCallbackList) (cbs : list redisCallback) : Prop :=
  ∃ ls, chain (cells l) (head l) ls cbs ∧ tail l = list.last ls ∧ NoDup ls.

Lemma queue_empty : queue no_callbacks [].
Proof. exists []. split_and!; [done | done | constructor]. Qed.

Lemma chain_insert_other cs h ls cbs x v :
  x ∉ ls -> chain cs h ls cbs -> chain (<[x := v]> cs) h ls cbs.
Proof.
  revert h cbs. induction ls as [|y ls IH]; intros h [|cb cbs] Hx; cbn [chain]; try done.
  intros (-> & next & Hy & Hc). apply not_elem_of_cons in Hx as [Hxy Hx].
  split; [done|]. exists next. rewrite lookup_insert_ne by done. split; [done | by apply IH].
Qed.

Lemma chain_delete_other cs h ls cbs x :
  x ∉ ls -> chain cs h ls cbs -> chain (delete x cs) h ls cbs.
Proof.
  revert h cbs. induction ls as [|y ls IH]; intros h [|cb cbs] Hx; cbn [chain]; try done.
  intros (-> & next & Hy & Hc). apply not_elem_of_cons in Hx as [Hxy Hx].
  split; [done|]. exists next. rewrite lookup_delete_ne by done. split; [done | by apply IH].
Qed.

Lemma chain_cells cs h ls cbs x : chain cs h ls cbs -> x ∈ ls -> x ∈ dom cs.
Proof.
  revert h cbs. induction ls as [|y ls IH]; intros h [|cb cbs]; cbn [chain]; try done.
  - intros _ H. by apply not_elem_of_nil in H.
  - intros (-> & next & Hy & Hc) [->|Hx]%elem_of_cons; [by apply elem_of_dom_2 in Hy | by eapply IH].
Qed.

(** Linking a new cell behind the last one. *)
Lemma chain_snoc cs h ls cbs x cb t c n :
  chain cs h ls cbs -> NoDup ls -> x ∉ ls -> cs !! x = Some (cb, None) ->
  list.last ls = Some t -> cs !! t = Some (c, n) ->
  chain (<[t := (c, Some x)]> cs) h (ls ++ [x]) (cbs ++ [cb]).
Proof.
  revert h cbs. induction ls as [|y ls IH]; intros h [|cb0 cbs] Hc Hnd Hx Hcx Ht Hct;
    cbn [chain] in Hc; try done.
  destruct Hc as (-> & next & Hy & Hc).
  apply list.NoDup_cons in Hnd as [Hyl Hnd]. apply not_elem_of_cons in Hx as [Hxy Hx].
  destruct ls as [|z ls].
  - injection Ht as <-. rewrite Hct in Hy. injection Hy as -> ->.
    destruct cbs as [|? ?]; [|done]. cbn [app chain]. split; [done|].
    exists (Some x). rewrite lookup_insert_eq. split_and!; [done | done|].
    exists None. rewrite lookup_insert_ne by done. done.
  - assert (y ≠ t) as Hyt.
    { intros ->. apply Hyl. change (list.last (z :: ls) = Some t) in Ht. by apply list.last_Some_elem_of in Ht. }
    cbn [app chain]. split; [done|]. exists next. rewrite lookup_insert_ne by done.
    split; [done|]. apply IH; try done.
Qed.

Section queues.
Context {W : Type} `{!Libc W}.

(** Pushing appends, unless there is no memory for the new cell. *)
Lemma push_wp l cbs cb w :
  queue l cbs ->
  wp (__redisPushCallback l cb) (λ '(l', st) _,
    (st = REDIS_OK ∧ queue l' (cbs ++ [cb])) ∨ (st = REDIS_ERR_OOM ∧ l' = l ∧ oom W)) w.
Proof.
  intros (ls & Hc & Ht & Hnd). unfold __redisPushCallback. wp_step.
  apply wp_malloc; [lia | intros; wp_steps; by right |]. intros b w' Hb.
  set (x := fresh (dom (cells l))).
  assert (x ∉ dom (cells l)) as Hfresh by apply is_fresh.
  assert (x ∉ ls) as Hx by (intros H; by apply Hfresh; eapply chain_cells).
  assert (∀ cs, chain cs (match head l with None => Some x | h => h end) (ls ++ [x]) (cbs ++ [cb]) ->
    queue (CallbackList cs (match head l with None => Some x | h => h end) (Some x)) (cbs ++ [cb])) as Hq.
  { intros cs Hcs. exists (ls ++ [x]). split_and!; [done | by rewrite list.last_snoc |].
    apply list.NoDup_app. split_and!; [done | set_solver | by apply list.NoDup_singleton]. }
  pose proof (chain_insert_other _ _ _ _ x (cb, None) Hx Hc) as Hc'.
  wp_step. rewrite Ht. destruct (list.last ls) as [t|] eqn:Hlast.
  - assert (t ∈ ls) as Htl by (by apply list.last_Some_elem_of).
    assert (t ∈ dom (cells l)) as Htd by (by eapply chain_cells).
    apply elem_of_dom in Htd as [[c n] Hct].
    assert (t ≠ x) as Htx by (intros ->; done).
    rewrite lookup_insert_ne by done. rewrite Hct. wp_steps. left. split; [done|]. apply Hq.
    destruct ls as [|y ls]; [done|]. destruct cbs as [|c0 cbs]; [done|].
    assert (head l = Some y) as Hh by apply Hc. rewrite Hh in *.
    eapply chain_snoc; try done; [by rewrite lookup_insert_eq | by rewrite lookup_insert_ne].
  - apply list.last_None in Hlast as ->. destruct cbs as [|? ?]; [|done]. cbn [chain] in Hc.
    wp_steps. left. split; [done|]. apply Hq. rewrite Hc. cbn [app chain].
    split; [done|]. exists None. by rewrite lookup_insert_eq.
Qed.

Lemma shift_empty l : queue l [] -> __redisShiftCallback l = Ok (l, REDIS_ERR, None).
Proof.
  intros ([|] & Hc & _); [|done]. cbn [chain] in Hc. unfold __redisShiftCallback. by rewrite Hc.
Qed.

Lemma shift_cons l cb cbs :
  queue l (cb :: cbs) ->
  ∃ l', __redisShiftCallback l = Ok (l', REDIS_OK, Some cb) ∧ queue l' cbs.
Proof.
  intros ([|x ls] & Hc & Ht & Hnd); [done|]. destruct Hc as (Hh & next & Hx & Hc).
  apply list.NoDup_cons in Hnd as [Hxl Hnd].
  unfold __redisShiftCallback. rewrite Hh, Hx. cbn. eexists. split; [done|].
  exists ls. cbn [cells head tail]. split_and!; [by apply chain_delete_other | | done].
  rewrite Ht. destruct ls as [|y ls].
  - by rewrite decide_True by done.
  - rewrite decide_False; [done|]. intros E. apply Hxl.
    change (list.last (y :: ls) = Some x) in E. by apply list.last_Some_elem_of in E.
Qed.
End queues.

(** ** The tables of subscriptions *)
Section callback_table.
Context {W : Type} `{!Libc W} (no_oom : ¬ oom W).

(** The table's keys are strings, compared and hashed by their bytes. *)
#[export] Program Instance callback_laws : DictLaws (callbackDict (W := W)) bytes redisCallback := {|
  krep := sds_rep;
  vrep := eq;
  key_hash := bernstein;
|}.
Next Obligation.
  intros k a (tl & -> & Hfit). unfold dictHashKey. cbn. unfold callbackHash.
  rewrite (sds_rep_len (mk a tl) a) by (by exists tl). cbn [mk sh_buf].
  rewrite i32_small by zl. apply dictGenHashFunction_ok.
Qed.
Next Obligation. intros a. apply bernstein_range. Qed.
Next Obligation.
  intros k1 k2 a1 a2 (t1 & -> & H1) (t2 & -> & H2). unfold dictCompareHashKeys. cbn.
  unfold callbackKeyCompare.
  rewrite (sds_rep_len (mk a1 t1) a1), (sds_rep_len (mk a2 t2) a2) by (by eexists).
  cbn [mk sh_buf]. rewrite !i32_small by zl.
  case_bool_decide as Hlen.
  { rsimpl. rewrite !bool_decide_false; [done | by intros -> | auto]. }
  destruct (memcmp_eq (a1 ++ NUL :: t1) (a2 ++ NUL :: t2) (zlen a1)) as (z & -> & Hz); [zl | zl |].
  rsimpl. rewrite take_zlen in Hz. rewrite Hlen, take_zlen in Hz.
  f_equal. destruct (decide (z = 0)) as [Hz0|Hz0].
  - rewrite (bool_decide_true (z = 0)) by done. rewrite !bool_decide_true; [done | by apply Hz | done].
  - rewrite (bool_decide_false (z = 0)) by done. rewrite !bool_decide_false; [done | |auto].
    intros E. apply Hz0. by apply Hz.
Qed.
Next Obligation. intros k a w Hk. by wp_steps. Qed.
Next Obligation.
  intros v b w ->. unfold dictSetHashVal. cbn. unfold callbackValDup. wp_step.
  apply wp_malloc; [lia | done |]. intros blk w' Hb. by wp_steps.
Qed.
Next Obligation. intros e a w Hk. unfold dictFreeEntryKey. cbn. by wp_steps. Qed.
Next Obligation. intros e b w Hv. unfold dictFreeEntryVal. cbn. by wp_steps. Qed.
End callback_table.

(** ** Reading the arguments back from a formatted command *)
Lemma isdigit_false c : c = CR ∨ c = LF -> isdigit c = false.
Proof. by intros [-> | ->]. Qed.

Lemma strtol_digits_ok ds c rest v :
  Forall is_digit ds -> isdigit c = false ->
  strtol_digits (ds ++ c :: rest) v = Ok (foldl (λ acc c, acc * 10 + (uchar c - 48)) v ds).
Proof.
  intros Hds Hc. revert v. induction Hds as [|d ds Hd Hds IH]; intros v; cbn [app strtol_digits foldl].
  - by rewrite Hc.
  - assert (isdigit d = true) as -> by (apply bool_decide_true; unfold is_digit in Hd; lia).
    apply IH.
Qed.

Lemma digit_not_space c : is_digit c -> isspace c = false.
Proof.
  unfold is_digit, isspace. intros Hc. rewrite !bool_decide_false; [done| |lia].
  intros ->. by destruct Hc as [? ?].
Qed.

Lemma strtol_ok n rest : 0 ≤ n < 2 ^ 63 -> strtol (itoa n ++ CR :: rest) = Ok n.
Proof.
  intros Hn. rewrite itoa_utoa by lia. unfold strtol.
  pose proof (utoa_digits n ltac:(lia)) as Hd.
  pose proof (utoa_value n ltac:(lia)) as Hv. unfold dval in Hv.
  destruct (utoa n) as [|c ds] eqn:E.
  { pose proof (utoa_zlen n ltac:(lia)) as [Hl _]. rewrite E, zlen_nil in Hl. lia. }
  cbn [app strtol_blank]. assert (is_digit c) as Hc by (by inversion Hd).
  rewrite digit_not_space by done. rsimpl. rewrite load_0. rsimpl.
  apply digit_not_special in Hc as (_ & _ & _ & Hm & Hp).
  rewrite !bool_decide_false by done. cbn [orb].
  change (c :: ds ++ CR :: rest) with ((c :: ds) ++ CR :: rest).
  rewrite strtol_digits_ok by (try done; by apply isdigit_false; left).
  rsimpl. rewrite Hv. unfold LONG_MAX. f_equal. lia.
Qed.

Lemma strchr_at_skip pre c rest :
  c ∉ pre -> NUL ∉ pre -> strchr_at (pre ++ c :: rest) c = Ok (Some (c :: rest)).
Proof.
  intros Hc Hn. induction pre as [|d pre IH]; cbn [app strchr_at]; [by rewrite decide_True|].
  apply not_elem_of_cons in Hc as [Hcd Hc], Hn as [Hnd Hn].
  rewrite !decide_False by congruence. by apply IH.
Qed.

(** The digits of a length hold no other character. *)
Lemma itoa_free n c : 0 ≤ n < 2 ^ 64 -> ¬ is_digit c -> c ∉ itoa n.
Proof.
  intros Hn Hc Hin. rewrite itoa_utoa in Hin by lia.
  pose proof (utoa_digits n ltac:(lia)) as Hd. rewrite list.Forall_forall in Hd. by apply Hc, Hd.
Qed.

Lemma nextArgument_bulk pre s rest :
  "$"%char ∉ pre -> NUL ∉ pre -> zlen s < 2 ^ 31 ->
  nextArgument (pre ++ bulk s ++ rest) = Ok (Some (rest, s ++ [CR; LF] ++ rest, zlen s)).
Proof.
  intros Hd Hn Hs. unfold nextArgument. pose proof (zlen_nonneg s).
  assert (∃ c tl, pre ++ bulk s ++ rest = c :: tl) as (c & tl & E).
  { destruct pre; rewrite ?bulk_eq; eauto. }
  rewrite E, load_0. rsimpl. rewrite <- E.
  set (t := itoa (zlen s) ++ CR :: LF :: s ++ CR :: LF :: rest).
  assert (bulk s ++ rest = "$"%char :: t) as Eb.
  { rewrite bulk_eq. unfold t. cbn. rewrite <- app_assoc. cbn. by rewrite <- app_assoc. }
  assert ((if decide (c = "$"%char) then Ok (Some (pre ++ bulk s ++ rest))
           else strchr_at (pre ++ bulk s ++ rest) "$") = Ok (Some ("$"%char :: t))) as ->.
  { rewrite Eb in *. destruct pre as [|d pre]; cbn [app] in *.
    - injection E as -> ->. by rewrite decide_True.
    - injection E as -> _. rewrite decide_False by (intros ->; apply Hd; by left).
      by apply (strchr_at_skip (c :: pre)). }
  rsimpl. rewrite ptr_add_1. rsimpl. unfold t. rewrite strtol_ok by lia. rsimpl.
  rewrite i32_small, u64_small by lia.
  pose proof (strchr_at_skip ("$"%char :: itoa (zlen s)) CR (LF :: s ++ CR :: LF :: rest)) as Hcr.
  cbn [app] in Hcr. rewrite Hcr; clear Hcr.
  2,3: apply not_elem_of_cons; split; [done | apply itoa_free; [lia | intros [Hx _]; by apply Hx]].
  rsimpl. cbn [deref]. rsimpl. rewrite ptr_add_2. rsimpl. rewrite u64_small by lia.
  unfold ptr_add. rewrite bool_decide_true by zl. rsimpl.
  do 4 f_equal. replace (2 + zlen s + 2) with (zlen (CR :: LF :: s ++ [CR; LF])) by zl.
  change (CR :: LF :: s ++ CR :: LF :: rest) with ((CR :: LF :: s) ++ [CR; LF] ++ rest).
  rewrite app_assoc. apply drop_zlen.
Qed.

Lemma nextArgument_end tl : nextArgument (NUL :: tl) = Ok None.
Proof. done. Qed.

(** ** Subscribing *)
Section subscribe.
Context {X : Type} `{!Libc X} (no_oom : ¬ oom X).
Abbreviation W := (world X).
#[local] Instance table_laws : DictLaws (callbackDict (W := W)) bytes redisCallback :=
  callback_laws (world_no_oom no_oom).

(** The table represents a map from channel names to callbacks. *)
Definition table (ht : dict sdshdr redisCallback) (m : gmap bytes redisCallback) : Prop :=
  dict_rep (callbackDict (W := W)) ht m.

(** The callback registered for all the names. *)
Definition register (cb : redisCallback) (names : list bytes) (m : gmap bytes redisCallback) :
    gmap bytes redisCallback := foldl (λ m s, <[s := cb]> m) m names.

Lemma subscribe_loop_wp fuel : ∀ ss ht m cb tl w,
  table ht m -> Forall (λ s, zlen s < 2 ^ 31 - 1) ss ->
  Z.of_nat (base.size m) + zlen ss ≤ 2 ^ 31 -> (length ss < fuel)%nat ->
  wp (subscribe_loop fuel ht (bulks ss ++ NUL :: tl) cb)
     (λ ht' _, table ht' (register cb ss m)) w.
Proof.
  induction fuel as [|fuel IH]; intros ss ht m cb tl w Hm Hss Hsize Hf; [lia|].
  cbn [subscribe_loop]. destruct ss as [|s ss].
  { cbn [bulks map concat app]. rewrite nextArgument_end. by wp_steps. }
  apply list.Forall_cons in Hss as [Hs Hss].
  assert (bulks (s :: ss) ++ NUL :: tl = bulk s ++ bulks ss ++ NUL :: tl) as ->
    by (unfold bulks; cbn; by rewrite <- app_assoc).
  wp_step. eapply wp_lift_ok; [by apply (nextArgument_bulk []); try apply not_elem_of_nil; lia|].
  cbv beta iota. wp_step. pose proof (zlen_nonneg s).
  eapply wp_mono; [apply (sdsnewlen_wp _ (zlen s)); [lia | intros ? [= <-]; zl]|].
  intros o w1 Hk. cbn beta iota in Hk. rewrite take_zlen in Hk. destruct o as [k|]; [|by destruct (world_no_oom no_oom)].
  wp_step. eapply wp_lift_ok; [done|]. wp_step.
  pose proof (dict_rep_used _ _ _ Hm) as Hu.
  eapply wp_mono.
  { apply (dictReplace_wp _ (world_no_oom no_oom) ht m k cb s cb); [done | | exact Hk | done].
    rewrite Hu. rewrite zlen_cons in Hsize. zl. }
  intros [ht' r] w2 [Hm' _]. apply (IH ss ht' (<[s := cb]> m)); [done | done | | cbn in Hf; lia].
  rewrite zlen_cons in Hsize. pose proof (map_size_insert s cb m) as Hi.
  assert (base.size (<[s := cb]> m) ≤ S (base.size m))%nat by (rewrite Hi; destruct (m !! s); cbn; lia).
  lia.
Qed.
End subscribe.
