(* ===== verification/AsyncCommand.v ===== *)
(** * AsyncCommand: issuing a command refines an abstract client (async.c)

    An abstract client keeps queues of callbacks, maps of subscriptions and
    the bytes to send.  [__redisAsyncCommand] on a formatted command does to
    the context what [submit] does to the abstract client. *)

From Stdlib Require Import ZArith Lia Ascii.
From stdpp Require Import base list strings gmap numbers.
From S2P Require Import Prelude Libc Printf Sds SdsFormat Dict Reader Resp Replies Command CommandSpec.
From S2P Require Import CommandFormat Kernel Context Net NetSpec ContextSpec ClientSpec Async AsyncSpec.

(** ** Comparing names without case *)
Definition lower (s : bytes) : bytes := map tolower s.

Lemma tolower_fix a c : c = CR ∨ c = LF ∨ c = NUL -> tolower a = tolower c -> a = c.
Proof.
  destruct a as [[] [] [] [] [] [] [] []];
    intros [-> | [-> | ->]] E; vm_compute in E; (done || discriminate E).
Qed.

(** The name [x] of a command, compared with the letters of [name] and the
    line's end. *)
Lemma strncaseeq_name x name rest :
  CR ∉ x -> CR ∉ name -> NUL ∉ name ->
  strncaseeq (x ++ CR :: LF :: rest) (name ++ [CR; LF; NUL]) (length name + 2)
  = Ok (bool_decide (lower x = lower name)).
Proof.
  unfold lower. revert name. induction x as [|c x IH]; intros [|d name] Hx Hn Hz.
  - cbn [app length Nat.add strncaseeq].
    do 2 (rewrite decide_True, decide_False by done). by destruct rest.
  - apply not_elem_of_cons in Hn as [Hn _]. cbn. rewrite decide_False; [done|].
    intros E. apply Hn. symmetry. apply tolower_fix; [by left | done].
  - apply not_elem_of_cons in Hx as [Hx _]. cbn. rewrite decide_False; [done|].
    intros E. apply Hx. symmetry. apply tolower_fix; [by left | done].
  - apply not_elem_of_cons in Hx as [Hcx Hx], Hn as [Hcn Hn], Hz as [Hcz Hz].
    cbn [app length Nat.add strncaseeq map]. case_decide as E.
    + rewrite decide_False.
      * rewrite IH by done. f_equal. apply bool_decide_ext. rewrite E. split; [by intros -> | by intros [= ?]].
      * intros ->. apply Hcz. symmetry. apply tolower_fix; [by right; right | done].
    + f_equal. symmetry. apply bool_decide_false. by intros [= ? ?].
Qed.

(** A letter that is not in a word. *)
Ltac letters := apply (bool_decide_unpack _); vm_compute; exact I.

(** ** The abstract client *)
Record client := Client {
  a_flags : Z;
  a_out : bytes;                              (** bytes to send *)
  a_replies : list redisCallback;             (** awaiting replies, first to last *)
  a_invalid : list redisCallback;             (** issued while subscribed *)
  a_channels : gmap bytes redisCallback;
  a_patterns : gmap bytes redisCallback;
}.

Definition flagged (fl f : Z) : bool := bool_decide (Z.land fl f ≠ 0).

(** A leading [p] makes the pattern variant of a command. *)
Definition variant (name : bytes) : bool * bytes :=
  match name with
  | c :: t => if decide (tolower c = "p"%char) then (true, t) else (false, name)
  | [] => (false, [])
  end.

Definition submit (cb : redisCallback) (name : bytes) (args : list bytes) (s : client) : client * Z :=
  let '(Client fl out rs inv ch pa) := s in
  if flagged fl (Z.lor REDIS_DISCONNECTING REDIS_FREEING) then (s, REDIS_ERR) else
  let out' := out ++ encode (command (name :: args)) in
  let '(p, base) := variant name in
  if decide (lower base = bs "subscribe" ∧ args ≠ []) then
    (Client (Z.lor fl REDIS_SUBSCRIBED) out' rs inv
       (if p then ch else register cb args ch) (if p then register cb args pa else pa), REDIS_OK)
  else if decide (lower base = bs "unsubscribe") then
    if flagged fl REDIS_SUBSCRIBED then (Client fl out' rs inv ch pa, REDIS_OK) else (s, REDIS_ERR)
  else if decide (lower base = bs "monitor") then
    (Client (Z.lor fl REDIS_MONITORING) out' (rs ++ [cb]) inv ch pa, REDIS_OK)
  else if flagged fl REDIS_SUBSCRIBED then (Client fl out' rs (inv ++ [cb]) ch pa, REDIS_OK)
  else (Client fl out' (rs ++ [cb]) inv ch pa, REDIS_OK).

Section refinement.
Context {X : Type} `{!Libc X, !Kernel (world X)} (no_oom : ¬ oom X).
Abbreviation W := (world X).

(** The context stands for the abstract client. *)
Record models (ac : redisAsyncContext W) (s : client) : Prop := {
  models_flags : c_flags (ac_c ac) = a_flags s;
  models_out : ∃ b, c_obuf (ac_c ac) = Some b ∧ sds_rep b (a_out s);
  models_replies : queue (ac_replies ac) (a_replies s);
  models_invalid : queue (ac_invalid ac) (a_invalid s);
  models_channels : table no_oom (ac_channels ac) (a_channels s);
  models_patterns : table no_oom (ac_patterns ac) (a_patterns s);
}.

(** Only the flags, the output buffer, the queues and the tables change. *)
Definition kept (ac ac' : redisAsyncContext W) : Prop :=
  (∃ fl b, ac_c ac' = set_obuf (set_flags (ac_c ac) fl) b) ∧ ac_ev ac' = ac_ev ac ∧
  ac_err ac' = ac_err ac ∧ ac_onConnect ac' = ac_onConnect ac ∧
  ac_onDisconnect ac' = ac_onDisconnect ac.

Lemma pushed_wp l cbs cb w :
  queue l cbs -> wp (__redisPushCallback l cb) (λ '(l', st) (_ : W), queue l' (cbs ++ [cb])) w.
Proof.
  intros Hq. eapply wp_mono; [by apply push_wp|].
  intros [l' st] w' [[_ ?]|(_ & _ & ?)]; [done | by destruct (world_no_oom no_oom)].
Qed.

Lemma kept_flags ac ac' f :
  ac_c ac' = add_flag (ac_c ac) f -> ac_ev ac' = ac_ev ac -> ac_err ac' = ac_err ac ->
  ac_onConnect ac' = ac_onConnect ac -> ac_onDisconnect ac' = ac_onDisconnect ac -> kept ac ac'.
Proof.
  intros Hc ? ? ? ?. split; [|done]. rewrite Hc.
  exists (Z.lor (c_flags (ac_c ac)) f), (c_obuf (ac_c ac)). by destruct (ac_c ac).
Qed.

(** What every accepted command ends with. *)
Lemma append_wp ac0 ac s out t tl w :
  models ac s -> kept ac0 ac -> a_out s = out -> zlen out + zlen t + SDS_MAX_PREALLOC < 2 ^ 31 ->
  (∀ w, wp (hook (addWrite (ac_ev ac0))) (λ _ _, True) w) ->
  wp ('(c, _) ← __redisAppendCommand (ac_c ac) (t ++ tl) (zlen t);
      _ ← hook (addWrite (ac_ev ac)); mret (set_c ac c, REDIS_OK))
     (λ '(ac', st) _, st = REDIS_OK ∧ kept ac0 ac' ∧
        models ac' (Client (a_flags s) (out ++ t) (a_replies s) (a_invalid s)
                      (a_channels s) (a_patterns s))) w.
Proof.
  intros [Hf (b & Hb & Hsb) Hr Hi Hc Hp] ((fl & o & Hk) & Hev & Hk') <- Hroom Hhook. wp_step.
  eapply wp_mono; [by eapply (appendCommand_wp (world_no_oom no_oom))|].
  intros [c st] w1 (-> & b' & -> & Hb'). wp_step. rewrite Hev.
  eapply wp_mono; [apply Hhook|]. intros _ w2 _. wp_steps. split_and!; try done.
  - split; [|done]. exists fl, (Some b'). cbn. by rewrite Hk.
  - split; try done. by exists b'.
Qed.

Lemma has_flag_abs c fl f : c_flags c = fl -> has_flag (Ob := nat) c f = flagged fl f.
Proof. by intros <-. Qed.

Lemma variant_ok name rest :
  ∃ c t, name ++ CR :: rest = c :: t ∧
    ptr_add (name ++ CR :: rest) (if bool_decide (tolower c = "p"%char) then 1 else 0)
    = Ok (snd (variant name) ++ CR :: rest) ∧ bool_decide (tolower c = "p"%char) = fst (variant name).
Proof.
  destruct name as [|c t]; cbn [app variant].
  - by exists CR, rest.
  - exists c, (t ++ CR :: rest). split; [done|].
    case_decide as Hp; [rewrite bool_decide_true by done | rewrite bool_decide_false by done].
    + by rewrite ptr_add_1.
    + split; [|done]. unfold ptr_add. rewrite bool_decide_true by zl. done.
Qed.

Lemma variant_CR name : CR ∉ name -> CR ∉ snd (variant name).
Proof.
  destruct name as [|c t]; [done|]. intros H. cbn. case_decide; [|done]. cbn.
  by apply not_elem_of_cons in H as [_ H].
Qed.

(** The commands' names are compared in the order of the code. *)
Lemma names_distinct base : 
  lower base = bs "subscribe" -> lower base ≠ bs "unsubscribe" ∧ lower base ≠ bs "monitor".
Proof. by intros ->. Qed.

Lemma command_wp ac s fn privdata name args tl w :
  models ac s -> CR ∉ name ->
  zlen (a_out s) + zlen (encode (command (name :: args))) + SDS_MAX_PREALLOC < 2 ^ 31 ->
  Z.of_nat (base.size (a_channels s)) + zlen args ≤ 2 ^ 31 ->
  Z.of_nat (base.size (a_patterns s)) + zlen args ≤ 2 ^ 31 ->
  (∀ w, wp (hook (addWrite (ac_ev ac))) (λ _ _, True) w) ->
  wp (__redisAsyncCommand ac fn privdata (encode (command (name :: args)) ++ NUL :: tl)
        (zlen (encode (command (name :: args))))) (λ '(ac', st) _,
    st = snd (submit (Callback fn privdata) name args s) ∧ kept ac ac' ∧
    models ac' (fst (submit (Callback fn privdata) name args s))) w.
Proof.
  intros Hm Hname Hroom Hch Hpa Hhook. pose proof Hm as [Hfl (b & Hb & Hsb) Hr Hi Hc Hp].
  unfold __redisAsyncCommand, ac_flag. rewrite !(has_flag_abs _ _ _ Hfl).
  destruct s as [fl out rs inv ch pa]. cbn [a_flags a_out a_replies a_invalid a_channels a_patterns] in *.
  cbn [submit]. set (cb := Callback fn privdata). set (t := encode _) in *.
  assert (kept ac ac) as Hrefl.
  { split_and!; try done. exists (c_flags (ac_c ac)), (c_obuf (ac_c ac)). by destruct (ac_c ac). }
  destruct (flagged fl (Z.lor _ _)); [by wp_steps|].
  (* the arguments *)
  pose proof (zlen_command (name :: args)) as Hlen. fold t in Hlen.
  pose proof (zlen_bulks_count (name :: args)) as Hcnt. pose proof (zlen_nonneg out).
  pose proof (zlen_bulks_in name (name :: args) ltac:(by left)) as Hn.
  pose proof (zlen_nonneg (itoa (zlen (name :: args)))).
  assert (∀ x, x ∈ args -> zlen x < zlen t) as Hx.
  { intros x Hx. pose proof (zlen_bulks_in x (name :: args) ltac:(by right)). lia. }
  assert (0 ≤ zlen (name :: args) < 2 ^ 31 ∧ zlen name < 2 ^ 31) as [Hargc Hnl].
  { unfold SDS_MAX_PREALLOC in Hroom. pose proof (zlen_nonneg (name :: args)). lia. }
  assert (nextArgument (t ++ NUL :: tl) = Ok (Some (bulks args ++ NUL :: tl,
    name ++ CR :: LF :: bulks args ++ NUL :: tl, zlen name))) as Hna.
  { unfold t. rewrite encode_command.
    replace ((("*"%char :: itoa (zlen (name :: args)) ++ [CR; LF]) ++ bulks (name :: args)) ++ NUL :: tl)
      with (("*"%char :: itoa (zlen (name :: args)) ++ [CR; LF]) ++ bulk name ++ bulks args ++ NUL :: tl)
      by (unfold bulks; cbn [map concat]; by rewrite <- !app_assoc).
    apply nextArgument_bulk; [| |lia];
      (apply not_elem_of_cons; split; [done|]; apply not_elem_of_app; split;
       [apply itoa_free; [lia | intros [H1 H2]; by apply H1 || by apply H2]
       | letters]). }
  wp_step. eapply wp_lift_ok; [exact Hna|]. wp_step. eapply wp_lift_ok; [done|]. cbv beta iota. wp_step.
  apply wp_mono with (λ c w', w' = w ∧ bool_decide (c = "$"%char) = bool_decide (args ≠ [])).
  { destruct args as [|x xs]; [by wp_steps|]. unfold bulks. cbn [map concat]. rewrite bulk_eq. by wp_steps. }
  intros c0 w0 [-> ->].
  destruct (variant_ok name (LF :: bulks args ++ NUL :: tl)) as (c & u & Ec & Ep & Ev).
  wp_step. eapply wp_lift_ok; [by rewrite Ec; apply load_0|]. rewrite Ev in Ep |- *.
  wp_step. eapply wp_lift_ok; [exact Ep|].
  assert (∀ nm k, CR ∉ nm -> NUL ∉ nm -> k = (length nm + 2)%nat ->
    strncaseeq (snd (variant name) ++ CR :: LF :: bulks args ++ NUL :: tl) (nm ++ [CR; LF; NUL]) k
    = Ok (bool_decide (lower (snd (variant name)) = lower nm))) as Hcmp.
  { intros nm k H1 H2 ->. apply strncaseeq_name; [by apply variant_CR | done | done]. }
  destruct (variant name) as [p base] eqn:Evar. cbn [fst snd] in *.
  assert (∀ w ac' s', models ac' s' -> kept ac ac' -> a_out s' = out ->
    wp ('(c, _) ← __redisAppendCommand (ac_c ac') (t ++ NUL :: tl) (zlen t);
        _ ← hook (addWrite (ac_ev ac')); mret (set_c ac' c, REDIS_OK))
       (λ '(ac2, st) _, st = REDIS_OK ∧ kept ac ac2 ∧
          models ac2 (Client (a_flags s') (out ++ t) (a_replies s') (a_invalid s')
                        (a_channels s') (a_patterns s'))) w) as Happend.
  { intros w' ac' s' Hm' Hk Ho. by apply append_wp. }
  clear Hm.
  wp_step. eapply wp_lift_ok with (a := bool_decide (lower base = bs "subscribe" ∧ args ≠ [])).
  { destruct (decide (args ≠ [])) as [Ha|Ha].
    - rewrite (bool_decide_true (args ≠ [])) by done.
      rewrite (Hcmp (bs "subscribe") 11%nat) by solve [done | letters].
      f_equal. apply bool_decide_ext. tauto.
    - rewrite (bool_decide_false (args ≠ [])), bool_decide_false by tauto. done. }
  destruct (decide (lower base = bs "subscribe" ∧ args ≠ [])) as [Hsub|Hsub]; [rewrite bool_decide_true by done | rewrite bool_decide_false by done].
  { (* one entry per channel *)
    wp_step. eapply wp_mono.
    { apply (subscribe_loop_wp no_oom _ args _ (if p then pa else ch)).
      - by destruct p.
      - apply list.Forall_forall. intros x Hin. specialize (Hx x Hin). unfold SDS_MAX_PREALLOC in Hroom. lia.
      - by destruct p.
      - rewrite length_app. cbn. pose proof (zlen_bulks_count args). unfold zlen in *. lia. }
    intros ht w1 Ht. destruct p.
    - eapply wp_mono.
      { apply (Happend w1 (set_subs (ac_add ac REDIS_SUBSCRIBED) (ac_channels ac) ht)
                 (Client (Z.lor fl REDIS_SUBSCRIBED) out rs inv ch (register cb args pa)));
          [|by eapply kept_flags|done].
        split; try done; cbn; [by rewrite Hfl | by exists b]. }
      intros [ac2 st] w2 (-> & ? & ?). done.
    - eapply wp_mono.
      { apply (Happend w1 (set_subs (ac_add ac REDIS_SUBSCRIBED) ht (ac_patterns ac))
                 (Client (Z.lor fl REDIS_SUBSCRIBED) out rs inv (register cb args ch) pa));
          [|by eapply kept_flags|done].
        split; try done; cbn; [by rewrite Hfl | by exists b]. }
      intros [ac2 st] w2 (-> & ? & ?). done. }
  wp_step. eapply wp_lift_ok; [by apply (Hcmp (bs "unsubscribe") 13%nat); solve [done | letters]|].
  change (lower (bs "unsubscribe")) with (bs "unsubscribe").
  destruct (decide (lower base = bs "unsubscribe")) as [Huns|Huns];
    [rewrite bool_decide_true by done | rewrite bool_decide_false by done].
  { destruct (flagged fl REDIS_SUBSCRIBED); cbn [negb].
    - eapply wp_mono; [by apply (Happend w ac (Client fl out rs inv ch pa)); [split; try done; by exists b|..]|].
      intros [ac2 st] w2 (-> & ? & ?). done.
    - wp_steps. split_and!; try done. split; try done. by exists b. }
  wp_step. eapply wp_lift_ok; [by apply (Hcmp (bs "monitor") 9%nat); solve [done | letters]|].
  change (lower (bs "monitor")) with (bs "monitor").
  destruct (decide (lower base = bs "monitor")) as [Hmon|Hmon];
    [rewrite bool_decide_true by done | rewrite bool_decide_false by done].
  { wp_step. eapply wp_mono; [by apply (pushed_wp (ac_replies ac) rs cb)|]. intros [l st] w1 Hl.
    eapply wp_mono.
    { apply (Happend w1 (set_lists (ac_add ac REDIS_MONITORING) l (ac_invalid ac))
               (Client (Z.lor fl REDIS_MONITORING) out (rs ++ [cb]) inv ch pa));
        [|by eapply kept_flags|done].
      split; try done; cbn; [by rewrite Hfl | by exists b]. }
    intros [ac2 st2] w2 (-> & ? & ?). done. }
  destruct (flagged fl REDIS_SUBSCRIBED).
  - wp_step. eapply wp_mono; [by apply (pushed_wp (ac_invalid ac) inv cb)|]. intros [l st] w1 Hl.
    eapply wp_mono; [apply (Happend w1 (set_lists ac (ac_replies ac) l)
      (Client fl out rs (inv ++ [cb]) ch pa)); [|done|done]; split; try done; by exists b|].
    intros [ac2 st2] w2 (-> & ? & ?). done.
  - wp_step. eapply wp_mono; [by apply (pushed_wp (ac_replies ac) rs cb)|]. intros [l st] w1 Hl.
    eapply wp_mono; [apply (Happend w1 (set_lists ac l (ac_invalid ac))
      (Client fl out (rs ++ [cb]) inv ch pa)); [|done|done]; split; try done; by exists b|].
    intros [ac2 st2] w2 (-> & ? & ?). done.
Qed.
End refinement.
