(* ===== verification/AsyncLoop.v ===== *)
(** * AsyncLoop: replies reach their callbacks (async.c)

    However the peer's replies are cut into reads, the event loop runs the
    callback of the n-th pending command on the n-th reply, once, in order,
    and frees the reply afterwards.  Callbacks may append further commands. *)

From Stdlib Require Import ZArith Lia Ascii.
From stdpp Require Import base list strings gmap numbers.
From S2P Require Import Prelude Libc Printf Sds Dict Reader Resp ReaderSpec Replies Command CommandSpec.
From S2P Require Import Kernel Context Net NetSpec ContextSpec ClientSpec Async AsyncSpec.

(** A connected context that is not blocking, not being closed and not in
    monitor mode. *)
Definition calm (fl : Z) : Prop :=
  Z.land fl REDIS_BLOCK = 0 ∧ Z.land fl REDIS_DISCONNECTING = 0 ∧
  Z.land fl REDIS_MONITORING = 0 ∧ Z.land fl REDIS_FREEING = 0 ∧
  Z.land fl REDIS_CONNECTED ≠ 0 ∧ Z.land fl REDIS_IN_CALLBACK = 0.

Lemma in_callback_twice fl :
  Z.land fl REDIS_IN_CALLBACK = 0 ->
  Z.ldiff (Z.lor fl REDIS_IN_CALLBACK) REDIS_IN_CALLBACK = fl.
Proof.
  intros H. apply Z.bits_inj. intros i. rewrite Z.ldiff_spec, Z.lor_spec.
  apply (f_equal (λ z, Z.testbit z i)) in H. rewrite Z.land_spec, Z.bits_0 in H.
  by destruct (Z.testbit fl i), (Z.testbit REDIS_IN_CALLBACK i).
Qed.

Section loop.
Context {A : Type} `{!Libc A} (no_oom : ¬ oom A).
Abbreviation X := (scripted_world A).
Abbreviation W := (world X).
Abbreviation fns := (Some (defaultFunctions (X := X))).
Abbreviation AC := (redisAsyncContext W).
Context (user : Z -> AC -> vptr nat -> Z -> M W AC) (notify : Z -> Z -> M W unit).

(** What the callbacks record. *)
Context {E : Type} (log : A -> list E) (event : Z -> Z -> reply -> E).
Hypothesis log_malloc : ∀ n a, log (snd (malloc n a)) = log a.

Definition log_of (w : W) : list E := log (fst (fst w)).
Definition same_log (w w' : W) : Prop := log_of w' = log_of w.
Definition quiet (w w' : W) : Prop := script_of w' = script_of w ∧ same_log w w'.

#[local] Instance same_log_frame : HeapFrame same_log.
Proof.
  split; [|done]. split; [|intros n [[a k] h]; unfold same_log, log_of; cbn; apply log_malloc].
  split; [by intros ?|]. intros w1 w2 w3. unfold same_log. congruence.
Qed.

#[local] Instance quiet_frame : HeapFrame quiet.
Proof.
  split; [|by intros x h h']. split.
  - split; [by intros ?|]. intros w1 w2 w3 [? ?] [? ?]. split; [congruence|]. by etrans.
  - intros n w. split; [by destruct w as [[a k] h] | apply alloc_malloc].
Qed.

(** What a callback may do to its context: append to the output buffer and
    to the queue of callbacks. *)
Record reacts (ac ac' : AC) : Prop := {
  reacts_c : ∃ s, ac_c ac' = set_obuf (ac_c ac) s;
  reacts_ev : ac_ev ac' = ac_ev ac;
  reacts_replies cbs : queue (ac_replies ac) cbs -> ∃ new, queue (ac_replies ac') (cbs ++ new);
}.

Hypothesis user_ok : ∀ fn ac o priv rep h w, reply_in h rep o w ->
  wp (user fn ac o priv) (λ ac' w', reacts ac ac' ∧ script_of w' = script_of w ∧
    snd w' = snd w ∧ log_of w' = log_of w ++ [event fn priv rep]) w.

(** The events of callbacks run on replies. *)
Fixpoint events (cbs : list redisCallback) (reps : list reply) : list E :=
  match cbs, reps with
  | cb :: cbs', rep :: reps' =>
      match cb_fn cb with
      | Some fn => event fn (cb_privdata cb) rep :: events cbs' reps'
      | None => events cbs' reps'
      end
  | _, _ => []
  end.

Lemma events_take n cbs reps :
  events (take n cbs) (take n reps) ++ events (drop n cbs) (drop n reps) = events cbs reps.
Proof.
  revert cbs reps. induction n as [|n IH]; intros [|cb cbs] [|rep reps]; try done.
  - cbn. by destruct (drop n cbs).
  - cbn. destruct (cb_fn cb); cbn; by rewrite IH.
Qed.

(** The reader expects the replies [reps], whose bytes are [un], here, and
    [more], to come.  The first one may be half read. *)
Inductive expects (h : heap) (r : redisReader nat) (un more : bytes) (w : W) : list reply -> Prop :=
  | expects_none : waiting 0 r un -> un = [] -> more = [] -> snd w = h -> expects h r un more w []
  | expects_reply rep reps S :
      awaits fns 0 (reply_in h rep) r S un w -> un ++ more = S ++ encode_list reps ->
      zlen S < 2 ^ 29 -> Forall readable reps -> expects h r un more w (rep :: reps).

(** The same after the reader was emptied of whole replies. *)
Inductive starved (h : heap) (r : redisReader nat) (un more : bytes) (w : W) : list reply -> Prop :=
  | starved_none : waiting 0 r un -> un = [] -> more = [] -> snd w = h -> starved h r un more w []
  | starved_reply rep reps S t :
      awaits fns 0 (reply_in h rep) r S un w -> un ++ t = S -> t ≠ [] ->
      more = t ++ encode_list reps -> zlen S < 2 ^ 29 -> Forall readable reps ->
      starved h r un more w (rep :: reps).

Lemma starved_expects h r un more w reps : starved h r un more w reps -> expects h r un more w reps.
Proof.
  intros [? ? ? ?|rep reps' S t Haw HE Ht -> HS Hr]; [by apply expects_none|].
  eapply expects_reply; try done. by rewrite app_assoc, HE.
Qed.

Lemma reply_in_mono h rep o (w1 w2 : W) :
  same_heap (X := X) w1 w2 -> reply_in h rep o w1 -> reply_in h rep o w2.
Proof.
  intros HR (l & D & hn & ?). unfold same_heap in HR. unfold reply_in. rewrite <- HR. by exists l, D, hn.
Qed.

Lemma build_reply h rep a k :
  readable rep -> wp (build fns 0 None (-1) rep) (reply_in h rep) ((a, k), h).
Proof.
  intros (Hwf & Hd & Hlen). eapply wp_mono.
  - apply (build_wp (scripted_no_oom no_oom) 0 rep Hwf); [unfold encode in Hlen; zl | done].
  - done.
Qed.

Lemma waiting_expects h r un more a k reps :
  waiting 0 r un -> un ++ more = encode_list reps -> Forall readable reps ->
  expects h r un more ((a, k), h) reps.
Proof.
  intros Hw HE Hr. destruct Hr as [|rep reps Hrep Hr].
  - apply app_eq_nil in HE as [-> ->]. by apply expects_none.
  - pose proof Hrep as (Hwf & Hd & Hlen).
    eapply expects_reply; [|exact HE|done|done].
    apply awaits_waiting; try done. by apply build_reply.
Qed.

(** Before the first of them. *)
Lemma between_starved h r a k reps :
  between 0 r [] -> Forall readable reps -> starved h r [] (encode_list reps) ((a, k), h) reps.
Proof.
  intros Hb Hr. destruct Hr as [|rep reps Hrep Hr]; [apply starved_none; [by left | done..]|].
  pose proof Hrep as (Hwf & Hd & Hlen).
  eapply starved_reply; [| | | |exact Hlen|exact Hr]; [|done|done|done].
  apply awaits_waiting; [by left | done | done | by apply build_reply].
Qed.

Lemma awaits_nonempty Q r S un w : awaits fns 0 Q r S un w -> S ≠ [].
Proof.
  intros [rep ? ? ? ? ->|rd gs x typed ? ? ? ->]; [done|].
  unfold stream. intros En. apply app_eq_nil in En as [_ En].
  apply app_eq_nil in En as [En _]. pose proof (body_nonempty x) as Hx. rewrite En in Hx. zl.
Qed.

(** Asking the reader of a context that does not block. *)
Lemma getReply_nonblock fuel c Q w :
  has_flag c REDIS_BLOCK = false ->
  wp (redisGetReplyFromReader fns c) (λ '(c', st, o) w', st = REDIS_OK ∧
     c_flags c' = c_flags c ∧ Q (c', st, o) w') w ->
  wp (redisGetReply fns fuel c) Q w.
Proof.
  intros Hb Hwp. unfold redisGetReply. wp_step. eapply wp_mono; [exact Hwp|].
  intros [[c' st] o] w' (-> & Hf & HQ). rewrite bool_decide_false by done.
  assert (has_flag c' REDIS_BLOCK = false) as -> by (unfold has_flag in *; by rewrite Hf).
  rewrite andb_false_r. by wp_steps.
Qed.

Lemma nothing_wp c r w :
  c_reader c = Some r -> waiting 0 r [] ->
  wp (redisGetReplyFromReader fns c) (λ '(c', st, o) w',
    st = REDIS_OK ∧ o = Null ∧ w' = w ∧ ∃ r', c' = set_reader c (Some r') ∧ waiting 0 r' []) w.
Proof.
  intros Hr Hw. unfold redisGetReplyFromReader. wp_step. eapply wp_lift_ok; [by rewrite Hr|].
  wp_step. eapply wp_mono; [by apply getReply_nothing|].
  intros [[r' st] o] w' (-> & -> & Hw' & ->). rewrite bool_decide_false by done. wp_steps.
  split_and!; [done..|]. by exists r'.
Qed.

(** One reply with its callback: run, freed, and gone from the queue. *)
Lemma process_reply_wp fuel ac cb cb0 cbs o rep h w :
  calm (c_flags (ac_c ac)) -> queue (ac_replies ac) (cb0 :: cbs) -> reply_in h rep o w ->
  wp (process_reply user notify fuel ac cb o) (λ res w', ∃ ac' s new,
    res = inl (ac', cb0) ∧ ac_c ac' = set_obuf (ac_c ac) s ∧ ac_ev ac' = ac_ev ac ∧
    queue (ac_replies ac') (cbs ++ new) ∧ script_of w' = script_of w ∧ snd w' = h ∧
    log_of w' = log_of w ++ events [cb0] [rep]) w.
Proof.
  intros (_ & _ & _ & Hfree & _ & Hcb) Hq Ho. unfold process_reply.
  destruct (shift_cons _ _ _ Hq) as (l & Hl & Hq'). wp_step. eapply wp_lift_ok; [exact Hl|].
  pose proof Ho as (p & D & hn & -> & Htree & Hdom & Hdisj & Hh).
  assert (∀ x : X, freeReplyObject (Obj p) (x, snd w) = Ok (tt, (x, h))) as Hfr.
  { intros x. rewrite Hh. by eapply freeReplyObject_ok. }
  cbn [events]. destruct (cb_fn cb0) as [f|] eqn:Hf.
  - wp_step. unfold __redisRunCallback. rewrite Hf. wp_step.
    eapply wp_mono; [by apply (user_ok f _ _ (cb_privdata cb0) rep h)|].
    intros ac' w' ([[s Hc] Hev Hre] & Hs & Hsnd & Hlog).
    destruct (Hre cbs Hq') as (new & Hq2). cbn [ac_c set_lists ac_add set_c ac_ev] in Hc, Hev.
    wp_steps. unfold wp. rewrite (surjective_pairing w'), Hsnd, Hfr.
    unfold ac_flag, has_flag, ac_clear. cbn [ac_c set_c clear_flag set_flags c_flags].
    rewrite Hc. cbn [c_flags set_obuf add_flag set_flags].
    rewrite in_callback_twice by done. rewrite Hfree, bool_decide_false by auto. wp_steps.
    eexists _, s, new. split; [done|]. unfold clear_flag, set_c, add_flag, set_obuf, set_flags.
    cbn [ac_c ac_ev ac_replies c_flags]. rewrite in_callback_twice by done. cbn. split_and!; try done.
  - wp_steps. unfold wp. rewrite (surjective_pairing w), Hfr. cbn.
    eexists _, (c_obuf (ac_c ac)), []. split; [done|]. rewrite !app_nil_r. split_and!; try done.
    cbn. by destruct (ac_c ac).
Qed.

(** What processing the callbacks leaves: [n] replies were taken. *)
Definition looped (h : heap) (more : bytes) (cbs : list redisCallback) (reps : list reply)
    (ac : AC) (w : W) (n : nat) (ac' : AC) (w' : W) : Prop :=
  ∃ r' s un' new, (n ≤ length reps)%nat ∧
    ac_c ac' = set_obuf (set_reader (ac_c ac) (Some r')) s ∧ ac_ev ac' = ac_ev ac ∧
    queue (ac_replies ac') (drop n cbs ++ new) ∧ starved h r' un' more w' (drop n reps) ∧
    script_of w' = script_of w ∧ log_of w' = log_of w ++ events (take n cbs) (take n reps).

Lemma process_callbacks_wp fuel : ∀ ac cb r un more reps cbs h w,
  calm (c_flags (ac_c ac)) -> c_reader (ac_c ac) = Some r -> queue (ac_replies ac) cbs ->
  expects h r un more w reps -> (length reps ≤ length cbs)%nat -> (length reps < fuel)%nat ->
  wp (process_callbacks user notify fuel ac cb) (λ o w', ∃ ac' n,
    o = Some ac' ∧ looped h more cbs reps ac w n ac' w') w.
Proof.
  induction fuel as [|fuel IH]; intros ac cb r un more reps cbs h w Hcalm Hr Hq Hex Hlen Hf; [lia|].
  cbn [process_callbacks]. pose proof Hcalm as (Hblk & Hdisc & Hmon & _).
  assert (has_flag (ac_c ac) REDIS_BLOCK = false) as Hnb
    by (unfold has_flag; rewrite Hblk; rewrite bool_decide_false by auto; done).
  (* no reply: the loop ends *)
  assert (∀ c' r' un' w', c' = set_reader (ac_c ac) (Some r') -> starved h r' un' more w' reps ->
    quiet w w' ->
    wp (obuf ← lift (if ac_flag (set_c ac c') REDIS_DISCONNECTING then deref (c_obuf c')
                     else Ok (Sdshdr 0 0 []));
        if ac_flag (set_c ac c') REDIS_DISCONNECTING && bool_decide (sdslen obuf = 0)
           && bool_decide (head (ac_replies (set_c ac c')) = None)
        then _ ← __redisAsyncDisconnect user notify fuel (set_c ac c'); mret None
        else if ac_flag (set_c ac c') REDIS_MONITORING then
          '(l, _) ← __redisPushCallback (ac_replies (set_c ac c')) cb;
          mret (Some (set_lists (set_c ac c') l (ac_invalid (set_c ac c'))))
        else mret (Some (set_c ac c')))
      (λ o w', ∃ ac' n, o = Some ac' ∧ looped h more cbs reps ac w n ac' w') w') as Hstop.
  { intros c' r' un' w' -> Hst [Hscr Hlog]. unfold ac_flag, has_flag.
    cbn [ac_c set_c set_reader c_flags]. rewrite Hdisc, Hmon, !bool_decide_false by auto.
    wp_steps. eexists _, 0%nat. split; [done|].
    exists r', (c_obuf (ac_c ac)), un', []. rewrite app_nil_r, !drop_0.
    split_and!; try done; [lia | by rewrite Hlog, app_nil_r]. }
  wp_step. apply getReply_nonblock; [done|].
  destruct Hex as [Hw Hun Hm Hh|rep reps S Haw HE HS Hread].
  - subst un. eapply wp_mono; [by eapply nothing_wp|].
    intros [[c' st] o] w' (-> & -> & -> & r' & -> & Hw'). split_and!; [done..|].
    rewrite bool_decide_true by done. cbn [is_null]. eapply Hstop; [done | | done].
    by apply starved_none.
  - eapply wp_mono.
    { apply (getReplyFromReader_wp quiet (reply_in h rep) _ r S un more (encode_list reps)); try done.
      - lia.
      - intros -> Hnil -> . rewrite Hnil, !app_nil_r in HE. by eapply awaits_nonempty. }
    intros [[c' st] o] w' (-> & Hquiet & r' & -> & Hgot). split_and!; [done..|].
    rewrite bool_decide_true by done.
    destruct Hgot as [(Ho & HQ & un' & Hb & HE')|(-> & S2 & un2 & t & Haw2 & Ht & HS2 & Hm & HlS)].
    2:{ cbn [is_null]. eapply Hstop; [done | | done]. eapply starved_reply; try done. lia. }
    rewrite Ho. destruct cbs as [|cb0 cbs]; [cbn in Hlen; lia|].
    wp_step. eapply wp_mono.
    { apply (process_reply_wp fuel (set_c ac (set_reader (ac_c ac) (Some r'))) cb cb0 cbs o rep h);
        try done. }
    intros res w2 (ac2 & s & new & -> & Hc2 & Hev2 & Hq2 & Hscr2 & Hh2 & Hlog2).
    destruct w2 as [[a2 k2] h2]. cbn in Hh2. subst h2. destruct Hquiet as [Hscr Hlog].
    cbn [ac_c ac_ev set_c] in Hc2, Hev2. eapply wp_mono.
    { apply (IH ac2 cb0 r' un' more reps (cbs ++ new) h).
      - by rewrite Hc2.
      - by rewrite Hc2.
      - done.
      - apply waiting_expects; [by left | done | done].
      - cbn in Hlen. rewrite length_app. lia.
      - cbn in Hf. lia. }
    intros o3 w3 (ac3 & n & -> & r3 & s3 & un3 & new3 & Hn & Hc3 & Hev3 & Hq3 & Hst3 & Hscr3 & Hlog3).
    eexists _, (Datatypes.S n). split; [done|]. cbn [length] in *.
    exists r3, s3, un3, (drop (n - length cbs) new ++ new3). cbn [drop take].
    rewrite Hc2 in Hc3. rewrite drop_app, <- app_assoc in Hq3.
    rewrite take_app_le in Hlog3 by lia.
    split_and!; try done; [cbn [length]; lia | congruence | congruence | ].
    rewrite Hlog3, Hlog2, Hlog, <- app_assoc. cbn [events]. by destruct (cb_fn cb0).
Qed.

(** ** A read event *)
Lemma redisBufferRead_log c : alloc_only same_log (redisBufferRead fns c).
Proof.
  assert (∀ {B} (f : W -> B * W), (∀ w, same_log w (f w).2) -> alloc_only same_log (sys f)) as Hsys.
  { intros B f Hf w b w'. unfold sys. specialize (Hf w). destruct (f w). by intros [= <- <-]. }
  unfold redisBufferRead. case_bool_decide; [alloc|].
  apply alloc_only_bind; [apply _ | apply Hsys |].
  { intros [[a k] h]. change (same_log (a, k, h) (sys_read (c_fd c) (1024 * 16) (a, k, h)).2).
    rewrite client_read. by destruct (script_read _ k). }
  intros [b|].
  - case_bool_decide; [apply alloc_only_bind; [apply _ | apply setError_frame, _ | alloc]|].
    apply alloc_only_bind; [apply _ | alloc |]. intros r.
    apply alloc_only_bind; [apply _ | apply redisReaderFeed_frame; apply _ |]. intros [r' st].
    case_bool_decide; [apply alloc_only_bind; [apply _ | apply setError_frame, _ | alloc] | alloc].
  - apply alloc_only_bind; [apply _ | by intros w n w' [= <- <-] |]. intros no.
    case_bool_decide; [alloc|].
    apply alloc_only_bind; [apply _ | apply setError_frame, _ | alloc].
Qed.

Lemma expects_mono h r un more w w' reps :
  snd w = snd w' -> expects h r un more w reps -> expects h r un more w' reps.
Proof.
  intros Hh [? ? ? ?|rep reps' S Haw HE HS Hr]; [apply expects_none; try done; congruence|].
  eapply expects_reply; try done. eapply (client_awaits_mono no_oom); [|done|done].
  intros o w1 w2. apply reply_in_mono.
Qed.

(** What a read brings is added to the bytes that are here. *)
Lemma read_event_wp h c r un t later reps x l rest a k hp :
  ctx_ok c -> c_err c = 0 -> c_reader c = Some r ->
  starved h r un (t ++ later) ((a, k), hp) reps ->
  k_reads k = x :: l ++ rest -> delivers (x :: l) t ->
  wp (redisBufferRead fns c) (λ '(c', st) w',
    st = REDIS_OK ∧ k_reads (script_of w') = l ++ rest ∧ same_log ((a, k), hp) w' ∧
    ∃ r' un' t', c' = set_reader c (Some r') ∧ delivers l t' ∧
      expects h r' un' (t' ++ later) w' reps) ((a, k), hp).
Proof.
  intros Hok Hc Hr Hst Hk Hd.
  inversion Hst as [Hw Hun Hm Hh|rep reps' S t0 Haw HE Ht0 Hm HS Hread]; subst.
  - apply app_eq_nil in Hm as [-> ->].
    inversion Hd as [|b l' t' Hb Hlen Hd' El Et|l' t' Hd']; subst; [by destruct b|].
    unfold redisBufferRead. rewrite bool_decide_false by auto. wp_step. apply wp_sys.
    change (sys_read (c_fd c) (1024 * 16) (a, k, hp)) with (on_fst (on_snd (script_read (1024 * 16))) (a, k, hp)).
    unfold on_fst, on_snd, script_read. cbn [fst snd]. rewrite Hk. wp_step. apply wp_get_errno.
    rewrite bool_decide_true by (by right). wp_steps. split_and!; [done..|].
    exists r, [], []. split_and!; [by destruct c; cbn in *; subst | done|]. by apply expects_none.
  - eapply wp_mono.
    { apply (wp_alloc_only same_log); [apply redisBufferRead_log|].
      eapply (redisBufferRead_wp no_oom (reply_in h rep) c r (un ++ t0) un t x l rest a k hp); try done.
      - intros o w1 w2. apply reply_in_mono.
      - zl. }
    intros [c' st] w' [(-> & Hk' & _ & r' & b & t' & -> & Haw' & -> & Hd') Hlog].
    split_and!; [done..|]. exists r', (un ++ b), t'. split_and!; [done..|].
    eapply expects_reply; try done. rewrite <- app_assoc in Hm |- *. by rewrite Hm, <- app_assoc.
Qed.

(** The event library's hook leaves this part of the world alone. *)
Definition harmless (ev : event_hooks W) : Prop :=
  ∀ w, wp (hook (addRead ev)) (λ _ w', quiet w w' ∧ snd w' = snd w) w.

Lemma redisAsyncHandleRead_wp fuel ac r un t later reps cbs x l rest h w :
  calm (c_flags (ac_c ac)) -> ctx_ok (ac_c ac) -> c_err (ac_c ac) = 0 -> harmless (ac_ev ac) ->
  c_reader (ac_c ac) = Some r -> queue (ac_replies ac) cbs ->
  starved h r un (t ++ later) w reps -> k_reads (script_of w) = x :: l ++ rest ->
  delivers (x :: l) t -> (length reps ≤ length cbs)%nat -> (length reps < fuel)%nat ->
  wp (redisAsyncHandleRead user notify fuel ac) (λ o w', ∃ ac' n r' s un' t' new,
    o = Some ac' ∧ (n ≤ length reps)%nat ∧ ac_c ac' = set_obuf (set_reader (ac_c ac) (Some r')) s ∧
    ac_ev ac' = ac_ev ac ∧ queue (ac_replies ac') (drop n cbs ++ new) ∧ delivers l t' ∧
    starved h r' un' (t' ++ later) w' (drop n reps) ∧ k_reads (script_of w') = l ++ rest ∧
    log_of w' = log_of w ++ events (take n cbs) (take n reps)) w.
Proof.
  intros Hcalm Hok Hc Hev Hr Hq Hst Hk Hd Hlen Hf. destruct w as [[a k] hp].
  unfold redisAsyncHandleRead, when_connected, ac_flag, has_flag.
  rewrite bool_decide_true by apply Hcalm. wp_step.
  eapply wp_mono; [by eapply read_event_wp|].
  intros [c' st] w1 (-> & Hk1 & Hlog1 & r1 & un1 & t1 & -> & Hd1 & Hex1).
  rewrite bool_decide_false by done. wp_step. eapply wp_mono; [apply Hev|].
  intros _ w2 [[Hscr2 Hlog2] Hh2].
  eapply wp_mono.
  { eapply (process_callbacks_wp fuel (set_c ac (set_reader (ac_c ac) (Some r1))) _ r1 un1
      (t1 ++ later) reps cbs h w2); try done. eapply expects_mono; [|done]. done. }
  intros o w3 (ac' & n & -> & r3 & s & un3 & new & Hn & Hc3 & Hev3 & Hq3 & Hst3 & Hscr3 & Hlog3).
  exists ac', n, r3, s, un3, t1, new. split_and!; try done; [congruence|].
  by rewrite Hlog3, Hlog2, Hlog1.
Qed.

(** ** The event loop: one read event per read *)
Fixpoint event_loop (ticks fuel : nat) (ac : AC) : M W (option AC) :=
  match ticks with
  | O => mret (Some ac)
  | Datatypes.S ticks' =>
      o ← redisAsyncHandleRead user notify fuel ac;
      match o with Some ac => event_loop ticks' fuel ac | None => mret None end
  end.

Lemma event_loop_wp fuel l : ∀ ac r un more reps cbs rest h w,
  calm (c_flags (ac_c ac)) -> ctx_ok (ac_c ac) -> c_err (ac_c ac) = 0 -> harmless (ac_ev ac) ->
  c_reader (ac_c ac) = Some r -> queue (ac_replies ac) cbs ->
  starved h r un more w reps -> k_reads (script_of w) = l ++ rest -> delivers l more ->
  (length reps ≤ length cbs)%nat -> (length reps < fuel)%nat ->
  wp (event_loop (length l) fuel ac) (λ o w', ∃ ac' new,
    o = Some ac' ∧ queue (ac_replies ac') (drop (length reps) cbs ++ new) ∧ snd w' = h ∧
    k_reads (script_of w') = rest ∧ log_of w' = log_of w ++ events cbs reps) w.
Proof.
  induction l as [|x l IH];
    intros ac r un more reps cbs rest h w Hcalm Hok Hc Hev Hr Hq Hst Hk Hd Hlen Hf.
  { inversion Hd; subst. cbn [event_loop length].
    inversion Hst as [Hw Hun Hm Hh|rep reps' S t Haw HE Ht Hm HS Hread]; [|by destruct t].
    wp_steps. eexists ac, []. rewrite app_nil_r. split_and!; try done.
    destruct cbs; by rewrite app_nil_r. }
  cbn [event_loop length]. wp_step. eapply wp_mono.
  { eapply (redisAsyncHandleRead_wp fuel ac r un more [] reps cbs x l rest h w); try done.
    by rewrite app_nil_r. }
  intros o w1 (ac1 & n & r1 & s & un1 & t1 & new & -> & Hn & Hc1 & Hev1 & Hq1 & Hd1 & Hst1 & Hk1 & Hlog1).
  rewrite app_nil_r in Hst1.
  assert (length (drop n reps) = (length reps - n)%nat) as Hdl by apply length_drop.
  eapply wp_mono.
  { eapply (IH ac1 r1 un1 t1 (drop n reps) (drop n cbs ++ new) rest h w1); try done;
      rewrite ?Hc1, ?Hev1; try done.
    - rewrite length_app, !length_drop. lia.
    - lia. }
  intros o w2 (ac2 & new2 & -> & Hq2 & Hh2 & Hk2 & Hlog2).
  rewrite Hdl, drop_app, drop_drop, <- app_assoc in Hq2.
  replace (n + (length reps - n))%nat with (length reps) in Hq2 by lia.
  eexists ac2, _. split_and!; try done.
  rewrite Hlog2, Hlog1, <- app_assoc. f_equal. rewrite <- (events_take n cbs reps). f_equal.
  revert Hlen. rewrite <- (take_drop n reps) at 1. clear. intros Hlen.
  rewrite length_app in Hlen.
  assert (∀ (rs : list reply) cs ds, (length rs ≤ length cs)%nat -> events (cs ++ ds) rs = events cs rs) as He.
  { induction rs as [|y rs IH]; intros [|c cs] ds H; cbn in *; try done; try lia.
    - by destruct ds.
    - destruct (cb_fn c); by rewrite (IH cs ds) by lia. }
  apply He. rewrite !length_drop in *. 
  destruct (decide (n ≤ length reps)%nat); [rewrite length_take in Hlen|]; lia.
Qed.
End loop.
