(* ===== verification/AsyncFree.v ===== *)
(** * AsyncFree: freeing a connection runs what is pending (async.c)

    [redisAsyncFree] outside of a callback gives every pending callback, of
    replies, of commands issued while subscribed and of subscriptions, a NULL
    reply, once; then it cleans up, reports the disconnection, and closes the
    socket. *)

From Stdlib Require Import ZArith Lia Ascii.
From stdpp Require Import base list strings gmap numbers.
From S2P Require Import Prelude Libc Printf Sds Dict Reader Resp ReaderSpec Replies Command CommandSpec.
From S2P Require Import Kernel Context Net NetSpec ContextSpec ClientSpec Async AsyncSpec AsyncLoop.

(** Two steps taken as one. *)
Lemma wp_assoc {W A B C} (m : M W A) (f : A -> M W B) (k : B -> M W C) Q w :
  wp (a ← m; f a) (λ b w', wp (k b) Q w') w -> wp (a ← m; b ← f a; k b) Q w.
Proof.
  unfold wp, mbind, M_bind. destruct (m w) as [[a w']|]; [|done].
  by destruct (f a w') as [[b w2]|].
Qed.

Section free.
Context {A : Type} `{!Libc A} (no_oom : ¬ oom A).
Abbreviation X := (scripted_world A).
Abbreviation W := (world X).
Abbreviation fns := (Some (defaultFunctions (X := X))).
Abbreviation AC := (redisAsyncContext W).
Context (user : Z -> AC -> vptr nat -> Z -> M W AC) (notify : Z -> Z -> M W unit).

(** What the callbacks record: those run on NULL, and the disconnection. *)
Context {E : Type} (log : A -> list E) (dropped : Z -> Z -> E) (notified : Z -> Z -> E).
Hypothesis log_malloc : ∀ n a, log (snd (malloc n a)) = log a.

(** The sockets and the replies are as before, and [es] was recorded. *)
Definition outcome (w w' : W) (es : list E) : Prop :=
  script_of w' = script_of w ∧ snd w' = snd w ∧ log (fst (fst w')) = log (fst (fst w)) ++ es.

Hypothesis user_ok : ∀ fn ac priv w,
  wp (user fn ac Null priv) (λ ac' w', ac' = ac ∧ outcome w w' [dropped fn priv]) w.
Hypothesis notify_ok : ∀ f st w, wp (notify f st) (λ _ w', outcome w w' [notified f st]) w.

Lemma outcome_refl w : outcome w w [].
Proof. split_and!; [done..|]. by rewrite app_nil_r. Qed.

Lemma outcome_trans w1 w2 w3 es es' : outcome w1 w2 es -> outcome w2 w3 es' -> outcome w1 w3 (es ++ es').
Proof.
  intros (? & ? & E1) (? & ? & E2). split_and!; [congruence..|]. by rewrite E2, E1, <- app_assoc.
Qed.

#[local] Instance outcome_alloc : AllocRel (λ w w', outcome w w' []).
Proof.
  split.
  - split; [intros w; apply outcome_refl|]. intros w1 w2 w3 H1 H2. by apply (outcome_trans w1 w2 w3 [] []).
  - intros n [[a k] h]. split_and!; [done..|]. cbn. by rewrite log_malloc, app_nil_r.
Qed.

(** The records of callbacks run on NULL. *)
Definition drops (cbs : list redisCallback) : list E :=
  omap (λ cb, (λ fn, dropped fn (cb_privdata cb)) <$> cb_fn cb) cbs.

Lemma drops_app a b : drops (a ++ b) = drops a ++ drops b.
Proof. apply omap_app. Qed.

Lemma run_callback_wp ac cb w :
  Z.land (c_flags (ac_c ac)) REDIS_IN_CALLBACK = 0 ->
  wp (__redisRunCallback user ac cb Null) (λ ac' w', ac' = ac ∧ outcome w w' (drops [cb])) w.
Proof.
  intros Hf. unfold __redisRunCallback, drops. cbn [omap list_omap].
  destruct (cb_fn cb) as [fn|]; cbn [fmap option_fmap option_map].
  - wp_step. eapply wp_mono; [apply user_ok|]. intros ac' w' [-> Ho]. wp_steps. split; [|done].
    unfold ac_clear, ac_add, set_c, clear_flag, add_flag, set_flags. cbn.
    rewrite in_callback_twice by done. destruct ac as [c]. cbn. by destruct c.
  - wp_steps. split; [done | apply outcome_refl].
Qed.

(** The context after the queue of [drain] is emptied. *)
Definition drained (invalid : bool) (ac ac' : AC) : Prop :=
  ∃ l, queue l [] ∧ ac' = if invalid then set_lists ac (ac_replies ac) l else set_lists ac l (ac_invalid ac).

Lemma drain_wp fuel (invalid : bool) : ∀ ac cbs w,
  Z.land (c_flags (ac_c ac)) REDIS_IN_CALLBACK = 0 ->
  queue (if invalid then ac_invalid ac else ac_replies ac) cbs -> (length cbs < fuel)%nat ->
  wp (drain user fuel invalid ac) (λ ac' w', drained invalid ac ac' ∧ outcome w w' (drops cbs)) w.
Proof.
  induction fuel as [|fuel IH]; intros ac cbs w Hf Hq Hfuel; [lia|]. cbn [drain]. wp_step.
  destruct cbs as [|cb cbs].
  - eapply wp_lift_ok; [by apply shift_empty|]. wp_steps. split; [|apply outcome_refl].
    eexists. split; [exact Hq|]. by destruct invalid, ac.
  - destruct (shift_cons _ _ _ Hq) as (l & El & Hl). eapply wp_lift_ok; [exact El|]. cbv beta iota zeta. wp_step.
    eapply wp_mono; [apply run_callback_wp; by destruct invalid|].
    intros ac1 w1 [-> Ho]. eapply wp_mono.
    { apply (IH _ cbs); [by destruct invalid | by destruct invalid | cbn in Hfuel; lia]. }
    intros ac2 w2 [(l2 & Hl2 & ->) Ho2]. split.
    + exists l2. split; [done|]. by destruct invalid.
    + change (cb :: cbs) with ([cb] ++ cbs). rewrite drops_app. by eapply outcome_trans.
Qed.

(** The callbacks in a table's order. *)
Lemma run_entries_wp t mask u (Hsize : zlen t < 2 ^ 31) fuel : ∀ ac i es nx w,
  Z.land (c_flags (ac_c ac)) REDIS_IN_CALLBACK = 0 -> -1 ≤ i < zlen t ->
  (length (remaining t (Iter (Dict (Some t) (zlen t) mask u) i es nx)) < fuel)%nat ->
  wp (run_subscriptions user fuel ac (Iter (Dict (Some t) (zlen t) mask u) i es nx))
     (λ ac' w', ac' = ac ∧ outcome w w'
        (drops (map e_val (remaining t (Iter (Dict (Some t) (zlen t) mask u) i es nx))))) w.
Proof.
  induction fuel as [|fuel IH]; intros ac i es nx w Hf Hi Hfuel; [lia|]. cbn [run_subscriptions].
  destruct (dictNext_ok t mask u Hsize i es nx Hi) as (it' & e & E1 & He).
  wp_step. eapply wp_lift_ok; [exact E1|]. destruct e as [x|].
  - destruct He as (j & nx' & -> & Hj & Er). rewrite Er in Hfuel |- *. wp_step.
    eapply wp_mono; [by apply run_callback_wp|]. intros ac1 w1 [-> Ho].
    eapply wp_mono; [apply IH; [done | done | cbn [length] in Hfuel; lia]|].
    intros ac2 w2 [-> Ho2]. split; [done|]. cbn [map]. change (e_val x :: ?l) with ([e_val x] ++ l).
    rewrite drops_app. by eapply outcome_trans.
  - wp_steps. rewrite He. split; [done | apply outcome_refl].
Qed.

Lemma run_subscriptions_wp fuel ac ht m w :
  Z.land (c_flags (ac_c ac)) REDIS_IN_CALLBACK = 0 ->
  table (scripted_no_oom no_oom) ht m -> size ht < 2 ^ 31 -> (base.size m < fuel)%nat ->
  wp (it ← dictGetIterator ht; run_subscriptions user fuel ac it)
     (λ ac' w', ac' = ac ∧ ∃ cbs, cbs ≡ₚ (map_to_list m).*2 ∧ outcome w w' (drops cbs)) w.
Proof.
  intros Hf Hm Hsize Hfuel. wp_step.
  eapply wp_mono with (P := λ it w1, it = Iter ht (-1) [] [] ∧ outcome w w1 []).
  { eapply wp_mono; [apply (wp_alloc_only (λ w w', outcome w w' [])) with (Q := λ it _, it = Iter ht (-1) [] [])|].
    - unfold dictGetIterator. alloc.
    - unfold dictGetIterator. wp_steps. apply wp_malloc; [lia | intros; by destruct (world_no_oom (scripted_no_oom no_oom)) |].
      intros; by wp_steps.
    - done. }
  intros it w1 [-> Ho1]. pose proof (dict_rep_used _ _ _ Hm) as Hu.
  destruct Hm as [-> ->|k t c -> Hk (Ht & Hz & _) Hnd Hle ->].
  { destruct fuel as [|fuel]; [lia|]. cbn [run_subscriptions]. wp_step.
    eapply wp_lift_ok; [by vm_compute|]. wp_steps. split; [done|]. exists [].
    by rewrite map_to_list_empty. }
  cbn [size used] in *. rewrite <- Hz in Hsize |- *.
  pose proof (Forall2_concat _ _ _ Ht) as Hes.
  apply Forall2_length in Hes as Hlen. pose proof (zlen_nonneg t).
  eapply wp_mono; [apply run_entries_wp; [done | done | lia |]|].
  { change (length (concat t) < fuel)%nat. unfold zlen in Hu. lia. }
  intros ac' w2 [-> Ho2]. split; [done|]. exists (map e_val (concat t)). split.
  - rewrite map_to_list_to_map by done.
    assert (map e_val (concat t) = (concat c).*2) as ->; [|done].
    clear -Hes. induction Hes as [|e p es ps [_ Hv] _ IH]; [done|]. cbn. f_equal; [exact Hv | exact IH].
  - by apply (outcome_trans _ _ _ [] _ Ho1).
Qed.

(** Tearing a table down only frees. *)
Lemma dictRelease_quiet (R : W -> W -> Prop) `{!AllocRel R} ht :
  alloc_only R (dictRelease (callbackDict (W := W)) ht).
Proof.
  assert (∀ he n, alloc_only R (clear_chain (callbackDict (W := W)) he n)) as Hchain.
  { intros he. induction he as [|e he IH]; intros n; cbn [clear_chain]; [alloc|].
    unfold dictFreeEntryKey, dictFreeEntryVal. cbn. unfold callbackKeyDestructor, callbackValDestructor. alloc. apply IH. }
  assert (∀ fuel i n, alloc_only R (clear_loop (callbackDict (W := W)) fuel ht i n)) as Hloop.
  { intros fuel. induction fuel as [|fuel IH]; intros i n; cbn [clear_loop]; [by intros ? ? ?|].
    repeat first [apply Hchain | apply IH | progress alloc]. }
  unfold dictRelease, _dictClear. repeat first [apply Hloop | progress alloc].
Qed.

Lemma release_wp ht m w :
  table (scripted_no_oom no_oom) ht m ->
  wp (dictRelease (callbackDict (W := W)) ht) (λ _ w', outcome w w' []) w.
Proof.
  intros Hm. eapply wp_mono.
  - apply (wp_alloc_only (λ w w', outcome w w' [])); [apply dictRelease_quiet, _ | by eapply dictRelease_wp].
  - by intros [] w' [_ Ho].
Qed.

(** Closing the connection: nothing of a reply is left in the reader. *)
Lemma redisFree_wp c r w :
  c_reader c = Some r -> r_reply r = Null -> 0 < c_fd c ->
  wp (redisFree fns (Some c)) (λ _ w', snd w' = snd w ∧ log (fst (fst w')) = log (fst (fst w)) ∧
    k_open (script_of w') = k_open (script_of w) ∖ {[c_fd c]}) w.
Proof.
  intros Hr Hn Hfd. unfold redisFree. rewrite bool_decide_true by lia. wp_step. apply wp_close.
  rewrite Hr. unfold redisReaderFree. rewrite Hn. wp_steps. by destruct w as [[a k] h].
Qed.

(** The record of the disconnection: only of a connected context. *)
Definition farewell (ac : AC) : list E :=
  match ac_onDisconnect ac with
  | Some f => if ac_flag ac REDIS_CONNECTED
              then [notified f (if ac_flag ac REDIS_FREEING then REDIS_OK
                                else if bool_decide (ac_err ac = 0) then REDIS_OK else REDIS_ERR)]
              else []
  | None => []
  end.

(** What is pending in a context. *)
Record pending (ac : AC) (replies invalid : list redisCallback)
    (channels patterns : gmap bytes redisCallback) (fuel : nat) : Prop := {
  pending_flags : Z.land (c_flags (ac_c ac)) REDIS_IN_CALLBACK = 0;
  pending_replies : queue (ac_replies ac) replies;
  pending_invalid : queue (ac_invalid ac) invalid;
  pending_channels : table (scripted_no_oom no_oom) (ac_channels ac) channels;
  pending_patterns : table (scripted_no_oom no_oom) (ac_patterns ac) patterns;
  pending_sizes : size (ac_channels ac) < 2 ^ 31 ∧ size (ac_patterns ac) < 2 ^ 31;
  pending_fuel : (length replies + length invalid + base.size channels + base.size patterns < fuel)%nat;
}.

Lemma asyncFree_wp fuel ac replies invalid channels patterns r w :
  pending ac replies invalid channels patterns fuel ->
  c_reader (ac_c ac) = Some r -> r_reply r = Null -> 0 < c_fd (ac_c ac) ->
  (∀ w, wp (hook (cleanup (ac_ev ac))) (λ _ w', outcome w w' []) w) ->
  wp (__redisAsyncFree user notify fuel ac) (λ _ w', snd w' = snd w ∧
    k_open (script_of w') = k_open (script_of w) ∖ {[c_fd (ac_c ac)]} ∧
    ∃ chs pas, chs ≡ₚ (map_to_list channels).*2 ∧ pas ≡ₚ (map_to_list patterns).*2 ∧
      log (fst (fst w')) = log (fst (fst w))
        ++ drops (replies ++ invalid ++ chs ++ pas) ++ farewell ac) w.
Proof.
  intros [Hf Hrs Hinv Hch Hpa [Hs1 Hs2] Hfuel] Hr Hn Hfd Hhook. unfold __redisAsyncFree. wp_step.
  eapply wp_mono; [by apply (drain_wp fuel false ac replies); [| |lia]|].
  intros ac1 w1 [(l1 & Hl1 & ->) Ho1]. wp_step.
  eapply wp_mono; [apply (drain_wp fuel true _ invalid); [done | done | lia]|].
  intros ac2 w2 [(l2 & Hl2 & ->) Ho2].
  set (ac2 := set_lists _ _ _). change (ac_channels ac2) with (ac_channels ac).
  change (ac_patterns ac2) with (ac_patterns ac).
  apply wp_assoc. eapply wp_mono; [by apply (run_subscriptions_wp fuel ac2 _ _ w2 Hf Hch Hs1); lia|].
  intros ? w4 (-> & chs & Hchs & Ho3). wp_step.
  eapply wp_mono; [by apply (release_wp _ _ w4 Hch)|]. intros [] w5 Ho4.
  change (ac_patterns ac2) with (ac_patterns ac).
  apply wp_assoc. eapply wp_mono; [by apply (run_subscriptions_wp fuel ac2 _ _ w5 Hf Hpa Hs2); lia|].
  intros ? w7 (-> & pas & Hpas & Ho5). wp_step.
  change (ac_patterns ac2) with (ac_patterns ac).
  eapply wp_mono; [by apply (release_wp _ _ w7 Hpa)|]. intros [] w8 Ho6. wp_step.
  eapply wp_mono; [apply Hhook|]. intros [] w9 Ho7. wp_step.
  apply wp_mono with (λ _ w', outcome w9 w' (farewell ac)).
  { unfold farewell. change (ac_onDisconnect ac2) with (ac_onDisconnect ac).
    change (ac_flag ac2) with (ac_flag ac). change (ac_err ac2) with (ac_err ac).
    destruct (ac_onDisconnect ac) as [f|]; [|wp_steps; apply outcome_refl].
    destruct (ac_flag ac REDIS_CONNECTED); [|wp_steps; apply outcome_refl].
    destruct (ac_flag ac REDIS_FREEING); apply notify_ok. }
  intros [] w10 Ho8. eapply wp_mono; [by eapply redisFree_wp|].
  intros [] w11 (Hh & Hl & Hk).
  pose proof (outcome_trans _ _ _ _ _ Ho1 (outcome_trans _ _ _ _ _ Ho2 (outcome_trans _ _ _ _ _ Ho3
    (outcome_trans _ _ _ _ _ Ho4 (outcome_trans _ _ _ _ _ Ho5 (outcome_trans _ _ _ _ _ Ho6
    (outcome_trans _ _ _ _ _ Ho7 Ho8))))))) as (Hscr & Hheap & Hlog).
  split_and!; [exact (eq_trans Hh Hheap) | by rewrite Hk, Hscr |]. exists chs, pas. split_and!; [done..|].
  etrans; [exact Hl|]. etrans; [exact Hlog|]. by rewrite !drops_app, <- !app_assoc.
Qed.

(** Freed outside of a callback: everything pending is run and the context
    is gone. *)
Lemma redisAsyncFree_wp fuel ac replies invalid channels patterns r w :
  pending ac replies invalid channels patterns fuel ->
  c_reader (ac_c ac) = Some r -> r_reply r = Null -> 0 < c_fd (ac_c ac) ->
  (∀ w, wp (hook (cleanup (ac_ev ac))) (λ _ w', outcome w w' []) w) ->
  wp (redisAsyncFree user notify fuel ac) (λ o w', o = None ∧ snd w' = snd w ∧
    k_open (script_of w') = k_open (script_of w) ∖ {[c_fd (ac_c ac)]} ∧
    ∃ chs pas, chs ≡ₚ (map_to_list channels).*2 ∧ pas ≡ₚ (map_to_list patterns).*2 ∧
      log (fst (fst w')) = log (fst (fst w))
        ++ drops (replies ++ invalid ++ chs ++ pas) ++ farewell (ac_add ac REDIS_FREEING)) w.
Proof.
  intros [] Hr Hn Hfd Hhook. unfold redisAsyncFree.
  assert (Z.land (Z.lor (c_flags (ac_c ac)) REDIS_FREEING) REDIS_IN_CALLBACK = 0) as Hf.
  { rewrite Z.land_lor_distr_l, pending_flags0. done. }
  unfold ac_flag, has_flag. cbn [ac_add ac_c set_c add_flag set_flags c_flags].
  rewrite Hf, bool_decide_false by auto. wp_step.
  eapply wp_mono; [by eapply (asyncFree_wp fuel (ac_add ac REDIS_FREEING) replies invalid channels patterns r); [split|..]|].
  intros [] w' H. wp_steps. split; [done|]. exact H.
Qed.
End free.
