(* ===== verification/SdsTheorems.v ===== *)
(** * SdsTheorems: what the string library promises (sds.c)

    The main theorems on sds strings, each with an instance at concrete
    strings: sequences of operations against byte strings, capacity, numbers,
    formats, splitting, quoting and comparison. *)

From Stdlib Require Import ZArith Lia Ascii.
From stdpp Require Import base list strings gmap numbers.
From S2P Require Import Prelude Libc Printf Sds SdsText SdsFormat SdsSplit SdsQuote Reader Resp.

(** ** Sequences of operations *)
Inductive sds_op :=
  | OCatLen (t : bytes)
  | OCpyLen (t : bytes)
  | OGrowZero (n : Z)
  | ODup
  | ORange (start end_ : Z)
  | OTrim (cset : bytes)
  | OToLower
  | OToUpper
  | OMapChars (from to : bytes)
  | OClear.

(** The operation on byte strings. *)
Definition op_text (o : sds_op) (c : bytes) : bytes :=
  match o with
  | OCatLen t => c ++ t
  | OCpyLen t => t
  | OGrowZero n => c ++ replicate (Z.to_nat (n - zlen c)) NUL
  | ODup => c
  | ORange i j => range_of c i j
  | OTrim cset => strip (in_cset cset) c
  | OToLower => map tolower c
  | OToUpper => map toupper c
  | OMapChars from to => map (subst_char from to) c
  | OClear => []
  end.

(** Its arguments are in range for the string [c]. *)
Definition op_fits (o : sds_op) (c : bytes) : Prop :=
  match o with
  | OCatLen t => zlen c + zlen t + SDS_MAX_PREALLOC < 2 ^ 31
  | OCpyLen t => zlen t + SDS_MAX_PREALLOC < 2 ^ 31
  | OGrowZero n => 0 ≤ n ∧ n + SDS_MAX_PREALLOC < 2 ^ 31
  | ORange i j => - 2 ^ 31 ≤ i < 2 ^ 31 ∧ - 2 ^ 31 ≤ j < 2 ^ 31
  | OTrim cset => NUL ∉ cset
  | OMapChars from to => zlen from = zlen to
  | _ => True
  end.

(** A sequence of operations, its arguments in range all along. *)
Fixpoint ops_fit (os : list sds_op) (c : bytes) : Prop :=
  match os with [] => True | o :: os' => op_fits o c ∧ ops_fit os' (op_text o c) end.

Section run.
Context {W : Type} `{!Libc W}.

(** An operation that changes the string where it is. *)
Definition in_place (r : res sdshdr) : M W (option sdshdr) := s ← lift r; mret (Some s).

Definition run_op (o : sds_op) (s : sdshdr) : M W (option sdshdr) :=
  match o with
  | OCatLen t => sdscatlen s t (zlen t)
  | OCpyLen t => sdscpylen s t (zlen t)
  | OGrowZero n => sdsgrowzero s n
  | ODup => sdsdup s
  | ORange i j => in_place (sdsrange s i j)
  | OTrim cset => in_place (sdstrim s (cset ++ [NUL]))
  | OToLower => in_place (sdstolower s)
  | OToUpper => in_place (sdstoupper s)
  | OMapChars from to => in_place (sdsmapchars s from to (zlen from))
  | OClear => in_place (sdsclear s)
  end.

(** The operations in turn, up to the first that has no memory. *)
Fixpoint run_ops (os : list sds_op) (s : sdshdr) : M W (option sdshdr) :=
  match os with
  | [] => mret (Some s)
  | o :: os' =>
      r ← run_op o s;
      match r with Some s => run_ops os' s | None => mret None end
  end.

Lemma run_pure (r : res sdshdr) c w :
  (∃ s', r = Ok s' ∧ sds_rep s' c) -> wp (in_place r) (λ o (_ : W), sds_post c o) w.
Proof. intros (s' & -> & Hs). unfold in_place. by wp_steps. Qed.

Lemma run_op_wp o s c w :
  sds_rep s c -> op_fits o c -> wp (run_op o s) (λ r _, sds_post (op_text o c) r) w.
Proof.
  intros Hs Hf. destruct o as [t|t|n| |i j|cset| | |from to|]; cbn [run_op op_text op_fits] in *.
  - eapply wp_mono; [apply (sdscatlen_wp s c t); [done | zl | done]|]. by rewrite zlen_to_nat, firstn_all.
  - eapply wp_mono; [apply (sdscpylen_wp s c t); [done | zl | done]|]. by rewrite zlen_to_nat, firstn_all.
  - destruct Hf. by apply sdsgrowzero_wp.
  - by apply sdsdup_wp.
  - destruct Hf. by apply run_pure, sdsrange_ok.
  - by apply run_pure, sdstrim_ok.
  - by apply run_pure, sdstolower_ok.
  - by apply run_pure, sdstoupper_ok.
  - apply run_pure. destruct (sdsmapchars_ok s c from to (zlen from)) as (s' & E & Hs'); [done | zl | lia |].
    exists s'. rewrite Hf in Hs' at 2; rewrite !zlen_to_nat, !firstn_all in Hs'. done.
  - by apply run_pure, (sdsclear_ok s c).
Qed.

Lemma run_ops_wp os : ∀ s c w, sds_rep s c -> ops_fit os c ->
  wp (run_ops os s) (λ r _, sds_post (foldl (λ c o, op_text o c) c os) r) w.
Proof.
  induction os as [|o os IH]; intros s c w Hs Hf; [by wp_steps|]. destruct Hf as [Ho Hf].
  cbn [run_ops foldl]. wp_step. eapply wp_mono; [by apply run_op_wp|].
  intros [s'|] w' Hs'; [by apply IH | by wp_steps].
Qed.
End run.

(** C12: from a well-formed string, any sequence of operations whose arguments
    are in range ends in a well-formed string that holds what the operations
    on byte strings compute, unless an allocation fails. *)
Theorem sds_operations_refine {W} `{!Libc W} (os : list sds_op) (s : sdshdr) (c : bytes) (w : W) :
  sds_rep s c -> ops_fit os c ->
  wp (run_ops os s) (λ r _, sds_post (foldl (λ c o, op_text o c) c os) r) w.
Proof. apply run_ops_wp. Qed.

Lemma sds_operations_refine_witness :
  let os := [OCatLen (bs " World"); OTrim (bs " W"); ORange 1 (-2); OToUpper;
             OMapChars (bs "LO") (bs "10"); OGrowZero 12; OCpyLen (bs "x"); ODup] in
  sds_rep (mk (bs "Hello") []) (bs "Hello") ∧ ops_fit os (bs "Hello") ∧
  wp (run_ops os (mk (bs "Hello") [])) (λ r _, sds_post (bs "x") r) tt.
Proof.
  intros os. assert (sds_rep (mk (bs "Hello") []) (bs "Hello")) as Hs by (exists []; done).
  assert (ops_fit os (bs "Hello")) as Hf.
  { cbn. unfold SDS_MAX_PREALLOC, range_of. split_and!; try done; by apply (bool_decide_unpack _). }
  split_and!; [done | done|].
  exact (sds_operations_refine os (mk (bs "Hello") []) (bs "Hello") tt Hs Hf).
Defined.

(** ** Capacity *)

(** Growing a string keeps its bytes and makes room: afterwards at least
    [n] bytes are free, and length and capacity still fit an [int]. *)
Theorem sdsMakeRoomFor_capacity {W} `{!Libc W} (s : sdshdr) (c : bytes) (n : Z) (w : W) :
  sds_rep s c -> 0 ≤ n -> zlen c + n + SDS_MAX_PREALLOC < 2 ^ 31 ->
  wp (sdsMakeRoomFor s n) (λ o _, match o with
    | None => oom W
    | Some s' => sds_rep s' c ∧ n ≤ sdsavail s' ∧ sh_len s' + sh_free s' ≤ INT_MAX
    end) w.
Proof.
  intros (tl & -> & Hfit) Hn Hroom. eapply wp_mono; [by apply sdsMakeRoomFor_wp|].
  intros [s'|] w' H; [|done]. destruct H as (tl' & -> & Hle & Hfit').
  split_and!; [by eexists | | cbn; unfold INT_MAX; lia].
  unfold sdsavail. cbn. rewrite u64_small; zl.
Qed.

Lemma sdsMakeRoomFor_capacity_witness :
  let s := mk (bs "abc") [NUL] in
  sds_rep s (bs "abc") ∧
  wp (sdsMakeRoomFor s 5) (λ o _, match o with
    | None => oom unit
    | Some s' => sds_rep s' (bs "abc") ∧ 5 ≤ sdsavail s' ∧ sh_len s' + sh_free s' ≤ INT_MAX
    end) tt.
Proof.
  intros s. assert (sds_rep s (bs "abc")) as Hs by (exists [NUL]; done).
  split; [done|]. apply (sdsMakeRoomFor_capacity s (bs "abc") 5 tt); [done | lia | done].
Defined.

(** ** Numbers *)

(** [sdsll2str] writes a number that [readLongLong] reads back, at every
    value of a [long long] but the least, which it writes correctly too. *)
Theorem sdsll2str_readLongLong (v : Z) (buf rest : bytes) :
  - 2 ^ 63 ≤ v < 2 ^ 63 -> SDS_LLSTR_SIZE ≤ zlen buf ->
  ∃ t tl, sdsll2str buf v = Ok (t ++ NUL :: tl, zlen t) ∧ t = itoa v ∧
    (v ≠ - 2 ^ 63 -> readLongLong (t ++ CR :: rest) = Ok v).
Proof.
  intros Hv Hb. destruct (sdsll2str_ok v buf Hv Hb) as (tl & E). exists (itoa v), tl.
  split_and!; [done..|]. intros Hmin. apply readLongLong_ok. lia.
Qed.

Lemma sdsll2str_readLongLong_witness :
  let buf := replicate 21 NUL in
  (∃ t tl, sdsll2str buf (-1024) = Ok (t ++ NUL :: tl, zlen t) ∧ t = itoa (-1024) ∧
     (-1024 ≠ - 2 ^ 63 -> readLongLong (t ++ CR :: [LF]) = Ok (-1024))) ∧
  sdsll2str buf (- 2 ^ 63) = Ok (bs "-9223372036854775808" ++ [NUL], 20).
Proof.
  intros buf. split; [|by vm_compute].
  apply (sdsll2str_readLongLong (-1024) buf [LF]); [lia | done].
Defined.

(** ** Formats *)

(** [sdscatfmt] appends the text of its format: the strings, sds strings
    and numbers of every width its conversions name, and other bytes as
    they are. *)
Theorem sdscatfmt_text {W} `{!Libc W} (no_oom : ¬ oom W) (s : sdshdr) (c f ftl t : bytes)
    (ap : list varg) (w : W) :
  sds_rep s c -> NUL ∉ f -> catfmt_text f ap = Some t ->
  zlen c + zlen t + SDS_MAX_PREALLOC + 1 < 2 ^ 31 ->
  wp (sdscatfmt s (f ++ NUL :: ftl) ap) (λ s' _, sds_rep s' (c ++ t)) w.
Proof. by apply sdscatfmt_wp. Qed.

Lemma sdscatfmt_text_witness :
  let f := bs "%s %i-%U%%" in
  let ap := [VPtr (cstr "id"); VInt (-7); VULLong (2 ^ 64 - 1)] in
  catfmt_text f ap = Some (bs "id -7-18446744073709551615%") ∧
  wp (sdscatfmt (mk (bs ">") []) (f ++ [NUL]) ap)
     (λ s' _, sds_rep s' (bs ">id -7-18446744073709551615%")) tt.
Proof.
  intros f ap. assert (catfmt_text f ap = Some (bs "id -7-18446744073709551615%")) as Ht by (by vm_compute).
  split; [done|].
  apply (sdscatfmt_text zero_libc_no_oom (mk (bs ">") []) (bs ">") f [] _ ap tt);
    [by exists [] | by apply (bool_decide_unpack _) | exact Ht | done].
Defined.

(** [sdscatprintf] finds a buffer large enough for the output, however
    long, by doubling, and appends all of it. *)
Theorem sdscatprintf_terminates {W} `{!Libc W} (s : sdshdr) (c f ftl out : bytes)
    (ap : list varg) (w : W) :
  sds_rep s c -> NUL ∉ f -> NUL ∉ out -> format f Plain ap = Ok out ->
  zlen c + zlen out + SDS_MAX_PREALLOC < 2 ^ 31 ->
  wp (sdscatprintf s (f ++ NUL :: ftl) ap) (λ o _, sds_post (c ++ out) o) w.
Proof. by apply sdscatprintf_wp. Qed.

Lemma sdscatprintf_terminates_witness :
  let f := bs "%-20s|%05d|%x" in
  let ap := [VPtr (cstr "left"); VInt (-42); VUInt 48879] in
  let out := bs "left                |-0042|beef" in
  wp (sdscatprintf (mk (bs "# ") []) (f ++ [NUL]) ap) (λ o _, sds_post (bs "# " ++ out) o) tt.
Proof.
  intros f ap out. apply (sdscatprintf_terminates (mk (bs "# ") []) (bs "# ") f [] out ap tt);
    [by exists [] | by apply (bool_decide_unpack _) | by apply (bool_decide_unpack _) | by vm_compute | done].
Defined.

(** ** Splitting and joining *)

(** [sdssplitlen] returns tokens in which the separator does not occur
    and whose join is the text, and counts them; [sdsjoinsds] puts the text
    together again. *)
Theorem sdssplitlen_join {W} `{!Libc W} (no_oom : ¬ oom W) (text tl sep stl : bytes) (w : W) :
  1 ≤ zlen sep -> 1 ≤ zlen text -> zlen text + SDS_MAX_PREALLOC < 2 ^ 31 ->
  wp ('(o, count) ← sdssplitlen (text ++ tl) (zlen text) (sep ++ stl) (zlen sep);
      match o with
      | None => mret (None, None)
      | Some ts => j ← sdsjoinsds ts (sep ++ stl) (zlen sep); mret (Some (ts, count), j)
      end)
     (λ '(o, j) _, match o with
      | None => oom W
      | Some (ts, count) =>
          (∃ L, Forall2 sds_rep ts L ∧ join sep L = text ∧ Forall (λ t, ¬ occurs sep t) L) ∧
          count = Some (zlen ts) ∧ sds_post text j
      end) w.
Proof.
  intros Hsep Htext Hroom. unfold SDS_MAX_PREALLOC in Hroom. wp_step.
  eapply wp_mono; [apply (sdssplitlen_wp text tl sep stl); [done | lia]|].
  intros [[ts|] count] w1 [Hp Hc]; [|by wp_steps].
  pose proof Hp as (L & Hts & HL & Hn). wp_step.
  eapply wp_mono; [apply (sdsjoinsds_wp no_oom ts L sep stl); [done | rewrite HL; unfold SDS_MAX_PREALLOC; lia]|].
  intros j w2 Hj. rewrite HL in Hj. wp_steps. split_and!; [by exists L | by apply Hc | done].
Qed.

Lemma sdssplitlen_join_witness :
  wp ('(o, count) ← sdssplitlen (cstr "a--b----c") 9 (cstr "--") 2;
      match o with
      | None => mret (None, None)
      | Some ts => j ← sdsjoinsds ts (cstr "--") 2; mret (Some (ts, count), j)
      end)
     (λ '(o, j) _, match o with
      | None => oom unit
      | Some (ts, count) =>
          (∃ L, Forall2 sds_rep ts L ∧ join (bs "--") L = bs "a--b----c"
                ∧ Forall (λ t, ¬ occurs (bs "--") t) L) ∧
          count = Some (zlen ts) ∧ sds_post (bs "a--b----c") j
      end) tt.
Proof. apply (sdssplitlen_join zero_libc_no_oom (bs "a--b----c") [NUL] (bs "--") [NUL] tt); done. Defined.

(** ** Quoting *)

(** Quoting each of the strings, with blanks between them. *)
Fixpoint quote_args {W} `{!Libc W} (line : option sdshdr) (ps : list bytes) : M W (option sdshdr) :=
  match ps with
  | [] => mret line
  | p :: ps' =>
      s ← lift (deref line);
      line ← sdscatrepr s p (zlen p);
      s ← lift (deref line);
      line ← sdscatlen s [" "%char] 1;
      quote_args line ps'
  end.

Lemma quote_args_wp {W} `{!Libc W} (no_oom : ¬ oom W) ps : ∀ s c (w : W),
  sds_rep s c -> zlen c + zlen (quoted_line ps) + SDS_MAX_PREALLOC < 2 ^ 31 ->
  wp (quote_args (Some s) ps) (λ o _, ∃ s', o = Some s' ∧ sds_rep s' (c ++ quoted_line ps)) w.
Proof.
  induction ps as [|p ps IH]; intros s c w Hs Hroom; cbn [quote_args].
  { wp_steps. exists s. split; [done|]. unfold quoted_line. cbn. by rewrite app_nil_r. }
  assert (quoted_line (p :: ps) = quote p ++ [" "%char] ++ quoted_line ps) as Eq
    by (unfold quoted_line; cbn; by rewrite <- app_assoc).
  rewrite Eq in *. pose proof (zlen_nonneg (quoted_line ps)). unfold SDS_MAX_PREALLOC in *.
  wp_step. eapply wp_lift_ok; [done|]. wp_step.
  eapply wp_mono.
  { pose proof (sdscatrepr_wp no_oom s c p [] w Hs) as H1. rewrite app_nil_r in H1.
    apply H1. unfold SDS_MAX_PREALLOC. zl. }
  intros [s1|] w1 Hs1; [|by destruct no_oom]. wp_step. eapply wp_lift_ok; [done|]. wp_step.
  eapply wp_mono; [apply (sdscatlen_wp s1 _ [" "%char] 1 _ Hs1); [zl | unfold SDS_MAX_PREALLOC; zl]|].
  intros [s2|] w2 Hs2; [|by destruct no_oom]. change (sds_rep s2 ((c ++ quote p) ++ [" "%char])) in Hs2.
  eapply wp_mono; [apply (IH s2 _ w2 Hs2); zl|].
  intros o w3 (s' & -> & Hs'). exists s'. split; [done|]. by rewrite <- !app_assoc in Hs'.
Qed.

(** C40: whatever bytes the strings hold, a line of their quoted forms made
    by [sdscatrepr] is read back by [sdssplitargs] as the same strings. *)
Theorem sdscatrepr_sdssplitargs {W} `{!Libc W} (no_oom : ¬ oom W) (ps : list bytes) (w : W) :
  zlen (quoted_line ps) + SDS_MAX_PREALLOC < 2 ^ 31 ->
  wp (e ← sdsempty; line ← quote_args e ps; s ← lift (deref line); sdssplitargs (sh_buf s))
     (λ o _, ∃ v, o = Some v ∧ Forall2 arg_rep v ps) w.
Proof.
  intros Hroom. wp_step. eapply wp_mono; [apply sdsempty_wp|].
  intros [e|] w1 He; [|by destruct no_oom]. wp_step.
  eapply wp_mono; [by apply (quote_args_wp no_oom ps e [])|].
  intros o w2 (s & -> & (tl & -> & _)). wp_step. eapply wp_lift_ok; [done|]. cbn [mk sh_buf app].
  apply (sdssplitargs_wp no_oom). apply list.Forall_forall. intros p Hin.
  apply list_elem_of_split in Hin as (l1 & l2 & ->). unfold quoted_line in Hroom.
  rewrite map_app, concat_app in Hroom. cbn [map concat] in Hroom.
  assert (zlen p ≤ zlen (quote p)) as Hp.
  { unfold quote. rewrite zlen_cons, zlen_app. clear. induction p as [|x p IH]; [zl|].
    cbn [map concat]. rewrite zlen_app. assert (1 ≤ zlen (repr_char x)); [|zl].
    apply (bool_decide_eq_true_1 _). each_byte x. }
  unfold SDS_MAX_PREALLOC in *. zl.
Qed.

Lemma sdscatrepr_sdssplitargs_witness :
  let ps := [bs "plain"; []; ["034"%char; NUL; LF; "255"%char; "\"%char]] in
  wp (e ← sdsempty; line ← quote_args e ps; s ← lift (deref line); sdssplitargs (sh_buf s))
     (λ o _, ∃ v, o = Some v ∧ Forall2 arg_rep v ps) tt.
Proof. intros ps. apply (sdscatrepr_sdssplitargs zero_libc_no_oom ps tt). done. Defined.

(** ** Comparison *)

(** The sign of [sdscmp] is the lexicographic order of the strings as
    bytes, shorter first; it is zero exactly on equal strings. *)
Theorem sdscmp_order (s1 s2 : sdshdr) (c1 c2 : bytes) :
  sds_rep s1 c1 -> sds_rep s2 c2 ->
  ∃ z, sdscmp s1 s2 = Ok z ∧ Z.compare z 0 = bytes_cmp c1 c2 ∧ (z = 0 <-> c1 = c2).
Proof.
  intros H1 H2. destruct (sdscmp_ok s1 s2 c1 c2 H1 H2) as (z & E & Hz).
  exists z. split_and!; [done..|]. rewrite <- Z.compare_eq_iff, Hz. split; [apply bytes_cmp_eq|].
  intros ->. clear. induction c2 as [|x c IH]; [done|]. cbn. by rewrite Z.compare_refl.
Qed.

Lemma sdscmp_order_witness :
  sds_rep (mk (bs "ab") []) (bs "ab") ∧
  ∃ z, sdscmp (mk (bs "ab") []) (mk (bs "abc") [NUL]) = Ok z ∧
       Z.compare z 0 = bytes_cmp (bs "ab") (bs "abc") ∧ (z = 0 <-> bs "ab" = bs "abc").
Proof.
  assert (sds_rep (mk (bs "ab") []) (bs "ab")) as H by (by exists []). split; [done|].
  apply (sdscmp_order (mk (bs "ab") []) (mk (bs "abc") [NUL])); [done | by exists [NUL]].
Defined.
