(* ===== verification/DictTheorems.v ===== *)
(** * DictTheorems: the hash table is a finite map (dict.c)

    Any sequence of operations on a table does what the same operations do
    to a finite map, with the same results; growing keeps the map; iterating
    visits every entry once. *)

From Stdlib Require Import ZArith Lia Ascii.
From stdpp Require Import base list strings gmap numbers.
From S2P Require Import Prelude Libc Printf Sds Dict Async AsyncSpec.

(** ** Operations and their results, on entries or on what they stand for *)
Inductive dict_op (K V : Type) :=
  | DAdd (k : K) (v : V)
  | DReplace (k : K) (v : V)
  | DDelete (k : K)
  | DFind (k : K).
Arguments DAdd {K V}.
Arguments DReplace {K V}.
Arguments DDelete {K V}.
Arguments DFind {K V}.

Inductive dict_result (V : Type) :=
  | RStatus (z : Z)
  | RFound (v : option V).
Arguments RStatus {V}.
Arguments RFound {V}.

Section operations.
Context {W : Type} `{!Libc W} {K V : Type} (ty : dictType W K V).

Definition dict_step (o : dict_op K V) (ht : dict K V) : M W (dict K V * dict_result V) :=
  match o with
  | DAdd k v => '(ht, r) ← dictAdd ty ht k v; mret (ht, RStatus r)
  | DReplace k v => '(ht, r) ← dictReplace ty ht k v; mret (ht, RStatus r)
  | DDelete k => '(ht, r) ← dictDelete ty ht k; mret (ht, RStatus r)
  | DFind k =>
      r ← lift (dictFind ty ht k);
      mret (ht, RFound (match r with Some (_, _, e) => Some (e_val e) | None => None end))
  end.

Fixpoint dict_run (os : list (dict_op K V)) (ht : dict K V) :
    M W (dict K V * list (dict_result V)) :=
  match os with
  | [] => mret (ht, [])
  | o :: os' =>
      '(ht, r) ← dict_step o ht;
      '(ht, rs) ← dict_run os' ht;
      mret (ht, r :: rs)
  end.
End operations.

Section map_operations.
Context {A B : Type} `{Countable A}.

Definition map_step (o : dict_op A B) (m : gmap A B) : gmap A B * dict_result B :=
  match o with
  | DAdd a b => match m !! a with
                | Some _ => (m, RStatus DICT_ERR)
                | None => (<[a := b]> m, RStatus DICT_OK) end
  | DReplace a b => (<[a := b]> m, RStatus (match m !! a with Some _ => 0 | None => 1 end))
  | DDelete a => (delete a m, RStatus (match m !! a with Some _ => DICT_OK | None => DICT_ERR end))
  | DFind a => (m, RFound (m !! a))
  end.

Fixpoint map_run (os : list (dict_op A B)) (m : gmap A B) : gmap A B * list (dict_result B) :=
  match os with
  | [] => (m, [])
  | o :: os' => let '(m, r) := map_step o m in let '(m, rs) := map_run os' m in (m, r :: rs)
  end.
End map_operations.

Section refinement.
Context {W : Type} `{!Libc W} {K V : Type} (ty : dictType W K V).
Context {A B : Type} `{Countable A} `{!DictLaws ty A B} (no_oom : ¬ oom W).

Inductive op_rep : dict_op K V -> dict_op A B -> Prop :=
  | rep_add k v a b : krep k a -> vrep v b -> op_rep (DAdd k v) (DAdd a b)
  | rep_replace k v a b : krep k a -> vrep v b -> op_rep (DReplace k v) (DReplace a b)
  | rep_delete k a : krep k a -> op_rep (DDelete k) (DDelete a)
  | rep_find k a : krep k a -> op_rep (DFind k) (DFind a).

Inductive result_rep : dict_result V -> dict_result B -> Prop :=
  | rep_status z : result_rep (RStatus z) (RStatus z)
  | rep_found v b : vrep v b -> result_rep (RFound (Some v)) (RFound (Some b))
  | rep_absent : result_rep (RFound None) (RFound None).

Lemma map_step_size (o : dict_op A B) (m : gmap A B) :
  (base.size (map_step o m).1 ≤ S (base.size m))%nat.
Proof.
  destruct o as [a b|a b|a|a]; cbn.
  - destruct (m !! a) eqn:E; cbn; [lia|]. by rewrite map_size_insert_None.
  - rewrite map_size_insert. destruct (m !! a); cbn; lia.
  - rewrite map_size_delete. destruct (m !! a); cbn; lia.
  - lia.
Qed.

Lemma dict_step_wp o o' ht m w :
  op_rep o o' -> dict_rep ty ht m -> Z.of_nat (base.size m) < 2 ^ 31 ->
  wp (dict_step ty o ht) (λ '(ht', r) _,
    dict_rep ty ht' (map_step o' m).1 ∧ result_rep r (map_step o' m).2) w.
Proof.
  intros Ho Hm Hsize. pose proof (dict_rep_used ty _ _ Hm) as Hu. rewrite <- Hu in Hsize.
  destruct Ho as [k v a b Hk Hv|k v a b Hk Hv|k a Hk|k a Hk]; cbn [dict_step map_step].
  - wp_step. eapply wp_mono; [by eapply (dictAdd_wp ty no_oom)|].
    intros [ht' r] w'. destruct (m !! a); intros [-> ?]; wp_steps; (split; [done | constructor]).
  - wp_step. eapply wp_mono; [by eapply (dictReplace_wp ty no_oom)|].
    intros [ht' r] w' [? ->]. wp_steps. split; [done | constructor].
  - wp_step. eapply wp_mono; [by eapply (dictDelete_wp ty)|].
    intros [ht' r] w' [? ->]. wp_steps. split; [done | constructor].
  - destruct (dictFind_ok ty ht m k a Hm Hk) as (r & E & Hr).
    wp_step. eapply wp_lift_ok; [exact E|]. wp_steps. cbn [fst snd]. split; [done|].
    destruct (m !! a) as [b|]; [|subst r; constructor].
    destruct Hr as (h & pos & e & -> & He). constructor. apply He.
Qed.

Lemma dict_run_wp os : ∀ os' ht m w,
  Forall2 op_rep os os' -> dict_rep ty ht m -> Z.of_nat (base.size m) + zlen os < 2 ^ 31 ->
  wp (dict_run ty os ht) (λ '(ht', rs) _,
    dict_rep ty ht' (map_run os' m).1 ∧ Forall2 result_rep rs (map_run os' m).2) w.
Proof.
  induction os as [|o os IH]; intros os2 ht m w Hos Hm Hsize; inversion Hos; subst; clear Hos.
  { wp_steps. split; [done | constructor]. }
  rewrite zlen_cons in Hsize. pose proof (zlen_nonneg os). cbn [dict_run]. wp_step.
  eapply wp_mono; [eapply dict_step_wp; [done | done | lia]|]. intros [ht1 r] w1 [Hm1 Hr].
  match goal with Ho : op_rep o ?o' |- _ => pose proof (map_step_size o' m) end.
  wp_step. eapply wp_mono; [eapply IH; [done | exact Hm1 | lia]|].
  intros [ht2 rs] w2 [Hm2 Hrs]. wp_steps. cbn [map_run].
  destruct (map_step _ m) as [m1 r1]. cbn [fst snd] in *.
  destruct (map_run _ m1) as [m2 rs2]. cbn [fst snd] in *. split; [done | by constructor].
Qed.
End refinement.

(** C11: on a table of any key and value types that satisfy [DictLaws], any
    sequence of additions, replacements, deletions and searches returns what
    the same sequence returns on a finite map, and leaves a well-formed table
    that holds the resulting map, for up to [2 ^ 31 - 1] entries. *)
Theorem dict_operations_refine {W} `{!Libc W} {K V A B : Type} (ty : dictType W K V)
    `{Countable A} `{!DictLaws ty A B} (no_oom : ¬ oom W)
    (os : list (dict_op K V)) (os' : list (dict_op A B)) (ht : dict K V) (m : gmap A B) (w : W) :
  Forall2 (op_rep ty) os os' -> dict_rep ty ht m -> Z.of_nat (base.size m) + zlen os < 2 ^ 31 ->
  wp (dict_run ty os ht) (λ '(ht', rs) _,
    dict_rep ty ht' (map_run os' m).1 ∧ Forall2 (result_rep ty) rs (map_run os' m).2) w.
Proof. by apply dict_run_wp. Qed.

(** The instances below are at the table of subscriptions. *)
#[local] Instance unit_laws : DictLaws (callbackDict (W := unit)) bytes redisCallback :=
  callback_laws zero_libc_no_oom.

(** From empty, through a growth and back. *)
Lemma dict_operations_refine_witness :
  let key s := mk (bs s) [] in
  let cb i := Callback (Some i) 0 in
  let os := [DAdd (key "a") (cb 1); DAdd (key "b") (cb 2); DAdd (key "a") (cb 3);
             DReplace (key "c") (cb 4); DReplace (key "a") (cb 5); DAdd (key "d") (cb 6);
             DAdd (key "e") (cb 7); DDelete (key "b"); DDelete (key "b"); DFind (key "a");
             DFind (key "b")] in
  let rs := [RStatus 0; RStatus 0; RStatus 1; RStatus 1; RStatus 0; RStatus 0; RStatus 0;
             RStatus 0; RStatus 1; RFound (Some (cb 5)); RFound None] in
  wp (dict_run (callbackDict (W := unit)) os _dictReset)
     (λ '(_, rs') _, Forall2 (result_rep (callbackDict (W := unit))) rs' rs) tt.
Proof.
  intros key cb os rs.
  set (os' := [DAdd (bs "a") (cb 1); DAdd (bs "b") (cb 2); DAdd (bs "a") (cb 3);
             DReplace (bs "c") (cb 4); DReplace (bs "a") (cb 5); DAdd (bs "d") (cb 6);
             DAdd (bs "e") (cb 7); DDelete (bs "b"); DDelete (bs "b"); DFind (bs "a");
             DFind (bs "b")]).
  assert ((map_run os' (∅ : gmap bytes redisCallback)).2 = rs) as <- by (by vm_compute).
  eapply wp_mono; [apply (dict_operations_refine (callbackDict (W := unit)) zero_libc_no_oom os os' _dictReset ∅ tt)|].
  - repeat constructor; (done || by exists []).
  - by constructor.
  - done.
  - by intros [ht rs'] w' [_ Hrs].
Defined.

(** ** Growing *)

(** [_dictNextPower] returns, for every size below [LONG_MAX], the least
    power of two from 4 up that is not smaller; the loop that doubles ends
    before it overflows. *)
Theorem dictNextPower_least (n : Z) :
  n < LONG_MAX ->
  ∃ k, _dictNextPower n = Ok (2 ^ k) ∧ 2 ≤ k ≤ 63 ∧ n ≤ 2 ^ k ∧
    ∀ j, 2 ≤ j -> n ≤ 2 ^ j -> k ≤ j.
Proof.
  intros Hn. destruct (dictNextPower_ok n Hn) as (k & E & Hk & Hle & Hmin).
  exists k. split_and!; [done | lia.. | done |].
  intros j Hj Hnj. destruct Hmin as [->|Hmin]; [done|].
  assert (k - 1 < j); [|lia]. apply (Z.pow_lt_mono_r_iff 2); lia.
Qed.

Lemma dictNextPower_least_witness :
  1000 < LONG_MAX ∧ (∃ k, _dictNextPower 1000 = Ok (2 ^ k) ∧ 2 ≤ k ≤ 63 ∧ 1000 ≤ 2 ^ k ∧
    ∀ j, 2 ≤ j -> 1000 ≤ 2 ^ j -> k ≤ j) ∧ _dictNextPower (LONG_MAX - 1) = Ok (2 ^ 63).
Proof.
  split_and!; [done | | by vm_compute].
  apply (dictNextPower_least 1000); done.
Defined.

(** growing a table to [2 ^ k] chains, large enough for its entries, puts
    every entry in its new chain: the table keeps its map and its count. *)
Theorem dictExpand_keeps {W} `{!Libc W} {K V A B : Type} (ty : dictType W K V)
    `{Countable A} `{!DictLaws ty A B} (no_oom : ¬ oom W)
    (ht : dict K V) (m : gmap A B) (k : Z) (w : W) :
  dict_rep ty ht m -> 2 ≤ k ≤ 31 -> used ht ≤ 2 ^ k ->
  wp (dictExpand ty ht (2 ^ k)) (λ '(ht', r) _,
    r = DICT_OK ∧ dict_rep ty ht' m ∧ size ht' = 2 ^ k ∧ used ht' = used ht) w.
Proof. by apply dictExpand_wp. Qed.

Lemma dictExpand_keeps_witness :
  let e := Entry (mk (bs "b") []) (Callback (Some 1) 0) in
  let ht := Dict (Some [[]; []; []; [e]]) 4 3 1 in
  wp (dictExpand callbackDict ht (2 ^ 5)) (λ '(ht', r) _,
    r = DICT_OK ∧ dict_rep callbackDict ht' {[bs "b" := Callback (Some 1) 0]}
    ∧ size ht' = 2 ^ 5 ∧ used ht' = 1) tt.
Proof.
  intros e ht.
  apply (dictExpand_keeps callbackDict zero_libc_no_oom ht {[bs "b" := Callback (Some 1) 0]} 5 tt).
  - apply (rep_table callbackDict ht _ 2 [[]; []; []; [e]] [[]; []; []; [(bs "b", Callback (Some 1) 0)]]);
      [done | lia | | | done | done].
    + split_and!; [| done |].
      * repeat constructor. by exists [].
      * intros i b Hb. do 4 (destruct i as [|i]; [injection Hb as <-; repeat constructor|]). done.
    + apply list.NoDup_singleton.
  - lia.
  - done.
Defined.

(** ** Iteration *)

(** a loop over a fresh iterator ends after as many steps as there are
    entries, and meets every entry of the map exactly once. *)
Theorem iterator_visits_all {W} `{!Libc W} {K V A B : Type} (ty : dictType W K V)
    `{Countable A} `{!DictLaws ty A B} (no_oom : ¬ oom W)
    (ht : dict K V) (m : gmap A B) (w : W) :
  dict_rep ty ht m -> size ht < 2 ^ 31 ->
  wp (it ← dictGetIterator ht; lift (iterate (S (Z.to_nat (used ht))) it))
     (λ es _, ∃ ps, Forall2 (entry_rep ty) es ps ∧ ps ≡ₚ map_to_list m) w.
Proof.
  intros Hm Hsize. unfold dictGetIterator. wp_steps.
  apply wp_malloc; [lia | done |]. intros blk w' Hb. wp_steps.
  pose proof (dict_rep_used ty _ _ Hm) as Hu.
  destruct Hm as [-> ->|k t c -> Hk Hc Hnd Hle ->].
  { eapply wp_lift_ok; [by vm_compute|]. exists []. by rewrite map_to_list_empty. }
  destruct Hc as (Ht & Hz & _).
  cbn [used size] in *. rewrite <- Hz.
  assert (Forall2 (entry_rep ty) (concat t) (concat c)) as Hes by (by apply Forall2_concat).
  apply Forall2_length in Hes as Hlen.
  eapply wp_lift_ok; [apply iterate_all; [by rewrite Hz | unfold zlen; lia]|].
  exists (concat c). split; [done|]. symmetry. by apply map_to_list_to_map.
Qed.

Lemma iterator_visits_all_witness :
  let e s i := Entry (mk (bs s) []) (Callback (Some i) 0) in
  let ht := Dict (Some [[]; []; [e "a" 1]; [e "b" 2]]) 4 3 2 in
  let m := list_to_map [(bs "a", Callback (Some 1) 0); (bs "b", Callback (Some 2) 0)]
           : gmap bytes redisCallback in
  wp (it ← dictGetIterator ht; lift (iterate 3 it))
     (λ es _, ∃ ps, Forall2 (entry_rep (callbackDict (W := unit))) es ps ∧ ps ≡ₚ map_to_list m) tt.
Proof.
  intros e ht m. apply (iterator_visits_all callbackDict zero_libc_no_oom ht m tt); [|done].
  apply (rep_table callbackDict ht m 2 [[]; []; [e "a" 1]; [e "b" 2]]
    [[]; []; [(bs "a", Callback (Some 1) 0)]; [(bs "b", Callback (Some 2) 0)]]);
    [done | lia | | | done | done].
  - split_and!; [| done |].
    + repeat constructor; by exists [].
    + intros i b Hb. do 4 (destruct i as [|i]; [injection Hb as <-; repeat constructor|]). done.
  - by apply (bool_decide_unpack _).
Defined.
