(* ===== verification/ReaderTheorems.v ===== *)
(** * ReaderTheorems: what the protocol reader promises (read.c, hiredis.c)

    The main theorems on the reader, each with an instance at concrete bytes:
    lines, numbers, replies in chunks, memory, and the errors of bytes that
    are not a reply. *)

From Stdlib Require Import ZArith Lia Ascii.
From stdpp Require Import base list strings gmap numbers.
From S2P Require Import Prelude Libc Printf Sds SdsText SdsFormat SdsQuote Reader Resp ReaderSpec Replies.

(** ** Lines *)

(** Where the first [\r\n] of a text is. *)
Lemma find_crlf_spec s :
  match find_crlf s with
  | Some n => ∃ b, s = take n s ++ CR :: LF :: b ∧ no_crlf (take n s)
  | None => no_crlf s
  end.
Proof.
  induction s as [|c s IH]; [by intros [|? ?] ?|].
  destruct s as [|d s]; [by intros [|? [|? ?]] ?|]. rewrite find_crlf_cons.
  case_decide as Hcd.
  { destruct Hcd as [-> ->]. exists s. split; [done|]. by intros [|? ?] ?. }
  assert (∀ k, no_crlf k -> (c = CR -> k !! 0%nat ≠ Some LF) -> no_crlf (c :: k)) as Hno.
  { intros k Hk Hc [|x a] b E; [|injection E as -> E; by apply (Hk a b)].
    injection E as -> ->. by apply Hc. }
  destruct (find_crlf (d :: s)) as [n|]; cbn [fmap option_fmap option_map].
  - destruct IH as (b & E & Hn). exists b. split; [by rewrite E at 1|]. cbn [take].
    destruct n as [|n]; [by intros [|? [|? ?]] ?|]. apply Hno; [done|].
    intros -> [= ->]. by apply Hcd.
  - apply Hno; [done|]. intros -> [= ->]. by apply Hcd.
Qed.

(** [seekNewline] returns the offset of the first [\r\n] within the
    length it is given, and NULL exactly when there is none, although it
    reads one byte past that length. *)
Theorem seekNewline_first (s tl : bytes) :
  zlen s < 2 ^ 31 ->
  ∃ o, seekNewline (s ++ NUL :: tl) (zlen s) = Ok o ∧
    match o with
    | Some p => ∃ a b, s = a ++ CR :: LF :: b ∧ p = zlen a ∧ no_crlf a
    | None => no_crlf s
    end.
Proof.
  intros Hs. eexists. split; [by apply seekNewline_ok|].
  pose proof (find_crlf_spec s) as H. destruct (find_crlf s) as [n|]; [|done].
  destruct H as (b & E & Hn). cbn [fmap option_fmap option_map]. exists (take n s), b.
  split_and!; [done | | done]. unfold zlen. rewrite length_take.
  apply (f_equal length) in E. rewrite length_app, length_take in E. cbn in E. lia.
Qed.

Lemma seekNewline_first_witness :
  let s := bs "a" ++ [CR; "b"%char; CR; LF; CR; LF] in
  (∃ o, seekNewline (s ++ NUL :: []) (zlen s) = Ok o ∧
    match o with
    | Some p => ∃ a b, s = a ++ CR :: LF :: b ∧ p = zlen a ∧ no_crlf a
    | None => no_crlf s
    end) ∧ seekNewline (s ++ [NUL]) (zlen s) = Ok (Some 3).
Proof. intros s. split; [|by vm_compute]. apply (seekNewline_first s []). done. Defined.

(** ** Replies *)

(** C8: a new reader that is fed the bytes of a reply in any chunks reports
    nothing before the last byte, then builds in the heap the tree of that
    reply and no other node; the bytes after the reply stay unread. *)
Theorem reader_roundtrip {X} `{!Libc X} (no_oom : ¬ oom X) (rep : reply) (extra : bytes)
    (chunks : list bytes) (x : X) (h : heap) :
  wf rep -> (depth rep ≤ 8)%nat -> zlen (encode rep) < 2 ^ 29 ->
  Forall (λ c, zlen c < 2 ^ 29) chunks -> concat chunks = encode rep ++ extra ->
  wp (o ← redisReaderCreate; r ← lift (deref o); read_reply (Some defaultFunctions) r chunks)
     (λ '(r, st, o, cs) w,
        st = REDIS_OK ∧ (∃ l D hn, o = Obj l ∧ tree hn l rep D ∧ dom hn = D ∧ D ## dom h ∧ snd w = hn ∪ h) ∧
        ∃ un, between 0 r un ∧ un ++ concat cs = extra) (x, h).
Proof.
  intros Hwf Hd Hlen Hcs Hcat.
  wp_step.
  eapply wp_mono.
  { apply (wp_alloc_only same_heap); [unfold redisReaderCreate, redisReaderCreateWithFunctions, c_calloc; alloc|].
    by apply (redisReaderCreate_ok (world_no_oom no_oom) 0). }
  intros o [x1 h1] [(r & -> & Hb) Hh]. unfold same_heap in Hh. cbn in Hh. subst h1. wp_step.
  eapply wp_lift_ok; [done|]. by apply (read_reply_default no_oom r [] rep).
Qed.

Lemma reader_roundtrip_witness :
  let rep := RArray [RInteger (-5); RArray [RString [CR; LF; NUL]; RNil]; RStatus (bs "OK")] in
  let chunks := [bs "*3" ++ [CR]; [LF] ++ bs ":-5" ++ [CR; LF]; bs "*2" ++ [CR; LF] ++ bs "$3" ++ [CR; LF; CR];
                 [LF; NUL; CR; LF] ++ bs "$-1" ++ [CR; LF] ++ bs "+OK" ++ [CR]; LF :: bs ":7"; [CR; LF]] in
  wp (o ← redisReaderCreate; r ← lift (deref o); read_reply (Some defaultFunctions) r chunks)
     (λ '(r, st, o, cs) w,
        st = REDIS_OK ∧ (∃ l D hn, o = Obj l ∧ tree hn l rep D ∧ dom hn = D ∧ D ## dom (∅ : heap) ∧ snd w = hn ∪ ∅) ∧
        ∃ un, between 0 r un ∧ un ++ concat cs = bs ":7" ++ [CR; LF]) (tt, ∅).
Proof.
  intros rep chunks.
  apply (reader_roundtrip zero_libc_no_oom rep (bs ":7" ++ [CR; LF]) chunks tt ∅).
  - cbn. split_and!; try done. by intros [|? [|? [|? ?]]] ?.
  - cbn. lia.
  - done.
  - by repeat constructor.
  - by vm_compute.
Defined.

(** ** Memory *)

(** Reading a reply, and freeing the object. *)
Definition read_and_free {X} `{!Libc X} (r : redisReader nat) (chunks : list bytes) :
    M (world X) (redisReader nat * Z) :=
  '(r, st, o, _) ← read_reply (Some defaultFunctions) r chunks;
  _ ← freeReplyObject o;
  mret (r, st).

(** C18: [freeReplyObject] frees every node of the reply the reader built,
    once, and nothing else: the heap is the one before. *)
Theorem freeReplyObject_restores {X} `{!Libc X} (no_oom : ¬ oom X) (r : redisReader nat)
    (rep : reply) (extra : bytes) (chunks : list bytes) (x : X) (h : heap) :
  between 0 r [] -> wf rep -> (depth rep ≤ 8)%nat -> zlen (encode rep) < 2 ^ 29 ->
  Forall (λ c, zlen c < 2 ^ 29) chunks -> concat chunks = encode rep ++ extra ->
  wp (read_and_free r chunks) (λ '(r, st) w, st = REDIS_OK ∧ snd w = h) (x, h).
Proof.
  intros. unfold read_and_free. wp_step.
  eapply wp_mono; [by apply (read_reply_default no_oom r [] rep chunks extra)|].
  intros [[[r1 st] o] cs] [x1 h1] (-> & (l & D & hn & -> & Htree & Hdom & Hdisj & Hh) & _).
  cbn in Hh. subst h1. wp_step. unfold wp at 1.
  rewrite (freeReplyObject_ok h hn l rep D x1) by done. by wp_steps.
Qed.

(** A reader as it is created. *)
Definition new_reader (unread : bytes) : redisReader nat :=
  Reader 0 (replicate 128 NUL) (Some (mk unread [])) 0 (zlen unread) REDIS_READER_MAX_BUF
    (replicate 9 (Task 0 0 0 Null None 0)) (-1) Null 0.

Lemma new_reader_between unread : zlen unread < 2 ^ 30 -> between 0 (new_reader unread) unread.
Proof.
  intros Hn. exists []. split_and!; try done. split; try done. exists (mk unread []).
  split; [done|]. exists []. split; [done|]. zl.
Qed.

Lemma freeReplyObject_restores_witness :
  let rep := RArray [RArray []; RArray [RError (bs "E"); RInteger 1]; RNilArray] in
  wp (read_and_free (new_reader []) [encode rep]) (λ '(r, st) w, st = REDIS_OK ∧ snd w = ∅) (tt, ∅).
Proof.
  intros rep.
  apply (freeReplyObject_restores zero_libc_no_oom (new_reader []) rep [] [encode rep] tt ∅).
  - by apply new_reader_between.
  - cbn. split_and!; try done. by intros [|? [|? ?]] ?.
  - cbn. lia.
  - done.
  - by repeat constructor.
  - by vm_compute.
Defined.

(** ** Errors *)

(** The text of the error of an unknown type byte: the byte is quoted as
    [sdscatrepr] quotes it. *)
Definition byte_message (c : ascii) : bytes :=
  bs "Protocol error, got " ++ (DQUOTE :: repr_char c) ++ (DQUOTE :: bs " as reply type byte").

Lemma protocol_text c :
  ('(cbuf, _) ← chrtos (replicate 8 NUL) 8 c;
   '(sbuf, _) ← vsnprintf (replicate 128 NUL) 128
                  (cstr "Protocol error, got %s as reply type byte") [VPtr cbuf];
   Ok sbuf) = Ok (byte_message c ++ NUL :: replicate (Z.to_nat (127 - zlen (byte_message c))) NUL).
Proof. each_byte c. Qed.

Lemma protocol_prints c : ∃ cbuf n1 n2 tl,
  chrtos (replicate 8 NUL) 8 c = Ok (cbuf, n1) ∧
  vsnprintf (replicate 128 NUL) 128 (cstr "Protocol error, got %s as reply type byte") [VPtr cbuf]
  = Ok (byte_message c ++ NUL :: tl, n2).
Proof.
  pose proof (protocol_text c) as E. revert E.
  generalize (replicate (Z.to_nat (127 - zlen (byte_message c))) NUL) as tl.
  generalize (chrtos (replicate 8 NUL) 8 c) as p.
  generalize (byte_message c) as text. intros text [[cbuf n1]|] tl; [|intros E; discriminate E].
  cbn [mbind res_bind]. destruct (vsnprintf _ _ _ [VPtr cbuf]) as [[sbuf n2]|] eqn:Eq;
    [|intros E; discriminate E].
  intros [= ->]. by exists cbuf, n1, n2, tl.
Qed.

Lemma byte_message_ok c : NUL ∉ byte_message c ∧ zlen (byte_message c) ≤ 48.
Proof.
  split; [|by apply (bool_decide_unpack _); each_byte c].
  unfold byte_message. pose proof (repr_char_no_NUL c).
  intros Hin. apply elem_of_app in Hin as [Hin|Hin].
  { by revert Hin; apply (bool_decide_unpack _). }
  apply elem_of_app in Hin as [Hin|Hin].
  { by apply elem_of_cons in Hin as [Hin|Hin]. }
  revert Hin. by apply (bool_decide_unpack _).
Qed.

Section errors.
Context {W : Type} `{!Libc W} {Ob : Type} (fn : option (redisReplyObjectFunctions W Ob)).

(** The state of a reader after an error. *)
Definition failed (ty : Z) (text : bytes) (r : redisReader Ob) : Prop :=
  r_err r = ty ∧ (∃ tl, r_errstr r = text ++ NUL :: tl) ∧ r_buf r = None ∧ r_ridx r = -1.

Lemma reader_error_wp r ty text tl w :
  r_reply r = Null ∨ (∀ free o w, fn ≫= freeObject = Some free -> wp (free o) (λ _ _, True) w) ->
  zlen (r_errstr r) = 128 -> NUL ∉ text -> zlen text ≤ 126 ->
  wp (__redisReaderSetError fn r ty (text ++ NUL :: tl)) (λ r' _, failed ty text r') w.
Proof.
  intros Hfree Hlen Ht H127. unfold __redisReaderSetError. wp_step.
  apply wp_mono with (λ _ _, True).
  { destruct (r_reply r) eqn:E; [by wp_steps|..];
      (destruct Hfree as [?|Hfree]; [done|]; destruct (fn ≫= freeObject) as [free|] eqn:Ef;
       [wp_step; eapply wp_mono; [by apply Hfree|]; intros; by wp_steps | by wp_steps]). }
  intros reply w1 _.
  destruct (split_zlen (r_errstr r) (zlen text)) as (a & d & E & Ha); [pose proof (zlen_nonneg text); lia|].
  rewrite E in Hlen |- *. rewrite zlen_app in Hlen. destruct d as [|d0 d]; [rewrite zlen_nil in Hlen; lia|].
  assert (memcpy (a ++ d0 :: d) 0 (text ++ NUL :: tl) (zlen text) = Ok (text ++ d0 :: d)) as Em.
  { rewrite (memcpy_app [] a (d0 :: d) _ 0 (zlen text)) by zl. by rewrite take_zlen. }
  destruct (r_buf r); wp_step; (eapply wp_lift_ok; [by apply strlen_app|]);
    rewrite bool_decide_true by lia; wp_step; (eapply wp_lift_ok; [exact Em|]);
    wp_step; (eapply wp_lift_ok; [by apply store_app|]); wp_steps; split_and!; try done; by exists d.
Qed.

(** An error is final. *)
Lemma failed_sticky ty text r : ty ≠ 0 -> failed ty text r -> ∀ b n w,
  redisReaderFeed fn r b n w = Ok (r, REDIS_ERR, w) ∧
  redisReaderGetReply fn r w = Ok (r, REDIS_ERR, Null, w).
Proof.
  intros Hty (He & _) b n w. unfold redisReaderFeed, redisReaderGetReply.
  rewrite !bool_decide_true by congruence. done.
Qed.

(** The loop at an item whose type byte is unknown. *)
Lemma bad_byte_wp fuel r fs rep c rd un w :
  r_reply r = Null ∨ (∀ free o w, fn ≫= freeObject = Some free -> wp (free o) (λ _ _, True) w) ->
  at_item 0 r fs rep (-1) rd (c :: un) -> zlen (r_errstr r) = 128 -> type_of_byte c = None ->
  wp (process_loop fn (S fuel) r) (λ r' _, failed REDIS_ERR_PROTOCOL (byte_message c) r') w.
Proof.
  intros Hfree Hat Hlen Hc. cbn [process_loop].
  rewrite (at_ridx _ _ _ _ _ _ _ Hat), bool_decide_true by zl. wp_step.
  pose proof (item_byte fn 0 r fs rep c rd un w Hat) as E. rewrite Hc in E.
  eapply wp_eq; [exact E|]. wp_step.
  apply wp_mono with (λ r' _, failed REDIS_ERR_PROTOCOL (byte_message c) r').
  - destruct (protocol_prints c) as (cbuf & n1 & n2 & tl & E1 & E2).
    unfold __redisReaderSetErrorProtocolByte. wp_step. eapply wp_lift_ok; [exact E1|]. cbv beta iota.
    wp_step. eapply wp_lift_ok; [exact E2|]. cbv beta iota.
    destruct (byte_message_ok c). apply reader_error_wp; [done | done | done | lia].
  - intros r' w' Hf. wp_steps. by rewrite bool_decide_false.
Qed.

(** A call that finds a new reply. *)
Lemma getReply_start_wp ty text r un w :
  between 0 r un -> un ≠ [] -> ty ≠ 0 ->
  (∀ r1 rd w, r_errstr r1 = r_errstr r -> r_reply r1 = Null ->
    (∀ rep, wf rep -> (depth rep ≤ 8)%nat -> at_item 0 r1 [] rep (-1) rd un) ->
    wp (process_loop fn (2 + Z.to_nat (r_len r1)) r1) (λ r' _, failed ty text r') w) ->
  wp (redisReaderGetReply fn r) (λ '(r', st, o) _,
    st = REDIS_ERR ∧ o = Null ∧ failed ty text r') w.
Proof.
  intros (rd0 & Hl & Hrd & Hi & Hr) Hne Hty Hloop. unfold redisReaderGetReply.
  rewrite bool_decide_false by (intros H; apply H; apply Hl).
  rewrite bool_decide_false.
  2:{ rewrite (live_len _ _ _ _ Hl), zlen_app. destruct un; [done|]. zl. }
  rewrite Hi, bool_decide_true by done. wp_step.
  eapply wp_mono; [by apply (park 0 r rd0 un)|]. intros r1 w1 (-> & Hn & He & Hat). wp_step.
  eapply wp_mono; [apply (Hloop r1 rd0 w He); [|done]|].
  { apply (at_reply _ _ _ _ _ _ _ (Hat RNil I ltac:(cbn; lia))). }
  intros r2 w2 Hf. rewrite bool_decide_true by (destruct Hf as [-> _]; done).
  by wp_steps.
Qed.
End errors.

(** At a byte that is no reply type the reader reports a protocol error
    that quotes the byte, drops its buffer, and returns that error from then
    on, whatever it is fed. *)
Theorem reader_bad_type_byte {W Ob} `{!Libc W} (fn : option (redisReplyObjectFunctions W Ob))
    (r : redisReader Ob) (c : ascii) (rest : bytes) (w : W) :
  between 0 r (c :: rest) -> zlen (r_errstr r) = 128 -> type_of_byte c = None ->
  wp (redisReaderGetReply fn r) (λ '(r', st, o) _,
    st = REDIS_ERR ∧ o = Null ∧ r_err r' = REDIS_ERR_PROTOCOL ∧
    (∃ tl, r_errstr r' = byte_message c ++ NUL :: tl) ∧ r_buf r' = None ∧
    ∀ b n w', redisReaderFeed fn r' b n w' = Ok (r', REDIS_ERR, w') ∧
      redisReaderGetReply fn r' w' = Ok (r', REDIS_ERR, Null, w')) w.
Proof.
  intros Hb Hlen Hc. eapply wp_mono.
  { apply (getReply_start_wp fn REDIS_ERR_PROTOCOL (byte_message c) r (c :: rest)); try done.
    intros r1 rd w1 He Hr Hat. eapply (bad_byte_wp fn _ r1 [] RNil); [by left | | by rewrite He | done].
    apply Hat; [done | cbn; lia]. }
  intros [[r' st] o] w' (-> & -> & Hf). pose proof Hf as (He & Htext & Hbuf & _).
  split_and!; try done. intros b n w2. by apply (failed_sticky fn REDIS_ERR_PROTOCOL (byte_message c)).
Qed.

Lemma reader_bad_type_byte_witness :
  between 0 (new_reader [NUL; "x"%char]) [NUL; "x"%char] ∧
  wp (redisReaderGetReply (Some (defaultFunctions (X := unit))) (new_reader [NUL; "x"%char])) (λ '(r', st, o) _,
    st = REDIS_ERR ∧ o = Null ∧ r_err r' = REDIS_ERR_PROTOCOL ∧
    (∃ tl, r_errstr r' = (bs "Protocol error, got " ++ (DQUOTE :: bs "\x00") ++ (DQUOTE :: bs " as reply type byte")) ++ NUL :: tl) ∧
    r_buf r' = None ∧
    ∀ b n w', redisReaderFeed (Some defaultFunctions) r' b n w' = Ok (r', REDIS_ERR, w') ∧
      redisReaderGetReply (Some defaultFunctions) r' w' = Ok (r', REDIS_ERR, Null, w')) (tt, ∅).
Proof.
  assert (between 0 (new_reader [NUL; "x"%char]) [NUL; "x"%char]) as Hb by (by apply new_reader_between).
  split; [exact Hb|].
  exact (reader_bad_type_byte (Some defaultFunctions) (new_reader [NUL; "x"%char]) NUL [ "x"%char] (tt, ∅) Hb eq_refl eq_refl).
Defined.

(** Nested arrays of one element. *)
Fixpoint nest (n : nat) : reply :=
  match n with O => RNil | S n' => RArray [nest n'] end.

Definition open_array : bytes := bs "*1" ++ [CR; LF].

Lemma nest_wf n : wf (nest n).
Proof. induction n as [|n IH]; [done|]. by cbn. Qed.
Lemma nest_depth n : depth (nest n) = n.
Proof. induction n as [|n IH]; [done|]. cbn in *. lia. Qed.

Section depth.
Context {W : Type} `{!Libc W} {Ob : Type} (fn : option (redisReplyObjectFunctions W Ob)).
Hypothesis array_ok : ∀ v n w, wp (new_array fn v n) (λ o _, is_null o = false) w.
Hypothesis nil_ok : ∀ v w, wp (new_nil fn v) (λ o _, is_null o = false) w.
Hypothesis free_ok : ∀ free o w, fn ≫= freeObject = Some free -> wp (free o) (λ _ _, True) w.

Lemma build_nest n parent idx w : wp (build fn 0 parent idx (nest n)) (λ _ _, True) w.
Proof.
  revert parent idx w. induction n as [|n IH]; intros parent idx w; cbn [nest build build_list].
  - unfold made. wp_step. wp_step. eapply wp_mono; [apply nil_ok|]. intros o w' Ho.
    wp_steps; [by rewrite Ho | done].
  - unfold made. wp_step. wp_step. eapply wp_mono; [apply array_ok|]. intros o w' Ho.
    wp_steps. { by rewrite Ho. } eapply wp_mono; [apply IH|]. intros. by wp_steps.
Qed.

Definition closing (fs : list (@frame Ob)) : Prop := Forall (λ f, f_rest f = []) fs.

Lemma run_nest fs n w : closing fs -> wp (run fn 0 fs (nest n)) (λ _ _, True) w.
Proof.
  intros Hfs. unfold run. wp_step. eapply wp_mono; [apply build_nest|]. intros o w' _. clear w.
  revert o w'. induction Hfs as [|f fs Hf Hfs IH]; intros o w'; cbn [finish]; [by wp_steps|].
  rewrite Hf. cbn [build_list]. wp_steps. apply IH.
Qed.

Definition depth_message : bytes := bs "No support for nested multi bulk replies with depth > 7".

Lemma nested_loop n : ∀ fuel fs r rd un w, closing fs -> (length fs + n = 8)%nat -> (n < fuel)%nat ->
  at_item 0 r fs (nest n) (-1) rd (concat (replicate n open_array) ++ "*"%char :: un) ->
  zlen (r_errstr r) = 128 ->
  wp (process_loop fn fuel r) (λ r' _, failed REDIS_ERR_PROTOCOL depth_message r') w.
Proof.
  induction n as [|n IH]; intros fuel fs r rd un w Hfs Hn Hf Hat He; (destruct fuel as [|fuel]; [lia|]);
    cbn [process_loop]; rewrite (at_ridx _ _ _ _ _ _ _ Hat), bool_decide_true by zl; wp_step.
  - destruct (item_byte fn 0 r fs _ _ rd un w Hat) as (el & ob & E). eapply wp_eq; [exact E|].
    unfold process_typed. rewrite bool_decide_false, bool_decide_false, bool_decide_true by (done || naive_solver).
    unfold processMultiBulkItem. set (r1 := set_stack _ _ _).
    assert (r_ridx r1 = zlen fs) as Hi by apply Hat. rewrite Hi.
    pose proof (live_stack _ _ _ _ (at_live _ _ _ _ _ _ _ Hat)) as H9. wp_step.
    eapply wp_lift_ok.
    { apply task_at_ok. cbn [r1 set_stack r_rstack]. by rewrite list_lookup_insert_eq by lia. }
    assert (zlen fs = 8) as -> by (unfold zlen; lia). rewrite bool_decide_true by done. wp_step.
    eapply wp_mono; [apply (reader_error_wp fn r1 REDIS_ERR_PROTOCOL depth_message [])|].
    + by right.
    + done.
    + by apply (bool_decide_unpack _).
    + done.
    + intros r2 w2 Hfail. wp_steps. by rewrite bool_decide_false.
  - cbn [nest replicate concat] in Hat. rewrite <- app_assoc in Hat.
    change (open_array ++ ?s) with (type_byte (nest (S n)) :: crlf (itoa (zlen [nest n])) ++ s) in Hat.
    destruct (item_untyped fn 0 r fs (nest (S n)) rd _ w Hat) as (r1 & E & He1 & Hat1).
    eapply wp_eq; [exact E|]. unfold process_typed.
    rewrite bool_decide_false, bool_decide_false, bool_decide_true by (done || naive_solver).
    eapply wp_mono; [eapply (array_open_ok fn 0 r1 fs (nest n) [] _ _ (λ _ _, True)); [done|]|].
    { by apply (run_nest fs (S n)). }
    intros [r2 st] w2 (-> & He2 & o & Hat2 & _). rewrite bool_decide_true by done.
    eapply (IH fuel); [| | |exact Hat2|].
    + by constructor.
    + cbn [length]. lia.
    + lia.
    + by rewrite He2, He1.
Qed.
End depth.

(** a reply that starts with nine arrays, each the first item of the one
    before, is refused with an error, for any creation functions that have
    memory; eight are accepted, as [reader_roundtrip] states. *)
Theorem reader_depth_limit {W Ob} `{!Libc W} (fn : option (redisReplyObjectFunctions W Ob))
    (array_ok : ∀ v n w, wp (new_array fn v n) (λ o _, is_null o = false) w)
    (nil_ok : ∀ v w, wp (new_nil fn v) (λ o _, is_null o = false) w)
    (free_ok : ∀ free o w, fn ≫= freeObject = Some free -> wp (free o) (λ _ _, True) w)
    (r : redisReader Ob) (rest : bytes) (w : W) :
  between 0 r (concat (replicate 8 open_array) ++ "*"%char :: rest) -> zlen (r_errstr r) = 128 ->
  wp (redisReaderGetReply fn r) (λ '(r', st, o) _,
    st = REDIS_ERR ∧ o = Null ∧ r_err r' = REDIS_ERR_PROTOCOL ∧
    (∃ tl, r_errstr r' = depth_message ++ NUL :: tl) ∧ r_buf r' = None) w.
Proof.
  intros Hb Hlen. eapply wp_mono.
  { apply (getReply_start_wp fn REDIS_ERR_PROTOCOL depth_message r
      (concat (replicate 8 open_array) ++ "*"%char :: rest)); try done.
    intros r1 rd w1 He Hr Hat.
    assert (at_item 0 r1 [] (nest 8) (-1) rd (concat (replicate 8 open_array) ++ "*"%char :: rest)) as Hat8
      by (apply Hat; [apply nest_wf | by rewrite nest_depth]).
    eapply (nested_loop fn array_ok nil_ok free_ok 8); [constructor | done | | exact Hat8 | by rewrite He].
    rewrite (live_len _ _ _ _ (at_live _ _ _ _ _ _ _ Hat8)). rewrite !zlen_app. change (zlen (concat (replicate 8 open_array))) with 32.
    pose proof (zlen_nonneg rd). pose proof (zlen_nonneg ("*"%char :: rest)). lia. }
  intros [[r' st] o] w' (-> & -> & (He & Htext & Hbuf & _)). done.
Qed.

Lemma reader_depth_limit_witness :
  let s := concat (replicate 8 open_array) ++ "*"%char :: bs "1" in
  let r := Reader (Ob := nat) 0 (replicate 128 NUL) (Some (mk s [])) 0 (zlen s) REDIS_READER_MAX_BUF
    (replicate 9 (Task 0 0 0 Null None 0)) (-1) Null 0 in
  wp (redisReaderGetReply (W := unit) None r) (λ '(r', st, o) _,
    st = REDIS_ERR ∧ o = Null ∧ r_err r' = REDIS_ERR_PROTOCOL ∧
    (∃ tl, r_errstr r' = depth_message ++ NUL :: tl) ∧ r_buf r' = None) tt.
Proof.
  intros s r. apply (reader_depth_limit (W := unit) None) with (rest := bs "1"); try done.
  by apply (new_reader_between s).
Defined.

(** the count of an array is not checked: [*-2] makes an array object
    that says it has [2 ^ 64 - 2] elements and holds none. *)
Theorem negative_array_count :
  match redisReaderGetReply (Some defaultFunctions) (new_reader (bs "*-2" ++ [CR; LF])) (tt, ∅) with
  | Ok (_, st, Obj l, (_, h)) =>
      st = REDIS_OK ∧ h !! l = Some (Reply REDIS_REPLY_ARRAY 0 0 None (2 ^ 64 - 2) None)
  | _ => False
  end.
Proof. by vm_compute. Qed.
