(* ===== verification/CommandTheorems.v ===== *)
(** * CommandTheorems: what the command formatters promise (hiredis.c)

    The main theorems on formatting a command, each with an instance at a
    concrete command: the formats, the three formatters, injection, and the
    reader as the inverse. *)

From Stdlib Require Import ZArith Lia Ascii.
From stdpp Require Import base list strings gmap numbers.
From S2P Require Import Prelude Libc Printf Sds SdsText SdsFormat Reader Resp ReaderSpec Replies.
From S2P Require Import Command CommandSpec CommandFormat ReaderTheorems.

(** ** Formats *)

(** C13: [redisvFormatCommand] writes, for a format whose conversions are
    [%s], [%b], [%%] and the plain integer ones, the command whose arguments
    [fmt_args] reads off the format: the block holds the protocol text of the
    command and a terminator, and the length returned is that of the text;
    [-1] is returned only when memory runs out. *)
Theorem redisvFormatCommand_encodes {W} `{!Libc W} (f ftl : bytes) (ap : list varg)
    (ss : list bytes) (w : W) :
  NUL ∉ f -> fmt_args f ap [] false = Some ss ->
  zlen (encode (command ss)) + SDS_MAX_PREALLOC < 2 ^ 31 ->
  wp (redisvFormatCommand true (f ++ NUL :: ftl) ap) (λ '(t, len) _, match t with
    | Some b => b = encode (command ss) ++ [NUL] ∧ len = zlen (encode (command ss))
    | None => len = -1 ∧ oom W
    end) w.
Proof. by apply redisvFormatCommand_wp. Qed.

Lemma redisvFormatCommand_encodes_witness :
  let f := bs "SET  key:%d %b%%" in
  let ap := [VInt (-3); VPtr [CR; LF; NUL; " "%char]; VSize 4] in
  let ss := [bs "SET"; bs "key:-3"; [CR; LF; NUL; " "%char; "%"%char]] in
  fmt_args f ap [] false = Some ss ∧
  wp (redisvFormatCommand true (f ++ [NUL]) ap) (λ '(t, len) _, match t with
    | Some b => b = encode (command ss) ++ [NUL] ∧ len = zlen (encode (command ss))
    | None => len = -1 ∧ oom unit
    end) tt.
Proof.
  intros f ap ss. assert (fmt_args f ap [] false = Some ss) as E by (by vm_compute). split; [exact E|].
  apply (redisvFormatCommand_encodes f [] ap ss tt); [by apply (bool_decide_unpack _) | exact E | done].
Defined.

(** The number of arguments of a format. *)
Fixpoint count_args (f : bytes) (touched : bool) : Z :=
  match f with
  | [] => if touched then 1 else 0
  | c :: f1 =>
      if decide (c = "%"%char) then match f1 with [] => 1 | _ :: f2 => count_args f2 true end
      else if decide (c = " "%char) then (if touched then 1 else 0) + count_args f1 false
      else count_args f1 true
  end.

Lemma count_args_ok f : ∀ ap cur touched ss,
  fmt_args f ap cur touched = Some ss -> zlen ss = count_args f touched.
Proof.
  remember (length f) as n eqn:Hn. revert f Hn.
  induction (lt_wf n) as [n _ IH]. intros f -> ap cur touched ss E.
  destruct f as [|c f1]; cbn [fmt_args count_args] in *; [by destruct touched; injection E as <-|].
  case_decide.
  - destruct f1 as [|next f2]; [by injection E as <-|].
    destruct (directive_text next ap) as [[t ap']|]; [|done].
    eapply (IH (length f2)); [simpl; lia | done | done].
  - case_decide; [|eapply (IH (length f1)); [simpl; lia | done | done]].
    destruct touched.
    + apply fmap_Some in E as (o & E & ->). rewrite zlen_cons.
      rewrite (IH (length f1) ltac:(simpl; lia) f1 eq_refl _ _ _ _ E). lia.
    + rewrite (IH (length f1) ltac:(simpl; lia) f1 eq_refl _ _ _ _ E). lia.
Qed.

(** C36: the number of arguments of the command depends on the format alone:
    no text put in its place by a conversion, whatever blanks, line ends or
    terminators it holds, adds, splits or removes an argument. *)
Theorem redisvFormatCommand_no_injection {W} `{!Libc W} (no_oom : ¬ oom W) (f ftl : bytes)
    (ap : list varg) (ss : list bytes) (w : W) :
  NUL ∉ f -> fmt_args f ap [] false = Some ss ->
  zlen (encode (command ss)) + SDS_MAX_PREALLOC < 2 ^ 31 ->
  wp (redisvFormatCommand true (f ++ NUL :: ftl) ap) (λ '(t, _) _,
    ∃ args, t = Some (encode (command args) ++ [NUL]) ∧ zlen args = count_args f false) w.
Proof.
  intros Hf Hss Hroom. eapply wp_mono; [by apply (redisvFormatCommand_wp f ftl ap ss)|].
  intros [[b|] len] w'; [|intros [_ ?]; by destruct no_oom]. intros [-> ->].
  exists ss. split; [done|]. by eapply count_args_ok.
Qed.

Lemma redisvFormatCommand_no_injection_witness :
  let f := bs "SET %s %s" in
  let ap := [VPtr (cstr "a b"); VPtr (bs "1" ++ [CR; LF] ++ cstr "DEL x")] in
  wp (redisvFormatCommand true (f ++ [NUL]) ap) (λ '(t, _) _,
    ∃ args, t = Some (encode (command args) ++ [NUL]) ∧ zlen args = 3) tt.
Proof.
  intros f ap.
  apply (redisvFormatCommand_no_injection zero_libc_no_oom f [] ap
           [bs "SET"; bs "a b"; bs "1" ++ [CR; LF] ++ bs "DEL x"] tt);
    [by apply (bool_decide_unpack _) | by vm_compute | done].
Defined.

(** ** Argument vectors *)

(** [redisFormatCommandArgv] and [redisFormatSdsCommandArgv] write the
    same text, that of the command, and return its length, for arguments of
    any bytes with their lengths or C strings without. *)
Theorem formatters_agree {W} `{!Libc W} (no_oom : ¬ oom W) (argv : list bytes)
    (argvlen : option (list Z)) (ss : list bytes) (w : W) :
  argv_rep argv argvlen ss -> zlen (encode (command ss)) + SDS_MAX_PREALLOC + 1 < 2 ^ 31 ->
  wp ('(b, len) ← redisFormatCommandArgv true argv argvlen;
      '(s, len') ← redisFormatSdsCommandArgv true argv argvlen;
      mret (b, len, s, len'))
     (λ '(b, len, s, len') _,
        b = Some (encode (command ss) ++ [NUL]) ∧ len = zlen (encode (command ss)) ∧ len' = len ∧
        ∃ s', s = Some s' ∧ sds_rep s' (encode (command ss))) w.
Proof.
  intros Hargv Hroom. unfold SDS_MAX_PREALLOC in *. wp_step.
  eapply wp_mono; [apply (redisFormatCommandArgv_wp argv argvlen ss); [done | lia]|].
  intros [[b|] len] w1; [|intros [_ ?]; by destruct no_oom]. intros [-> ->]. wp_step.
  eapply wp_mono; [apply (redisFormatSdsCommandArgv_wp no_oom argv argvlen ss);
    [done | unfold SDS_MAX_PREALLOC; lia]|].
  intros [s len] w2 (s' & -> & Hs & ->). wp_steps. split_and!; try done. by exists s'.
Qed.

Lemma formatters_agree_witness :
  let ss := [bs "SET"; []; [CR; LF]] in
  argv_rep ss (Some [3; 0; 2]) ss ∧
  wp ('(b, len) ← redisFormatCommandArgv true ss (Some [3; 0; 2]);
      '(s, len') ← redisFormatSdsCommandArgv true ss (Some [3; 0; 2]);
      mret (b, len, s, len'))
     (λ '(b, len, s, len') _,
        b = Some (encode (command ss) ++ [NUL]) ∧ len = zlen (encode (command ss)) ∧ len' = len ∧
        ∃ s', s = Some s' ∧ sds_rep s' (encode (command ss))) tt.
Proof.
  intros ss. assert (argv_rep ss (Some [3; 0; 2]) ss) as H.
  { split; [done|]. repeat constructor; exists []; by rewrite app_nil_r. }
  split; [exact H|]. apply (formatters_agree zero_libc_no_oom ss (Some [3; 0; 2]) ss tt H). done.
Defined.

(** ** Lengths *)

(** ** The reader as the inverse *)

Lemma concat_small (l : list bytes) n : zlen (concat l) < n -> Forall (λ c, zlen c < n) l.
Proof.
  induction l as [|c l IH]; intros H; [constructor|]. cbn [concat] in H. rewrite zlen_app in H.
  pose proof (zlen_nonneg c). pose proof (zlen_nonneg (concat l)).
  constructor; [lia | apply IH; lia].
Qed.

(** Formatting a command and reading it, cut into chunks. *)
Definition format_and_read {X} `{!Libc X} (argv : list bytes) (argvlen : option (list Z))
    (cut : bytes -> list bytes) (r : redisReader nat) :
    M (world X) (redisReader nat * Z * vptr nat * list bytes) :=
  '(b, len) ← redisFormatCommandArgv true argv argvlen;
  b ← lift (deref b);
  read_reply (Some defaultFunctions) r (cut (take (Z.to_nat len) b)).

(** C9: a reader that is fed a formatted command, in any chunks, returns the
    array of its arguments, byte for byte. *)
Theorem format_read_roundtrip {X} `{!Libc X} (no_oom : ¬ oom X) (argv : list bytes)
    (argvlen : option (list Z)) (ss : list bytes) (cut : bytes -> list bytes)
    (r : redisReader nat) (x : X) (h : heap) :
  argv_rep argv argvlen ss -> zlen (encode (command ss)) < 2 ^ 29 ->
  (∀ t, concat (cut t) = t) -> between 0 r [] ->
  wp (format_and_read argv argvlen cut r) (λ '(r', st, o, _) w,
    st = REDIS_OK ∧ reply_in h (RArray (map RString ss)) o w) (x, h).
Proof.
  intros Hargv Hroom Hcut Hb. unfold format_and_read. pose proof (zlen_bulks_count ss).
  pose proof (zlen_command ss). pose proof (zlen_nonneg (itoa (zlen ss))). wp_step.
  eapply wp_mono.
  { apply (wp_alloc_only same_heap); [|apply (redisFormatCommandArgv_wp argv argvlen ss); [done | lia]].
    unfold redisFormatCommandArgv. cbn [negb]. alloc. }
  intros [[b|] len] [x1 h1] [Hpost Hh]; [|destruct Hpost as [_ Ho]; by destruct (world_no_oom no_oom)].
  unfold same_heap in Hh. cbn in Hh. subst h1. destruct Hpost as [-> ->]. wp_step.
  eapply wp_lift_ok; [done|]. rewrite take_zlen.
  eapply wp_mono; [apply (read_reply_default no_oom r [] (command ss) (cut (encode (command ss))) [] x1 h)|].
  - done.
  - done.
  - apply wf_array. split; [unfold zlen in *; rewrite length_map; lia|]. by apply list.Forall_fmap, list.Forall_true.
  - apply (depth_array _ 7). apply list.Forall_fmap, list.Forall_true. intros s. cbn. lia.
  - done.
  - apply concat_small. by rewrite Hcut.
  - by rewrite Hcut, app_nil_r.
  - intros [[[r' st] o] cs] w' (-> & Hin & _). done.
Qed.

Lemma format_read_roundtrip_witness :
  let ss := [bs "GET"; [NUL; LF]] in
  wp (format_and_read ss (Some [3; 2]) (map (λ c, [c])) (new_reader [])) (λ '(r', st, o, _) w,
    st = REDIS_OK ∧ reply_in ∅ (RArray (map RString ss)) o w) (tt, ∅).
Proof.
  intros ss. apply (format_read_roundtrip zero_libc_no_oom ss (Some [3; 2]) ss (map (λ c, [c])) (new_reader []) tt ∅).
  - split; [done|]. repeat constructor; exists []; by rewrite app_nil_r.
  - done.
  - intros t. induction t as [|c t IH]; [done|]. cbn. by rewrite IH.
  - by apply new_reader_between.
Defined.

(** ** Malformed formats *)

(** a format that ends inside a conversion is read past its terminator:
    [strchr] finds the terminator among the conversion characters. *)
Theorem format_open_conversion :
  redisFormatCommand true (cstr "GET %5") [VInt 1] tt = Stuck.
Proof. by vm_compute. Qed.
