(* ===== verification/ClientTheorems.v ===== *)
(** * ClientTheorems: what a blocking connection promises (hiredis.c, net.c)

    The main theorems on connections, each with an instance on a scripted
    peer: a command and its reply, the output buffer, and connecting. *)

From Stdlib Require Import ZArith Lia Ascii.
From stdpp Require Import base list strings gmap numbers.
From S2P Require Import Prelude Libc Printf Sds SdsText SdsFormat Reader Resp ReaderSpec Replies.
From S2P Require Import Command CommandSpec CommandFormat Kernel Context Net NetSpec ContextSpec ClientSpec.
From S2P Require Import ReaderTheorems.

(** ** A peer for the instances *)

(** A blocking connection on the descriptor 3. *)
Definition connected : redisContext nat :=
  Ctx 0 (replicate 128 NUL) 3 (Z.lor REDIS_BLOCK REDIS_CONNECTED) (Some (mk [] [])) (Some (new_reader []))
    REDIS_CONN_TCP None None None 0 None.

Lemma connected_idle : idle connected (new_reader []).
Proof. split_and!; try done. by apply new_reader_between. Qed.

(** It takes five bytes, is interrupted, and takes the rest; its reply comes
    in two pieces, the second with the start of something else. *)
Definition slow_reads : list read_result :=
  [Chunk (bs "$2" ++ [CR]); ReadFail EINTR; Chunk ([LF] ++ bs "hi" ++ [CR; LF] ++ bs ":1")].

Definition slow_peer : script :=
  Script 0 [] {[3]} [Accept 5; WriteFail EINTR; Accept 100] (slow_reads ++ [Eof]) [].

Lemma slow_peer_ok :
  peer connected slow_peer (RString (bs "hi")) (bs ":1") slow_reads [Eof].
Proof.
  split; try done.
  - repeat constructor; cbn; tauto.
  - apply (delivers_chunk (bs "$2" ++ [CR])); [done | done |]. apply delivers_eintr.
    apply (delivers_chunk ([LF] ++ bs "hi" ++ [CR; LF] ++ bs ":1") [] []); [done | done | constructor].
  - cbn. lia.
Qed.

(** ** A command and its reply *)

(** C1: on an idle blocking connection [redisCommandArgv] sends what was in
    the output buffer and then the command, every byte once and in order,
    however the socket takes them and however often it is interrupted, and
    returns the object of the peer's reply, however the reply is cut into
    reads; the connection has no error and what came after the reply is kept
    for the next one. *)
Theorem redisCommandArgv_exchange {A} `{!Libc A} (no_oom : ¬ oom A) (fuel : nat)
    (c : redisContext nat) (r : redisReader nat) (s : sdshdr) (b : bytes)
    (argv : list bytes) (argvlen : option (list Z)) (ss : list bytes) (rep : reply) (extra : bytes)
    (l rest : list read_result) (a : A) (k : script) (h : heap) :
  idle c r -> c_obuf c = Some s -> sds_rep s b -> argv_rep argv argvlen ss ->
  zlen b + zlen (encode (command ss)) + SDS_MAX_PREALLOC + 1 < 2 ^ 31 ->
  peer c k rep extra l rest -> (length (k_writes k) < fuel)%nat -> (length l ≤ fuel)%nat ->
  wp (redisCommandArgv (Some defaultFunctions) fuel c argv argvlen) (λ '(c', o) w',
    answered (k_sent k ++ b ++ encode (command ss)) rep extra rest h c' o w') ((a, k), h).
Proof. by apply redisCommandArgv_wp. Qed.

Lemma redisCommandArgv_exchange_witness :
  let ss := [bs "GET"; bs "k"] in
  wp (redisCommandArgv (Some (defaultFunctions (X := scripted_world unit))) 4 connected ss (Some [3; 1]))
    (λ '(c', o) w',
      answered (encode (command ss)) (RString (bs "hi")) (bs ":1") [Eof] ∅ c' o w') ((tt, slow_peer), ∅).
Proof.
  intros ss.
  apply (redisCommandArgv_exchange zero_libc_no_oom 4 connected (new_reader []) (mk [] []) [] ss (Some [3; 1]) ss
    (RString (bs "hi")) (bs ":1") slow_reads [Eof] tt slow_peer ∅ connected_idle); try done.
  - by exists [].
  - split; [done|]. repeat constructor; exists []; by rewrite app_nil_r.
  - apply slow_peer_ok.
  - cbn. lia.
  - cbn. lia.
Defined.

(** [redisCommand] does the same for a format: the command sent is the
    one whose arguments the format and its values say. *)
Theorem redisCommand_exchange {A} `{!Libc A} (no_oom : ¬ oom A) (fuel : nat)
    (c : redisContext nat) (r : redisReader nat) (s : sdshdr) (b f ftl : bytes)
    (ap : list varg) (ss : list bytes) (rep : reply) (extra : bytes)
    (l rest : list read_result) (a : A) (k : script) (h : heap) :
  idle c r -> c_obuf c = Some s -> sds_rep s b ->
  NUL ∉ f -> fmt_args f ap [] false = Some ss ->
  zlen b + zlen (encode (command ss)) + SDS_MAX_PREALLOC + 1 < 2 ^ 31 ->
  peer c k rep extra l rest -> (length (k_writes k) < fuel)%nat -> (length l ≤ fuel)%nat ->
  wp (redisCommand (Some defaultFunctions) fuel c (f ++ NUL :: ftl) ap) (λ '(c', o) w',
    answered (k_sent k ++ b ++ encode (command ss)) rep extra rest h c' o w') ((a, k), h).
Proof. by apply redisCommand_wp. Qed.

Lemma redisCommand_exchange_witness :
  let ss := [bs "SET"; bs "n"; bs "-1"] in
  wp (redisCommand (Some (defaultFunctions (X := scripted_world unit))) 4 connected
        (cstr "SET %s %d") [VPtr (cstr "n"); VInt (-1)])
    (λ '(c', o) w',
      answered (encode (command ss)) (RString (bs "hi")) (bs ":1") [Eof] ∅ c' o w') ((tt, slow_peer), ∅).
Proof.
  intros ss.
  apply (redisCommand_exchange zero_libc_no_oom 4 connected (new_reader []) (mk [] []) [] (bs "SET %s %d") []
    [VPtr (cstr "n"); VInt (-1)] ss
    (RString (bs "hi")) (bs ":1") slow_reads [Eof] tt slow_peer ∅ connected_idle); try done.
  - by exists [].
  - by apply (bool_decide_unpack _).
  - apply slow_peer_ok.
  - cbn. lia.
  - cbn. lia.
Defined.

(** C2: commands can be pipelined: on an idle blocking connection, appending
    any number of commands and then taking as many replies sends every command
    once, in order, after what was in the output buffer, and gives for each
    command, in order, the object of its reply, however the replies are cut
    into reads; the objects are disjoint and touch nothing that was there; the
    connection has no error and nothing left to send. *)
Theorem pipeline_replies {A} `{!Libc A} (no_oom : ¬ oom A) (fuel : nat)
    (c : redisContext nat) (r : redisReader nat) (s : sdshdr) (b : bytes)
    (cmds : list (list bytes)) (reps : list reply) (extra : bytes)
    (l rest : list read_result) (a : A) (k : script) (h : heap) :
  idle c r -> c_obuf c = Some s -> sds_rep s b -> cmds ≠ [] -> length cmds = length reps ->
  zlen b + zlen (concat (map (λ ss, encode (command ss)) cmds)) + SDS_MAX_PREALLOC + 1 < 2 ^ 31 ->
  replying c k reps extra l rest -> (length (k_writes k) < fuel)%nat -> (length l ≤ fuel)%nat ->
  wp (c ← append_commands c cmds; get_replies (length cmds) fuel c) (λ '(c', os) w',
    k_sent (script_of w') = k_sent k ++ b ++ concat (map (λ ss, encode (command ss)) cmds) ∧
    replies_in h reps os w' ∧ c_err c' = 0 ∧ empty_obuf c') ((a, k), h).
Proof.
  intros Hidle Hs Hb Hne Hlen Hroom Hpeer Hfw Hfl. wp_step. eapply wp_mono.
  { apply (append_commands_wp no_oom fuel c k b [] (encode_list reps ++ extra) rest); [|done].
    by eapply replying_ready. }
  intros c1 [[a1 k1] h1] (Hk & Hh & Hr). unfold script_of in Hk. cbn [fst snd] in *. subst k1 h1.
  rewrite Hlen. eapply wp_mono.
  { eapply (get_replies_wp no_oom); [exact Hr|apply Hpeer|reflexivity]. }
  intros [c2 os] w (Hos & b1 & b' & un & t & Eb & Hse & Hb' & _ & Hr2).
  rewrite (Hb' eq_refl) in * by (by destruct reps, cmds). rewrite app_nil_r in Eb. subst b1.
  split_and!; try done; apply Hr2.
Qed.

(** The peer sends two replies in three reads, cut within the first one. *)
Definition pipeline_reads : list read_result :=
  [Chunk (bs "+O"); ReadFail EINTR; Chunk (bs "K" ++ [CR; LF] ++ bs ":4"); Chunk (bs "2" ++ [CR; LF])].

Lemma pipeline_replies_witness :
  let cmds := [[bs "SET"; bs "k"; bs "v"]; [bs "INCR"; bs "n"]] in
  wp (c ← append_commands connected cmds; get_replies (length cmds) 4 c) (λ '(c', os) w',
    k_sent (script_of w') = [] ++ [] ++ concat (map (λ ss, encode (command ss)) cmds) ∧
    replies_in ∅ [RStatus (bs "OK"); RInteger 42] os w' ∧ c_err c' = 0 ∧ empty_obuf c')
    ((tt, Script 0 [] {[3]} [Accept 5; WriteFail EINTR] (pipeline_reads ++ [Eof]) []), ∅).
Proof.
  intros cmds.
  apply (pipeline_replies zero_libc_no_oom 4 connected (new_reader []) (mk [] []) [] cmds
    [RStatus (bs "OK"); RInteger 42] [] pipeline_reads [Eof] tt
    (Script 0 [] {[3]} [Accept 5; WriteFail EINTR] (pipeline_reads ++ [Eof]) []) ∅ connected_idle); try done.
  - by exists [].
  - split; try done.
    + repeat constructor; cbn; tauto.
    + apply (delivers_chunk (bs "+O")); [done|done|]. apply delivers_eintr.
      apply (delivers_chunk (bs "K" ++ [CR; LF] ++ bs ":4")); [done|done|].
      apply (delivers_chunk (bs "2" ++ [CR; LF]) [] []); [done|done|constructor].
    + repeat constructor; cbn; try lia. by intros [|? [|? [|? ?]]] ?.
  - cbn. lia.
Defined.

(** ** The output buffer *)

(** C14: one [redisBufferWrite] sends a prefix of the output buffer, exactly
    the bytes that the socket takes, and keeps the others, in their order: an
    empty buffer makes no call, a socket may take all, some or none of the
    bytes, and an error takes none.  [done] is set to whether the buffer is
    empty now whenever the function succeeds; it fails exactly on an error
    that is not an interruption nor, on a non-blocking connection, a full
    socket, and then it reports an I/O error and does not set [done].  The
    rest of the connection is as it was. *)
Theorem redisBufferWrite_conserves {A} `{!Libc A} (no_oom : ¬ oom A)
    (c : redisContext nat) (s : sdshdr) (b : bytes) (a : A) (k : script) (h : heap) :
  ctx_ok c -> c_err c = 0 -> c_obuf c = Some s -> sds_rep s b ->
  wp (redisBufferWrite (W := world (scripted_world A)) c) (λ '(c', st, done) w',
    writes_only c c' ((a, k), h) w' ∧ written c c' st done b ((a, k), h) w') ((a, k), h).
Proof.
  intros Hok Hc Hb Hs. eapply wp_mono; [by apply (redisBufferWrite_exact no_oom c s b)|].
  by intros [[c' st] o] w' [_ H].
Qed.

Lemma redisBufferWrite_conserves_witness :
  let c := set_obuf connected (Some (mk (bs "abcdefgh") [])) in
  wp (redisBufferWrite (W := world (scripted_world unit)) c) (λ '(c', st, done) w',
    writes_only c c' ((tt, slow_peer), ∅) w' ∧ written c c' st done (bs "abcdefgh") ((tt, slow_peer), ∅) w')
    ((tt, slow_peer), ∅).
Proof.
  intros c.
  apply (redisBufferWrite_conserves zero_libc_no_oom c (mk (bs "abcdefgh") []) (bs "abcdefgh") tt slow_peer ∅);
    [done..|]. by exists [].
Defined.

(** C35: the loop that flushes the output buffer ends after at most one round
    more than the socket has partial results to give: everything is sent, or
    one of them was an error and it is reported. *)
Theorem write_all_terminates {A} `{!Libc A} (no_oom : ¬ oom A) (fuel : nat)
    (c : redisContext nat) (s : sdshdr) (b : bytes) (a : A) (k : script) (h : heap) :
  ctx_ok c -> c_err c = 0 -> c_obuf c = Some s -> sds_rep s b ->
  (length (k_writes k) < fuel)%nat ->
  wp (write_all (W := world (scripted_world A)) fuel c) (λ '(c', st) w',
    (st = REDIS_OK ∧ c_err c' = 0 ∧ empty_obuf c' ∧ k_sent (script_of w') = k_sent k ++ b) ∨
    (st = REDIS_ERR ∧ c_err c' = REDIS_ERR_IO ∧ Exists (λ x, fatal x c) (k_writes k))) ((a, k), h).
Proof.
  intros Hok Hc Hb Hs Hf. eapply wp_mono; [by apply (write_all_wp no_oom fuel c s b)|].
  intros [c' st] w' (_ & (b1 & b2 & s' & -> & Hsent & Hob & Hs' & _) & [(-> & He & Hempty)|Hfatal]);
    [left | by right].
  destruct Hempty as (s2 & Hob2 & Hs2). split_and!; [done | done | by exists s2 |].
  rewrite Hob in Hob2. injection Hob2 as ->.
  assert (b2 = []) as ->. { apply zlen_zero. by rewrite <- (sds_rep_len s2 b2), (sds_rep_len s2 []). }
  by rewrite app_nil_r.
Qed.

Lemma write_all_terminates_witness :
  let c := set_obuf connected (Some (mk (bs "abcdefgh") [])) in
  wp (write_all (W := world (scripted_world unit)) 4 c) (λ '(c', st) w',
    (st = REDIS_OK ∧ c_err c' = 0 ∧ empty_obuf c' ∧ k_sent (script_of w') = [] ++ bs "abcdefgh") ∨
    (st = REDIS_ERR ∧ c_err c' = REDIS_ERR_IO ∧ Exists (λ x, fatal x c) (k_writes slow_peer)))
    ((tt, slow_peer), ∅).
Proof.
  intros c.
  apply (write_all_terminates zero_libc_no_oom 4 c (mk (bs "abcdefgh") []) (bs "abcdefgh") tt slow_peer ∅);
    [done | done | done | by exists [] | cbn; lia].
Defined.

(** ** Connecting *)

(** C34: whatever the resolver and the sockets answer, connecting ends: with
    [REDIS_OK] and the connected flag and no new error, or with [REDIS_ERR]
    and an error set, the flag [REDIS_REUSEADDR] aside; the buffers are as
    they were. *)
Theorem redisContextConnectBindTcp_status {W Ob} `{!Libc W, !Kernel W} (no_oom : ¬ oom W)
    (c : redisContext Ob) (ad : arg bytes) (port : Z) (tmo : arg timeval) (src : arg bytes) (w : W) :
  ctx_ok c -> - 2 ^ 31 ≤ port < 2 ^ 31 -> string_arg (c_host c) ad ->
  (∀ p, src = Given (Some p) -> is_cstring p ∧ zlen p < 2 ^ 64) ->
  wp (redisContextConnectBindTcp c ad port tmo src) (λ p _,
    ctx_ok p.1 ∧ c_obuf p.1 = c_obuf c ∧ c_reader p.1 = c_reader c ∧
    ((p.2 = REDIS_OK ∧ c_flags p.1 = Z.lor (c_flags c) REDIS_CONNECTED ∧ c_err p.1 = c_err c) ∨
     (p.2 = REDIS_ERR ∧ c_flags p.1 = c_flags c ∧
      (c_err p.1 ≠ 0 ∨ has_flag c REDIS_REUSEADDR = true)))) w.
Proof. by apply redisContextConnectBindTcp_wp. Qed.

Lemma redisContextConnectBindTcp_status_witness :
  let c := set_fd connected (-1) in
  wp (redisContextConnectBindTcp (W := scripted_world unit) c (Given (Some (cstr "localhost"))) 6379 (Given None)
        (Given (Some (cstr "10.0.0.1")))) (λ p _,
    ctx_ok p.1 ∧ c_obuf p.1 = c_obuf c ∧ c_reader p.1 = c_reader c ∧
    ((p.2 = REDIS_OK ∧ c_flags p.1 = Z.lor (c_flags c) REDIS_CONNECTED ∧ c_err p.1 = c_err c) ∨
     (p.2 = REDIS_ERR ∧ c_flags p.1 = c_flags c ∧
      (c_err p.1 ≠ 0 ∨ has_flag c REDIS_REUSEADDR = true))))
    (tt, Script 0 [] ∅ [] [] [0; 0; - EHOSTUNREACH]).
Proof.
  intros c. assert (∀ s, NUL ∉ bs s -> zlen (cstr s) < 2 ^ 64 -> is_cstring (cstr s) ∧ zlen (cstr s) < 2 ^ 64) as Hs.
  { intros s Hn Hz. split; [|done]. by exists (bs s), []. }
  apply (redisContextConnectBindTcp_status (W := scripted_world unit)).
  - apply scripted_no_oom, zero_libc_no_oom.
  - done.
  - lia.
  - apply Hs; [by apply (bool_decide_unpack _) | done].
  - intros p [= <-]. apply Hs; [by apply (bool_decide_unpack _) | done].
Defined.

(** with [REDIS_REUSEADDR] the error can stay blank: a failing
    [setsockopt] ends the attempt without setting it. *)
Theorem reuse_error_lost :
  match redisConnectBindNonBlockWithReuse (Ob := unit) (W := scripted_world unit) None
          (cstr "localhost") 6379 (Some (cstr "10.0.0.1"))
          (tt, Script 0 [] ∅ [] [] [0; 0; 2; 2; 0; -22]) with
  | Ok (Some c, _) => c_err c = 0 ∧ has_flag c REDIS_CONNECTED = false
  | _ => False
  end.
Proof. by vm_compute. Qed.

(** a retry after [EADDRNOTAVAIL] opens a new socket and forgets the old
    one: two descriptors stay open for one connection. *)
Theorem retry_leaks_socket :
  match redisConnectBindNonBlockWithReuse (Ob := unit) (W := scripted_world unit) None
          (cstr "localhost") 6379 None
          (tt, Script 0 [] ∅ [] [] [0; 0; 2; 2; - EADDRNOTAVAIL; 0; 2; 2; 0]) with
  | Ok (Some c, (_, k)) => c_err c = 0 ∧ c_fd c = 4 ∧ bool_decide (k_open k = {[3; 4]}) = true
  | _ => False
  end.
Proof. by vm_compute. Qed.
