(* ===== verification/AsyncTheorems.v ===== *)
(** * AsyncTheorems: what the asynchronous client promises (async.c)

    The main theorems on the asynchronous client, each with an instance whose
    callbacks keep a journal: the queue of callbacks, arguments of a command,
    issuing commands, delivering replies, and freeing. *)

From Stdlib Require Import ZArith Lia Ascii.
From stdpp Require Import base list strings gmap numbers.
From S2P Require Import Prelude Libc Printf Sds SdsFormat Dict Reader Resp ReaderSpec Replies.
From S2P Require Import Command CommandSpec CommandFormat Kernel Context Net NetSpec ContextSpec ClientSpec.
From S2P Require Import Async AsyncSpec AsyncCommand AsyncLoop AsyncFree ReaderTheorems.

(** ** Callbacks that keep a journal *)
Definition journal : Type := list (Z * Z * Z).

#[export] Program Instance journal_libc : Libc journal := {|
  malloc n a := (Some (replicate (Z.to_nat n) NUL), a)
|}.
Next Obligation. intros n w b w' Hn [= <- <-]. rewrite zlen_replicate. lia. Qed.

Lemma journal_no_oom : ¬ oom journal.
Proof. by intros (n & a & E). Qed.

Abbreviation JW := (world (scripted_world journal)).

Definition note (e : Z * Z * Z) : M JW unit := λ '((a, k), h), Ok (tt, ((a ++ [e], k), h)).

(** The callback [fn] notes itself, its argument and the integer of its
    reply, -1 for no reply. *)
Definition journal_user (fn : Z) (ac : redisAsyncContext JW) (o : vptr nat) (priv : Z) :
    M JW (redisAsyncContext JW) :=
  match o with
  | Obj l => nd ← get_node l; _ ← note (fn, priv, integer nd); mret ac
  | _ => _ ← note (fn, priv, -1); mret ac
  end.

Definition journal_notify (f st : Z) : M JW unit := note (f, st, -2).

Definition reply_entry (fn priv : Z) (rep : reply) : Z * Z * Z :=
  (fn, priv, match rep with RInteger z => z | _ => 0 end).

Lemma journal_user_ok fn ac o priv rep h w : reply_in h rep o w ->
  wp (journal_user fn ac o priv) (λ ac' w', reacts ac ac' ∧ script_of w' = script_of w ∧
    snd w' = snd w ∧ log_of id w' = log_of id w ++ [reply_entry fn priv rep]) w.
Proof.
  destruct w as [[a k] hp]. intros (l & D & hn & -> & Htree & Hdom & Hdisj & Hh). cbn in Hh. subst hp.
  assert (∃ nd, (hn ∪ h) !! l = Some nd ∧ integer nd = match rep with RInteger z => z | _ => 0 end) as (nd & Hl & Hi).
  { destruct Htree as [l rep Hrep Hl|l xs ls D Hl _ _]; eexists; (split; [by apply lookup_union_Some_l|]); [|done].
    by destruct rep. }
  unfold journal_user. wp_step. unfold wp at 1, get_node. cbn [snd]. rewrite Hl. wp_step.
  unfold wp at 1, note. wp_steps. split_and!; [|done|done|].
  - split; [|done|].
    + exists (c_obuf (ac_c ac)). by destruct (ac_c ac).
    + intros cbs Hq. exists []. by rewrite app_nil_r.
  - unfold log_of, reply_entry. cbn. by rewrite Hi.
Qed.

Lemma journal_null_ok fn ac priv w :
  wp (journal_user fn ac Null priv) (λ ac' w', ac' = ac ∧ outcome id w w' [(fn, priv, -1)]) w.
Proof. by destruct w as [[a k] h]. Qed.

Lemma journal_notify_ok f st w :
  wp (journal_notify f st) (λ _ w', outcome id w w' [(f, st, -2)]) w.
Proof. by destruct w as [[a k] h]. Qed.

(** ** The queue of callbacks *)
Inductive queue_op := Push (cb : redisCallback) | Shift.

Fixpoint queue_run {W} `{!Libc W} (os : list queue_op) (l : redisCallbackList) :
    M W (redisCallbackList * list (option redisCallback)) :=
  match os with
  | [] => mret (l, [])
  | Push cb :: os' => '(l, _) ← __redisPushCallback l cb; queue_run os' l
  | Shift :: os' =>
      '(l, _, o) ← lift (__redisShiftCallback l);
      '(l, out) ← queue_run os' l;
      mret (l, o :: out)
  end.

Fixpoint fifo_run (os : list queue_op) (q : list redisCallback) :
    list redisCallback * list (option redisCallback) :=
  match os with
  | [] => (q, [])
  | Push cb :: os' => fifo_run os' (q ++ [cb])
  | Shift :: os' => let '(q', out) := fifo_run os' (List.tl q) in (q', List.hd_error q :: out)
  end.

(** the linked list of callbacks, with its head and tail pointers, is a
    first-in first-out queue: any pushes and shifts take out the callbacks a
    list would, in order, and leave a well-formed list that holds the rest. *)
Theorem callback_queue_fifo {W} `{!Libc W} (no_oom : ¬ oom W) (os : list queue_op) :
  ∀ (l : redisCallbackList) (q : list redisCallback) (w : W), queue l q ->
  wp (queue_run os l) (λ '(l', out) _,
    queue l' (fifo_run os q).1 ∧ out = (fifo_run os q).2) w.
Proof.
  induction os as [|[cb|] os IH]; intros l q w Hq; cbn [queue_run fifo_run].
  - by wp_steps.
  - wp_step. eapply wp_mono; [by apply push_wp|].
    intros [l' st] w' [[_ Hq']|(_ & _ & ?)]; [by apply IH | by destruct no_oom].
  - wp_step. destruct q as [|cb q].
    + eapply wp_lift_ok; [by apply shift_empty|]. cbv beta iota. wp_step.
      eapply wp_mono; [by apply IH|]. intros [l' out] w' [Hq' ->]. wp_steps. cbn [List.tl List.hd_error].
      by destruct (fifo_run os []).
    + destruct (shift_cons _ _ _ Hq) as (l1 & E & Hl1). eapply wp_lift_ok; [exact E|]. cbv beta iota. wp_step.
      eapply wp_mono; [by apply IH|]. intros [l' out] w' [Hq' ->]. wp_steps. cbn [List.tl List.hd_error].
      by destruct (fifo_run os q).
Qed.

Lemma callback_queue_fifo_witness :
  let cb i := Callback (Some i) i in
  let os := [Push (cb 1); Push (cb 2); Shift; Push (cb 3); Shift; Shift; Shift; Push (cb 4)] in
  wp (queue_run os no_callbacks) (λ '(l', out) _,
    queue l' [cb 4] ∧ out = [Some (cb 1); Some (cb 2); Some (cb 3); None]) tt.
Proof.
  intros cb os. apply (callback_queue_fifo zero_libc_no_oom os no_callbacks [] tt queue_empty).
Defined.

(** ** The arguments of a command *)

(** Stepping over the arguments, as the commands' names and channels are
    found. *)
Fixpoint arguments (fuel : nat) (p : bytes) : res (list bytes) :=
  match fuel with
  | O => Stuck
  | S fuel' =>
      o ← nextArgument p;
      match o with
      | None => Ok []
      | Some (p', str, len) =>
          let arg := take (Z.to_nat len) str in
          args ← arguments fuel' p'; Ok (arg :: args)
      end
  end.

Lemma arguments_bulks ss tl : ∀ fuel, Forall (λ s, zlen s < 2 ^ 31) ss -> (length ss < fuel)%nat ->
  arguments fuel (bulks ss ++ NUL :: tl) = Ok ss.
Proof.
  induction ss as [|s ss IH]; intros fuel Hss Hf; (destruct fuel as [|fuel]; [cbn in Hf; lia|]); cbn [arguments].
  { unfold bulks. cbn [map concat app]. by rewrite nextArgument_end. }
  apply list.Forall_cons in Hss as [Hs Hss].
  assert (bulks (s :: ss) ++ NUL :: tl = bulk s ++ bulks ss ++ NUL :: tl) as ->
    by (unfold bulks; cbn; by rewrite <- app_assoc).
  pose proof (nextArgument_bulk [] s (bulks ss ++ NUL :: tl) ltac:(apply not_elem_of_nil) ltac:(apply not_elem_of_nil) Hs) as E.
  cbn [app] in E. rewrite E. rsimpl.
  rewrite IH by (done || (cbn in Hf; lia)). rsimpl. by rewrite take_zlen.
Qed.

(** from a formatted command [nextArgument] takes its arguments one
    after the other, whatever bytes they hold, and stops at its end. *)
Theorem nextArgument_roundtrip (ss : list bytes) (tl : bytes) :
  ss ≠ [] -> zlen (encode (command ss)) < 2 ^ 31 ->
  arguments (S (length ss)) (encode (command ss) ++ NUL :: tl) = Ok ss.
Proof.
  intros Hne Hlen. destruct ss as [|s ss]; [done|].
  pose proof (zlen_command (s :: ss)). pose proof (zlen_nonneg (itoa (zlen (s :: ss)))).
  pose proof (zlen_bulks_count (s :: ss)). pose proof (zlen_nonneg (s :: ss)).
  assert (∀ x, x ∈ s :: ss -> zlen x < 2 ^ 31) as Hx.
  { intros x Hin. apply zlen_bulks_in in Hin. lia. }
  remember (length (s :: ss)) as f eqn:Hf. cbn [arguments]. rewrite encode_command.
  replace ((("*"%char :: itoa (zlen (s :: ss)) ++ [CR; LF]) ++ bulks (s :: ss)) ++ NUL :: tl)
    with (("*"%char :: itoa (zlen (s :: ss)) ++ [CR; LF]) ++ bulk s ++ bulks ss ++ NUL :: tl)
    by (unfold bulks; cbn [map concat]; by rewrite <- !app_assoc).
  rewrite nextArgument_bulk; [| | |by apply Hx; left].
  2, 3: (apply not_elem_of_cons; split; [done|]; apply not_elem_of_app; split;
       [apply itoa_free; [lia | intros [Ha Hb]; by apply Ha || by apply Hb] | letters]).
  rsimpl. rewrite (arguments_bulks ss tl); [rsimpl; by rewrite take_zlen | | rewrite Hf; cbn; lia].
  apply list.Forall_forall. intros x Hin. apply Hx. by right.
Qed.

Lemma nextArgument_roundtrip_witness :
  let ss := [bs "SUBSCRIBE"; bs "$3"; []; [CR; LF; NUL]] in
  ss ≠ [] ∧ arguments 5 (encode (command ss) ++ NUL :: bs "$junk") = Ok ss.
Proof. intros ss. split; [done|]. apply (nextArgument_roundtrip ss (bs "$junk")); done. Defined.

(** ** A connection for the instances *)
Definition journal_world_no_oom : ¬ oom (scripted_world journal) := scripted_no_oom journal_no_oom.

(** Connected, not blocking, with [n] callbacks of replies pending. *)
Definition async_connection (n : nat) : redisAsyncContext JW :=
  Async (Ctx 0 (replicate 128 NUL) 3 REDIS_CONNECTED (Some (mk [] [])) (Some (new_reader []))
           REDIS_CONN_TCP None None None 0 None)
    0 false (Hooks None None None None None) (Some 99) None
    (match n with
     | O => no_callbacks
     | 1%nat => CallbackList {[0%nat := (Callback (Some 7) 70, None)]} (Some 0%nat) (Some 0%nat)
     | _ => CallbackList {[0%nat := (Callback (Some 7) 70, Some 1%nat); 1%nat := (Callback (Some 8) 80, None)]}
              (Some 0%nat) (Some 1%nat)
     end)
    no_callbacks (Dict None 0 0 0) (Dict None 0 0 0).

Lemma one_pending : queue (ac_replies (async_connection 1)) [Callback (Some 7) 70].
Proof. exists [0%nat]. split_and!; [|done|repeat constructor; set_solver]. split; [done|]. by exists None. Qed.

Lemma two_pending : queue (ac_replies (async_connection 2)) [Callback (Some 7) 70; Callback (Some 8) 80].
Proof.
  exists [0%nat; 1%nat]. split_and!; [|done|repeat constructor; set_solver].
  split; [done|]. exists (Some 1%nat). split; [done|]. split; [done|]. by exists None.
Qed.

(** ** Commands *)

(** C10: issuing a command on a context that stands for an abstract client
    does to it what [submit] does to the client: the command's bytes are
    appended to the output, its callback joins the queue of replies, the
    channels or patterns it subscribes to get it, a command issued while
    subscribed joins the other queue, and a closing context refuses it and
    stays as it is; the name is compared without case. *)
Theorem asyncCommand_refines {X} `{!Libc X, !Kernel (world X)} (no_oom : ¬ oom X)
    (ac : redisAsyncContext (world X)) (s : client) (fn : option Z) (privdata : Z)
    (name : bytes) (args : list bytes) (tl : bytes) (w : world X) :
  models no_oom ac s -> CR ∉ name ->
  zlen (a_out s) + zlen (encode (command (name :: args))) + SDS_MAX_PREALLOC < 2 ^ 31 ->
  Z.of_nat (base.size (a_channels s)) + zlen args ≤ 2 ^ 31 ->
  Z.of_nat (base.size (a_patterns s)) + zlen args ≤ 2 ^ 31 ->
  (∀ w, wp (hook (addWrite (ac_ev ac))) (λ _ _, True) w) ->
  wp (__redisAsyncCommand ac fn privdata (encode (command (name :: args)) ++ NUL :: tl)
        (zlen (encode (command (name :: args))))) (λ '(ac', st) _,
    st = snd (submit (Callback fn privdata) name args s) ∧
    models no_oom ac' (fst (submit (Callback fn privdata) name args s))) w.
Proof.
  intros. eapply wp_mono; [by eapply command_wp|]. by intros [ac' st] w' (? & _ & ?).
Qed.

Lemma asyncCommand_refines_witness :
  let s := Client REDIS_CONNECTED [] [Callback (Some 7) 70] [] ∅ ∅ in
  let cmd := encode (command [bs "PSubscribe"; bs "a*"; bs "b*"]) in
  let s' := Client (Z.lor REDIS_CONNECTED REDIS_SUBSCRIBED) cmd [Callback (Some 7) 70] [] ∅
              (<[bs "b*" := Callback (Some 9) 0]> {[bs "a*" := Callback (Some 9) 0]}) in
  wp (__redisAsyncCommand (async_connection 1) (Some 9) 0 (cmd ++ [NUL]) (zlen cmd)) (λ '(ac', st) _,
    st = REDIS_OK ∧ models journal_world_no_oom ac' s') (([], Script 0 [] ∅ [] [] []), ∅).
Proof.
  intros s cmd s'.
  apply (asyncCommand_refines journal_world_no_oom (async_connection 1) s (Some 9) 0 (bs "PSubscribe") [bs "a*"; bs "b*"] []).
  - split; try done; [by exists (mk [] []); split; [|exists []] | apply one_pending | apply queue_empty | by constructor..].
  - letters.
  - done.
  - done.
  - done.
  - intros w. by wp_steps.
Defined.

(** a callback that frees the context it runs in only flags it: nothing
    pending is run and no memory or socket is touched, and from then on every
    command is refused and changes nothing. *)
Theorem asyncFree_in_callback {X} `{!Libc X, !Kernel (world X)}
    (user : Z -> redisAsyncContext (world X) -> vptr nat -> Z -> M (world X) (redisAsyncContext (world X)))
    (notify : Z -> Z -> M (world X) unit) (fuel : nat) (ac : redisAsyncContext (world X)) (w : world X) :
  ac_flag ac REDIS_IN_CALLBACK = true ->
  redisAsyncFree user notify fuel ac w = Ok (Some (ac_add ac REDIS_FREEING), w) ∧
  ∀ fn privdata cmd len w',
    __redisAsyncCommand (ac_add ac REDIS_FREEING) fn privdata cmd len w'
    = Ok (ac_add ac REDIS_FREEING, REDIS_ERR, w').
Proof.
  unfold ac_flag, has_flag. intros Hf. apply bool_decide_eq_true_1 in Hf.
  assert (∀ f, Z.land f REDIS_FREEING ≠ 0 -> ac_flag (ac_add ac REDIS_FREEING) f = true) as Hfree.
  { intros f Hne. unfold ac_flag, has_flag. cbn [ac_add ac_c set_c add_flag set_flags c_flags].
    apply bool_decide_eq_true_2. rewrite Z.land_lor_distr_l. intros H. apply Z.lor_eq_0_iff in H as [_ H].
    by rewrite Z.land_comm in H. }
  split.
  - unfold redisAsyncFree. unfold ac_flag at 1, has_flag. cbn [ac_add ac_c set_c add_flag set_flags c_flags].
    rewrite Z.land_lor_distr_l. rewrite bool_decide_true; [done|].
    intros H. by apply Z.lor_eq_0_iff in H as [H _].
  - intros fn privdata cmd len w'. unfold __redisAsyncCommand. by rewrite Hfree.
Qed.

Lemma asyncFree_in_callback_witness :
  let ac := ac_add (async_connection 2) REDIS_IN_CALLBACK in
  let w : JW := (([], Script 0 [] ∅ [] [] []), ∅) in
  redisAsyncFree journal_user journal_notify 0 ac w = Ok (Some (ac_add ac REDIS_FREEING), w) ∧
  ∀ fn privdata cmd len w',
    __redisAsyncCommand (ac_add ac REDIS_FREEING) fn privdata cmd len w'
    = Ok (ac_add ac REDIS_FREEING, REDIS_ERR, w').
Proof. intros ac w. apply (asyncFree_in_callback journal_user journal_notify 0 ac w). done. Defined.

(** ** Replies *)

(** C7: however the peer's replies are cut into reads, the event loop runs
    the callback of the n-th pending command on the n-th reply, once and in
    order, frees every reply, and leaves the callbacks that have none yet at
    the front of the queue; callbacks may append further commands. *)
Theorem async_replies_delivered {A E} `{!Libc A} (no_oom : ¬ oom A)
    (user : Z -> redisAsyncContext (world (scripted_world A)) -> vptr nat -> Z ->
            M (world (scripted_world A)) (redisAsyncContext (world (scripted_world A))))
    (notify : Z -> Z -> M (world (scripted_world A)) unit)
    (log : A -> list E) (event : Z -> Z -> reply -> E)
    (log_malloc : ∀ n a, log (snd (malloc n a)) = log a)
    (user_ok : ∀ fn ac o priv rep h w, reply_in h rep o w ->
       wp (user fn ac o priv) (λ ac' w', reacts ac ac' ∧ script_of w' = script_of w ∧
         snd w' = snd w ∧ log_of log w' = log_of log w ++ [event fn priv rep]) w)
    (fuel : nat) (ac : redisAsyncContext (world (scripted_world A))) (r : redisReader nat)
    (cbs : list redisCallback) (reps : list reply) (l rest : list read_result)
    (a : A) (k : script) (h : heap) :
  calm (c_flags (ac_c ac)) -> ctx_ok (ac_c ac) -> c_err (ac_c ac) = 0 -> harmless log (ac_ev ac) ->
  c_reader (ac_c ac) = Some r -> between 0 r [] -> queue (ac_replies ac) cbs ->
  Forall readable reps -> (length reps ≤ length cbs)%nat -> (length reps < fuel)%nat ->
  k_reads k = l ++ rest -> delivers l (encode_list reps) ->
  wp (event_loop user notify (length l) fuel ac) (λ o w', ∃ ac' new,
    o = Some ac' ∧ queue (ac_replies ac') (drop (length reps) cbs ++ new) ∧ snd w' = h ∧
    k_reads (script_of w') = rest ∧
    log (fst (fst w')) = log a ++ events event cbs reps) ((a, k), h).
Proof.
  intros. eapply (event_loop_wp no_oom user notify log event log_malloc user_ok); try done.
  by apply between_starved.
Qed.

Lemma async_replies_delivered_witness :
  let l := [Chunk (bs ":1"); ReadFail EINTR; Chunk (bs "0" ++ [CR; LF] ++ bs "*1" ++ [CR]);
            Chunk ([LF] ++ bs ":5" ++ [CR; LF])] in
  wp (event_loop journal_user journal_notify 4 3 (async_connection 2)) (λ o w', ∃ ac' new,
    o = Some ac' ∧ queue (ac_replies ac') ([] ++ new) ∧ snd w' = ∅ ∧ k_reads (script_of w') = [Eof] ∧
    id (fst (fst w')) = [(7, 70, 10); (8, 80, 0)]) (([], Script 0 [] {[3]} [] (l ++ [Eof]) []), ∅).
Proof.
  intros l.
  apply (async_replies_delivered journal_no_oom journal_user journal_notify id reply_entry
    (λ n a, eq_refl) journal_user_ok 3 (async_connection 2) (new_reader [])
    [Callback (Some 7) 70; Callback (Some 8) 80] [RInteger 10; RArray [RInteger 5]] l [Eof]
    [] (Script 0 [] {[3]} [] (l ++ [Eof]) []) ∅).
  - by split_and!.
  - done.
  - done.
  - intros w. by wp_steps.
  - done.
  - by apply new_reader_between.
  - apply two_pending.
  - repeat constructor; cbn; lia.
  - done.
  - cbn. lia.
  - done.
  - apply (delivers_chunk (bs ":1")); [done | done |]. apply delivers_eintr.
    apply (delivers_chunk (bs "0" ++ [CR; LF] ++ bs "*1" ++ [CR])); [done | done |].
    apply (delivers_chunk ([LF] ++ bs ":5" ++ [CR; LF]) [] []); [done | done | constructor].
Defined.

(** ** Freeing *)

(** C17: freeing a context outside of a callback gives a NULL reply to every
    pending callback, exactly once: those of replies and of commands issued
    while subscribed in the order they were issued, then those of the
    channels and of the patterns; then the disconnection of a connected
    context is reported, the socket is closed, and no reply object is
    touched. *)
Theorem asyncFree_drops_pending {A E} `{!Libc A} (no_oom : ¬ oom A)
    (user : Z -> redisAsyncContext (world (scripted_world A)) -> vptr nat -> Z ->
            M (world (scripted_world A)) (redisAsyncContext (world (scripted_world A))))
    (notify : Z -> Z -> M (world (scripted_world A)) unit)
    (log : A -> list E) (dropped notified : Z -> Z -> E)
    (log_malloc : ∀ n a, log (snd (malloc n a)) = log a)
    (user_ok : ∀ fn ac priv w,
       wp (user fn ac Null priv) (λ ac' w', ac' = ac ∧ outcome log w w' [dropped fn priv]) w)
    (notify_ok : ∀ f st w, wp (notify f st) (λ _ w', outcome log w w' [notified f st]) w)
    (fuel : nat) (ac : redisAsyncContext (world (scripted_world A))) (replies invalid : list redisCallback)
    (channels patterns : gmap bytes redisCallback) (r : redisReader nat) (a : A) (k : script) (h : heap) :
  pending no_oom ac replies invalid channels patterns fuel ->
  c_reader (ac_c ac) = Some r -> r_reply r = Null -> 0 < c_fd (ac_c ac) ->
  (∀ w, wp (hook (cleanup (ac_ev ac))) (λ _ w', outcome log w w' []) w) ->
  wp (redisAsyncFree user notify fuel ac) (λ o w', o = None ∧ snd w' = h ∧
    k_open (script_of w') = k_open k ∖ {[c_fd (ac_c ac)]} ∧
    ∃ chs pas, chs ≡ₚ (map_to_list channels).*2 ∧ pas ≡ₚ (map_to_list patterns).*2 ∧
      log (fst (fst w')) = log a ++ drops dropped (replies ++ invalid ++ chs ++ pas)
        ++ farewell notified (ac_add ac REDIS_FREEING)) ((a, k), h).
Proof. intros. by eapply (redisAsyncFree_wp no_oom user notify log dropped notified). Qed.

Lemma asyncFree_drops_pending_witness :
  let ac := set_subs (async_connection 2) (Dict None 0 0 0)
              (Dict (Some [[]; []; [Entry (mk (bs "a") []) (Callback (Some 9) 90)]; []]) 4 3 1) in
  wp (redisAsyncFree journal_user journal_notify 4 ac) (λ o w', o = None ∧ snd w' = ∅ ∧
    k_open (script_of w') = {[3]} ∖ {[3]} ∧
    id (fst (fst w')) = [(7, 70, -1); (8, 80, -1); (9, 90, -1); (99, 0, -2)])
    (([], Script 0 [] {[3]} [] [] []), ∅).
Proof.
  intros ac. eapply wp_mono.
  - apply (asyncFree_drops_pending journal_no_oom journal_user journal_notify id
      (λ fn priv, (fn, priv, -1)) (λ f st, (f, st, -2)) (λ n a, eq_refl) journal_null_ok journal_notify_ok
      4 ac [Callback (Some 7) 70; Callback (Some 8) 80] [] ∅ {[bs "a" := Callback (Some 9) 90]}
      (new_reader []) [] (Script 0 [] {[3]} [] [] []) ∅); try done.
    + split; [done | apply two_pending | apply queue_empty | by apply rep_empty | | done | rewrite map_size_empty, map_size_singleton; cbn; lia].
      apply rep_table with (k := 2) (t := [[]; []; [Entry (mk (bs "a") []) (Callback (Some 9) 90)]; []])
        (c := [[]; []; [(bs "a", Callback (Some 9) 90)]; []]); [done | lia | | | done | done].
      * split_and!; [| done |].
        -- repeat constructor. by exists [].
        -- intros i b Hb. do 4 (destruct i as [|i]; [injection Hb as <-; repeat constructor|]). done.
      * apply list.NoDup_singleton.
    + intros w. cbn. wp_steps. apply outcome_refl.
  - intros o w' (-> & Hh & Hk & chs & pas & Hchs & Hpas & Hlog). split_and!; [done..|].
    rewrite map_to_list_empty in Hchs. apply Permutation_nil_r in Hchs as ->.
    rewrite map_to_list_singleton in Hpas. apply Permutation_singleton_r in Hpas as ->. exact Hlog.
Defined.
