(* ===== verification/Calls.v ===== *)
(** * Calls: programs as trees of calls

    Code that only calls out (to a kernel, to system calls) is a tree: each
    node is a call, with the rest of the program for every result.  A trace is
    a path of the tree, so a theorem about every trace is a theorem about
    every behaviour of the callee.  [tpost] is the program logic of traces,
    over a ghost state that the calls update, and [dpost] the one of programs
    over an interface, which [interp] carries to an implementation. *)

From Stdlib Require Import ZArith Lia.
From stdpp Require Import base list.
From S2P Require Import Prelude.

(** [Undef] is undefined behaviour, such as an access through NULL. *)
Inductive prog (E : Type -> Type) (A : Type) : Type :=
  | Ret (a : A)
  | Call (X : Type) (e : E X) (k : X -> prog E A)
  | Undef.
Arguments Ret {E A} a.
Arguments Call {E A X} e k.
Arguments Undef {E A}.

Global Instance prog_ret {E} : MRet (prog E) := λ A a, Ret a.
Global Instance prog_bind {E} : MBind (prog E) := λ A B f,
  fix go p := match p with
    | Ret a => f a
    | Call e k => Call e (λ x, go (k x))
    | Undef => Undef
    end.

Definition call {E X} (e : E X) : prog E X := Call e Ret.
Definition undef {E A} : prog E A := Undef.

(** A pointer that the code uses without a check. *)
Definition nonnull {E A} (o : option A) : prog E A :=
  match o with Some a => Ret a | None => Undef end.

(** ** Traces *)
Record event (E : Type -> Type) : Type := Ev {
  ev_type : Type;
  ev_call : E ev_type;
  ev_result : ev_type
}.
Arguments Ev {E ev_type} ev_call ev_result.

(** [traces p tr a]: [p] may make the calls of [tr], with their results, and
    return [a]. *)
Fixpoint traces {E A} (p : prog E A) (tr : list (event E)) (a : A) : Prop :=
  match p with
  | Ret b => tr = [] ∧ a = b
  | Call e k => ∃ x tr', tr = Ev e x :: tr' ∧ traces (k x) tr' a
  | Undef => False
  end.

(** No path reaches undefined behaviour. *)
Fixpoint defined {E A} (p : prog E A) : Prop :=
  match p with
  | Ret _ => True
  | Call e k => ∀ x, defined (k x)
  | Undef => False
  end.

Section traces.
Context {E : Type -> Type}.

Lemma traces_bind {A B} (p : prog E A) (f : A -> prog E B) tr b :
  traces (p ≫= f) tr b <->
  ∃ tr1 a tr2, tr = tr1 ++ tr2 ∧ traces p tr1 a ∧ traces (f a) tr2 b.
Proof.
  revert tr. induction p as [a|X e k IH|]; intros tr; cbn.
  - split.
    + intros H. by exists [], a, tr.
    + by intros (tr1 & a' & tr2 & -> & [-> ->] & H).
  - split.
    + intros (x & tr' & -> & H). apply IH in H as (tr1 & a & tr2 & -> & H1 & H2).
      exists (Ev e x :: tr1), a, tr2. naive_solver.
    + intros (tr1 & a & tr2 & -> & (x & tr' & -> & H1) & H2).
      exists x, (tr' ++ tr2). split; [done|]. apply IH. naive_solver.
  - naive_solver.
Qed.
End traces.

(** Running a program against a callee that computes its results. *)
Section run.
Context {E : Type -> Type} {W : Type}.
Variable serve : ∀ X, E X -> W -> X * W.

Fixpoint run {A} (p : prog E A) (w : W) : option (list (event E) * A) :=
  match p with
  | Ret a => Some ([], a)
  | Call e k =>
      let '(x, w') := serve _ e w in
      match run (k x) w' with
      | Some (tr, a) => Some (Ev e x :: tr, a)
      | None => None
      end
  | Undef => None
  end.

Lemma run_traces {A} (p : prog E A) w tr a : run p w = Some (tr, a) -> traces p tr a.
Proof.
  revert w tr. induction p as [b|X e k IH|]; cbn; intros w tr.
  - by intros [= <- <-].
  - destruct (serve X e w) as [x w'].
    destruct (run (k x) w') as [[tr' a']|] eqn:Hr; [|done].
    intros [= <- <-]. eauto.
  - done.
Qed.
End run.

(** ** Interpretation in a world

    Each call is a computation of [M]; undefined behaviour is [Stuck]. *)
Section interp.
Context {E : Type -> Type} {W : Type}.
Variable h : ∀ X, E X -> M W X.

Fixpoint interp {A} (p : prog E A) : M W A :=
  match p with
  | Ret a => mret a
  | Call e k => x ← h _ e; interp (k x)
  | Undef => stuck
  end.

Lemma wp_interp_bind {A B} (p : prog E A) (f : A -> prog E B) (Q : B -> W -> Prop) w :
  wp (interp p) (λ a w', wp (interp (f a)) Q w') w -> wp (interp (p ≫= f)) Q w.
Proof.
  revert w. induction p as [a|X e k IH|]; cbn; intros w; [done| |done].
  unfold wp, mbind, M_bind. destruct (h X e w) as [[y w1]|]; [|done]. apply IH.
Qed.

Lemma wp_interp_call {X} (e : E X) (Q : X -> W -> Prop) w :
  wp (h X e) Q w -> wp (interp (call e)) Q w.
Proof. intros H. cbn. apply wp_bind. eapply wp_mono; [exact H|]. by intros. Qed.

(** Several programs in one world: a schedule says whose call is next. *)
Fixpoint schedule {A} (l : list nat) (ps : list (prog E A)) (w : W) : res (list (prog E A) * W) :=
  match l with
  | [] => Ok (ps, w)
  | i :: l' =>
      match ps !! i with
      | Some (Call e k) =>
          match h _ e w with
          | Ok (x, w') => schedule l' (<[i := k x]> ps) w'
          | Stuck => Stuck
          end
      | _ => schedule l' ps w
      end
  end.
End interp.

(** ** A program logic of traces

    The calls move a ghost state: [gstep e x s] is the state after the call
    [e] has returned [x] in [s], or [None] when the call breaks the rules
    that the ghost state stands for.  [U] is what undefined behaviour has to
    satisfy: [False] to show that there is none. *)
Section tpost.
Context {E : Type -> Type} {S : Type}.
Variable U : Prop.
Variable gstep : ∀ X, E X -> X -> S -> option S.

Fixpoint gtrace (tr : list (event E)) (s : S) : option S :=
  match tr with
  | [] => Some s
  | Ev e x :: tr' => gstep _ e x s ≫= gtrace tr'
  end.

Fixpoint tpost {A} (p : prog E A) (Q : A -> S -> Prop) (s : S) : Prop :=
  match p with
  | Ret a => Q a s
  | Call e k => ∀ x, ∃ s', gstep _ e x s = Some s' ∧ tpost (k x) Q s'
  | Undef => U
  end.

Lemma tpost_traces {A} (p : prog E A) (Q : A -> S -> Prop) s tr a :
  tpost p Q s -> traces p tr a -> ∃ s', gtrace tr s = Some s' ∧ Q a s'.
Proof.
  revert s tr. induction p as [b|X e k IH|]; cbn; intros s tr.
  - intros HQ [-> ->]. eauto.
  - intros H (x & tr' & -> & Htr). destruct (H x) as (s' & Hs & Hp).
    destruct (IH _ _ _ Hp Htr) as (s'' & Hs' & HQ).
    exists s''. split; [|done]. cbn. by rewrite Hs.
  - done.
Qed.

Lemma tpost_defined {A} (p : prog E A) (Q : A -> S -> Prop) s :
  (U -> False) -> tpost p Q s -> defined p.
Proof.
  intros HU. revert s. induction p as [b|X e k IH|]; cbn; intros s; [done| |done].
  intros H x. destruct (H x) as (s' & _ & Hp). eauto.
Qed.

Lemma tpost_bind {A B} (p : prog E A) (f : A -> prog E B) Q s :
  tpost p (λ a s', tpost (f a) Q s') s -> tpost (p ≫= f) Q s.
Proof.
  revert s. induction p as [a|X e k IH|]; cbn; [done| |done].
  intros s H x. destruct (H x) as (s' & ? & ?). eauto.
Qed.

Lemma tpost_mono {A} (p : prog E A) (P Q : A -> S -> Prop) s :
  tpost p P s -> (∀ a s', P a s' -> Q a s') -> tpost p Q s.
Proof.
  intros H HPQ. revert s H. induction p as [a|X e k IH|]; cbn; [eauto| |done].
  intros s H x. destruct (H x) as (s' & ? & ?). eauto.
Qed.
End tpost.

(** [tstep] runs one bind, call or return of a [tpost] goal. *)
Ltac tstep :=
  lazymatch goal with
  | |- tpost _ _ (_ ≫= _) _ _ => apply tpost_bind
  | |- tpost _ _ (call _) _ _ => let x := fresh "x" in intros x; cbn
  | |- tpost _ _ (mret _) _ _ => cbn
  | |- tpost _ _ (Ret _) _ _ => cbn
  | |- tpost _ _ (if ?b then _ else _) _ _ => let H := fresh "Hb" in destruct b eqn:H
  | |- ∃ s', Some _ = Some s' ∧ _ => eexists; split; [reflexivity|]; cbn
  end.
Ltac tsteps := repeat tstep.

(** ** A program logic over an interface

    [spec e s P]: the call [e] may be made in the abstract state [s], and
    every result with the state after it satisfies [P].  What is proved of a
    program against the interface holds of a run on any implementation. *)
Section dpost.
Context {E : Type -> Type} {S : Type}.
Variable spec : ∀ X, E X -> S -> (X -> S -> Prop) -> Prop.

Fixpoint dpost {A} (p : prog E A) (Q : A -> S -> Prop) (s : S) : Prop :=
  match p with
  | Ret a => Q a s
  | Call e k => spec _ e s (λ x s', dpost (k x) Q s')
  | Undef => False
  end.

Hypothesis spec_mono : ∀ X (e : E X) s (P Q : X -> S -> Prop),
  spec _ e s P -> (∀ x s', P x s' -> Q x s') -> spec _ e s Q.

Lemma dpost_bind {A B} (p : prog E A) (f : A -> prog E B) Q s :
  dpost p (λ a s', dpost (f a) Q s') s -> dpost (p ≫= f) Q s.
Proof.
  revert s. induction p as [a|X e k IH|]; cbn; intros s; [done| |done].
  intros H. eapply spec_mono; [exact H|]. intros x s'. apply IH.
Qed.

Lemma dpost_mono {A} (p : prog E A) (P Q : A -> S -> Prop) s :
  dpost p P s -> (∀ a s', P a s' -> Q a s') -> dpost p Q s.
Proof.
  intros H HPQ. revert s H. induction p as [a|X e k IH|]; cbn; [eauto| |done].
  intros s H. eapply spec_mono; [exact H|]. intros x s'. apply IH.
Qed.

Lemma dpost_call {X} (e : E X) (Q : X -> S -> Prop) s :
  spec _ e s Q -> dpost (call e) Q s.
Proof. intros H. eapply spec_mono; [exact H|]. done. Qed.

(** An implementation of the calls in a world that represents the state. *)
Lemma dpost_interp {W A} (h : ∀ X, E X -> M W X) (rep : W -> S -> Prop)
    (p : prog E A) (Q : A -> S -> Prop) s w :
  (∀ X (e : E X) s w P, rep w s -> spec _ e s P ->
     wp (h X e) (λ x w', ∃ s', P x s' ∧ rep w' s') w) ->
  dpost p Q s -> rep w s -> wp (interp h p) (λ a w', ∃ s', Q a s' ∧ rep w' s') w.
Proof.
  intros Hh. revert s w. induction p as [a|X e k IH|]; cbn [interp dpost]; intros s w; [|intros H Hw|done].
  - intros HQ Hw. apply wp_ret. eauto.
  - apply wp_bind. eapply wp_mono; [by apply (Hh _ _ s)|].
    intros x w' (s' & HP & Hw'). by apply (IH x s').
Qed.
End dpost.

(** Calls of one signature as calls of a larger one. *)
Fixpoint translate {E F : Type -> Type} (f : ∀ X, E X -> F X) {A} (p : prog E A) : prog F A :=
  match p with
  | Ret a => Ret a
  | Call e k => Call (f _ e) (λ x, translate f (k x))
  | Undef => Undef
  end.

(** ** Resources held

    A program gets resources and gives them back; what it holds is a list, up
    to order.  [put_back a h] gives back one [a]: [None] if it is not held. *)
Section put_back.
Context {A : Type} `{!EqDecision A}.

Fixpoint put_back (a : A) (h : list A) : option (list A) :=
  match h with
  | [] => None
  | b :: h' => if decide (a = b) then Some h' else h'' ← put_back a h'; Some (b :: h'')
  end.

Lemma put_held a h h' :
  h ≡ₚ a :: h' -> ∃ h'', put_back a h = Some h'' ∧ h'' ≡ₚ h'.
Proof.
  revert h'. induction h as [|g h IH]; intros h' Hh.
  { by apply Permutation_nil_cons in Hh. }
  cbn. case_decide as Hd; [subst; eauto using Permutation_cons_inv|].
  assert (∃ h2, h ≡ₚ a :: h2) as [h2 H2].
  { assert (a ∈ g :: h) as Ha by (rewrite Hh; left).
    apply elem_of_cons in Ha as [?|Ha]; [done|].
    apply list_elem_of_split in Ha as (l1 & l2 & ->). exists (l1 ++ l2). solve_Permutation. }
  destruct (IH _ H2) as (h'' & -> & Hh''). cbn. eexists. split; [done|].
  rewrite Hh''. apply (Permutation_cons_inv (a := a)). rewrite <-Hh, H2. solve_Permutation.
Qed.

Lemma put_head a h : put_back a (a :: h) = Some h.
Proof. cbn. by rewrite decide_True. Qed.
End put_back.
