(* ===== verification/Parallel.v ===== *)
(** * Parallel: several programs in one world, each with its part of it

    A rule for schedules of threads.  Each thread has a view of its own, and
    [rep w vs] relates the world to the views of all threads.  If every call
    that a thread's view allows changes that view only, what is proved of each
    thread alone holds under every schedule.  [within n p] bounds the calls of
    a program, so that enough turns end it. *)

From Stdlib Require Import ZArith Lia.
From stdpp Require Import base list gmap.
From S2P Require Import Prelude Calls.

Section parallel.
Context {E : Type -> Type} {W S A : Type}.
Variable h : ∀ X, E X -> M W X.
Variable spec : ∀ X, E X -> S -> (X -> S -> Prop) -> Prop.
Variable rep : W -> list S -> Prop.

(** A call of the thread [i], as the others see it. *)
Definition framed : Prop := ∀ X (e : E X) i s ss w (P : X -> S -> Prop),
  rep w ss -> ss !! i = Some s -> spec _ e s P ->
  wp (h X e) (λ x w', ∃ s', P x s' ∧ rep w' (<[i := s']> ss)) w.

(** Every schedule is safe, and a thread that returns has met its post. *)
Lemma schedule_rule (Q : A -> S -> Prop) l ps ss w :
  framed -> rep w ss -> Forall2 (λ p s, dpost spec p Q s) ps ss ->
  ∃ ps' ss' w', schedule h l ps w = Ok (ps', w') ∧ rep w' ss' ∧ length ss' = length ss ∧
    Forall2 (λ p s, dpost spec p Q s) ps' ss'.
Proof.
  intros Hf. revert ps ss w. induction l as [|i l IH]; intros ps ss w Hw Hp; [by exists ps, ss, w|].
  cbn [schedule]. destruct (ps !! i) as [[a|X e k|]|] eqn:Hi; [by eapply IH| |by eapply IH..].
  destruct (Forall2_lookup_l _ _ _ _ _ Hp Hi) as (s & Hs & Hspec). cbn in Hspec.
  pose proof (Hf X e i s ss w _ Hw Hs Hspec) as H. unfold wp in H.
  destruct (h X e w) as [[x w']|]; [|done]. destruct H as (s' & HP & Hw').
  rewrite <-(length_insert ss i s'). apply (IH _ (<[i := s']> ss) w'); [done|]. by apply Forall2_insert.
Qed.
End parallel.

(** ** Programs that end within a number of calls *)
Section within.
Context {E : Type -> Type}.

Fixpoint within {A} (n : nat) (p : prog E A) {struct p} : Prop :=
  match p with
  | Ret _ => True
  | Call e k => match n with O => False | S n' => ∀ x, within n' (k x) end
  | Undef => True
  end.

Lemma within_mono {A} (p : prog E A) n m : (n <= m)%nat -> within n p -> within m p.
Proof.
  revert n m. induction p as [a|X e k IH|]; intros n m Hnm; cbn; [done| |done].
  destruct n as [|n]; [done|]. destruct m as [|m]; [lia|].
  intros H x. apply (IH x n); [lia|apply H].
Qed.

Lemma within_bind {A B} (p : prog E A) (f : A -> prog E B) n m :
  within n p -> (∀ a, within m (f a)) -> within (n + m) (p ≫= f).
Proof.
  intros Hp Hf. revert n Hp. induction p as [a|X e k IH|]; intros n Hp; [|destruct n as [|n]; [done|]|done].
  - cbn. apply (within_mono _ m); [lia|done].
  - cbn. intros x. by apply IH.
Qed.

Lemma within_call {X} (e : E X) : within 1 (call e).
Proof. done. Qed.

(** The turns of the thread [i] in a schedule. *)
Definition turns (i : nat) (l : list nat) : nat := count_occ Nat.eq_dec l i.

Lemma schedule_within {W A} (h : ∀ X, E X -> M W X) l (ps ps' : list (prog E A)) w w' i n p :
  schedule h l ps w = Ok (ps', w') -> ps !! i = Some p -> within n p -> (n <= turns i l)%nat ->
  ps' !! i = Some Undef ∨ ∃ a, ps' !! i = Some (Ret a).
Proof.
  unfold turns. revert ps w n p. induction l as [|j l IH]; intros ps w n p Hs Hi Hn Hl; cbn in Hs, Hl.
  - injection Hs as -> ->. replace n with O in Hn by lia. destruct p as [a|X e k|]; [eauto|done|eauto].
  - destruct (ps !! j) as [[a|X e k|]|] eqn:Hj.
    + destruct (Nat.eq_dec j i) as [->|]; [|by eapply IH]. eapply (IH _ _ O p); [done..| |lia]. assert (Some p = Some (Ret a)) as [= ->] by exact (eq_trans (eq_sym Hi) Hj). exact I.
    + destruct (h X e w) as [[x w1]|]; [|done]. destruct (Nat.eq_dec j i) as [->|Hji].
      * assert (Some p = Some (Call e k)) as [= ->] by exact (eq_trans (eq_sym Hi) Hj). destruct n as [|n]; [done|]. eapply (IH _ _ n (k x)); [done| | |lia].
        { rewrite list_lookup_insert_eq; [done|]. by eapply lookup_lt_Some. }
        apply Hn.
      * eapply IH; [done| |done|lia]. by rewrite list_lookup_insert_ne.
    + destruct (Nat.eq_dec j i) as [->|]; [|by eapply IH]. eapply (IH _ _ O p); [done..| |lia]. assert (Some p = Some Undef) as [= ->] by exact (eq_trans (eq_sym Hi) Hj). exact I.
    + destruct (Nat.eq_dec j i) as [->|]; [by pose proof (eq_trans (eq_sym Hi) Hj)|by eapply IH].
Qed.
End within.

(** ** One thread alone

    Turns of one thread only are a run of that thread to its end. *)
Section alone.
Context {E : Type -> Type} {W A : Type}.
Variable h : ∀ X, E X -> M W X.
Implicit Types (p : prog E A) (ps : list (prog E A)) (w : W).

Lemma schedule_step {X} i (e : E X) k l ps w x w' :
  ps !! i = Some (Call e k) -> h X e w = Ok (x, w') ->
  schedule h (i :: l) ps w = schedule h l (<[i := k x]> ps) w'.
Proof. intros Hi He. cbn. destruct (ps !! i) as [q|]; [|done]. injection Hi as ->. by rewrite He. Qed.

Lemma schedule_stuck {X} i (e : E X) k l ps w :
  ps !! i = Some (Call e k) -> h X e w = Stuck -> schedule h (i :: l) ps w = Stuck.
Proof. intros Hi He. cbn. destruct (ps !! i) as [q|]; [|done]. injection Hi as ->. by rewrite He. Qed.

Lemma schedule_alone i p ps w a w' :
  ps !! i = Some p -> interp h p w = Ok (a, w') ->
  ∃ n, ∀ l, schedule h (replicate n i ++ l) ps w = schedule h l (<[i := Ret a]> ps) w'.
Proof.
  revert ps w. induction p as [b|X e k IH|]; intros ps w Hi Hrun; cbn in Hrun.
  - injection Hrun as <- <-. exists 0%nat. intros l. by rewrite list_insert_id.
  - unfold mbind, M_bind in Hrun. destruct (h X e w) as [[x w1]|] eqn:He; [|done].
    destruct (IH x (<[i := k x]> ps) w1) as [n Hn]; [|done|].
    { apply list_lookup_insert_eq. by eapply lookup_lt_Some. }
    exists (S n). intros l. cbn [replicate app]. rewrite (schedule_step i e k _ ps w x w1 Hi He), Hn.
    by rewrite list_insert_insert_eq.
  - done.
Qed.

(** A program is as good as what is made of its result. *)
Lemma wp_interp_result {B} p (f : A -> B) (Q : B -> W -> Prop) w :
  wp (interp h (a ← p; mret (f a))) Q w -> wp (interp h p) (λ a, Q (f a)) w.
Proof.
  revert w. induction p as [a|X e k IH|]; intros w; cbn; [done| |done].
  unfold wp, mbind, M_bind. destruct (h X e w) as [[x w']|]; [|done]. apply IH.
Qed.

(** The same for the result that the logic of programs promises. *)
Lemma schedule_alone_wp i p ps w (Q : A -> W -> Prop) :
  ps !! i = Some p -> wp (interp h p) Q w ->
  ∃ n a w', (∀ l, schedule h (replicate n i ++ l) ps w = schedule h l (<[i := Ret a]> ps) w') ∧ Q a w'.
Proof.
  unfold wp. intros Hi HQ. destruct (interp h p w) as [[a w']|] eqn:Hrun; [|done].
  destruct (schedule_alone i p ps w a w' Hi Hrun) as [n Hn]. by exists n, a, w'.
Qed.
End alone.

(** ** Fair schedules

    A schedule without an end gives every thread a turn again and again.  A
    tree of calls has no path without an end, so every thread ends. *)
Section fair.
Context {E : Type -> Type} {W A : Type}.
Variable h : ∀ X, E X -> M W X.
Implicit Types (p : prog E A) (ps : list (prog E A)) (w : W).

Definition fair (T : nat) (f : nat -> nat) : Prop :=
  ∀ i t, (i < T)%nat -> ∃ t', (t <= t')%nat ∧ f t' = i.

Lemma fair_in_turn T : fair T (λ t, t `mod` T)%nat.
Proof.
  intros i t Hi. exists (i + t * T)%nat. split; [nia|]. rewrite Nat.Div0.mod_add. by apply Nat.mod_small.
Qed.

(** The turns from [t] on. *)
Definition from_turn (f : nat -> nat) (t n : nat) : list nat := f <$> seq t n.

Definition ended (o : option (prog E A)) : Prop := o = Some Undef ∨ ∃ a, o = Some (Ret a).

Lemma schedule_cons j l ps w :
  schedule h (j :: l) ps w =
  match schedule h [j] ps w with Ok (ps', w') => schedule h l ps' w' | Stuck => Stuck end.
Proof. cbn. destruct (ps !! j) as [[a|X e k|]|]; try done. by destruct (h X e w) as [[x w']|]. Qed.

Lemma schedule_turn {X} i (e : E X) k l ps w :
  ps !! i = Some (Call e k) ->
  schedule h (i :: l) ps w = match h X e w with Ok (x, w') => schedule h l (<[i := k x]> ps) w' | Stuck => Stuck end.
Proof.
  intros Hi. cbn. destruct (ps !! i) as [q|]; [|done]. by injection Hi as ->.
Qed.

Lemma schedule_other i j ps w ps' w' :
  schedule h [j] ps w = Ok (ps', w') -> i ≠ j ∨ ended (ps !! i) -> ps' !! i = ps !! i.
Proof.
  cbn. intros Hs Hij. destruct (ps !! j) as [[a|X e k|]|] eqn:Hj; try by simplify_eq.
  destruct (h X e w) as [[x w1]|]; [|done]. simplify_eq. destruct (decide (i = j)) as [->|]; [|by rewrite list_lookup_insert_ne].
  destruct Hij as [|[Hu|[a Ha]]]; [done|exfalso..].
  - by pose proof (eq_trans (eq_sym Hj) Hu).
  - by pose proof (eq_trans (eq_sym Hj) Ha).
Qed.

Lemma schedule_ended i l ps w ps' w' :
  schedule h l ps w = Ok (ps', w') -> ended (ps !! i) -> ended (ps' !! i).
Proof.
  revert ps w. induction l as [|j l IH]; intros ps w Hs Hd; [by injection Hs as -> ->|].
  rewrite schedule_cons in Hs. destruct (schedule h [j] ps w) as [[ps1 w1]|] eqn:E1; [|done].
  apply (IH _ _ Hs). by rewrite (schedule_other _ _ _ _ _ _ E1) by (by right).
Qed.

(** A thread that gets its turns ends. *)
Lemma thread_ends f i p t ps w :
  (∀ t, ∃ t', (t <= t')%nat ∧ f t' = i) -> ps !! i = Some p ->
  (∀ n, schedule h (from_turn f t n) ps w ≠ Stuck) ->
  ∃ n, ∀ ps' w', schedule h (from_turn f t n) ps w = Ok (ps', w') -> ended (ps' !! i).
Proof.
  intros Hf. revert t ps w. induction p as [a|X e k IH|]; intros t ps w Hi Hsafe.
  - exists 0%nat. intros ps' w' [= <- <-]. right. by exists a.
  - assert (∀ t ps w, ps !! i = Some (Call e k) -> (∀ n, schedule h (from_turn f t n) ps w ≠ Stuck) -> f t = i ->
      ∃ n, ∀ ps' w', schedule h (from_turn f t n) ps w = Ok (ps', w') -> ended (ps' !! i)) as Hturn.
    { clear t ps w Hi Hsafe. intros t ps w Hi Hsafe Hti. pose proof (Hsafe 1%nat) as H1.
      change (from_turn f t 1) with [f t] in H1. rewrite Hti, (schedule_turn _ _ _ _ _ _ Hi) in H1.
      destruct (h X e w) as [[x w1]|] eqn:Hx; [|done].
      assert (∀ n, schedule h (from_turn f t (S n)) ps w = schedule h (from_turn f (S t) n) (<[i := k x]> ps) w1) as Hstep.
      { intros n. change (from_turn f t (S n)) with (f t :: from_turn f (S t) n).
        by rewrite Hti, (schedule_turn _ _ _ _ _ _ Hi), Hx. }
      destruct (IH x (S t) (<[i := k x]> ps) w1) as [n Hn].
      - apply list_lookup_insert_eq. by eapply lookup_lt_Some.
      - intros n. rewrite <-Hstep. apply Hsafe.
      - exists (S n). intros ps' w'. rewrite Hstep. apply Hn. }
    destruct (Hf t) as (t' & Ht & Ht'). remember (t' - t)%nat as d eqn:Hd.
    revert t ps w Hi Hsafe Ht Hd. induction d as [|d IHd]; intros t ps w Hi Hsafe Ht Hd.
    { apply Hturn; [done|done|]. by replace t with t' by lia. }
    destruct (decide (f t = i)) as [Hti|Hti]; [by apply Hturn|].
    pose proof (Hsafe 1%nat) as H1. change (from_turn f t 1) with [f t] in H1.
    destruct (schedule h [f t] ps w) as [[ps1 w1]|] eqn:E1; [|done].
    assert (∀ n, schedule h (from_turn f t (S n)) ps w = schedule h (from_turn f (S t) n) ps1 w1) as Hstep.
    { intros n. change (from_turn f t (S n)) with (f t :: from_turn f (S t) n). by rewrite schedule_cons, E1. }
    destruct (IHd (S t) ps1 w1) as [n Hn]; [| |lia|lia|].
    + rewrite (schedule_other i _ _ _ _ _ E1); [done|by left].
    + intros n. rewrite <-Hstep. apply Hsafe.
    + exists (S n). intros ps' w'. rewrite Hstep. apply Hn.
  - exists 0%nat. intros ps' w' [= <- <-]. by left.
Qed.

Lemma schedule_app l1 l2 ps w :
  schedule h (l1 ++ l2) ps w =
  match schedule h l1 ps w with Ok (ps', w') => schedule h l2 ps' w' | Stuck => Stuck end.
Proof.
  revert ps w. induction l1 as [|j l1 IH]; intros ps w; [done|].
  change ((j :: l1) ++ l2) with (j :: (l1 ++ l2)). rewrite (schedule_cons j (l1 ++ l2)), (schedule_cons j l1).
  destruct (schedule h [j] ps w) as [[ps1 w1]|]; [apply IH|done].
Qed.

(** All threads of a safe fair schedule end, and stay so. *)
Lemma fair_ends f ps w :
  fair (length ps) f -> (∀ n, schedule h (from_turn f 0 n) ps w ≠ Stuck) ->
  ∃ n, ∀ m, (n <= m)%nat -> ∃ ps' w', schedule h (from_turn f 0 m) ps w = Ok (ps', w') ∧
    ∀ i, (i < length ps)%nat -> ended (ps' !! i).
Proof.
  intros Hf Hsafe.
  assert (∀ T, (T <= length ps)%nat -> ∃ n, ∀ m ps' w', (n <= m)%nat ->
    schedule h (from_turn f 0 m) ps w = Ok (ps', w') -> ∀ i, (i < T)%nat -> ended (ps' !! i)) as H.
  { induction T as [|T IH]; intros HT; [exists 0%nat; intros; lia|]. destruct IH as [n1 H1]; [lia|].
    destruct (lookup_lt_is_Some_2 ps T) as [p Hp]; [lia|].
    destruct (thread_ends f T p 0 ps w) as [n2 H2]; [intros t; by apply Hf|done|done|].
    exists (n1 `max` n2)%nat. intros m ps' w' Hm Hs i Hi.
    destruct (decide (i = T)) as [->|]; [|eapply (H1 m); [lia|done|lia]].
    replace m with (n2 + (m - n2))%nat in Hs by lia. unfold from_turn in Hs.
    rewrite seq_app, fmap_app, schedule_app in Hs. fold (from_turn f 0 n2) in Hs.
    destruct (schedule h (from_turn f 0 n2) ps w) as [[ps2 w2]|] eqn:E2; [|done].
    eapply schedule_ended; [exact Hs|]. by eapply H2. }
  destruct (H (length ps)) as [n Hn]; [done|]. exists n. intros m Hm. pose proof (Hsafe m) as Hm'.
  destruct (schedule h (from_turn f 0 m) ps w) as [[ps' w']|] eqn:E0; [|done]. exists ps', w'. split; [done|].
  by apply (Hn m ps' w').
Qed.
End fair.

(** ** One map in disjoint parts *)
Section parts.
Context {K V : Type} `{!EqDecision K, !Countable K}.
Implicit Types (m : gmap K V) (ms : list (gmap K V)).

Record parts m ms : Prop := {
  pt_all k v : m !! k = Some v <-> ∃ i mi, ms !! i = Some mi ∧ mi !! k = Some v;
  pt_one i j mi mj k : ms !! i = Some mi -> ms !! j = Some mj ->
    is_Some (mi !! k) -> is_Some (mj !! k) -> i = j
}.

Lemma parts_lookup m ms i mi k v : parts m ms -> ms !! i = Some mi -> mi !! k = Some v -> m !! k = Some v.
Proof. intros [H _] Hi Hk. apply H. eauto. Qed.

Lemma parts_none m ms i mi k :
  parts m ms -> ms !! i = Some mi -> mi !! k = None ->
  (∀ j mj, ms !! j = Some mj -> j ≠ i -> mj !! k = None) -> m !! k = None.
Proof.
  intros [H _] Hi Hk Ho. apply eq_None_not_Some. intros [v (j & mj & Hj & Hv)%H].
  destruct (decide (j = i)) as [->|Hne]; [congruence|]. by rewrite (Ho j mj) in Hv.
Qed.

Lemma parts_insert m ms i mi k v :
  parts m ms -> ms !! i = Some mi -> m !! k = None ∨ is_Some (mi !! k) ->
  parts (<[k := v]> m) (<[i := <[k := v]> mi]> ms).
Proof.
  intros [Hall Hone] Hi Hk.
  assert (∀ j mj, ms !! j = Some mj -> is_Some (mj !! k) -> j = i) as Hmine.
  { intros j mj Hj [v' Hv']. destruct Hk as [Hk|Hk]; [|by eapply Hone].
    assert (m !! k = Some v') by (apply Hall; eauto). congruence. }
  split.
  - intros k' v'. rewrite lookup_insert_Some, Hall. split.
    + intros [[<- <-]|(Hne & j & mj & Hj & Hv)].
      { exists i, (<[k := v]> mi). split; [|apply lookup_insert_eq].
        rewrite list_lookup_insert_eq; [done|]. by eapply lookup_lt_Some. }
      destruct (decide (j = i)) as [->|Hji].
      * exists i, (<[k := v]> mi). simplify_eq. rewrite lookup_insert_ne by done. split; [|done].
        rewrite list_lookup_insert_eq; [done|]. by eapply lookup_lt_Some.
      * exists j, mj. by rewrite list_lookup_insert_ne.
    + intros (j & mj & [(<- & <- & _)|[Hji Hj]]%list_lookup_insert_Some & Hv).
      * apply lookup_insert_Some in Hv as [?|[? ?]]; [by left|]. right. eauto.
      * destruct (decide (k = k')) as [<-|]; [|right; eauto]. exfalso. apply Hji.
        symmetry. eapply Hmine; eauto.
  - intros j1 j2 m1 m2 k'.
    intros [(<- & <- & _)|[Hn1 H1]]%list_lookup_insert_Some [(<- & <- & _)|[Hn2 H2]]%list_lookup_insert_Some;
      rewrite ?lookup_insert_is_Some'; [done|intros [<-|Hs] Hs2|intros Hs1 [<-|Hs]|];
      by eauto using eq_sym.
Qed.

Lemma parts_empty ms : Forall (λ m, m = ∅) ms -> parts ∅ ms.
Proof.
  rewrite Forall_lookup. intros H. split.
  - intros k v. rewrite lookup_empty. split; [done|]. intros (i & mi & Hi & Hk).
    by rewrite (H _ _ Hi), lookup_empty in Hk.
  - intros i j mi mj k Hi Hj [v Hv]. by rewrite (H _ _ Hi), lookup_empty in Hv.
Qed.
End parts.

(** ** One list in parts *)
Section concat.
Context {A : Type}.
Implicit Types ls : list (list A).

Lemma concat_part ls i l : ls !! i = Some l -> concat ls ≡ₚ l ++ concat (delete i ls).
Proof. intros H. by rewrite (delete_Permutation _ _ _ H) at 1. Qed.

Lemma concat_replace ls i l l' :
  ls !! i = Some l -> concat (<[i := l']> ls) ≡ₚ l' ++ concat (delete i ls).
Proof.
  intros H. assert (delete i (<[i := l']> ls) = delete i ls) as <-.
  { revert i H. induction ls as [|l0 ls IH]; intros [|i] H; cbn; try done. f_equal. by apply IH. }
  apply concat_part. rewrite list_lookup_insert_eq; [done|]. by eapply lookup_lt_Some.
Qed.

Lemma concat_one ls i j l l' x :
  NoDup (concat ls) -> ls !! i = Some l -> ls !! j = Some l' -> x ∈ l -> x ∈ l' -> i = j.
Proof.
  assert (∀ ls j l', ls !! j = Some l' -> x ∈ l' -> x ∈ concat ls) as Hin.
  { intros ls0 j0 l0 Hj Hx. rewrite (concat_part _ _ _ Hj). apply elem_of_app. by left. }
  revert i j. induction ls as [|l0 ls IH]; intros [|i] [|j]; cbn; intros Hnd Hi Hj Hx Hx'; try done;
    apply NoDup_app in Hnd as (_ & Hd & Hnd); simplify_eq.
  - exfalso. apply (Hd x Hx). by eapply Hin.
  - exfalso. apply (Hd x Hx'). by eapply Hin.
  - f_equal. by apply IH.
Qed.
End concat.
