(* ===== verification/Adapters.v ===== *)
(** * Adapters: event libraries for the asynchronous client (adapters/*.h)

    Each adapter gives the hooks of async.c to one event library.  Here an
    adapter is a record of operations over its own container, whose calls of
    the library are a tree; every call that may report a failure has its
    result, which the adapters ignore.  The callbacks that the libraries make
    are programs too, which call redisAsyncHandleRead and
    redisAsyncHandleWrite.  What is proved of them is in AdaptersSpec.v. *)

From Stdlib Require Import ZArith Lia.
From stdpp Require Import base list.
From S2P Require Import Prelude Calls.

(** ** The calls of the libraries *)

(** Directions of an event. *)
Inductive dir := In | Out.

Inductive ev_call : Type -> Type :=
  | ev_malloc : ev_call bool                       (* malloc, calloc: got a block *)
  | ev_free : ev_call unit
  | aeCreateFileEvent (d : dir) : ev_call Z
  | aeDeleteFileEvent (d : dir) : ev_call unit
  | ev_io_init (d : dir) : ev_call unit
  | ev_io_start (d : dir) : ev_call unit
  | ev_io_stop (d : dir) : ev_call unit
  | event_set (d : dir) : ev_call unit
  | event_base_set (d : dir) : ev_call Z
  | event_add (d : dir) : ev_call Z
  | event_del (d : dir) : ev_call Z
  | uv_poll_init : ev_call Z
  | uv_poll_start (events : Z) : ev_call Z
  | uv_poll_stop : ev_call unit
  | uv_close : ev_call unit                        (* on_close runs later *)
  | iv_fd_register (handler_in handler_out : bool) : ev_call unit
  | iv_fd_set_handler_in (handler : bool) : ev_call unit
  | iv_fd_set_handler_out (handler : bool) : ev_call unit
  | iv_fd_unregister : ev_call unit
  | CFSocketCreateWithNative : ev_call bool        (* with both callbacks *)
  | CFSocketCreateRunLoopSource : ev_call bool
  | CFRunLoopAddSource : ev_call unit
  | CFRunLoopSourceInvalidate : ev_call unit
  | CFSocketInvalidate : ev_call unit
  | CFRelease : ev_call unit
  | CFSocketEnableCallBacks (d : dir) : ev_call unit
  | CFSocketDisableCallBacks (d : dir) : ev_call unit
  | g_source_add_poll (fd events : Z) : ev_call unit
  | poll_fd_events (events : Z) : ev_call unit     (* a store that the main loop reads *)
  | g_main_context_wakeup : ev_call unit
  | g_source_remove_poll : ev_call unit
  | new_QSocketNotifier (d : dir) : ev_call unit   (* with its connect *)
  | delete_QSocketNotifier (d : dir) : ev_call unit
  | clear_ev_data : ev_call unit                   (* m_ctx->ev.data = NULL *)
  | user_callback : ev_call bool
  | redisAsyncHandleRead : ev_call bool            (* the context is still there *)
  | redisAsyncHandleWrite : ev_call bool.

(** The hooks that are called without a look at their result. *)
Definition ignore {X} (e : ev_call X) : prog ev_call unit := _ ← call e; mret tt.

Definition REDIS_OK : Z := 0.
Definition REDIS_ERR : Z := -1.

(** [ac->ev.data] after an attempt to attach. *)
Inductive ev_data (S : Type) : Type :=
  | NoData
  | Data (s : S)
  | Dangling.
Arguments NoData {S}.
Arguments Data {S} s.
Arguments Dangling {S}.

Record adapter := Adapter {
  container : Type;
  attach : ev_data container -> prog ev_call (Z * ev_data container);
  addRead : container -> prog ev_call container;
  delRead : container -> prog ev_call container;
  addWrite : container -> prog ev_call container;
  delWrite : container -> prog ev_call container;
  cleanup : container -> prog ev_call unit
}.

(** Nothing is attached when something is attached already. *)
Definition unattached {S} (data : ev_data S) (rest : prog ev_call (Z * ev_data S)) :
    prog ev_call (Z * ev_data S) :=
  match data with NoData => rest | _ => mret (REDIS_ERR, data) end.

(** A block whose allocation is not tested. *)
Definition unchecked_malloc {A} (rest : prog ev_call A) : prog ev_call A :=
  ok ← call ev_malloc; if (ok : bool) then rest else undef.

(** ** ae.h *)
Record redisAeEvents := Ae { ae_reading : bool; ae_writing : bool }.

Definition redisAeReadEvent : prog ev_call unit := ignore redisAsyncHandleRead.
Definition redisAeWriteEvent : prog ev_call unit := ignore redisAsyncHandleWrite.

Definition redisAeAddRead (e : redisAeEvents) : prog ev_call redisAeEvents :=
  if negb (ae_reading e) then ignore (aeCreateFileEvent In) ;; mret (Ae true (ae_writing e)) else mret e.
Definition redisAeDelRead (e : redisAeEvents) : prog ev_call redisAeEvents :=
  if ae_reading e then call (aeDeleteFileEvent In) ;; mret (Ae false (ae_writing e)) else mret e.
Definition redisAeAddWrite (e : redisAeEvents) : prog ev_call redisAeEvents :=
  if negb (ae_writing e) then ignore (aeCreateFileEvent Out) ;; mret (Ae (ae_reading e) true) else mret e.
Definition redisAeDelWrite (e : redisAeEvents) : prog ev_call redisAeEvents :=
  if ae_writing e then call (aeDeleteFileEvent Out) ;; mret (Ae (ae_reading e) false) else mret e.
Definition redisAeCleanup (e : redisAeEvents) : prog ev_call unit :=
  e ← redisAeDelRead e; _ ← redisAeDelWrite e; call ev_free.
Definition redisAeAttach (data : ev_data redisAeEvents) : prog ev_call (Z * ev_data redisAeEvents) :=
  unattached data (
  unchecked_malloc (mret (REDIS_OK, Data (Ae false false)))).

Definition ae : adapter :=
  Adapter _ redisAeAttach redisAeAddRead redisAeDelRead redisAeAddWrite redisAeDelWrite redisAeCleanup.

(** ** libev.h *)
Record redisLibevEvents := Libev { libev_reading : bool; libev_writing : bool }.

Definition redisLibevReadEvent : prog ev_call unit := ignore redisAsyncHandleRead.
Definition redisLibevWriteEvent : prog ev_call unit := ignore redisAsyncHandleWrite.

Definition redisLibevAddRead (e : redisLibevEvents) : prog ev_call redisLibevEvents :=
  if negb (libev_reading e) then call (ev_io_start In) ;; mret (Libev true (libev_writing e)) else mret e.
Definition redisLibevDelRead (e : redisLibevEvents) : prog ev_call redisLibevEvents :=
  if libev_reading e then call (ev_io_stop In) ;; mret (Libev false (libev_writing e)) else mret e.
Definition redisLibevAddWrite (e : redisLibevEvents) : prog ev_call redisLibevEvents :=
  if negb (libev_writing e) then call (ev_io_start Out) ;; mret (Libev (libev_reading e) true) else mret e.
Definition redisLibevDelWrite (e : redisLibevEvents) : prog ev_call redisLibevEvents :=
  if libev_writing e then call (ev_io_stop Out) ;; mret (Libev (libev_reading e) false) else mret e.
Definition redisLibevCleanup (e : redisLibevEvents) : prog ev_call unit :=
  e ← redisLibevDelRead e; _ ← redisLibevDelWrite e; call ev_free.
Definition redisLibevAttach (data : ev_data redisLibevEvents) : prog ev_call (Z * ev_data redisLibevEvents) :=
  unattached data (
  unchecked_malloc (call (ev_io_init In) ;; call (ev_io_init Out) ;;
    mret (REDIS_OK, Data (Libev false false)))).

Definition libev : adapter :=
  Adapter _ redisLibevAttach redisLibevAddRead redisLibevDelRead redisLibevAddWrite redisLibevDelWrite
    redisLibevCleanup.

(** ** libevent.h: the library itself knows what is added *)
Definition redisLibeventReadEvent : prog ev_call unit := ignore redisAsyncHandleRead.
Definition redisLibeventWriteEvent : prog ev_call unit := ignore redisAsyncHandleWrite.

Definition redisLibeventAddRead (e : unit) : prog ev_call unit := ignore (event_add In).
Definition redisLibeventDelRead (e : unit) : prog ev_call unit := ignore (event_del In).
Definition redisLibeventAddWrite (e : unit) : prog ev_call unit := ignore (event_add Out).
Definition redisLibeventDelWrite (e : unit) : prog ev_call unit := ignore (event_del Out).
Definition redisLibeventCleanup (e : unit) : prog ev_call unit :=
  ignore (event_del In) ;; ignore (event_del Out) ;; call ev_free.
Definition redisLibeventAttach (data : ev_data unit) : prog ev_call (Z * ev_data unit) :=
  unattached data (
  unchecked_malloc (call (event_set In) ;; call (event_set Out) ;;
    ignore (event_base_set In) ;; ignore (event_base_set Out) ;; mret (REDIS_OK, Data tt))).

Definition libevent : adapter :=
  Adapter _ redisLibeventAttach redisLibeventAddRead redisLibeventDelRead redisLibeventAddWrite
    redisLibeventDelWrite redisLibeventCleanup.

(** ** libuv.h *)
(** The constants of uv.h. *)
Definition UV_READABLE : Z := 1.
Definition UV_WRITABLE : Z := 2.

(** The container is its [events]. *)
Definition uv_update (events : Z) : prog ev_call Z :=
  (if negb (events =? 0) then ignore (uv_poll_start events) else call uv_poll_stop) ;; mret events.

Definition redisLibuvAddRead (events : Z) : prog ev_call Z :=
  let events := Z.lor events UV_READABLE in ignore (uv_poll_start events) ;; mret events.
Definition redisLibuvDelRead (events : Z) : prog ev_call Z :=
  uv_update (Z.land events (Z.lnot UV_READABLE)).
Definition redisLibuvAddWrite (events : Z) : prog ev_call Z :=
  let events := Z.lor events UV_WRITABLE in ignore (uv_poll_start events) ;; mret events.
Definition redisLibuvDelWrite (events : Z) : prog ev_call Z :=
  uv_update (Z.land events (Z.lnot UV_WRITABLE)).
Definition on_close : prog ev_call unit := call ev_free.
Definition redisLibuvCleanup (events : Z) : prog ev_call unit := call uv_close.
Definition redisLibuvAttach (data : ev_data Z) : prog ev_call (Z * ev_data Z) :=
  unattached data (
  ok ← call ev_malloc;
  if negb ok then mret (REDIS_ERR, NoData) else
  r ← call uv_poll_init;
  if negb (r =? 0) then mret (REDIS_ERR, NoData) else mret (REDIS_OK, Data 0)).

Definition libuv : adapter :=
  Adapter _ redisLibuvAttach redisLibuvAddRead redisLibuvDelRead redisLibuvAddWrite redisLibuvDelWrite
    redisLibuvCleanup.

(** The callback of the library; a handler may free the context. *)
Definition redisLibuvPoll (status events : Z) : prog ev_call unit :=
  if negb (status =? 0) then mret tt else
  (if negb (Z.land events UV_READABLE =? 0) then ignore redisAsyncHandleRead else mret tt) ;;
  (if negb (Z.land events UV_WRITABLE =? 0) then ignore redisAsyncHandleWrite else mret tt).

(** ** ivykis.h *)
Definition redisIvykisReadEvent : prog ev_call unit := ignore redisAsyncHandleRead.
Definition redisIvykisWriteEvent : prog ev_call unit := ignore redisAsyncHandleWrite.

Definition redisIvykisAddRead (e : unit) : prog ev_call unit := call (iv_fd_set_handler_in true).
Definition redisIvykisDelRead (e : unit) : prog ev_call unit := call (iv_fd_set_handler_in false).
Definition redisIvykisAddWrite (e : unit) : prog ev_call unit := call (iv_fd_set_handler_out true).
Definition redisIvykisDelWrite (e : unit) : prog ev_call unit := call (iv_fd_set_handler_out false).
Definition redisIvykisCleanup (e : unit) : prog ev_call unit := call iv_fd_unregister ;; call ev_free.
Definition redisIvykisAttach (data : ev_data unit) : prog ev_call (Z * ev_data unit) :=
  unattached data (
  unchecked_malloc (call (iv_fd_register true true) ;; mret (REDIS_OK, Data tt))).

Definition ivykis : adapter :=
  Adapter _ redisIvykisAttach redisIvykisAddRead redisIvykisDelRead redisIvykisAddWrite redisIvykisDelWrite
    redisIvykisCleanup.

(** ** macosx.h *)

(** Which of the references are not NULL. *)
Record RedisRunLoop := RunLoop { socketRef : bool; sourceRef : bool }.

Definition freeRedisRunLoop (redisRunLoop : option RedisRunLoop) : prog ev_call Z :=
  match redisRunLoop with
  | None => mret REDIS_ERR
  | Some l =>
      (if sourceRef l then call CFRunLoopSourceInvalidate ;; call CFRelease else mret tt) ;;
      (if socketRef l then call CFSocketInvalidate ;; call CFRelease else mret tt) ;;
      call ev_free ;;
      mret REDIS_ERR
  end.

Definition redisMacOSAddRead (l : RedisRunLoop) : prog ev_call RedisRunLoop :=
  call (CFSocketEnableCallBacks In) ;; mret l.
Definition redisMacOSDelRead (l : RedisRunLoop) : prog ev_call RedisRunLoop :=
  call (CFSocketDisableCallBacks In) ;; mret l.
Definition redisMacOSAddWrite (l : RedisRunLoop) : prog ev_call RedisRunLoop :=
  call (CFSocketEnableCallBacks Out) ;; mret l.
Definition redisMacOSDelWrite (l : RedisRunLoop) : prog ev_call RedisRunLoop :=
  call (CFSocketDisableCallBacks Out) ;; mret l.
Definition redisMacOSCleanup (l : RedisRunLoop) : prog ev_call unit :=
  _ ← freeRedisRunLoop (Some l); mret tt.

(** [ev.data] is set before the calls that may fail, and then not reset. *)
Definition redisMacOSAttach (data : ev_data RedisRunLoop) : prog ev_call (Z * ev_data RedisRunLoop) :=
  unattached data (
  ok ← call ev_malloc;
  if negb ok then mret (REDIS_ERR, NoData) else
  socketRef ← call CFSocketCreateWithNative;
  if negb socketRef then r ← freeRedisRunLoop (Some (RunLoop false false)); mret (r, Dangling) else
  sourceRef ← call CFSocketCreateRunLoopSource;
  if negb sourceRef then r ← freeRedisRunLoop (Some (RunLoop true false)); mret (r, Dangling) else
  call CFRunLoopAddSource ;;
  mret (REDIS_OK, Data (RunLoop true true))).

Definition macosx : adapter :=
  Adapter _ redisMacOSAttach redisMacOSAddRead redisMacOSDelRead redisMacOSAddWrite redisMacOSDelWrite
    redisMacOSCleanup.

Inductive CFSocketCallBackType := kCFSocketReadCallBack | kCFSocketWriteCallBack | other_callback.

Definition redisMacOSAsyncCallback (callbackType : CFSocketCallBackType) : prog ev_call unit :=
  match callbackType with
  | kCFSocketReadCallBack => ignore redisAsyncHandleRead
  | kCFSocketWriteCallBack => ignore redisAsyncHandleWrite
  | other_callback => mret tt
  end.

(** ** glib.h *)

(** The conditions, those of poll(2). *)
Definition G_IO_IN : Z := 1.
Definition G_IO_OUT : Z := 4.

(** The fields of [poll_fd]. *)
Record RedisSource := Source { fd : Z; events : Z; revents : Z }.

Definition set_events (source : RedisSource) (ev : Z) : prog ev_call RedisSource :=
  call (poll_fd_events ev) ;;
  call g_main_context_wakeup ;;
  mret (Source (fd source) ev (revents source)).

Definition redis_source_add_read (source : RedisSource) : prog ev_call RedisSource :=
  set_events source (Z.lor (events source) G_IO_IN).
Definition redis_source_del_read (source : RedisSource) : prog ev_call RedisSource :=
  set_events source (Z.land (events source) (Z.lnot G_IO_IN)).
Definition redis_source_add_write (source : RedisSource) : prog ev_call RedisSource :=
  set_events source (Z.lor (events source) G_IO_OUT).
Definition redis_source_del_write (source : RedisSource) : prog ev_call RedisSource :=
  set_events source (Z.land (events source) (Z.lnot G_IO_OUT)).

Definition redis_source_finalize (source : RedisSource) : prog ev_call RedisSource :=
  if 0 <=? fd source then call g_source_remove_poll ;; mret (Source (-1) (events source) (revents source))
  else mret source.

(** The source stays in the main loop; its end is the same code as that of
    redis_source_finalize. *)
Definition redis_source_cleanup (source : RedisSource) : prog ev_call unit :=
  source ← redis_source_del_read source;
  source ← redis_source_del_write source;
  if 0 <=? fd source then call g_source_remove_poll else mret tt.

Definition redis_source_prepare (source : RedisSource) : bool :=
  negb (Z.land (events source) (revents source) =? 0).
Definition redis_source_check (source : RedisSource) : bool :=
  negb (Z.land (events source) (revents source) =? 0).

Definition redis_source_dispatch (source : RedisSource) (callback : bool) :
    prog ev_call (RedisSource * bool) :=
  source ← (if negb (Z.land (revents source) G_IO_OUT =? 0) then
              ignore redisAsyncHandleWrite ;;
              mret (Source (fd source) (events source) (Z.land (revents source) (Z.lnot G_IO_OUT)))
            else mret source);
  source ← (if negb (Z.land (revents source) G_IO_IN =? 0) then
              ignore redisAsyncHandleRead ;;
              mret (Source (fd source) (events source) (Z.land (revents source) (Z.lnot G_IO_IN)))
            else mret source);
  if callback then r ← call user_callback; mret (source, r) else mret (source, true).

(** The source is new, and the program does not return without one.  What
    was attached before is lost. *)
Definition redis_source_new (c_fd : Z) (data : ev_data RedisSource) : prog ev_call (Z * ev_data RedisSource) :=
  call (g_source_add_poll c_fd 0) ;;
  mret (REDIS_OK, Data (Source c_fd 0 0)).

Definition glib (c_fd : Z) : adapter :=
  Adapter _ (redis_source_new c_fd) redis_source_add_read redis_source_del_read redis_source_add_write
    redis_source_del_write redis_source_cleanup.

(** ** qt.h *)

(** Whether [m_read] and [m_write] are set. *)
Record RedisQtAdapter := QtAdapter { m_read : bool; m_write : bool }.

Definition RedisQtAddRead (a : RedisQtAdapter) : prog ev_call RedisQtAdapter :=
  if m_read a then mret a else call (new_QSocketNotifier In) ;; mret (QtAdapter true (m_write a)).
Definition RedisQtDelRead (a : RedisQtAdapter) : prog ev_call RedisQtAdapter :=
  if negb (m_read a) then mret a else call (delete_QSocketNotifier In) ;; mret (QtAdapter false (m_write a)).
Definition RedisQtAddWrite (a : RedisQtAdapter) : prog ev_call RedisQtAdapter :=
  if m_write a then mret a else call (new_QSocketNotifier Out) ;; mret (QtAdapter (m_read a) true).
Definition RedisQtDelWrite (a : RedisQtAdapter) : prog ev_call RedisQtAdapter :=
  if negb (m_write a) then mret a else call (delete_QSocketNotifier Out) ;; mret (QtAdapter (m_read a) false).
Definition RedisQtCleanup (a : RedisQtAdapter) : prog ev_call unit :=
  a ← RedisQtDelRead a; _ ← RedisQtDelWrite a; mret tt.

(** The object is the caller's: setContext allocates nothing. *)
Definition setContext (data : ev_data RedisQtAdapter) : prog ev_call (Z * ev_data RedisQtAdapter) :=
  unattached data (
  mret (REDIS_OK, Data (QtAdapter false false))).

Definition qt : adapter :=
  Adapter _ setContext RedisQtAddRead RedisQtDelRead RedisQtAddWrite RedisQtDelWrite RedisQtCleanup.

Definition RedisQt_read : prog ev_call unit := ignore redisAsyncHandleRead.
Definition RedisQt_write : prog ev_call unit := ignore redisAsyncHandleWrite.

(** The destructor, of an object that has had a context or not. *)
Definition RedisQtAdapter_destroy (m_ctx : bool) : prog ev_call unit :=
  if m_ctx then call clear_ev_data else mret tt.
