(* ===== verification/AdaptersSpec.v ===== *)
(** * AdaptersSpec: what the adapters make their libraries watch

    The libraries are not in the repository: [EventLibrary] states what their
    documentation says of the calls that the adapters make, that is when a
    call may be made ([legal]), and what the library then watches ([effect]).
    The class [Watches] is what async.c needs of an adapter, and every
    adapter is an instance of it.  The last part is about the callbacks, and
    the context that a handler may have freed. *)

From Stdlib Require Import ZArith Lia.
From stdpp Require Import base list.
From S2P Require Import Prelude Calls Adapters.

Global Instance dir_eq_dec : EqDecision dir.
Proof. solve_decision. Defined.

(** ** The libraries *)

(** Calls on a handle need one that is registered. *)
Definition legal {X} (e : ev_call X) (registered : bool) : bool :=
  match e with
  | ev_io_start _ | ev_io_stop _ | event_base_set _ | event_add _ | event_del _
  | uv_poll_start _ | uv_poll_stop | uv_close
  | iv_fd_set_handler_in _ | iv_fd_set_handler_out _ | iv_fd_unregister
  | CFSocketCreateRunLoopSource | CFRunLoopAddSource | CFSocketInvalidate
  | CFSocketEnableCallBacks _ | CFSocketDisableCallBacks _
  | poll_fd_events _ | g_source_remove_poll => registered
  | _ => true
  end.

(** What a call changes in the directions that are watched. *)
Definition only (d : dir) (b : bool) (d' : dir) : option bool := if decide (d = d') then Some b else None.
Definition both (i o : bool) (d : dir) : option bool := Some (match d with In => i | Out => o end).
Definition bits (events i o : Z) : dir -> option bool :=
  both (negb (Z.land events i =? 0)) (negb (Z.land events o =? 0)).

Definition effect {X} (e : ev_call X) : X -> dir -> option bool :=
  match e with
  | aeCreateFileEvent d | event_add d => λ _, only d true
  | event_del d => λ _, only d false
  | ev_io_start d | CFSocketEnableCallBacks d | new_QSocketNotifier d => λ _, only d true
  | aeDeleteFileEvent d | ev_io_stop d | CFSocketDisableCallBacks d | delete_QSocketNotifier d => λ _, only d false
  | uv_poll_start events => λ _, bits events UV_READABLE UV_WRITABLE
  | uv_poll_stop | uv_close | iv_fd_unregister | CFSocketInvalidate | g_source_remove_poll => λ _, both false false
  | iv_fd_register i o => λ _, both i o
  | iv_fd_set_handler_in b => λ _, only In b
  | iv_fd_set_handler_out b => λ _, only Out b
  | CFSocketCreateWithNative => λ ok, if ok then both true true else λ _, None
  | g_source_add_poll _ events | poll_fd_events events => λ _, bits events G_IO_IN G_IO_OUT
  | _ => λ _ _, None
  end.

Definition registers {X} (e : ev_call X) : X -> option bool :=
  match e with
  | ev_io_init _ | event_set _ => λ _, Some true
  | uv_poll_init => λ r, if r =? 0 then Some true else None
  | iv_fd_register _ _ => λ _, Some true
  | g_source_add_poll _ _ => λ _, Some true
  | CFSocketCreateWithNative => λ ok, if ok then Some true else None
  | uv_close | iv_fd_unregister | CFSocketInvalidate | g_source_remove_poll => λ _, Some false
  | _ => λ _, None
  end.

(** The results with which the hooks are held to what they do: they look at
    none.  [checked] adapters test their allocation. *)
Definition succeeded (checked : bool) {X} (e : ev_call X) : X -> Prop :=
  match e with
  | ev_malloc => λ ok, checked = false -> ok = true
  | aeCreateFileEvent _ | event_base_set _ | event_add _ | event_del _ | uv_poll_start _ => λ r, r = 0
  | _ => λ _, True
  end.

Class EventLibrary (W : Type) := {
  lib_step {X} : ev_call X -> X -> W -> W;
  watching : W -> dir -> bool;
  registered : W -> bool;
  watching_step {X} (e : ev_call X) x w d :
    legal e (registered w) = true ->
    watching (lib_step e x w) d = default (watching w d) (effect e x d);
  registered_step {X} (e : ev_call X) x w :
    legal e (registered w) = true ->
    registered (lib_step e x w) = default (registered w) (registers e x)
}.

(** A library that is nothing but its documentation. *)
#[export, refine] Instance documented : EventLibrary ((dir -> bool) * bool) := {
  lib_step X e x w := (λ d, default (w.1 d) (effect e x d), default w.2 (registers e x));
  watching := fst;
  registered := snd
}.
Proof. all: done. Defined.

(** ** What async.c needs of an adapter *)
Inductive hook := AddRead | DelRead | AddWrite | DelWrite.

Definition run_hook (a : adapter) (h : hook) : container a -> prog ev_call (container a) :=
  match h with
  | AddRead => addRead a | DelRead => delRead a
  | AddWrite => addWrite a | DelWrite => delWrite a
  end.

Fixpoint run_hooks (a : adapter) (hs : list hook) (s : container a) : prog ev_call (container a) :=
  match hs with
  | [] => mret s
  | h :: hs => s ← run_hook a h s; run_hooks a hs s
  end.

(** Reading and writing, as the hooks ask for them. *)
Definition ask (w : bool * bool) (h : hook) : bool * bool :=
  match h with
  | AddRead => (true, w.2) | DelRead => (false, w.2)
  | AddWrite => (w.1, true) | DelWrite => (w.1, false)
  end.

(** A connection as the client uses it: its adapter attached, then the hooks;
    [None] if there is nothing attached. *)
Definition session (a : adapter) (hs : list hook) : prog ev_call (option (container a)) :=
  '(rc, data) ← attach a NoData;
  if negb (rc =? REDIS_OK) then mret None else
  match data with
  | Data s => s ← run_hooks a hs s; mret (Some s)
  | _ => undef
  end.

Definition closed_session (a : adapter) (hs : list hook) : prog ev_call unit :=
  s ← session a hs;
  match s with Some s => cleanup a s | None => mret tt end.

Section spec.
Context {W : Type} `{!EventLibrary W}.

Definition lib_spec (checked : bool) X (e : ev_call X) (w : W) (P : X -> W -> Prop) : Prop :=
  legal e (registered w) = true ∧ ∀ x, succeeded checked e x -> P x (lib_step e x w).

Definition watches (w : W) : bool * bool := (watching w In, watching w Out).

Definition view (w : W) (i o r : bool) : Prop := watches w = (i, o) ∧ registered w = r.

Lemma lib_spec_mono c X (e : ev_call X) w (P Q : X -> W -> Prop) :
  lib_spec c _ e w P -> (∀ x w', P x w' -> Q x w') -> lib_spec c _ e w Q.
Proof. intros [? HP] HPQ. split; eauto. Qed.

Lemma lib_bind c {A B} (p : prog ev_call A) (f : A -> prog ev_call B) Q w :
  dpost (lib_spec c) p (λ a w', dpost (lib_spec c) (f a) Q w') w ->
  dpost (lib_spec c) (p ≫= f) Q w.
Proof. apply dpost_bind, lib_spec_mono. Qed.

Lemma lib_call c {X} (e : ev_call X) (P : X -> W -> Prop) w i o r :
  view w i o r -> legal e r = true ->
  (∀ x w', succeeded c e x ->
     view w' (default i (effect e x In)) (default o (effect e x Out)) (default r (registers e x)) -> P x w') ->
  lib_spec c _ e w P.
Proof.
  intros [[= Hi Ho] Hr] Hl Hk. split; [by rewrite Hr|]. intros x Hx. apply Hk; [done|].
  unfold view, watches. rewrite !watching_step, registered_step by (by rewrite Hr). by rewrite Hi, Ho, Hr.
Qed.

Class Watches (a : adapter) (checked : bool) (w0 : bool * bool) := {
  holds : container a -> bool -> bool -> bool -> Prop;
  attach_ok w r :
    view w false false r ->
    dpost (lib_spec checked) (attach a NoData) (λ '(rc, data) w',
      match data with
      | Data s => rc = REDIS_OK ∧ ∃ r', view w' w0.1 w0.2 r' ∧ holds s w0.1 w0.2 r'
      | _ => rc = REDIS_ERR ∧ watches w' = (false, false)
      end) w;
  hook_ok h s w i o r :
    view w i o r -> holds s i o r ->
    dpost (lib_spec checked) (run_hook a h s) (λ s' w',
      ∃ r', view w' (ask (i, o) h).1 (ask (i, o) h).2 r' ∧
            holds s' (ask (i, o) h).1 (ask (i, o) h).2 r') w;
  cleanup_ok s w i o r :
    view w i o r -> holds s i o r ->
    dpost (lib_spec checked) (cleanup a s) (λ _ w', watches w' = (false, false)) w
}.

End spec.

(** One call at a time; the containers are concrete. *)
Ltac lib_run :=
  repeat first
    [ progress (cbn in *; subst)
    | done
    | match goal with
      | H : ?x = ?x -> _ |- _ => specialize (H eq_refl)
      | |- _ ∧ _ => split
      | |- ∃ _, _ => eexists
      | |- lib_spec _ _ _ _ _ => eapply lib_call; [eassumption|done|intros ????]
      | H : context [?x =? 0] |- _ => is_var x; destruct (x =? 0)
      | |- dpost _ (if ?b then _ else _) _ _ => destruct b eqn:?
      | |- dpost _ (redisLibuvDelRead _) _ _ => unfold redisLibuvDelRead, uv_update
      | |- dpost _ (redisLibuvDelWrite _) _ _ => unfold redisLibuvDelWrite, uv_update
      | |- context [Z.land ?a (Z.lnot ?b)] =>
          let c := eval vm_compute in (Z.land a (Z.lnot b)) in change (Z.land a (Z.lnot b)) with c
      | H : view _ _ _ _ |- view _ _ _ _ => exact H
      | H : view ?w _ _ _ |- watches ?w = _ => exact (proj1 H)
      | |- dpost _ (if ?x =? 0 then _ else _) _ _ => is_var x; destruct (x =? 0)
      | x : bool |- _ => destruct x
      end ].

Ltac adapter_run :=
  intros;
  repeat match goal with
    | h : hook |- _ => destruct h
    | b : bool |- _ => destruct b
    end;
  cbn in *; destruct_and?; subst; lib_run.

Section instances.
Context {W : Type} `{!EventLibrary W}.

#[export, refine] Instance ae_watches : Watches ae false (false, false) := {
  holds s i o r := s = Ae i o
}.
Proof. all: adapter_run. Defined.

#[export, refine] Instance libev_watches : Watches libev false (false, false) := {
  holds s i o r := r = true ∧ s = Libev i o
}.
Proof. all: adapter_run. Defined.

#[export, refine] Instance libevent_watches : Watches libevent false (false, false) := {
  holds s i o r := r = true
}.
Proof. all: adapter_run. Defined.

#[export, refine] Instance libuv_watches : Watches libuv true (false, false) := {
  holds s i o r := r = true ∧ s = match i, o with true, true => 3 | true, false => 1 | false, true => 2 | false, false => 0 end
}.
Proof. all: adapter_run. Defined.

#[export, refine] Instance ivykis_watches : Watches ivykis false (true, true) := {
  holds s i o r := r = true
}.
Proof. all: adapter_run. Defined.

#[export, refine] Instance macosx_watches : Watches macosx true (true, true) := {
  holds s i o r := r = true ∧ s = RunLoop true true
}.
Proof. all: adapter_run. Defined.

#[export, refine] Instance qt_watches : Watches qt true (false, false) := {
  holds s i o r := s = QtAdapter i o
}.
Proof. all: adapter_run. Defined.

#[export, refine] Instance glib_watches c_fd : Watches (glib c_fd) true (false, false) := {
  holds s i o r := r = true ∧ s = Source c_fd (match i, o with true, true => 5 | true, false => 1 | false, true => 4 | false, false => 0 end) 0
}.
Proof. all: adapter_run. Defined.

(** ** Sessions *)
Lemma run_hooks_ok `{!Watches a c w0} hs s w i o r :
  view w i o r -> holds s i o r ->
  dpost (lib_spec c) (run_hooks a hs s) (λ s' w',
    ∃ i' o' r', foldl ask (i, o) hs = (i', o') ∧ view w' i' o' r' ∧ holds s' i' o' r') w.
Proof.
  revert s w i o r. induction hs as [|h hs IH]; intros s w i o r Hv Hh; cbn [run_hooks foldl].
  { by exists i, o, r. }
  apply lib_bind. eapply dpost_mono; [apply lib_spec_mono|exact (hook_ok h s w i o r Hv Hh)|].
  intros s' w' (r' & Hv' & Hh'). destruct (ask (i, o) h) as [i' o']. eauto.
Qed.

Lemma session_ok `{!Watches a c w0} hs w r :
  view w false false r ->
  dpost (lib_spec c) (session a hs) (λ s w',
    match s with
    | Some s => ∃ i o r', foldl ask w0 hs = (i, o) ∧ view w' i o r' ∧ holds s i o r'
    | None => watches w' = (false, false)
    end) w.
Proof.
  intros Hv. unfold session. apply lib_bind.
  eapply dpost_mono; [apply lib_spec_mono|exact (attach_ok w r Hv)|].
  intros [rc data] w' H. destruct data as [|s|]; cbn.
  - by destruct H as [-> H].
  - destruct H as (-> & r' & Hv' & Hh). cbn. apply lib_bind. destruct w0 as [i o].
    eapply dpost_mono; [apply lib_spec_mono|exact (run_hooks_ok hs s w' i o r' Hv' Hh)|]. done.
  - by destruct H as [-> H].
Qed.

Lemma closed_session_ok `{!Watches a c w0} hs w r :
  view w false false r ->
  dpost (lib_spec c) (closed_session a hs) (λ _ w', watches w' = (false, false)) w.
Proof.
  intros Hv. apply lib_bind.
  eapply dpost_mono; [apply lib_spec_mono|exact (session_ok hs w r Hv)|].
  intros [s|] w'; cbn; [|done].
  intros (i & o & r' & _ & Hv' & Hh). exact (cleanup_ok s w' i o r' Hv' Hh).
Qed.
End instances.

(** The adapters of hiredis, with whether they test their allocation: those
    that watch nothing before a hook asks, and those that watch both
    directions from the moment they are attached. *)
Inductive on_demand : adapter -> bool -> Prop :=
  | demand_ae : on_demand ae false
  | demand_libev : on_demand libev false
  | demand_libevent : on_demand libevent false
  | demand_libuv : on_demand libuv true
  | demand_qt : on_demand qt true
  | demand_glib c_fd : on_demand (glib c_fd) true.

Inductive at_once : adapter -> bool -> Prop :=
  | once_ivykis : at_once ivykis false
  | once_macosx : at_once macosx true.

Lemma session_watches {W} `{!EventLibrary W} a c w0 `{!Watches a c w0} hs (w : W) :
  watches w = (false, false) ->
  dpost (lib_spec c) (session a hs) (λ s w', watches w' = if s then foldl ask w0 hs else (false, false)) w ∧
  dpost (lib_spec c) (closed_session a hs) (λ _ w', watches w' = (false, false)) w.
Proof.
  intros Hw. assert (view w false false (registered w)) as Hv by done.
  split; [|exact (closed_session_ok hs w _ Hv)].
  eapply dpost_mono; [apply lib_spec_mono|exact (session_ok hs w _ Hv)|].
  intros [s|] w'; [|done]. by intros (i & o & r & -> & [? _] & _).
Qed.

(** C23: What the event library watches for a connection.  If the calls whose
    results an adapter does not test succeed, the adapters of ae, libev,
    libevent, libuv, Qt and GLib leave their library watching exactly what
    the hooks have asked for, in whatever order they are called.  Those of
    ivykis and macosx do not: they have it watch both directions from the
    moment they are attached, and a direction that no hook has asked for
    stays watched until a hook asks to stop.  Every adapter calls its library
    only with a registered handle; after the cleanup nothing is watched, nor
    after an attempt to attach that fails. *)
Theorem adapters_watch {W} `{!EventLibrary W} hs (w : W) (Hw : watches w = (false, false)) :
  (∀ a c, on_demand a c -> dpost (lib_spec c) (session a hs) (λ s w',
     watches w' = if s then foldl ask (false, false) hs else (false, false)) w) ∧
  (∀ a c, at_once a c -> dpost (lib_spec c) (session a hs) (λ s w',
     watches w' = if s then foldl ask (true, true) hs else (false, false)) w) ∧
  (∀ a c, on_demand a c ∨ at_once a c ->
     dpost (lib_spec c) (closed_session a hs) (λ _ w', watches w' = (false, false)) w).
Proof.
  split; [|split].
  - intros a c Ha. destruct Ha; by apply (session_watches _ _ (false, false)).
  - intros a c Ha. destruct Ha; by apply (session_watches _ _ (true, true)).
  - intros a c [Ha|Ha].
    + destruct Ha; by apply (session_watches _ _ (false, false)).
    + destruct Ha; by apply (session_watches _ _ (true, true)).
Qed.

(** The same hooks on two adapters: one watches a direction that no hook has
    asked for. *)
Lemma adapters_watch_witness :
  let w : (dir -> bool) * bool := (λ _, false, false) in
  dpost (lib_spec true) (session libuv [AddRead]) (λ s w',
    watches w' = if s then (true, false) else (false, false)) w ∧
  dpost (lib_spec false) (session ivykis [AddRead]) (λ s w',
    watches w' = if s then (true, true) else (false, false)) w ∧
  dpost (lib_spec true) (closed_session macosx [AddRead]) (λ _ w', watches w' = (false, false)) w.
Proof.
  intros w. assert (watches w = (false, false)) as Hw by done.
  destruct (adapters_watch [AddRead] w Hw) as (Hd & Ho & Hc).
  split; [exact (Hd libuv true demand_libuv)|]. split; [exact (Ho ivykis false once_ivykis)|].
  exact (Hc macosx true (or_intror once_macosx)).
Defined.

(** ** Callbacks

    The ghost state is whether the context is still there.  A handler may
    free it, as redisAsyncFree does after the last callback. *)
Definition context_step X (e : ev_call X) : X -> bool -> option bool :=
  match e with
  | redisAsyncHandleRead | redisAsyncHandleWrite => λ alive there, if there then Some alive else None
  | clear_ev_data => λ _ there, if there then Some true else None
  | _ => λ _ there, Some there
  end.

(** No use of a context that a handler has freed. *)
Definition uses_live_context {A} (p : prog ev_call A) : Prop :=
  tpost False context_step p (λ _ _, True) true.

Definition one_handler : list (prog ev_call unit) :=
  [redisAeReadEvent; redisAeWriteEvent; redisLibevReadEvent; redisLibevWriteEvent;
   redisLibeventReadEvent; redisLibeventWriteEvent; redisIvykisReadEvent; redisIvykisWriteEvent;
   redisMacOSAsyncCallback kCFSocketReadCallBack; redisMacOSAsyncCallback kCFSocketWriteCallBack;
   redisMacOSAsyncCallback other_callback; RedisQt_read; RedisQt_write].

(** Two handlers in a row, and the first one may free: no.  Otherwise every
    call is made in a live context. *)
Ltac second_is_late :=
  intros H; destruct (H false) as (? & [= <-] & [? [? ?]]%(λ H', H' true)); done.
Ltac all_live :=
  repeat first [ done | progress cbn | match goal with
    | |- ∀ x : bool, _ => intros []
    | |- ∃ s, Some _ = Some s ∧ _ => eexists; split; [reflexivity|]
    | |- tpost _ _ (if ?b then _ else _) _ _ => destruct b
    end ].

(** C24: the callbacks that call one handler never use a freed context; those
    of libuv and GLib, which call both when the socket is ready both ways, do
    so unless it is ready one way only (for libuv: or there was an error). *)
Theorem callbacks_live_context :
  Forall uses_live_context one_handler ∧
  (∀ status events,
     uses_live_context (redisLibuvPoll status events) <->
     status ≠ 0 ∨ Z.land events UV_READABLE = 0 ∨ Z.land events UV_WRITABLE = 0) ∧
  (∀ source callback,
     uses_live_context (redis_source_dispatch source callback) <->
     Z.land (revents source) G_IO_OUT = 0 ∨
     Z.land (revents source) G_IO_IN = 0).
Proof.
  split; [|split].
  - unfold one_handler. unfold uses_live_context. repeat constructor; all_live.
  - intros status events. unfold uses_live_context, redisLibuvPoll.
    destruct (Z.eqb_spec status 0); cbn [negb]; [|split; [tauto|done]].
    destruct (Z.eqb_spec (Z.land events UV_READABLE) 0), (Z.eqb_spec (Z.land events UV_WRITABLE) 0);
      (split; [first [second_is_late|tauto] | intros [|[|]]; try done; all_live]).
  - intros source callback. unfold uses_live_context, redis_source_dispatch.
    assert (Z.land (Z.land (revents source) (Z.lnot G_IO_OUT)) G_IO_IN = Z.land (revents source) G_IO_IN) as Hin
      by (by rewrite <-Z.land_assoc).
    destruct (Z.eqb_spec (Z.land (revents source) G_IO_OUT) 0);
      cbn -[Z.land Z.lnot]; rewrite ?Hin;
      destruct (Z.eqb_spec (Z.land (revents source) G_IO_IN) 0);
      (split; [first [second_is_late|tauto] | intros [|]; try done; all_live]).
Qed.

(** The destructor of the Qt adapter stores through its context, also when
    the client has cleaned up and freed it. *)
Lemma qt_destroy_after_free : ¬ tpost False context_step (RedisQtAdapter_destroy true) (λ _ _, True) false.
Proof. intros H. by destruct (H tt) as (? & ? & _). Qed.
