(* ===== verification/Ltram.v ===== *)
(** * Ltram: the write-fault handler of the LtRAM zone (ltram.c)

    [ltram_page_mkwrite] over a kernel that is a parameter, and any number of
    faults handled at the same time on different processors: a pool of
    handlers, of which each step runs one call of one handler.  The counters
    are the only state the handlers share. *)

From Stdlib Require Import ZArith Lia.
From stdpp Require Import base list relations.
From S2P Require Import Prelude Calls.

(** What the module uses of the kernel: a page belongs to a folio, a folio
    lies in a zone for good, and the codes of the fault path are different. *)
Class LtramKernel := {
  folio : Type;
  page : Type;
  page_folio : page -> folio;
  folio_zonenum : folio -> Z;
  ZONE_LTRAM : Z;
  VM_FAULT_NOPAGE : Z;
  VM_FAULT_RETRY : Z;
  fault_codes : VM_FAULT_NOPAGE ≠ 0 ∧ VM_FAULT_RETRY ≠ 0 ∧
    VM_FAULT_NOPAGE ≠ VM_FAULT_RETRY
}.

(** The static [ltram_stats]: three [atomic_long_t]. *)
Record ltram_stats := Stats {
  nr_repat : Z;
  nr_repat_fail : Z;
  nr_warn_wrong_zone : Z
}.

Inductive counter := C_repat | C_repat_fail | C_warn_wrong_zone.

(** [atomic_long_inc]: 64 bits, wrapping around. *)
Definition atomic_long_inc (c : counter) (s : ltram_stats) : ltram_stats :=
  match c with
  | C_repat => Stats (i64 (nr_repat s + 1)) (nr_repat_fail s) (nr_warn_wrong_zone s)
  | C_repat_fail => Stats (nr_repat s) (i64 (nr_repat_fail s + 1)) (nr_warn_wrong_zone s)
  | C_warn_wrong_zone => Stats (nr_repat s) (nr_repat_fail s) (i64 (nr_warn_wrong_zone s + 1))
  end.

Section ltram.
Context {K : LtramKernel}.

Record vm_fault := VmFault { vmf_page : page }.

(** The calls of the handler: its effects on memory other processors see. *)
Inductive fault_call : Type -> Type :=
  | inc (c : counter) : fault_call unit
  | pr_warn_ratelimited (zone : Z) : fault_call unit
  | ltram_migrate_from (f : folio) : fault_call Z.

Definition ltram_page_mkwrite (vmf : vm_fault) : prog fault_call Z :=
  let folio := page_folio (vmf_page vmf) in
  if negb (folio_zonenum folio =? ZONE_LTRAM) then
    call (inc C_warn_wrong_zone) ;;
    call (pr_warn_ratelimited (folio_zonenum folio)) ;;
    mret 0
  else
    err ← call (ltram_migrate_from folio);
    if negb (err =? 0) then
      call (inc C_repat_fail) ;;
      mret VM_FAULT_RETRY
    else
      call (inc C_repat) ;;
      mret VM_FAULT_NOPAGE.

(** ** Faults on several processors *)

(** The migrations made so far, each with its result, newest first. *)
Definition migrations : Type := list (folio * Z).
Definition world : Type := ltram_stats * migrations.

(** What a call does, and the result it may have: a migration has any
    result, whatever the others did before. *)
Definition handle {X} (e : fault_call X) (w : world) : X -> world -> Prop :=
  match e in fault_call X return X -> world -> Prop with
  | inc c => λ _ w', w' = (atomic_long_inc c w.1, w.2)
  | pr_warn_ratelimited _ => λ _ w', w' = w
  | ltram_migrate_from f => λ err w', w' = (w.1, (f, err) :: w.2)
  end.

Record task := Task { task_fault : vm_fault; task_rest : prog fault_call Z }.
Definition pool : Type := list task.

Inductive pool_step : pool * world -> pool * world -> Prop :=
  | step_fault ts w vmf :
      pool_step (ts, w) (ts ++ [Task vmf (ltram_page_mkwrite vmf)], w)
  | step_task ts1 vmf X (e : fault_call X) k ts2 w x w' :
      handle e w x w' ->
      pool_step (ts1 ++ Task vmf (Call e k) :: ts2, w)
                (ts1 ++ Task vmf (k x) :: ts2, w').

Definition boot : pool * world := ([], (Stats 0 0 0, [])).
Definition reachable : pool * world -> Prop := rtc pool_step boot.

(** The faults that have returned the code [r]. *)
Definition returned (r : Z) (t : task) : bool :=
  match task_rest t with Ret v => v =? r | _ => false end.
Definition finished (t : task) : Prop := ∃ r, task_rest t = Ret r.
Definition count {A} (f : A -> bool) (l : list A) : Z :=
  Z.of_nat (length (List.filter f l)).

(** Running a schedule: a fault, or the next call of the [i]-th handler, with
    the result of the migration if it is one. *)
Inductive action := Fault (vmf : vm_fault) | Run (i : nat) (err : Z).

Definition serve {X} (e : fault_call X) (err : Z) (w : world) : X * world :=
  match e in fault_call X return X * world with
  | inc c => (tt, (atomic_long_inc c w.1, w.2))
  | pr_warn_ratelimited _ => (tt, w)
  | ltram_migrate_from f => (err, (w.1, (f, err) :: w.2))
  end.

Definition act (a : action) (s : pool * world) : option (pool * world) :=
  let '(ts, w) := s in
  match a with
  | Fault vmf => Some (ts ++ [Task vmf (ltram_page_mkwrite vmf)], w)
  | Run i err =>
      match ts !! i with
      | Some (Task vmf (Call e k)) =>
          let '(x, w') := serve e err w in Some (<[i := Task vmf (k x)]> ts, w')
      | _ => None
      end
  end.

Fixpoint execute (l : list action) (s : pool * world) : option (pool * world) :=
  match l with
  | [] => Some s
  | a :: l' => s' ← act a s; execute l' s'
  end.

Lemma serve_handle X (e : fault_call X) err w : handle e w (serve e err w).1 (serve e err w).2.
Proof. by destruct e. Qed.

Lemma act_step a s s' : act a s = Some s' -> pool_step s s'.
Proof.
  destruct s as [ts w], a as [vmf|i err]; cbn.
  - intros [= <-]. constructor.
  - destruct (ts !! i) as [[vmf [r|X e k|]]|] eqn:Hi; try done.
    pose proof (serve_handle X e err w) as Hx.
    destruct (serve e err w) as [x w']. intros [= <-].
    rewrite <-(take_drop_middle _ _ _ Hi) at 1.
    rewrite (insert_take_drop _ _ _ (lookup_lt_Some _ _ _ Hi)). by constructor.
Qed.

Lemma execute_reachable l s : execute l boot = Some s -> reachable s.
Proof.
  assert (∀ s0, execute l s0 = Some s -> rtc pool_step s0 s) as H; [|apply H].
  induction l as [|a l IH]; cbn; intros s0.
  - intros [= ->]. constructor.
  - destruct (act a s0) as [s1|] eqn:Ha; [|done]. cbn. intros H.
    eapply rtc_l; [by apply (act_step a)|auto].
Qed.

(** ** What a handler has done so far *)
Record tally := Tally {
  t_repat : Z;   (* increments of nr_repat *)
  t_fail : Z;    (* of nr_repat_fail *)
  t_warn : Z;    (* of nr_warn_wrong_zone *)
  t_moved : Z;   (* successful migrations *)
  t_busy : Z     (* failed migrations *)
}.
Definition tzero : tally := Tally 0 0 0 0 0.
Definition tadd (a b : tally) : tally :=
  Tally (t_repat a + t_repat b) (t_fail a + t_fail b) (t_warn a + t_warn b)
        (t_moved a + t_moved b) (t_busy a + t_busy b).
Definition total (ys : list tally) : tally := foldr tadd tzero ys.

Definition in_ltram (vmf : vm_fault) : Prop :=
  folio_zonenum (page_folio (vmf_page vmf)) = ZONE_LTRAM.

(** The folio of a fault, and whether a migration of it has been made. *)
Definition fault_folio (vmf : vm_fault) : folio := page_folio (vmf_page vmf).
Definition repatriated (vmf : vm_fault) (ms : migrations) : Prop :=
  (fault_folio vmf, 0) ∈ ms.
Definition refused (vmf : vm_fault) (ms : migrations) : Prop :=
  ∃ err, err ≠ 0 ∧ (fault_folio vmf, err) ∈ ms.

(** Where a handler may be, with what it has done to get there. *)
Inductive phase (ms : migrations) (vmf : vm_fault) : prog fault_call Z -> tally -> Prop :=
  | ph_start : phase ms vmf (ltram_page_mkwrite vmf) tzero
  | ph_warn z : ¬ in_ltram vmf ->
      phase ms vmf (Call (pr_warn_ratelimited z) (λ _, Ret 0)) (Tally 0 0 1 0 0)
  | ph_plain : ¬ in_ltram vmf -> phase ms vmf (Ret 0) (Tally 0 0 1 0 0)
  | ph_failed : refused vmf ms ->
      phase ms vmf (Call (inc C_repat_fail) (λ _, Ret VM_FAULT_RETRY)) (Tally 0 0 0 0 1)
  | ph_retry : refused vmf ms ->
      phase ms vmf (Ret VM_FAULT_RETRY) (Tally 0 1 0 0 1)
  | ph_moved : repatriated vmf ms ->
      phase ms vmf (Call (inc C_repat) (λ _, Ret VM_FAULT_NOPAGE)) (Tally 0 0 0 1 0)
  | ph_nopage : repatriated vmf ms ->
      phase ms vmf (Ret VM_FAULT_NOPAGE) (Tally 1 0 0 1 0).

Lemma phase_mono ms ms' vmf p y : ms ⊆ ms' -> phase ms vmf p y -> phase ms' vmf p y.
Proof.
  unfold refused, repatriated. intros Hms.
  destruct 1; constructor; unfold refused, repatriated in *; naive_solver.
Qed.

Lemma handle_grows X (e : fault_call X) w x w' : handle e w x w' -> w.2 ⊆ w'.2.
Proof. destruct e; cbn; intros ->; cbn; set_solver. Qed.

Definition moved (m : folio * Z) : bool := m.2 =? 0.

(** The world holds what the handlers have done, in 64 bits. *)
Record accounts (w : world) (T : tally) : Prop := {
  ac_repat : nr_repat w.1 = i64 (t_repat T);
  ac_fail : nr_repat_fail w.1 = i64 (t_fail T);
  ac_warn : nr_warn_wrong_zone w.1 = i64 (t_warn T);
  ac_moved : count moved w.2 = t_moved T;
  ac_busy : count (negb ∘ moved) w.2 = t_busy T;
  ac_zone : Forall (λ m, folio_zonenum m.1 = ZONE_LTRAM) w.2
}.

Definition accounted (s : pool * world) : Prop :=
  ∃ ys, Forall2 (λ t, phase s.2.2 (task_fault t) (task_rest t)) s.1 ys ∧
        accounts s.2 (total ys).

Lemma count_cons {A} (f : A -> bool) a l :
  count f (a :: l) = (if f a then 1 else 0) + count f l.
Proof. unfold count. cbn. destruct (f a); cbn [length]; lia. Qed.

Lemma count_app {A} (f : A -> bool) l k : count f (l ++ k) = count f l + count f k.
Proof. unfold count. rewrite List.filter_app, length_app. lia. Qed.

Lemma tadd_assoc a b c : tadd a (tadd b c) = tadd (tadd a b) c.
Proof. unfold tadd. cbn. f_equal; lia. Qed.
Lemma tadd_comm a b : tadd a b = tadd b a.
Proof. unfold tadd. f_equal; lia. Qed.
Lemma tadd_0_l a : tadd tzero a = a.
Proof. by destruct a. Qed.

Lemma total_cons y ys : total (y :: ys) = tadd y (total ys).
Proof. done. Qed.

Lemma total_app ys zs : total (ys ++ zs) = tadd (total ys) (total zs).
Proof.
  induction ys as [|y ys IH]; [by rewrite tadd_0_l|].
  cbn [app]. by rewrite !total_cons, IH, tadd_assoc.
Qed.

Definition inc_tally (c : counter) : tally :=
  match c with
  | C_repat => Tally 1 0 0 0 0
  | C_repat_fail => Tally 0 1 0 0 0
  | C_warn_wrong_zone => Tally 0 0 1 0 0
  end.
Definition migrate_tally (err : Z) : tally :=
  if err =? 0 then Tally 0 0 0 1 0 else Tally 0 0 0 0 1.

Lemma accounts_inc c w T :
  accounts w T -> accounts (atomic_long_inc c w.1, w.2) (tadd T (inc_tally c)).
Proof.
  intros [Hr Hf Hw Hm Hb Hz].
  destruct c; split; cbn; rewrite ?Z.add_0_r; try done.
  all: rewrite ?Hr, ?Hf, ?Hw; by apply swrap_add.
Qed.

Lemma accounts_migrate f err w T :
  folio_zonenum f = ZONE_LTRAM -> accounts w T ->
  accounts (w.1, (f, err) :: w.2) (tadd T (migrate_tally err)).
Proof.
  intros Hzone [Hr Hf Hw Hm Hb Hz]. unfold migrate_tally.
  destruct (err =? 0) eqn:Herr; split; cbn; rewrite ?Z.add_0_r; try done.
  all: rewrite ?count_cons; unfold compose, moved in *; cbn; rewrite ?Herr; cbn;
    try lia; constructor; done.
Qed.

(** One call of one handler: what it adds to the handler's tally it adds to
    the world. *)
Lemma phase_step vmf p y w T :
  phase w.2 vmf p y -> accounts w T ->
  match p with
  | Call e k => ∀ x w', handle e w x w' ->
      ∃ d, phase w'.2 vmf (k x) (tadd y d) ∧ accounts w' (tadd T d)
  | _ => True
  end.
Proof.
  intros Hp Hw. destruct Hp as [|z Hz| |Hz| |Hz|]; try done.
  2: { intros x w' ->. exists tzero. rewrite tadd_comm, (tadd_comm T), !tadd_0_l.
       auto using phase. }
  2-3: intros x w' ->; eexists; split; [|by apply accounts_inc]; by constructor.
  unfold ltram_page_mkwrite. destruct (folio_zonenum _ =? ZONE_LTRAM) eqn:Ez; cbn -[handle].
  - apply Z.eqb_eq in Ez. intros err w' ->. eexists.
    split; [|by apply accounts_migrate]. rewrite tadd_0_l. unfold migrate_tally.
    destruct (err =? 0) eqn:Herr; constructor; cbn.
    + apply Z.eqb_eq in Herr. subst. apply list_elem_of_here.
    + apply Z.eqb_neq in Herr. exists err. split; [done|apply list_elem_of_here].
  - apply Z.eqb_neq in Ez. intros x w' ->. eexists.
    split; [|by apply accounts_inc]. by constructor.
Qed.

Lemma accounted_step s s' : pool_step s s' -> accounted s -> accounted s'.
Proof.
  destruct 1 as [ts w vmf|ts1 vmf X e k ts2 w x w' Hx]; intros (ys & Hys & Hw).
  - exists (ys ++ [tzero]). rewrite total_app, total_cons.
    cbn. rewrite tadd_0_l, tadd_comm, tadd_0_l. split; [|done].
    apply Forall2_app; [done|]. constructor; [constructor|constructor].
  - apply Forall2_app_inv_l in Hys as (ys1 & ys' & H1 & H2 & ->).
    apply Forall2_cons_inv_l in H2 as (y & ys2 & Hp & H2 & ->).
    destruct (phase_step _ _ _ _ _ Hp Hw x w' Hx) as (d & Hp' & Hw').
    exists (ys1 ++ tadd y d :: ys2). split.
    + apply handle_grows in Hx. apply Forall2_app; [|constructor; [done|]].
      all: eapply Forall2_impl; [eassumption|]; intros t z; by apply phase_mono.
    + cbn [snd]. rewrite total_app, total_cons in *.
      replace (tadd _ _) with (tadd (tadd (total ys1) (tadd y (total ys2))) d); [done|].
      rewrite <-!tadd_assoc. do 2 f_equal. apply tadd_comm.
Qed.

Lemma reachable_accounted s : reachable s -> accounted s.
Proof.
  intros H. refine (rtc_ind_r accounted boot _ _ s H).
  - exists []. split; [constructor|]. by split.
  - intros s1 s2 _ Hstep Hs. eauto using accounted_step.
Qed.

(** What a handler that has returned stands for. *)
Definition settled (ms : migrations) (t : task) : Prop :=
  (task_rest t = Ret 0 ∧ ¬ in_ltram (task_fault t)) ∨
  (task_rest t = Ret VM_FAULT_RETRY ∧ refused (task_fault t) ms) ∨
  (task_rest t = Ret VM_FAULT_NOPAGE ∧ repatriated (task_fault t) ms).

(** Handlers that have returned: their codes, and the total of their tallies. *)
Lemma finished_total ms ts ys :
  Forall2 (λ t, phase ms (task_fault t) (task_rest t)) ts ys -> Forall finished ts ->
  Forall (settled ms) ts ∧
  total ys =
    Tally (count (returned VM_FAULT_NOPAGE) ts) (count (returned VM_FAULT_RETRY) ts)
          (count (returned 0) ts)
          (count (returned VM_FAULT_NOPAGE) ts) (count (returned VM_FAULT_RETRY) ts).
Proof.
  destruct fault_codes as (Hn & Hr & Hnr).
  induction 1 as [|[vmf p] y ts ys Hp _ IH]; [by split|].
  intros [[r Hfin] Hts]%Forall_cons. cbn in Hfin, Hp. subst p.
  destruct IH as [Hset IH]; [done|].
  rewrite total_cons, IH. rewrite !count_cons. unfold returned. cbn.
  inversion Hp; subst.
  1: { unfold ltram_page_mkwrite in *. by destruct (_ =? _). }
  all: split; [constructor; [unfold settled; naive_solver|done]|].
  all: unfold tadd; cbn; repeat case_match; f_equal; lia.
Qed.

(** ** The theorem *)

(** C15: However the handlers of any number of write faults interleave and
    whatever the migrations return, once they have all returned: a fault
    outside the zone returned 0, one whose folio was moved returned
    [VM_FAULT_NOPAGE], one whose migration failed returned [VM_FAULT_RETRY];
    each counter is the number of faults with its code, in 64 bits; and only
    folios of the zone were migrated, once per fault. *)
Theorem faults_accounted ts st ms :
  reachable (ts, (st, ms)) -> Forall finished ts ->
  Forall (settled ms) ts ∧
  st = Stats (i64 (count (returned VM_FAULT_NOPAGE) ts))
             (i64 (count (returned VM_FAULT_RETRY) ts))
             (i64 (count (returned 0) ts)) ∧
  count moved ms = count (returned VM_FAULT_NOPAGE) ts ∧
  count (negb ∘ moved) ms = count (returned VM_FAULT_RETRY) ts ∧
  Forall (λ m, folio_zonenum m.1 = ZONE_LTRAM) ms.
Proof.
  intros (ys & Hys & Hw)%reachable_accounted Hts. cbn in Hys.
  destruct (finished_total _ _ _ Hys Hts) as [Hset Htot]. rewrite Htot in Hw.
  destruct Hw; cbn in *. destruct st; cbn in *. subst. done.
Qed.
End ltram.

(** ** Three faults on a small kernel: folios 0 and 1 are of the zone *)
Definition toy_kernel : LtramKernel := {|
  folio := Z; page := Z; page_folio := λ p, p / 4;
  folio_zonenum := λ f, if f <? 2 then 4 else 2;
  ZONE_LTRAM := 4; VM_FAULT_NOPAGE := 256; VM_FAULT_RETRY := 1024;
  fault_codes := ltac:(lia)
|}.

(** The first two migrate before either counts; the second is busy. *)
Definition toy_schedule : list (@action toy_kernel) :=
  let fault p := @Fault toy_kernel (@VmFault toy_kernel p) in
  [fault 0; fault 5; @Run toy_kernel 1 (-16); fault 9; @Run toy_kernel 0 0;
   @Run toy_kernel 2 0; @Run toy_kernel 0 0; @Run toy_kernel 1 0; @Run toy_kernel 2 0].

Definition toy_end : @pool toy_kernel * @world toy_kernel :=
  ([@Task toy_kernel (@VmFault toy_kernel 0) (Ret 256);
    @Task toy_kernel (@VmFault toy_kernel 5) (Ret 1024);
    @Task toy_kernel (@VmFault toy_kernel 9) (Ret 0)],
   (Stats 1 1 1, [(0, 0); (1, -16)])).

Lemma faults_accounted_witness :
  execute toy_schedule boot = Some toy_end ∧
  count (@moved toy_kernel) toy_end.2.2 = 1.
Proof.
  split; [reflexivity|].
  refine (proj1 (proj2 (proj2 (faults_accounted toy_end.1 _ _ _ _)))).
  - apply (execute_reachable toy_schedule). reflexivity.
  - repeat constructor; eexists; reflexivity.
Defined.
