(* ===== verification/Smoketest.v ===== *)
(** * Smoketest: the self-test of the LtRAM zone (ltram_smoketest.c)

    The six tests and the function that counts their results, over a kernel
    that is a parameter.  The theorems are about every behaviour of the
    allocator: which folios a run leaves allocated, and what a clean result
    says of the placement of folios. *)

From Stdlib Require Import ZArith Lia.
From stdpp Require Import base list.
From S2P Require Import Prelude Calls Ltram.

(** What the module uses of the kernel besides ltram.c's.  The node and the
    zone of a folio, and its address in the linear map, never change. *)
Class SmokeKernel := {
  smoke_ltram :: LtramKernel;
  folio_dec :: EqDecision folio;
  folio_nid : folio -> Z;
  folio_address : folio -> option Z;
  GFP_LTRAM : Z;
  __GFP_THISNODE : Z;
  GFP_KERNEL : Z;
  GFP_HIGHUSER : Z;
  PAGE_SIZE : Z
}.

Section smoketest.
Context {K : SmokeKernel}.

Definition LTRAM_GFP : Z := Z.lor GFP_LTRAM __GFP_THISNODE.
Definition EINVAL : Z := 22.

(** The calls that change state.  [kmalloc_array] says whether it returned
    memory; the array itself is a local of the test. *)
Inductive mm_call : Type -> Type :=
  | folio_alloc (gfp order : Z) : mm_call (option folio)
  | folio_put (f : folio) : mm_call unit
  | kmalloc_array (n size gfp : Z) : mm_call bool
  | kfree : mm_call unit
  | store_u32 (kva v : Z) : mm_call unit
  | load_u32 (kva : Z) : mm_call Z
  | memset (kva c n : Z) : mm_call unit.

(** [EXPECT(cond, ...)], which returns from the test. *)
Definition EXPECT (cond : bool) (rest : prog mm_call Z) : prog mm_call Z :=
  if negb cond then mret (- EINVAL) else rest.

(** The same for a pointer, which the rest of the test uses. *)
Definition EXPECT_ptr {A} (p : option A) (rest : A -> prog mm_call Z) : prog mm_call Z :=
  match p with None => mret (- EINVAL) | Some a => rest a end.

Definition test_single_page : prog mm_call Z :=
  o ← call (folio_alloc LTRAM_GFP 0);
  EXPECT_ptr o (λ folio,
  EXPECT (folio_nid folio =? 1) (
  EXPECT (folio_zonenum folio =? ZONE_LTRAM) (
  call (folio_put folio) ;;
  mret 0))).

(** The array of [kmalloc_array]: a slot that was never written is [None]. *)
Abbreviation slots := (list (option (option folio))).

Definition misplaced (f : folio) : Z :=
  (if negb (folio_nid f =? 1) then 1 else 0) +
  (if negb (folio_zonenum f =? ZONE_LTRAM) then 1 else 0).

(** The first loop, with [n] rounds to go; [int] counters wrap around. *)
Fixpoint alloc_loop (n i : nat) (folios : slots) (allocated errors : Z)
    : prog mm_call (slots * Z * Z) :=
  match n with
  | O => mret (folios, allocated, errors)
  | S n' =>
      o ← call (folio_alloc LTRAM_GFP 0);
      let folios' := <[i := Some o]> folios in
      match o with
      | Some f => alloc_loop n' (S i) folios' (i32 (allocated + 1)) (i32 (errors + misplaced f))
      | None => alloc_loop n' (S i) folios' allocated errors
      end
  end.

(** The second loop, which puts the folios that are there. *)
Fixpoint free_loop (n i : nat) (folios : slots) : prog mm_call unit :=
  match n with
  | O => mret tt
  | S n' =>
      match folios !! i with
      | Some (Some (Some f)) => call (folio_put f) ;; free_loop n' (S i) folios
      | Some (Some None) => free_loop n' (S i) folios
      | _ => undef
      end
  end.

Definition test_bulk_allocation (bulk_count : Z) : prog mm_call Z :=
  ok ← call (kmalloc_array (u64 bulk_count) 8 GFP_KERNEL);
  EXPECT ok (
  '(folios, allocated, errors) ←
    alloc_loop (Z.to_nat bulk_count) 0 (replicate (Z.to_nat bulk_count) None) 0 0;
  free_loop (Z.to_nat bulk_count) 0 folios ;;
  call kfree ;;
  EXPECT (allocated =? bulk_count) (
  EXPECT (errors =? 0) (
  mret 0))).

Definition pattern : Z := 0xCAFEBABE.

Definition test_write_then_read : prog mm_call Z :=
  o ← call (folio_alloc LTRAM_GFP 0);
  EXPECT_ptr o (λ folio,
  EXPECT_ptr (folio_address folio) (λ kva,
  call (store_u32 kva pattern) ;;
  v ← call (load_u32 kva);
  EXPECT (v =? pattern) (
  call (folio_put folio) ;;
  mret 0))).

Definition test_kernel_alloc_avoids_ltram : prog mm_call Z :=
  o ← call (folio_alloc GFP_KERNEL 0);
  EXPECT_ptr o (λ folio,
  EXPECT (negb (folio_zonenum folio =? ZONE_LTRAM)) (
  EXPECT (folio_nid folio =? 0) (
  call (folio_put folio) ;;
  mret 0))).

Definition test_highuser_alloc_avoids_ltram : prog mm_call Z :=
  o ← call (folio_alloc GFP_HIGHUSER 0);
  EXPECT_ptr o (λ folio,
  EXPECT (negb (folio_zonenum folio =? ZONE_LTRAM)) (
  call (folio_put folio) ;;
  mret 0)).

Definition test_alloc_free_realloc : prog mm_call Z :=
  o1 ← call (folio_alloc LTRAM_GFP 0);
  EXPECT_ptr o1 (λ folio1,
  kva ← nonnull (folio_address folio1);
  call (memset kva 0xAB PAGE_SIZE) ;;
  call (folio_put folio1) ;;
  o2 ← call (folio_alloc LTRAM_GFP 0);
  EXPECT_ptr o2 (λ folio2,
  EXPECT (folio_nid folio2 =? 1) (
  call (folio_put folio2) ;;
  mret 0))).

(** The module's counters after [ltram_smoketest_init]. *)
Record smoke_result := SmokeResult {
  last_pass_count : Z;
  last_fail_count : Z;
  init_status : Z
}.

(** [if (test() == 0) passes++; else fails++;] *)
Definition tally_test (test : prog mm_call Z) (pf : Z * Z) : prog mm_call (Z * Z) :=
  r ← test;
  mret (if r =? 0 then (pf.1 + 1, pf.2) else (pf.1, pf.2 + 1)).

Definition ltram_smoketest_init (bulk_count : Z) : prog mm_call smoke_result :=
  pf ← tally_test test_single_page (0, 0);
  pf ← tally_test (test_bulk_allocation bulk_count) pf;
  pf ← tally_test test_write_then_read pf;
  pf ← tally_test test_kernel_alloc_avoids_ltram pf;
  pf ← tally_test test_highuser_alloc_avoids_ltram pf;
  pf ← tally_test test_alloc_free_realloc pf;
  mret (SmokeResult pf.1 pf.2 0).

(** ** The ghost state of a run

    The folios held, those got so far in order, the words stored, and whether
    the kernel has kept its promises: an allocation succeeds and its folio is
    where its flags say, and memory keeps what is stored. *)
Record ghost := Ghost {
  held : list folio;
  got : list folio;
  mem : Z -> option Z;
  kept : Prop
}.
Definition ghost0 : ghost := Ghost [] [] (λ _, None) True.

Definition on_ltram (f : folio) : Prop := folio_nid f = 1 ∧ folio_zonenum f = ZONE_LTRAM.

Definition well_placed (gfp : Z) (f : folio) : Prop :=
  (gfp = LTRAM_GFP -> on_ltram f ∧ is_Some (folio_address f)) ∧
  (gfp = GFP_KERNEL -> folio_nid f = 0 ∧ folio_zonenum f ≠ ZONE_LTRAM) ∧
  (gfp = GFP_HIGHUSER -> folio_zonenum f ≠ ZONE_LTRAM).

(** Putting a folio that is not held breaks the rules of the allocator. *)
Definition mm_step X (e : mm_call X) : X -> ghost -> option ghost :=
  match e in mm_call X return X -> ghost -> option ghost with
  | folio_alloc gfp _ => λ o s,
      match o with
      | Some f => Some (Ghost (f :: held s) (got s ++ [f]) (mem s) (kept s ∧ well_placed gfp f))
      | None => Some (Ghost (held s) (got s) (mem s) False)
      end
  | folio_put f => λ _ s,
      h ← put_back f (held s); Some (Ghost h (got s) (mem s) (kept s))
  | kmalloc_array _ _ _ => λ ok s, Some (Ghost (held s) (got s) (mem s) (kept s ∧ ok = true))
  | kfree => λ _ s, Some s
  | store_u32 kva v => λ _ s,
      Some (Ghost (held s) (got s) (λ a, if a =? kva then Some v else mem s a) (kept s))
  | load_u32 kva => λ v s,
      Some (Ghost (held s) (got s) (mem s) (kept s ∧ ∀ v', mem s kva = Some v' -> v = v'))
  | memset _ _ _ => λ _ s, Some (Ghost (held s) (got s) (λ _, None) (kept s))
  end.

(** A test that passes leaves the folios held as they were, and has got
    folios that satisfy [P]; one that fails leaves at most one folio more, and
    the kernel has broken a promise. *)
Definition test_spec (P : list folio -> Prop) (t : prog mm_call Z) : Prop :=
  ∀ s, tpost True mm_step t (λ r s', ∃ new leak,
    got s' = got s ++ new ∧ held s' ≡ₚ leak ++ held s ∧ (kept s' -> kept s) ∧
    ((r = 0 ∧ leak = [] ∧ P new) ∨
     (r = - EINVAL ∧ (length leak ≤ 1)%nat ∧ ¬ kept s'))) s.

(** [sstep] runs a test: a call, or an [EXPECT] on each branch. *)
Ltac sstep :=
  match goal with
  | |- tpost _ _ (_ ≫= _) _ _ => apply tpost_bind
  | |- tpost _ _ (call _) _ _ => intros ?; cbn -[put_back]
  | |- tpost _ _ (Call _ _) _ _ => intros ?; cbn -[put_back]
  | |- tpost _ _ (mret _) _ _ => cbn -[put_back]
  | |- tpost _ _ (EXPECT ?b _) _ _ => let H := fresh "Hb" in unfold EXPECT; destruct b eqn:H; cbn [negb]
  | |- tpost _ _ (EXPECT_ptr ?o _) _ _ => let H := fresh "Hp" in unfold EXPECT_ptr; destruct o eqn:H
  | |- tpost _ _ (nonnull ?o) _ _ => let H := fresh "Hp" in unfold nonnull; destruct o eqn:H; [cbn|done]
  | |- tpost _ _ (if ?b then _ else _) _ _ => let H := fresh "Hb" in destruct b eqn:H
  | |- ∀ _, ∃ s', _ = Some s' ∧ _ => intros ?; rewrite ?Z.eqb_refl
  | |- ∃ s', Some _ = Some s' ∧ _ => eexists; split; [reflexivity|]; cbn -[put_back]
  | |- ∃ s', mbind _ (put_back ?f (?f :: _)) = Some s' ∧ _ => rewrite put_head; cbn -[put_back]
  | |- ∃ s', (match ?o with _ => _ end) = Some s' ∧ _ => destruct o eqn:?
  end.

Ltac verdict news leak :=
  exists news, leak; split; [by rewrite ?app_nil_r, <-?app_assoc|];
  split; [done|]; split; [tauto|];
  rewrite ?negb_true_iff, ?negb_false_iff, ?Z.eqb_eq, ?Z.eqb_neq in *;
  first [ left; split; [done|]; split; [done|]; unfold on_ltram; naive_solver
        | right; split; [done|]; split; [simpl; lia|];
          unfold well_placed, on_ltram, is_Some; naive_solver ].

(** For a test of one folio: it was put, kept, or never there. *)
Ltac verdict1 :=
  match goal with
  | f : folio |- _ => first [verdict [f] (@nil folio) | verdict [f] [f]]
  | |- _ => verdict (@nil folio) (@nil folio)
  end.

Lemma test_single_page_spec :
  test_spec (λ new, ∃ f, new = [f] ∧ on_ltram f) test_single_page.
Proof. intros s. unfold test_single_page. repeat sstep. all: verdict1. Qed.

Lemma test_kernel_alloc_spec :
  test_spec (λ new, ∃ f, new = [f] ∧ folio_nid f = 0 ∧ folio_zonenum f ≠ ZONE_LTRAM)
    test_kernel_alloc_avoids_ltram.
Proof. intros s. unfold test_kernel_alloc_avoids_ltram. repeat sstep. all: verdict1. Qed.

Lemma test_highuser_alloc_spec :
  test_spec (λ new, ∃ f, new = [f] ∧ folio_zonenum f ≠ ZONE_LTRAM)
    test_highuser_alloc_avoids_ltram.
Proof. intros s. unfold test_highuser_alloc_avoids_ltram. repeat sstep. all: verdict1. Qed.

Lemma test_write_then_read_spec :
  test_spec (λ new, ∃ f, new = [f]) test_write_then_read.
Proof. intros s. unfold test_write_then_read. repeat sstep. all: verdict1. Qed.

Lemma test_alloc_free_realloc_spec :
  test_spec (λ new, ∃ f g, new = [f; g] ∧ folio_nid g = 1) test_alloc_free_realloc.
Proof.
  intros s. unfold test_alloc_free_realloc. repeat sstep.
  - verdict [f; f0] (@nil folio).
  - verdict [f; f0] [f0].
  - verdict [f] (@nil folio).
  - verdict (@nil folio) (@nil folio).
Qed.

(** ** The bulk test *)

(** The folios among the results of the first loop, and how many times they
    were counted as misplaced. *)
Definition present (os : list (option folio)) : list folio := omap id os.
Definition faults (fs : list folio) : Z := foldr (λ f z, misplaced f + z) 0 fs.

Lemma present_cons o os :
  present (o :: os) = match o with Some f => f :: present os | None => present os end.
Proof. by destruct o. Qed.

Lemma present_length os : (length (present os) ≤ length os)%nat.
Proof. induction os as [|[f|] os IH]; rewrite ?present_cons; cbn [length]; [done|lia|lia]. Qed.

Lemma alloc_loop_spec n os a e s :
  tpost True mm_step (alloc_loop n (length os) (map Some os ++ replicate n None) (i32 a) (i32 e))
    (λ r s', ∃ new,
      length new = n ∧
      r = (map Some (os ++ new), i32 (a + Z.of_nat (length (present new))),
           i32 (e + faults (present new))) ∧
      got s' = got s ++ present new ∧ held s' ≡ₚ present new ++ held s ∧
      (kept s' -> kept s ∧ length (present new) = n ∧
                  Forall (well_placed LTRAM_GFP) (present new))) s.
Proof.
  revert os a e s. induction n as [|n IH]; intros os a e s.
  - cbn. exists []. rewrite !app_nil_r, !Z.add_0_r. naive_solver.
  - cbn [alloc_loop replicate]. apply tpost_bind. intros o.
    assert (<[length os := Some o]> (map Some os ++ None :: replicate n None) =
            map Some (os ++ [o]) ++ replicate n None) as Hins.
    { rewrite insert_app_r_alt by (rewrite length_map; lia).
      rewrite length_map, Nat.sub_diag, map_app, <-app_assoc. done. }
    assert (S (length os) = length (os ++ [o])) as Hlen by (rewrite length_app; cbn; lia).
    destruct o as [f|]; (eexists; split; [reflexivity|]); cbn [tpost];
      rewrite Hins, Hlen; unfold i32.
    + rewrite !swrap_add by lia. eapply tpost_mono; [apply IH|].
      intros r s' (new & Hl & -> & Hg & Hh & Hk). exists (Some f :: new).
      rewrite present_cons. cbn [length] in *. cbn [got held kept] in *.
      rewrite <-app_assoc in *. split; [lia|].
      split.
      { cbn [faults foldr]. fold (faults (present new)).
        by rewrite Nat2Z.inj_succ, <-Z.add_1_l, !Z.add_assoc. }
      rewrite Hh. split; [done|]. split; [solve_Permutation|]. intros Hk'.
      destruct (Hk Hk') as ([? ?] & ? & ?). split; [done|]. split; [lia|by constructor].
    + eapply tpost_mono; [apply IH|].
      intros r s' (new & Hl & -> & Hg & Hh & Hk). exists (None :: new).
      rewrite present_cons. rewrite <-!app_assoc in *. cbn in *. naive_solver.
Qed.

Lemma free_loop_spec os1 os2 s h :
  held s ≡ₚ present os2 ++ h ->
  tpost True mm_step (free_loop (length os2) (length os1) (map Some (os1 ++ os2)))
    (λ _ s', held s' ≡ₚ h ∧ got s' = got s ∧ kept s' = kept s) s.
Proof.
  revert os1 s. induction os2 as [|o os2 IH]; intros os1 s Hs; [done|].
  assert (map Some (os1 ++ o :: os2) !! length os1 = Some (Some o)) as Hget.
  { change (@map (option folio)) with (@fmap list _ (option folio)).
    rewrite list_lookup_fmap, list_lookup_middle by done. done. }
  assert (S (length os1) = length (os1 ++ [o])) as Hlen by (rewrite length_app; cbn; lia).
  assert (os1 ++ o :: os2 = (os1 ++ [o]) ++ os2) as Happ by by rewrite <-app_assoc.
  cbn [free_loop length]. rewrite Hget, Hlen, Happ.
  rewrite present_cons in Hs. destruct o as [f|]; [|by apply IH].
  apply tpost_bind. intros x. cbn -[put_back].
  destruct (put_held _ _ _ Hs) as (h' & -> & Hh'). cbn. eexists. split; [reflexivity|].
  cbn. eapply tpost_mono; [by apply IH|]. done.
Qed.

Lemma faults_bounds fs : 0 ≤ faults fs ≤ 2 * Z.of_nat (length fs).
Proof.
  induction fs as [|f fs IH]; [cbn; lia|].
  assert (0 ≤ misplaced f ≤ 2) by (unfold misplaced; repeat case_match; lia).
  cbn [faults foldr length]. fold (faults fs). lia.
Qed.

Lemma faults_zero fs : faults fs = 0 <-> Forall on_ltram fs.
Proof.
  induction fs as [|f fs IH]; [done|]. rewrite Forall_cons, <-IH.
  cbn [faults foldr]. fold (faults fs). pose proof (faults_bounds fs). unfold misplaced, on_ltram.
  destruct (Z.eqb_spec (folio_nid f) 1), (Z.eqb_spec (folio_zonenum f) ZONE_LTRAM);
    cbn; intuition lia.
Qed.

(** The [int] counter of misplaced folios can wrap around, but not to zero. *)
Lemma faults_wrapped n fs :
  (length fs ≤ n)%nat -> Z.of_nat n ≤ INT_MAX ->
  i32 (faults fs) = 0 -> faults fs = 0.
Proof.
  unfold i32, swrap, INT_MAX. intros Hl Hn H. pose proof (faults_bounds fs).
  pose proof (Z.div_mod (faults fs + 2 ^ (32 - 1)) (2 ^ 32)). lia.
Qed.

(** The two checks at the end of the test. *)
Lemma bulk_checks n new :
  0 ≤ n ≤ INT_MAX -> (length new ≤ Z.to_nat n)%nat ->
  ((i32 (Z.of_nat (length new)) =? n) && (i32 (faults new) =? 0)) = true <->
  Z.of_nat (length new) = n ∧ Forall on_ltram new.
Proof.
  intros Hn Hl. unfold i32 at 1. rewrite swrap_small by (unfold INT_MAX in *; lia).
  rewrite andb_true_iff, !Z.eqb_eq, <-faults_zero. split; intros [H1 H2].
  - split; [done|]. eapply (faults_wrapped (Z.to_nat n)); [done|lia|done].
  - rewrite H2. done.
Qed.

Lemma test_bulk_spec n :
  0 ≤ n ≤ INT_MAX ->
  test_spec (λ new, Z.of_nat (length new) = n ∧ Forall on_ltram new) (test_bulk_allocation n).
Proof.
  intros Hn s. unfold test_bulk_allocation. sstep. intros ok.
  eexists. split; [reflexivity|]. cbn [tpost].
  destruct ok; [|cbn; verdict (@nil folio) (@nil folio)].
  change (EXPECT true ?p) with p. apply tpost_bind.
  eapply tpost_mono; [apply (alloc_loop_spec (Z.to_nat n) [] 0 0)|].
  intros r s1 (os & Hlen & -> & Hg & Hh & Hk). cbn [got held kept] in *.
  rewrite app_nil_l, !Z.add_0_l. apply tpost_bind. rewrite <-Hlen.
  eapply tpost_mono; [apply (free_loop_spec [] os s1 (held s)); exact Hh|].
  intros _ s2 (Hh2 & Hg2 & Hk2). rewrite <-Hg2 in Hg. rewrite <-Hk2 in Hk.
  sstep. intros x. eexists. split; [reflexivity|]. cbn [tpost].
  assert (length (present os) ≤ Z.to_nat n)%nat as Hp.
  { rewrite <-Hlen. apply present_length. }
  pose proof (bulk_checks n _ Hn Hp) as Hc. unfold EXPECT.
  destruct (_ =? n); [destruct (i32 (faults _) =? 0)|]; cbn in Hc |- *;
    exists (present os), []; (split; [done|]); (split; [done|]); (split; [naive_solver|]).
  1: left; naive_solver.
  all: right; split; [done|]; split; [cbn; lia|]; intros (_ & Hl & Hf)%Hk.
  all: enough (false = true) by done; apply Hc; split; [lia|].
  all: eapply Forall_impl; [exact Hf|]; unfold well_placed; naive_solver.
Qed.

(** ** The run of all the tests *)

(** After the tests that promise [Ps]: their counts, at most one folio held
    for each failure, and without failure what they got. *)
Record run_inv (Ps : list (list folio -> Prop)) (pf : Z * Z) (s : ghost) : Prop := {
  run_sum : pf.1 + pf.2 = Z.of_nat (length Ps);
  run_pos : 0 ≤ pf.1 ∧ 0 ≤ pf.2;
  run_held : Z.of_nat (length (held s)) ≤ pf.2;
  run_kept : kept s -> pf.2 = 0;
  run_got : pf.2 = 0 -> ∃ gs, Forall2 (λ (P : list folio -> Prop) g, P g) Ps gs ∧ got s = concat gs
}.

Lemma run_inv_0 : run_inv [] (0, 0) ghost0.
Proof. split; cbn; try lia; try done. intros _. by exists []. Qed.

Lemma tally_test_spec P t Ps pf s :
  test_spec P t -> run_inv Ps pf s -> tpost True mm_step (tally_test t pf) (run_inv (Ps ++ [P])) s.
Proof.
  intros Ht [Hsum [Hp Hf] Hheld Hkept Hgot]. apply tpost_bind.
  eapply tpost_mono; [apply Ht|]. intros r s' (new & leak & Hg & Hh & Hk & Hr). cbn.
  apply Permutation_length in Hh. rewrite length_app in Hh.
  assert ((- EINVAL =? 0) = false) as He by done.
  destruct Hr as [(-> & -> & HP)|(-> & Hl & Hnk)]; rewrite ?He; cbn in *;
    split; cbn; rewrite ?length_app; cbn; try lia; try tauto.
  intros H0. destruct (Hgot H0) as (gs & HPs & Hgs). exists (gs ++ [new]). split.
  - apply Forall2_app; auto.
  - rewrite Hg, Hgs, concat_app. cbn. by rewrite app_nil_r.
Qed.

Lemma tally_test_then P t Ps pf s (k : Z * Z -> prog mm_call smoke_result) Q :
  test_spec P t -> run_inv Ps pf s ->
  (∀ pf' s', run_inv (Ps ++ [P]) pf' s' -> tpost True mm_step (k pf') Q s') ->
  tpost True mm_step (tally_test t pf ≫= k) Q s.
Proof.
  intros Ht Hi Hk. apply tpost_bind.
  eapply tpost_mono; [by apply (tally_test_spec P)|]. auto.
Qed.

(** What the six tests promise, in order. *)
Definition promises (n : Z) : list (list folio -> Prop) :=
  [ λ new, ∃ f, new = [f] ∧ on_ltram f;
    λ new, Z.of_nat (length new) = n ∧ Forall on_ltram new;
    λ new, ∃ f, new = [f];
    λ new, ∃ f, new = [f] ∧ folio_nid f = 0 ∧ folio_zonenum f ≠ ZONE_LTRAM;
    λ new, ∃ f, new = [f] ∧ folio_zonenum f ≠ ZONE_LTRAM;
    λ new, ∃ f g, new = [f; g] ∧ folio_nid g = 1 ].

Lemma smoketest_spec n :
  0 ≤ n ≤ INT_MAX ->
  tpost True mm_step (ltram_smoketest_init n)
    (λ r, λ s, run_inv (promises n) (last_pass_count r, last_fail_count r) s ∧ init_status r = 0)
    ghost0.
Proof.
  intros Hn. unfold ltram_smoketest_init.
  eapply tally_test_then; [apply test_single_page_spec|apply run_inv_0|]. intros ???.
  eapply tally_test_then; [by apply test_bulk_spec|done|]. intros ???.
  eapply tally_test_then; [apply test_write_then_read_spec|done|]. intros ???.
  eapply tally_test_then; [apply test_kernel_alloc_spec|done|]. intros ???.
  eapply tally_test_then; [apply test_highuser_alloc_spec|done|]. intros ???.
  eapply tally_test_then; [apply test_alloc_free_realloc_spec|done|]. intros [p f] s Hs.
  by split.
Qed.

(** ** The theorems *)

(** In every run of the smoke test, the two counts add up to six, the
    module stays loaded, no folio is put that is not held, and at most one
    folio per failed test is still held at the end: none when all pass. *)
Theorem smoketest_folios n tr r :
  0 ≤ n ≤ INT_MAX -> traces (ltram_smoketest_init n) tr r ->
  last_pass_count r + last_fail_count r = 6 ∧ init_status r = 0 ∧
  ∃ s, gtrace mm_step tr ghost0 = Some s ∧
       Z.of_nat (length (held s)) ≤ last_fail_count r.
Proof.
  intros Hn Htr.
  destruct (tpost_traces _ _ _ _ _ _ _ (smoketest_spec n Hn) Htr) as (s & Hs & [] & Hi).
  cbn in *. eauto.
Qed.

(** C16: The verdict of the smoke test: if the kernel keeps its promises, no
    test fails; and if no test fails, the [n + 6] folios it got were all
    there, those of the first two tests on node 1 in the zone, those of plain
    allocations outside of the zone. *)
Theorem smoketest_verdict n tr r :
  0 ≤ n ≤ INT_MAX -> traces (ltram_smoketest_init n) tr r ->
  ∃ s, gtrace mm_step tr ghost0 = Some s ∧ (kept s -> last_fail_count r = 0) ∧
    (last_fail_count r = 0 -> ∃ f1 bulk f3 f4 f5 f6 f7,
      got s = f1 :: bulk ++ [f3; f4; f5; f6; f7] ∧
      Z.of_nat (length bulk) = n ∧ Forall on_ltram (f1 :: bulk) ∧ folio_nid f7 = 1 ∧
      folio_nid f4 = 0 ∧ folio_zonenum f4 ≠ ZONE_LTRAM ∧ folio_zonenum f5 ≠ ZONE_LTRAM).
Proof.
  intros Hn Htr.
  destruct (tpost_traces _ _ _ _ _ _ _ (smoketest_spec n Hn) Htr) as (s & Hs & [] & Hi).
  cbn in *. exists s. split; [done|]. split; [done|].
  intros (gs & HP & Hg)%run_got0. unfold promises in HP.
  repeat match goal with
  | H : Forall2 _ (_ :: _) _ |- _ => apply Forall2_cons_inv_l in H as (? & ? & ? & H & ->)
  | H : Forall2 _ [] _ |- _ => apply Forall2_nil_inv_l in H as ->
  end.
  destruct_and!. cbn in Hg. naive_solver.
Qed.
End smoketest.

(** ** Runs on a small kernel: folios below 100 are of the zone, on node 1 *)
Definition toy_smoke : SmokeKernel := {|
  smoke_ltram := {|
    folio := Z; page := Z; page_folio := λ p, p / 4;
    folio_zonenum := λ f, if f <? 100 then 4 else 2;
    ZONE_LTRAM := 4; VM_FAULT_NOPAGE := 256; VM_FAULT_RETRY := 1024;
    fault_codes := ltac:(lia)
  |};
  folio_dec := _ : EqDecision Z;
  folio_nid := λ f : Z, if f <? 100 then 1 else 0;
  folio_address := λ f : Z, Some (f * 4096);
  GFP_LTRAM := 1; __GFP_THISNODE := 2; GFP_KERNEL := 4; GFP_HIGHUSER := 8;
  PAGE_SIZE := 4096
|}.

(** The state is the next folio and the last word stored.  If [leaky], the
    kernel's own allocations land in the zone. *)
Definition toy_serve (leaky : bool) X (e : @mm_call toy_smoke X) : Z * Z -> X * (Z * Z) :=
  match e in mm_call X return Z * Z -> X * (Z * Z) with
  | folio_alloc gfp _ => λ w,
      (Some (w.1 + if (gfp =? 3) || (leaky && (gfp =? 4)) then 0 else 100 : @folio (@smoke_ltram toy_smoke)),
       (w.1 + 1, w.2))
  | folio_put _ => λ w, (tt, w)
  | kmalloc_array _ _ _ => λ w, (true, w)
  | kfree => λ w, (tt, w)
  | store_u32 _ v => λ w, (tt, (w.1, v))
  | load_u32 _ => λ w, (w.2, w)
  | memset _ _ _ => λ w, (tt, w)
  end.

Definition toy_smoke_run (leaky : bool) : list (event (@mm_call toy_smoke)) * smoke_result :=
  match run (toy_serve leaky) (@ltram_smoketest_init toy_smoke 3) (0, 0) with
  | Some tr => tr
  | None => ([], SmokeResult 0 0 1)
  end.

Lemma smoketest_folios_witness :
  (toy_smoke_run true).2 = SmokeResult 5 1 0 ∧
  ∃ s, gtrace (@mm_step toy_smoke) (toy_smoke_run true).1 ghost0 = Some s ∧
       Z.of_nat (length (held s)) ≤ 1.
Proof.
  split; [vm_compute; reflexivity|].
  refine (proj2 (proj2 (@smoketest_folios toy_smoke 3 _ (SmokeResult 5 1 0) _ _))).
  - unfold INT_MAX. lia.
  - apply (run_traces (toy_serve true) _ (0, 0)). vm_compute. reflexivity.
Defined.

(** The folio of the test that failed is still held. *)
Example smoketest_leaks :
  option_map held (gtrace (@mm_step toy_smoke) (toy_smoke_run true).1 ghost0) = Some [5 : @folio (@smoke_ltram toy_smoke)].
Proof. vm_compute. reflexivity. Qed.

Lemma smoketest_verdict_witness :
  (toy_smoke_run false).2 = SmokeResult 6 0 0 ∧
  ∃ s, gtrace (@mm_step toy_smoke) (toy_smoke_run false).1 ghost0 = Some s ∧
       length (got s) = 9%nat.
Proof.
  split; [vm_compute; reflexivity|].
  destruct (@smoketest_verdict toy_smoke 3 (toy_smoke_run false).1 (SmokeResult 6 0 0))
    as (s & Hs & _ & Hgot).
  - unfold INT_MAX. lia.
  - apply (run_traces (toy_serve false) _ (0, 0)). vm_compute. reflexivity.
  - exists s. split; [exact Hs|].
    destruct (Hgot eq_refl) as (f1 & bulk & f3 & f4 & f5 & f6 & f7 & -> & Hl & _).
    change (S (length (bulk ++ [f3; f4; f5; f6; f7])) = 9%nat).
    rewrite length_app, (Nat2Z.inj (length bulk) 3); [done|exact Hl].
Defined.
