(* ===== verification/Matmul.v ===== *)
(** * Matmul: the matrix benchmark (matrix_multiply.c)

    [matmul] runs its loops in the order i, k, j; every entry it computes is
    still the sum of the textbook dot product in the order of k, so it is the
    same float bit for bit.  [numa_mm_repeat] multiplies [iters] times and
    gives its memory back on every path.  The arithmetic of [float] is a
    parameter: nothing is assumed of it. *)

From Stdlib Require Import ZArith Lia.
From stdpp Require Import base list.
From S2P Require Import Prelude Calls.

Class FloatOps := {
  float : Type;
  fzero : float;                  (* the bytes that memset leaves *)
  fadd : float -> float -> float;
  fmul : float -> float -> float;
  frand : Z -> float              (* [(float)rand() / (float)RAND_MAX] *)
}.

Section matmul.
Context {F : FloatOps}.
(** The macro [N], 1024 in the source. *)
Variable N : nat.

(** An array of floats; a cell that was never written is [None]. *)
Abbreviation array := (list (option float)).

Definition load (x : array) (i : nat) : res float := deref (mjoin (x !! i)).
Definition store (x : array) (i : nat) (v : float) : res array :=
  rassert (bool_decide (i < length x)%nat) ;; mret (<[i := Some v]> x).

(** The three loops of [matmul], from the inside; [n] rounds to go. *)
Fixpoint j_loop (n j i k : nat) (a_ik : float) (B C : array) : res array :=
  match n with
  | O => mret C
  | S n' =>
      c ← load C (i * N + j);
      b ← load B (k * N + j);
      C ← store C (i * N + j) (fadd c (fmul a_ik b));
      j_loop n' (S j) i k a_ik B C
  end.

Fixpoint k_loop (n k i : nat) (A B C : array) : res array :=
  match n with
  | O => mret C
  | S n' =>
      a_ik ← load A (i * N + k);
      C ← j_loop N 0 i k a_ik B C;
      k_loop n' (S k) i A B C
  end.

Fixpoint i_loop (n i : nat) (A B C : array) : res array :=
  match n with
  | O => mret C
  | S n' =>
      C ← k_loop N 0 i A B C;
      i_loop n' (S i) A B C
  end.

Definition matmul (C A B : array) : res array := i_loop N 0 A B C.

(** ** The program *)
Inductive numa_call : Type -> Type :=
  | numa_available : numa_call Z
  | numa_alloc_onnode (bytes node : Z) : numa_call (option Z)
  | numa_free (p bytes : Z) : numa_call unit
  | mprotect_read (p bytes : Z) : numa_call unit
  | time_null : numa_call Z
  | srand (seed : Z) : numa_call unit
  | rand : numa_call Z
  | sink (x : float) : numa_call unit.

Definition from_res {A} (r : res A) : prog numa_call A :=
  match r with Ok a => Ret a | Stuck => Undef end.

Fixpoint fill_loop (n i : nat) (x : array) : prog numa_call array :=
  match n with
  | O => mret x
  | S n' =>
      r ← call rand;
      x ← from_res (store x i (frand r));
      fill_loop n' (S i) x
  end.

(** The seed is not used. *)
Definition fill_random (x : array) (n : nat) (seed : Z) : prog numa_call array :=
  t ← call time_null;
  call (srand (u32 t)) ;;
  fill_loop n 0 x.

Definition elems : nat := N * N.
Definition bytes : Z := 4 * Z.of_nat elems.

Definition free_if (o : option Z) : prog numa_call unit :=
  match o with Some p => call (numa_free p bytes) | None => mret tt end.

(** [memset] with zero bytes. *)
Definition memset_zero (x : array) : array := replicate (length x) (Some fzero).

(** A pointer with the array it points to. *)
Abbreviation buffer := (Z * array)%type.

(** The loop over [t]: [result] and [tmp] change places. *)
Fixpoint repeat_loop (n : nat) (A result tmp : buffer) : prog numa_call (buffer * buffer) :=
  match n with
  | O => mret (result, tmp)
  | S n' =>
      C ← from_res (matmul (memset_zero (tmp.2)) (A.2) (result.2));
      repeat_loop n' A (tmp.1, C) result
  end.

Definition numa_mm_repeat (iters : Z) : prog numa_call unit :=
  ok ← call numa_available;
  if ok <? 0 then mret tt else
  result ← call (numa_alloc_onnode bytes 0);
  A ← call (numa_alloc_onnode bytes 0);
  tmp ← call (numa_alloc_onnode bytes 0);
  match result, A, tmp with
  | Some result, Some A, Some tmp =>
      r ← fill_random (replicate elems None) elems 0x1234;
      a ← fill_random (replicate elems None) elems 0x9876;
      call (mprotect_read A bytes) ;;
      '(result, tmp) ← repeat_loop (Z.to_nat iters) (A, a) (result, r) (tmp, replicate elems None);
      x ← from_res (load (result.2) 0);
      call (sink x) ;;
      call (numa_free (tmp.1) bytes) ;;
      call (numa_free A bytes) ;;
      call (numa_free (result.1) bytes)
  | _, _, _ => free_if result ;; free_if A ;; free_if tmp
  end.

(** ** What the loops compute *)
Definition entry (l : list float) (p : nat) : float := nth p l fzero.

(** The textbook dot product of row [i] and column [j], added to [c]. *)
Definition dot_from (A B : list float) (i j : nat) (c : float) (ks : list nat) : float :=
  foldl (λ acc k, fadd acc (fmul (entry A (i * N + k)) (entry B (k * N + j)))) c ks.
Definition dot (A B : list float) (i j : nat) (c : float) : float :=
  dot_from A B i j c (seq 0 N).

(** The product, row by row, added to [C]. *)
Definition product (A B C : list float) : list float :=
  map (λ p, dot A B (p / N) (p mod N) (entry C p)) (seq 0 elems).

(** An array all of whose cells are written. *)
Definition full (l : list float) : array := Some <$> l.

Lemma load_full l i : (i < length l)%nat -> load (full l) i = Ok (entry l i).
Proof.
  intros Hi. unfold load, full. rewrite list_lookup_fmap.
  destruct (lookup_lt_is_Some_2 _ _ Hi) as [x Hx]. rewrite Hx. cbn.
  unfold entry. f_equal. symmetry. by apply nth_lookup_Some.
Qed.

Lemma store_full l i v :
  (i < length l)%nat -> store (full l) i v = Ok (full (<[i := v]> l)).
Proof.
  intros Hi. unfold store, full. rewrite length_fmap, bool_decide_true by done.
  cbn. by rewrite list_fmap_insert.
Qed.

Lemma entry_insert l i v p :
  (i < length l)%nat -> entry (<[i := v]> l) p = if (p =? i)%nat then v else entry l p.
Proof.
  intros Hi. unfold entry. rewrite !nth_lookup. destruct (Nat.eqb_spec p i) as [->|Hp].
  - by rewrite list_lookup_insert_eq.
  - by rewrite list_lookup_insert_ne by done.
Qed.

Definition within (lo n p : nat) : bool := (lo <=? p)%nat && (p <? lo + n)%nat.

Lemma withinP lo n p : reflect (lo ≤ p < lo + n)%nat (within lo n p).
Proof.
  apply iff_reflect. unfold within. by rewrite andb_true_iff, Nat.leb_le, Nat.ltb_lt.
Qed.

Lemma cell_lt i j : (i < N)%nat -> (j < N)%nat -> (i * N + j < elems)%nat.
Proof. unfold elems. nia. Qed.

Lemma cell_div i j : (j < N)%nat -> ((i * N + j) / N = i)%nat.
Proof. intros Hj. symmetry. apply (Nat.div_unique _ _ _ j); lia. Qed.
Lemma cell_mod i j : (j < N)%nat -> ((i * N + j) mod N = j)%nat.
Proof. intros Hj. symmetry. apply (Nat.mod_unique _ _ i); lia. Qed.

Section loops.
Variables A B : list float.
Hypothesis HA : length A = elems.
Hypothesis HB : length B = elems.

(** [f p c] replaces the entries [c] of the cells [p] of a range. *)
Definition updates (lo n : nat) (f : nat -> float -> float) (C C' : list float) : Prop :=
  length C' = elems ∧ ∀ p, entry C' p = if within lo n p then f p (entry C p) else entry C p.

Lemma j_loop_spec n j i k a C :
  (i < N)%nat -> (k < N)%nat -> (j + n ≤ N)%nat -> length C = elems ->
  ∃ C', j_loop n j i k a (full B) (full C) = Ok (full C') ∧
    updates (i * N + j) n (λ p c, fadd c (fmul a (entry B (k * N + (p - i * N))))) C C'.
Proof.
  intros Hi Hk. revert j C. induction n as [|n IH]; intros j C Hj HC.
  - exists C. split; [done|]. split; [done|]. intros p. by destruct (withinP (i * N + j) 0 p); [lia|].
  - cbn [j_loop].
    pose proof (cell_lt i j Hi ltac:(lia)). pose proof (cell_lt k j Hk ltac:(lia)).
    rewrite !load_full by lia. rsimpl. rewrite store_full by lia. rsimpl.
    edestruct (IH (S j)) as (C' & -> & HC' & Hent); [lia|by rewrite length_insert|].
    exists C'. split; [done|]. split; [done|]. intros p. rewrite Hent, entry_insert by lia.
    destruct (withinP (i * N + S j) n p), (withinP (i * N + j) (S n) p), (Nat.eqb_spec p (i * N + j));
      try lia; try done. subst p. by replace (i * N + j - i * N)%nat with j by lia.
Qed.

Lemma k_loop_spec n k i C :
  (i < N)%nat -> (k + n ≤ N)%nat -> length C = elems ->
  ∃ C', k_loop n k i (full A) (full B) (full C) = Ok (full C') ∧
    updates (i * N) N (λ p c, dot_from A B i (p - i * N) c (seq k n)) C C'.
Proof.
  intros Hi. revert k C. induction n as [|n IH]; intros k C Hk HC.
  - exists C. split; [done|]. split; [done|]. intros p. by destruct (within _ _ _).
  - cbn [k_loop]. rewrite load_full by (pose proof (cell_lt i k Hi ltac:(lia)); lia). rsimpl.
    destruct (j_loop_spec N 0 i k (entry A (i * N + k)) C) as (C1 & -> & HC1 & Hent1); [lia..|done|].
    rsimpl. destruct (IH (S k) C1) as (C' & -> & HC' & Hent); [lia|done|].
    exists C'. split; [done|]. split; [done|]. intros p. rewrite Hent, Hent1, Nat.add_0_r.
    by destruct (within (i * N) N p).
Qed.

Lemma i_loop_spec n i C :
  (i + n ≤ N)%nat -> length C = elems ->
  ∃ C', i_loop n i (full A) (full B) (full C) = Ok (full C') ∧
    updates (i * N) (n * N) (λ p c, dot A B (p / N) (p mod N) c) C C'.
Proof.
  revert i C. induction n as [|n IH]; intros i C Hi HC.
  - exists C. split; [done|]. split; [done|]. intros p. by destruct (withinP (i * N) (0 * N) p); [lia|].
  - cbn [i_loop]. destruct (k_loop_spec N 0 i C) as (C1 & -> & HC1 & Hent1); [lia..|done|].
    rsimpl. destruct (IH (S i) C1) as (C' & -> & HC' & Hent); [lia|done|].
    exists C'. split; [done|]. split; [done|]. intros p. rewrite Hent, Hent1.
    destruct (withinP (S i * N) (n * N) p), (withinP (i * N) N p), (withinP (i * N) (S n * N) p);
      try lia; try done.
    replace p with (i * N + (p - i * N))%nat at 3 4 by lia.
    by rewrite cell_div, cell_mod by lia.
Qed.

Lemma matmul_full C :
  length C = elems -> matmul (full C) (full A) (full B) = Ok (full (product A B C)).
Proof.
  intros HC. destruct (i_loop_spec N 0 C) as (C' & Hrun & HC' & Hent); [lia|done|].
  unfold matmul. rewrite Hrun. do 2 f_equal. apply (nth_ext _ _ fzero fzero).
  - unfold product. by rewrite length_map, length_seq.
  - intros p Hp. rewrite HC' in Hp. unfold product.
    rewrite (nth_indep (map _ _) fzero (dot A B (0 / N) (0 mod N) (entry C 0)))
      by (rewrite length_map, length_seq; lia).
    rewrite (map_nth (λ p, dot A B (p / N) (p mod N) (entry C p))), seq_nth by lia. cbn.
    specialize (Hent p). unfold entry at 1 in Hent. rewrite Hent.
    destruct (withinP (0 * N) (N * N) p); [done|unfold elems in *; lia].
Qed.
End loops.

(** ** A run of the benchmark *)

(** The blocks held, the random numbers drawn, the floats stored in the
    volatile [sink], and the answers: of [numa_available], and of the
    allocations. *)
Record mm_ghost := MmGhost {
  live : list Z;
  drawn : list Z;
  shown : list float;
  answers : list (Z + option Z)
}.
Definition mm_ghost0 : mm_ghost := MmGhost [] [] [] [].

Definition numa_step X (e : numa_call X) : X -> mm_ghost -> option mm_ghost :=
  match e in numa_call X return X -> mm_ghost -> option mm_ghost with
  | numa_available => λ ok s, Some (MmGhost (live s) (drawn s) (shown s) (answers s ++ [inl ok]))
  | numa_alloc_onnode _ _ => λ o s,
      Some (MmGhost (option_list o ++ live s) (drawn s) (shown s) (answers s ++ [inr o]))
  | numa_free p _ => λ _ s, h ← put_back p (live s); Some (MmGhost h (drawn s) (shown s) (answers s))
  | rand => λ r s, Some (MmGhost (live s) (drawn s ++ [r]) (shown s) (answers s))
  | sink x => λ _ s, Some (MmGhost (live s) (drawn s) (shown s ++ [x]) (answers s))
  | _ => λ _ s, Some s
  end.

Abbreviation mpost := (tpost False numa_step).

Lemma fill_loop_spec n l s :
  mpost (fill_loop n (length l) (full l ++ replicate n None))
    (λ x s', ∃ rs, length rs = n ∧ x = full (l ++ map frand rs) ∧
                   s' = MmGhost (live s) (drawn s ++ rs) (shown s) (answers s)) s.
Proof.
  revert l s. induction n as [|n IH]; intros l s; cbn [fill_loop].
  - exists []. rewrite !app_nil_r. by destruct s.
  - apply tpost_bind. intros r. eexists. split; [reflexivity|]. cbn [tpost].
    assert (store (full l ++ replicate (S n) None) (length l) (frand r) =
            Ok (full (l ++ [frand r]) ++ replicate n None)) as ->.
    { unfold store. rewrite bool_decide_true
        by (unfold full; rewrite length_app, length_fmap, length_replicate; lia).
      rsimpl. f_equal. unfold full.
      rewrite insert_app_r_alt by (rewrite length_fmap; lia).
      rewrite length_fmap, Nat.sub_diag, fmap_app, <-app_assoc. done. }
    cbn [from_res mbind prog_bind].
    replace (S (length l)) with (length (l ++ [frand r])) by (rewrite length_app; cbn; lia).
    eapply tpost_mono; [apply IH|]. intros x s' (rs & Hl & -> & ->).
    exists (r :: rs). cbn [length map live drawn shown].
    rewrite <-!app_assoc. repeat split; lia.
Qed.

Lemma fill_random_spec n seed s :
  mpost (fill_random (replicate n None) n seed)
    (λ x s', ∃ rs, length rs = n ∧ x = full (map frand rs) ∧
                   s' = MmGhost (live s) (drawn s ++ rs) (shown s) (answers s)) s.
Proof.
  apply tpost_bind. intros t. eexists. split; [reflexivity|].
  apply tpost_bind. intros u. eexists. split; [reflexivity|].
  apply (fill_loop_spec n [] s).
Qed.

Definition zeros : list float := replicate elems fzero.
(** One round of the benchmark: [A @ R]. *)
Definition times (A R : list float) : list float := product A R zeros.

Lemma product_length A B C : length (product A B C) = elems.
Proof. unfold product. by rewrite length_map, length_seq. Qed.

Lemma repeat_loop_spec n a A r R t T Q s :
  length A = elems -> length R = elems -> length T = elems ->
  (∀ r' t' T', (r' = r ∧ t' = t ∨ r' = t ∧ t' = r) -> length T' = elems ->
     Q ((r', full (Nat.iter n (times A) R)), (t', T')) s) ->
  mpost (repeat_loop n (a, full A) (r, full R) (t, T)) Q s.
Proof.
  revert r R t T. induction n as [|n IH]; intros r R t T HA HR HT HQ; cbn [repeat_loop].
  - apply HQ; auto.
  - cbn [fst snd]. assert (memset_zero T = full zeros) as ->.
    { unfold memset_zero, full, zeros. by rewrite fmap_replicate, HT. }
    rewrite matmul_full by (done || apply length_replicate).
    apply (IH t (times A R) r (full R)); [done|apply product_length| |].
    { unfold full. by rewrite length_fmap. }
    intros r' t' T' Hrt HT'. rewrite <-Nat.iter_succ_r. apply HQ; [naive_solver|done].
Qed.

Lemma free_spec p h s (Q : unit -> mm_ghost -> Prop) :
  live s ≡ₚ p :: h -> (∀ h', h' ≡ₚ h -> Q tt (MmGhost h' (drawn s) (shown s) (answers s))) ->
  mpost (call (numa_free p bytes)) Q s.
Proof.
  intros Hs HQ []. cbn -[put_back]. destruct (put_held _ _ _ Hs) as (h' & -> & Hh').
  cbn. eauto.
Qed.

Lemma free_if_spec o h s (Q : unit -> mm_ghost -> Prop) :
  live s ≡ₚ option_list o ++ h -> (∀ h', h' ≡ₚ h -> Q tt (MmGhost h' (drawn s) (shown s) (answers s))) ->
  mpost (free_if o) Q s.
Proof.
  intros Hs HQ. destruct o as [p|]; [by apply (free_spec p h)|].
  destruct s as [l d sh an]. by apply (HQ l).
Qed.

(** Nothing was drawn or stored. *)
Definition idle (s : mm_ghost) : Prop := drawn s = [] ∧ shown s = [].

(** What the run leaves and shows.  Without NUMA it asks for nothing; it asks
    for three blocks otherwise, and if it gets all of them it stores an entry
    of [A] times [A] times ... [R]. *)
Definition mm_outcome (iters : Z) (s : mm_ghost) : Prop :=
  live s = [] ∧
  match answers s with
  | [inl ok] => ok < 0 ∧ idle s
  | [inl ok; inr (Some _); inr (Some _); inr (Some _)] =>
      0 ≤ ok ∧ ∃ R A, length R = elems ∧ length A = elems ∧ drawn s = R ++ A ∧
        shown s = [entry (Nat.iter (Z.to_nat iters) (times (map frand A)) (map frand R)) 0]
  | [inl ok; inr _; inr _; inr _] => 0 ≤ ok ∧ idle s
  | _ => False
  end.

Lemma iter_times_length n A R :
  length R = elems -> length (Nat.iter n (times A) R) = elems.
Proof. destruct n; [done|]. intros _. apply product_length. Qed.

(** With memory for the three blocks. *)
Lemma mm_body_spec iters ok r A t :
  (0 < N)%nat -> 0 ≤ ok ->
  mpost (x ← fill_random (replicate elems None) elems 0x1234;
         a ← fill_random (replicate elems None) elems 0x9876;
         call (mprotect_read A bytes) ;;
         '(result, tmp) ← repeat_loop (Z.to_nat iters) (A, a) (r, x) (t, replicate elems None);
         v ← from_res (load (result.2) 0);
         call (sink v) ;;
         call (numa_free (tmp.1) bytes) ;;
         call (numa_free A bytes) ;;
         call (numa_free (result.1) bytes))
    (λ _, mm_outcome iters) (MmGhost [t; A; r] [] [] [inl ok; inr (Some r); inr (Some A); inr (Some t)]).
Proof.
  intros HN Hok. assert (0 < elems)%nat by (unfold elems; nia).
  apply tpost_bind. eapply tpost_mono; [apply fill_random_spec|].
  intros ? ? (rs & Hrs & -> & ->). cbn [live drawn shown app].
  apply tpost_bind. eapply tpost_mono; [apply fill_random_spec|].
  intros ? ? (als & Hals & -> & ->). cbn [live drawn shown].
  apply tpost_bind. intros []. eexists. split; [reflexivity|]. cbn [tpost].
  apply tpost_bind. apply repeat_loop_spec; rewrite ?length_map, ?length_replicate; try done.
  intros r' t' T' Hrt HT'. cbn [fst snd].
  rewrite load_full by (rewrite iter_times_length; [done|by rewrite length_map]).
  cbn [from_res]. apply tpost_bind. cbn [tpost].
  apply tpost_bind. intros []. eexists. split; [reflexivity|]. cbn [tpost live drawn shown].
  apply tpost_bind. apply (free_spec _ [A; r']).
  { cbn. destruct Hrt as [[-> ->]|[-> ->]]; solve_Permutation. }
  intros h1 H1. apply tpost_bind. apply (free_spec _ [r']); [done|].
  intros h2 H2. apply (free_spec _ []); [done|].
  intros h3 ->%Permutation_nil_r. split; [done|]. split; [done|]. by exists rs, als.
Qed.

Lemma numa_mm_repeat_spec iters :
  (0 < N)%nat -> mpost (numa_mm_repeat iters) (λ _, mm_outcome iters) mm_ghost0.
Proof.
  intros HN. unfold numa_mm_repeat.
  apply tpost_bind. intros ok. eexists. split; [reflexivity|]. cbn [tpost].
  destruct (Z.ltb_spec ok 0) as [|Hok]; [by split|].
  apply tpost_bind. intros r. eexists. split; [reflexivity|]. cbn [tpost].
  apply tpost_bind. intros A. eexists. split; [reflexivity|]. cbn [tpost].
  apply tpost_bind. intros t. eexists. split; [reflexivity|]. cbn [tpost].
  assert (r = None ∨ A = None ∨ t = None -> mpost (free_if r ;; free_if A ;; free_if t) (λ _, mm_outcome iters)
            (MmGhost (option_list t ++ option_list A ++ option_list r ++ []) [] [] [inl ok; inr r; inr A; inr t])) as Hfree.
  { intros Hnone. apply tpost_bind. apply (free_if_spec _ (option_list A ++ option_list t));
      [cbn [live]; solve_Permutation|].
    intros h1 H1. apply tpost_bind. apply (free_if_spec _ (option_list t)); [done|].
    intros h2 H2. apply (free_if_spec _ []); [by cbn [live]; rewrite app_nil_r|].
    intros h3 ->%Permutation_nil_r. split; [done|]. cbn [answers]. destruct r, A, t; try done. naive_solver. }
  destruct r as [r|], A as [A|], t as [t|]; try (apply Hfree; tauto).
  by apply mm_body_spec.
Qed.

(** ** The theorems *)

(** C37: The loops of [matmul], in the order i, k, j, add to each entry of [C]
    the products of the textbook dot product in the same order, so they
    compute the same floats whatever the rounding; and no access is outside
    of the arrays. *)
Theorem matmul_textbook A B C i j :
  length A = elems -> length B = elems -> length C = elems -> (i < N)%nat -> (j < N)%nat ->
  ∃ C', matmul (full C) (full A) (full B) = Ok (full C') ∧ length C' = elems ∧
        entry C' (i * N + j) = dot A B i j (entry C (i * N + j)).
Proof.
  intros HA HB HC Hi Hj. destruct (i_loop_spec A B HA HB N 0 C) as (C' & Hrun & HC' & Hent);
    [lia|done|].
  exists C'. split; [exact Hrun|]. split; [done|]. rewrite Hent.
  pose proof (cell_lt i j Hi Hj) as Hc. unfold elems in Hc.
  destruct (withinP (0 * N) (N * N) (i * N + j)); [|lia].
  by rewrite (cell_div i j), (cell_mod i j) by lia.
Qed.

(** C39: Whatever the allocator and the random numbers, the benchmark has no
    undefined behaviour and gives back every block.  When [numa_available]
    fails it asks for no memory; otherwise it asks for three blocks, and when
    it gets all of them it fills the matrices R and A, in this order, and
    stores in [sink] the first entry of A times A times ... R, once; when one
    is missing, or without NUMA, it draws and stores nothing. *)
Theorem numa_mm_repeat_result iters :
  (0 < N)%nat ->
  defined (numa_mm_repeat iters) ∧
  ∀ tr, traces (numa_mm_repeat iters) tr tt ->
    ∃ s, gtrace numa_step tr mm_ghost0 = Some s ∧ mm_outcome iters s.
Proof.
  intros HN. pose proof (numa_mm_repeat_spec iters HN) as Hs. split.
  - eapply tpost_defined; [|exact Hs]. done.
  - intros tr Htr. exact (tpost_traces _ _ _ _ _ _ _ Hs Htr).
Qed.
End matmul.

(** ** 2 by 2 matrices of integers *)
Definition int_floats : FloatOps :=
  {| float := Z; fzero := 0; fadd := Z.add; fmul := Z.mul; frand := λ r, r |}.

Lemma matmul_textbook_witness :
  @matmul int_floats 2 (@full int_floats [0; 0; 0; 0]) (@full int_floats [1; 2; 3; 4])
    (@full int_floats [5; 6; 7; 8]) = Ok (@full int_floats [19; 22; 43; 50]) ∧
  ∃ C', @matmul int_floats 2 (@full int_floats [0; 0; 0; 0]) (@full int_floats [1; 2; 3; 4])
          (@full int_floats [5; 6; 7; 8]) = Ok (@full int_floats C') ∧
        @entry int_floats C' 2 = 3 * 5 + 4 * 7.
Proof.
  split; [reflexivity|].
  destruct (@matmul_textbook int_floats 2 [1; 2; 3; 4] [5; 6; 7; 8] [0; 0; 0; 0] 1 0)
    as (C' & HC & _ & He).
  1-3: reflexivity. 1-2: apply Nat.ltb_lt; reflexivity.
  exists C'. split; [exact HC|]. exact He.
Defined.

(** A kernel that gives memory, and draws 1, 2, 3, ... *)
Definition toy_numa X (e : @numa_call int_floats X) : Z -> X * Z :=
  match e in numa_call X return Z -> X * Z with
  | numa_available => λ w, (0, w)
  | numa_alloc_onnode _ _ => λ w, (Some w, w + 1)
  | numa_free _ _ => λ w, (tt, w)
  | mprotect_read _ _ => λ w, (tt, 0)
  | time_null => λ w, (1700000000, w)
  | srand _ => λ w, (tt, w)
  | rand => λ w, (w, w + 1)
  | sink _ => λ w, (tt, w)
  end.

(** Both matrices come from blocks of four numbers; one round. *)
Lemma numa_mm_repeat_result_witness :
  ∃ tr s, run toy_numa (@numa_mm_repeat int_floats 2 1) 0 = Some (tr, tt) ∧
    gtrace (@numa_step int_floats) tr mm_ghost0 = Some s ∧ @mm_outcome int_floats 2 1 s ∧
    shown s = [7 * 3 + 8 * 5 : @float int_floats].
Proof.
  destruct (@numa_mm_repeat_result int_floats 2 1) as [_ Hrun]; [lia|].
  destruct (run toy_numa (@numa_mm_repeat int_floats 2 1) 0) as [[tr []]|] eqn:Hr;
    [|vm_compute in Hr; discriminate].
  destruct (Hrun tr (run_traces _ _ _ _ _ Hr)) as (s & Hs & Ho).
  exists tr, s. split; [reflexivity|]. split; [exact Hs|]. split; [exact Ho|].
  revert Hs. vm_compute in Hr. injection Hr as <-. vm_compute. intros [= <-]. reflexivity.
Defined.
