(* ===== verification/RwStress.v ===== *)
(** * RwStress: the read-only to writable stress test (ltram_rw_stress.c)

    [main] as a tree of system calls.  The ghost state is the process: its
    open descriptors, its mappings with their protection, and the pages it
    read and wrote, in order.  An access outside of a mapping, or a write
    without permission, breaks the rules. *)

From Stdlib Require Import ZArith Lia.
From stdpp Require Import base list strings.
From S2P Require Import Prelude Calls.

Section rwstress.
(** The number that [strtol] reads off an argument. *)
Variable strtol : string -> Z.

Definition PGSZ : Z := 4096.

Inductive sys_call : Type -> Type :=
  | open_rw (path : string) : sys_call Z
  | ftruncate (fd len : Z) : sys_call Z
  | mmap_read (len fd : Z) : sys_call (option Z)
  | load_byte (a : Z) : sys_call Z
  | store_byte (a v : Z) : sys_call unit
  | mprotect_rw (p len : Z) : sys_call Z
  | msync (p len : Z) : sys_call unit
  | munmap (p len : Z) : sys_call unit
  | close (fd : Z) : sys_call unit
  | unlink (path : string) : sys_call unit.

(** The two loops over pages: [n] rounds to go, [i] the offset. *)
Fixpoint read_loop (n : nat) (i p : Z) (sink : Z) : prog sys_call Z :=
  match n with
  | O => mret sink
  | S n' =>
      b ← call (load_byte (p + i));
      read_loop n' (u64 (i + PGSZ)) p (i64 (sink + b))
  end.

Fixpoint write_loop (n : nat) (i p : Z) : prog sys_call unit :=
  match n with
  | O => mret tt
  | S n' =>
      call (store_byte (p + i) 0x5a) ;;
      write_loop n' (u64 (i + PGSZ)) p
  end.

(** The rounds of [for (size_t i = 0; i < len; i += PGSZ)]: [len] is a
    multiple of the step. *)
Definition rounds (len : Z) : nat := Z.to_nat (len / PGSZ).

Definition main (argv : list string) : prog sys_call Z :=
  let npages := match argv with _ :: a :: _ => strtol a | _ => 256 end in
  let path := match argv with _ :: _ :: a :: _ => a | _ => "/root/.ltram_rw_stress.dat"%string end in
  let len := u64 (u64 npages * PGSZ) in
  fd ← call (open_rw path);
  if fd <? 0 then mret 1 else
  t ← call (ftruncate fd (i64 len));
  if t <? 0 then call (close fd) ;; mret 1 else
  m ← call (mmap_read len fd);
  match m with
  | None => call (close fd) ;; mret 1
  | Some p =>
      read_loop (rounds len) 0 p 0 ;;
      r ← call (mprotect_rw p len);
      if r <? 0 then call (munmap p len) ;; call (close fd) ;; mret 1 else
      write_loop (rounds len) 0 p ;;
      call (msync p len) ;;
      call (munmap p len) ;;
      call (close fd) ;;
      call (unlink path) ;;
      mret 0
  end.

(** ** The process *)
Record mapping := Mapping { base : Z; size : Z; writable : bool }.

Record process := Process {
  fds : list Z;
  maps : list mapping;
  files : list string;      (* created and not unlinked *)
  reads : list Z;           (* addresses read before the mapping was writable *)
  writes : list Z
}.
Definition process0 : process := Process [] [] [] [] [].

Definition covers (a : Z) (m : mapping) : bool :=
  (base m <=? a) && (a <? base m + size m).

Global Instance mapping_eq_dec : EqDecision mapping.
Proof. solve_decision. Defined.

Definition at_base (p len : Z) (m : mapping) : bool := (base m =? p) && (size m =? len).

Definition proc_step X (e : sys_call X) : X -> process -> option process :=
  match e in sys_call X return X -> process -> option process with
  | open_rw path => λ fd s, Some (
      if fd <? 0 then s
      else Process (fd :: fds s) (maps s) (path :: files s) (reads s) (writes s))
  | ftruncate fd _ => λ _ s, if decide (fd ∈ fds s) then Some s else None
  | mmap_read len fd => λ o s,
      if decide (fd ∈ fds s) then Some (match o with
        | Some p => Process (fds s) (Mapping p len false :: maps s) (files s) (reads s) (writes s)
        | None => s end)
      else None
  | load_byte a => λ _ s,
      if existsb (covers a) (maps s) then
        Some (Process (fds s) (maps s) (files s)
                (if existsb (λ m, covers a m && writable m) (maps s) then reads s else reads s ++ [a])
                (writes s))
      else None
  | store_byte a _ => λ _ s,
      if existsb (λ m, covers a m && writable m) (maps s) then
        Some (Process (fds s) (maps s) (files s) (reads s) (writes s ++ [a]))
      else None
  | mprotect_rw p len => λ r s, Some (
      if r <? 0 then s
      else Process (fds s)
             (map (λ m, if at_base p len m then Mapping p len true else m) (maps s))
             (files s) (reads s) (writes s))
  | msync _ _ => λ _ s, Some s
  | munmap p len => λ _ s, Some (
      Process (fds s) (List.filter (λ m, negb (at_base p len m)) (maps s))
              (files s) (reads s) (writes s))
  | close fd => λ _ s,
      h ← put_back fd (fds s); Some (Process h (maps s) (files s) (reads s) (writes s))
  | unlink path => λ _ s,
      Some (Process (fds s) (maps s) (List.filter (λ f, negb (f =? path)%string) (files s))
              (reads s) (writes s))
  end.

(** The addresses of [n] pages of a mapping at [p], from the [k]-th. *)
Definition page_addresses (p : Z) (k n : nat) : list Z :=
  map (λ j, p + PGSZ * Z.of_nat j) (seq k n).

Abbreviation ppost := (tpost False proc_step).

Lemma next_offset k n :
  PGSZ * Z.of_nat (k + S n) < 2 ^ 64 ->
  u64 (PGSZ * Z.of_nat k + PGSZ) = PGSZ * Z.of_nat (S k).
Proof. unfold PGSZ. intros H. unfold u64. rewrite wrap_small by lia. lia. Qed.

Lemma covers_page p len w k :
  PGSZ * Z.of_nat (S k) ≤ len -> covers (p + PGSZ * Z.of_nat k) (Mapping p len w) = true.
Proof.
  unfold PGSZ, covers. cbn [base size]. intros H. rewrite andb_true_iff, Z.leb_le, Z.ltb_lt. lia.
Qed.

Section loops.
Variables (fd p len : Z) (path : string).
Hypothesis Hlen : len < 2 ^ 64.

Lemma read_loop_spec n k sink rs ws :
  PGSZ * Z.of_nat (k + n) ≤ len ->
  ppost (read_loop n (PGSZ * Z.of_nat k) p sink)
    (λ _ s', s' = Process [fd] [Mapping p len false] [path] (rs ++ page_addresses p k n) ws)
    (Process [fd] [Mapping p len false] [path] rs ws).
Proof.
  revert k sink rs. induction n as [|n IH]; intros k sink rs Hk; cbn [read_loop].
  - cbn. by rewrite app_nil_r.
  - apply tpost_bind. intros b. cbn -[Z.mul PGSZ page_addresses].
    rewrite covers_page by (unfold PGSZ in *; lia). cbn -[Z.mul PGSZ page_addresses].
    eexists. split; [reflexivity|]. rewrite (next_offset k n) by (unfold PGSZ in *; lia).
    eapply tpost_mono; [apply IH; unfold PGSZ in *; lia|]. intros _ s' ->.
    unfold page_addresses. cbn [seq map]. by rewrite <-app_assoc.
Qed.

Lemma write_loop_spec n k rs ws :
  PGSZ * Z.of_nat (k + n) ≤ len ->
  ppost (write_loop n (PGSZ * Z.of_nat k) p)
    (λ _ s', s' = Process [fd] [Mapping p len true] [path] rs (ws ++ page_addresses p k n))
    (Process [fd] [Mapping p len true] [path] rs ws).
Proof.
  revert k ws. induction n as [|n IH]; intros k ws Hk; cbn [write_loop].
  - cbn. by rewrite app_nil_r.
  - apply tpost_bind. intros b. cbn -[Z.mul PGSZ page_addresses].
    rewrite covers_page by (unfold PGSZ in *; lia). cbn -[Z.mul PGSZ page_addresses].
    eexists. split; [reflexivity|]. rewrite (next_offset k n) by (unfold PGSZ in *; lia).
    eapply tpost_mono; [apply IH; unfold PGSZ in *; lia|]. intros _ s' ->.
    unfold page_addresses. cbn [seq map]. by rewrite <-app_assoc.
Qed.
End loops.

Lemma close_spec fd ms fs rs ws (Q : unit -> process -> Prop) :
  Q tt (Process [] ms fs rs ws) -> ppost (call (close fd)) Q (Process [fd] ms fs rs ws).
Proof. intros HQ []. cbn. rewrite decide_True by done. cbn. eauto. Qed.

Lemma munmap_spec fs p len w files rs ws (Q : unit -> process -> Prop) :
  Q tt (Process fs [] files rs ws) ->
  ppost (call (munmap p len)) Q (Process fs [Mapping p len w] files rs ws).
Proof.
  intros HQ []. cbn [proc_step maps List.filter]. unfold at_base.
  cbn [base size]. rewrite !Z.eqb_refl. cbn. eauto.
Qed.

(** The arguments of [main], with their defaults. *)
Definition arg_pages (argv : list string) : Z :=
  match argv with _ :: a :: _ => strtol a | _ => 256 end.

(** What a run leaves: nothing open and nothing mapped.  A run that succeeds
    removed its file, read the first byte of each page once, in order, while
    the mapping was read-only, and then wrote each once, in order. *)
Definition stressed (n : nat) (r : Z) (s : process) : Prop :=
  fds s = [] ∧ maps s = [] ∧
  (r = 1 ∧ writes s = [] ∨
   r = 0 ∧ files s = [] ∧ ∃ p, reads s = page_addresses p 0 n ∧ writes s = page_addresses p 0 n).

Lemma main_spec argv :
  ppost (main argv) (stressed (rounds (u64 (u64 (arg_pages argv) * PGSZ)))) process0.
Proof.
  unfold main. fold (arg_pages argv). set (len := u64 (u64 (arg_pages argv) * PGSZ)).
  set (path := match argv with _ :: _ :: a :: _ => a | _ => _ end).
  assert (0 ≤ len < 2 ^ 64) as Hlen by (apply wrap_range; lia).
  assert (PGSZ * Z.of_nat (0 + rounds len) ≤ len) as Hr.
  { unfold rounds. cbn [Nat.add]. rewrite Z2Nat.id by (apply Z.div_pos; unfold PGSZ; lia).
    apply Z.mul_div_le. unfold PGSZ. lia. }
  clearbody len path.
  apply tpost_bind. intros fd. eexists. split; [reflexivity|]. cbn [tpost].
  destruct (fd <? 0) eqn:Hfd. { unfold stressed. cbn. auto. }
  cbn [fds maps files reads writes process0].
  apply tpost_bind. intros t. cbn [proc_step fds].
  rewrite decide_True by left. eexists. split; [reflexivity|]. cbn [tpost].
  destruct (t <? 0).
  { apply tpost_bind, close_spec. unfold stressed. cbn. auto. }
  apply tpost_bind. intros m. cbn [proc_step fds].
  rewrite decide_True by left. eexists. split; [reflexivity|]. cbn [tpost].
  destruct m as [p|]; cbn [fds maps files reads writes].
  2: { apply tpost_bind, close_spec. unfold stressed. cbn. auto. }
  apply tpost_bind. eapply tpost_mono;
    [apply (read_loop_spec fd p len path (proj2 Hlen) (rounds len) 0 0 [] [] Hr)|].
  intros _ s1 ->. apply tpost_bind. intros r. eexists. split; [reflexivity|]. cbn [tpost].
  destruct (r <? 0); cbn [fds maps files reads writes].
  { apply tpost_bind, munmap_spec, tpost_bind, close_spec. unfold stressed. cbn. auto. }
  unfold at_base. cbn [map base size]. rewrite !Z.eqb_refl. cbn [andb].
  apply tpost_bind. eapply tpost_mono;
    [apply (write_loop_spec fd p len path (proj2 Hlen) (rounds len) 0 _ [] Hr)|].
  intros _ s2 ->. apply tpost_bind. intros []. eexists. split; [reflexivity|].
  apply tpost_bind, munmap_spec, tpost_bind, close_spec.
  apply tpost_bind. intros []. cbn [proc_step List.filter files]. rewrite String.eqb_refl.
  eexists. split; [reflexivity|]. unfold stressed. cbn. naive_solver.
Qed.

(** C38: Whatever the system calls return, the stress test has no access
    outside of its mapping and no write before the mapping is writable,
    closes its file and unmaps its memory on every path, and ends with 1, or
    with 0 having read and then written each page once. *)
Theorem rwstress_covers argv :
  defined (main argv) ∧
  ∀ tr r, traces (main argv) tr r ->
    ∃ s, gtrace proc_step tr process0 = Some s ∧
         stressed (rounds (u64 (u64 (arg_pages argv) * PGSZ))) r s.
Proof.
  split.
  - eapply tpost_defined; [|apply main_spec]. done.
  - intros tr r Htr. exact (tpost_traces _ _ _ _ _ _ _ (main_spec argv) Htr).
Qed.
End rwstress.
