(* ===== verification/StringHashtable.v ===== *)
(** * StringHashtable: the interface of the tables of YCSB-C (lib/string_hashtable.h)

    The class [StringHashtable] has the virtual functions of the source, and
    what the database needs of them: a table is a finite map, with an order
    of iteration, and makes a copy of every key that it is given to insert.
    The copies that are live are counted ([blocks], lib/mem_alloc.h).  The
    instances are StlHashtable (Table.v) and the two TBB tables (TbbTables.v);
    HashtableDb.v and what follows are over any. *)

From Stdlib Require Import ZArith Lia.
From stdpp Require Import base list strings gmap.
From S2P Require Import Prelude.

(** The map of some entries. *)
Definition map_of {V} (l : list (string * V)) : gmap string V := list_to_map l.

(** ** lib/mem_alloc.h

    How many of the blocks that [MemAlloc] gave out are live: the copies of
    keys that the tables make.  Freeing when there is none is undefined. *)
Definition blocks : Type := nat.
Definition MemAlloc_Malloc (size : Z) : M blocks unit := λ n, Ok (tt, S n).
Definition MemAlloc_Free (size : Z) : M blocks unit := λ n,
  match n with O => Stuck | S n' => Ok (tt, n') end.

Class StringHashtable := {
  ht : Type -> Type;
  new_table {V} : ht V;
  ht_Get {V} : ht V -> string -> option V;
  ht_Insert {V} : ht V -> option string -> V -> M blocks (ht V * bool);
  ht_Update {V} : ht V -> string -> V -> ht V * option V;
  ht_Remove {V} : ht V -> string -> M blocks (ht V * option V);
  ht_Entries {V} : ht V -> option string -> Z -> list (string * V);
  ht_Size {V} : ht V -> nat;

  (** The entries in the order of iteration, and the invariant. *)
  ht_pairs {V} : ht V -> list (string * V);
  ht_ok {V} : ht V -> Prop;

  ht_nodup {V} (t : ht V) : ht_ok t -> NoDup (ht_pairs t).*1;
  new_ok {V} : ht_ok (new_table (V := V)) ∧ ht_pairs (new_table (V := V)) = [];
  Get_law {V} (t : ht V) k : ht_ok t -> ht_Get t k = map_of (ht_pairs t) !! k;
  Insert_NULL {V} (t : ht V) v n : ht_Insert t None v n = Ok (t, false, n);
  Insert_new_law {V} (t : ht V) k v :
    ht_ok t -> map_of (ht_pairs t) !! k = None ->
    ∃ t', (∀ n, ht_Insert t (Some k) v n = Ok (t', true, S n)) ∧ ht_ok t' ∧
          map_of (ht_pairs t') = <[k := v]> (map_of (ht_pairs t)) ∧
          (ht_pairs t').*2 ≡ₚ v :: (ht_pairs t).*2;
  (** The copy of the key is made, and lost. *)
  Insert_old_law {V} (t : ht V) k v n :
    ht_ok t -> is_Some (map_of (ht_pairs t) !! k) -> ht_Insert t (Some k) v n = Ok (t, false, S n);
  Update_old_law {V} (t : ht V) k v old :
    ht_ok t -> map_of (ht_pairs t) !! k = Some old ->
    ∃ t' rest, ht_Update t k v = (t', Some old) ∧ ht_ok t' ∧
               map_of (ht_pairs t') = <[k := v]> (map_of (ht_pairs t)) ∧
               (ht_pairs t).*2 ≡ₚ old :: rest ∧ (ht_pairs t').*2 ≡ₚ v :: rest;
  Update_new_law {V} (t : ht V) k v :
    ht_ok t -> map_of (ht_pairs t) !! k = None -> ht_Update t k v = (t, None);
  Remove_old_law {V} (t : ht V) k old :
    ht_ok t -> map_of (ht_pairs t) !! k = Some old ->
    ∃ t', (∀ n, ht_Remove t k (S n) = Ok (t', Some old, n)) ∧ ht_ok t' ∧
          map_of (ht_pairs t') = delete k (map_of (ht_pairs t)) ∧
          (ht_pairs t).*2 ≡ₚ old :: (ht_pairs t').*2;
  Remove_new_law {V} (t : ht V) k n :
    ht_ok t -> map_of (ht_pairs t) !! k = None -> ht_Remove t k n = Ok (t, None, n);
  Entries_all_law {V} (t : ht V) n :
    Z.of_nat (length (ht_pairs t)) ≤ n -> ht_Entries t None n = ht_pairs t;
  Entries_none_law {V} (t : ht V) n : ht_Entries t None n ⊆ ht_pairs t;
  Entries_from_law {V} (t : ht V) k n :
    ht_ok t -> 0 ≤ n ->
    Forall (λ e, map_of (ht_pairs t) !! e.1 = Some e.2) (ht_Entries t (Some k) n) ∧
    NoDup (ht_Entries t (Some k) n).*1 ∧ Z.of_nat (length (ht_Entries t (Some k) n)) ≤ n ∧
    match map_of (ht_pairs t) !! k with
    | None => ht_Entries t (Some k) n = []
    | Some v => 0 < n -> head (ht_Entries t (Some k) n) = Some (k, v)
    end;
  Size_law {V} (t : ht V) : ht_Size t = length (ht_pairs t)
}.

(** The map that a table stands for. *)
Definition tmap `{!StringHashtable} {V} (t : ht V) : gmap string V := map_of (ht_pairs t).
