(* ===== verification/Table.v ===== *)
(** * Table: the string hash table of YCSB-C (lib/string.h, lib/stl_hashtable.h)

    [String] is a C string with its hash, and [StlHashtable] a
    [std::unordered_map] from such strings.  The order in which the container
    keeps its entries is a parameter: any permutation, after every insertion. *)

From Stdlib Require Import ZArith Lia Ascii.
From stdpp Require Import base list strings gmap.
From S2P Require Import Prelude StringHashtable.

(** ** lib/string.h *)

(** The C string of a [std::string]: up to the first NUL. *)
Fixpoint c_str (s : string) : string :=
  match s with
  | EmptyString => EmptyString
  | String.String a s' => if Ascii.eqb a Ascii.zero then EmptyString else String.String a (c_str s')
  end.

(** A [char] as [uint64_t]: it is signed, so it is extended with its sign. *)
Definition char_u64 (a : ascii) : Z :=
  let z := Z.of_N (N_of_ascii a) in u64 (if z <? 128 then z else z - 256).

Fixpoint sdbm_loop (hash : Z) (s : string) : Z :=
  match s with
  | EmptyString => hash
  | String.String a s' =>
      let c := char_u64 a in
      sdbm_loop (u64 (u64 (u64 (c + u64 (Z.shiftl hash 6)) + u64 (Z.shiftl hash 16)) - hash)) s'
  end.
Definition SDBMHash (cstr : string) : Z := sdbm_loop 0 cstr.

Record String := MkString { hash_ : Z; value_ : string; len_ : nat }.

Definition set_value (v : string) : String := MkString (SDBMHash v) v (String.length v).

(** [Copy] makes a block of its own for the characters; [Free] frees it. *)
Definition Copy (cstr : string) : M blocks String :=
  MemAlloc_Malloc (Z.of_nat (String.length cstr) + 1) ;;
  mret (set_value cstr).
Definition String_Free (hstr : String) : M blocks unit := MemAlloc_Free (Z.of_nat (len_ hstr) + 1).
Definition Wrap (cstr : string) : String := set_value cstr.

(** [operator==]. *)
Definition String_eqb (a b : String) : bool :=
  if negb (hash_ a =? hash_ b) then false else String.eqb (value_ a) (value_ b).

Definition made (a : String) : Prop := a = set_value (value_ a).

Lemma String_eqb_spec a b : made a -> made b -> String_eqb a b = String.eqb (value_ a) (value_ b).
Proof.
  unfold made, String_eqb. intros -> ->. cbn.
  destruct (String.eqb_spec (value_ a) (value_ b)) as [->|]; [|by destruct (negb _)].
  by rewrite Z.eqb_refl.
Qed.

(** ** lib/stl_hashtable.h *)

(** What the container does to the order of its entries when it inserts. *)
Class Order := {
  reorder : ∀ V : Type, list (String * V) -> list (String * V);
  reorder_perm : ∀ V (l : list (String * V)), reorder V l ≡ₚ l
}.
Arguments reorder {_ V} l.

Section table.
Context {O : Order} {V : Type}.

(** The entries, in the order of iteration. *)
Definition StlHashtable : Type := list (String * V).

Fixpoint find (s : String) (t : StlHashtable) : option V :=
  match t with
  | [] => None
  | (s', v) :: t' => if String_eqb s' s then Some v else find s t'
  end.

Definition Get (t : StlHashtable) (key : string) : option V := find (Wrap key) t.

(** A NULL key is refused; [std::unordered_map::insert] keeps what is there,
    and then nothing points to the copy of the key any more. *)
Definition Insert (t : StlHashtable) (key : option string) (value : V) : M blocks (StlHashtable * bool) :=
  match key with
  | None => mret (t, false)
  | Some key =>
      skey ← Copy key;
      match find skey t with
      | Some _ => mret (t, false)
      | None => mret (reorder ((skey, value) :: t), true)
      end
  end.

Fixpoint assign (s : String) (v : V) (t : StlHashtable) : StlHashtable :=
  match t with
  | [] => []
  | (s', v') :: t' => if String_eqb s' s then (s', v) :: t' else (s', v') :: assign s v t'
  end.

Definition Update (t : StlHashtable) (key : string) (value : V) : StlHashtable * option V :=
  match find (Wrap key) t with
  | None => (t, None)
  | Some old => (assign (Wrap key) value t, Some old)
  end.

Fixpoint erase (s : String) (t : StlHashtable) : StlHashtable :=
  match t with
  | [] => []
  | (s', v') :: t' => if String_eqb s' s then t' else (s', v') :: erase s t'
  end.

Definition Remove (t : StlHashtable) (key : string) : M blocks (StlHashtable * option V) :=
  match find (Wrap key) t with
  | None => mret (t, None)
  | Some old =>
      String_Free (Wrap key) ;;
      mret (erase (Wrap key) t, Some old)
  end.

(** The entries from that of [s] on. *)
Fixpoint from (s : String) (t : StlHashtable) : StlHashtable :=
  match t with
  | [] => []
  | (s', v') :: t' => if String_eqb s' s then t else from s t'
  end.

(** [n] is a [size_t]; a NULL key starts from the beginning. *)
Definition Entries (t : StlHashtable) (key : option string) (n : Z) : list (string * V) :=
  let pos := match key with None => t | Some key => from (Wrap key) t end in
  (λ e, (value_ e.1, e.2)) <$> take (Z.to_nat (Z.min n (Z.of_nat (length pos)))) pos.

Definition Size (t : StlHashtable) : nat := length t.

(** ** The table is a finite map *)
Definition pairs (t : StlHashtable) : list (string * V) := (λ e, (value_ e.1, e.2)) <$> t.
Definition tmap (t : StlHashtable) : gmap string V := map_of (pairs t).

Definition table_ok (t : StlHashtable) : Prop :=
  Forall (λ e, made e.1) t ∧ NoDup (pairs t).*1.

Lemma made_set v : made (set_value v).
Proof. done. Qed.
Hint Resolve made_set : core.

Lemma find_split s t v :
  find s t = Some v -> ∃ t1 s' t2, t = t1 ++ (s', v) :: t2 ∧ String_eqb s' s = true ∧
    (∀ w, assign s w t = t1 ++ (s', w) :: t2) ∧ erase s t = t1 ++ t2 ∧ from s t = (s', v) :: t2.
Proof.
  induction t as [|[s' v'] t IH]; cbn; [done|].
  destruct (String_eqb s' s) eqn:Hs.
  - intros [= ->]. exists [], s', t. done.
  - intros (t1 & s1 & t2 & -> & H1 & H2 & H3 & H4)%IH. exists ((s', v') :: t1), s1, t2.
    split; [done|]. split; [done|]. split; [intros w; cbn; by rewrite H2|].
    cbn. by rewrite H3.
Qed.

Lemma table_ok_cons s v t :
  table_ok ((s, v) :: t) <-> made s ∧ value_ s ∉ (pairs t).*1 ∧ table_ok t.
Proof. unfold table_ok. cbn. rewrite Forall_cons, NoDup_cons. naive_solver. Qed.

Lemma table_ok_perm t t' : t ≡ₚ t' -> table_ok t -> table_ok t' ∧ tmap t' = tmap t.
Proof.
  intros Hp [Hm Hn]. unfold table_ok, tmap, pairs in *. split; [split|].
  - by rewrite <-Hp.
  - by rewrite <-Hp.
  - symmetry. apply list_to_map_proper; [done|]. by rewrite Hp.
Qed.

Lemma tmap_cons s v t : tmap ((s, v) :: t) = <[value_ s := v]> (tmap t).
Proof. done. Qed.

Lemma find_tmap k t : table_ok t -> find (Wrap k) t = tmap t !! k.
Proof.
  induction t as [|[s v] t IH]; [done|]. intros (Hs & Hnin & Ht)%table_ok_cons.
  cbn [find]. rewrite String_eqb_spec by done. rewrite tmap_cons. cbn [value_ Wrap set_value].
  destruct (String.eqb_spec (value_ s) k) as [->|Hk].
  - by rewrite lookup_insert_eq.
  - rewrite lookup_insert_ne by done. by apply IH.
Qed.

Lemma Get_tmap k t : table_ok t -> Get t k = tmap t !! k.
Proof. apply find_tmap. Qed.

Lemma tmap_none k t : tmap t !! k = None <-> k ∉ (pairs t).*1.
Proof. unfold tmap, map_of. split; [apply not_elem_of_list_to_map_2|apply not_elem_of_list_to_map_1]. Qed.

Lemma Insert_new k v t :
  table_ok t -> tmap t !! k = None ->
  ∃ t', (∀ n, Insert t (Some k) v n = Ok (t', true, S n)) ∧ table_ok t' ∧
        tmap t' = <[k := v]> (tmap t) ∧ t'.*2 ≡ₚ v :: t.*2.
Proof.
  intros Ht Hk. exists (reorder ((Wrap k, v) :: t)). split.
  { intros n. unfold Insert, Copy, mbind, M_bind, mret, M_ret, MemAlloc_Malloc.
    change (set_value k) with (Wrap k). by rewrite find_tmap, Hk. }
  destruct (table_ok_perm ((Wrap k, v) :: t) (reorder ((Wrap k, v) :: t))) as [H1 H2].
  { symmetry. apply reorder_perm. }
  { apply table_ok_cons. split; [done|]. split; [by apply tmap_none|done]. }
  rewrite H2, tmap_cons. split; [done|]. split; [done|]. by rewrite reorder_perm.
Qed.

Lemma Insert_old k v t n :
  table_ok t -> is_Some (tmap t !! k) -> Insert t (Some k) v n = Ok (t, false, S n).
Proof.
  intros Ht [w Hk]. unfold Insert, Copy, mbind, M_bind, mret, M_ret, MemAlloc_Malloc.
  change (set_value k) with (Wrap k). by rewrite find_tmap, Hk.
Qed.

(** An entry with its place. *)
Lemma tmap_split k v t :
  table_ok t -> tmap t !! k = Some v -> ∃ t1 s t2, t = t1 ++ (s, v) :: t2 ∧ value_ s = k ∧
    (∀ w, assign (Wrap k) w t = t1 ++ (s, w) :: t2) ∧ erase (Wrap k) t = t1 ++ t2 ∧
    from (Wrap k) t = (s, v) :: t2.
Proof.
  intros Ht Hk. rewrite <-find_tmap in Hk by done.
  destruct (find_split _ _ _ Hk) as (t1 & s & t2 & Et & Hs & Hrest).
  exists t1, s, t2. split; [done|]. split; [|done]. destruct Ht as [Hm _].
  rewrite Et, Forall_app, Forall_cons in Hm. rewrite String_eqb_spec in Hs by naive_solver.
  by apply String.eqb_eq in Hs.
Qed.

Lemma table_ok_middle t1 s v t2 :
  table_ok (t1 ++ (s, v) :: t2) <-> table_ok ((s, v) :: t1 ++ t2).
Proof.
  split; intros H; (eapply table_ok_perm; [|exact H]);
    [symmetry|]; apply Permutation_middle.
Qed.

Lemma tmap_middle t1 s v t2 :
  table_ok (t1 ++ (s, v) :: t2) -> tmap (t1 ++ (s, v) :: t2) = <[value_ s := v]> (tmap (t1 ++ t2)).
Proof.
  intros H. rewrite <-tmap_cons. apply table_ok_perm; [|by apply table_ok_middle].
  apply Permutation_middle.
Qed.

Lemma Update_old k v old t :
  table_ok t -> tmap t !! k = Some old ->
  ∃ t' rest, Update t k v = (t', Some old) ∧ table_ok t' ∧ tmap t' = <[k := v]> (tmap t) ∧
    t.*2 ≡ₚ old :: rest ∧ t'.*2 ≡ₚ v :: rest.
Proof.
  intros Ht Hk. destruct (tmap_split _ _ _ Ht Hk) as (t1 & s & t2 & -> & <- & Ha & _ & _).
  exists (t1 ++ (s, v) :: t2), ((t1 ++ t2).*2). unfold Update.
  rewrite find_tmap, Hk, Ha by done.
  assert (table_ok (t1 ++ (s, v) :: t2)) as Ht'.
  { apply table_ok_middle, table_ok_cons. by apply table_ok_middle, table_ok_cons in Ht. }
  rewrite !tmap_middle by done. rewrite insert_insert_eq, !fmap_app, !fmap_cons.
  split_and!; [done..| |]; cbn; by rewrite Permutation_middle.
Qed.

Lemma Update_new k v t : table_ok t -> tmap t !! k = None -> Update t k v = (t, None).
Proof. intros Ht Hk. unfold Update. by rewrite find_tmap, Hk. Qed.

Lemma Remove_old k old t :
  table_ok t -> tmap t !! k = Some old ->
  ∃ t', (∀ n, Remove t k (S n) = Ok (t', Some old, n)) ∧ table_ok t' ∧ tmap t' = delete k (tmap t) ∧
        t.*2 ≡ₚ old :: t'.*2.
Proof.
  intros Ht Hk. destruct (tmap_split _ _ _ Ht Hk) as (t1 & s & t2 & -> & <- & _ & He & _).
  exists (t1 ++ t2). split; [intros n; unfold Remove; by rewrite find_tmap, Hk, He|].
  rewrite tmap_middle by done.
  apply table_ok_middle, table_ok_cons in Ht as (_ & Hnin & Ht). split; [done|].
  rewrite delete_insert_id by (by apply tmap_none). split; [done|].
  rewrite !fmap_app, fmap_cons. cbn. by rewrite Permutation_middle.
Qed.

Lemma Remove_new k t n : table_ok t -> tmap t !! k = None -> Remove t k n = Ok (t, None, n).
Proof. intros Ht Hk. unfold Remove. by rewrite find_tmap, Hk. Qed.

(** All the entries; from a key on, they start with it. *)
Lemma Entries_all t n : Z.of_nat (length (pairs t)) ≤ n -> Entries t None n = pairs t.
Proof. unfold pairs. rewrite length_fmap. intros Hlen. unfold Entries. by rewrite take_ge by lia. Qed.

Lemma Entries_none t n : Entries t None n ⊆ pairs t.
Proof.
  unfold Entries, pairs. intros e (x & -> & Hx)%list_elem_of_fmap. apply list_elem_of_fmap. exists x.
  split; [done|]. by apply subseteq_take in Hx.
Qed.

Lemma from_none s t : find s t = None -> from s t = [].
Proof.
  induction t as [|[s' v'] t IH]; cbn; [done|]. by destruct (String_eqb s' s).
Qed.

Lemma from_suffix s t : ∃ t1, t = t1 ++ from s t.
Proof.
  induction t as [|[s' v'] t [t1 IH]]; cbn; [by exists []|].
  destruct (String_eqb s' s); [by exists []|]. exists ((s', v') :: t1). cbn. by f_equal.
Qed.

Lemma Entries_from t k n :
  table_ok t -> 0 ≤ n -> let es := Entries t (Some k) n in
  Forall (λ e, tmap t !! e.1 = Some e.2) es ∧ NoDup es.*1 ∧ Z.of_nat (length es) ≤ n ∧
  match tmap t !! k with
  | None => es = []
  | Some v => 0 < n -> head es = Some (k, v)
  end.
Proof.
  intros Ht Hn es. unfold Entries in es. set (pos := from (Wrap k) t) in es.
  set (m := Z.to_nat (Z.min n (Z.of_nat (length pos)))) in es.
  destruct (from_suffix (Wrap k) t) as [t1 Et]. fold pos in Et.
  assert (pairs t = pairs (t1 ++ take m pos) ++ pairs (drop m pos)) as Ep.
  { rewrite Et at 1. rewrite <-(take_drop m pos) at 1. unfold pairs. by rewrite app_assoc, fmap_app. }
  assert (pairs t = pairs t1 ++ es ++ pairs (drop m pos)) as Ep'.
  { rewrite Ep. unfold pairs, es. by rewrite fmap_app, app_assoc. }
  destruct Ht as [Hm Hnd]. split; [|split; [|split]].
  - apply list.Forall_forall. intros [k' v'] Hin. unfold tmap.
    apply elem_of_list_to_map_1; [done|]. rewrite Ep', !elem_of_app. auto.
  - rewrite Ep', !fmap_app in Hnd. by apply NoDup_app in Hnd as (_ & _ & [? _]%NoDup_app).
  - unfold es. rewrite length_fmap, length_take. unfold m. lia.
  - destruct (tmap t !! k) as [v|] eqn:Hk.
    + intros Hpos. destruct (tmap_split k v t) as (u1 & s & u2 & Eu & <- & _ & _ & Hf); [done..|].
      fold pos in Hf. assert (m = S (pred m)) as Em by (unfold m; rewrite Hf; cbn [length]; lia).
      unfold es. by rewrite Em, Hf.
    + unfold es. assert (pos = []) as ->; [|by destruct m].
      apply from_none. by rewrite find_tmap.
Qed.

Lemma pairs_snd t : (pairs t).*2 = t.*2.
Proof. unfold pairs. by rewrite <-list_fmap_compose. Qed.
End table.
Arguments StlHashtable V : clear implicits.

(** ** The table implements the interface *)
#[local] Obligation Tactic := idtac.
#[program] Definition stl_hashtable (O : Order) : StringHashtable := {|
  ht := StlHashtable;
  new_table V := [];
  ht_Get V := Get;
  ht_Insert V := Insert;
  ht_Update V := Update;
  ht_Remove V := Remove;
  ht_Entries V := Entries;
  ht_Size V := Size;
  ht_pairs V := pairs;
  ht_ok V := table_ok
|}.
Next Obligation. by intros O V t [_ ?]. Qed.
Next Obligation. intros O V. split; [split; constructor|done]. Qed.
Next Obligation. intros O V t k. apply Get_tmap. Qed.
Next Obligation. done. Qed.
Next Obligation.
  intros O V t k v Ht Hk. destruct (Insert_new k v t Ht Hk) as (t' & ? & ? & ? & ?).
  exists t'. rewrite !pairs_snd. by split_and!.
Qed.
Next Obligation. intros O V t k v. apply Insert_old. Qed.
Next Obligation.
  intros O V t k v old Ht Hk. destruct (Update_old k v old t Ht Hk) as (t' & rest & ? & ? & ? & ? & ?).
  exists t', rest. rewrite !pairs_snd. by split_and!.
Qed.
Next Obligation. intros O V t k v. apply Update_new. Qed.
Next Obligation.
  intros O V t k old Ht Hk. destruct (Remove_old k old t Ht Hk) as (t' & ? & ? & ? & ?).
  exists t'. rewrite !pairs_snd. by split_and!.
Qed.
Next Obligation. intros O V t k. apply Remove_new. Qed.
Next Obligation. intros O V. apply Entries_all. Qed.
Next Obligation. intros O V. apply Entries_none. Qed.
Next Obligation. intros O V t k n Ht Hn. exact (Entries_from t k n Ht Hn). Qed.
Next Obligation. intros O V t. unfold pairs. by rewrite length_fmap. Qed.
