(* ===== verification/TbbTables.v ===== *)
(** * TbbTables: the tables over TBB containers (lib/tbb_rand_hashtable.h, lib/tbb_scan_hashtable.h)

    [tbb::concurrent_hash_map] and [tbb::concurrent_unordered_map] are a
    parameter with the laws of a map.  Each operation of a table is one step:
    it holds the lock of its entry or of its table.  The one exception is
    [Entries] of TbbScanHashtable, which takes the lock for reading and may
    run beside insertions; the step is the case without one.  At the end, the
    three tables of YCSB-C are shown to be one and the same finite map. *)

From Stdlib Require Import ZArith Lia.
From stdpp Require Import base list strings gmap.
From S2P Require Import Prelude StringHashtable Table.

(** ** The containers *)
Class TbbContainer := {
  tbb : Type -> Type;
  tbb_empty {V} : tbb V;
  (** The entries from [begin()] to [end()]. *)
  items {V} : tbb V -> list (String * V);
  (** The value that [find] leads to, and a write to it. *)
  tbb_find {V} : tbb V -> String -> option V;
  tbb_store {V} : tbb V -> String -> V -> tbb V;
  tbb_insert {V} : tbb V -> String * V -> tbb V * bool;
  tbb_erase {V} : tbb V -> String -> tbb V;
  (** From the first entry of [equal_range] to [end()]. *)
  tbb_equal_range {V} : tbb V -> String -> list (String * V);
  tbb_size {V} : tbb V -> nat;

  empty_items {V} : items (tbb_empty (V := V)) = [];
  find_items {V} (t : tbb V) s : tbb_find t s = find s (items t);
  store_items {V} (t : tbb V) s v : items (tbb_store t s v) = assign s v (items t);
  insert_new_items {V} (t : tbb V) s v : find s (items t) = None ->
    (tbb_insert t (s, v)).2 = true ∧ items (tbb_insert t (s, v)).1 ≡ₚ (s, v) :: items t;
  insert_old_items {V} (t : tbb V) s v :
    is_Some (find s (items t)) -> tbb_insert t (s, v) = (t, false);
  erase_items {V} (t : tbb V) s : items (tbb_erase t s) ≡ₚ erase s (items t);
  equal_range_items {V} (t : tbb V) s : tbb_equal_range t s = from s (items t);
  size_items {V} (t : tbb V) : tbb_size t = length (items t)
}.

(** The loop that pushes pairs, from a position on. *)
Definition push_pairs {V} (pos : list (String * V)) (n : Z) : list (string * V) :=
  (λ e, (value_ e.1, e.2)) <$> take (Z.to_nat (Z.min n (Z.of_nat (length pos)))) pos.

(** ** lib/tbb_rand_hashtable.h *)
Section rand_ops.
Context {C : TbbContainer} {V : Type}.

Definition rand_Get (table_ : tbb V) (key : string) : option V :=
  match tbb_find table_ (Wrap key) with None => None | Some result => Some result end.

Definition rand_Insert (table_ : tbb V) (key : option string) (value : V) : M blocks (tbb V * bool) :=
  match key with
  | None => mret (table_, false)
  | Some key => skey ← Copy key; mret (tbb_insert table_ (skey, value))
  end.

Definition rand_Update (table_ : tbb V) (key : string) (value : V) : tbb V * option V :=
  match tbb_find table_ (Wrap key) with
  | Some old => (tbb_store table_ (Wrap key) value, Some old)
  | None => (table_, None)
  end.

Definition rand_Remove (table_ : tbb V) (key : string) : M blocks (tbb V * option V) :=
  match tbb_find table_ (Wrap key) with
  | Some old => String_Free (Wrap key) ;; mret (tbb_erase table_ (Wrap key), Some old)
  | None => mret (table_, None)
  end.

Definition rand_Entries (table_ : tbb V) (key : option string) (n : Z) : list (string * V) :=
  push_pairs (match key with Some key => tbb_equal_range table_ (Wrap key) | None => items table_ end) n.

Definition rand_Size (table_ : tbb V) : nat := tbb_size table_.
End rand_ops.

(** ** lib/tbb_scan_hashtable.h *)
Section scan_ops.
Context {C : TbbContainer} {V : Type}.

Definition scan_Get (table_ : tbb V) (key : string) : option V :=
  let it := tbb_find table_ (Wrap key) in
  match it with None => None | Some value => Some value end.

Definition scan_Insert (table_ : tbb V) (key : option string) (value : V) : M blocks (tbb V * bool) :=
  match key with
  | None => mret (table_, false)
  | Some key => skey ← Copy key; mret (tbb_insert table_ (skey, value))
  end.

Definition scan_Update (table_ : tbb V) (key : string) (value : V) : tbb V * option V :=
  let it := tbb_find table_ (Wrap key) in
  match it with
  | None => (table_, None)
  | Some old => (tbb_store table_ (Wrap key) value, Some old)
  end.

Definition scan_Remove (table_ : tbb V) (key : string) : M blocks (tbb V * option V) :=
  let it := tbb_find table_ (Wrap key) in
  match it with
  | None => mret (table_, None)
  | Some old => String_Free (Wrap key) ;; mret (tbb_erase table_ (Wrap key), Some old)
  end.

Definition scan_Entries (table_ : tbb V) (key : option string) (n : Z) : list (string * V) :=
  let pos := match key with Some key => tbb_equal_range table_ (Wrap key) | None => items table_ end in
  push_pairs pos n.

Definition scan_Size (table_ : tbb V) : nat := tbb_size table_.
End scan_ops.

(** ** The laws, of the entries as those of a table *)
Section laws.
Context {C : TbbContainer} {V : Type}.
Implicit Types t : tbb V.

Definition tbb_pairs t : list (string * V) := pairs (items t).
Definition tbb_ok t : Prop := table_ok (items t).

Lemma tbb_Insert_new t k v :
  tbb_ok t -> map_of (tbb_pairs t) !! k = None ->
  ∃ t', (∀ n, rand_Insert t (Some k) v n = Ok (t', true, S n)) ∧ tbb_ok t' ∧
        map_of (tbb_pairs t') = <[k := v]> (map_of (tbb_pairs t)) ∧
        (tbb_pairs t').*2 ≡ₚ v :: (tbb_pairs t).*2.
Proof.
  intros Ht Hk. exists (tbb_insert t (Wrap k, v)).1.
  destruct (insert_new_items t (Wrap k) v) as [Hb Hp]; [by rewrite find_tmap|]. split.
  { intros n. unfold rand_Insert, Copy, mbind, M_bind, MemAlloc_Malloc, mret, M_ret. change (set_value k) with (Wrap k).
    f_equal. f_equal. by rewrite (surjective_pairing (tbb_insert t (Wrap k, v))), Hb. }
  assert (table_ok ((Wrap k, v) :: items t)) as Hok by (apply table_ok_cons; by rewrite <-tmap_none).
  destruct (table_ok_perm _ _ (symmetry Hp) Hok) as [H1 H2]. split; [exact H1|].
  split; [exact H2|]. unfold tbb_pairs. rewrite !pairs_snd. by rewrite Hp.
Qed.

Lemma tbb_Insert_old t k v n :
  tbb_ok t -> is_Some (map_of (tbb_pairs t) !! k) -> rand_Insert t (Some k) v n = Ok (t, false, S n).
Proof.
  intros Ht Hk. unfold rand_Insert, Copy, mbind, M_bind, MemAlloc_Malloc, mret, M_ret. change (set_value k) with (Wrap k).
  by rewrite insert_old_items by (by rewrite (find_tmap k)).
Qed.

Lemma tbb_Update_old t k v old :
  tbb_ok t -> map_of (tbb_pairs t) !! k = Some old ->
  ∃ t' rest, rand_Update t k v = (t', Some old) ∧ tbb_ok t' ∧
             map_of (tbb_pairs t') = <[k := v]> (map_of (tbb_pairs t)) ∧
             (tbb_pairs t).*2 ≡ₚ old :: rest ∧ (tbb_pairs t').*2 ≡ₚ v :: rest.
Proof.
  intros Ht Hk. destruct (Update_old k v old (items t) Ht Hk) as (l & rest & Hu & H).
  unfold Table.Update in Hu. rewrite find_tmap in Hu by done. change (map_of (tbb_pairs t)) with (tmap (items t)) in Hk.
  rewrite Hk in Hu. injection Hu as <-. exists (tbb_store t (Wrap k) v), rest.
  unfold rand_Update, tbb_ok, tbb_pairs. rewrite find_items, find_tmap, Hk, store_items, !pairs_snd by done. done.
Qed.

Lemma tbb_Remove_old t k old :
  tbb_ok t -> map_of (tbb_pairs t) !! k = Some old ->
  ∃ t', (∀ n, rand_Remove t k (S n) = Ok (t', Some old, n)) ∧ tbb_ok t' ∧
        map_of (tbb_pairs t') = delete k (map_of (tbb_pairs t)) ∧
        (tbb_pairs t).*2 ≡ₚ old :: (tbb_pairs t').*2.
Proof.
  intros Ht Hk. destruct (Remove_old k old (items t) Ht Hk) as (l & Hr & Hok & Hm & Hp). specialize (Hr 0%nat).
  unfold Table.Remove in Hr. rewrite find_tmap in Hr by done. change (map_of (tbb_pairs t)) with (tmap (items t)) in Hk.
  rewrite Hk in Hr. injection Hr as <-. exists (tbb_erase t (Wrap k)).
  split; [intros n; unfold rand_Remove; by rewrite find_items, find_tmap, Hk|].
  unfold tbb_ok, tbb_pairs. rewrite !pairs_snd by done.
  destruct (table_ok_perm _ _ (symmetry (erase_items t (Wrap k))) Hok) as [H1 H2].
  split; [done|]. split; [exact (eq_trans H2 Hm)|]. by rewrite erase_items.
Qed.

Lemma tbb_Update_new t k v : tbb_ok t -> map_of (tbb_pairs t) !! k = None -> rand_Update t k v = (t, None).
Proof.
  intros Ht Hk. change (map_of (tbb_pairs t)) with (tmap (items t)) in Hk.
  unfold rand_Update. by rewrite find_items, find_tmap, Hk.
Qed.

Lemma tbb_Remove_new t k n : tbb_ok t -> map_of (tbb_pairs t) !! k = None -> rand_Remove t k n = Ok (t, None, n).
Proof.
  intros Ht Hk. change (map_of (tbb_pairs t)) with (tmap (items t)) in Hk.
  unfold rand_Remove. by rewrite find_items, find_tmap, Hk.
Qed.

Lemma tbb_Entries t k n : rand_Entries t k n = Table.Entries (items t) k n.
Proof. unfold rand_Entries, push_pairs, Table.Entries. destruct k; [by rewrite equal_range_items|done]. Qed.
End laws.

#[local] Obligation Tactic := idtac.
#[program] Definition tbb_rand_hashtable (C : TbbContainer) : StringHashtable := {|
  ht := tbb;
  new_table V := tbb_empty;
  ht_Get V := rand_Get;
  ht_Insert V := rand_Insert;
  ht_Update V := rand_Update;
  ht_Remove V := rand_Remove;
  ht_Entries V := rand_Entries;
  ht_Size V := rand_Size;
  ht_pairs V := tbb_pairs;
  ht_ok V := tbb_ok
|}.
Next Obligation. by intros C V t [_ ?]. Qed.
Next Obligation. intros C V. unfold tbb_ok, tbb_pairs. rewrite empty_items. split; [split; constructor|done]. Qed.
Next Obligation.
  intros C V t k Ht. transitivity (tbb_find t (Wrap k)).
  - unfold rand_Get. by destruct (tbb_find _ _).
  - rewrite find_items. by apply find_tmap.
Qed.
Next Obligation. done. Qed.
Next Obligation. intros C V. apply tbb_Insert_new. Qed.
Next Obligation. intros C V. apply tbb_Insert_old. Qed.
Next Obligation. intros C V. apply tbb_Update_old. Qed.
Next Obligation. intros C V t k v. apply tbb_Update_new. Qed.
Next Obligation. intros C V. apply tbb_Remove_old. Qed.
Next Obligation. intros C V t k n. apply tbb_Remove_new. Qed.
Next Obligation. intros C V t n. rewrite tbb_Entries. apply Entries_all. Qed.
Next Obligation. intros C V t n. rewrite tbb_Entries. apply Entries_none. Qed.
Next Obligation. intros C V t k n Ht Hn. rewrite tbb_Entries. by apply Entries_from. Qed.
Next Obligation. intros C V t. unfold tbb_pairs, pairs. rewrite length_fmap. apply size_items. Qed.

(** The operations of the other table are the same, branch by branch. *)
#[program] Definition tbb_scan_hashtable (C : TbbContainer) : StringHashtable := {|
  ht := tbb;
  new_table V := tbb_empty;
  ht_Get V := scan_Get;
  ht_Insert V := scan_Insert;
  ht_Update V := scan_Update;
  ht_Remove V := scan_Remove;
  ht_Entries V := scan_Entries;
  ht_Size V := scan_Size;
  ht_pairs V := tbb_pairs;
  ht_ok V := tbb_ok
|}.
Solve Obligations with intros C; apply (tbb_rand_hashtable C).

(** ** Sequences of operations on a table, and on a map *)
Inductive table_op (V : Type) : Type :=
  | TGet (key : string)
  | TInsert (key : option string) (value : V)
  | TUpdate (key : string) (value : V)
  | TRemove (key : string)
  | TEntries
  | TSize.
Arguments TGet {V} key.
Arguments TInsert {V} key value.
Arguments TUpdate {V} key value.
Arguments TRemove {V} key.
Arguments TEntries {V}.
Arguments TSize {V}.

Inductive answer (V : Type) : Type :=
  | AValue (v : option V)
  | ABool (b : bool)
  | AEntries (es : list (string * V))
  | ASize (n : nat).
Arguments AValue {V} v.
Arguments ABool {V} b.
Arguments AEntries {V} es.
Arguments ASize {V} n.

(** Equal, but for the order of iteration. *)
Definition alike {V} (a b : answer V) : Prop :=
  match a, b with
  | AEntries es, AEntries es' => es ≡ₚ es'
  | _, _ => a = b
  end.

Section runs.
Import StringHashtable.
Context {V : Type}.

(** [Entries] with its default arguments. *)
Definition on_table {HT : StringHashtable} (o : table_op V) (t : ht V) : M blocks (ht V * answer V) :=
  match o with
  | TGet k => mret (t, AValue (ht_Get t k))
  | TInsert k v => '(t, b) ← ht_Insert t k v; mret (t, ABool b)
  | TUpdate k v => let '(t, old) := ht_Update t k v in mret (t, AValue old)
  | TRemove k => '(t, old) ← ht_Remove t k; mret (t, AValue old)
  | TEntries => mret (t, AEntries (ht_Entries t None (2 ^ 64 - 1)))
  | TSize => mret (t, ASize (ht_Size t))
  end.

Fixpoint table_answers {HT : StringHashtable} (os : list (table_op V)) (t : ht V) : M blocks (list (answer V)) :=
  match os with
  | [] => mret []
  | o :: os' => '(t, a) ← on_table o t; rest ← table_answers os' t; mret (a :: rest)
  end.

Definition on_map (o : table_op V) (m : gmap string V) : gmap string V * answer V :=
  match o with
  | TGet k => (m, AValue (m !! k))
  | TInsert None _ => (m, ABool false)
  | TInsert (Some k) v =>
      if m !! k is Some _ then (m, ABool false) else (<[k := v]> m, ABool true)
  | TUpdate k v => (if m !! k is Some _ then <[k := v]> m else m, AValue (m !! k))
  | TRemove k => (delete k m, AValue (m !! k))
  | TEntries => (m, AEntries (map_to_list m))
  | TSize => (m, ASize (size m))
  end.

(** An insertion copies its key, and a removal frees the copy. *)
Definition copies_after (o : table_op V) (m : gmap string V) (n : nat) : nat :=
  match o with
  | TInsert (Some _) _ => S n
  | TRemove k => if m !! k is Some _ then pred n else n
  | _ => n
  end.

(** The answers, and how many copies of keys are live at the end. *)
Fixpoint map_answers (os : list (table_op V)) (m : gmap string V) (n : nat) : list (answer V) * nat :=
  match os with
  | [] => ([], n)
  | o :: os' =>
      let '(m', a) := on_map o m in
      let '(rest, n') := map_answers os' m' (copies_after o m n) in
      (a :: rest, n')
  end.

Context {HT : StringHashtable}.
Implicit Types t : ht V.

Lemma pairs_map_to_list t : ht_ok t -> ht_pairs t ≡ₚ map_to_list (tmap t).
Proof. intros Ht. unfold tmap, map_of. by rewrite map_to_list_to_map by (by apply ht_nodup). Qed.

Lemma length_size t : ht_ok t -> length (ht_pairs t) = size (tmap t).
Proof. intros Ht. by rewrite (pairs_map_to_list t Ht), length_map_to_list. Qed.

(** One operation: the table stays the table of the map, with one answer. *)
Lemma on_table_map o t n :
  ht_ok t -> (size (tmap t) <= n)%nat -> Z.of_nat n < 2 ^ 64 ->
  let n' := copies_after o (tmap t) n in
  ∃ t' a, on_table o t n = Ok ((t', a), n') ∧ ht_ok t' ∧ tmap t' = (on_map o (tmap t)).1 ∧
    alike a (on_map o (tmap t)).2 ∧ (size (tmap t') <= n' <= S n)%nat.
Proof.
  intros Ht Hn Hb. pose proof (length_size t Ht) as Hl.
  destruct o as [k|[k|] v|k v|k| |]; cbn [on_table on_map copies_after]; cbv zeta; unfold mret, M_ret, mbind, M_bind.
  - do 2 eexists. split; [done|]. rewrite Get_law by done. split_and!; [done..|lia|lia].
  - destruct (tmap t !! k) as [w|] eqn:Hk.
    + rewrite Insert_old_law by eauto. do 2 eexists. split; [done|]. split_and!; [done..|lia|lia].
    + destruct (Insert_new_law t k v Ht Hk) as (t' & -> & Hok & Hm & _). do 2 eexists. split; [done|].
      unfold tmap. rewrite Hm. fold (tmap t). rewrite map_size_insert_None by done. split_and!; [done..|lia|lia].
  - rewrite Insert_NULL. do 2 eexists. split; [done|]. split_and!; [done..|lia|lia].
  - destruct (tmap t !! k) as [w|] eqn:Hk.
    + destruct (Update_old_law t k v w Ht Hk) as (t' & rest & -> & Hok & Hm & _). do 2 eexists. split; [done|].
      unfold tmap. rewrite Hm. fold (tmap t). rewrite map_size_insert_Some by eauto. split_and!; [done..|lia|lia].
    + rewrite Update_new_law by done. do 2 eexists. split; [done|]. split_and!; [done..|lia|lia].
  - destruct (tmap t !! k) as [w|] eqn:Hk.
    + destruct (Remove_old_law t k w Ht Hk) as (t' & Hr & Hok & Hm & _).
      pose proof (map_size_delete_Some k (tmap t) (mk_is_Some _ _ Hk)) as Hsz.
      assert (size (tmap t) ≠ 0)%nat as Hne by (intros E%map_size_empty_inv; by rewrite E, lookup_empty in Hk).
      destruct n as [|n]; [lia|]. rewrite Hr. do 2 eexists. split; [done|].
      unfold tmap. rewrite Hm. fold (tmap t). split_and!; [done..|cbn; lia|cbn; lia].
    + rewrite Remove_new_law, delete_id by done. do 2 eexists. split; [done|]. split_and!; [done..|lia|lia].
  - rewrite Entries_all_law by lia. do 2 eexists. split; [done|]. split_and!; [done..| |lia|lia]. by apply pairs_map_to_list.
  - do 2 eexists. split; [done|]. rewrite Size_law, Hl. split_and!; [done..|lia|lia].
Qed.

(** What a table answers to the operations, from [n] live copies of keys. *)
Definition answers_like (t : ht V) (os : list (table_op V)) (m : gmap string V) (n : nat) : Prop :=
  ∃ l, table_answers os t n = Ok (l, (map_answers os m n).2) ∧ Forall2 alike l (map_answers os m n).1.

Lemma answers_map os t n :
  ht_ok t -> (size (tmap t) <= n)%nat -> Z.of_nat (n + length os) < 2 ^ 64 -> answers_like t os (tmap t) n.
Proof.
  revert t n. induction os as [|o os IH]; intros t n Ht Hn Hb; [by exists []|]. cbn [length] in Hb.
  destruct (on_table_map o t n Ht Hn ltac:(lia)) as (t' & a & Ho & Ht' & Hm & Ha & Hsz).
  destruct (IH t' (copies_after o (tmap t) n) Ht' ltac:(lia) ltac:(lia)) as (l & Hl & Hls).
  unfold answers_like. cbn [map_answers]. destruct (on_map o (tmap t)) as [m' b]. cbn [fst snd] in *. subst m'.
  destruct (map_answers os (tmap t') (copies_after o (tmap t) n)) as [rest n'].
  exists (a :: l). split; [|by constructor]. cbn [table_answers]. unfold mbind, M_bind. by rewrite Ho, Hl.
Qed.

Lemma answers_new os : Z.of_nat (length os) < 2 ^ 64 -> answers_like new_table os ∅ 0.
Proof.
  intros Hb. destruct (new_ok (V := V)) as [H1 H2].
  replace (∅ : gmap string V) with (tmap (new_table (V := V))) by (unfold tmap, map_of; by rewrite H2).
  apply (answers_map os new_table 0); [done| |done]. unfold tmap, map_of. by rewrite H2.
Qed.
End runs.

(** C19: The three tables of YCSB-C are one finite map.  Whatever lookups,
    insertions, updates, removals, listings and sizes are asked of a new
    StlHashtable, TbbRandHashtable or TbbScanHashtable, every answer is that
    of the map (a listing: its entries in some order), for any order of
    iteration of the containers: nothing is found that was not inserted, a
    NULL key and a key that is there are refused, an update returns the value
    it replaces, and a removed key is gone.  Each insertion makes a copy of
    its key, also one that is refused, and each removal of a key that is there
    frees one; no other copy is made or freed. *)
Theorem tables_are_maps {V} (O : Order) (C C' : TbbContainer) (os : list (table_op V)) :
  Z.of_nat (length os) < 2 ^ 64 ->
  Forall (λ HT : StringHashtable,
    ∃ l, table_answers os new_table 0%nat = Ok (l, (map_answers os ∅ 0).2) ∧
         Forall2 alike l (map_answers os ∅ 0).1)
    [stl_hashtable O; tbb_rand_hashtable C; tbb_scan_hashtable C'].
Proof.
  intros Hb. repeat constructor; by apply answers_new.
Qed.

(** A container that keeps the entries in a list, the last one first. *)
#[program] Definition tbb_lists : TbbContainer := {|
  tbb V := list (String * V);
  tbb_empty V := [];
  items V t := t;
  tbb_find V t s := find s t;
  tbb_store V t s v := assign s v t;
  tbb_insert V t e := if find e.1 t is Some _ then (t, false) else (e :: t, true);
  tbb_erase V t s := erase s t;
  tbb_equal_range V t s := from s t;
  tbb_size V t := length t
|}.
Solve Obligations with done.
Next Obligation. intros V t s v H. cbn. by rewrite H. Qed.
Next Obligation. intros V t s v [w H]. cbn. by rewrite H. Qed.

#[program] Definition in_front : Order := {| reorder V l := l |}.
Next Obligation. done. Qed.

Lemma tables_are_maps_witness :
  let os := [TInsert (Some "a") 1; TInsert (Some "a") 2; TUpdate "a" 3; TInsert None 4;
             TInsert (Some "b") 5; TEntries; TRemove "a"; TGet "a"; TSize]%string in
  @table_answers Z (tbb_scan_hashtable tbb_lists) os new_table 0%nat =
    Ok ([ABool true; ABool false; AValue (Some 1); ABool false; ABool true;
         AEntries [("b", 5); ("a", 3)]; AValue (Some 3); AValue None; ASize 1]%string, 2%nat) ∧
  Forall (λ HT : StringHashtable,
    ∃ l, table_answers os new_table 0%nat = Ok (l, (map_answers os ∅ 0).2) ∧
         Forall2 alike l (map_answers os ∅ 0).1)
    [stl_hashtable in_front; tbb_rand_hashtable tbb_lists; tbb_scan_hashtable tbb_lists].
Proof.
  split; [vm_compute; reflexivity|]. apply (tables_are_maps in_front tbb_lists tbb_lists). cbn. lia.
Defined.
