(* ===== verification/HashtableDb.v ===== *)
(** * HashtableDb: the in-memory database of YCSB-C (db/hashtable_db.cc)

    A table from keys to tables of fields, over any tables of the interface of
    StringHashtable.v.  An operation of
    the database is a tree of calls of tables and of the allocator; with the
    locked tables of db/lock_stl_db.h each call is atomic.  The tables of
    fields and the strings are blocks of a heap, so a use after a free is
    [Stuck]; the copies of keys that the tables make are counted. *)

From Stdlib Require Import ZArith Lia Ascii.
From stdpp Require Import base list strings gmap.
From S2P Require Import Prelude Calls Table StringHashtable.

Definition KVPair : Type := string * string.

Definition kOK : Z := 0.
Definition kErrorNoData : Z := 1.
Definition kErrorConflict : Z := 2.

(** Pointers to tables of fields and to strings. *)
Abbreviation loc := nat.

Inductive db_call : Type -> Type :=
  | key_Get (key : string) : db_call (option loc)
  | key_Insert (key : string) (t : loc) : db_call bool
  | key_Remove (key : string) : db_call (option loc)
  | key_Entries (key : option string) (n : Z) : db_call (list (string * loc))
  | delete_keys : db_call unit
  | field_Get (t : loc) (field : string) : db_call (option loc)
  | field_Insert (t : loc) (field : string) (v : loc) : db_call bool
  | field_Update (t : loc) (field : string) (v : loc) : db_call (option loc)
  | field_Entries (t : loc) : db_call (list (string * loc))
  | NewFieldHashtable : db_call loc
  | delete_table (t : loc) : db_call unit
  | CopyString (s : string) : db_call loc
  | DeleteString (v : loc) : db_call unit
  | read_string (v : loc) : db_call string.

(** ** The operations *)

(** Pairs of all the entries of a table. *)
Fixpoint push_entries (es : list (string * loc)) (result : list KVPair) : prog db_call (list KVPair) :=
  match es with
  | [] => mret result
  | (f, v) :: es' =>
      s ← call (read_string v);
      push_entries es' (result ++ [(f, s)])
  end.

(** Pairs of the given fields, without those that are not there. *)
Fixpoint push_fields (t : loc) (fields : list string) (result : list KVPair) : prog db_call (list KVPair) :=
  match fields with
  | [] => mret result
  | field :: fields' =>
      o ← call (field_Get t (c_str field));
      match o with
      | None => push_fields t fields' result
      | Some v =>
          s ← call (read_string v);
          push_fields t fields' (result ++ [(field, s)])
      end
  end.

Definition read_record (t : loc) (fields : option (list string)) : prog db_call (list KVPair) :=
  match fields with
  | None => es ← call (field_Entries t); push_entries es []
  | Some fields => push_fields t fields []
  end.

Definition Read (table key : string) (fields : option (list string)) (result : list KVPair) :
    prog db_call (Z * list KVPair) :=
  let key_index := (table ++ key)%string in
  o ← call (key_Get (c_str key_index));
  match o with
  | None => mret (kErrorNoData, result)
  | Some field_table =>
      result ← read_record field_table fields;
      mret (kOK, result)
  end.

Fixpoint scan_loop (es : list (string * loc)) (fields : option (list string))
    (result : list (list KVPair)) : prog db_call (list (list KVPair)) :=
  match es with
  | [] => mret result
  | (_, field_table) :: es' =>
      field_values ← read_record field_table fields;
      scan_loop es' fields (result ++ [field_values])
  end.

(** [len] is an [int]; [Entries] takes a [size_t]. *)
Definition Scan (table key : string) (len : Z) (fields : option (list string)) :
    prog db_call (Z * list (list KVPair)) :=
  let key_index := (table ++ key)%string in
  es ← call (key_Entries (Some (c_str key_index)) (u64 len));
  result ← scan_loop es fields [];
  mret (kOK, result).

(** The loops of [Update]: into a new table, and into one that was there. *)
Fixpoint fill_new (t : loc) (values : list KVPair) : prog db_call unit :=
  match values with
  | [] => mret tt
  | (f, x) :: values' =>
      value ← call (CopyString x);
      call (field_Insert t (c_str f) value) ;;
      fill_new t values'
  end.

Fixpoint update_old (t : loc) (values : list KVPair) : prog db_call unit :=
  match values with
  | [] => mret tt
  | (f, x) :: values' =>
      value ← call (CopyString x);
      old ← call (field_Update t (c_str f) value);
      match old with
      | None => call (field_Insert t (c_str f) value) ;; mret tt
      | Some old => call (DeleteString old)
      end ;;
      update_old t values'
  end.

Definition Update (table key : string) (values : list KVPair) : prog db_call Z :=
  let key_index := (table ++ key)%string in
  o ← call (key_Get (c_str key_index));
  match o with
  | None =>
      field_table ← call NewFieldHashtable;
      call (key_Insert (c_str key_index) field_table) ;;
      fill_new field_table values
  | Some field_table => update_old field_table values
  end ;;
  mret kOK.

Fixpoint insert_loop (t : loc) (values : list KVPair) : prog db_call Z :=
  match values with
  | [] => mret kOK
  | (f, x) :: values' =>
      value ← call (CopyString x);
      ok ← call (field_Insert t (c_str f) value);
      if negb ok then
        call (DeleteString value) ;; mret kErrorConflict
      else insert_loop t values'
  end.

Definition Insert (table key : string) (values : list KVPair) : prog db_call Z :=
  let key_index := (table ++ key)%string in
  o ← call (key_Get (c_str key_index));
  field_table ←
    match o with
    | None =>
        t ← call NewFieldHashtable;
        call (key_Insert (c_str key_index) t) ;;
        mret t
    | Some t => mret t
    end;
  insert_loop field_table values.

(** [LockStlDB::DeleteFieldHashtable]. *)
Fixpoint delete_strings (es : list (string * loc)) : prog db_call unit :=
  match es with
  | [] => mret tt
  | (_, v) :: es' => call (DeleteString v) ;; delete_strings es'
  end.

Definition DeleteFieldHashtable (t : loc) : prog db_call unit :=
  es ← call (field_Entries t);
  delete_strings es ;;
  call (delete_table t).

Definition Delete (table key : string) : prog db_call Z :=
  let key_index := (table ++ key)%string in
  o ← call (key_Remove (c_str key_index));
  match o with
  | None => mret kErrorNoData
  | Some field_table => DeleteFieldHashtable field_table ;; mret kOK
  end.

Fixpoint delete_tables (es : list (string * loc)) : prog db_call unit :=
  match es with
  | [] => mret tt
  | (_, t) :: es' => DeleteFieldHashtable t ;; delete_tables es'
  end.

(** [~LockStlDB]; the default [n] of [Entries] is [(size_t)-1]. *)
Definition destroy : prog db_call unit :=
  es ← call (key_Entries None (2 ^ 64 - 1));
  delete_tables es ;;
  call delete_keys.

(** ** The store

    The table of keys until it is deleted, the tables of fields and the
    strings that are live, and how many copies of keys the tables have made
    and not freed. *)
Section store.
Context {HT : StringHashtable}.

Record store := Store {
  key_table_ : option (ht loc);
  tables : gmap loc (ht loc);
  strs : gmap loc string;
  key_copies : blocks
}.
Definition store0 : store := Store (Some new_table) ∅ ∅ 0%nat.

Definition get_keys : M store (ht loc) := λ st,
  match key_table_ st with Some kt => Ok (kt, st) | None => Stuck end.
Definition set_keys (kt : option (ht loc)) : M store unit := λ st,
  Ok (tt, Store kt (tables st) (strs st) (key_copies st)).
Definition get_table (t : loc) : M store (ht loc) := λ st,
  match tables st !! t with Some ft => Ok (ft, st) | None => Stuck end.
Definition set_table (t : loc) (ft : ht loc) : M store unit := λ st,
  Ok (tt, Store (key_table_ st) (<[t := ft]> (tables st)) (strs st) (key_copies st)).
Definition drop_table (t : loc) : M store unit := λ st,
  Ok (tt, Store (key_table_ st) (delete t (tables st)) (strs st) (key_copies st)).

(** An operation of a table, which may copy or free a key. *)
Definition on_keys {A} (m : M blocks A) : M store A := λ st,
  match m (key_copies st) with
  | Ok (a, n) => Ok (a, Store (key_table_ st) (tables st) (strs st) n)
  | Stuck => Stuck
  end.

(** A call; the calls of a table hold its lock. *)
Definition serve X (e : db_call X) : M store X :=
  match e in db_call X return M store X with
  | key_Get k => kt ← get_keys; mret (ht_Get kt k)
  | key_Insert k t =>
      kt ← get_keys;
      '(kt, ok) ← on_keys (ht_Insert kt (Some k) t); set_keys (Some kt) ;; mret ok
  | key_Remove k =>
      kt ← get_keys;
      '(kt, o) ← on_keys (ht_Remove kt k); set_keys (Some kt) ;; mret o
  | key_Entries k n => kt ← get_keys; mret (ht_Entries kt k n)
  | delete_keys => get_keys ;; set_keys None
  | field_Get t f => ft ← get_table t; mret (ht_Get ft f)
  | field_Insert t f v =>
      ft ← get_table t;
      '(ft, ok) ← on_keys (ht_Insert ft (Some f) v); set_table t ft ;; mret ok
  | field_Update t f v =>
      ft ← get_table t;
      let '(ft, o) := ht_Update ft f v in set_table t ft ;; mret o
  | field_Entries t => ft ← get_table t; mret (ht_Entries ft None (2 ^ 64 - 1))
  | NewFieldHashtable => λ st,
      let t := fresh (dom (tables st)) in
      Ok (t, Store (key_table_ st) (<[t := new_table]> (tables st)) (strs st) (key_copies st))
  | delete_table t =>
      get_table t ;; drop_table t
  | CopyString s => λ st,
      let v := fresh (dom (strs st)) in
      Ok (v, Store (key_table_ st) (tables st) (<[v := c_str s]> (strs st)) (key_copies st))
  | DeleteString v => λ st,
      match strs st !! v with
      | Some _ => Ok (tt, Store (key_table_ st) (tables st) (delete v (strs st)) (key_copies st))
      | None => Stuck
      end
  | read_string v => λ st,
      match strs st !! v with Some s => Ok (s, st) | None => Stuck end
  end.
End store.
