(* ===== verification/HashtableSpec.v ===== *)
(** * HashtableSpec: the database is a map of maps (db/hashtable_db.cc)

    [models st K R es L]: the store [st] holds the table of keys [K], the
    tables of fields [R] at their addresses with the contents of their strings,
    the strings [es] that no table owns yet or any more, and [L] copies of keys
    that no table has any more.  Every call has a rule over [K], [R], [es] and
    [L]. *)

From Stdlib Require Import ZArith Lia Ascii.
From stdpp Require Import base list strings gmap sets fin_maps fin_map_dom.
From S2P Require Import Prelude Calls Table StringHashtable HashtableDb.

Section spec.
Context {HT : StringHashtable}.

(** ** Who owns a string *)
Definition owned (T : gmap loc (ht loc)) : list loc :=
  concat ((λ p, (ht_pairs p.2).*2) <$> map_to_list T).

Lemma owned_insert t ft T : T !! t = None -> owned (<[t := ft]> T) ≡ₚ (ht_pairs ft).*2 ++ owned T.
Proof. intros Ht. unfold owned. by rewrite map_to_list_insert. Qed.

Lemma owned_split t ft T : T !! t = Some ft -> owned T ≡ₚ (ht_pairs ft).*2 ++ owned (delete t T).
Proof.
  intros Ht. rewrite <-(insert_delete_id T t ft Ht) at 1.
  apply owned_insert, lookup_delete_eq.
Qed.

Lemma owned_update t ft' T : owned (<[t := ft']> T) ≡ₚ (ht_pairs ft').*2 ++ owned (delete t T).
Proof. rewrite <-insert_delete_eq. apply owned_insert, lookup_delete_eq. Qed.

Lemma tmap_owned f v t ft T :
  tmap ft !! f = Some v -> T !! t = Some ft -> v ∈ owned T.
Proof.
  intros Hf Ht. rewrite (owned_split _ _ _ Ht). apply elem_of_app. left.
  apply elem_of_list_to_map_2 in Hf. apply list_elem_of_fmap. by exists (f, v).
Qed.

(** ** What a store stands for *)
Definition fields_of (S : gmap loc string) (ft : ht loc) : gmap string string :=
  omap (λ v, S !! v) (tmap ft).
Definition records_of (st : store) : gmap loc (gmap string string) :=
  fields_of (strs st) <$> tables st.

Record models (st : store) (K : gmap string loc) (R : gmap loc (gmap string string))
    (es : list (loc * string)) (L : nat) : Prop := {
  m_keys : ∃ kt, key_table_ st = Some kt ∧ ht_ok kt ∧ tmap kt = K;
  m_records : records_of st = R;
  m_tables_ok : map_Forall (λ _, ht_ok) (tables st);
  m_owned : es.*1 ++ owned (tables st) ≡ₚ (map_to_list (strs st)).*1;
  m_extra : Forall (λ e, strs st !! e.1 = Some e.2) es;
  m_copies : key_copies st = (size K + length (owned (tables st)) + L)%nat
}.

Lemma models_nodup st K R es L : models st K R es L -> NoDup (es.*1 ++ owned (tables st)).
Proof. intros H. rewrite (m_owned _ _ _ _ _ H). apply NoDup_fst_map_to_list. Qed.

Lemma models_perm st K R es es' L : es ≡ₚ es' -> models st K R es L -> models st K R es' L.
Proof. intros Hp [? ? ? ? ? ?]. split; try done; by rewrite <-Hp. Qed.

Lemma models_live st K R es L v :
  models st K R es L -> v ∈ owned (tables st) -> ∃ s, strs st !! v = Some s.
Proof.
  intros H Hv. assert (v ∈ (map_to_list (strs st)).*1) as Hin.
  { rewrite <-(m_owned _ _ _ _ _ H). apply elem_of_app. by right. }
  apply list_elem_of_fmap in Hin as ([v' s] & -> & Hin). exists s.
  by apply elem_of_map_to_list in Hin.
Qed.

(** A table and its record. *)
Lemma models_table st K R es L t fs :
  models st K R es L -> R !! t = Some fs ->
  ∃ ft, tables st !! t = Some ft ∧ ht_ok ft ∧ fs = fields_of (strs st) ft ∧
    ∀ f, match tmap ft !! f with
         | Some v => ∃ s, strs st !! v = Some s ∧ fs !! f = Some s
         | None => fs !! f = None
         end.
Proof.
  intros H Hf. pose proof (m_records _ _ _ _ _ H) as HR. subst R.
  unfold records_of in Hf. rewrite lookup_fmap in Hf.
  destruct (tables st !! t) as [ft|] eqn:Ht; [|done]. injection Hf as <-.
  exists ft. split; [done|]. split; [by apply (m_tables_ok _ _ _ _ _ H t)|]. split; [done|].
  intros f. unfold fields_of. rewrite lookup_omap.
  destruct (tmap ft !! f) as [v|] eqn:Hv; [|done].
  destruct (models_live _ _ _ _ _ v H) as [s Hs]; [by eapply tmap_owned|].
  exists s. by rewrite Hs.
Qed.

(** Strings that no table owns do not matter. *)
Lemma fields_of_ext S S' ft :
  (∀ f v, tmap ft !! f = Some v -> S' !! v = S !! v) -> fields_of S' ft = fields_of S ft.
Proof.
  intros H. apply map_eq. intros f. unfold fields_of. rewrite !lookup_omap.
  destruct (tmap ft !! f) as [v|] eqn:Hv; [|done]. by apply (H f).
Qed.

Lemma records_ext T S S' :
  (∀ v, v ∈ owned T -> S' !! v = S !! v) -> fields_of S' <$> T = fields_of S <$> T.
Proof.
  intros H. apply map_fmap_ext. intros t ft Ht. apply fields_of_ext.
  intros f v Hv. apply H. by eapply tmap_owned.
Qed.

(** ** Rules for the calls *)

Lemma key_Get_rule st K R es L k (Q : option loc -> store -> Prop) :
  models st K R es L -> Q (K !! k) st -> wp (serve _ (key_Get k)) Q st.
Proof.
  intros Hm HQ. destruct (m_keys _ _ _ _ _ Hm) as (kt & Hkt & Hok & <-).
  unfold wp. cbn [serve]. unfold mbind, M_bind, get_keys, mret, M_ret. by rewrite Hkt, Get_law.
Qed.

(** Runs a call on the table of keys. *)
Ltac on_key_table Hm kt Hok :=
  let Hkt := fresh "Hkt" in
  destruct (m_keys _ _ _ _ _ Hm) as (kt & Hkt & Hok & <-);
  unfold wp; cbn [serve]; unfold mbind, M_bind, get_keys, on_keys; rewrite Hkt.

Lemma key_Insert_rule st K R es L k t (Q : bool -> store -> Prop) :
  models st K R es L -> K !! k = None ->
  (∀ st', models st' (<[k := t]> K) R es L -> Q true st') ->
  wp (serve _ (key_Insert k t)) Q st.
Proof.
  intros Hm HK HQ. on_key_table Hm kt Hok.
  destruct (Insert_new_law kt k t) as (kt' & -> & Hok' & Hmap & _); [done..|].
  apply HQ. destruct Hm as [_ HR Ht Ho He Hc]. split; cbn; try done; [by exists kt'|].
  rewrite Hc, map_size_insert_None by done. lia.
Qed.

Lemma key_Insert_full st K R es L k t (Q : bool -> store -> Prop) :
  models st K R es L -> is_Some (K !! k) ->
  (∀ st', models st' K R es (S L) -> Q false st') ->
  wp (serve _ (key_Insert k t)) Q st.
Proof.
  intros Hm HK HQ. on_key_table Hm kt Hok. rewrite Insert_old_law by done.
  apply HQ. destruct Hm as [_ HR Ht Ho He Hc]. split; cbn; try done; [by exists kt|]. lia.
Qed.

Lemma key_Remove_rule st K R es L k t (Q : option loc -> store -> Prop) :
  models st K R es L -> K !! k = Some t ->
  (∀ st', models st' (delete k K) R es L -> Q (Some t) st') ->
  wp (serve _ (key_Remove k)) Q st.
Proof.
  intros Hm HK HQ. on_key_table Hm kt Hok.
  destruct (Remove_old_law kt k t) as (kt' & Hr & Hok' & Hmap & _); [done..|].
  pose proof (map_size_delete_Some k (tmap kt) (mk_is_Some _ _ HK)) as Hsz.
  assert (size (tmap kt) ≠ 0)%nat as Hne by (intros E%map_size_empty_inv; by rewrite E, lookup_empty in HK).
  destruct Hm as [_ HR Ht Ho He Hc]. destruct (key_copies st) as [|n]; [lia|]. rewrite Hr.
  apply HQ. split; cbn; try done; [by exists kt'|]. lia.
Qed.

Lemma key_Remove_none st K R es L k (Q : option loc -> store -> Prop) :
  models st K R es L -> K !! k = None ->
  (∀ st', models st' K R es L -> Q None st') ->
  wp (serve _ (key_Remove k)) Q st.
Proof.
  intros Hm HK HQ. on_key_table Hm kt Hok. rewrite (Remove_new_law kt k) by done.
  apply HQ. destruct Hm as [_ HR Ht Ho He Hc]. split; cbn; try done. by exists kt.
Qed.

(** A new table is at an address that was free. *)
Lemma New_rule st K R es L (Q : loc -> store -> Prop) :
  models st K R es L ->
  (∀ t st', R !! t = None -> models st' K (<[t := ∅]> R) es L -> Q t st') ->
  wp (serve _ NewFieldHashtable) Q st.
Proof.
  intros [Hk <- Ht Ho He Hc] HQ. unfold wp. cbn.
  set (t := fresh (dom (tables st))).
  assert (tables st !! t = None) as Hn by (apply not_elem_of_dom, is_fresh).
  assert (owned (<[t := new_table]> (tables st)) ≡ₚ owned (tables st)) as Hp.
  { rewrite owned_insert by done. by rewrite (proj2 new_ok). }
  apply HQ.
  - unfold records_of. by rewrite lookup_fmap, Hn.
  - split; cbn; try done.
    + unfold records_of. cbn. rewrite fmap_insert. f_equal. unfold fields_of, tmap.
      by rewrite (proj2 new_ok).
    + apply map_Forall_insert_2; [apply new_ok|done].
    + by rewrite Hp.
    + by rewrite Hp.
Qed.

Lemma CopyString_rule st K R es L s (Q : loc -> store -> Prop) :
  models st K R es L ->
  (∀ v st', models st' K R ((v, c_str s) :: es) L -> Q v st') ->
  wp (serve _ (CopyString s)) Q st.
Proof.
  intros Hm HQ. unfold wp. cbn. set (v := fresh (dom (strs st))).
  assert (strs st !! v = None) as Hn by (apply not_elem_of_dom, is_fresh).
  apply HQ. pose proof Hm as [Hk HR Ht Ho He Hc]. split; cbn; try done.
  - rewrite <-HR. unfold records_of. cbn. apply records_ext. intros v' Hv'.
    destruct (models_live _ _ _ _ _ _ Hm Hv') as [s' Hs'].
    apply lookup_insert_ne. intros ->. congruence.
  - rewrite map_to_list_insert by done. cbn. by rewrite Ho.
  - constructor; [apply lookup_insert_eq|]. eapply Forall_impl; [exact He|].
    intros [v' s'] Hs'. cbn in *. rewrite lookup_insert_ne; [done|]. intros ->. congruence.
Qed.

Lemma models_free st K R es L v s :
  models st K R ((v, s) :: es) L ->
  strs st !! v = Some s ∧
  models (Store (key_table_ st) (tables st) (delete v (strs st)) (key_copies st)) K R es L.
Proof.
  intros Hm. pose proof (models_nodup _ _ _ _ _ Hm) as Hnd. cbn in Hnd.
  apply NoDup_cons in Hnd as [Hnin Hnd]. rewrite elem_of_app in Hnin.
  destruct Hm as [Hk HR Ht Ho He Hc]. apply Forall_cons in He as [Hv He]. cbn in Hv.
  split; [done|]. split; cbn; try done.
  - rewrite <-HR. unfold records_of. cbn. apply records_ext. intros v' Hv'.
    apply lookup_delete_ne. intros ->. tauto.
  - apply (Permutation_cons_inv (a := v)). cbn in Ho. rewrite Ho.
    rewrite <-(insert_delete_id (strs st) v s Hv) at 1.
    by rewrite map_to_list_insert by apply lookup_delete_eq.
  - apply list.Forall_forall. intros [v' s'] Hin. rewrite list.Forall_forall in He.
    cbn. rewrite lookup_delete_ne; [by apply (He (v', s'))|].
    intros <-. apply Hnin. left. apply list_elem_of_fmap. by exists (v, s').
Qed.

Lemma DeleteString_rule st K R es L v s (Q : unit -> store -> Prop) :
  models st K R ((v, s) :: es) L -> (∀ st', models st' K R es L -> Q tt st') ->
  wp (serve _ (DeleteString v)) Q st.
Proof.
  intros [Hv Hm]%models_free HQ. unfold wp. cbn. rewrite Hv. by apply HQ.
Qed.

(** A table changed, with the strings and the copies of keys that this takes
    or leaves. *)
Lemma set_table_models st K R es es' L L' n t ft ft' :
  models st K R es L -> tables st !! t = Some ft -> ht_ok ft' ->
  es'.*1 ++ (ht_pairs ft').*2 ≡ₚ es.*1 ++ (ht_pairs ft).*2 ->
  Forall (λ e, strs st !! e.1 = Some e.2) es' ->
  (n + length (ht_pairs ft) + L = key_copies st + length (ht_pairs ft') + L')%nat ->
  models (Store (key_table_ st) (<[t := ft']> (tables st)) (strs st) n) K
         (<[t := fields_of (strs st) ft']> R) es' L'.
Proof.
  intros [Hk <- Ht Ho He Hc] Hft Hok Hp He' Hn. split; cbn; try done.
  - unfold records_of. cbn. by rewrite fmap_insert.
  - by apply map_Forall_insert_2.
  - by rewrite owned_update, app_assoc, Hp, <-app_assoc, <-owned_split.
  - rewrite owned_update, length_app, length_fmap. rewrite (owned_split _ _ _ Hft), length_app, length_fmap in Hc. lia.
Qed.

Lemma fields_of_insert S ft ft' f v s :
  tmap ft' = <[f := v]> (tmap ft) -> S !! v = Some s ->
  fields_of S ft' = <[f := s]> (fields_of S ft).
Proof. intros Hm Hv. unfold fields_of. rewrite Hm. by apply omap_insert_Some. Qed.

Lemma length_snd {A B} (l l' : list (A * B)) : l.*2 ≡ₚ l'.*2 -> length l = length l'.
Proof. intros Hp%Permutation_length. by rewrite !length_fmap in Hp. Qed.

Lemma length_snd_cons {A B} (l l' : list (A * B)) v : l.*2 ≡ₚ v :: l'.*2 -> length l = S (length l').
Proof. intros Hp%Permutation_length. cbn in Hp. by rewrite !length_fmap in Hp. Qed.

(** Runs a call on the table of fields at [t]. *)
Ltac on_field_table Ht :=
  unfold wp; cbn [serve]; unfold mbind, M_bind, get_table, on_keys, set_table, mret, M_ret; rewrite Ht.

Lemma field_Insert_rule st K R es L t fs f v s (Q : bool -> store -> Prop) :
  models st K R ((v, s) :: es) L -> R !! t = Some fs -> fs !! f = None ->
  (∀ st', models st' K (<[t := <[f := s]> fs]> R) es L -> Q true st') ->
  wp (serve _ (field_Insert t f v)) Q st.
Proof.
  intros Hm Hfs Hf HQ. destruct (models_table _ _ _ _ _ _ _ Hm Hfs) as (ft & Ht & Hok & -> & Hall).
  specialize (Hall f). destruct (tmap ft !! f) eqn:Hft; [naive_solver congruence|].
  destruct (Insert_new_law ft f v Hok Hft) as (ft' & Hi & Hok' & Hmap & Hp).
  pose proof (m_extra _ _ _ _ _ Hm) as He. apply Forall_cons in He as [Hv He]. cbn in Hv.
  on_field_table Ht. rewrite Hi. cbn [key_table_ tables strs key_copies]. apply HQ. rewrite <-(fields_of_insert _ _ _ _ _ _ Hmap Hv).
  eapply set_table_models; [exact Hm|done..| |done|].
  - rewrite Hp. cbn. by rewrite Permutation_middle.
  - rewrite (length_snd_cons _ _ _ Hp). lia.
Qed.

(** The copy of the key of a refused insertion is lost. *)
Lemma field_Insert_full st K R es L t fs f v s0 (Q : bool -> store -> Prop) :
  models st K R es L -> R !! t = Some fs -> fs !! f = Some s0 ->
  (∀ st', models st' K R es (S L) -> Q false st') ->
  wp (serve _ (field_Insert t f v)) Q st.
Proof.
  intros Hm Hfs Hf HQ. destruct (models_table _ _ _ _ _ _ _ Hm Hfs) as (ft & Ht & Hok & -> & Hall).
  specialize (Hall f). destruct (tmap ft !! f) eqn:Hft; [|congruence].
  on_field_table Ht. rewrite (Insert_old_law ft f v _ Hok) by eauto.
  cbn [key_table_ tables strs key_copies]. apply HQ. rewrite <-(insert_id R t _ Hfs). eapply set_table_models; [exact Hm|done..|apply (m_extra _ _ _ _ _ Hm)|lia].
Qed.

Lemma field_Update_rule st K R es L t fs f v s s0 (Q : option loc -> store -> Prop) :
  models st K R ((v, s) :: es) L -> R !! t = Some fs -> fs !! f = Some s0 ->
  (∀ old st', models st' K (<[t := <[f := s]> fs]> R) ((old, s0) :: es) L -> Q (Some old) st') ->
  wp (serve _ (field_Update t f v)) Q st.
Proof.
  intros Hm Hfs Hf HQ. destruct (models_table _ _ _ _ _ _ _ Hm Hfs) as (ft & Ht & Hok & -> & Hall).
  specialize (Hall f). destruct (tmap ft !! f) as [old|] eqn:Hft; [|congruence].
  destruct Hall as (s1 & Hs1 & Hs2). rewrite Hf in Hs2. injection Hs2 as <-.
  destruct (Update_old_law ft f v old Hok Hft) as (ft' & rest & Hu & Hok' & Hmap & Hp & Hp').
  pose proof (m_extra _ _ _ _ _ Hm) as He. apply Forall_cons in He as [Hv He]. cbn in Hv.
  on_field_table Ht. rewrite Hu. apply HQ. rewrite <-(fields_of_insert _ _ _ _ _ _ Hmap Hv).
  eapply set_table_models; [exact Hm|done..| |by constructor|].
  - rewrite Hp, Hp'. cbn. rewrite <-!Permutation_middle. apply perm_swap.
  - pose proof (Permutation_length Hp) as H1. pose proof (Permutation_length Hp') as H2.
    rewrite length_fmap in H1, H2. cbn in H1, H2. lia.
Qed.

Lemma field_Update_none st K R es L t fs f v (Q : option loc -> store -> Prop) :
  models st K R es L -> R !! t = Some fs -> fs !! f = None ->
  (∀ st', models st' K R es L -> Q None st') ->
  wp (serve _ (field_Update t f v)) Q st.
Proof.
  intros Hm Hfs Hf HQ. destruct (models_table _ _ _ _ _ _ _ Hm Hfs) as (ft & Ht & Hok & -> & Hall).
  specialize (Hall f). destruct (tmap ft !! f) eqn:Hft; [naive_solver congruence|].
  unfold wp. cbn [serve]. unfold mbind, M_bind, get_table.
  rewrite Ht, (Update_new_law ft f v Hok) by eauto.
  unfold set_table, mret, M_ret. apply HQ. rewrite insert_id by done. by destruct st.
Qed.

Lemma field_Get_rule st K R es L t fs f (Q : option loc -> store -> Prop) :
  models st K R es L -> R !! t = Some fs ->
  (∀ o, match o with Some v => ∃ s, strs st !! v = Some s ∧ fs !! f = Some s
                   | None => fs !! f = None end -> Q o st) ->
  wp (serve _ (field_Get t f)) Q st.
Proof.
  intros Hm Hfs HQ. destruct (models_table _ _ _ _ _ _ _ Hm Hfs) as (ft & Ht & Hok & -> & Hall).
  unfold wp. cbn [serve]. unfold mbind, M_bind, get_table, mret, M_ret.
  rewrite Ht, Get_law by done. apply HQ, Hall.
Qed.

Lemma read_string_rule st v s (Q : string -> store -> Prop) :
  strs st !! v = Some s -> Q s st -> wp (serve _ (read_string v)) Q st.
Proof. intros Hs HQ. unfold wp. cbn. by rewrite Hs. Qed.

(** ** All the entries of a record *)

(** The entries of a table, against the pairs of its record. *)
Definition entry_is (st : store) (e : string * loc) (p : string * string) : Prop :=
  e.1 = p.1 ∧ strs st !! e.2 = Some p.2.

Lemma models_entries st K R es L t ft :
  models st K R es L -> tables st !! t = Some ft ->
  ∃ l, l ≡ₚ map_to_list (fields_of (strs st) ft) ∧ Forall2 (entry_is st) (ht_pairs ft) l.
Proof.
  intros Hm Ht. pose proof (ht_nodup _ (m_tables_ok _ _ _ _ _ Hm t ft Ht)) as Hnd.
  pose (at_ v := default EmptyString (strs st !! v)).
  assert (∀ f v, (f, v) ∈ ht_pairs ft -> strs st !! v = Some (at_ v)) as Hat.
  { intros f v Hin. destruct (models_live _ _ _ _ _ v Hm) as [s Hs].
    - apply (tmap_owned f v t ft); [by apply elem_of_list_to_map_1|done].
    - unfold at_. by rewrite Hs. }
  exists (prod_map id at_ <$> ht_pairs ft). split.
  - assert (fields_of (strs st) ft = list_to_map (prod_map id at_ <$> ht_pairs ft)) as ->.
    { rewrite list_to_map_fmap. apply map_eq. intros f.
      unfold fields_of, tmap, map_of. rewrite lookup_omap, lookup_fmap.
      destruct (list_to_map (ht_pairs ft) !! f) as [v|] eqn:Hf; [|done].
      apply elem_of_list_to_map_2 in Hf. cbn. by rewrite (Hat f v). }
    rewrite map_to_list_to_map; [done|]. by rewrite <-list_fmap_compose.
  - apply Forall2_fmap_r, Forall_Forall2_diag, list.Forall_forall.
    intros [f v] Hin. split; [done|]. by apply (Hat f v).
Qed.

Lemma field_Entries_rule st K R es L t fs (Q : list (string * loc) -> store -> Prop) :
  models st K R es L -> R !! t = Some fs -> Z.of_nat (size fs) < 2 ^ 64 ->
  (∀ ft l, tables st !! t = Some ft -> l ≡ₚ map_to_list fs ->
     Forall2 (entry_is st) (ht_pairs ft) l -> Q (ht_pairs ft) st) ->
  wp (serve _ (field_Entries t)) Q st.
Proof.
  intros Hm Hfs Hsz HQ. destruct (models_table _ _ _ _ _ _ _ Hm Hfs) as (ft & Ht & Hok & -> & _).
  destruct (models_entries _ _ _ _ _ _ _ Hm Ht) as (l & Hl & Hes).
  unfold wp. cbn [serve]. unfold mbind, M_bind, get_table, mret, M_ret. rewrite Ht.
  assert (length (ht_pairs ft) = size (fields_of (strs st) ft)) as Hlen.
  { rewrite <-length_map_to_list, <-Hl, <-(Forall2_length _ _ _ Hes). done. }
  rewrite Entries_all_law by lia. by apply (HQ ft l).
Qed.

(** ** Freeing a table *)

(** The store after the last step, [delete_table t]. *)
Definition without (t : loc) (st : store) : store :=
  Store (key_table_ st) (delete t (tables st)) (strs st) (key_copies st).

Lemma delete_strings_rule t K R es L l es_l st (Q : unit -> store -> Prop) :
  models (without t st) K R (l ++ es) L -> es_l.*2 = l.*1 ->
  (∀ st', models (without t st') K R es L -> tables st' = tables st -> Q tt st') ->
  wp (interp serve (delete_strings es_l)) Q st.
Proof.
  revert l st. induction es_l as [|[f v] es_l IH]; intros [|[v' s] l] st Hm Hl HQ; try done.
  - by apply HQ.
  - injection Hl as -> Hl. cbn [delete_strings]. apply wp_interp_bind, wp_interp_call.
    apply models_free in Hm as [Hv Hm]. cbn in Hv. unfold wp. cbn. rewrite Hv.
    apply (IH l); [exact Hm|done|]. exact HQ.
Qed.

(** The copies of the names of its fields are lost. *)
Lemma DeleteFieldHashtable_rule st K R es L t fs (Q : unit -> store -> Prop) :
  models st K R es L -> R !! t = Some fs -> Z.of_nat (size fs) < 2 ^ 64 ->
  (∀ st', models st' K (delete t R) es (size fs + L) -> Q tt st') ->
  wp (interp serve (DeleteFieldHashtable t)) Q st.
Proof.
  intros Hm Hfs Hsz HQ. apply wp_interp_bind, wp_interp_call.
  eapply field_Entries_rule; [done..|]. intros ft l Ht Hl Hes.
  apply wp_interp_bind.
  apply (delete_strings_rule t K (delete t R) es (size fs + L) ((λ p : (string * loc) * (string * string), (p.1.2, p.2.2)) <$> zip (ht_pairs ft) l)).
  - assert (length (ht_pairs ft) = size fs) as Hlen by (by rewrite (Forall2_length _ _ _ Hes), Hl, length_map_to_list).
    destruct Hm as [Hk HR Htok Ho He Hc]. split; cbn; try done.
    + rewrite <-HR. unfold records_of, without. cbn. by rewrite fmap_delete.
    + by apply map_Forall_delete.
    + rewrite <-Ho, (owned_split _ _ _ Ht), fmap_app.
      assert (((λ p : (string * loc) * (string * string), (p.1.2, p.2.2)) <$> zip (ht_pairs ft) l).*1 = (ht_pairs ft).*2) as ->.
      { rewrite <-(fst_zip (ht_pairs ft) l) at 2 by (by apply Forall2_length in Hes; lia).
        by rewrite <-!list_fmap_compose. }
      rewrite !app_assoc. by rewrite (Permutation_app_comm (ht_pairs ft).*2).
    + apply Forall_app. split; [|done]. clear -Hes. induction Hes as [|e p es' l' [H1 H2] _ IH]; [constructor|].
      constructor; [exact H2|exact IH].
    + rewrite Hc, (owned_split _ _ _ Ht), length_app, length_fmap. lia.
  - clear -Hes. induction Hes as [|e p es' l' _ _ IH]; [done|]. cbn. by f_equal.
  - intros st' Hm' Htab. apply wp_interp_call. unfold wp. cbn [serve].
    unfold mbind, M_bind, get_table, drop_table. rewrite Htab, Ht. by apply HQ.
Qed.
End spec.
