(* ===== verification/HashtableOps.v ===== *)
(** * HashtableOps: the operations of the database refine those of a map

    A database is a finite map from keys to finite maps from fields to values.
    Each operation of HashtableDb.v has a specification over such maps,
    together with the strings and the copies of keys that it loses, and
    follows it without a block that is freed twice or used after it is
    freed. *)

From Stdlib Require Import ZArith Lia Ascii.
From stdpp Require Import base list strings gmap sets fin_maps fin_map_dom.
From S2P Require Import Prelude Calls Table StringHashtable HashtableDb HashtableSpec.

Abbreviation record := (gmap string string).
Abbreviation database := (gmap string record).

(** ** The table of keys and the tables of fields *)
Section links.
Implicit Types (K : gmap string loc) (R : gmap loc record).

Record linked K R : Prop := {
  ln_live k t : K !! k = Some t -> is_Some (R !! t);
  ln_inj k k' t : K !! k = Some t -> K !! k' = Some t -> k = k';
  ln_owner t : is_Some (R !! t) -> ∃ k, K !! k = Some t
}.

Definition contents K R : database := omap (λ t, R !! t) K.

Lemma linked_empty : linked ∅ ∅.
Proof. split; intros *; rewrite ?lookup_empty; done. Qed.

Lemma contents_lookup K R k :
  contents K R !! k = K !! k ≫= λ t, R !! t.
Proof. apply lookup_omap. Qed.

Lemma contents_None K R k : linked K R -> contents K R !! k = None <-> K !! k = None.
Proof.
  intros HL. rewrite contents_lookup. destruct (K !! k) as [t|] eqn:Hk; [|done].
  destruct (ln_live _ _ HL _ _ Hk) as [fs Hfs]. cbn. by rewrite Hfs.
Qed.

Lemma link_update K R k t fs :
  linked K R -> K !! k = Some t ->
  linked K (<[t := fs]> R) ∧ contents K (<[t := fs]> R) = <[k := fs]> (contents K R).
Proof.
  intros HL Hk. split.
  - split.
    + intros k' t' Hk'. destruct (decide (t' = t)) as [->|Ht].
      * by rewrite lookup_insert_eq.
      * rewrite lookup_insert_ne by done. by eapply ln_live.
    + apply (ln_inj _ _ HL).
    + intros t' Ht'. destruct (decide (t' = t)) as [->|Ht]; [eauto|].
      rewrite lookup_insert_ne in Ht' by done. by apply (ln_owner _ _ HL).
  - apply map_eq. intros k'. destruct (decide (k' = k)) as [->|Hne].
    + rewrite lookup_insert_eq, contents_lookup, Hk. apply lookup_insert_eq.
    + rewrite lookup_insert_ne by done. rewrite !contents_lookup.
      destruct (K !! k') as [t'|] eqn:Hk'; [|done]. cbn. apply lookup_insert_ne.
      intros ->. apply Hne. by eapply ln_inj.
Qed.

Lemma link_new K R k t fs :
  linked K R -> K !! k = None -> R !! t = None ->
  linked (<[k := t]> K) (<[t := fs]> R) ∧
  contents (<[k := t]> K) (<[t := fs]> R) = <[k := fs]> (contents K R).
Proof.
  intros HL Hk Ht. assert (∀ k', K !! k' ≠ Some t) as Hnot.
  { intros k' Hk'. destruct (ln_live _ _ HL _ _ Hk'). congruence. }
  split; [split|].
  - intros k' t'. rewrite !lookup_insert. intros H.
    repeat case_decide; first [by eexists | by eapply ln_live | congruence].
  - intros k1 k2 t'. rewrite !lookup_insert. intros H1 H2.
    repeat case_decide; simplify_eq; first [done | by eapply ln_inj | exfalso; naive_solver].
  - intros t'. rewrite lookup_insert. case_decide as Hd.
    + intros _. exists k. rewrite Hd. apply lookup_insert_eq.
    + intros [k' Hk']%(ln_owner _ _ HL). exists k'. rewrite lookup_insert_ne; [done|].
      intros <-. congruence.
  - apply map_eq. intros k'. rewrite contents_lookup, !lookup_insert, contents_lookup.
    case_decide; cbn; [apply lookup_insert_eq|].
    destruct (K !! k') as [t'|] eqn:Hk'; [|done]. cbn. apply lookup_insert_ne.
    intros ->. by eapply Hnot.
Qed.

Lemma link_delete K R k t :
  linked K R -> K !! k = Some t ->
  linked (delete k K) (delete t R) ∧ contents (delete k K) (delete t R) = delete k (contents K R).
Proof.
  intros HL Hk.
  assert (∀ k' t', K !! k' = Some t' -> k' ≠ k -> t' ≠ t) as Hother.
  { intros k' t' Hk' Hne ->. apply Hne. by eapply ln_inj. }
  split; [split|].
  - intros k' t' [Hne Hk']%lookup_delete_Some. rewrite lookup_delete_ne.
    + by eapply ln_live.
    + symmetry. by eapply Hother.
  - intros k1 k2 t' [_ H1]%lookup_delete_Some [_ H2]%lookup_delete_Some. by eapply ln_inj.
  - intros t' [fs [Hne Hfs]%lookup_delete_Some].
    destruct (ln_owner _ _ HL t') as [k' Hk']; [eauto|]. exists k'.
    apply lookup_delete_Some. split; [|done]. intros ->. congruence.
  - apply map_eq. intros k'. rewrite contents_lookup. destruct (decide (k' = k)) as [->|Hne].
    + by rewrite !lookup_delete_eq.
    + rewrite !lookup_delete_ne by done. rewrite contents_lookup.
      destruct (K !! k') as [t'|] eqn:Hk'; [|done]. cbn. apply lookup_delete_ne.
      symmetry. by eapply Hother.
Qed.
End links.

(** ** What the operations mean *)

(** Later values of a field win. *)
Definition upsert (fs : record) (values : list KVPair) : record :=
  foldl (λ fs v, <[c_str v.1 := c_str v.2]> fs) fs values.

(** Insertion stops at the first field that is there. *)
Fixpoint insert_fields (fs : record) (values : list KVPair) : record * Z :=
  match values with
  | [] => (fs, kOK)
  | (f, x) :: values' =>
      match fs !! c_str f with
      | Some _ => (fs, kErrorConflict)
      | None => insert_fields (<[c_str f := c_str x]> fs) values'
      end
  end.

(** Filling keeps the first value of a field, and counts the refused ones. *)
Fixpoint fill_fields (fs : record) (values : list KVPair) : record * nat :=
  match values with
  | [] => (fs, 0%nat)
  | (f, x) :: values' =>
      match fs !! c_str f with
      | Some _ => let '(fs', n) := fill_fields fs values' in (fs', S n)
      | None => fill_fields (<[c_str f := c_str x]> fs) values'
      end
  end.

Definition pick (fs : record) (fields : list string) : list KVPair :=
  omap (λ f, (λ s, (f, s)) <$> fs !! c_str f) fields.

(** The pairs that a read returns: all in some order, or the given fields. *)
Definition reads (fs : record) (fields : option (list string)) (r : list KVPair) : Prop :=
  match fields with
  | None => r ≡ₚ map_to_list fs
  | Some fields => r = pick fs fields
  end.

Inductive op :=
  | ORead (table key : string) (fields : option (list string))
  | OScan (table key : string) (len : Z) (fields : option (list string))
  | OUpdate (table key : string) (values : list KVPair)
  | OInsert (table key : string) (values : list KVPair)
  | ODelete (table key : string).

(** A status, and the records read. *)
Definition result : Type := Z * list (list KVPair).

Definition perform (o : op) : prog db_call result :=
  match o with
  | ORead table key fields =>
      '(z, r) ← Read table key fields []; mret (z, if z =? kOK then [r] else [])
  | OScan table key len fields => Scan table key len fields
  | OUpdate table key values => z ← Update table key values; mret (z, [])
  | OInsert table key values => z ← Insert table key values; mret (z, [])
  | ODelete table key => z ← Delete table key; mret (z, [])
  end.

Definition index (table key : string) : string := c_str (table ++ key).

(** The abstract step: the result and the database after it. *)
Definition op_spec (db : database) (o : op) (r : result) (db' : database) : Prop :=
  match o with
  | ORead table key fields =>
      db' = db ∧
      match db !! index table key with
      | None => r = (kErrorNoData, [])
      | Some fs => ∃ l, r = (kOK, [l]) ∧ reads fs fields l
      end
  | OScan table key len fields =>
      db' = db ∧ r.1 = kOK ∧ ∃ keys, NoDup keys ∧ Z.of_nat (length keys) ≤ u64 len ∧
        Forall2 (λ k l, ∃ fs, db !! k = Some fs ∧ reads fs fields l) keys r.2 ∧
        match db !! index table key with
        | None => keys = []
        | Some _ => 0 < u64 len -> head keys = Some (index table key)
        end
  | OUpdate table key values =>
      r = (kOK, []) ∧
      db' = <[index table key :=
                match db !! index table key with
                | None => (fill_fields ∅ values).1
                | Some fs => upsert fs values
                end]> db
  | OInsert table key values =>
      let '(fs, z) := insert_fields (default ∅ (db !! index table key)) values in
      r = (z, []) ∧ db' = <[index table key := fs]> db
  | ODelete table key =>
      db' = delete (index table key) db ∧
      r = (if decide (is_Some (db !! index table key)) then kOK else kErrorNoData, [])
  end.

(** How many strings and how many copies of keys an operation loses: an
    update of a new key the values of the fields that it repeats with the
    copies of their names, an insert that is refused the copy of a name, and
    a deletion the names of all the fields. *)
Definition op_lost (db : database) (o : op) : nat * nat :=
  match o with
  | OUpdate table key values =>
      match db !! index table key with
      | None => let n := (fill_fields ∅ values).2 in (n, n)
      | Some _ => (0, 0)%nat
      end
  | OInsert table key values =>
      let z := (insert_fields (default ∅ (db !! index table key)) values).2 in
      (0%nat, if z =? kOK then 0%nat else 1%nat)
  | ODelete table key =>
      (0%nat, match db !! index table key with Some fs => size fs | None => 0%nat end)
  | _ => (0, 0)%nat
  end.
Definition lossless (db : database) (o : op) : Prop := op_lost db o = (0, 0)%nat.

(** The values that an operation brings. *)
Definition op_values (o : op) : list KVPair :=
  match o with OUpdate _ _ vs | OInsert _ _ vs => vs | _ => [] end.

(** No record has more than [n] fields. *)
Definition bounded (n : nat) (db : database) : Prop := map_Forall (λ _ fs, (size fs ≤ n)%nat) db.

(** Distinct new fields are all inserted. *)
Lemma insert_new_fields fs l :
  NoDup ((λ v, c_str v.1) <$> l) -> (∀ v, v ∈ l -> fs !! c_str v.1 = None) ->
  insert_fields fs l = (upsert fs l, kOK).
Proof.
  revert fs. induction l as [|[f x] l IH]; intros fs Hnd Hnew; [done|].
  apply NoDup_cons in Hnd as [Hf Hnd]. cbn [insert_fields].
  assert (fs !! c_str f = None) as -> by (apply (Hnew (f, x)); left).
  apply IH; [done|]. intros v Hv. rewrite lookup_insert_ne; [apply Hnew; by right|].
  intros E. apply Hf. apply list_elem_of_fmap. by exists v.
Qed.

(** ** The loops *)
Section loops.
Context {HT : StringHashtable}.

(** The store of a database that has lost so many strings and copies of keys. *)
Definition store_holds (st : store) (db : database) (lost_strs lost_keys : nat) : Prop :=
  ∃ K R es, models st K R es lost_keys ∧ length es = lost_strs ∧ linked K R ∧ contents K R = db.

(** Nothing is lost. *)
Definition store_is (st : store) (db : database) : Prop :=
  ∃ K R, models st K R [] 0 ∧ linked K R ∧ contents K R = db.

Lemma store_is_holds st db : store_is st db <-> store_holds st db 0 0.
Proof.
  split.
  - intros (K & R & Hm & HL & HC). by exists K, R, [].
  - intros (K & R & es & Hm & ->%length_zero_iff_nil & HL & HC). by exists K, R.
Qed.

Lemma models_store0 : models store0 ∅ ∅ [] 0.
Proof.
  destruct (new_ok (V := loc)) as [Hok Hp]. split; try done.
  exists new_table. split; [done|]. split; [done|]. unfold tmap. by rewrite Hp.
Qed.

Lemma store0_is : store_is store0 ∅.
Proof. exists ∅, ∅. split; [apply models_store0|split; [apply linked_empty|done]]. Qed.

(** Runs the next call by its rule. *)
Ltac next := apply wp_interp_bind, wp_interp_call.

Lemma push_entries_rule es l result st (Q : list KVPair -> store -> Prop) :
  Forall2 (entry_is st) es l -> Q (result ++ l) st ->
  wp (interp serve (push_entries es result)) Q st.
Proof.
  intros Hes. revert result. induction Hes as [|[f v] [f' s] es l [Hf Hv] _ IH]; intros result HQ.
  - by rewrite app_nil_r in HQ.
  - cbn in Hf, Hv. subst f'. cbn [push_entries]. next.
    eapply read_string_rule; [exact Hv|]. apply IH. by rewrite <-app_assoc.
Qed.

Lemma push_fields_rule st K R es L t fs fields result (Q : list KVPair -> store -> Prop) :
  models st K R es L -> R !! t = Some fs -> Q (result ++ pick fs fields) st ->
  wp (interp serve (push_fields t fields result)) Q st.
Proof.
  intros Hm Hfs. revert result. induction fields as [|f fields IH]; intros result HQ.
  - by rewrite app_nil_r in HQ.
  - cbn [push_fields]. next. eapply field_Get_rule; [done..|]. intros [v|].
    + intros (s & Hs & Hf). next. eapply read_string_rule; [exact Hs|]. apply IH.
      rewrite <-app_assoc. unfold pick in HQ. cbn in HQ. by rewrite Hf in HQ.
    + intros Hf. apply IH. unfold pick in HQ. cbn in HQ. by rewrite Hf in HQ.
Qed.

Lemma read_record_rule st K R es L t fs fields (Q : list KVPair -> store -> Prop) :
  models st K R es L -> R !! t = Some fs -> Z.of_nat (size fs) < 2 ^ 64 ->
  (∀ r, reads fs fields r -> Q r st) ->
  wp (interp serve (read_record t fields)) Q st.
Proof.
  intros Hm Hfs Hsz HQ. destruct fields as [fields|]; cbn [read_record].
  - eapply push_fields_rule; [done..|]. by apply HQ.
  - next. eapply field_Entries_rule; [done..|]. intros ft l _ Hl Hes.
    eapply push_entries_rule; [exact Hes|]. by apply HQ.
Qed.

Lemma fill_new_rule st K R es L t fs values (Q : unit -> store -> Prop) :
  models st K R es L -> R !! t = Some fs ->
  (∀ st' lost, models st' K (<[t := (fill_fields fs values).1]> R) (lost ++ es) ((fill_fields fs values).2 + L) ->
     length lost = (fill_fields fs values).2 -> Q tt st') ->
  wp (interp serve (fill_new t values)) Q st.
Proof.
  revert st R fs es L. induction values as [|[f x] values IH]; intros st R fs es L Hm Hfs HQ.
  - apply (HQ st []); [|done]. cbn. by rewrite insert_id.
  - cbn [fill_new fill_fields] in *. next. eapply CopyString_rule; [done|]. intros v st1 H1. next.
    destruct (fs !! c_str f) as [s0|] eqn:Hf.
    + eapply field_Insert_full; [done..|]. intros st2 H2.
      eapply IH; [exact H2|done|]. destruct (fill_fields fs values) as [fs' n] eqn:Hfill. cbn [fst snd] in *.
      intros st' lost H' Hlost. apply (HQ st' (lost ++ [(v, c_str x)])).
      * by rewrite <-app_assoc, Nat.add_succ_comm.
      * rewrite length_app. cbn. lia.
    + eapply field_Insert_rule; [done..|]. intros st2 H2.
      eapply IH; [exact H2|apply lookup_insert_eq|]. rewrite insert_insert_eq. exact HQ.
Qed.

Lemma update_old_rule st K R es L t fs values (Q : unit -> store -> Prop) :
  models st K R es L -> R !! t = Some fs ->
  (∀ st', models st' K (<[t := upsert fs values]> R) es L -> Q tt st') ->
  wp (interp serve (update_old t values)) Q st.
Proof.
  revert st R fs. induction values as [|[f x] values IH]; intros st R fs Hm Hfs HQ.
  - apply HQ. by rewrite insert_id.
  - cbn [update_old]. next. eapply CopyString_rule; [done|]. intros v st1 H1. next.
    destruct (fs !! c_str f) as [s0|] eqn:Hf.
    + eapply field_Update_rule; [done..|]. intros old st2 H2. next.
      eapply DeleteString_rule; [done|]. intros st3 H3.
      eapply IH; [exact H3|apply lookup_insert_eq|]. rewrite insert_insert_eq. exact HQ.
    + eapply field_Update_none; [done..|]. intros st2 H2.
      apply wp_interp_bind. next. eapply field_Insert_rule; [done..|]. intros st3 H3.
      eapply IH; [exact H3|apply lookup_insert_eq|]. rewrite insert_insert_eq. exact HQ.
Qed.

(** The copies of keys that an insertion with this status loses. *)
Abbreviation refused z := (if (z : Z) =? kOK then 0%nat else 1%nat).

Lemma insert_loop_rule st K R es L t fs values (Q : Z -> store -> Prop) :
  models st K R es L -> R !! t = Some fs ->
  (∀ st', models st' K (<[t := (insert_fields fs values).1]> R) es (refused (insert_fields fs values).2 + L) ->
     Q (insert_fields fs values).2 st') ->
  wp (interp serve (insert_loop t values)) Q st.
Proof.
  revert st R fs. induction values as [|[f x] values IH]; intros st R fs Hm Hfs HQ.
  - apply HQ. cbn. by rewrite insert_id.
  - cbn [insert_loop]. next. eapply CopyString_rule; [done|]. intros v st1 H1. next.
    cbn [insert_fields] in HQ. destruct (fs !! c_str f) as [s0|] eqn:Hf.
    + eapply field_Insert_full; [done..|]. intros st2 H2. cbn [negb]. next.
      eapply DeleteString_rule; [done|]. intros st3 H3. apply HQ. cbn. by rewrite insert_id.
    + eapply field_Insert_rule; [done..|]. intros st2 H2. cbn [negb].
      eapply IH; [exact H2|apply lookup_insert_eq|]. rewrite insert_insert_eq. exact HQ.
Qed.

Lemma key_Entries_rule st K R es L k n (Q : list (string * loc) -> store -> Prop) :
  models st K R es L -> 0 ≤ n ->
  (∀ l, Forall (λ e, K !! e.1 = Some e.2) l -> NoDup l.*1 -> Z.of_nat (length l) ≤ n ->
     match K !! k with None => l = [] | Some t => 0 < n -> head l = Some (k, t) end -> Q l st) ->
  wp (serve _ (key_Entries (Some k) n)) Q st.
Proof.
  intros Hm Hn HQ. destruct (m_keys _ _ _ _ _ Hm) as (kt & Hkt & Hok & <-).
  unfold wp. cbn [serve]. unfold mbind, M_bind, get_keys. rewrite Hkt.
  destruct (Entries_from_law kt k n Hok Hn) as (H1 & H2 & H3 & H4). by apply HQ.
Qed.

Lemma scan_loop_rule st K R es L l fields acc (Q : list (list KVPair) -> store -> Prop) :
  models st K R es L -> map_Forall (λ _ fs, Z.of_nat (size fs) < 2 ^ 64) (contents K R) ->
  linked K R -> Forall (λ e, K !! e.1 = Some e.2) l ->
  (∀ rs, Forall2 (λ k r, ∃ fs, contents K R !! k = Some fs ∧ reads fs fields r) l.*1 rs ->
     Q (acc ++ rs) st) ->
  wp (interp serve (scan_loop l fields acc)) Q st.
Proof.
  intros Hm Hsz HL. revert acc. induction l as [|[k t] l IH]; intros acc Hl HQ.
  - rewrite <-(app_nil_r acc). apply HQ. constructor.
  - apply Forall_cons in Hl as [Hk Hl]. cbn in Hk. cbn [scan_loop].
    destruct (ln_live _ _ HL _ _ Hk) as [fs Hfs].
    assert (contents K R !! k = Some fs) as Hc by (rewrite contents_lookup, Hk; exact Hfs).
    apply wp_interp_bind. eapply read_record_rule; [done..|by apply (Hsz k)|].
    intros r Hr. apply IH; [done|]. intros rs Hrs. rewrite <-app_assoc. apply HQ.
    constructor; [by exists fs|done].
Qed.

(** ** The operations *)

(** Where a key is, and what it holds. *)
Lemma contents_at K R k :
  linked K R ->
  match K !! k with
  | Some t => ∃ fs, R !! t = Some fs ∧ contents K R !! k = Some fs
  | None => contents K R !! k = None
  end.
Proof.
  intros HL. rewrite contents_lookup. destruct (K !! k) as [t|] eqn:Hk; [|done].
  destruct (ln_live _ _ HL _ _ Hk) as [fs Hfs]. by exists fs.
Qed.

Definition small (db : database) : Prop := map_Forall (λ _ fs, Z.of_nat (size fs) < 2 ^ 64) db.

(** After a run on a store for [db] that had lost so much. *)
Definition performs (db : database) (ls lk : nat) (o : op) (r : result) (st' : store) : Prop :=
  ∃ db', op_spec db o r db' ∧ store_holds st' db' (ls + (op_lost db o).1) (lk + (op_lost db o).2).

(** Opens the store at the key [k]: its table and its record, or neither. *)
Ltac open_at k :=
  next; eapply key_Get_rule; [eassumption|];
  match goal with HL : linked ?K ?R |- _ =>
    let H := fresh "Hat" in
    pose proof (contents_at K R k HL) as H;
    destruct (K !! k) as [t|] eqn:Hk; [destruct H as (fs & Hfs & Hc)|rename H into Hc]
  end.

(** The store as it was. *)
Lemma store_same st K R es L : models st K R es L -> linked K R ->
  store_holds st (contents K R) (length es + 0) (L + 0).
Proof. rewrite !Nat.add_0_r. intros. by exists K, R, es. Qed.

Lemma Read_spec st db ls lk table key fields :
  store_holds st db ls lk -> small db ->
  wp (interp serve (perform (ORead table key fields))) (performs db ls lk (ORead table key fields)) st.
Proof.
  intros (K & R & es & Hm & <- & HL & <-) Hsz. cbn [perform]. unfold Read. cbv zeta. fold (index table key). apply wp_interp_bind.
  open_at (index table key).
  - apply wp_interp_bind. eapply read_record_rule; [done..|by apply (Hsz _ _ Hc)|].
    intros r Hr. exists (contents K R). split; [|by apply store_same].
    cbn. rewrite Hc. split; [done|]. by exists r.
  - exists (contents K R). split; [|by apply store_same]. cbn. by rewrite Hc.
Qed.

Lemma Scan_spec st db ls lk table key len fields :
  store_holds st db ls lk -> small db ->
  wp (interp serve (perform (OScan table key len fields)))
     (performs db ls lk (OScan table key len fields)) st.
Proof.
  intros (K & R & es & Hm & <- & HL & <-) Hsz. cbn [perform]. unfold Scan. cbv zeta. fold (index table key).
  pose proof (wrap_range 64 len ltac:(lia)) as Hlen. fold (u64 len) in Hlen.
  next. eapply key_Entries_rule; [done|lia|]. intros l Hl Hnd Hlenl Hk.
  apply wp_interp_bind. eapply scan_loop_rule; [done..|].
  intros rs Hrs. exists (contents K R). split; [|by apply store_same].
  split; [done|]. split; [done|]. exists l.*1. split; [done|].
  split; [by rewrite length_fmap|]. split; [exact Hrs|].
  pose proof (contents_at K R (index table key) HL) as Hat.
  destruct (K !! index table key) as [t|].
  - destruct Hat as (fs & _ & ->). intros Hpos. specialize (Hk Hpos).
    by destruct l as [|e l]; [|injection Hk as ->].
  - by rewrite Hat, Hk.
Qed.

(** A record replaced at its table, and one in a new table. *)
Lemma store_is_update st' K R k t fs es L ls lk :
  linked K R -> K !! k = Some t -> models st' K (<[t := fs]> R) es L -> length es = ls -> L = lk ->
  store_holds st' (<[k := fs]> (contents K R)) ls lk.
Proof.
  intros HL Hk Hm <- <-. destruct (link_update K R k t fs HL Hk) as [HL' HC].
  by exists K, (<[t := fs]> R), es.
Qed.

Lemma store_is_new st' K R k t fs es L ls lk :
  linked K R -> K !! k = None -> R !! t = None ->
  models st' (<[k := t]> K) (<[t := fs]> R) es L -> length es = ls -> L = lk ->
  store_holds st' (<[k := fs]> (contents K R)) ls lk.
Proof.
  intros HL Hk Ht Hm <- <-. destruct (link_new K R k t fs HL Hk Ht) as [HL' HC].
  by exists (<[k := t]> K), (<[t := fs]> R), es.
Qed.

Lemma Update_spec st db ls lk table key values :
  store_holds st db ls lk ->
  wp (interp serve (perform (OUpdate table key values)))
     (performs db ls lk (OUpdate table key values)) st.
Proof.
  intros (K & R & es & Hm & <- & HL & <-). cbn [perform]. unfold Update. cbv zeta. fold (index table key). apply wp_interp_bind.
  open_at (index table key); apply wp_interp_bind.
  - eapply update_old_rule; [done..|]. intros st' H'. eexists. split; [split; [done|reflexivity]|].
    cbn [op_lost]. rewrite Hc. eapply store_is_update; [done..|cbn; lia|cbn; lia].
  - next. eapply New_rule; [done|]. intros t st1 Ht H1. next.
    eapply key_Insert_rule; [done..|]. intros st2 H2.
    eapply fill_new_rule; [exact H2|apply lookup_insert_eq|].
    intros st3 lost H3 Hlost. rewrite insert_insert_eq in H3. eexists. split; [split; [done|reflexivity]|].
    cbn [op_lost]. rewrite Hc. eapply store_is_new; [done..|rewrite length_app; cbn; lia|cbn; lia].
Qed.

Lemma Insert_spec st db ls lk table key values :
  store_holds st db ls lk ->
  wp (interp serve (perform (OInsert table key values)))
     (performs db ls lk (OInsert table key values)) st.
Proof.
  intros (K & R & es & Hm & <- & HL & <-). cbn [perform]. unfold Insert. cbv zeta. fold (index table key). apply wp_interp_bind.
  assert (∀ st' d, default ∅ (contents K R !! index table key) = d ->
    store_holds st' (<[index table key := (insert_fields d values).1]> (contents K R)) (length es)
      (refused (insert_fields d values).2 + lk) ->
    performs (contents K R) (length es) lk (OInsert table key values) ((insert_fields d values).2, []) st') as Hdone.
  { intros st' d Hd Hs. unfold performs. cbn [op_spec op_lost]. rewrite Hd.
    destruct (insert_fields d values) as [fs z]. eexists. split; [split; [done|reflexivity]|].
    cbn [fst snd] in *. by rewrite Nat.add_0_r, Nat.add_comm. }
  open_at (index table key); apply wp_interp_bind.
  - eapply insert_loop_rule; [done..|]. intros st' H'.
    apply (Hdone st' fs); [by rewrite Hc|]. by eapply store_is_update.
  - next. eapply New_rule; [done|]. intros t st1 Ht H1. next.
    eapply key_Insert_rule; [done..|]. intros st2 H2.
    eapply insert_loop_rule; [exact H2|apply lookup_insert_eq|]. intros st3 H3.
    rewrite insert_insert_eq in H3. apply (Hdone st3 ∅); [by rewrite Hc|]. by eapply store_is_new.
Qed.

Lemma Delete_spec st db ls lk table key :
  store_holds st db ls lk -> small db ->
  wp (interp serve (perform (ODelete table key))) (performs db ls lk (ODelete table key)) st.
Proof.
  intros (K & R & es & Hm & <- & HL & <-) Hsz. cbn [perform]. unfold Delete. cbv zeta. fold (index table key). apply wp_interp_bind. next.
  pose proof (contents_at K R (index table key) HL) as Hat.
  destruct (K !! index table key) as [t|] eqn:Hk.
  - destruct Hat as (fs & Hfs & Hc).
    eapply key_Remove_rule; [done..|]. intros st1 H1. apply wp_interp_bind.
    eapply DeleteFieldHashtable_rule; [exact H1|done|by apply (Hsz _ _ Hc)|]. intros st2 H2.
    eexists. split; [split; [reflexivity|]|].
    + by rewrite Hc, decide_True.
    + cbn [op_lost]. rewrite Hc, Nat.add_0_r, Nat.add_comm. destruct (link_delete K R _ t HL Hk) as [HL' <-].
      by exists (delete (index table key) K), (delete t R), es.
  - eapply key_Remove_none; [done..|]. intros st1 H1. eexists. split; [split; [reflexivity|]|].
    + rewrite Hat, decide_False; [done|]. by intros [? ?].
    + cbn [op_lost]. rewrite Hat, delete_id by done. by apply store_same.
Qed.

Lemma perform_spec st db ls lk o :
  store_holds st db ls lk -> small db -> wp (interp serve (perform o)) (performs db ls lk o) st.
Proof.
  destruct o; eauto using Read_spec, Scan_spec, Update_spec, Insert_spec, Delete_spec.
Qed.

(** An operation that loses nothing. *)
Lemma perform_lossless st db o :
  store_is st db -> lossless db o -> small db ->
  wp (interp serve (perform o)) (λ r st', ∃ db', op_spec db o r db' ∧ store_is st' db') st.
Proof.
  intros Hst Ho Hsz. eapply wp_mono; [apply perform_spec; [by apply store_is_holds|done]|].
  intros r st' (db' & Hs & H'). rewrite Ho in H'. exists db'. split; [done|]. by apply store_is_holds.
Qed.
End loops.
