(* ===== verification/HashtableTheorems.v ===== *)
(** * HashtableTheorems: what the in-memory database promises

    Sequences of operations refine those of a map of maps, with an exact count
    of the strings and the copies of keys that they lose, and the destructor
    frees all that the database holds but copies of keys. *)

From Stdlib Require Import ZArith Lia Ascii.
From stdpp Require Import base list strings gmap sets fin_maps fin_map_dom.
From S2P Require Import Prelude Calls Table StringHashtable HashtableDb HashtableSpec HashtableOps.

Fixpoint perform_all (os : list op) : prog db_call (list result) :=
  match os with
  | [] => mret []
  | o :: os' => r ← perform o; rs ← perform_all os'; mret (r :: rs)
  end.

(** The abstract run, and how many strings and copies of keys it loses. *)
Fixpoint ops_spec (db : database) (os : list op) (rs : list result) (db' : database)
    (lost_strs lost_keys : nat) : Prop :=
  match os, rs with
  | [], [] => db' = db ∧ lost_strs = 0%nat ∧ lost_keys = 0%nat
  | o :: os', r :: rs' => ∃ db1 ls lk,
      op_spec db o r db1 ∧ ops_spec db1 os' rs' db' ls lk ∧
      lost_strs = ((op_lost db o).1 + ls)%nat ∧ lost_keys = ((op_lost db o).2 + lk)%nat
  | _, _ => False
  end.

Definition total_values (os : list op) : nat := sum_list (length ∘ op_values <$> os).

(** ** Sizes *)

Lemma size_insert_le (fs : record) f x : (size (<[f := x]> fs) ≤ S (size fs))%nat.
Proof.
  destruct (fs !! f) as [y|] eqn:Hf.
  - rewrite map_size_insert_Some by eauto. lia.
  - rewrite map_size_insert_None by done. lia.
Qed.

Lemma size_upsert fs values : (size (upsert fs values) ≤ size fs + length values)%nat.
Proof.
  revert fs. induction values as [|v values IH]; intros fs; cbn; [lia|].
  specialize (IH (<[c_str v.1 := c_str v.2]> fs)). unfold upsert in IH.
  pose proof (size_insert_le fs (c_str v.1) (c_str v.2)). lia.
Qed.

Lemma size_fill_fields fs values :
  (size (fill_fields fs values).1 + (fill_fields fs values).2 ≤ size fs + length values)%nat.
Proof.
  revert fs. induction values as [|[f x] values IH]; intros fs; cbn; [lia|].
  destruct (fs !! c_str f).
  - specialize (IH fs). destruct (fill_fields fs values). cbn in *. lia.
  - specialize (IH (<[c_str f := c_str x]> fs)).
    pose proof (size_insert_le fs (c_str f) (c_str x)). lia.
Qed.

Lemma size_insert_fields fs values :
  (size (insert_fields fs values).1 ≤ size fs + length values)%nat.
Proof.
  revert fs. induction values as [|[f x] values IH]; intros fs; cbn; [lia|].
  destruct (fs !! c_str f); cbn; [lia|].
  specialize (IH (<[c_str f := c_str x]> fs)).
  pose proof (size_insert_le fs (c_str f) (c_str x)). lia.
Qed.

Lemma bounded_mono n m db : (n ≤ m)%nat -> bounded n db -> bounded m db.
Proof. intros Hnm Hb k fs Hk. specialize (Hb k fs Hk). cbn in *. lia. Qed.

Lemma bounded_insert n m db k fs' :
  bounded n db -> (size fs' ≤ size (default ∅ (db !! k)) + m)%nat -> bounded (n + m) (<[k := fs']> db).
Proof.
  intros Hb Hs. apply map_Forall_insert_2; [|by eapply bounded_mono; [|exact Hb]; lia].
  destruct (db !! k) as [fs|] eqn:Hk; cbn in Hs.
  - specialize (Hb k fs Hk). cbn in Hb. lia.
  - rewrite map_size_empty in Hs. lia.
Qed.

Lemma op_spec_bounded n db o r db' :
  op_spec db o r db' -> bounded n db -> bounded (n + length (op_values o)) db'.
Proof.
  intros Ho Hb. destruct o as [t k fields|t k len fields|t k values|t k values|t k]; cbn in *.
  - destruct Ho as [-> _]. by eapply bounded_mono; [|exact Hb]; lia.
  - destruct Ho as [-> _]. by eapply bounded_mono; [|exact Hb]; lia.
  - destruct Ho as [_ ->]. apply bounded_insert; [done|].
    destruct (db !! index t k) as [fs|]; cbn; [apply size_upsert|].
    pose proof (size_fill_fields ∅ values). lia.
  - pose proof (size_insert_fields (default ∅ (db !! index t k)) values) as Hs.
    destruct (insert_fields _ _) as [fs z]. destruct Ho as [_ ->]. by apply bounded_insert.
  - destruct Ho as [-> _]. apply map_Forall_delete. by eapply bounded_mono; [|exact Hb]; lia.
Qed.

Lemma bounded_small n db : bounded n db -> Z.of_nat n < 2 ^ 64 -> small db.
Proof. intros Hb Hn k fs Hk. specialize (Hb k fs Hk). cbn in Hb. lia. Qed.

Section theorems.
Context {HT : StringHashtable}.

Lemma perform_all_spec os n db ls lk st :
  store_holds st db ls lk -> bounded n db -> Z.of_nat (n + total_values os) < 2 ^ 64 ->
  wp (interp serve (perform_all os))
     (λ rs st', ∃ db' ls' lk', ops_spec db os rs db' ls' lk' ∧
        store_holds st' db' (ls + ls') (lk + lk') ∧ bounded (n + total_values os) db') st.
Proof.
  revert n db ls lk st. induction os as [|o os IH]; intros n db ls lk st Hst Hb Hn.
  - exists db, 0%nat, 0%nat. rewrite !Nat.add_0_r. split_and!; try done.
  - cbn [perform_all]. apply wp_interp_bind.
    assert (total_values (o :: os) = (length (op_values o) + total_values os)%nat) as Ht by done.
    eapply wp_mono; [apply (perform_spec st db ls lk o Hst)|].
    { eapply bounded_small; [exact Hb|lia]. }
    intros r st1 (db1 & Hspec & Hst1). apply wp_interp_bind.
    eapply wp_mono; [apply (IH (n + length (op_values o))%nat db1 _ _ st1 Hst1)|].
    { by eapply op_spec_bounded. }
    { lia. }
    intros rs st2 (db2 & ls2 & lk2 & Hrs & Hst2 & Hb2). exists db2, ((op_lost db o).1 + ls2)%nat, ((op_lost db o).2 + lk2)%nat.
    split; [by exists db1, ls2, lk2|]. rewrite !Nat.add_assoc.
    split; [done|]. by eapply bounded_mono; [|exact Hb2]; lia.
Qed.

(** C5: Any sequence of reads, scans, updates, inserts and deletes on the
    locked hash-table database does what it does to a map from keys to maps
    from fields to values, with the same results: a read returns the fields
    of the key, an insert stops at the first field that is there, an update
    of a new key keeps the first value of a field that it repeats, and so on.
    No block is used after it is freed.  What is lost is exactly counted:
    per field that an update of a new key repeats, a string and a copy of
    the name; a copy of a name per insert that is refused; the copies of the
    names of the fields of a record that is deleted; and no other string,
    table or copy of a key. *)
Theorem hashtable_db_refines os :
  Z.of_nat (total_values os) < 2 ^ 64 ->
  wp (interp serve (perform_all os))
     (λ rs st, ∃ db ls lk, ops_spec ∅ os rs db ls lk ∧ store_holds st db ls lk) store0.
Proof.
  intros Hn. eapply wp_mono; [apply (perform_all_spec os 0 ∅ 0 0)|].
  - apply store_is_holds, store0_is.
  - apply map_Forall_empty.
  - done.
  - intros rs st (db & ls & lk & Hrs & Hst & _). by exists db, ls, lk.
Qed.

(** ** The destructor *)

(** The fields of all the records. *)
Definition fields_total (db : database) : nat := sum_list (size <$> (map_to_list db).*2).

Lemma fields_total_delete db k fs :
  db !! k = Some fs -> fields_total db = (size fs + fields_total (delete k db))%nat.
Proof. intros Hk. unfold fields_total. by rewrite <-(map_to_list_delete db k fs Hk). Qed.

(** [K] holds the keys whose tables are still to be freed. *)
Lemma delete_tables_rule l st K K0 R es L (Q : unit -> store -> Prop) :
  models st K0 R es L -> linked K R -> l ≡ₚ map_to_list K -> small (contents K R) ->
  (∀ st', models st' K0 ∅ es (fields_total (contents K R) + L) -> Q tt st') ->
  wp (interp serve (delete_tables l)) Q st.
Proof.
  revert st K R L. induction l as [|[k t] l IH]; intros st K R L Hm HL Hl Hsz HQ.
  - apply Permutation_nil_l, symmetry, map_to_list_empty_iff in Hl. subst K. apply HQ.
    assert (R = ∅) as ->; [|done]. apply map_empty. intros t. apply eq_None_not_Some.
    intros [k Hk]%(ln_owner _ _ HL). by rewrite lookup_empty in Hk.
  - assert (K !! k = Some t) as Hk by (apply elem_of_map_to_list; rewrite <-Hl; left).
    destruct (ln_live _ _ HL _ _ Hk) as [fs Hfs].
    assert (contents K R !! k = Some fs) as Hc by (rewrite contents_lookup, Hk; exact Hfs).
    cbn [delete_tables]. apply wp_interp_bind.
    eapply DeleteFieldHashtable_rule; [done..|by apply (Hsz k)|]. intros st1 H1.
    destruct (link_delete K R k t HL Hk) as [HL' HC'].
    apply (IH st1 (delete k K) (delete t R) (size fs + L)%nat); [done|done| | |].
    + apply (Permutation_cons_inv (a := (k, t))). by rewrite Hl, (map_to_list_delete K k t Hk).
    + rewrite HC'. by apply map_Forall_delete.
    + intros st' Hm'. apply HQ. rewrite HC' in Hm'. rewrite (fields_total_delete _ _ _ Hc).
      by replace (size fs + fields_total (delete k (contents K R)) + L)%nat
        with (fields_total (delete k (contents K R)) + (size fs + L))%nat by lia.
Qed.

(** A store with no record holds the strings that are lost. *)
Lemma models_empty st K es L :
  models st K ∅ es L ->
  tables st = ∅ ∧ size (strs st) = length es ∧ key_copies st = (size K + L)%nat.
Proof.
  intros [_ HR _ Ho _ Hc]. assert (tables st = ∅) as Ht by by apply fmap_empty_inv in HR.
  split; [done|]. rewrite Ht in Ho, Hc. unfold owned in Ho, Hc. rewrite map_to_list_empty in Ho, Hc.
  cbn in Ho, Hc. split; [|lia]. apply Permutation_length in Ho.
  rewrite app_nil_r, !length_fmap, length_map_to_list in Ho. done.
Qed.

Lemma contents_size K R : linked K R -> size (contents K R) = size K.
Proof.
  intros HL. rewrite <-!size_dom. f_equal. apply set_eq. intros k. rewrite !elem_of_dom.
  pose proof (contents_at K R k HL) as Hat.
  destruct (K !! k); [destruct Hat as (fs & _ & ->)|rewrite Hat]; split; intros [? ?]; eauto; done.
Qed.

Lemma destroy_spec st db ls lk :
  store_holds st db ls lk -> small db -> Z.of_nat (size db) < 2 ^ 64 ->
  wp (interp serve destroy) (λ _ st', key_table_ st' = None ∧ tables st' = ∅ ∧ size (strs st') = ls ∧
     key_copies st' = (size db + fields_total db + lk)%nat) st.
Proof.
  intros (K & R & es & Hm & <- & HL & <-) Hsz Hdb. unfold destroy. apply wp_interp_bind, wp_interp_call.
  rewrite (contents_size K R HL) in *. destruct (m_keys _ _ _ _ _ Hm) as (kt & Hkt & Hok & HK).
  assert (ht_pairs kt ≡ₚ map_to_list K) as Hl.
  { rewrite <-HK. unfold tmap, map_of. by rewrite map_to_list_to_map by apply (ht_nodup _ Hok). }
  pose proof (Permutation_length Hl) as Hlen. rewrite length_map_to_list in Hlen.
  unfold wp at 1. cbn [serve]. unfold mbind, M_bind, get_keys. rewrite Hkt.
  rewrite Entries_all_law by lia. apply wp_interp_bind.
  eapply delete_tables_rule; [done..|]. intros st' Hm'. apply wp_interp_call.
  destruct (models_empty _ _ _ _ Hm') as (Ht & Hs & Hc). destruct (m_keys _ _ _ _ _ Hm') as (kt' & Hkt' & _).
  unfold wp. cbn [serve]. unfold mbind, M_bind, get_keys, set_keys. rewrite Hkt'. cbn.
  split_and!; [done..|]. rewrite Hc. lia.
Qed.

Lemma op_spec_size db o r db' : op_spec db o r db' -> (size db' ≤ S (size db))%nat.
Proof.
  assert (∀ k fs, size (<[k := fs]> db) ≤ S (size db))%nat as Hins.
  { intros k fs. destruct (db !! k) as [y|] eqn:Hk.
    - rewrite map_size_insert_Some by eauto. lia.
    - rewrite map_size_insert_None by done. lia. }
  destruct o; cbn; [intros [-> _]; lia|intros [-> _]; lia|intros [_ ->]; apply Hins| |].
  - destruct (insert_fields _ _). intros [_ ->]. apply Hins.
  - intros [-> _]. rewrite <-!size_dom, dom_delete_L.
    transitivity (size (dom db)); [apply subseteq_size; set_solver|lia].
Qed.

Lemma ops_spec_size db os rs db' ls lk :
  ops_spec db os rs db' ls lk -> (size db' ≤ size db + length os)%nat.
Proof.
  revert db rs ls lk. induction os as [|o os IH]; intros db [|r rs] ls lk; cbn; try done.
  - intros [-> _]. lia.
  - intros (db1 & ls1 & lk1 & H1%op_spec_size & H2%IH & _). lia.
Qed.

(** C27: After any sequence of operations, the destructor of the database
    frees the table of keys and every table of fields and every string that
    the database holds, each once.  The strings that are left are those that
    updates of a new key with a repeated field have lost, and no copy of a
    key is freed: one is left for each key and for each field of the
    database, with those that were lost before. *)
Theorem hashtable_db_destroyed os :
  Z.of_nat (total_values os) < 2 ^ 64 -> Z.of_nat (length os) < 2 ^ 64 ->
  wp (interp serve (rs ← perform_all os; destroy ;; mret rs))
     (λ rs st, ∃ db ls lk, ops_spec ∅ os rs db ls lk ∧
        key_table_ st = None ∧ tables st = ∅ ∧ size (strs st) = ls ∧
        key_copies st = (size db + fields_total db + lk)%nat) store0.
Proof.
  intros Hn Hlen. apply wp_interp_bind. eapply wp_mono.
  { apply (perform_all_spec os 0 ∅ 0 0); [apply store_is_holds, store0_is|apply map_Forall_empty|done]. }
  intros rs st (db & ls & lk & Hrs & Hst & Hb). pose proof (ops_spec_size _ _ _ _ _ _ Hrs) as Hsize.
  rewrite map_size_empty in Hsize. apply wp_interp_bind. eapply wp_mono.
  { apply (destroy_spec st db ls lk Hst); [by eapply bounded_small|lia]. }
  intros [] st' Hd. by exists db, ls, lk.
Qed.
End theorems.

(** ** Instances: a container that keeps the latest entry first *)
Definition stack_order : Order := {|
  reorder := λ V l, l;
  reorder_perm := λ V l, Permutation_refl l
|}.
Abbreviation stacks := (stl_hashtable stack_order).

Definition toy_ops : list op :=
  [ OInsert "usertable" "user1" [("field0", "a"); ("field1", "b")];
    OUpdate "usertable" "user1" [("field1", "c"); ("field2", "d")];
    OInsert "usertable" "user1" [("field3", "e"); ("field0", "f")];
    ORead "usertable" "user1" (Some ["field1"; "field3"; "field9"]);
    OUpdate "usertable" "user2" [("field0", "g"); ("field0", "h")];
    OScan "usertable" "user1" 5 None;
    ODelete "usertable" "user1";
    ORead "usertable" "user1" None ]%string.

Lemma hashtable_db_refines_witness :
  wp (interp (@serve stacks) (perform_all toy_ops))
     (λ rs st, ∃ db ls lk, ops_spec ∅ toy_ops rs db ls lk ∧ store_holds st db ls lk) store0.
Proof.
  apply (@hashtable_db_refines stacks toy_ops). apply Z.ltb_lt. vm_compute. reflexivity.
Defined.

Lemma hashtable_db_destroyed_witness :
  wp (interp (@serve stacks) (rs ← perform_all toy_ops; destroy ;; mret rs))
     (λ rs st, ∃ db ls lk, ops_spec ∅ toy_ops rs db ls lk ∧
        key_table_ st = None ∧ tables st = ∅ ∧ size (strs st) = ls ∧
        key_copies st = (size db + fields_total db + lk)%nat) store0.
Proof.
  apply (@hashtable_db_destroyed stacks toy_ops); apply Z.ltb_lt; vm_compute; reflexivity.
Defined.

(** One string is left, and eight copies of keys. *)
Example toy_ops_lost :
  match interp (@serve stacks) (perform_all toy_ops ≫= λ _, destroy) store0 with
  | Ok (_, st) => (size (strs st), key_copies st) = (1, 8)%nat
  | Stuck => False
  end.
Proof. vm_compute. reflexivity. Qed.
