(* ===== verification/HashtableRaces.v ===== *)
(** * HashtableRaces: operations of the database are not atomic

    Each call of a locked table is one step, but an operation makes several.
    For every database of HashtableOps.v there are schedules of two threads
    that lose a record, or that use a block after it is freed. *)

From Stdlib Require Import ZArith Lia Ascii.
From stdpp Require Import base list strings gmap.
From S2P Require Import Prelude Calls Parallel Table StringHashtable HashtableDb HashtableSpec HashtableOps HashtableTheorems.

(** The names of the fields of a write, as the tables have them. *)
Definition names (values : list KVPair) : list string := (λ v, c_str v.1) <$> values.

Section races.
Context {HT : StringHashtable}.

(** The store of the database [db], and a table with the fields [fs] and a
    copy of a key beside it that no key leads to. *)
Definition orphaned (st : store) (db : database) (fs : record) : Prop :=
  ∃ K R t, R !! t = None ∧ models st K (<[t := fs]> R) [] 1 ∧ linked K R ∧ contents K R = db.

(** Reading the whole record of a key, beside an orphan. *)
Lemma orphaned_read st db fs table key fs' :
  orphaned st db fs -> db !! index table key = Some fs' -> Z.of_nat (size fs') < 2 ^ 64 ->
  wp (interp serve (perform (ORead table key None)))
     (λ r st', st' = st ∧ ∃ l, r = (kOK, [l]) ∧ l ≡ₚ map_to_list fs') st.
Proof.
  intros (K & R & t & Ht & Hm & HL & <-) Hdb Hsz. rewrite contents_lookup in Hdb.
  destruct (K !! index table key) as [t'|] eqn:Hk; [|done]. cbn in Hdb.
  cbn [perform]. unfold Read. cbv zeta. fold (index table key).
  apply wp_interp_bind, wp_interp_bind, wp_interp_call. eapply key_Get_rule; [done|]. rewrite Hk.
  apply wp_interp_bind. eapply read_record_rule; [done| |done|].
  - rewrite lookup_insert_ne; [done|]. intros ->. congruence.
  - intros r Hr. split; [done|]. by exists r.
Qed.

(** The rest of an insert that has not found the key, when the key is there
    by now: its table is an orphan. *)
Lemma late_insert_rule st K R L k t0 values :
  models st K R [] L -> K !! k = Some t0 -> NoDup (names values) ->
  wp (interp serve (t ← (t ← call NewFieldHashtable; call (key_Insert k t) ;; mret t); insert_loop t values))
     (λ z st', z = kOK ∧ ∃ t, R !! t = None ∧ models st' K (<[t := upsert ∅ values]> R) [] (S L)) st.
Proof.
  intros Hm Hk Hnd. apply wp_interp_bind, wp_interp_bind, wp_interp_call.
  eapply New_rule; [done|]. intros t st1 Ht H1. apply wp_interp_bind, wp_interp_call.
  eapply key_Insert_full; [exact H1|by eexists|]. intros st2 H2.
  pose proof (insert_new_fields ∅ values Hnd (λ v _, lookup_empty _)) as Hins.
  eapply insert_loop_rule; [exact H2|apply lookup_insert_eq|]. rewrite Hins. cbn [fst snd].
  intros st3 H3. rewrite insert_insert_eq in H3. split; [done|]. by exists t.
Qed.

(** An insert of a new key without a race. *)
Lemma insert_alone st db table key values :
  store_is st db -> db !! index table key = None -> NoDup (names values) ->
  wp (interp serve (Insert table key values))
     (λ z st', z = kOK ∧ store_is st' (<[index table key := upsert ∅ values]> db)) st.
Proof.
  intros Hst Hk Hnd. eapply wp_mono.
  { apply (wp_interp_result serve _ (λ z, (z, [] : list (list KVPair)))), (Insert_spec st db 0 0). by apply store_is_holds. }
  intros z st' (db' & Hspec & H'). cbn [op_spec op_lost] in Hspec, H'. rewrite Hk in Hspec, H'.
  cbn [default from_option] in Hspec, H'.
  rewrite (insert_new_fields ∅ values Hnd (λ v _, lookup_empty _)) in Hspec, H'. destruct Hspec as [[= ->] ->].
  split; [done|]. by apply store_is_holds.
Qed.

(** Two inserts of a new key: the first has looked for it before the second
    runs. *)
Lemma insert_race st db table key va vb :
  store_is st db -> db !! index table key = None -> NoDup (names va) -> NoDup (names vb) ->
  ∃ l st', schedule serve l [Insert table key va; Insert table key vb] st = Ok ([Ret kOK; Ret kOK], st') ∧
    orphaned st' (<[index table key := upsert ∅ vb]> db) (upsert ∅ va).
Proof.
  intros Hst Hk Ha Hb. pose proof Hst as (K & R & Hm & HL & HC).
  assert (K !! index table key = None) as HK by (apply (contents_None K R); [done|by rewrite HC]).
  assert (serve _ (key_Get (index table key)) st = Ok (None, st)) as Hget.
  { pose proof (key_Get_rule st K R [] 0 (index table key) (λ o st', o = None ∧ st' = st) Hm (conj HK eq_refl)) as H.
    unfold wp in H. destruct (serve _ _ st) as [[o st']|]; [|done]. by destruct H as [-> ->]. }
  pose proof (insert_alone st db table key vb Hst Hk Hb) as HB.
  unfold wp in HB. destruct (interp serve (Insert table key vb) st) as [[z st1]|] eqn:Hrun; [|done].
  destruct HB as [-> H1].
  destruct H1 as (K1 & R1 & Hm1 & HL1 & HC1).
  assert (is_Some (K1 !! index table key)) as [t1 Ht1].
  { destruct (K1 !! index table key) as [t1|] eqn:E; [by eexists|]. exfalso.
    apply (contents_None K1 R1 _ HL1) in E. by rewrite HC1, lookup_insert_eq in E. }
  pose proof (late_insert_rule st1 K1 R1 0 (index table key) t1 va Hm1 Ht1 Ha) as HA.
  set (late := t ← (t ← call NewFieldHashtable; call (key_Insert (index table key) t) ;; mret t);
               insert_loop t va) in HA.
  destruct (schedule_alone serve 1 (Insert table key vb) [late; Insert table key vb] st kOK st1) as [n Hn]; [done..|].
  destruct (schedule_alone_wp serve 0 late [late; Ret kOK] st1 _ ltac:(done) HA)
    as (m & a & st2 & Hsched & -> & t & Ht & Hm2).
  exists (0%nat :: replicate n 1%nat ++ replicate m 0%nat ++ []), st2. split; [|by exists K1, R1, t].
  etransitivity; [by eapply (schedule_step serve 0 (key_Get (index table key)) _ _ [_; _])|].
  etransitivity; [apply (Hn (replicate m 0%nat ++ []))|]. apply Hsched.
Qed.
(** A turn of a thread that calls [key_Get]. *)
Lemma key_Get_run st K R es L k :
  models st K R es L -> serve _ (key_Get k) st = Ok (K !! k, st).
Proof.
  intros Hm. pose proof (key_Get_rule st K R es L k (λ o st', o = K !! k ∧ st' = st) Hm (conj eq_refl eq_refl)) as H.
  unfold wp in H. destruct (serve _ _ st) as [[o st']|]; [|done]. by destruct H as [-> ->].
Qed.

(** A table that is not there any more. *)
Lemma get_table_freed st K R es L t {A} (f : ht loc -> M store A) :
  models st K R es L -> R !! t = None -> (get_table t ≫= f) st = Stuck.
Proof.
  intros Hm Ht. rewrite <-(m_records _ _ _ _ _ Hm) in Ht. unfold records_of in Ht.
  rewrite lookup_fmap in Ht. unfold mbind, M_bind, get_table. by destruct (tables st !! t).
Qed.

(** A record that another thread deletes after it was found. *)
Lemma read_delete_race st db table key fs fields :
  store_is st db -> small db -> db !! index table key = Some fs -> fields ≠ Some [] ->
  ∃ l, schedule serve l [perform (ODelete table key); perform (ORead table key fields)] st = Stuck.
Proof.
  intros (K & R & Hm & HL & HC) Hsz Hdb Hf.
  pose proof (contents_at K R (index table key) HL) as Hat. rewrite HC in Hat.
  destruct (K !! index table key) as [t|] eqn:Hk; [|congruence]. destruct Hat as (fs' & Hfs & Hdb').
  replace fs' with fs in * by congruence. clear fs' Hdb'.
  pose proof (key_Get_run _ _ _ _ _ (index table key) Hm) as Hget. rewrite Hk in Hget.
  set (reader := ('(z, r) ← (l ← read_record t fields; mret (kOK, l)); mret (z, if z =? kOK then [r] else [])) :
    prog db_call result).
  assert (wp (interp serve (perform (ODelete table key))) (λ _ st', models st' (delete (index table key) K) (delete t R) [] (size fs)) st) as HD.
  { cbn [perform]. unfold Delete. cbv zeta. fold (index table key). apply wp_interp_bind, wp_interp_bind, wp_interp_call.
    eapply key_Remove_rule; [done..|]. intros st1 H1. apply wp_interp_bind.
    eapply DeleteFieldHashtable_rule; [exact H1|done|by apply (Hsz _ _ Hdb)|]. intros st2 H2. by rewrite Nat.add_0_r in H2. }
  destruct (schedule_alone_wp serve 0 _ [perform (ODelete table key); reader] st _ ltac:(done) HD)
    as (n & r & st1 & Hn & H1).
  exists (1%nat :: replicate n 0%nat ++ [1%nat]).
  etransitivity; [by eapply (schedule_step serve 1 (key_Get (index table key)) _ _ [_; _])|].
  assert (∀ X (e : db_call X) k, reader = Call e k -> serve X e st1 = Stuck ->
    schedule serve (replicate n 0%nat ++ [1%nat]) [perform (ODelete table key); reader] st = Stuck) as Hstuck.
  { intros X e k Hr He. rewrite Hn. eapply (schedule_stuck serve 1); [cbn; by rewrite Hr|done]. }
  destruct fields as [[|f fields]|]; [done|..].
  - eapply (Hstuck _ (field_Get t (c_str f))); [reflexivity|]. cbn [serve].
    eapply get_table_freed; [exact H1|]. apply lookup_delete_eq.
  - eapply (Hstuck _ (field_Entries t)); [reflexivity|]. cbn [serve].
    eapply get_table_freed; [exact H1|]. apply lookup_delete_eq.
Qed.
(** An update of one field frees the string that was its value. *)
Lemma update_frees st K R L t ft table key f x v :
  models st K R [] L -> K !! index table key = Some t -> tables st !! t = Some ft ->
  tmap ft !! c_str f = Some v ->
  wp (interp serve (perform (OUpdate table key [(f, x)]))) (λ _ st', strs st' !! v = None) st.
Proof.
  intros Hm Hk Ht Hv. cbn [perform]. unfold Update. cbv zeta. fold (index table key).
  apply wp_interp_bind, wp_interp_bind, wp_interp_call. unfold wp at 1.
  rewrite (key_Get_run _ _ _ _ _ _ Hm), Hk. apply wp_interp_bind, wp_interp_bind, wp_interp_call.
  unfold wp at 1. cbn [serve]. set (w := fresh (dom (strs st))).
  assert (strs st !! w = None) as Hw by (apply not_elem_of_dom, is_fresh).
  destruct (models_live _ _ _ _ _ v Hm) as [s Hs]; [by eapply tmap_owned|].
  assert (w ≠ v) as Hwv by congruence.
  apply wp_interp_bind, wp_interp_call. unfold wp at 1. cbn [serve].
  unfold mbind, M_bind, get_table, set_table, mret, M_ret. cbn [tables]. rewrite Ht.
  destruct (Update_old_law ft (c_str f) w v (m_tables_ok _ _ _ _ _ Hm t ft Ht) Hv) as (ft' & ? & -> & _).
  apply wp_interp_bind, wp_interp_call. unfold wp at 1. cbn [serve strs tables key_table_ key_copies].
  rewrite lookup_insert_ne, Hs by done. cbn. apply lookup_delete_eq.
Qed.

(** The value of a field that another thread updates after it was found. *)
Lemma read_update_race st db table key fs f x :
  store_is st db -> db !! index table key = Some fs -> is_Some (fs !! c_str f) ->
  ∃ l, schedule serve l [perform (OUpdate table key [(f, x)]); perform (ORead table key (Some [f]))] st = Stuck.
Proof.
  intros (K & R & Hm & HL & HC) Hdb Hf.
  pose proof (contents_at K R (index table key) HL) as Hat. rewrite HC in Hat.
  destruct (K !! index table key) as [t|] eqn:Hk; [|congruence]. destruct Hat as (fs' & Hfs & Hdb').
  replace fs' with fs in * by congruence. clear fs' Hdb'.
  pose proof (key_Get_run _ _ _ _ _ (index table key) Hm) as Hget. rewrite Hk in Hget.
  destruct (models_table _ _ _ _ _ _ _ Hm Hfs) as (ft & Ht & Hok & -> & Hall). specialize (Hall (c_str f)).
  destruct (tmap ft !! c_str f) as [v|] eqn:Hv; [|rewrite Hall in Hf; by destruct Hf].
  assert (serve _ (field_Get t (c_str f)) st = Ok (Some v, st)) as Hfget.
  { cbn [serve]. unfold mbind, M_bind, get_table, mret, M_ret. rewrite Ht, Get_law by done. f_equal. f_equal. exact Hv. }
  set (reader := ('(z, r) ← (l ← (s ← call (read_string v); mret [(f, s)]); mret (kOK, l));
                  mret (z, if z =? kOK then [r] else [])) : prog db_call result).
  destruct (schedule_alone_wp serve 0 _ [perform (OUpdate table key [(f, x)]); reader] st _ ltac:(done)
    (update_frees st K R 0 t ft table key f x v Hm Hk Ht Hv)) as (n & r & st1 & Hn & H1).
  exists (1%nat :: 1%nat :: replicate n 0%nat ++ [1%nat]).
  etransitivity; [by eapply (schedule_step serve 1 (key_Get (index table key)) _ _ [_; _])|].
  etransitivity; [by eapply (schedule_step serve 1 (field_Get t (c_str f)) _ _ [_; _])|].
  etransitivity; [apply Hn|]. eapply (schedule_stuck serve 1 (read_string v)); [reflexivity|].
  cbn. by rewrite H1.
Qed.

(** C32: The operations of the database are not atomic, whatever the tables
    and the database.  Of two threads that insert the same new key, each with
    distinct fields, a schedule makes both return [kOK] and keeps the record
    of one only: a read of the key returns its fields, and the table, the
    strings and a copy of the key of the other are in no key's reach.  And
    for any record there is a schedule of a read and a deletion, and for any
    field one of a read and an update of it, in which the read uses a block
    that the other thread has freed. *)
Theorem hashtable_db_races st db table key :
  store_is st db -> small db ->
  (∀ va vb, db !! index table key = None -> NoDup (names va) -> NoDup (names vb) ->
     Z.of_nat (length vb) < 2 ^ 64 ->
     ∃ l st', schedule serve l [Insert table key va; Insert table key vb] st = Ok ([Ret kOK; Ret kOK], st') ∧
       orphaned st' (<[index table key := upsert ∅ vb]> db) (upsert ∅ va) ∧
       wp (interp serve (perform (ORead table key None)))
          (λ r _, ∃ l, r = (kOK, [l]) ∧ l ≡ₚ map_to_list (upsert ∅ vb)) st') ∧
  (∀ fs fields, db !! index table key = Some fs -> fields ≠ Some [] ->
     ∃ l, schedule serve l [perform (ODelete table key); perform (ORead table key fields)] st = Stuck) ∧
  (∀ fs f x, db !! index table key = Some fs -> is_Some (fs !! c_str f) ->
     ∃ l, schedule serve l [perform (OUpdate table key [(f, x)]); perform (ORead table key (Some [f]))] st = Stuck).
Proof.
  intros Hst Hsz. split; [|split].
  - intros va vb Hk Ha Hb Hlen. destruct (insert_race st db table key va vb Hst Hk Ha Hb) as (l & st' & Hl & Ho).
    exists l, st'. split; [done|]. split; [done|]. eapply wp_mono.
    { eapply orphaned_read; [exact Ho|apply lookup_insert_eq|].
      pose proof (size_upsert ∅ vb) as Hs. rewrite map_size_empty in Hs. lia. }
    by intros r ? [_ Hr].
  - intros fs fields. by apply read_delete_race.
  - intros fs f x. by apply read_update_race.
Qed.
End races.

(** ** An instance: a store with one record *)
Definition one_field_record : record := {["field0" := "a"]}%string.
Definition one_record : database := {[index "usertable" "user1" := one_field_record]}.

Lemma one_record_store : ∃ st, store_is (HT := stacks) st one_record.
Proof.
  pose proof (insert_alone (HT := stacks) store0 ∅ "usertable" "user1" [("field0", "a")%string]
    store0_is eq_refl ltac:(apply NoDup_singleton)) as H.
  unfold wp in H. destruct (interp _ _ _) as [[z st]|]; [|done]. exists st. apply H.
Qed.

(** Two threads on the stored record, and two that insert another. *)
Lemma hashtable_db_races_witness :
  ∃ st, store_is (HT := stacks) st one_record ∧
  (∃ l st', schedule serve l [Insert "usertable" "user2" [("field0", "x")]; Insert "usertable" "user2" [("field1", "y")]]%string st =
     Ok ([Ret kOK; Ret kOK], st')) ∧
  (∃ l, schedule serve l [perform (ODelete "usertable" "user1"); perform (ORead "usertable" "user1" None)] st = Stuck) ∧
  (∃ l, schedule serve l [perform (OUpdate "usertable" "user1" [("field0", "z")%string]);
     perform (ORead "usertable" "user1" (Some ["field0"%string]))] st = Stuck).
Proof.
  destruct one_record_store as [st Hst]. exists st. split; [exact Hst|].
  assert (small one_record) as Hsz by (apply map_Forall_singleton; cbn; vm_compute; reflexivity).
  destruct (hashtable_db_races st one_record "usertable" "user2" Hst Hsz) as [H _].
  destruct (hashtable_db_races st one_record "usertable" "user1" Hst Hsz) as (_ & Hd & Hu).
  split; [|split].
  - destruct (H [("field0", "x")]%string [("field1", "y")]%string eq_refl) as (l & st' & Hl & _);
      [apply NoDup_singleton|apply NoDup_singleton|done|]. by exists l, st'.
  - apply (Hd one_field_record None); [reflexivity|done].
  - apply (Hu one_field_record "field0"%string "z"%string); [reflexivity|by eexists].
Defined.
