(* ===== verification/Databases.v ===== *)
(** * Databases: the other databases of YCSB-C (db/basic_db.h, db/tbb_rand_db.h, db/tbb_scan_db.h)

    The two TBB databases are HashtableDb.v over the tables of TbbTables.v.
    BasicDB appends one line to the output for every operation, under its
    lock, and succeeds; its state is the text on the output. *)

From Stdlib Require Import ZArith Lia Ascii.
From stdpp Require Import base list strings.
From S2P Require Import Prelude Printf Calls StringHashtable TbbTables HashtableDb HashtableOps.
#[local] Open Scope string_scope.

(** ** TbbRandDB and TbbScanDB

    Their tables of keys and of fields are of one kind; their strings, and the
    ways they free tables, are those of LockStlDB. *)
Definition tbb_rand_db (C : TbbContainer) X (e : db_call X) : M (@store (tbb_rand_hashtable C)) X :=
  @serve (tbb_rand_hashtable C) X e.

Definition tbb_scan_db (C : TbbContainer) X (e : db_call X) : M (@store (tbb_scan_hashtable C)) X :=
  @serve (tbb_scan_hashtable C) X e.

(** ** BasicDB *)
Definition endl : string := String.String "010" EmptyString.

(** An [int] on a stream. *)
Definition show_int (z : Z) : string := String.string_of_list_ascii (itoa z).

Definition print (s : string) : M string unit := λ out, Ok (tt, out ++ s).

Fixpoint print_fields (fields : list string) : M string unit :=
  match fields with
  | [] => mret tt
  | f :: fields' => print f ;; print " " ;; print_fields fields'
  end.

Fixpoint print_values (values : list KVPair) : M string unit :=
  match values with
  | [] => mret tt
  | v :: values' => print v.1 ;; print "=" ;; print v.2 ;; print " " ;; print_values values'
  end.

(** The fields that are asked for, to the end of the line. *)
Definition print_asked (fields : option (list string)) : M string unit :=
  match fields with
  | Some fields => print " [ " ;; print_fields fields ;; print "]" ;; print endl
  | None => print " < all fields >" ;; print endl
  end.

Definition basic_Init : M string unit := print "A new thread begins working." ;; print endl.

Definition basic_Read (table key : string) (fields : option (list string)) : M string Z :=
  print "READ " ;; print table ;; print " " ;; print key ;;
  print_asked fields ;;
  mret 0.

Definition basic_Scan (table key : string) (len : Z) (fields : option (list string)) : M string Z :=
  print "SCAN " ;; print table ;; print " " ;; print key ;; print " " ;; print (show_int len) ;;
  print_asked fields ;;
  mret 0.

Definition basic_Update (table key : string) (values : list KVPair) : M string Z :=
  print "UPDATE " ;; print table ;; print " " ;; print key ;; print " [ " ;;
  print_values values ;;
  print "]" ;; print endl ;;
  mret 0.

Definition basic_Insert (table key : string) (values : list KVPair) : M string Z :=
  print "INSERT " ;; print table ;; print " " ;; print key ;; print " [ " ;;
  print_values values ;;
  print "]" ;; print endl ;;
  mret 0.

Definition basic_Delete (table key : string) : M string Z :=
  print "DELETE " ;; print table ;; print " " ;; print key ;; print endl ;;
  mret 0.

(** No operation writes to its result. *)
Definition basic_perform (o : op) : M string result :=
  z ← match o with
      | ORead table key fields => basic_Read table key fields
      | OScan table key len fields => basic_Scan table key len fields
      | OUpdate table key values => basic_Update table key values
      | OInsert table key values => basic_Insert table key values
      | ODelete table key => basic_Delete table key
      end;
  mret (z, []).

(** ** What is printed *)
Lemma append_assoc (a b c : string) : (a ++ b) ++ c = a ++ (b ++ c).
Proof. induction a as [|x a IH]; [done|]. exact (f_equal (String.String x) IH). Qed.

Lemma append_nil (a : string) : a ++ "" = a.
Proof. induction a as [|x a IH]; [done|]. exact (f_equal (String.String x) IH). Qed.

(** [m] appends a text and returns [a]. *)
Definition prints {A} (m : M string A) (a : A) : Prop := ∃ s, ∀ out, m out = Ok (a, out ++ s).

Lemma prints_print s : prints (print s) tt.
Proof. by exists s. Qed.

Lemma prints_ret {A} (a : A) : prints (mret a) a.
Proof. exists "". intros out. unfold mret, M_ret. by rewrite append_nil. Qed.

Lemma prints_bind {A B} (m : M string A) (f : A -> M string B) a b :
  prints m a -> prints (f a) b -> prints (m ≫= f) b.
Proof.
  intros [s Hs] [s' Hs']. exists (s ++ s'). intros out. unfold mbind, M_bind.
  by rewrite Hs, Hs', append_assoc.
Qed.

Lemma prints_fields fields : prints (print_fields fields) tt.
Proof. induction fields; cbn; eauto using prints_bind, prints_print, prints_ret. Qed.

Lemma prints_values values : prints (print_values values) tt.
Proof. induction values; cbn; eauto 10 using prints_bind, prints_print, prints_ret. Qed.

#[local] Hint Resolve prints_print prints_ret prints_fields prints_values : core.

Lemma prints_asked fields : prints (print_asked fields) tt.
Proof. destruct fields; cbn; eauto 10 using prints_bind. Qed.
#[local] Hint Resolve prints_asked : core.

(** Every operation succeeds, whatever was printed before. *)
Lemma basic_perform_ok o : prints (basic_perform o) (kOK, []).
Proof. destruct o; eauto 20 using prints_bind. Qed.

(** One operation on a TBB database is one on a map of maps. *)
Lemma tbb_dbs_perform (C C' : TbbContainer) db ls lk o st st' :
  store_holds st db ls lk -> store_holds st' db ls lk -> small db ->
  wp (interp (tbb_rand_db C) (perform o)) (performs db ls lk o) st ∧
  wp (interp (tbb_scan_db C') (perform o)) (performs db ls lk o) st'.
Proof. intros H H' Hs. split; by apply perform_spec. Qed.
