(* ===== verification/YcsbUtils.v ===== *)
(** * YcsbUtils: hashing, text and properties of YCSB-C (core/utils.h, core/properties.h)

    The FNV hash, booleans and trimmed text, and the property files: lines
    [key = value] read into a map.  A thrown exception is a value. *)

From Stdlib Require Import ZArith Lia Ascii.
From stdpp Require Import base list strings gmap.
From S2P Require Import Prelude.

(** ** Results of C++ code: a value, or an exception with its message *)
Inductive exc (A : Type) : Type :=
  | Val (a : A)
  | Throw (message : string).
Arguments Val {A} a.
Arguments Throw {A} message.

Global Instance exc_ret : MRet exc := λ A a, Val a.
Global Instance exc_bind : MBind exc := λ A B f m,
  match m with Val a => f a | Throw s => Throw s end.

(** ** Hashing *)
Definition kFNVOffsetBasis64 : Z := 0xCBF29CE484222325.
Definition kFNVPrime64 : Z := 1099511628211.

Fixpoint fnv_loop (n : nat) (hash val : Z) : Z :=
  match n with
  | O => hash
  | S n' =>
      let octet := Z.land val 0xff in
      fnv_loop n' (u64 (Z.lxor hash octet * kFNVPrime64)) (Z.shiftr val 8)
  end.
Definition FNVHash64 (val : Z) : Z := fnv_loop 8 kFNVOffsetBasis64 val.
Definition Hash (val : Z) : Z := FNVHash64 val.

(** [rand() % 94 + 33], for the result [r] of [rand]. *)
Definition RandomPrintChar (r : Z) : ascii := ascii_of_N (Z.to_N (Z.rem r 94 + 33)).

(** ** Text: a [std::string] is a list of characters *)
Definition isspace (a : ascii) : bool :=
  let n := N_of_ascii a in (N.leb 9 n && N.leb n 13) || N.eqb n 32.
Definition tolower (a : ascii) : ascii :=
  let n := N_of_ascii a in if N.leb 65 n && N.leb n 90 then ascii_of_N (n + 32) else a.

Abbreviation text := (list ascii).
Definition lit (s : string) : text := String.list_ascii_of_string s.

Definition StrToBool (str : text) : exc bool :=
  let str := map tolower str in
  if bool_decide (str = lit "true") || bool_decide (str = lit "1") then Val true
  else if bool_decide (str = lit "false") || bool_decide (str = lit "0") then Val false
  else Throw "Invalid bool string".

(** [std::find_if_not] over [isspace]. *)
Fixpoint skip_space (s : text) : text :=
  match s with
  | a :: s' => if isspace a then skip_space s' else s
  | [] => []
  end.

Definition Trim (str : text) : text :=
  let front := skip_space str in rev (skip_space (rev front)).

(** ** Properties *)
Definition Properties : Type := gmap text text.

Definition GetProperty (p : Properties) (key default_value : text) : text :=
  match p !! key with None => default_value | Some v => v end.

(** [operator[]], [std::map::at]. *)
Definition property_at (p : Properties) (key : text) : exc text :=
  match p !! key with None => Throw "map::at" | Some v => Val v end.

Definition SetProperty (p : Properties) (key value : text) : Properties := <[key := value]> p.

(** [std::getline] until the end of the file: the pieces between line ends. *)
Fixpoint split_at (sep : ascii) (s : text) : text * option text :=
  match s with
  | [] => ([], None)
  | a :: s' =>
      if Ascii.eqb a sep then ([], Some s')
      else let '(l, r) := split_at sep s' in (a :: l, r)
  end.

Definition newline : ascii := "010".

Definition load_line (p : Properties) (line : text) : Properties :=
  match line with
  | "#"%char :: _ => p
  | _ =>
      match split_at "=" line with
      | (_, None) => p
      | (key, Some value) => SetProperty p (Trim key) (Trim value)
      end
  end.

(** [fuel] bounds the lines: there are no more than characters, and one. *)
Fixpoint load_loop (fuel : nat) (p : Properties) (input : text) : Properties :=
  match fuel with
  | O => p
  | S fuel' =>
      let '(line, rest) := split_at newline input in
      let p := load_line p line in
      match rest with None => p | Some input' => load_loop fuel' p input' end
  end.

(** [None] is a file that is not open. *)
Definition Load (p : Properties) (input : option text) : exc Properties :=
  match input with
  | None => Throw "File not open!"
  | Some input => Val (load_loop (S (length input)) p input)
  end.
