(* ===== verification/Fnv.v ===== *)
(** * Fnv: key numbers below [2 ^ 32] have hashes of their own (core/utils.h)

    FNV-1 over the eight octets of a number.  A round adds at most 255 to the
    hash, in absolute value, and multiplies it by a prime; the differences that
    four octets make never cancel out, and the rounds after them lose
    nothing. *)

From Stdlib Require Import ZArith Lia.
From stdpp Require Import base list.
From S2P Require Import Prelude YcsbUtils.

(** What an octet adds to the hash before the product. *)
Definition flipped (h v : Z) : Z := Z.lxor h (Z.land v 0xff) - h.

Lemma octet_div v : Z.land v 0xff = v mod 256.
Proof. change 0xff with (Z.ones 8). by rewrite Z.land_ones by lia. Qed.

Lemma flipped_small h v : 0 ≤ h -> - 255 ≤ flipped h v ≤ 255.
Proof.
  intros Hh. unfold flipped. assert (Z.shiftr (Z.lxor h (Z.land v 0xff)) 8 = Z.shiftr h 8) as E.
  { rewrite Z.shiftr_lxor, octet_div, (Z.shiftr_div_pow2 (v mod 256)) by lia.
    rewrite (Z.div_small (v mod 256)) by (apply Z.mod_pos_bound; lia). by rewrite Z.lxor_0_r. }
  rewrite !Z.shiftr_div_pow2 in E by lia. change (2 ^ 8) with 256 in E.
  pose proof (Z.div_mod h 256 ltac:(lia)). pose proof (Z.div_mod (Z.lxor h (Z.land v 0xff)) 256 ltac:(lia)).
  pose proof (Z.mod_pos_bound h 256). pose proof (Z.mod_pos_bound (Z.lxor h (Z.land v 0xff)) 256). lia.
Qed.

Lemma flipped_octet h v v' : flipped h v = flipped h v' -> v mod 256 = v' mod 256.
Proof.
  unfold flipped. intros E. rewrite <-!octet_div.
  rewrite <-(Z.lxor_0_l (Z.land v 0xff)), <-(Z.lxor_0_l (Z.land v' 0xff)), <-(Z.lxor_nilpotent h), !Z.lxor_assoc.
  f_equal. lia.
Qed.

(** A round: the prime is odd, so the product loses nothing. *)
Lemma fnv_round h v : ∃ k, u64 (Z.lxor h (Z.land v 0xff) * kFNVPrime64) = (h + flipped h v) * kFNVPrime64 - 2 ^ 64 * k.
Proof.
  unfold flipped. replace (h + _) with (Z.lxor h (Z.land v 0xff)) by lia.
  exists (Z.lxor h (Z.land v 0xff) * kFNVPrime64 / 2 ^ 64). unfold u64, wrap. rewrite Z.mod_eq by lia. lia.
Qed.

Lemma times_prime_inj a b : u64 (a * kFNVPrime64) = u64 (b * kFNVPrime64) -> ∃ k, a = b + 2 ^ 64 * k.
Proof.
  unfold u64, wrap. intros E. assert ((a - b) mod 2 ^ 64 = 0) as H.
  { assert ((a * kFNVPrime64 - b * kFNVPrime64) mod 2 ^ 64 = 0) as H by (by rewrite Zminus_mod, E, Z.sub_diag).
    apply Z.mod_divide in H; [|lia]. apply Z.mod_divide; [lia|].
    apply (Z.gauss _ kFNVPrime64); [|by vm_compute]. by replace (kFNVPrime64 * (a - b)) with (a * kFNVPrime64 - b * kFNVPrime64) by lia. }
  exists ((a - b) / 2 ^ 64). pose proof (Z.div_mod (a - b) (2 ^ 64) ltac:(lia)). lia.
Qed.

Lemma fnv_zeros n h h' : 0 ≤ h < 2 ^ 64 -> 0 ≤ h' < 2 ^ 64 -> fnv_loop n h 0 = fnv_loop n h' 0 -> h = h'.
Proof.
  revert h h'. induction n as [|n IH]; intros h h' Hh Hh'; cbn [fnv_loop]; [done|].
  rewrite Z.land_0_l, !Z.lxor_0_r, Z.shiftr_0_l. intros E%IH; [|apply wrap_range; lia..].
  apply times_prime_inj in E as [k E]. lia.
Qed.

(** Small differences in four rounds do not cancel out. *)
Lemma fnv_differences d0 d1 d2 d3 k :
  - 510 ≤ d0 ≤ 510 -> - 510 ≤ d1 ≤ 510 -> - 510 ≤ d2 ≤ 510 -> - 510 ≤ d3 ≤ 510 ->
  ((d0 * kFNVPrime64 + d1) * kFNVPrime64 + d2) * kFNVPrime64 + d3 = 2 ^ 64 * k ->
  d0 = 0 ∧ d1 = 0 ∧ d2 = 0 ∧ d3 = 0.
Proof.
  intros H0 H1 H2 H3 E. unfold kFNVPrime64 in E.
  set (b := ((d0 * 435 + d1) * 435 + d2) * 435 + d3).
  set (a := 567675 * d0 + 870 * d1 + d2).
  assert (b = 0 ∧ ∃ t, a = 2 ^ 24 * t) as [Hb [t Ha]].
  { assert (2 ^ 40 * (a + 2 ^ 24 * (2 ^ 56 * d0 + 1305 * 2 ^ 16 * d0 + 2 ^ 16 * d1 - k)) + b = 0) as E' by lia.
    clear E. split; [lia|]. exists (- (2 ^ 56 * d0 + 1305 * 2 ^ 16 * d0 + 2 ^ 16 * d1 - k)). lia. }
  clear E. assert (∃ c, d3 = - 435 * c ∧ (d0 * 435 + d1) * 435 + d2 = c) as (c & Hc & Hc') by (exists ((d0 * 435 + d1) * 435 + d2); lia).
  assert (-1 ≤ c ≤ 1) as Hc1 by lia.
  assert (-1 ≤ d0 * 435 + d1 ≤ 1) by lia. lia.
Qed.

(** Two runs of a round, by the difference of what the octets add. *)
Lemma fnv_pair h h' v v' :
  ∃ k, u64 (Z.lxor h (Z.land v 0xff) * kFNVPrime64) - u64 (Z.lxor h' (Z.land v' 0xff) * kFNVPrime64) =
       (h - h' + (flipped h v - flipped h' v')) * kFNVPrime64 + 2 ^ 64 * k.
Proof.
  destruct (fnv_round h v) as [k ->]. destruct (fnv_round h' v') as [k' ->]. exists (k' - k). lia.
Qed.

Lemma fnv_loop_S n h v :
  fnv_loop (S n) h v = u64 (Z.lxor (fnv_loop n h v) (Z.land (Z.shiftr v (8 * Z.of_nat n)) 0xff) * kFNVPrime64).
Proof.
  revert h v. induction n as [|n IH]; intros h v; [by cbn; rewrite Z.shiftr_0_r|].
  cbn [fnv_loop] in IH |- *. rewrite IH, Z.shiftr_shiftr by lia. by replace (8 + 8 * Z.of_nat n) with (8 * Z.of_nat (S n)) by lia.
Qed.

Lemma fnv_loop_add n m h v : fnv_loop (n + m) h v = fnv_loop m (fnv_loop n h v) (Z.shiftr v (8 * Z.of_nat n)).
Proof.
  revert h v. induction n as [|n IH]; intros h v; [by cbn; rewrite Z.shiftr_0_r|].
  cbn [fnv_loop Nat.add]. rewrite IH, Z.shiftr_shiftr by lia. by replace (8 + 8 * Z.of_nat n) with (8 * Z.of_nat (S n)) by lia.
Qed.

Lemma fnv_loop_range n h v : 0 ≤ h < 2 ^ 64 -> 0 ≤ fnv_loop n h v < 2 ^ 64.
Proof. revert h v. induction n as [|n IH]; intros h v Hh; cbn [fnv_loop]; [done|]. apply IH, wrap_range. lia. Qed.

Lemma fnv_four h a b k :
  0 ≤ h < 2 ^ 64 -> fnv_loop 4 h a = fnv_loop 4 h b -> 0 ≤ k < 4 ->
  Z.shiftr a (8 * k) mod 256 = Z.shiftr b (8 * k) mod 256.
Proof.
  intros Hh. rewrite !(fnv_loop_S 3). intros [k3 E3]%times_prime_inj Hk.
  assert (∀ n, ∃ k, fnv_loop (S n) h a - fnv_loop (S n) h b =
    (fnv_loop n h a - fnv_loop n h b +
      (flipped (fnv_loop n h a) (Z.shiftr a (8 * Z.of_nat n)) - flipped (fnv_loop n h b) (Z.shiftr b (8 * Z.of_nat n))))
      * kFNVPrime64 + 2 ^ 64 * k) as Hstep.
  { intros n. rewrite !fnv_loop_S. apply fnv_pair. }
  destruct (Hstep 0%nat) as [k0 E0], (Hstep 1%nat) as [k1 E1], (Hstep 2%nat) as [k2 E2]. clear Hstep.
  assert (∀ n v, - 255 ≤ flipped (fnv_loop n h v) (Z.shiftr v (8 * Z.of_nat n)) ≤ 255) as Hf.
  { intros n v. apply flipped_small, fnv_loop_range. lia. }
  pose proof (Hf 0%nat a). pose proof (Hf 0%nat b). pose proof (Hf 1%nat a). pose proof (Hf 1%nat b).
  pose proof (Hf 2%nat a). pose proof (Hf 2%nat b). pose proof (Hf 3%nat a). pose proof (Hf 3%nat b). clear Hf.
  assert (∀ n, fnv_loop n h a = fnv_loop n h b ->
    flipped (fnv_loop n h a) (Z.shiftr a (8 * Z.of_nat n)) = flipped (fnv_loop n h b) (Z.shiftr b (8 * Z.of_nat n)) ->
    Z.shiftr a (8 * Z.of_nat n) mod 256 = Z.shiftr b (8 * Z.of_nat n) mod 256 ∧ fnv_loop (S n) h a = fnv_loop (S n) h b) as Hnext.
  { intros n En Fn. rewrite En in Fn. apply flipped_octet in Fn. split; [done|].
    rewrite !fnv_loop_S, En, !octet_div. by rewrite Fn. }
  assert (∀ v, Z.lxor (fnv_loop 3 h v) (Z.land (Z.shiftr v (8 * Z.of_nat 3)) 0xff) =
    fnv_loop 3 h v + flipped (fnv_loop 3 h v) (Z.shiftr v (8 * Z.of_nat 3))) as Hlast by (intros v; unfold flipped; lia).
  rewrite !Hlast in E3. clear Hlast. change (fnv_loop 0 h a) with h in *. change (fnv_loop 0 h b) with h in *.
  set (p := kFNVPrime64) in *.
  destruct (fnv_differences
    (flipped h (Z.shiftr a (8 * Z.of_nat 0)) - flipped h (Z.shiftr b (8 * Z.of_nat 0)))
    (flipped (fnv_loop 1 h a) (Z.shiftr a (8 * Z.of_nat 1)) - flipped (fnv_loop 1 h b) (Z.shiftr b (8 * Z.of_nat 1)))
    (flipped (fnv_loop 2 h a) (Z.shiftr a (8 * Z.of_nat 2)) - flipped (fnv_loop 2 h b) (Z.shiftr b (8 * Z.of_nat 2)))
    (flipped (fnv_loop 3 h a) (Z.shiftr a (8 * Z.of_nat 3)) - flipped (fnv_loop 3 h b) (Z.shiftr b (8 * Z.of_nat 3)))
    (k3 - (k0 * p + k1) * p - k2)) as (D0 & D1 & D2 & D3); [lia..| |].
  { fold p. transitivity ((fnv_loop 3 h a - fnv_loop 3 h b) + (flipped (fnv_loop 3 h a) (Z.shiftr a (8 * Z.of_nat 3)) - flipped (fnv_loop 3 h b) (Z.shiftr b (8 * Z.of_nat 3))) - 2 ^ 64 * ((k0 * p + k1) * p + k2)); [|lia].
    rewrite E2, E1, E0. ring. }
  destruct (Hnext 0%nat eq_refl ltac:(cbn [fnv_loop]; lia)) as [O0 L1].
  destruct (Hnext 1%nat L1 ltac:(lia)) as [O1 L2]. destruct (Hnext 2%nat L2 ltac:(lia)) as [O2 L3].
  destruct (Hnext 3%nat L3 ltac:(lia)) as [O3 _].
  assert (k = 0 ∨ k = 1 ∨ k = 2 ∨ k = 3) as [ -> | [ -> | [ -> | -> ] ] ] by lia; assumption.
Qed.

(** Numbers below [2 ^ 32] have hashes of their own. *)
Lemma Hash_inj a b : 0 ≤ a < 2 ^ 32 -> 0 ≤ b < 2 ^ 32 -> Hash a = Hash b -> a = b.
Proof.
  intros Ha Hb. unfold Hash, FNVHash64.
  assert (0 ≤ kFNVOffsetBasis64 < 2 ^ 64) as Hh by (unfold kFNVOffsetBasis64; lia).
  revert Hh. generalize kFNVOffsetBasis64 as h. intros h Hh.
  assert (∀ v, 0 ≤ v < 2 ^ 32 -> fnv_loop 8 h v = fnv_loop 4 (fnv_loop 4 h v) 0) as H8.
  { intros v Hv. change 8%nat with (4 + 4)%nat. rewrite fnv_loop_add. f_equal.
    rewrite Z.shiftr_div_pow2 by lia. by apply Z.div_small. }
  rewrite (H8 a Ha), (H8 b Hb). intros E%fnv_zeros; [|by apply fnv_loop_range..].
  pose proof (fnv_four h a b 0 Hh E ltac:(lia)) as O0. pose proof (fnv_four h a b 1 Hh E ltac:(lia)) as O1.
  pose proof (fnv_four h a b 2 Hh E ltac:(lia)) as O2. pose proof (fnv_four h a b 3 Hh E ltac:(lia)) as O3.
  rewrite !Z.shiftr_div_pow2 in O0, O1, O2, O3 by lia. cbn [Z.mul Pos.mul] in *.
  change (2 ^ 32) with 4294967296 in *. change (2 ^ 0) with 1 in *. change (2 ^ 8) with 256 in *.
  change (2 ^ (8 * 2)) with 65536 in *. change (2 ^ (8 * 3)) with 16777216 in *.
  Z.div_mod_to_equations. lia.
Qed.
