(* ===== verification/PropertiesTheorems.v ===== *)
(** * PropertiesTheorems: a property file says what was written (core/properties.h)

    Lines of a file (comments, text without an equals sign, and settings with
    any white space around the key and the value) are printed and loaded. *)

From Stdlib Require Import ZArith Lia Ascii.
From stdpp Require Import base list strings gmap.
From S2P Require Import Prelude YcsbUtils.

(** ** Trimming *)
Definition blank (s : text) : Prop := Forall (λ a, isspace a = true) s.

(** Text that starts and ends with something to see, or is empty. *)
Definition trimmed (s : text) : Prop :=
  (∀ a s', s = a :: s' -> isspace a = false) ∧ (∀ a s', s = s' ++ [a] -> isspace a = false).

Lemma skip_blank pad s : blank pad -> skip_space (pad ++ s) = skip_space s.
Proof. induction 1 as [|a pad Ha _ IH]; [done|]. cbn. by rewrite Ha. Qed.

Lemma skip_seen s : (∀ a s', s = a :: s' -> isspace a = false) -> skip_space s = s.
Proof. destruct s as [|a s]; [done|]. intros H. cbn. by rewrite (H a s). Qed.

Lemma Trim_pads pad1 s pad2 : blank pad1 -> trimmed s -> blank pad2 -> Trim (pad1 ++ s ++ pad2) = s.
Proof.
  intros H1 [Hs1 Hs2] H2. unfold Trim. rewrite skip_blank by done.
  destruct s as [|a s].
  { cbn [app]. rewrite <-(app_nil_r pad2), skip_blank by done. done. }
  rewrite (skip_seen ((a :: s) ++ pad2)) by (intros ? ? [= <- _]; by apply (Hs1 a s)).
  rewrite rev_app_distr, skip_blank by by apply Forall_rev.
  rewrite skip_seen; [by rewrite rev_involutive|].
  intros b s' E. apply (Hs2 b (rev s')). rewrite <-(rev_involutive (a :: s)), E. done.
Qed.

(** ** Lines *)
Inductive line :=
  | Comment (s : text)
  | Other (s : text)                                  (* no equals sign *)
  | Setting (pads : text * text * text * text) (key value : text).

Definition show (l : line) : text :=
  match l with
  | Comment s => "#"%char :: s
  | Other s => s
  | Setting (a, b, c, d) key value => a ++ key ++ b ++ "="%char :: c ++ value ++ d
  end.

Definition line_ok (l : line) : Prop :=
  newline ∉ show l ∧
  match l with
  | Comment s => True
  | Other s => "="%char ∉ s
  | Setting (a, b, c, d) key value =>
      blank a ∧ blank b ∧ blank c ∧ blank d ∧ trimmed key ∧ trimmed value ∧
      "="%char ∉ key ∧ head (a ++ key) ≠ Some "#"%char
  end.

Definition apply_line (p : Properties) (l : line) : Properties :=
  match l with Setting _ key value => <[key := value]> p | _ => p end.

(** The lines, each with its end of line but the last. *)
Fixpoint print (ls : list line) : text :=
  match ls with
  | [] => []
  | [l] => show l
  | l :: ls' => show l ++ newline :: print ls'
  end.

Lemma split_at_sep sep a b : sep ∉ a -> split_at sep (a ++ sep :: b) = (a, Some b).
Proof.
  induction a as [|x a IH]; intros Ha; cbn; [by rewrite Ascii.eqb_refl|].
  destruct (Ascii.eqb_spec x sep) as [->|_]; [destruct Ha; left|].
  rewrite IH; [done|]. intros H. apply Ha. by right.
Qed.

Lemma split_at_none sep a : sep ∉ a -> split_at sep a = (a, None).
Proof.
  induction a as [|x a IH]; intros Ha; cbn; [done|].
  destruct (Ascii.eqb_spec x sep) as [->|_]; [destruct Ha; left|].
  rewrite IH; [done|]. intros H. apply Ha. by right.
Qed.

Lemma blank_no_equals s : blank s -> "="%char ∉ s.
Proof. intros Hs Hin. pose proof (proj1 (Forall_forall _ _) Hs _ Hin). done. Qed.

Lemma load_line_show p l : line_ok l -> load_line p (show l) = apply_line p l.
Proof.
  destruct l as [s|s|[[[a b] c] d] key value]; intros [_ H]; [done| |].
  - cbn [show apply_line]. unfold load_line. rewrite split_at_none by done. by repeat case_match.
  - destruct H as (Ha & Hb & Hc & Hd & Hk & Hv & Heq & Hhd). cbn [show apply_line].
    assert (split_at "=" (a ++ key ++ b ++ "="%char :: c ++ value ++ d) = (a ++ key ++ b, Some (c ++ value ++ d))) as Hs.
    { rewrite !(app_assoc a), !(app_assoc (a ++ key)). apply split_at_sep.
      rewrite !not_elem_of_app. auto using blank_no_equals. }
    unfold load_line. rewrite Hs, !Trim_pads by done.
    repeat case_match; try done. subst. destruct Hhd.
    destruct a as [|x a]; [|by cbn in *; simplify_eq].
    destruct key as [|x key]; [|by cbn in *; simplify_eq].
    destruct b as [|x b]; [done|]. cbn in *. simplify_eq.
    by apply Forall_cons in Hb as [? _].
Qed.

Lemma load_loop_print ls fuel p :
  Forall line_ok ls -> (length ls ≤ fuel)%nat -> (0 < fuel)%nat ->
  load_loop fuel p (print ls) = foldl apply_line p ls.
Proof.
  intros Hls. revert fuel p. induction Hls as [|l ls [Hl Hl'] Hls IH]; intros [|fuel] p Hf Hf0; [lia|done|lia|].
  cbn in Hf. destruct ls as [|l' ls].
  - cbn [print load_loop foldl]. by rewrite split_at_none, load_line_show by done.
  - change (print (l :: l' :: ls)) with (show l ++ newline :: print (l' :: ls)).
    cbn [load_loop]. rewrite split_at_sep, load_line_show by done. cbn in Hf.
    apply IH; cbn; lia.
Qed.

Lemma print_length ls : (length ls ≤ S (length (print ls)))%nat.
Proof.
  induction ls as [|l ls IH]; [cbn; lia|]. destruct ls as [|l' ls]; [cbn; lia|].
  change (print (l :: l' :: ls)) with (show l ++ newline :: print (l' :: ls)).
  rewrite length_app. cbn [length] in *. lia.
Qed.

(** C30: A property file says what was written.  Loading the text of any
    sequence of comments, lines without an equals sign and settings, with
    white space around keys and values, sets exactly the settings, in order:
    keys and values without the white space, later settings winning, equals
    signs in a value kept.  The bound on the lines that the model reads is
    always enough. *)
Theorem Load_print p ls :
  Forall line_ok ls -> Load p (Some (print ls)) = Val (foldl apply_line p ls).
Proof.
  intros Hls. unfold Load. f_equal. apply load_loop_print; [done|apply print_length|lia].
Qed.

Definition sample : list line :=
  [ Comment (lit " Yahoo! Cloud System Benchmark");
    Setting ([], [], [], lit " ") (lit "recordcount") (lit "1000");
    Other [];
    Setting (lit " ", lit " ", lit " ", []) (lit "workload") (lit "a=b c");
    Setting ([], [], [], []) (lit "recordcount") (lit "2000") ].

Lemma Load_print_witness :
  Load ∅ (Some (print sample)) = Val (foldl apply_line ∅ sample) ∧
  foldl apply_line ∅ sample !! lit "recordcount" = Some (lit "2000").
Proof.
  split; [|by vm_compute]. apply (Load_print ∅ sample).
  assert (∀ s : text, (∀ a s', s = a :: s' -> isspace a = false) -> (∀ a s', rev s = a :: s' -> isspace a = false) ->
    trimmed s) as Ht.
  { intros s H1 H2. split; [done|]. intros a s' ->. apply (H2 a (rev s')). by rewrite rev_app_distr. }
  repeat constructor; try (apply Ht; intros ? ? [= <- _]; reflexivity);
    try (by apply (bool_decide_unpack _); vm_compute); try done.
Defined.
