(* ===== verification/Generators.v ===== *)
(** * Generators: the random numbers of YCSB-C (core/*_generator.h)

    The generators as an inductive type with their state, and [Next] as a
    tree of draws.  The engines and the arithmetic of [double] are
    parameters.  A failed [assert] is [Undef]. *)

From Stdlib Require Import ZArith Lia.
From stdpp Require Import base list.
From S2P Require Import Prelude Calls YcsbUtils.

(** ** The arithmetic of [double] *)
Class Doubles := {
  double : Type;
  d_of_u64 : Z -> double;
  d_add : double -> double -> double;
  d_sub : double -> double -> double;
  d_mul : double -> double -> double;
  d_div : double -> double -> double;
  d_pow : double -> double -> double;
  d_lt : double -> double -> bool;
  d_to_u64 : double -> option Z;      (* [None]: out of range, undefined *)
  kZipfianConst : double;             (* 0.99 *)
  stod : text -> exc double
}.

(** Draws: of [utils::RandomDouble], of a [uniform_int_distribution] with its
    engine, and of [rand]. *)
Inductive rnd `{!Doubles} : Type -> Type :=
  | RandomDouble : rnd double
  | uniform_int (min max : Z) : rnd Z
  | rand : rnd Z.

Section generators.
Context {D : Doubles}.

Definition assert {A} (b : bool) (rest : prog rnd A) : prog rnd A := if b then rest else undef.

Definition one : double := d_of_u64 1.
Definition half : double := d_div one (d_of_u64 2).

(** ** zipfian_generator.h *)
Record zipfian := Zipfian {
  num_items_ : Z;
  base_ : Z;
  theta_ : double;
  zeta_n_ : double;
  eta_ : double;
  alpha_ : double;
  zeta_2_ : double;
  n_for_zeta_ : Z;
  last_value_ : Z
}.

Definition kMaxNumItems : Z := Z.shiftr (2 ^ 64 - 1) 24.

(** [n] rounds, from the item after [i]. *)
Fixpoint zeta_loop (n : nat) (i : Z) (theta zeta : double) : double :=
  match n with
  | O => zeta
  | S n' =>
      let i := i + 1 in
      zeta_loop n' i theta (d_add zeta (d_div one (d_pow (d_of_u64 i) theta)))
  end.

Definition Zeta (last_num cur_num : Z) (theta last_zeta : double) : double :=
  zeta_loop (Z.to_nat (cur_num - last_num)) last_num theta last_zeta.

Definition RaiseZeta (num : Z) (z : zipfian) : zipfian :=
  Zipfian (num_items_ z) (base_ z) (theta_ z)
          (Zeta (n_for_zeta_ z) num (theta_ z) (zeta_n_ z))
          (eta_ z) (alpha_ z) (zeta_2_ z) num (last_value_ z).

Definition Eta (z : zipfian) : double :=
  d_div (d_sub one (d_pow (d_div (d_of_u64 2) (d_of_u64 (num_items_ z))) (d_sub one (theta_ z))))
        (d_sub one (d_div (zeta_2_ z) (zeta_n_ z))).

Definition set_eta (e : double) (z : zipfian) : zipfian :=
  Zipfian (num_items_ z) (base_ z) (theta_ z) (zeta_n_ z) e (alpha_ z) (zeta_2_ z)
          (n_for_zeta_ z) (last_value_ z).
Definition set_last (v : Z) (z : zipfian) : zipfian :=
  Zipfian (num_items_ z) (base_ z) (theta_ z) (zeta_n_ z) (eta_ z) (alpha_ z) (zeta_2_ z)
          (n_for_zeta_ z) v.

Definition zipfian_next (num : Z) (z : zipfian) : prog rnd (Z * zipfian) :=
  assert ((2 <=? num) && (num <? kMaxNumItems)) (
  let z := if n_for_zeta_ z <? num then
             let z := RaiseZeta num z in set_eta (Eta z) z
           else z in
  u ← call RandomDouble;
  let uz := d_mul u (zeta_n_ z) in
  if d_lt uz one then mret (0, set_last 0 z)
  else if d_lt uz (d_add one (d_pow half (theta_ z))) then mret (1, set_last 1 z)
  else
    v ← nonnull (d_to_u64 (d_add (d_of_u64 (base_ z))
           (d_mul (d_of_u64 num)
              (d_pow (d_add (d_sub (d_mul (eta_ z) u) (eta_ z)) one) (alpha_ z)))));
    mret (v, set_last v z)).

Definition new_zipfian (min max : Z) (zipfian_const : double) : prog rnd zipfian :=
  let num_items := u64 (u64 (max - min) + 1) in
  assert ((2 <=? num_items) && (num_items <? kMaxNumItems)) (
  let zero := d_of_u64 0 in
  let zeta_2 := Zeta 0 2 zipfian_const zero in
  let alpha := d_div one (d_sub one zipfian_const) in
  let z := RaiseZeta num_items
             (Zipfian num_items min zipfian_const zero zero alpha zeta_2 0 0) in
  let z := set_eta (Eta z) z in
  '(_, z) ← zipfian_next num_items z;
  mret z).

(** ** The other generators *)
Inductive generator :=
  | ConstGenerator (constant : Z)
  | CounterGenerator (counter : Z)
  | UniformGenerator (min max last_int : Z)
  | ZipfianGenerator (z : zipfian)
  | ScrambledZipfianGenerator (base num_items : Z) (z : zipfian)
  | SkewedLatestGenerator (z : zipfian) (last : Z).

(** [CounterGenerator::Last]: one less than the counter, wrapping around. *)
Definition counter_last (counter : Z) : Z := u64 (counter - 1).

Definition Scramble (base num_items value : Z) : Z :=
  u64 (base + FNVHash64 value mod num_items).

(** [Next], with the counter that [SkewedLatestGenerator] refers to. *)
Definition Next (basis : Z) (g : generator) : prog rnd (Z * generator) :=
  match g with
  | ConstGenerator c => mret (c, g)
  | CounterGenerator c => mret (c, CounterGenerator (u64 (c + 1)))
  | UniformGenerator min max _ =>
      v ← call (uniform_int min max);
      mret (v, UniformGenerator min max v)
  | ZipfianGenerator z =>
      '(v, z) ← zipfian_next (num_items_ z) z;
      mret (v, ZipfianGenerator z)
  | ScrambledZipfianGenerator base num_items z =>
      '(v, z) ← zipfian_next (num_items_ z) z;
      mret (Scramble base num_items v, ScrambledZipfianGenerator base num_items z)
  | SkewedLatestGenerator z _ =>
      let max := counter_last basis in
      '(v, z) ← zipfian_next max z;
      let last := u64 (max - v) in
      mret (last, SkewedLatestGenerator z last)
  end.

Definition Last (g : generator) : Z :=
  match g with
  | ConstGenerator c => c
  | CounterGenerator c => counter_last c
  | UniformGenerator _ _ last => last
  | ZipfianGenerator z => last_value_ z
  | ScrambledZipfianGenerator base num_items z => Scramble base num_items (last_value_ z)
  | SkewedLatestGenerator _ last => last
  end.

(** The constructors, which draw a first value. *)
Definition new_const (constant : Z) : generator := ConstGenerator (u64 constant).

Definition new_uniform (min max : Z) : prog rnd generator :=
  v ← call (uniform_int min max);
  mret (UniformGenerator min max v).

Definition new_zipfian_generator (min max : Z) : prog rnd generator :=
  z ← new_zipfian min max kZipfianConst;
  mret (ZipfianGenerator z).

Definition new_scrambled (num_items : Z) : prog rnd generator :=
  let min := 0 in
  let max := u64 (num_items - 1) in
  z ← new_zipfian min max kZipfianConst;
  mret (ScrambledZipfianGenerator min (u64 (u64 (max - min) + 1)) z).

Definition new_skewed_latest (basis : Z) : prog rnd generator :=
  let n := counter_last basis in
  z ← new_zipfian 0 (u64 (n - 1)) kZipfianConst;
  '(_, g) ← Next basis (SkewedLatestGenerator z 0);
  mret g.

(** ** discrete_generator.h *)
Section discrete.
Context {V : Type}.

Record discrete := Discrete {
  values_ : list (V * double);
  sum_ : double;
  last_ : option V
}.

Definition new_discrete : discrete := Discrete [] (d_of_u64 0) None.

Definition AddValue (d : discrete) (value : V) (weight : double) : discrete :=
  Discrete (values_ d ++ [(value, weight)]) (d_add (sum_ d) weight)
           (match values_ d with [] => Some value | _ => last_ d end).

(** The loop over the values; [None] is its end. *)
Fixpoint choose (sum : double) (vs : list (V * double)) (chooser : double) : option V :=
  match vs with
  | [] => None
  | (v, w) :: vs' =>
      if d_lt chooser (d_div w sum) then Some v
      else choose sum vs' (d_sub chooser (d_div w sum))
  end.

Definition discrete_next (d : discrete) : prog rnd (V * discrete) :=
  chooser ← call RandomDouble;
  v ← nonnull (choose (sum_ d) (values_ d) chooser);
  mret (v, Discrete (values_ d) (sum_ d) (Some v)).
End discrete.

End generators.
Arguments discrete {D} V : rename.
