(* ===== verification/Workload.v ===== *)
(** * Workload: the core workload of YCSB-C (core/core_workload.h, core_workload.cc)

    [Init] reads the properties and builds the generators; the other
    operations make keys, values and the kind of the next operation. *)

From Stdlib Require Import ZArith Lia Ascii.
From stdpp Require Import base list strings gmap.
From S2P Require Import Prelude Printf Calls YcsbUtils Generators.

(** ** [std::stoi] and [std::to_string] *)

(** The value of the digits at the start of [s], if there is one. *)
Fixpoint stoi_digits (s : text) (acc : Z) (any : bool) : option Z :=
  match s with
  | a :: s' =>
      let d := Z.of_N (N_of_ascii a) - 48 in
      if (0 <=? d) && (d <=? 9) then stoi_digits s' (10 * acc + d) true
      else if any then Some acc else None
  | [] => if any then Some acc else None
  end.

Definition stoi (s : text) : exc Z :=
  let s := skip_space s in
  let '(sign, s) := match s with
                    | "-"%char :: s' => (-1, s')
                    | "+"%char :: s' => (1, s')
                    | _ => (1, s)
                    end in
  match stoi_digits s 0 false with
  | None => Throw "stoi"
  | Some v => if bool_decide (- 2 ^ 31 ≤ sign * v < 2 ^ 31) then Val (sign * v) else Throw "stoi"
  end.

Definition to_string (v : Z) : text := utoa v.

(** ** The properties and their defaults *)
Definition TABLENAME_PROPERTY : string := "table".
Definition TABLENAME_DEFAULT : string := "usertable".
Definition FIELD_COUNT_PROPERTY : string := "fieldcount".
Definition FIELD_COUNT_DEFAULT : string := "10".
Definition FIELD_LENGTH_DISTRIBUTION_PROPERTY : string := "field_len_dist".
Definition FIELD_LENGTH_DISTRIBUTION_DEFAULT : string := "constant".
Definition FIELD_LENGTH_PROPERTY : string := "fieldlength".
Definition FIELD_LENGTH_DEFAULT : string := "100".
Definition READ_ALL_FIELDS_PROPERTY : string := "readallfields".
Definition READ_ALL_FIELDS_DEFAULT : string := "true".
Definition WRITE_ALL_FIELDS_PROPERTY : string := "writeallfields".
Definition WRITE_ALL_FIELDS_DEFAULT : string := "false".
Definition READ_PROPORTION_PROPERTY : string := "readproportion".
Definition READ_PROPORTION_DEFAULT : string := "0.95".
Definition UPDATE_PROPORTION_PROPERTY : string := "updateproportion".
Definition UPDATE_PROPORTION_DEFAULT : string := "0.05".
Definition INSERT_PROPORTION_PROPERTY : string := "insertproportion".
Definition INSERT_PROPORTION_DEFAULT : string := "0.0".
Definition SCAN_PROPORTION_PROPERTY : string := "scanproportion".
Definition SCAN_PROPORTION_DEFAULT : string := "0.0".
Definition READMODIFYWRITE_PROPORTION_PROPERTY : string := "readmodifywriteproportion".
Definition READMODIFYWRITE_PROPORTION_DEFAULT : string := "0.0".
Definition REQUEST_DISTRIBUTION_PROPERTY : string := "requestdistribution".
Definition REQUEST_DISTRIBUTION_DEFAULT : string := "uniform".
Definition ZERO_PADDING_PROPERTY : string := "zeropadding".
Definition ZERO_PADDING_DEFAULT : string := "1".
Definition MAX_SCAN_LENGTH_PROPERTY : string := "maxscanlength".
Definition MAX_SCAN_LENGTH_DEFAULT : string := "1000".
Definition SCAN_LENGTH_DISTRIBUTION_PROPERTY : string := "scanlengthdistribution".
Definition SCAN_LENGTH_DISTRIBUTION_DEFAULT : string := "uniform".
Definition INSERT_ORDER_PROPERTY : string := "insertorder".
Definition INSERT_ORDER_DEFAULT : string := "hashed".
Definition INSERT_START_PROPERTY : string := "insertstart".
Definition INSERT_START_DEFAULT : string := "0".
Definition RECORD_COUNT_PROPERTY : string := "recordcount".
Definition OPERATION_COUNT_PROPERTY : string := "operationcount".

Inductive Operation := INSERT | READ | UPDATE | SCAN | READMODIFYWRITE.

Section workload.
Context {D : Doubles}.

Record CoreWorkload := Workload {
  table_name_ : text;
  field_count_ : Z;
  read_all_fields_ : bool;
  write_all_fields_ : bool;
  field_len_generator_ : generator;
  key_generator_ : generator;
  op_chooser_ : discrete Operation;
  key_chooser_ : generator;
  field_chooser_ : generator;
  scan_len_chooser_ : generator;
  insert_key_sequence_ : Z;
  ordered_inserts_ : bool;
  record_count_ : Z;
  zero_padding_ : Z
}.

(** A step that may throw, within a tree of calls. *)
Definition attempt {E A B} (e : exc A) (rest : A -> prog E (exc B)) : prog E (exc B) :=
  match e with Val a => rest a | Throw s => mret (Throw s) end.
Definition lifted {A} (p : prog rnd A) : prog rnd (exc A) := a ← p; mret (Val a).

Definition prop (p : Properties) (key default_value : string) : text :=
  GetProperty p (lit key) (lit default_value).

Definition GetFieldLenGenerator (p : Properties) : prog rnd (exc generator) :=
  let field_len_dist := prop p FIELD_LENGTH_DISTRIBUTION_PROPERTY FIELD_LENGTH_DISTRIBUTION_DEFAULT in
  attempt (stoi (prop p FIELD_LENGTH_PROPERTY FIELD_LENGTH_DEFAULT)) (λ field_len,
  if bool_decide (field_len_dist = lit "constant") then mret (Val (new_const field_len))
  else if bool_decide (field_len_dist = lit "uniform") then lifted (new_uniform 1 (u64 field_len))
  else if bool_decide (field_len_dist = lit "zipfian") then
    lifted (new_zipfian_generator 1 (u64 field_len))
  else mret (Throw "Unknown field length distribution")).

Definition positive (d : double) : bool := d_lt (d_of_u64 0) d.

(** [if (proportion > 0) op_chooser_.AddValue(op, proportion);] *)
Definition add_op (op : Operation) (proportion : double) (c : discrete Operation) : discrete Operation :=
  if positive proportion then AddValue c op proportion else c.

(** [(int)(op_count * insert_proportion * 2)]: [None] where that is undefined. *)
Context (new_keys_of : Z -> double -> option Z).

Definition new_key_chooser (p : Properties) (record_count : Z) (insert_proportion : double)
    : prog rnd (exc generator) :=
  let request_dist := prop p REQUEST_DISTRIBUTION_PROPERTY REQUEST_DISTRIBUTION_DEFAULT in
  if bool_decide (request_dist = lit "uniform") then
    lifted (new_uniform 0 (u64 (record_count - 1)))
  else if bool_decide (request_dist = lit "zipfian") then
    attempt (stoi (GetProperty p (lit OPERATION_COUNT_PROPERTY) [])) (λ op_count,
    new_keys ← nonnull (new_keys_of op_count insert_proportion);
    lifted (new_scrambled (u64 (record_count + new_keys))))
  else if bool_decide (request_dist = lit "latest") then
    lifted (new_skewed_latest record_count)
  else mret (Throw "Unknown request distribution").

Definition new_scan_len_chooser (scan_len_dist : text) (max_scan_len : Z) : prog rnd (exc generator) :=
  if bool_decide (scan_len_dist = lit "uniform") then lifted (new_uniform 1 (u64 max_scan_len))
  else if bool_decide (scan_len_dist = lit "zipfian") then
    lifted (new_zipfian_generator 1 (u64 max_scan_len))
  else mret (Throw "Distribution not allowed for scan length").

(** A [>>=] for results that may be exceptions. *)
Definition then_ {A B} (p : prog rnd (exc A)) (rest : A -> prog rnd (exc B)) : prog rnd (exc B) :=
  r ← p; attempt r rest.

Definition Init (p : Properties) : prog rnd (exc CoreWorkload) :=
  let table_name := prop p TABLENAME_PROPERTY TABLENAME_DEFAULT in
  attempt (stoi (prop p FIELD_COUNT_PROPERTY FIELD_COUNT_DEFAULT)) (λ field_count,
  then_ (GetFieldLenGenerator p) (λ field_len_generator,
  attempt (stod (prop p READ_PROPORTION_PROPERTY READ_PROPORTION_DEFAULT)) (λ read_proportion,
  attempt (stod (prop p UPDATE_PROPORTION_PROPERTY UPDATE_PROPORTION_DEFAULT)) (λ update_proportion,
  attempt (stod (prop p INSERT_PROPORTION_PROPERTY INSERT_PROPORTION_DEFAULT)) (λ insert_proportion,
  attempt (stod (prop p SCAN_PROPORTION_PROPERTY SCAN_PROPORTION_DEFAULT)) (λ scan_proportion,
  attempt (stod (prop p READMODIFYWRITE_PROPORTION_PROPERTY READMODIFYWRITE_PROPORTION_DEFAULT)) (λ readmodifywrite_proportion,
  attempt (stoi (GetProperty p (lit RECORD_COUNT_PROPERTY) [])) (λ record_count,
  let record_count := u64 record_count in
  attempt (stoi (prop p ZERO_PADDING_PROPERTY ZERO_PADDING_DEFAULT)) (λ zero_padding,
  attempt (stoi (prop p MAX_SCAN_LENGTH_PROPERTY MAX_SCAN_LENGTH_DEFAULT)) (λ max_scan_len,
  let scan_len_dist := prop p SCAN_LENGTH_DISTRIBUTION_PROPERTY SCAN_LENGTH_DISTRIBUTION_DEFAULT in
  attempt (stoi (prop p INSERT_START_PROPERTY INSERT_START_DEFAULT)) (λ insert_start,
  attempt (StrToBool (prop p READ_ALL_FIELDS_PROPERTY READ_ALL_FIELDS_DEFAULT)) (λ read_all_fields,
  attempt (StrToBool (prop p WRITE_ALL_FIELDS_PROPERTY WRITE_ALL_FIELDS_DEFAULT)) (λ write_all_fields,
  let ordered_inserts := negb (bool_decide (prop p INSERT_ORDER_PROPERTY INSERT_ORDER_DEFAULT = lit "hashed")) in
  let key_generator := CounterGenerator (u64 insert_start) in
  let op_chooser :=
    add_op READMODIFYWRITE readmodifywrite_proportion
   (add_op SCAN scan_proportion
   (add_op INSERT insert_proportion
   (add_op UPDATE update_proportion
   (add_op READ read_proportion new_discrete)))) in
  then_ (new_key_chooser p record_count insert_proportion) (λ key_chooser,
  then_ (lifted (new_uniform 0 (u64 (field_count - 1)))) (λ field_chooser,
  then_ (new_scan_len_chooser scan_len_dist max_scan_len) (λ scan_len_chooser,
  mret (Val (Workload table_name field_count read_all_fields write_all_fields
    field_len_generator key_generator op_chooser key_chooser field_chooser scan_len_chooser
    record_count ordered_inserts record_count zero_padding)))))))))))))))))).

(** ** Changing one generator *)
Definition set_field_len (g : generator) (w : CoreWorkload) : CoreWorkload :=
  Workload (table_name_ w) (field_count_ w) (read_all_fields_ w) (write_all_fields_ w) g
    (key_generator_ w) (op_chooser_ w) (key_chooser_ w) (field_chooser_ w) (scan_len_chooser_ w)
    (insert_key_sequence_ w) (ordered_inserts_ w) (record_count_ w) (zero_padding_ w).
Definition set_key_generator (g : generator) (w : CoreWorkload) : CoreWorkload :=
  Workload (table_name_ w) (field_count_ w) (read_all_fields_ w) (write_all_fields_ w)
    (field_len_generator_ w) g (op_chooser_ w) (key_chooser_ w) (field_chooser_ w) (scan_len_chooser_ w)
    (insert_key_sequence_ w) (ordered_inserts_ w) (record_count_ w) (zero_padding_ w).
Definition set_op_chooser (c : discrete Operation) (w : CoreWorkload) : CoreWorkload :=
  Workload (table_name_ w) (field_count_ w) (read_all_fields_ w) (write_all_fields_ w)
    (field_len_generator_ w) (key_generator_ w) c (key_chooser_ w) (field_chooser_ w) (scan_len_chooser_ w)
    (insert_key_sequence_ w) (ordered_inserts_ w) (record_count_ w) (zero_padding_ w).
Definition set_key_chooser (g : generator) (w : CoreWorkload) : CoreWorkload :=
  Workload (table_name_ w) (field_count_ w) (read_all_fields_ w) (write_all_fields_ w)
    (field_len_generator_ w) (key_generator_ w) (op_chooser_ w) g (field_chooser_ w) (scan_len_chooser_ w)
    (insert_key_sequence_ w) (ordered_inserts_ w) (record_count_ w) (zero_padding_ w).
Definition set_field_chooser (g : generator) (w : CoreWorkload) : CoreWorkload :=
  Workload (table_name_ w) (field_count_ w) (read_all_fields_ w) (write_all_fields_ w)
    (field_len_generator_ w) (key_generator_ w) (op_chooser_ w) (key_chooser_ w) g (scan_len_chooser_ w)
    (insert_key_sequence_ w) (ordered_inserts_ w) (record_count_ w) (zero_padding_ w).
Definition set_scan_len (g : generator) (w : CoreWorkload) : CoreWorkload :=
  Workload (table_name_ w) (field_count_ w) (read_all_fields_ w) (write_all_fields_ w)
    (field_len_generator_ w) (key_generator_ w) (op_chooser_ w) (key_chooser_ w) (field_chooser_ w) g
    (insert_key_sequence_ w) (ordered_inserts_ w) (record_count_ w) (zero_padding_ w).

(** ** The operations *)

(** [Next] of a generator of the workload. *)
Definition draw (w : CoreWorkload) (g : generator) : prog rnd (Z * generator) :=
  Next (insert_key_sequence_ w) g.

Definition BuildKeyName (w : CoreWorkload) (key_num : Z) : text :=
  let key_num := if negb (ordered_inserts_ w) then Hash key_num else key_num in
  let key_num_str := to_string key_num in
  let zeros := i32 (u64 (zero_padding_ w - Z.of_nat (length key_num_str))) in
  let zeros := Z.max 0 zeros in
  lit "user" ++ replicate (Z.to_nat zeros) "0"%char ++ key_num_str.

Definition NextSequenceKey (w : CoreWorkload) : prog rnd (text * CoreWorkload) :=
  '(key_num, g) ← draw w (key_generator_ w);
  mret (BuildKeyName w key_num, set_key_generator g w).

(** The loop draws until a key is not after the last inserted one; [fuel]
    bounds the draws, and a run that needs more is [Undef]. *)
Fixpoint transaction_loop (fuel : nat) (w : CoreWorkload) : prog rnd (Z * CoreWorkload) :=
  match fuel with
  | O => undef
  | S fuel' =>
      '(key_num, g) ← draw w (key_chooser_ w);
      let w := set_key_chooser g w in
      if counter_last (insert_key_sequence_ w) <? key_num then transaction_loop fuel' w
      else mret (key_num, w)
  end.

Definition NextTransactionKey (fuel : nat) (w : CoreWorkload) : prog rnd (text * CoreWorkload) :=
  '(key_num, w) ← transaction_loop fuel w;
  mret (BuildKeyName w key_num, w).

Definition NextOperation (w : CoreWorkload) : prog rnd (Operation * CoreWorkload) :=
  '(op, c) ← discrete_next (op_chooser_ w);
  mret (op, set_op_chooser c w).

Definition field_name (n : Z) : text := lit "field" ++ to_string n.

Definition NextFieldName (w : CoreWorkload) : prog rnd (text * CoreWorkload) :=
  '(n, g) ← draw w (field_chooser_ w);
  mret (field_name n, set_field_chooser g w).

Definition NextScanLength (w : CoreWorkload) : prog rnd (Z * CoreWorkload) :=
  '(n, g) ← draw w (scan_len_chooser_ w);
  mret (n, set_scan_len g w).

(** [std::string(n, c)] of a drawn length and a drawn character.  The order
    of the two draws is not fixed by the language; this is the one of the
    text. *)
Definition field_value (w : CoreWorkload) : prog rnd (text * CoreWorkload) :=
  '(n, g) ← draw w (field_len_generator_ w);
  r ← call rand;
  mret (replicate (Z.to_nat n) (RandomPrintChar r), set_field_len g w).

Definition pairs : Type := list (text * text).

Fixpoint values_loop (n : nat) (i : Z) (w : CoreWorkload) (values : pairs)
    : prog rnd (pairs * CoreWorkload) :=
  match n with
  | O => mret (values, w)
  | S n' =>
      '(v, w) ← field_value w;
      values_loop n' (i + 1) w (values ++ [(field_name i, v)])
  end.

Definition BuildValues (w : CoreWorkload) : prog rnd (pairs * CoreWorkload) :=
  values_loop (Z.to_nat (field_count_ w)) 0 w [].

Definition BuildUpdate (w : CoreWorkload) : prog rnd (pairs * CoreWorkload) :=
  '(f, w) ← NextFieldName w;
  '(v, w) ← field_value w;
  mret ([(f, v)], w).
End workload.
