(* ===== verification/WorkloadSpec.v ===== *)
(** * WorkloadSpec: keys, fields and draws of the workload (core/core_workload.h)

    Key names are injective, hashed (below 2^32) or not, and in the order of
    the keys when they are padded; the draws of a generator stay in its range;
    the discrete generator gives each operation its share. *)

From Stdlib Require Import ZArith Lia Ascii QArith Qround Lqa.
From stdpp Require Import base list strings gmap.
From S2P Require Import Prelude Libc Printf Sds Calls YcsbUtils Fnv Generators Workload.
#[local] Open Scope Z_scope.

(** ** The value of digits *)

Lemma dval_acc s v :
  foldl (λ acc c, acc * 10 + (uchar c - 48)) v s = v * 10 ^ zlen s + dval s.
Proof.
  unfold dval. revert v. induction s as [|c s IH]; intros v; cbn [foldl].
  { rewrite zlen_nil. lia. }
  rewrite IH, (IH (0 * 10 + _)), zlen_cons, Z.pow_add_r by (pose proof (zlen_nonneg s); lia). lia.
Qed.

Lemma dval_cons c s : dval (c :: s) = (uchar c - 48) * 10 ^ zlen s + dval s.
Proof. unfold dval at 1. cbn [foldl]. rewrite dval_acc. lia. Qed.

Lemma dval_bound s : Forall is_digit s -> 0 ≤ dval s < 10 ^ zlen s.
Proof.
  induction 1 as [|c s Hc _ IH]; [done|]. unfold is_digit in Hc.
  rewrite dval_cons, zlen_cons, Z.pow_add_r by (pose proof (zlen_nonneg s); lia). nia.
Qed.

Lemma zero_digit : is_digit "0".
Proof. split; vm_compute; congruence. Qed.

(** Digits of one length are in the order of their values. *)
Lemma digits_cmp a b :
  Forall is_digit a -> Forall is_digit b -> length a = length b ->
  bytes_cmp a b = Z.compare (dval a) (dval b).
Proof.
  intros Ha. revert b. induction Ha as [|c a Hc Ha IH]; intros [|d b] Hb Hl; try done.
  apply Forall_cons in Hb as [Hd Hb]. injection Hl as Hl. cbn [bytes_cmp].
  assert (zlen a = zlen b) as E by (unfold zlen; congruence).
  pose proof (dval_bound a Ha) as Ba. pose proof (dval_bound b Hb) as Bb.
  rewrite !dval_cons, E in *. destruct (Z.compare_spec (uchar c) (uchar d)) as [Hcd|Hcd|Hcd].
  - rewrite IH by done. rewrite Hcd. symmetry. apply Z.add_compare_mono_l.
  - symmetry. apply Z.compare_lt_iff. nia.
  - symmetry. apply Z.compare_gt_iff. nia.
Qed.

Lemma dval_zeros n s : dval (replicate n "0"%char ++ s) = dval s.
Proof.
  unfold dval. rewrite foldl_app. f_equal. induction n as [|n IH]; [done|]. exact IH.
Qed.

Lemma to_string_inj a b :
  0 ≤ a < 2 ^ 64 -> 0 ≤ b < 2 ^ 64 -> to_string a = to_string b -> a = b.
Proof. unfold to_string. intros Ha Hb E. by rewrite <-(utoa_value a), <-(utoa_value b), E. Qed.

Lemma field_name_inj a b :
  0 ≤ a < 2 ^ 64 -> 0 ≤ b < 2 ^ 64 -> field_name a = field_name b -> a = b.
Proof. unfold field_name. intros Ha Hb E%app_inv_head. by apply to_string_inj. Qed.

Lemma FNVHash64_range v : 0 ≤ FNVHash64 v < 2 ^ 64.
Proof.
  unfold FNVHash64. assert (0 ≤ kFNVOffsetBasis64 < 2 ^ 64) as H by (unfold kFNVOffsetBasis64; lia).
  revert H. generalize kFNVOffsetBasis64 as h. revert v.
  generalize 8%nat as n. induction n as [|n IH]; intros v h Hh; cbn [fnv_loop]; [done|].
  apply IH, wrap_range. lia.
Qed.

(** ** Key names *)
Section keys.
Context {D : Doubles}.

(** The number that a key name shows. *)
Definition shown (w : CoreWorkload) (key_num : Z) : Z :=
  if ordered_inserts_ w then key_num else Hash key_num.

Definition zeros (w : CoreWorkload) (v : Z) : nat :=
  Z.to_nat (Z.max 0 (i32 (u64 (zero_padding_ w - Z.of_nat (length (to_string v)))))).

Lemma BuildKeyName_eq w a :
  BuildKeyName w a =
  lit "user" ++ replicate (zeros w (shown w a)) "0"%char ++ to_string (shown w a).
Proof. unfold BuildKeyName, shown, zeros. by destruct (ordered_inserts_ w). Qed.

Lemma shown_range w a : 0 ≤ a < 2 ^ 64 -> 0 ≤ shown w a < 2 ^ 64.
Proof. unfold shown, Hash. destruct (ordered_inserts_ w); [done|]. intros _. apply FNVHash64_range. Qed.

Lemma BuildKeyName_shown w a b :
  0 ≤ a < 2 ^ 64 -> 0 ≤ b < 2 ^ 64 -> BuildKeyName w a = BuildKeyName w b -> shown w a = shown w b.
Proof.
  intros Ha Hb. rewrite !BuildKeyName_eq. intros E%app_inv_head.
  apply (f_equal dval) in E. rewrite !dval_zeros in E. unfold to_string in E.
  by rewrite !utoa_value in E by (by apply shown_range).
Qed.

(** Padded, a number has [zero_padding_] digits. *)
Lemma padded_length w v :
  1 ≤ zero_padding_ w < 2 ^ 31 -> 0 ≤ v < 2 ^ 64 -> v < 10 ^ zero_padding_ w ->
  zlen (replicate (zeros w v) "0"%char ++ to_string v) = zero_padding_ w.
Proof.
  intros Hz Hv Hlt. unfold zeros. destruct (utoa_zlen v Hv) as (Hl & _ & Hlo).
  fold (to_string v) in *. fold (zlen (to_string v)).
  assert (zlen (to_string v) ≤ zero_padding_ w) as Hle.
  { destruct (decide (v = 0)) as [->|]; [change (zlen (to_string 0)) with 1; lia|].
    specialize (Hlo ltac:(lia)). destruct (Z.le_gt_cases (zlen (to_string v)) (zero_padding_ w)); [done|].
    assert (10 ^ zero_padding_ w ≤ 10 ^ (zlen (to_string v) - 1)); [|lia].
    apply Z.pow_le_mono_r; lia. }
  rewrite u64_small, i32_small by lia.
  rewrite zlen_app, zlen_replicate. lia.
Qed.

(** C28: Key names are in the order of the keys.  With ordered inserts, two
    keys of at most [zero_padding_] digits compare as strings, byte by byte,
    the way they compare as numbers; so a range of keys is a range of names. *)
Theorem key_names_sorted w a b :
  ordered_inserts_ w = true -> 1 ≤ zero_padding_ w < 2 ^ 31 ->
  0 ≤ a < 2 ^ 64 -> 0 ≤ b < 2 ^ 64 -> a < 10 ^ zero_padding_ w -> b < 10 ^ zero_padding_ w ->
  bytes_cmp (BuildKeyName w a) (BuildKeyName w b) = Z.compare a b.
Proof.
  intros Ho Hz Ha Hb Ha' Hb'. rewrite !BuildKeyName_eq. unfold shown. rewrite Ho.
  assert (∀ p s t, bytes_cmp (p ++ s) (p ++ t) = bytes_cmp s t) as Hp.
  { induction p as [|c p IH]; [done|]. intros s t. cbn. by rewrite Z.compare_refl. }
  rewrite Hp, digits_cmp.
  - rewrite !dval_zeros. unfold to_string. by rewrite !utoa_value.
  - apply Forall_app. split; [apply Forall_replicate; exact zero_digit|apply utoa_digits; lia].
  - apply Forall_app. split; [apply Forall_replicate; exact zero_digit|apply utoa_digits; lia].
  - apply Nat2Z.inj. fold (zlen (replicate (zeros w a) "0"%char ++ to_string a)).
    fold (zlen (replicate (zeros w b) "0"%char ++ to_string b)). by rewrite !padded_length.
Qed.

(** C20: Different records have different keys.  The key names of different
    numbers are different, whatever the zero padding: of all 64-bit numbers
    with ordered inserts, and with hashed inserts of all numbers below 2^32,
    more than [recordcount] and [operationcount] can reach from a start at 0:
    the FNV hash never maps two of them to one. *)
Theorem key_names_distinct w a b :
  let bound := if ordered_inserts_ w then 2 ^ 64 else 2 ^ 32 in
  0 ≤ a < bound -> 0 ≤ b < bound -> a ≠ b -> BuildKeyName w a ≠ BuildKeyName w b.
Proof.
  intros bound Ha Hb Hne E. assert (bound ≤ 2 ^ 64) by (unfold bound; destruct (ordered_inserts_ w); lia).
  apply BuildKeyName_shown in E; [|lia..]. unfold shown, bound in *.
  destruct (ordered_inserts_ w); [done|]. by apply Hash_inj in E.
Qed.
End keys.

(** ** What the random numbers promise

    Documented ranges: [uniform_real_distribution] draws from [0,1),
    [uniform_int_distribution] needs [min ≤ max] and draws from between, and
    [rand] is not negative. *)
Section draws.
Context {D : Doubles}.

Definition in_unit (d : double) : Prop := d_lt d (d_of_u64 0) = false ∧ d_lt d one = true.

Definition rnd_spec X (e : rnd X) (s : unit) : (X -> unit -> Prop) -> Prop :=
  match e in rnd X return (X -> unit -> Prop) -> Prop with
  | RandomDouble => λ P, ∀ d, in_unit d -> P d tt
  | uniform_int min max => λ P, min ≤ max ∧ ∀ v, min ≤ v ≤ max -> P v tt
  | rand => λ P, ∀ r, 0 ≤ r -> P r tt
  end.

Lemma rnd_spec_mono X (e : rnd X) s (P Q : X -> unit -> Prop) :
  rnd_spec X e s P -> (∀ x s', P x s' -> Q x s') -> rnd_spec X e s Q.
Proof. destruct e; cbn; naive_solver. Qed.

(** Every draw of [p] ends in [Q]. *)
Definition ends {A} (p : prog rnd A) (Q : A -> Prop) : Prop := dpost rnd_spec p (λ a _, Q a) tt.

Lemma ends_bind {A B} (p : prog rnd A) (f : A -> prog rnd B) Q :
  ends p (λ a, ends (f a) Q) -> ends (p ≫= f) Q.
Proof.
  intros H. apply dpost_bind; [apply rnd_spec_mono|].
  eapply dpost_mono; [apply rnd_spec_mono|exact H|]. by intros a [].
Qed.

Lemma ends_mono {A} (p : prog rnd A) (P Q : A -> Prop) :
  ends p P -> (∀ a, P a -> Q a) -> ends p Q.
Proof. intros H HPQ. eapply dpost_mono; [apply rnd_spec_mono|exact H|]. naive_solver. Qed.

(** Every number of a generator, now and later, is between [lo] and [hi]. *)
Definition ranged (basis : Z) (g : generator) (lo hi : Z) : Prop :=
  ∃ I : generator -> Prop, I g ∧
    ∀ g, I g -> ends (Next basis g) (λ r, lo ≤ r.1 ≤ hi ∧ I r.2).

Lemma ranged_next basis g lo hi :
  ranged basis g lo hi -> ends (Next basis g) (λ r, lo ≤ r.1 ≤ hi ∧ ranged basis r.2 lo hi).
Proof.
  intros (I & Hg & HI). eapply ends_mono; [by apply HI|]. intros [v g'] [Hv Hg']. split; [done|].
  by exists I.
Qed.

Lemma ranged_mono basis g lo hi lo' hi' :
  ranged basis g lo hi -> lo' ≤ lo -> hi ≤ hi' -> ranged basis g lo' hi'.
Proof.
  intros (I & Hg & HI) Hlo Hhi. exists I. split; [done|]. intros g' Hg'.
  eapply ends_mono; [by apply HI|]. intros r [Hr ?]. split; [lia|done].
Qed.

Lemma ranged_const basis c : ranged basis (ConstGenerator c) c c.
Proof. exists (λ g, g = ConstGenerator c). split; [done|]. intros g ->. cbn. split; [lia|done]. Qed.

Lemma ranged_uniform basis min max last :
  min ≤ max -> ranged basis (UniformGenerator min max last) min max.
Proof.
  intros Hm. exists (λ g, ∃ l, g = UniformGenerator min max l). split; [eauto|].
  intros g [l ->]. cbn. eauto.
Qed.

(** The term of the zipfian generator that [d_to_u64] may not represent. *)
Definition zipfian_value (z : zipfian) (num : Z) (u : double) : option Z :=
  d_to_u64 (d_add (d_of_u64 (base_ z))
    (d_mul (d_of_u64 num)
      (d_pow (d_add (d_sub (d_mul (eta_ z) u) (eta_ z)) one) (alpha_ z)))).

(** A built zipfian generator: its zeta is up to date. *)
Definition zipfian_ok (z : zipfian) : Prop :=
  2 ≤ num_items_ z < kMaxNumItems ∧ num_items_ z ≤ n_for_zeta_ z ∧
  ∀ u, in_unit u -> is_Some (zipfian_value z (num_items_ z) u).

Lemma zipfian_next_ok z :
  zipfian_ok z -> ends (zipfian_next (num_items_ z) z) (λ r, r.2 = set_last r.1 z ∧ zipfian_ok r.2).
Proof.
  intros Hok. pose proof Hok as (Hn & Hz & Hv). unfold zipfian_next, assert.
  rewrite (proj2 (andb_true_iff _ _)) by (split; [apply Z.leb_le|apply Z.ltb_lt]; lia).
  destruct (Z.ltb_spec (n_for_zeta_ z) (num_items_ z)) as [|_]; [lia|]. cbv zeta.
  intros u Hu. cbn. repeat case_match; try done.
  destruct (Hv u Hu) as [v Hv']. unfold zipfian_value in Hv'. by rewrite Hv'.
Qed.

(** Scrambled values are spread over the whole range, wherever the zipfian
    value was. *)
Lemma ranged_scrambled basis base n z :
  zipfian_ok z -> 0 ≤ base -> 0 < n -> base + n ≤ 2 ^ 64 ->
  ranged basis (ScrambledZipfianGenerator base n z) base (base + n - 1).
Proof.
  intros Hz Hb Hn Hmax. exists (λ g, ∃ z, g = ScrambledZipfianGenerator base n z ∧ zipfian_ok z).
  split; [eauto|]. intros g (z' & -> & Hz'). cbn [Next].
  apply ends_bind. eapply ends_mono; [by apply zipfian_next_ok|]. intros [v z''] [_ Hok]. cbn.
  split; [|eauto]. unfold Scramble. pose proof (Z.mod_pos_bound (FNVHash64 v) n Hn).
  rewrite u64_small; lia.
Qed.

(** A chooser whose weights leave no gap. *)
Definition total {V} (c : discrete V) : Prop :=
  ∀ u, in_unit u -> is_Some (choose (sum_ c) (values_ c) u).

Lemma discrete_next_total {V} (c : discrete V) :
  total c -> ends (discrete_next c) (λ r, total r.2).
Proof. intros Hc u Hu. destruct (Hc u Hu) as [v Hv]. cbn. rewrite Hv. cbn. exact Hc. Qed.
End draws.

(** ** Exact arithmetic

    An instance of the arithmetic: rational numbers, with a power that is
    only right for the exponents 0 and 1 (the power serves the zipfian
    generators alone). *)
Definition lt_bool (a b : Q) : bool := negb (Qle_bool b a).

Fixpoint decimal (s : text) (acc : Z) (scale : BinNums.positive) (point : bool) : exc Q :=
  match s with
  | [] => Val (acc # scale)
  | "."%char :: s' => if point then Throw "stod" else decimal s' acc scale true
  | a :: s' =>
      let d := Z.of_N (N_of_ascii a) - 48 in
      if (0 <=? d) && (d <=? 9) then
        decimal s' (acc * 10 + d) (if point then scale * 10 else scale)%positive point
      else Throw "stod"
  end.

Definition rationals : Doubles := {|
  double := Q;
  d_of_u64 := inject_Z;
  d_add := Qplus; d_sub := Qminus; d_mul := Qmult; d_div := Qdiv;
  d_pow := λ a b, if Qeq_bool b 0 then 1%Q else a;
  d_lt := lt_bool;
  d_to_u64 := λ q, let f := Qfloor q in if (0 <=? f) && (f <? 2 ^ 64) then Some f else None;
  kZipfianConst := 99 # 100;
  stod := λ s, decimal s 0 1 false
|}.

Lemma lt_bool_spec a b : reflect (a < b)%Q (lt_bool a b).
Proof.
  unfold lt_bool. destruct (Qle_bool b a) eqn:H; constructor.
  - apply Qle_bool_iff in H. by apply Qle_not_lt.
  - apply Qnot_le_lt. intros Hle%Qle_bool_iff. congruence.
Qed.

Section shares.
Local Existing Instance rationals.
Local Open Scope Q_scope.
Context {V : Type}.
Implicit Types (ws : list (V * Q)).

Definition weight ws : Q := foldr (λ w s, w.2 + s) 0 ws.

Lemma weight_cons v w ws : weight ((v, w) :: ws) = w + weight ws.
Proof. done. Qed.

Lemma weight_nonneg ws : Forall (λ w, 0 < w.2) ws -> 0 <= weight ws.
Proof.
  induction 1 as [|[v w] ws Hv _ IH]; [done|]. cbn [snd] in Hv. rewrite weight_cons. lra.
Qed.

(** A generator with the given weights. *)
Definition built ws : discrete V := foldl (λ c w, AddValue c w.1 w.2) new_discrete ws.

Lemma AddValues c ws :
  values_ (foldl (λ c w, AddValue c w.1 w.2) c ws) = values_ c ++ ws ∧
  sum_ (foldl (λ c w, AddValue c w.1 w.2) c ws) == sum_ c + weight ws.
Proof.
  revert c. induction ws as [|[v w] ws IH]; intros c; cbn [foldl fst snd].
  - rewrite app_nil_r. split; [done|]. symmetry. apply Qplus_0_r.
  - destruct (IH (AddValue c v w)) as [-> ->]. cbn. split; [by rewrite <-app_assoc|].
    symmetry. apply Qplus_assoc.
Qed.

Lemma choose_shares ws sum u :
  0 < sum -> Forall (λ w, 0 <= w.2) ws -> 0 <= u -> u < weight ws / sum ->
  ∃ ws1 v w ws2, ws = ws1 ++ (v, w) :: ws2 ∧ choose sum ws u = Some v ∧
    weight ws1 / sum <= u ∧ u < (weight ws1 + w) / sum.
Proof.
  intros Hs Hw. revert u. induction Hw as [|[v w] ws Hvw _ IH]; intros u Hu Hlt.
  { exfalso. apply (Qlt_not_le _ _ Hlt). unfold Qdiv. by rewrite Qmult_0_l. }
  assert (∀ a b, (a + b) / sum == a / sum + b / sum) as Hdiv.
  { intros a b. unfold Qdiv. ring. }
  rewrite weight_cons in Hlt. cbn [snd] in Hvw. cbn [choose d_lt d_div rationals].
  destruct (lt_bool_spec u (w / sum)) as [Hl|Hl].
  - exists [], v, w, ws. split; [done|]. split; [done|]. cbn. split.
    + unfold Qdiv. by rewrite Qmult_0_l.
    + by rewrite Qplus_0_l.
  - apply Qnot_lt_le in Hl. rewrite Hdiv in Hlt.
    destruct (IH (u - w / sum)) as (ws1 & v' & w' & ws2 & -> & Hc & H1 & H2).
    + lra.
    + lra.
    + exists ((v, w) :: ws1), v', w', ws2. split; [done|]. split; [done|].
      rewrite weight_cons, !Hdiv in *. split; lra.
Qed.

Lemma built_shares ws u :
  Forall (λ w, 0 < w.2) ws -> ws ≠ [] -> 0 <= u -> u < 1 ->
  ∃ ws1 v w ws2, ws = ws1 ++ (v, w) :: ws2 ∧ choose (sum_ (built ws)) (values_ (built ws)) u = Some v ∧
    values_ (built ws) = ws ∧ weight ws1 / weight ws <= u ∧ u < (weight ws1 + w) / weight ws.
Proof.
  intros Hw Hne Hu Hu1.
  assert (0 < weight ws) as Hs.
  { destruct Hw as [|[v w] ws Hv Hw]; [done|]. cbn [snd] in Hv.
    pose proof (weight_nonneg _ Hw) as Hws. rewrite weight_cons. lra. }
  assert (values_ (built ws) = ws) as Hval by exact (proj1 (AddValues new_discrete ws)).
  assert (sum_ (built ws) == weight ws) as Hsum.
  { etransitivity; [exact (proj2 (AddValues new_discrete ws))|apply Qplus_0_l]. }
  destruct (choose_shares ws (sum_ (built ws)) u) as (ws1 & v & w & ws2 & E & Hc & H1 & H2).
  - by rewrite Hsum.
  - eapply Forall_impl; [exact Hw|]. intros vw. apply Qlt_le_weak.
  - done.
  - rewrite Hsum. unfold Qdiv. rewrite Qmult_inv_r; [done|]. lra.
  - exists ws1, v, w, ws2. rewrite Hval. rewrite Hsum in H1, H2. done.
Qed.
End shares.

(** C29: In exact arithmetic the discrete generator never reaches its failing
    assertion, and every operation has the share of its weight: the number
    [u] drawn from [0,1) chooses the value whose weight, over the sum of all,
    covers [u] when the weights are laid end to end in their order. *)
Theorem discrete_shares {V} (ws : list (V * Q)) (u : Q) :
  Forall (λ w, 0 < w.2)%Q ws -> ws ≠ [] -> (0 <= u)%Q -> (u < 1)%Q ->
  ∃ ws1 v w ws2 c, ws = ws1 ++ (v, w) :: ws2 ∧
    traces (@discrete_next rationals V (built ws)) [Ev (@RandomDouble rationals) u] (v, c) ∧
    values_ c = ws ∧ (weight ws1 / weight ws <= u)%Q ∧ (u < (weight ws1 + w) / weight ws)%Q.
Proof.
  intros Hw Hne Hu Hu1.
  destruct (built_shares ws u Hw Hne Hu Hu1) as (ws1 & v & w & ws2 & E & Hc & Hval & H1 & H2).
  exists ws1, v, w, ws2, (Discrete (values_ (built ws)) (sum_ (built ws)) (Some v)).
  split; [done|]. split; [|done]. exists u, []. split; [done|]. cbn. by rewrite Hc.
Qed.

Lemma discrete_shares_witness :
  let ws := [(READ, 95 # 100); (UPDATE, 5 # 100)]%Q in
  ∃ ws1 v w ws2 c, ws = ws1 ++ (v, w) :: ws2 ∧
    traces (@discrete_next rationals Operation (built ws)) [Ev (@RandomDouble rationals) (96 # 100)] (v, c) ∧
    values_ c = ws ∧ (weight ws1 / weight ws <= 96 # 100)%Q ∧ (96 # 100 < (weight ws1 + w) / weight ws)%Q.
Proof.
  cbv zeta. apply (discrete_shares [(READ, 95 # 100); (UPDATE, 5 # 100)]%Q (96 # 100)).
  - repeat constructor.
  - done.
  - by vm_compute.
  - by vm_compute.
Defined.

Definition padded_workload : @CoreWorkload rationals :=
  Workload (lit "usertable") 10 true false (ConstGenerator 100) (CounterGenerator 0)
    (built [(READ, 95 # 100); (UPDATE, 5 # 100)]%Q)
    (UniformGenerator 0 999 0) (UniformGenerator 0 9 0) (UniformGenerator 1 1000 1) 1000 true 1000 5.

Lemma key_names_sorted_witness :
  bytes_cmp (BuildKeyName padded_workload 99) (BuildKeyName padded_workload 100) = Z.compare 99 100.
Proof. apply (key_names_sorted padded_workload 99 100); [done|cbn; lia..]. Defined.

(** The last numbers of the first octets, hashed. *)
Lemma key_names_distinct_witness :
  let w : @CoreWorkload rationals :=
    Workload (lit "usertable") 1 true false (ConstGenerator 1) (CounterGenerator 0) (built [])
      (UniformGenerator 0 0 0) (UniformGenerator 0 0 0) (UniformGenerator 1 1 1) 1 false 1 1 in
  BuildKeyName w 255 ≠ BuildKeyName w (2 ^ 32 - 1).
Proof. intros w. apply (key_names_distinct w 255 (2 ^ 32 - 1)); cbn; lia. Defined.
