(* ===== verification/Driver.v ===== *)
(** * Driver: the command line and the choice of a database (ycsbc.cc, db/db_factory.cc)

    [ParseCommandLine] over a file system that is a parameter, the factory of
    databases, and the start of [main].  [exit] and an exception that is not
    caught are endings of the program.  Printing is not modelled. *)

From Stdlib Require Import ZArith Lia Ascii.
From stdpp Require Import base list strings gmap.
From S2P Require Import Prelude YcsbUtils Workload.

Inductive ending (A : Type) : Type :=
  | Returns (a : A)
  | Exits                        (* [exit(0)] *)
  | Throws (message : string).
Arguments Returns {A} a.
Arguments Exits {A}.
Arguments Throws {A} message.

Global Instance ending_ret : MRet ending := λ A a, Returns a.
Global Instance ending_bind : MBind ending := λ A B f m,
  match m with Returns a => f a | Exits => Exits | Throws s => Throws s end.

(** An exception that nothing catches. *)
Definition uncaught {A} (e : exc A) : ending A :=
  match e with Val a => Returns a | Throw s => Throws s end.

Fixpoint StrStartWith (str pre : text) : bool :=
  match pre, str with
  | [], _ => true
  | _ :: _, [] => false
  | b :: pre', a :: str' => Ascii.eqb a b && StrStartWith str' pre'
  end.

Section driver.
(** The contents of the file of a name; [None]: it cannot be opened. *)
Variable files : text -> option text.

(** The options that set a property to their value, tested in this order. *)
Definition option_property (arg : text) : option text :=
  if bool_decide (arg = lit "-threads") then Some (lit "threadcount")
  else if bool_decide (arg = lit "-db") then Some (lit "dbname")
  else if bool_decide (arg = lit "-host") then Some (lit "host")
  else if bool_decide (arg = lit "-port") then Some (lit "port")
  else if bool_decide (arg = lit "-slaves") then Some (lit "slaves")
  else None.

(** The loop from the argument [argindex] on, of which [args] are left. *)
Fixpoint parse_loop (args : list text) (argindex : nat) (filename : text) (props : Properties)
    : ending (list text * nat * text * Properties) :=
  match args with
  | arg :: rest =>
      if StrStartWith arg (lit "-") then
        match option_property arg with
        | Some key =>
            match rest with
            | [] => Exits
            | value :: rest' => parse_loop rest' (2 + argindex) filename (SetProperty props key value)
            end
        | None =>
            if bool_decide (arg = lit "-P") then
              match rest with
              | [] => Exits
              | name :: rest' =>
                  props ← uncaught (Load props (files name));
                  parse_loop rest' (2 + argindex) name props
              end
            else Exits
        end
      else Returns (args, argindex, filename, props)
  | [] => Returns (args, argindex, filename, props)
  end.

(** [args] are the arguments after the name of the command. *)
Definition ParseCommandLine (args : list text) (props : Properties) : ending (text * Properties) :=
  '(args, argindex, filename, props) ← parse_loop args 1 [] props;
  if Nat.eqb argindex 1 || negb (bool_decide (args = [])) then Exits else Returns (filename, props).

(** ** db_factory.cc *)
Inductive DB :=
  | BasicDB
  | LockStlDB
  | RedisDB (host : text) (port slaves : Z)
  | TbbRandDB
  | TbbScanDB.

(** Whether the program is compiled with TBB. *)
Variable USE_TBB : bool.

(** [None] is NULL. *)
Definition CreateDB (props : Properties) : exc (option DB) :=
  let dbname := GetProperty props (lit "dbname") [] in
  if bool_decide (dbname = lit "basic") then Val (Some BasicDB)
  else if bool_decide (dbname = lit "lock_stl") then Val (Some LockStlDB)
  else if bool_decide (dbname = lit "redis") then
    port ← stoi (prop props "port" "6379");
    slaves ← stoi (prop props "slaves" "0");
    Val (Some (RedisDB (prop props "host" "127.0.0.1") port slaves))
  else if USE_TBB && bool_decide (dbname = lit "tbb_rand") then Val (Some TbbRandDB)
  else if USE_TBB && bool_decide (dbname = lit "tbb_scan") then Val (Some TbbScanDB)
  else Val None.

(** The start of [main]: without a database it prints the name and exits. *)
Definition start (args : list text) : ending (text * Properties * DB) :=
  '(file_name, props) ← ParseCommandLine args ∅;
  db ← uncaught (CreateDB props);
  match db with
  | None => _ ← uncaught (property_at props (lit "dbname")); Exits
  | Some db => Returns (file_name, props, db)
  end.

(** ** What the command line says *)

(** An option with its value. *)
Inductive setting :=
  | Set_property (arg key value : text)
  | Load_file (name : text).

Definition well_formed (s : setting) : Prop :=
  match s with Set_property arg key _ => option_property arg = Some key | Load_file _ => True end.

Definition arguments (s : setting) : list text :=
  match s with Set_property arg _ value => [arg; value] | Load_file name => [lit "-P"; name] end.

(** The effect of the settings from left to right: the last file, and the
    properties, or the exception of the first file that is not open. *)
Fixpoint settle (ss : list setting) (filename : text) (props : Properties) : ending (text * Properties) :=
  match ss with
  | [] => Returns (filename, props)
  | Set_property _ key value :: ss' => settle ss' filename (SetProperty props key value)
  | Load_file name :: ss' => props ← uncaught (Load props (files name)); settle ss' name props
  end.

Lemma option_starts arg key : option_property arg = Some key -> StrStartWith arg (lit "-") = true.
Proof.
  unfold option_property. repeat case_bool_decide; intros [= <-]; subst; done.
Qed.

Lemma parse_settings ss rest n filename props :
  Forall well_formed ss ->
  parse_loop (concat (arguments <$> ss) ++ rest) n filename props =
  '(filename, props) ← settle ss filename props;
  parse_loop rest (2 * length ss + n) filename props.
Proof.
  intros Hss. revert n filename props. induction Hss as [|s ss Hs _ IH]; intros n filename props; [done|].
  destruct s as [arg key value|name]; cbn [fmap list_fmap concat arguments app parse_loop settle length].
  - cbn in Hs. rewrite (option_starts _ _ Hs), Hs, IH. destruct (settle _ _ _) as [[f p]| |]; [|done..].
    cbn. f_equal. lia.
  - change (StrStartWith (lit "-P") (lit "-")) with true. change (option_property (lit "-P")) with (@None text).
    rewrite bool_decide_true by done. destruct (uncaught _) as [p| |]; [|done..]. cbn [mbind ending_bind].
    rewrite IH. destruct (settle _ _ _) as [[f p']| |]; [|done..]. cbn. f_equal. lia.
Qed.

(** The arguments are settings, and then something that is not an option
    with its value. *)
Lemma parse_split args :
  ∃ ss rest, args = concat (arguments <$> ss) ++ rest ∧ Forall well_formed ss ∧
    (∀ n filename props, parse_loop rest n filename props = Exits ∨
       parse_loop rest n filename props = Returns (rest, n, filename, props)) ∧
    (rest = [] -> ∀ n filename props, parse_loop rest n filename props = Returns (rest, n, filename, props)).
Proof.
  induction args as [args IH] using (induction_ltof1 _ length). unfold ltof in IH.
  destruct args as [|arg args].
  { exists [], []. split_and!; try done. by right. }
  assert (∀ s v args', args = v :: args' -> well_formed s -> arguments s = [arg; v] ->
    ∃ ss rest, arg :: args = concat (arguments <$> ss) ++ rest ∧ Forall well_formed ss ∧
      (∀ n filename props, parse_loop rest n filename props = Exits ∨
         parse_loop rest n filename props = Returns (rest, n, filename, props)) ∧
      (rest = [] -> ∀ n filename props, parse_loop rest n filename props = Returns (rest, n, filename, props))) as Hopt.
  { intros s v args' -> Hs Ha. destruct (IH args') as (ss & rest & -> & Hss & H); [cbn; lia|].
    exists (s :: ss), rest. split; [cbn; by rewrite Ha|]. split; [by constructor|done]. }
  destruct (option_property arg) as [key|] eqn:Hk.
  { destruct args as [|v args']; [|by apply (Hopt (Set_property arg key v) v args')].
    exists [], [arg]. split_and!; try done. intros. left. cbn [parse_loop]. by rewrite (option_starts _ _ Hk), Hk. }
  destruct (decide (arg = lit "-P")) as [->|HP].
  { destruct args as [|v args']; [|by apply (Hopt (Load_file v) v args')].
    exists [], [lit "-P"]. split_and!; try done. by left. }
  exists [], (arg :: args). split_and!; try done. intros. cbn [parse_loop].
  rewrite Hk, bool_decide_false by done. destruct (StrStartWith _ _); [by left|by right].
Qed.

Lemma ParseCommandLine_settle ss props :
  ss ≠ [] -> Forall well_formed ss ->
  ParseCommandLine (concat (arguments <$> ss)) props = settle ss [] props.
Proof.
  intros Hne Hss. unfold ParseCommandLine. rewrite <-(app_nil_r (concat _)), parse_settings by done.
  destruct (settle ss [] props) as [[f p]| |]; [|done..]. cbn. destruct ss as [|s ss]; [done|].
  by replace (length (s :: ss) + (length (s :: ss) + 0) + 1)%nat with (S (S (2 * length ss + 1))) by (cbn; lia).
Qed.

(** C31: The command line is a list of options with their values, and nothing
    else.  [ParseCommandLine] returns exactly when its arguments are one or
    more settings and every named file can be read; the result is the last
    file name and the properties after all settings from left to right, later
    ones winning.  An empty command line, an option without a value, an
    unknown option and a stray argument end the program. *)
Theorem ParseCommandLine_settings args props r :
  ParseCommandLine args props = Returns r <->
  ∃ ss, ss ≠ [] ∧ Forall well_formed ss ∧ args = concat (arguments <$> ss) ∧
    settle ss [] props = Returns r.
Proof.
  split; [|by intros (ss & Hne & Hss & -> & <-); apply ParseCommandLine_settle].
  destruct (parse_split args) as (ss & rest & -> & Hss & Hrest & _). intros H.
  assert (rest = [] ∧ ss ≠ []) as [-> Hne].
  { unfold ParseCommandLine in H. rewrite parse_settings in H by done.
    destruct (settle ss [] props) as [[f p]| |]; cbn in H; [|done..].
    destruct (Hrest (length ss + (length ss + 0) + 1)%nat f p) as [E|E]; rewrite E in H; cbn in H; [done|].
    destruct (decide (rest = [])) as [->|Hne]; [|rewrite bool_decide_false, orb_true_r in H by done; done].
    split; [done|]. intros ->. done. }
  exists ss. rewrite app_nil_r in *. split_and!; try done. by rewrite <-ParseCommandLine_settle.
Qed.

(** There is no default database.  The usage text promises "basic"; with
    settings that do not set [dbname], the factory returns NULL, and the
    message that [main] then prints looks the name up and throws. *)
Theorem no_default_database ss f p :
  ss ≠ [] -> Forall well_formed ss -> settle ss [] ∅ = Returns (f, p) -> p !! lit "dbname" = None ->
  start (concat (arguments <$> ss)) = Throws "map::at".
Proof.
  intros Hne Hss Hs Hp. unfold start. rewrite ParseCommandLine_settle, Hs by done.
  cbn [mbind ending_bind]. unfold CreateDB, property_at, GetProperty. rewrite Hp. by destruct USE_TBB.
Qed.
End driver.

Lemma no_default_database_witness :
  start (λ _, None) true (concat (arguments <$> [Set_property (lit "-threads") (lit "threadcount") (lit "4")]))
  = Throws "map::at".
Proof.
  apply (no_default_database (λ _, None) true [Set_property (lit "-threads") (lit "threadcount") (lit "4")]
           [] {[lit "threadcount" := lit "4"]}); [by vm_compute|constructor; [by vm_compute|constructor]|by vm_compute|by vm_compute].
Defined.
