(* ===== verification/Client.v ===== *)
(** * Client: the transactions of YCSB-C (core/client.h, ycsbc.cc)

    A client draws keys, values and operations from the workload and calls
    the database, which is an interface: the operations of HashtableOps.v. *)

From Stdlib Require Import ZArith Lia Ascii.
From stdpp Require Import base list strings gmap.
From S2P Require Import Prelude Calls YcsbUtils Generators Workload HashtableDb HashtableOps.

Section client.
Context {D : Doubles}.

Inductive client_call : Type -> Type :=
  | draws {X} (e : rnd X) : client_call X
  | on_db (o : op) : client_call result.

(** The workload's draws, made by a client. *)
Definition workload_ {A} (p : prog rnd A) : prog client_call A := translate (@draws) p.

(** Text as the strings of the database. *)
Definition str (s : text) : string := String.string_of_list_ascii s.
Definition str_pairs (ps : pairs) : list KVPair := (λ p, (str p.1, str p.2)) <$> ps.

Definition db_Read (table key : text) (fields : option (list text)) : prog client_call Z :=
  r ← call (on_db (ORead (str table) (str key) (map str <$> fields))); mret r.1.
Definition db_Scan (table key : text) (len : Z) (fields : option (list text)) : prog client_call Z :=
  r ← call (on_db (OScan (str table) (str key) len (map str <$> fields))); mret r.1.
Definition db_Update (table key : text) (values : pairs) : prog client_call Z :=
  r ← call (on_db (OUpdate (str table) (str key) (str_pairs values))); mret r.1.
Definition db_Insert (table key : text) (values : pairs) : prog client_call Z :=
  r ← call (on_db (OInsert (str table) (str key) (str_pairs values))); mret r.1.

Definition DoInsert (w : CoreWorkload) : prog client_call (bool * CoreWorkload) :=
  '(key, w) ← workload_ (NextSequenceKey w);
  '(values, w) ← workload_ (BuildValues w);
  z ← db_Insert (table_name_ w) key values;
  mret (z =? kOK, w).

(** The fields of a read: all, or one, whose name gets the prefix twice. *)
Definition read_fields (w : CoreWorkload) : prog client_call (option (list text) * CoreWorkload) :=
  if negb (read_all_fields_ w) then
    '(f, w) ← workload_ (NextFieldName w);
    mret (Some [lit "field" ++ f], w)
  else mret (None, w).

(** The values of a write: all fields, or one. *)
Definition write_values (w : CoreWorkload) : prog client_call (pairs * CoreWorkload) :=
  workload_ (if write_all_fields_ w then BuildValues w else BuildUpdate w).

Section transactions.
(** The draws that the loop of [NextTransactionKey] may make. *)
Variable fuel : nat.

Definition TransactionRead (w : CoreWorkload) : prog client_call (Z * CoreWorkload) :=
  '(key, w) ← workload_ (NextTransactionKey fuel w);
  '(fields, w) ← read_fields w;
  z ← db_Read (table_name_ w) key fields;
  mret (z, w).

Definition TransactionReadModifyWrite (w : CoreWorkload) : prog client_call (Z * CoreWorkload) :=
  '(key, w) ← workload_ (NextTransactionKey fuel w);
  '(fields, w) ← read_fields w;
  _ ← db_Read (table_name_ w) key fields;
  '(values, w) ← write_values w;
  z ← db_Update (table_name_ w) key values;
  mret (z, w).

Definition TransactionScan (w : CoreWorkload) : prog client_call (Z * CoreWorkload) :=
  '(key, w) ← workload_ (NextTransactionKey fuel w);
  '(n, w) ← workload_ (NextScanLength w);
  '(fields, w) ← read_fields w;
  z ← db_Scan (table_name_ w) key (i32 n) fields;
  mret (z, w).

Definition TransactionUpdate (w : CoreWorkload) : prog client_call (Z * CoreWorkload) :=
  '(key, w) ← workload_ (NextTransactionKey fuel w);
  '(values, w) ← write_values w;
  z ← db_Update (table_name_ w) key values;
  mret (z, w).

Definition TransactionInsert (w : CoreWorkload) : prog client_call (Z * CoreWorkload) :=
  '(key, w) ← workload_ (NextSequenceKey w);
  '(values, w) ← workload_ (BuildValues w);
  z ← db_Insert (table_name_ w) key values;
  mret (z, w).

Definition transaction (op : Operation) : CoreWorkload -> prog client_call (Z * CoreWorkload) :=
  match op with
  | READ => TransactionRead
  | UPDATE => TransactionUpdate
  | INSERT => TransactionInsert
  | SCAN => TransactionScan
  | READMODIFYWRITE => TransactionReadModifyWrite
  end.

Definition DoTransaction (w : CoreWorkload) : prog client_call (bool * CoreWorkload) :=
  '(op, w) ← workload_ (NextOperation w);
  '(status, w) ← transaction op w;
  if 0 <=? status then mret (status =? kOK, w) else undef.

(** The loop of [DelegateClient] in ycsbc.cc, which counts the successes. *)
Fixpoint DelegateClient (num_ops : nat) (is_loading : bool) (oks : Z) (w : CoreWorkload)
    : prog client_call (Z * CoreWorkload) :=
  match num_ops with
  | O => mret (oks, w)
  | S n =>
      '(ok, w) ← (if is_loading then DoInsert w else DoTransaction w);
      DelegateClient n is_loading (i32 (oks + Z.b2z ok)) w
  end.

(** [main] with one thread: the workload is set up, the records are loaded
    and the transactions run.  [None] stands for more threads, which share
    the workload: Threads.v. *)
Definition main_one_thread (new_keys_of : Z -> double -> option Z) (p : Properties)
    : prog client_call (exc (option (Z * Z))) :=
  wl ← workload_ (Init new_keys_of p);
  attempt wl (λ w,
  attempt (stoi (prop p "threadcount" "1")) (λ num_threads,
  if negb (num_threads =? 1) then mret (Val None) else
  attempt (property_at p (lit RECORD_COUNT_PROPERTY) ≫= stoi) (λ total_ops,
  '(loaded, w) ← DelegateClient (Z.to_nat total_ops) true 0 w;
  attempt (property_at p (lit OPERATION_COUNT_PROPERTY) ≫= stoi) (λ total_ops,
  '(sum, w) ← DelegateClient (Z.to_nat total_ops) false 0 w;
  mret (Val (Some (loaded, sum))))))).
End transactions.
End client.
