(* ===== verification/WorkloadRun.v ===== *)
(** * WorkloadRun: loading records and running transactions (core/client.h)

    Against the interface of the database, a client's load inserts every
    record and every transaction on the loaded records succeeds. *)

From Stdlib Require Import ZArith Lia Ascii.
From stdpp Require Import base list list_numbers strings gmap sets fin_maps fin_map_dom.
From S2P Require Import Prelude Libc Printf Calls YcsbUtils Fnv Generators Workload WorkloadSpec.
From S2P Require Import Table HashtableDb HashtableOps Client.

(** ** Text without NUL *)
Definition clean (s : text) : Prop := Forall (λ a, Ascii.eqb a Ascii.zero = false) s.

Lemma str_app a b : str (a ++ b) = (str a ++ str b)%string.
Proof. unfold str. induction a as [|x a IH]; [done|]. cbn. by rewrite IH. Qed.

Lemma str_inj a b : str a = str b -> a = b.
Proof.
  unfold str. revert b. induction a as [|x a IH]; intros [|y b]; cbn; try done.
  intros [= -> H]. f_equal. by apply IH.
Qed.

Lemma c_str_clean s : clean s -> c_str (str s) = str s.
Proof. unfold str. induction 1 as [|x s Hx _ IH]; [done|]. cbn. rewrite Hx. by f_equal. Qed.

Lemma digits_clean s : Forall is_digit s -> clean s.
Proof.
  intros Hs. eapply Forall_impl; [exact Hs|]. intros a Ha. destruct (Ascii.eqb_spec a Ascii.zero) as [->|]; [|done].
  unfold is_digit in Ha. vm_compute in Ha. by destruct Ha.
Qed.

Lemma field_name_clean n : 0 ≤ n -> clean (field_name n).
Proof.
  intros Hn. apply Forall_app. split; [by repeat constructor|]. by apply digits_clean, utoa_digits.
Qed.

(** ** The interface: the workload's draws and a database *)
Section client.
Context {D : Doubles}.

Definition client_spec X (e : client_call X) (db : database) : (X -> database -> Prop) -> Prop :=
  match e in client_call X return (X -> database -> Prop) -> Prop with
  | draws e => λ P, rnd_spec _ e tt (λ x _, P x db)
  | on_db o => λ P, lossless db o ∧ small db ∧ ∀ r db', op_spec db o r db' -> P r db'
  end.

Lemma client_spec_mono X (e : client_call X) db (P Q : X -> database -> Prop) :
  client_spec X e db P -> (∀ x db', P x db' -> Q x db') -> client_spec X e db Q.
Proof.
  destruct e as [X e|o]; cbn.
  - intros H HPQ. eapply rnd_spec_mono; [exact H|]. eauto.
  - intros (Hok & Hs & H) HPQ. eauto.
Qed.

Abbreviation post := (dpost client_spec).

Lemma post_bind {A B} (p : prog client_call A) (f : A -> prog client_call B) Q db :
  post p (λ a db', post (f a) Q db') db -> post (p ≫= f) Q db.
Proof. apply dpost_bind, client_spec_mono. Qed.

Lemma post_mono {A} (p : prog client_call A) (P Q : A -> database -> Prop) db :
  post p P db -> (∀ a db', P a db' -> Q a db') -> post p Q db.
Proof. apply dpost_mono, client_spec_mono. Qed.

Lemma post_draws {A} (p : prog rnd A) (Q : A -> database -> Prop) db :
  ends p (λ a, Q a db) -> post (workload_ p) Q db.
Proof.
  unfold ends, workload_. induction p as [a|X e k IH|]; cbn; [done| |done].
  intros H. eapply rnd_spec_mono; [exact H|]. intros x []. apply IH.
Qed.

(** ** What a workload needs *)

(** The parts that the draws do not change. *)
Definition static (w : CoreWorkload) :=
  ((table_name_ w, field_count_ w), (read_all_fields_ w, write_all_fields_ w),
   (insert_key_sequence_ w, ordered_inserts_ w, zero_padding_ w)).

Record ready (w : CoreWorkload) : Prop := {
  rd_count : 0 ≤ field_count_ w < 2 ^ 31;
  rd_table : clean (table_name_ w);
  rd_seq : 0 < insert_key_sequence_ w < 2 ^ 64;
  rd_len : ∃ lo hi, ranged (insert_key_sequence_ w) (field_len_generator_ w) lo hi;
  rd_ops : total (op_chooser_ w);
  rd_keys : ranged (insert_key_sequence_ w) (key_chooser_ w) 0 (insert_key_sequence_ w - 1);
  rd_field : ranged (insert_key_sequence_ w) (field_chooser_ w) 0 (field_count_ w - 1);
  rd_scan : ∃ lo hi, ranged (insert_key_sequence_ w) (scan_len_chooser_ w) lo hi
}.

(** [w'] is [w] after some draws, and its next new key is [n]. *)
Record after (w : CoreWorkload) (n : Z) (w' : CoreWorkload) : Prop := {
  af_static : static w' = static w;
  af_ready : ready w';
  af_next : key_generator_ w' = CounterGenerator n
}.

Lemma after_trans w n w1 m w2 : after w n w1 -> after w1 m w2 -> after w m w2.
Proof. intros [H1 _ _] [H2 ? ?]. split; [congruence|done..]. Qed.

(** ** Draws of the workload *)
Lemma BuildKeyName_static w w' k : static w' = static w -> BuildKeyName w' k = BuildKeyName w k.
Proof. unfold BuildKeyName. by intros [= _ _ _ _ _ -> ->]. Qed.

(** Closes [after w n (set_… g w)]: only a generator is new, and it is in its range. *)
Ltac same_workload := split; [done|split; cbn; eauto|done].

Lemma field_value_ok w n :
  ready w -> key_generator_ w = CounterGenerator n -> ends (field_value w) (λ r, after w n r.2).
Proof.
  intros [] Hn. destruct rd_len0 as (lo & hi & Hr). apply ends_bind.
  eapply ends_mono; [by apply ranged_next|]. intros [v g] [_ Hg] r _. same_workload.
Qed.

Lemma values_loop_ok n k i w values :
  ready w -> key_generator_ w = CounterGenerator k ->
  ends (values_loop n i w values)
    (λ r, after w k r.2 ∧ r.1.*1 = values.*1 ++ (field_name <$> seqZ i (Z.of_nat n))).
Proof.
  revert i w values. induction n as [|n IH]; intros i w values Hw Hk.
  - split; [by split|]. cbn. by rewrite app_nil_r.
  - cbn [values_loop]. apply ends_bind. eapply ends_mono; [by eapply field_value_ok|].
    intros [v w1] H1. eapply ends_mono; [apply IH; apply H1|].
    intros [vs w2] [H2 Hvs]. cbn in *. split; [by eapply after_trans|].
    rewrite Hvs, fmap_app, <-app_assoc. f_equal. rewrite (seqZ_cons i) by lia. cbn. by rewrite <-Nat2Z.inj_pred by lia.
Qed.

(** The fields of a full record. *)
Definition field_names (w : CoreWorkload) : list text := field_name <$> seqZ 0 (field_count_ w).

Lemma BuildValues_ok w n :
  ready w -> key_generator_ w = CounterGenerator n ->
  ends (BuildValues w) (λ r, after w n r.2 ∧ r.1.*1 = field_names w).
Proof.
  intros Hw Hn. eapply ends_mono; [by eapply values_loop_ok|]. intros r [H1 ->]. split; [done|].
  cbn. unfold field_names. pose proof (rd_count _ Hw). by rewrite Z2Nat.id by lia.
Qed.

Lemma NextFieldName_ok w n :
  ready w -> key_generator_ w = CounterGenerator n ->
  ends (NextFieldName w) (λ r, after w n r.2 ∧ r.1 ∈ field_names w).
Proof.
  intros [] Hn. apply ends_bind. eapply ends_mono; [by apply ranged_next|].
  intros [v g] [Hv Hg]. cbn in Hv. split; [same_workload|]. cbn.
  apply list_elem_of_fmap. exists v. split; [done|]. apply elem_of_seqZ. lia.
Qed.

Lemma BuildUpdate_ok w n :
  ready w -> key_generator_ w = CounterGenerator n ->
  ends (BuildUpdate w) (λ r, after w n r.2 ∧ ∃ f, r.1.*1 = [f] ∧ f ∈ field_names w).
Proof.
  intros Hw Hn. apply ends_bind. eapply ends_mono; [by eapply NextFieldName_ok|].
  intros [f w1] [H1 Hf]. apply ends_bind. eapply ends_mono; [eapply field_value_ok; apply H1|].
  intros [v w2] H2. split; [by eapply after_trans|]. by exists f.
Qed.

Lemma NextScanLength_ok w n :
  ready w -> key_generator_ w = CounterGenerator n -> ends (NextScanLength w) (λ r, after w n r.2).
Proof.
  intros [] Hn. destruct rd_scan0 as (lo & hi & Hr). apply ends_bind.
  eapply ends_mono; [by apply ranged_next|]. intros [v g] [_ Hg]. same_workload.
Qed.

Lemma NextOperation_ok w n :
  ready w -> key_generator_ w = CounterGenerator n -> ends (NextOperation w) (λ r, after w n r.2).
Proof.
  intros [] Hn. apply ends_bind. eapply ends_mono; [by apply discrete_next_total|].
  intros [v c] Hc. same_workload.
Qed.

Lemma NextSequenceKey_ok w n :
  ready w -> key_generator_ w = CounterGenerator n -> 0 ≤ n < 2 ^ 64 - 1 ->
  ends (NextSequenceKey w) (λ r, after w (n + 1) r.2 ∧ r.1 = BuildKeyName w n).
Proof.
  intros [] Hn Hr. unfold NextSequenceKey, draw. rewrite Hn. cbn. rewrite u64_small by lia.
  split; [same_workload|done].
Qed.

(** The first number is taken: it is the number of a loaded record. *)
Lemma NextTransactionKey_ok fuel w n :
  ready w -> key_generator_ w = CounterGenerator n ->
  ends (NextTransactionKey (S fuel) w)
    (λ r, after w n r.2 ∧ ∃ i, 0 ≤ i < insert_key_sequence_ w ∧ r.1 = BuildKeyName w i).
Proof.
  intros [] Hn. apply ends_bind. cbn [transaction_loop]. apply ends_bind.
  eapply ends_mono; [by apply ranged_next|]. intros [v g] [Hv Hg]. cbn in Hv |- *.
  unfold counter_last. rewrite u64_small by lia. rewrite (proj2 (Z.ltb_ge _ _)) by lia.
  split; [same_workload|]. exists v. split; [lia|done].
Qed.

(** ** Full records *)
Lemma field_names_clean w : Forall clean (field_names w).
Proof.
  apply Forall_fmap, Forall_forall. intros n Hn%elem_of_seqZ. apply field_name_clean. lia.
Qed.

Lemma field_names_distinct w : field_count_ w < 2 ^ 64 -> NoDup (str <$> field_names w).
Proof.
  intros Hc. unfold field_names. rewrite <-list_fmap_compose.
  apply NoDup_fmap_2_strong; [|apply NoDup_seqZ].
  intros a b Ha%elem_of_seqZ Hb%elem_of_seqZ E%str_inj. apply field_name_inj in E; lia.
Qed.

Lemma field_names_nodup w : ready w -> NoDup (str <$> field_names w).
Proof. intros [Hc _ _ _ _ _ _ _]. apply field_names_distinct. lia. Qed.

(** The names of the fields, as the database has them. *)
Lemma names_of vs l :
  vs.*1 = l -> Forall clean l -> (λ v, c_str v.1) <$> str_pairs vs = str <$> l.
Proof.
  intros <- Hl. unfold str_pairs. rewrite <-list_fmap_compose, <-list_fmap_compose.
  induction vs as [|[f x] vs IH]; [done|]. apply Forall_cons in Hl as [Hf Hl]. cbn in *.
  rewrite c_str_clean by done. f_equal. by apply IH.
Qed.

Definition full (w : CoreWorkload) (fs : record) : Prop :=
  dom fs = list_to_set (str <$> field_names w).

Lemma dom_upsert fs l : dom (upsert fs l) = dom fs ∪ list_to_set ((λ v, c_str v.1) <$> l).
Proof.
  unfold upsert. revert fs. induction l as [|v l IH]; intros fs; cbn; [set_solver|].
  rewrite IH, dom_insert_L. set_solver.
Qed.

Lemma full_bound w fs : field_count_ w < 2 ^ 64 -> full w fs -> Z.of_nat (size fs) < 2 ^ 64.
Proof.
  intros Hc Hf. rewrite <-size_dom, Hf, size_list_to_set by (by apply field_names_distinct).
  unfold field_names. rewrite !length_fmap, length_seqZ. lia.
Qed.

Lemma full_size w fs : ready w -> full w fs -> Z.of_nat (size fs) = field_count_ w.
Proof.
  intros Hw Hf. pose proof (rd_count _ Hw). rewrite <-size_dom, Hf, size_list_to_set by (by apply field_names_nodup).
  unfold field_names. rewrite !length_fmap, length_seqZ. lia.
Qed.

(** ** The loaded records *)

(** The key of the database for the key number [i]. *)
Definition kname (w : CoreWorkload) (i : Z) : string :=
  index (str (table_name_ w)) (str (BuildKeyName w i)).

(** The database holds the records [0] to [n - 1], all full, and no other. *)
Record loaded (w : CoreWorkload) (n : Z) (db : database) : Prop := {
  ld_all i : 0 ≤ i < n -> is_Some (db !! kname w i);
  ld_only k fs : db !! k = Some fs -> full w fs ∧ ∃ i, 0 ≤ i < n ∧ k = kname w i
}.

Lemma loaded_static w w' n db : static w' = static w -> loaded w n db -> loaded w' n db.
Proof.
  intros Hs [H1 H2]. assert (∀ i, kname w' i = kname w i) as Hk.
  { intros i. unfold kname. rewrite (BuildKeyName_static _ _ _ Hs). injection Hs. congruence. }
  split; [intros i; rewrite Hk; apply H1|]. intros k fs Hfs.
  destruct (H2 _ _ Hfs) as [Hf (i & Hi & ->)]. split; [|exists i; by rewrite Hk].
  unfold full, field_names in *. injection Hs. congruence.
Qed.

Lemma loaded_empty w : loaded w 0 ∅.
Proof. split; [intros; lia|]. intros k fs. by rewrite lookup_empty. Qed.

Lemma loaded_small w n db : ready w -> loaded w n db -> small db.
Proof.
  intros Hw [_ H] k fs Hk. apply H in Hk as [Hf _]. cbn.
  rewrite (full_size w) by done. pose proof (rd_count _ Hw). lia.
Qed.

(** A record is written over. *)
Lemma loaded_update w n db i fs :
  loaded w n db -> 0 ≤ i < n -> full w fs -> loaded w n (<[kname w i := fs]> db).
Proof.
  intros [H1 H2] Hi Hf. split.
  - intros j Hj. rewrite lookup_insert_is_Some'. right. by apply H1.
  - intros k fs' [[<- <-]|[_ Hk]]%lookup_insert_Some; [|by apply H2]. split; [done|]. by exists i.
Qed.

(** A record is new. *)
Lemma loaded_insert w n db fs :
  loaded w n db -> 0 ≤ n -> full w fs -> loaded w (n + 1) (<[kname w n := fs]> db).
Proof.
  intros [H1 H2] Hn Hf. split.
  - intros j Hj. rewrite lookup_insert_is_Some'. destruct (decide (j = n)) as [->|]; [by left|].
    right. apply H1. lia.
  - intros k fs' [[<- <-]|[_ Hk]]%lookup_insert_Some.
    + split; [done|]. exists n. split; [lia|done].
    + destruct (H2 _ _ Hk) as [Hf' (i & Hi & ->)]. split; [done|]. exists i. split; [lia|done].
Qed.

(** Key numbers below [N] have names of their own. *)
Definition distinct (w : CoreWorkload) (N : Z) : Prop :=
  ∀ i j, 0 ≤ i < N -> 0 ≤ j < N -> BuildKeyName w i = BuildKeyName w j -> i = j.

Lemma ordered_distinct w : ordered_inserts_ w = true -> distinct w (2 ^ 64).
Proof.
  intros Ho i j Hi Hj E. apply BuildKeyName_shown in E; [|done..].
  unfold shown in E. by rewrite Ho in E.
Qed.

(** Hashed or not, numbers below [2 ^ 32] have names of their own. *)
Lemma all_distinct w N : N ≤ 2 ^ 32 -> distinct w N.
Proof.
  intros HN i j Hi Hj E. apply BuildKeyName_shown in E; [|lia..].
  unfold shown in E. destruct (ordered_inserts_ w); [done|]. apply Hash_inj in E; lia.
Qed.

Lemma BuildKeyName_clean w i : 0 ≤ i < 2 ^ 64 -> clean (BuildKeyName w i).
Proof.
  intros Hi. rewrite BuildKeyName_eq. apply Forall_app. split; [by repeat constructor|].
  apply Forall_app. split; [by apply Forall_replicate|].
  apply digits_clean, utoa_digits. by apply (shown_range w).
Qed.

Lemma kname_eq w i : ready w -> 0 ≤ i < 2 ^ 64 -> kname w i = str (table_name_ w ++ BuildKeyName w i).
Proof.
  intros Hw Hi. unfold kname, index. rewrite <-str_app. apply c_str_clean, Forall_app.
  split; [apply (rd_table _ Hw)|by apply BuildKeyName_clean].
Qed.

Lemma loaded_next w n N db :
  ready w -> loaded w n db -> distinct w N -> 0 ≤ n < N -> N ≤ 2 ^ 64 -> db !! kname w n = None.
Proof.
  intros Hw [_ H] Hd Hn HN. destruct (db !! kname w n) as [fs|] eqn:Hk; [|done].
  destruct (H _ _ Hk) as [_ (i & Hi & E)]. rewrite !kname_eq in E by (done || lia).
  apply str_inj, app_inv_head, Hd in E; lia.
Qed.

(** ** The calls of the database *)
Lemma post_on_db o (Q : Z -> database -> Prop) db :
  lossless db o -> small db -> (∀ r db', op_spec db o r db' -> Q r.1 db') ->
  post (r ← call (on_db o); mret r.1) Q db.
Proof. intros Hok Hs H. split; [done|]. split; [done|]. exact H. Qed.

Lemma after_table w n w' : after w n w' -> table_name_ w' = table_name_ w.
Proof. intros [H _ _]. injection H. congruence. Qed.

Lemma db_Read_ok w n w' db i fields :
  after w n w' -> loaded w n db -> 0 ≤ i < n ->
  post (db_Read (table_name_ w') (BuildKeyName w i) fields) (λ z db', z = kOK ∧ db' = db) db.
Proof.
  intros Ha Hl Hi. rewrite (after_table _ _ _ Ha). apply post_on_db; [done| |].
  { eapply (loaded_small w'); [apply Ha|]. eapply loaded_static; [apply Ha|done]. }
  intros r db' [-> Hr]. destruct (ld_all _ _ _ Hl i Hi) as [fs Hfs]. unfold kname in Hfs.
  rewrite Hfs in Hr. by destruct Hr as (l & -> & _).
Qed.

Lemma db_Scan_ok w n w' db key len fields :
  after w n w' -> loaded w n db ->
  post (db_Scan (table_name_ w') key len fields) (λ z db', z = kOK ∧ db' = db) db.
Proof.
  intros Ha Hl. apply post_on_db; [done| |].
  { eapply (loaded_small w'); [apply Ha|]. eapply loaded_static; [apply Ha|done]. }
  by intros r db' (-> & -> & _).
Qed.

(** New values of some fields leave a full record full. *)
Lemma full_upsert w fs l :
  full w fs -> (λ v, c_str v.1) <$> l ⊆ str <$> field_names w -> full w (upsert fs l).
Proof. unfold full. intros Hf Hl. rewrite dom_upsert, Hf. set_solver. Qed.

Lemma db_Update_ok w n w' db i values :
  after w n w' -> loaded w n db -> 0 ≤ i < n -> values.*1 ⊆ field_names w ->
  post (db_Update (table_name_ w') (BuildKeyName w i) values) (λ z db', z = kOK ∧ loaded w n db') db.
Proof.
  intros Ha Hl Hi Hv. rewrite (after_table _ _ _ Ha).
  assert ((λ v, c_str v.1) <$> str_pairs values = str <$> values.*1) as Hnames.
  { apply names_of; [done|]. apply Forall_forall. intros f Hf%Hv. revert f Hf.
    apply Forall_forall, field_names_clean. }
  destruct (ld_all _ _ _ Hl i Hi) as [fs Hfs]. unfold kname in Hfs. apply post_on_db.
  - unfold lossless. cbn [op_lost]. by rewrite Hfs.
  - eapply (loaded_small w'); [apply Ha|]. eapply loaded_static; [apply Ha|done].
  - intros r db' [-> ->]. split; [done|]. rewrite Hfs. fold (kname w i) in Hfs |- *. apply loaded_update; [done..|]. apply full_upsert.
    + by apply (ld_only _ _ _ Hl) in Hfs as [? _].
    + rewrite Hnames. intros x (f & -> & Hf)%list_elem_of_fmap. apply list_elem_of_fmap. eauto.
Qed.

Lemma db_Insert_ok w n N w' m db values :
  after w m w' -> loaded w n db -> distinct w N -> 0 ≤ n < N -> N ≤ 2 ^ 64 -> values.*1 = field_names w ->
  post (db_Insert (table_name_ w') (BuildKeyName w n) values)
       (λ z db', z = kOK ∧ loaded w (n + 1) db') db.
Proof.
  intros Ha Hl Hd Hn HN Hv. rewrite (after_table _ _ _ Ha).
  assert (loaded w' n db) as Hl' by (eapply loaded_static; [apply Ha|done]).
  pose proof (names_of _ _ Hv (field_names_clean w)) as Hnames.
  assert (field_names w' = field_names w) as Hfn.
  { destruct Ha as [H _ _]. unfold field_names. injection H. congruence. }
  assert (db !! kname w' n = None) as Hnone.
  { eapply (loaded_next w'); [apply Ha|done| |done|done].
    intros i j Hi Hj. rewrite !(BuildKeyName_static _ _ _ (af_static _ _ _ Ha)). by apply Hd. }
  unfold kname in Hnone. rewrite (after_table _ _ _ Ha), (BuildKeyName_static _ _ _ (af_static _ _ _ Ha)) in Hnone.
  assert (insert_fields ∅ (str_pairs values) = (upsert ∅ (str_pairs values), kOK)) as Hins.
  { apply insert_new_fields; [rewrite Hnames, <-Hfn; apply field_names_nodup, Ha|done]. }
  apply post_on_db; [|by eapply (loaded_small w'); [apply Ha|]|].
  { unfold lossless. cbn [op_lost]. rewrite Hnone. cbn [default from_option]. by rewrite Hins. }
  intros r db'. cbn [op_spec]. rewrite Hnone. cbn [default from_option]. rewrite Hins.
  intros [-> ->]. split; [done|]. apply loaded_insert; [done|lia|].
  unfold full. by rewrite dom_upsert, Hnames, dom_empty_L, (left_id_L ∅ (∪)).
Qed.

(** ** Transactions *)
Section run.
Variables (w0 : CoreWorkload) (N : Z) (fuel : nat).
Hypothesis (Hdistinct : distinct w0 N) (HN : N < 2 ^ 64).

(** The state of a run: the workload [w] has drawn since [w0], the database
    has the records [0] to [n - 1], and requests ask for these. *)
Record running (n : Z) (w : CoreWorkload) (db : database) : Prop := {
  rn_after : after w0 n w;
  rn_loaded : loaded w0 n db
}.

Lemma running_step n w w' db : running n w db -> after w n w' -> running n w' db.
Proof. intros [Ha Hl] H. split; [by eapply after_trans|done]. Qed.

Lemma running_field_names n w db : running n w db -> field_names w = field_names w0.
Proof. intros [[H _ _] _]. unfold field_names. injection H. congruence. Qed.

Lemma running_seq n w db : running n w db -> insert_key_sequence_ w = insert_key_sequence_ w0.
Proof. intros [[H _ _] _]. injection H. congruence. Qed.

Lemma running_name n w db i : running n w db -> BuildKeyName w i = BuildKeyName w0 i.
Proof. intros [[H _ _] _]. by apply BuildKeyName_static. Qed.

(** The draws [p] of a workload that is running, then [f]. *)
Lemma post_step {A B} (p : CoreWorkload -> prog rnd (A * CoreWorkload))
    (f : A * CoreWorkload -> prog client_call B) (P : A -> Prop) (Q : B -> database -> Prop) n w db :
  (ready w -> key_generator_ w = CounterGenerator n -> ends (p w) (λ r, after w n r.2 ∧ P r.1)) ->
  running n w db ->
  (∀ a w', running n w' db -> P a -> post (f (a, w')) Q db) ->
  post (workload_ (p w) ≫= f) Q db.
Proof.
  intros Hp Hr Hf. pose proof Hr as [[_ Hrd Hk] _]. apply post_bind, post_draws.
  eapply ends_mono; [by apply Hp|]. intros [a w'] [Ha HP]. apply Hf; [|done].
  by eapply running_step.
Qed.

(** The same without a condition on the result. *)
Lemma post_step_any {A B} (p : CoreWorkload -> prog rnd (A * CoreWorkload))
    (f : A * CoreWorkload -> prog client_call B) (Q : B -> database -> Prop) n w db :
  (ready w -> key_generator_ w = CounterGenerator n -> ends (p w) (λ r, after w n r.2)) ->
  running n w db ->
  (∀ a w', running n w' db -> post (f (a, w')) Q db) ->
  post (workload_ (p w) ≫= f) Q db.
Proof.
  intros Hp Hr Hf. eapply (post_step p f (λ _, True)); [|exact Hr|auto].
  intros H1 H2. eapply ends_mono; [by apply Hp|]. done.
Qed.

(** A new record, and then [f]. *)
Lemma insert_step {B} (f : Z -> CoreWorkload -> prog client_call B) (Q : B -> database -> Prop) n w db :
  running n w db -> 0 ≤ n < N ->
  (∀ w' db', running (n + 1) w' db' -> post (f kOK w') Q db') ->
  post ('(key, w) ← workload_ (NextSequenceKey w);
        '(values, w) ← workload_ (BuildValues w);
        z ← db_Insert (table_name_ w) key values;
        f z w) Q db.
Proof.
  intros Hr Hn Hf. pose proof Hr as [[_ Hrd Hk] Hl]. apply post_bind, post_draws.
  eapply ends_mono; [apply NextSequenceKey_ok; [done..|lia]|]. intros [key w1] [H1 Hkey].
  cbn [fst snd] in Hkey. subst key. apply post_bind, post_draws.
  eapply ends_mono; [apply (BuildValues_ok w1 (n + 1)); apply H1|]. intros [values w2] [H2 Hv].
  assert (after w0 (n + 1) w2) as Ha.
  { eapply after_trans; [|exact H2]. eapply after_trans; [apply Hr|exact H1]. }
  assert (values.*1 = field_names w0) as Hv'.
  { cbn [fst snd] in Hv. rewrite Hv, <-(running_field_names _ _ _ Hr). destruct H1 as [H _ _].
    unfold field_names. cbn [fst snd] in H. injection H. congruence. }
  apply post_bind. rewrite (running_name _ _ _ _ Hr). eapply post_mono.
  - eapply (db_Insert_ok w0 n N w2); [exact Ha|done..|lia|done].
  - intros z db' [-> Hl']. apply Hf. by split.
Qed.

Lemma DoInsert_ok n w db :
  running n w db -> 0 ≤ n < N ->
  post (DoInsert w) (λ r db', r.1 = true ∧ running (n + 1) r.2 db') db.
Proof. intros Hr Hn. by apply (insert_step _ _ n). Qed.

(** The requests: the key of a loaded record. *)
Lemma key_step {B} (f : text * CoreWorkload -> prog client_call B) (Q : B -> database -> Prop) n w db :
  running n w db -> insert_key_sequence_ w0 ≤ n ->
  (∀ i w', running n w' db -> 0 ≤ i < n -> post (f (BuildKeyName w0 i, w')) Q db) ->
  post (workload_ (NextTransactionKey (S fuel) w) ≫= f) Q db.
Proof.
  intros Hr Hn Hf.
  apply (post_step (NextTransactionKey (S fuel)) f
    (λ key, ∃ i, 0 ≤ i < insert_key_sequence_ w ∧ key = BuildKeyName w i) Q n);
    [by apply NextTransactionKey_ok|exact Hr|].
  intros key w' Hw' (i & Hi & ->). rewrite (running_name _ _ _ _ Hr).
  rewrite (running_seq _ _ _ Hr) in Hi. apply Hf; [done|lia].
Qed.

Lemma fields_step {B} (f : option (list text) * CoreWorkload -> prog client_call B)
    (Q : B -> database -> Prop) n w db :
  running n w db -> (∀ fields w', running n w' db -> post (f (fields, w')) Q db) ->
  post (read_fields w ≫= f) Q db.
Proof.
  intros Hr Hf. apply post_bind. unfold read_fields. destruct (read_all_fields_ w); cbn [negb].
  - by apply Hf.
  - apply (post_step NextFieldName _ (λ x, x ∈ field_names w) _ n); [by apply NextFieldName_ok|exact Hr|]. intros fl w' Hw' _. by apply Hf.
Qed.

(** The values of a write name fields of the record. *)
Lemma values_step {B} (f : Workload.pairs * CoreWorkload -> prog client_call B)
    (Q : B -> database -> Prop) n w db :
  running n w db ->
  (∀ values w', running n w' db -> values.*1 ⊆ field_names w0 -> post (f (values, w')) Q db) ->
  post (write_values w ≫= f) Q db.
Proof.
  intros Hr Hf. unfold write_values. pose proof (af_ready _ _ _ (rn_after _ _ _ Hr)) as Hrd.
  destruct (write_all_fields_ w).
  - apply (post_step BuildValues f (λ vs, vs.*1 = field_names w) Q n); [by apply BuildValues_ok|exact Hr|].
    intros values w' Hw' Hv. apply Hf; [done|]. by rewrite Hv, (running_field_names _ _ _ Hr).
  - apply (post_step BuildUpdate f (λ vs, ∃ x, vs.*1 = [x] ∧ x ∈ field_names w) Q n); [by apply BuildUpdate_ok|exact Hr|].
    intros values w' Hw' (fl & Hv & Hin). apply Hf; [done|]. rewrite Hv, <-(running_field_names _ _ _ Hr).
    by intros x ->%list_elem_of_singleton.
Qed.

Definition keeps (n : Z) (r : Z * CoreWorkload) (db : database) : Prop :=
  r.1 = kOK ∧ ∃ m, n ≤ m ≤ n + 1 ∧ running m r.2 db.

Lemma keeps_same n w db : running n w db -> keeps n (kOK, w) db.
Proof. intros Hr. split; [done|]. exists n. split; [lia|done]. Qed.

Lemma update_step n i w db :
  running n w db -> 0 ≤ i < n ->
  post ('(values, w) ← write_values w;
        z ← db_Update (table_name_ w) (BuildKeyName w0 i) values; mret (z, w)) (keeps n) db.
Proof.
  intros Hr Hi. eapply values_step; [done|]. intros values w' [Ha Hl] Hv. apply post_bind.
  eapply post_mono; [by eapply db_Update_ok|]. intros z db' [-> Hl']. by apply keeps_same.
Qed.

Lemma transaction_ok op n w db :
  running n w db -> insert_key_sequence_ w0 ≤ n -> 0 ≤ n < N ->
  post (transaction (S fuel) op w) (keeps n) db.
Proof.
  intros Hr Hseq' Hn. destruct op; cbn [transaction].
  - apply (insert_step _ _ n); [done..|]. intros w' db' Hw'. split; [done|]. exists (n + 1).
    split; [lia|done].
  - apply (key_step _ _ n); [done..|]. intros i w1 H1 Hi. apply (fields_step _ _ n); [done|].
    intros fields w2 [Ha Hl]. apply post_bind. eapply post_mono; [by eapply db_Read_ok|].
    intros z db' [-> ->]. by apply keeps_same.
  - apply (key_step _ _ n); [done..|]. intros i w1 H1 Hi. by apply update_step.
  - apply (key_step _ _ n); [done..|]. intros i w1 H1 Hi.
    eapply (post_step_any NextScanLength); [by apply NextScanLength_ok|exact H1|].
    intros len w2 H2. apply (fields_step _ _ n); [done|]. intros fields w3 [Ha Hl].
    apply post_bind. eapply post_mono; [by eapply db_Scan_ok|].
    intros z db' [-> ->]. by apply keeps_same.
  - apply (key_step _ _ n); [done..|]. intros i w1 H1 Hi. apply (fields_step _ _ n); [done|].
    intros fields w2 [Ha Hl]. apply post_bind. eapply post_mono; [by eapply db_Read_ok|].
    intros z db' [-> ->]. by apply update_step.
Qed.

Lemma DoTransaction_ok n w db :
  running n w db -> insert_key_sequence_ w0 ≤ n -> 0 ≤ n < N ->
  post (DoTransaction (S fuel) w)
       (λ r db', r.1 = true ∧ ∃ m, n ≤ m ≤ n + 1 ∧ running m r.2 db') db.
Proof.
  intros Hr Hs Hn. eapply (post_step_any NextOperation); [by apply NextOperation_ok|exact Hr|].
  intros op w1 H1. apply post_bind. eapply post_mono; [by eapply transaction_ok|].
  intros [z w2] db' [Hz Hm]. cbn in Hz. subst z. done.
Qed.

(** ** The loop of a client *)
Lemma load_ok k n oks w db :
  running n w db -> 0 ≤ n -> n + Z.of_nat k ≤ N -> 0 ≤ oks -> oks + Z.of_nat k < 2 ^ 31 ->
  post (DelegateClient (S fuel) k true oks w)
       (λ r db', r.1 = oks + Z.of_nat k ∧ running (n + Z.of_nat k) r.2 db') db.
Proof.
  revert n oks w db. induction k as [|k IH]; intros n oks w db Hr Hn Hk Ho Hb.
  - cbn. rewrite !Z.add_0_r. done.
  - cbn [DelegateClient]. apply post_bind. eapply post_mono; [apply (DoInsert_ok n); [done|lia]|].
    intros [ok w'] db' [Hok Hr']. cbn in Hok. subst ok. change (Z.b2z true) with 1.
    rewrite i32_small by lia. eapply post_mono; [apply (IH (n + 1)); [done|lia..]|].
    intros r db2 [-> Hr2]. split; [lia|]. by replace (n + Z.of_nat (S k)) with (n + 1 + Z.of_nat k) by lia.
Qed.

Lemma transact_ok k n oks w db :
  running n w db -> insert_key_sequence_ w0 ≤ n -> 0 ≤ n -> n + Z.of_nat k ≤ N ->
  0 ≤ oks -> oks + Z.of_nat k < 2 ^ 31 ->
  post (DelegateClient (S fuel) k false oks w)
       (λ r db', r.1 = oks + Z.of_nat k ∧ ∃ m, n ≤ m ≤ n + Z.of_nat k ∧ running m r.2 db') db.
Proof.
  revert n oks w db. induction k as [|k IH]; intros n oks w db Hr Hs Hn Hk Ho Hb.
  - cbn. rewrite !Z.add_0_r. split; [done|]. exists n. split; [lia|done].
  - cbn [DelegateClient]. apply post_bind. eapply post_mono; [apply (DoTransaction_ok n); [done..|lia]|].
    intros [ok w'] db' (Hok & m & Hm & Hr'). cbn in Hok. subst ok. change (Z.b2z true) with 1.
    rewrite i32_small by lia. eapply post_mono; [apply (IH m); [done|lia..]|].
    intros r db2 (-> & m2 & Hm2 & Hr2). split; [lia|]. exists m2. split; [lia|done].
Qed.
End run.
End client.
