(* ===== verification/Binary64.v ===== *)
(** * Binary64: the arithmetic of [double] on IEEE 754 numbers

    An instance of the class [Doubles] of Generators.v with rounding, over the
    [SpecFloat] of the Standard Library.  The power function of the C library
    is a parameter.  [stod] reads plain decimals; the quotient is rounded
    once, so it is the nearest number when the digits are a number below
    2^53 and at most 22 of them follow the point. *)

From Stdlib Require Import ZArith Lia Ascii Floats.SpecFloat.
From stdpp Require Import base list strings.
From S2P Require Import Prelude YcsbUtils Calls Generators Workload WorkloadSpec.

Section binary64.
Variable pow : spec_float -> spec_float -> spec_float.

Definition b64 (z : Z) : spec_float := binary_normalize 53 1024 z 0 false.
Definition b64_div : spec_float -> spec_float -> spec_float := SFdiv 53 1024.

(** Truncation; out of range it is undefined. *)
Definition b64_to_u64 (x : spec_float) : option Z :=
  match x with
  | S754_zero _ => Some 0
  | S754_finite s m e =>
      let v := if 0 <=? e then Zpos m * 2 ^ e else Zpos m / 2 ^ (- e) in
      if s then (if v =? 0 then Some 0 else None) else (if v <? 2 ^ 64 then Some v else None)
  | _ => None
  end.

Fixpoint b64_decimal (s : text) (acc scale : Z) (point : bool) : exc spec_float :=
  match s with
  | [] => Val (b64_div (b64 acc) (b64 scale))
  | "."%char :: s' => if point then Throw "stod" else b64_decimal s' acc scale true
  | a :: s' =>
      let d := Z.of_N (N_of_ascii a) - 48 in
      if (0 <=? d) && (d <=? 9) then
        b64_decimal s' (acc * 10 + d) (if point then scale * 10 else scale) point
      else Throw "stod"
  end.

Definition binary64 : Doubles := {|
  double := spec_float;
  d_of_u64 := b64;
  d_add := SFadd 53 1024; d_sub := SFsub 53 1024; d_mul := SFmul 53 1024; d_div := b64_div;
  d_pow := pow;
  d_lt := SFltb;
  d_to_u64 := b64_to_u64;
  kZipfianConst := b64_div (b64 99) (b64 100);
  stod := λ s, b64_decimal s 0 1 false
|}.
End binary64.

(** Rounded, as the processor has them. *)
Example b64_tenths :
  SFadd 53 1024 (b64_div (b64 1) (b64 10)) (b64_div (b64 2) (b64 10)) ≠ b64_div (b64 3) (b64 10).
Proof. by vm_compute. Qed.

Lemma b64_in_unit pow (u : spec_float) : in_unit (D := binary64 pow) u -> SFltb u (b64 1) = true.
Proof. by intros [_ H]. Qed.
