(* ===== verification/WorkloadTheorems.v ===== *)
(** * WorkloadTheorems: what the benchmark promises (core/client.h, ycsbc.cc)

    From the properties to the end of a run: the workload that the properties
    describe is set up, every record is loaded and every transaction succeeds,
    against the interface of the database and on the hash tables.  The
    arithmetic of [double] is any, and the shares of the operations, as it
    rounds them, are assumed to leave no gap.  The instances are in the
    arithmetic of the processor (Binary64.v). *)

From Stdlib Require Import ZArith Lia Ascii QArith Qround Lqa Floats.SpecFloat.
From stdpp Require Import base list list_numbers strings gmap sets fin_maps fin_map_dom.
From S2P Require Import Prelude Libc Printf Sds Calls YcsbUtils Generators Workload WorkloadSpec.
From S2P Require Import Table StringHashtable HashtableDb HashtableOps HashtableTheorems Client WorkloadRun Binary64.
#[local] Open Scope Z_scope.

(** ** Setting up *)
Lemma stoi_range s v : stoi s = Val v -> - 2 ^ 31 ≤ v < 2 ^ 31.
Proof.
  unfold stoi. repeat case_match; intros E; try done; injection E as <-;
    by eapply bool_decide_eq_true_1.
Qed.

Section setup.
Context {D : Doubles}.

(** The choice of operations that [Init] builds of the shares, in its order. *)
Definition shares_chooser (r u i s m : double) : discrete Operation :=
  add_op READMODIFYWRITE m (add_op SCAN s (add_op INSERT i (add_op UPDATE u (add_op READ r new_discrete)))).

(** Properties of a uniform workload that starts at the record 0.  The shares,
    as the machine rounds them, leave no gap: for every number of [0,1) the
    loop of the discrete generator finds a value. *)
Record uniform_workload (p : Properties) (records : Z) : Prop := {
  uw_table : clean (prop p TABLENAME_PROPERTY TABLENAME_DEFAULT);
  uw_fields : ∃ n, stoi (prop p FIELD_COUNT_PROPERTY FIELD_COUNT_DEFAULT) = Val n ∧ 1 ≤ n;
  uw_len_dist : prop p FIELD_LENGTH_DISTRIBUTION_PROPERTY FIELD_LENGTH_DISTRIBUTION_DEFAULT = lit "constant";
  uw_len : ∃ n, stoi (prop p FIELD_LENGTH_PROPERTY FIELD_LENGTH_DEFAULT) = Val n;
  uw_shares : ∃ r u i s m,
    stod (prop p READ_PROPORTION_PROPERTY READ_PROPORTION_DEFAULT) = Val r ∧ stod (prop p UPDATE_PROPORTION_PROPERTY UPDATE_PROPORTION_DEFAULT) = Val u ∧
    stod (prop p INSERT_PROPORTION_PROPERTY INSERT_PROPORTION_DEFAULT) = Val i ∧ stod (prop p SCAN_PROPORTION_PROPERTY SCAN_PROPORTION_DEFAULT) = Val s ∧
    stod (prop p READMODIFYWRITE_PROPORTION_PROPERTY READMODIFYWRITE_PROPORTION_DEFAULT) = Val m ∧
    total (shares_chooser r u i s m);
  uw_records : stoi (GetProperty p (lit RECORD_COUNT_PROPERTY) []) = Val records ∧ 1 ≤ records;
  uw_padding : ∃ n, stoi (prop p ZERO_PADDING_PROPERTY ZERO_PADDING_DEFAULT) = Val n;
  uw_scan : ∃ n, stoi (prop p MAX_SCAN_LENGTH_PROPERTY MAX_SCAN_LENGTH_DEFAULT) = Val n ∧ 1 ≤ n;
  uw_scan_dist : prop p SCAN_LENGTH_DISTRIBUTION_PROPERTY SCAN_LENGTH_DISTRIBUTION_DEFAULT = lit "uniform";
  uw_start : stoi (prop p INSERT_START_PROPERTY INSERT_START_DEFAULT) = Val 0;
  uw_read_all : ∃ b, StrToBool (prop p READ_ALL_FIELDS_PROPERTY READ_ALL_FIELDS_DEFAULT) = Val b;
  uw_write_all : ∃ b, StrToBool (prop p WRITE_ALL_FIELDS_PROPERTY WRITE_ALL_FIELDS_DEFAULT) = Val b;
  uw_requests : prop p REQUEST_DISTRIBUTION_PROPERTY REQUEST_DISTRIBUTION_DEFAULT = lit "uniform"
}.

Lemma ends_then {A B} (p : prog rnd (exc A)) (f : A -> prog rnd (exc B)) (P : A -> Prop) Q :
  ends p (λ r, ∃ a, r = Val a ∧ P a) -> (∀ a, P a -> ends (f a) Q) -> ends (then_ p f) Q.
Proof. intros H Hf. apply ends_bind. eapply ends_mono; [exact H|]. intros r (a & -> & Ha). by apply Hf. Qed.

Lemma new_uniform_ok basis lo hi :
  lo ≤ hi -> ends (lifted (new_uniform lo hi)) (λ r, ∃ g, r = Val g ∧ ranged basis g lo hi).
Proof.
  intros H. apply ends_bind, ends_bind. split; [done|]. intros v _. eexists. split; [done|].
  by apply ranged_uniform.
Qed.

(** The share of an operation, as the properties have it. *)
Definition proportion (p : Properties) (op : Operation) : exc double :=
  stod match op with
       | READ => prop p READ_PROPORTION_PROPERTY READ_PROPORTION_DEFAULT
       | UPDATE => prop p UPDATE_PROPORTION_PROPERTY UPDATE_PROPORTION_DEFAULT
       | INSERT => prop p INSERT_PROPORTION_PROPERTY INSERT_PROPORTION_DEFAULT
       | SCAN => prop p SCAN_PROPORTION_PROPERTY SCAN_PROPORTION_DEFAULT
       | READMODIFYWRITE => prop p READMODIFYWRITE_PROPORTION_PROPERTY READMODIFYWRITE_PROPORTION_DEFAULT
       end.

Definition has_share (p : Properties) (op : Operation) : Prop := ∃ q, proportion p op = Val q ∧ positive q = true.

(** Only operations with a share are chosen. *)
Lemma add_op_chosen p op q c :
  proportion p op = Val q -> Forall (λ x, has_share p x.1) (values_ c) ->
  Forall (λ x, has_share p x.1) (values_ (add_op op q c)).
Proof.
  intros Hq Hc. unfold add_op. destruct (positive q) eqn:Hp; [|done]. cbn. apply Forall_app. split; [done|].
  repeat constructor. by exists q.
Qed.

(** The order of the keys: by number, or hashed. *)
Definition ordered (p : Properties) : bool :=
  negb (bool_decide (prop p INSERT_ORDER_PROPERTY INSERT_ORDER_DEFAULT = lit "hashed")).

Lemma Init_ok nk p records :
  uniform_workload p records ->
  ends (Init nk p) (λ r, ∃ w, r = Val w ∧ ready w ∧ table_name_ w = prop p TABLENAME_PROPERTY TABLENAME_DEFAULT ∧
    ordered_inserts_ w = ordered p ∧ key_generator_ w = CounterGenerator 0 ∧ insert_key_sequence_ w = records ∧
    Forall (λ x, has_share p x.1) (values_ (op_chooser_ w))).
Proof.
  intros [Ht (fc & Hfc & Hfc1) Hld (fl & Hfl) (r & u & i & s & m & Hr & Hu & Hi & Hs & Hm & Htot)
    [Hrc Hrc1] (zp & Hzp) (ms & Hms & Hms1) Hsd Hst (ra & Hra) (wa & Hwa) Hrd].
  pose proof (stoi_range _ _ Hfc). pose proof (stoi_range _ _ Hrc). pose proof (stoi_range _ _ Hms).
  unfold Init, GetFieldLenGenerator, new_key_chooser, new_scan_len_chooser.
  rewrite Hfc, Hld, Hfl, Hrd, Hsd. cbn [attempt]. rewrite !bool_decide_true by done.
  apply (ends_then _ _ (λ g, g = new_const fl)); [by eexists|]. intros g ->.
  rewrite Hr, Hu, Hi, Hs, Hm, Hrc, Hzp, Hms, Hst, Hra, Hwa. cbn [attempt].
  rewrite (u64_small records) by lia. cbv iota.
  rewrite (u64_small 0), (u64_small (records - 1)), (u64_small (fc - 1)), (u64_small ms) by lia.
  eapply ends_then; [apply (new_uniform_ok records); lia|]. intros kc Hkc.
  eapply ends_then; [apply (new_uniform_ok records); lia|]. intros fch Hf.
  eapply ends_then; [apply (new_uniform_ok records); lia|]. intros sc Hsc.
  cbv beta in Hkc, Hf, Hsc. eexists. split; [done|]. split; [|split_and!; [done..|]].
  2: { cbn [op_chooser_]. do 5 (apply add_op_chosen; [done|]). by constructor. }
  split; cbn [field_count_ table_name_ insert_key_sequence_
    field_len_generator_ op_chooser_ key_chooser_ field_chooser_ scan_len_chooser_]; eauto; [lia..|].
  do 2 eexists. apply ranged_const.
Qed.

(** C25: The workload that [Init] builds is well formed.  For properties of a
    uniform workload, in any arithmetic of [double] and whatever is drawn,
    [Init] does not throw; every generator keeps to its range for ever, the
    requests within the loaded records and the fields within the record; keys
    are numbered from 0, and hashed exactly when the properties say so; and
    only operations with a positive share are there to be chosen.  That the
    choice of operations never fails is not shown but assumed of the shares,
    as the machine rounds them. *)
Theorem Init_well_formed nk p records :
  uniform_workload p records ->
  ends (Init nk p) (λ r, ∃ w, r = Val w ∧ ready w ∧ insert_key_sequence_ w = records ∧
    key_generator_ w = CounterGenerator 0 ∧ ordered_inserts_ w = ordered p ∧
    Forall (λ x, has_share p x.1) (values_ (op_chooser_ w))).
Proof.
  intros Hp. eapply ends_mono; [by apply Init_ok|]. intros r (w & -> & Hw & _ & Ho & Hk & Hs & Hc). by exists w.
Qed.

(** ** The run *)

(** Loading succeeds, and then every transaction does.  For a workload
    whose generators keep to their ranges and whose keys have different
    names, a client that inserts [loads] records and runs [ops] transactions
    (reads, updates, scans, inserts and read-modify-writes in any mixture)
    counts [loads] and [ops] successes; the first draw of each request is
    taken, so that the loop of [NextTransactionKey] ends; and the database
    holds full records, of the keys from 0 on without a gap. *)
Theorem workload_succeeds fuel loads ops w :
  ready w -> key_generator_ w = CounterGenerator 0 -> insert_key_sequence_ w ≤ Z.of_nat loads ->
  distinct w (Z.of_nat (loads + ops)) -> Z.of_nat loads < 2 ^ 31 -> Z.of_nat ops < 2 ^ 31 ->
  dpost client_spec
    ('(loaded, w) ← DelegateClient (S fuel) loads true 0 w;
     '(oks, w) ← DelegateClient (S fuel) ops false 0 w;
     mret (loaded, oks))
    (λ r db, r = (Z.of_nat loads, Z.of_nat ops) ∧
       ∃ m, Z.of_nat loads ≤ m ≤ Z.of_nat (loads + ops) ∧ loaded w m db) ∅.
Proof.
  intros Hrd Hk Hseq Hd Hl Ho. apply post_bind.
  assert (running w 0 w ∅) as Hr by (split; [by split|apply loaded_empty]).
  eapply post_mono; [apply (load_ok w (Z.of_nat (loads + ops)) fuel Hd ltac:(lia) loads 0); [done|lia..]|].
  intros [l w1] db1 [Hl1 H1]. cbn [fst snd] in *. apply post_bind.
  eapply post_mono;
    [apply (transact_ok w (Z.of_nat (loads + ops)) fuel Hd ltac:(lia) ops (0 + Z.of_nat loads));
     [done|lia..]|].
  intros [o w2] db2 (Ho2 & m & Hm & [_ Hm2]). cbn [fst snd] in *. subst. split; [done|].
  exists m. split; [lia|done].
Qed.

End setup.

(** ** On the hash tables *)
Section implementation.
Context {HT : StringHashtable} {D : Doubles}.

(** The world of a client: the store, and how many numbers were drawn. *)
Abbreviation world := (HashtableDb.store * nat)%type.

(** A source of random numbers, by the count of the draw. *)
Definition source : Type := ∀ (i : nat) X, rnd X -> X.

Definition client_serve (src : source) X (e : client_call X) : M world X := λ w,
  match e in client_call X return res (X * world) with
  | draws e => Ok (src w.2 _ e, (w.1, S w.2))
  | on_db o =>
      match interp serve (perform o) w.1 with
      | Ok (r, st) => Ok (r, (st, w.2))
      | Stuck => Stuck
      end
  end.

(** The source keeps to the documented ranges. *)
Definition documented (src : source) : Prop :=
  ∀ i X (e : rnd X) (P : X -> unit -> Prop), rnd_spec X e tt P -> P (src i X e) tt.

Lemma client_serve_spec src X (e : client_call X) db w (P : X -> database -> Prop) :
  documented src -> store_is w.1 db -> client_spec X e db P ->
  wp (client_serve src X e) (λ x w', ∃ db', P x db' ∧ store_is w'.1 db') w.
Proof.
  intros Hsrc Hw. destruct e as [X e|o]; cbn.
  - intros H. exists db. split; [|done]. exact (Hsrc _ _ e (λ x _, P x db) H).
  - intros (Hok & Hs & HP). pose proof (perform_lossless w.1 db o Hw Hok Hs) as H.
    unfold wp in *. cbn. destruct (interp serve (perform o) w.1) as [[r st]|]; [|done].
    destruct H as (db' & Hspec & Hst). exists db'. eauto.
Qed.
End implementation.

Lemma wp_client {HT : StringHashtable} {D : Doubles} src {A} (p : prog client_call A) (Q : A -> database -> Prop) :
  documented src -> dpost client_spec p Q ∅ ->
  wp (interp (client_serve src) p) (λ a w', ∃ db, Q a db ∧ store_is w'.1 db) (store0, 0%nat).
Proof.
  intros Hsrc H.
  apply (dpost_interp client_spec (client_serve src) (λ w db, store_is w.1 db) p Q ∅); [|done|apply store0_is].
  intros X e db w P Hw. by apply client_serve_spec.
Qed.

(** C3: The benchmark from its properties to its end.  With one thread, the
    hash-table database and properties that describe a uniform workload of
    [records] records and [ops] operations, [main] loads all records and
    completes all operations with success, whatever random numbers come; no
    block is used after it is freed, no string is lost, and the tables hold
    the full records.  Keys are hashed, the default, or in order: numbers
    below 2^32 have names of their own.  The arithmetic of [double] is any;
    the shares of the operations, as it rounds them, must leave no gap in
    [0,1), or the assertion of the discrete generator could fail. *)
Theorem main_succeeds {HT : StringHashtable} {D : Doubles} src fuel nk p records ops :
  documented src -> uniform_workload p records ->
  stoi (prop p "threadcount" "1") = Val 1 ->
  stoi (GetProperty p (lit OPERATION_COUNT_PROPERTY) []) = Val ops -> 0 ≤ ops ->
  wp (interp (client_serve src) (main_one_thread (S fuel) nk p))
     (λ r w', r = Val (Some (records, ops)) ∧
        ∃ db w m, store_is w'.1 db ∧ loaded w m db ∧ records ≤ m ≤ records + ops ∧
          ordered_inserts_ w = ordered p ∧ table_name_ w = prop p TABLENAME_PROPERTY TABLENAME_DEFAULT)
     (store0, 0%nat).
Proof.
  intros Hsrc Hp Hth Hops Hops0. pose proof (uw_records _ _ Hp) as [Hrc Hrc1].
  pose proof (stoi_range _ _ Hrc). pose proof (stoi_range _ _ Hops).
  assert (∀ key v, stoi (GetProperty p (lit key) []) = Val v -> property_at p (lit key) ≫= stoi = Val v) as Hat.
  { intros key v. unfold GetProperty, property_at. by destruct (p !! lit key). }
  eapply wp_mono; [apply (wp_client src _ (λ r db, r = Val (Some (records, ops)) ∧
    ∃ w m, loaded w m db ∧ records ≤ m ≤ records + ops ∧
      ordered_inserts_ w = ordered p ∧ table_name_ w = prop p TABLENAME_PROPERTY TABLENAME_DEFAULT)); [done|]|].
  - apply post_bind, post_draws. eapply ends_mono; [by apply Init_ok|].
    intros r (w & -> & Hrd & Htb & Hord & Hk & Hseq & _). cbn [attempt].
    rewrite Hth, (Hat _ _ Hrc), (Hat _ _ Hops). cbn [attempt negb Z.eqb Pos.eqb].
    assert (distinct w (records + ops)) as Hd by (apply all_distinct; lia).
    assert (running w 0 w ∅) as Hr by (split; [by split|apply loaded_empty]).
    apply post_bind.
    eapply post_mono; [apply (load_ok w (records + ops) fuel Hd ltac:(lia) (Z.to_nat records) 0); [done|lia..]|].
    intros [l w1] db1 [Hl1 H1]. cbn [fst snd] in *. apply post_bind.
    eapply post_mono;
      [apply (transact_ok w (records + ops) fuel Hd ltac:(lia) (Z.to_nat ops) (0 + Z.of_nat (Z.to_nat records)));
       [done|lia..]|].
    intros [o w2] db2 (Ho2 & m & Hm & [_ Hm2]). cbn [fst snd] in *. subst l o.
    rewrite !Z.add_0_l, !Z2Nat.id by lia. split; [done|]. exists w, m. split; [done|]. split; [lia|done].
  - intros r w' (db & (-> & w & m & Hl & Hm & Htb) & Hst). split; [done|]. by exists db, w, m.
Qed.

(** ** Shares without a gap

    In exact arithmetic one positive share is enough.  With rounding the
    quotients can fall short of 1 together; a single share does not, when it
    divided by itself is 1. *)
Section exact.
Local Existing Instance rationals.

(** The operations with a positive share, in the order of [Init]. *)
Definition shares (ws : list (Operation * Q)) : list (Operation * Q) :=
  List.filter (λ w, positive w.2) ws.

Lemma add_op_built op q ws :
  add_op op q (built (shares ws)) = built (shares (ws ++ [(op, q)])).
Proof.
  unfold add_op, shares. rewrite List.filter_app. cbn.
  destruct (lt_bool (inject_Z 0) q); [|by rewrite app_nil_r]. unfold built. by rewrite foldl_app.
Qed.

Lemma built_total ws :
  (∃ w, w ∈ ws ∧ (0 < w.2)%Q) -> total (built (shares ws)).
Proof.
  intros (w & Hin & Hw) u [Hu0 Hu1]. cbn in Hu0, Hu1.
  destruct (lt_bool_spec u (inject_Z 0)) as [|Hu]; [done|].
  destruct (lt_bool_spec u (inject_Z 1)) as [Hlt|]; [|done].
  destruct (built_shares (shares ws) u) as (ws1 & v & x & ws2 & _ & Hc & _); [..|by eexists].
  - apply Forall_forall. intros x Hx%list_elem_of_In%List.filter_In. destruct Hx as [_ Hx].
    cbn in Hx. by destruct (lt_bool_spec (inject_Z 0) x.2).
  - intros E. apply (not_elem_of_nil w). rewrite <-E. apply list_elem_of_In, List.filter_In.
    split; [by apply list_elem_of_In|]. cbn. by destruct (lt_bool_spec (inject_Z 0) w.2).
  - by apply Qnot_lt_le.
  - done.
Qed.

Lemma exact_shares r u i s m :
  (0 < r ∨ 0 < u ∨ 0 < i ∨ 0 < s ∨ 0 < m)%Q -> total (shares_chooser r u i s m).
Proof.
  intros Hpos. unfold shares_chooser. change new_discrete with (@built Operation (shares [])).
  rewrite !add_op_built. apply built_total. cbn [app].
  destruct Hpos as [H'|[H'|[H'|[H'|H']]]];
    [exists (READ, r)|exists (UPDATE, u)|exists (INSERT, i)|exists (SCAN, s)|exists (READMODIFYWRITE, m)];
    (split; [set_solver|done]).
Qed.
End exact.

Lemma one_share {D : Doubles} op q :
  positive q = true -> d_div q (d_add (d_of_u64 0) q) = one -> total (add_op op q new_discrete).
Proof.
  intros Hq H1 u [_ Hu]. unfold add_op. rewrite Hq. cbn. rewrite H1, Hu. by eexists.
Qed.

(** ** Instances *)
Section instances.
Local Existing Instance rationals.

Lemma padded_ready : ready padded_workload.
Proof.
  split; cbn [field_count_ table_name_ insert_key_sequence_ field_len_generator_ op_chooser_
    key_chooser_ field_chooser_ scan_len_chooser_ padded_workload]; [lia|by repeat constructor|lia| | | | |].
  - do 2 eexists. apply ranged_const.
  - change (total (built (shares [(READ, 95 # 100); (UPDATE, 5 # 100)]%Q))). apply built_total.
    exists (READ, 95 # 100)%Q. split; [left|done].
  - by apply ranged_uniform.
  - by apply ranged_uniform.
  - do 2 eexists. by apply ranged_uniform.
Qed.

Lemma workload_succeeds_witness :
  dpost client_spec
    ('(loaded, w) ← DelegateClient 1 1000 true 0 padded_workload;
     '(oks, w) ← DelegateClient 1 50 false 0 w;
     mret (loaded, oks))
    (λ r db, r = (Z.of_nat 1000, Z.of_nat 50) ∧
       ∃ m, Z.of_nat 1000 ≤ m ≤ Z.of_nat (1000 + 50) ∧ loaded padded_workload m db) ∅.
Proof.
  apply (workload_succeeds 0 1000 50 padded_workload); [exact padded_ready|done|done| |done|done].
  intros i j Hi Hj. apply (ordered_distinct padded_workload); [done|lia|lia].
Defined.

(** The source of the lowest numbers. *)
Definition lowest : source := λ _ X e,
  match e in rnd X return X with RandomDouble => 0%Q | uniform_int min _ => min | rand => 0 end.

Lemma lowest_documented : documented lowest.
Proof.
  intros i X e P. destruct e; cbn; intros H; [by apply H|apply H; lia|by apply H].
Qed.
End instances.

(** Only reads, with the arithmetic of the processor, and hashed keys. *)
Section binary.
Local Instance doubles : Doubles := binary64 (λ a _, a).

(** The greatest number below 1 falls in a gap of these shares. *)
Definition gap_shares : exc (discrete Operation) :=
  r ← stod (lit "0.25"); u ← stod (lit "0.3");
  mret (shares_chooser r u (b64 0) (b64 0) (b64 0)).
Definition greatest_below_1 : double := SFsub 53 1024 (b64 1) (b64_div (b64 1) (b64 (2 ^ 53))).
Definition chosen_of (c : exc (discrete Operation)) (u : double) : exc (option Operation) :=
  c ← c; mret (choose (sum_ c) (values_ c) u).

Lemma gap_nothing : chosen_of gap_shares greatest_below_1 = Val None.
Proof. vm_compute. reflexivity. Qed.

Lemma greatest_in_unit : in_unit greatest_below_1.
Proof. split; vm_compute; reflexivity. Qed.

Lemma rounded_shares_gap c : gap_shares = Val c -> ~ total c.
Proof.
  intros E H. destruct (H greatest_below_1 greatest_in_unit) as [v Hv].
  pose proof gap_nothing as Hn. rewrite E in Hn. unfold chosen_of in Hn. cbn in Hn.
  rewrite Hv in Hn. done.
Qed.

Definition three_records : Properties := list_to_map
  [(lit "recordcount", lit "3"); (lit "operationcount", lit "20");
   (lit "readproportion", lit "1.0"); (lit "updateproportion", lit "0.0")].

Definition b64_lowest : source := λ _ X e,
  match e in rnd X return X with RandomDouble => b64 0 | uniform_int min _ => min | rand => 0 end.

Lemma b64_lowest_documented : documented b64_lowest.
Proof.
  intros i X e P. destruct e; cbn; intros H; [by apply H|apply H; lia|by apply H].
Qed.

Lemma three_records_uniform : uniform_workload three_records 3.
Proof.
  split; try (lazymatch goal with |- ex _ => fail | |- _ => by vm_compute end).
  - by repeat constructor.
  - exists 10. by vm_compute.
  - exists 100. by vm_compute.
  - exists (b64 1), (b64 0), (b64 0), (b64 0), (b64 0).
    repeat (split; [by vm_compute|]).
    change (total (add_op READ (b64 1 : double) new_discrete)). apply one_share; by vm_compute.
  - exists 1. by vm_compute.
  - exists 1000. by vm_compute.
  - by exists true.
  - by exists false.
Qed.

Lemma Init_well_formed_witness :
  ends (Init (λ _ _, None) three_records)
    (λ r, ∃ w, r = Val w ∧ ready w ∧ insert_key_sequence_ w = 3 ∧
      key_generator_ w = CounterGenerator 0 ∧ ordered_inserts_ w = false ∧
      Forall (λ x, has_share three_records x.1) (values_ (op_chooser_ w))).
Proof. exact (Init_well_formed (λ _ _, None) three_records 3 three_records_uniform). Defined.

Lemma main_succeeds_witness :
  wp (interp (@client_serve stacks _ b64_lowest) (main_one_thread 1 (λ _ _, None) three_records))
     (λ r w', r = Val (Some (3, 20)) ∧
        ∃ db w m, store_is w'.1 db ∧ loaded w m db ∧ 3 ≤ m ≤ 3 + 20 ∧
          ordered_inserts_ w = false ∧ table_name_ w = lit "usertable")
     (store0, 0%nat).
Proof.
  apply (@main_succeeds stacks doubles b64_lowest 0 (λ _ _, None) three_records 3 20);
    [exact b64_lowest_documented|exact three_records_uniform|by vm_compute|by vm_compute|lia].
Defined.
End binary.
