(* ===== verification/Threads.v ===== *)
(** * Threads: several clients at once (ycsbc.cc, core/client.h)

    [main] starts a number of threads that share one workload and one
    database, for the load and again for the transactions.  A thread is a tree
    of the calls that are atomic: the draws of the shared generators, each of
    which locks or is an atomic counter, and the calls of tables and of the
    allocator.  (The random engine itself is shared by generators with
    different locks; a draw from it is taken to be atomic all the same.)  The
    world holds the workload, the store of the database and how many random
    numbers were drawn.  A schedule says which thread takes the next step; the
    transactions of a schedule start where its load has ended.  One thread
    alone does what the client of Client.v does. *)

From Stdlib Require Import ZArith Lia Ascii.
From stdpp Require Import base list strings gmap.
From S2P Require Import Prelude Calls YcsbUtils Generators Workload WorkloadSpec.
From S2P Require Import Table StringHashtable HashtableDb HashtableOps Client WorkloadRun WorkloadTheorems.

Inductive thread_call : Type -> Type :=
  | next_key : thread_call Z
  | next_len : thread_call Z
  | next_char : thread_call Z
  | next_op : thread_call Operation
  | next_request : thread_call Z
  | next_field : thread_call Z
  | next_scan_len : thread_call Z
  | in_db {X} (e : db_call X) : thread_call X.

Section threads.
Context {HT : StringHashtable} {D : Doubles}.

(** ** What a thread does

    [w] is the shared workload, of which only its generators change. *)
Definition thread_NextSequenceKey (w : CoreWorkload) : prog thread_call text :=
  key_num ← call next_key;
  mret (BuildKeyName w key_num).

Definition thread_field_value : prog thread_call text :=
  n ← call next_len;
  r ← call next_char;
  mret (replicate (Z.to_nat n) (RandomPrintChar r)).

Fixpoint thread_values_loop (n : nat) (i : Z) (values : Workload.pairs) : prog thread_call Workload.pairs :=
  match n with
  | O => mret values
  | S n' =>
      v ← thread_field_value;
      thread_values_loop n' (i + 1) (values ++ [(field_name i, v)])
  end.

Definition thread_BuildValues (w : CoreWorkload) : prog thread_call Workload.pairs :=
  thread_values_loop (Z.to_nat (field_count_ w)) 0 [].

Definition thread_NextFieldName : prog thread_call text :=
  n ← call next_field;
  mret (field_name n).

Definition thread_BuildUpdate : prog thread_call Workload.pairs :=
  f ← thread_NextFieldName;
  v ← thread_field_value;
  mret [(f, v)].

(** An operation of the database, for its status. *)
Definition thread_db (o : op) : prog thread_call Z :=
  r ← translate (@in_db) (perform o); mret r.1.

Definition thread_DoInsert (w : CoreWorkload) : prog thread_call bool :=
  key ← thread_NextSequenceKey w;
  values ← thread_BuildValues w;
  z ← thread_db (OInsert (str (table_name_ w)) (str key) (str_pairs values));
  mret (z =? kOK).

Definition thread_read_fields (w : CoreWorkload) : prog thread_call (option (list text)) :=
  if negb (read_all_fields_ w) then
    f ← thread_NextFieldName;
    mret (Some [lit "field" ++ f])
  else mret None.

Definition thread_write_values (w : CoreWorkload) : prog thread_call Workload.pairs :=
  if write_all_fields_ w then thread_BuildValues w else thread_BuildUpdate.

Section transactions.
Variable fuel : nat.

Fixpoint thread_transaction_loop (fuel : nat) (w : CoreWorkload) : prog thread_call Z :=
  match fuel with
  | O => undef
  | S fuel' =>
      key_num ← call next_request;
      if counter_last (insert_key_sequence_ w) <? key_num then thread_transaction_loop fuel' w
      else mret key_num
  end.

Definition thread_NextTransactionKey (w : CoreWorkload) : prog thread_call text :=
  key_num ← thread_transaction_loop fuel w;
  mret (BuildKeyName w key_num).

Definition thread_TransactionRead (w : CoreWorkload) : prog thread_call Z :=
  key ← thread_NextTransactionKey w;
  fields ← thread_read_fields w;
  thread_db (ORead (str (table_name_ w)) (str key) (map str <$> fields)).

Definition thread_TransactionReadModifyWrite (w : CoreWorkload) : prog thread_call Z :=
  key ← thread_NextTransactionKey w;
  fields ← thread_read_fields w;
  _ ← thread_db (ORead (str (table_name_ w)) (str key) (map str <$> fields));
  values ← thread_write_values w;
  thread_db (OUpdate (str (table_name_ w)) (str key) (str_pairs values)).

Definition thread_TransactionScan (w : CoreWorkload) : prog thread_call Z :=
  key ← thread_NextTransactionKey w;
  n ← call next_scan_len;
  fields ← thread_read_fields w;
  thread_db (OScan (str (table_name_ w)) (str key) (i32 n) (map str <$> fields)).

Definition thread_TransactionUpdate (w : CoreWorkload) : prog thread_call Z :=
  key ← thread_NextTransactionKey w;
  values ← thread_write_values w;
  thread_db (OUpdate (str (table_name_ w)) (str key) (str_pairs values)).

Definition thread_TransactionInsert (w : CoreWorkload) : prog thread_call Z :=
  key ← thread_NextSequenceKey w;
  values ← thread_BuildValues w;
  thread_db (OInsert (str (table_name_ w)) (str key) (str_pairs values)).

Definition thread_transaction (op : Operation) : CoreWorkload -> prog thread_call Z :=
  match op with
  | READ => thread_TransactionRead
  | UPDATE => thread_TransactionUpdate
  | INSERT => thread_TransactionInsert
  | SCAN => thread_TransactionScan
  | READMODIFYWRITE => thread_TransactionReadModifyWrite
  end.

Definition thread_DoTransaction (w : CoreWorkload) : prog thread_call bool :=
  op ← call next_op;
  status ← thread_transaction op w;
  if 0 <=? status then mret (status =? kOK) else undef.

Fixpoint thread_DelegateClient (w : CoreWorkload) (num_ops : nat) (is_loading : bool) (oks : Z) :
    prog thread_call Z :=
  match num_ops with
  | O => mret oks
  | S n =>
      ok ← (if is_loading then thread_DoInsert w else thread_DoTransaction w);
      thread_DelegateClient w n is_loading (i32 (oks + Z.b2z ok))
  end.

(** The threads that [main] starts for a phase; the division truncates. *)
Definition phase_threads (w : CoreWorkload) (num_threads total_ops : Z) (is_loading : bool) :
    list (prog thread_call Z) :=
  replicate (Z.to_nat num_threads)
    (thread_DelegateClient w (Z.to_nat (Z.quot total_ops num_threads)) is_loading 0).
End transactions.

(** The sum over the results of the threads. *)
Definition sum_ops (actual_ops : list Z) : Z := foldl (λ sum n, i32 (sum + n)) 0 actual_ops.

(** ** The shared world *)
Record shared := Shared {
  sh_workload : CoreWorkload;
  sh_store : HashtableDb.store;
  sh_drawn : nat
}.

(** Draws from a source, from the [n]-th on. *)
Definition drawn {A} (src : source) (p : prog rnd A) : M nat A :=
  interp (λ X e n, Ok (src n X e, S n)) p.

(** A call of [Next] on one of the workload's generators. *)
Definition next_of (src : source) {V G} (next : CoreWorkload -> prog rnd (V * G))
    (set_g : G -> CoreWorkload -> CoreWorkload) : M shared V := λ s,
  match drawn src (next (sh_workload s)) (sh_drawn s) with
  | Ok ((v, g), n) => Ok (v, Shared (set_g g (sh_workload s)) (sh_store s) n)
  | Stuck => Stuck
  end.

Definition thread_serve (src : source) X (e : thread_call X) : M shared X :=
  match e in thread_call X return M shared X with
  | next_key => next_of src (λ w, draw w (key_generator_ w)) set_key_generator
  | next_len => next_of src (λ w, draw w (field_len_generator_ w)) set_field_len
  | next_op => next_of src (λ w, discrete_next (op_chooser_ w)) set_op_chooser
  | next_request => next_of src (λ w, draw w (key_chooser_ w)) set_key_chooser
  | next_field => next_of src (λ w, draw w (field_chooser_ w)) set_field_chooser
  | next_scan_len => next_of src (λ w, draw w (scan_len_chooser_ w)) set_scan_len
  | next_char => λ s, Ok (src (sh_drawn s) _ rand, Shared (sh_workload s) (sh_store s) (S (sh_drawn s)))
  | in_db e => λ s,
      match serve _ e (sh_store s) with
      | Ok (x, st) => Ok (x, Shared (sh_workload s) st (sh_drawn s))
      | Stuck => Stuck
      end
  end.

(** ** [main]

    The threads of a phase take turns as the schedule [l] says, and [main]
    waits for all of them: [None] if one has not ended when [l] has. *)
Definition returned (ps : list (prog thread_call Z)) : option (list Z) :=
  mapM (λ p, match p with Ret z => Some z | _ => None end) ps.

Definition main_phase (src : source) (l : list nat) (ps : list (prog thread_call Z)) : M shared (option Z) := λ s,
  match schedule (thread_serve src) l ps s with
  | Ok (ps', s') => Ok (sum_ops <$> returned ps', s')
  | Stuck => Stuck
  end.

(** An exception ends the program. *)
Definition or_throw {A B} (e : exc A) (rest : A -> res (exc B)) : res (exc B) :=
  match e with Val a => rest a | Throw m => Ok (Throw m) end.

(** The counts of both phases and the world at the end.  [main] has no
    threads to start, and divides nothing, when [num_threads] is not positive. *)
Definition main_threads (src : source) (fuel : nat) (new_keys_of : Z -> double -> option Z) (p : Properties)
    (l1 l2 : list nat) : res (exc (option (Z * Z * shared))) :=
  match drawn src (Init new_keys_of p) 0%nat with
  | Stuck => Stuck
  | Ok (wl, n) =>
      or_throw wl (λ w,
      or_throw (stoi (prop p "threadcount" "1")) (λ num_threads,
      or_throw (property_at p (lit RECORD_COUNT_PROPERTY) ≫= stoi) (λ total_ops,
      match main_phase src l1 (phase_threads fuel w num_threads total_ops true) (Shared w store0 n) with
      | Stuck => Stuck
      | Ok (None, _) => Ok (Val None)
      | Ok (Some loaded, s) =>
          or_throw (property_at p (lit OPERATION_COUNT_PROPERTY) ≫= stoi) (λ total_ops,
          match main_phase src l2 (phase_threads fuel w num_threads total_ops false) s with
          | Stuck => Stuck
          | Ok (sum, s) => Ok (Val ((λ sum, (loaded, sum, s)) <$> sum))
          end)
      end)))
  end.

(** ** One thread is the client *)

Lemma interp_bind {E W A B} (h : ∀ X, E X -> M W X) (p : prog E A) (f : A -> prog E B) w :
  interp h (p ≫= f) w =
  match interp h p w with Ok (a, w') => interp h (f a) w' | Stuck => Stuck end.
Proof.
  revert w. induction p as [a|X e k IH|]; intros w; [done| |done].
  cbn. unfold mbind, M_bind. destruct (h X e w) as [[x w']|]; [apply IH|done].
Qed.

Lemma drawn_bind {A B} src (p : prog rnd A) (f : A -> prog rnd B) n :
  drawn src (p ≫= f) n = match drawn src p n with Ok (a, n') => drawn src (f a) n' | Stuck => Stuck end.
Proof. apply interp_bind. Qed.

(** A draw of the client, and a call of the database by a thread. *)
Lemma interp_workload {A} src (p : prog rnd A) st n :
  interp (client_serve src) (workload_ p) (st, n) =
  match drawn src p n with Ok (a, n') => Ok (a, (st, n')) | Stuck => Stuck end.
Proof.
  unfold workload_, drawn. revert n. induction p as [a|X e k IH|]; intros n; [done| |done]. cbn. apply IH.
Qed.

Lemma interp_in_db {A} src (p : prog db_call A) w st n :
  interp (thread_serve src) (translate (@in_db) p) (Shared w st n) =
  match interp serve p st with Ok (a, st') => Ok (a, Shared w st' n) | Stuck => Stuck end.
Proof.
  revert st. induction p as [a|X e k IH|]; intros st; [done| |done].
  cbn. unfold mbind, M_bind. cbn. destruct (serve X e st) as [[x st']|]; [apply IH|done].
Qed.

(** Draws of the workload [w] and of the client, as the shared world has them. *)
Definition shared_draw {A} (st : HashtableDb.store) (r : res ((A * CoreWorkload) * nat)) : res (A * shared) :=
  match r with Ok ((a, w), n) => Ok (a, Shared w st n) | Stuck => Stuck end.
Definition as_shared {A} (r : res ((A * CoreWorkload) * (HashtableDb.store * nat))) : res (A * shared) :=
  match r with Ok ((a, w), (st, n)) => Ok (a, Shared w st n) | Stuck => Stuck end.

(** The thread [p] is in step with the draws [q] of the workload [w], which
    change generators only. *)
Definition in_step {A} src (p : prog thread_call A) (q : prog rnd (A * CoreWorkload)) w : Prop :=
  ∀ st n, interp (thread_serve src) p (Shared w st n) = shared_draw st (drawn src q n) ∧
          match drawn src q n with Ok ((_, w'), _) => static w' = static w | Stuck => True end.

Lemma in_step_ret {A} src (a : A) w : in_step src (mret a) (mret (a, w)) w.
Proof. done. Qed.

Lemma in_step_bind {A B} src (p : prog thread_call A) q (f : A -> prog thread_call B) g w :
  in_step src p q w -> (∀ a w', static w' = static w -> in_step src (f a) (g (a, w')) w') ->
  in_step src (p ≫= f) (q ≫= g) w.
Proof.
  intros Hp Hf st n. rewrite interp_bind, drawn_bind. destruct (Hp st n) as [-> Hs].
  destruct (drawn src q n) as [[[a w'] n']|]; [|done]. cbn [shared_draw].
  destruct (Hf a w' Hs st n') as [-> Hs']. split; [done|].
  destruct (drawn src (g (a, w')) n') as [[[b w2] n2]|]; [congruence|done].
Qed.

(** One draw. *)
Lemma in_step_next {V G A} src (e : thread_call V) (next : CoreWorkload -> prog rnd (V * G)) set_g (f : V -> A) w :
  thread_serve src V e = next_of src next set_g -> (∀ g, static (set_g g w) = static w) ->
  in_step src (x ← call e; mret (f x)) ('(v, g) ← next w; mret (f v, set_g g w)) w.
Proof.
  intros He Hs st n. rewrite interp_bind, drawn_bind. cbn [interp call]. unfold mbind at 1, M_bind. rewrite He.
  unfold next_of. cbn [sh_workload sh_drawn sh_store].
  destruct (drawn src (next w) n) as [[[v g] n']|]; [|done]. split; [done|]. apply (Hs g).
Qed.

Section one.
Variables (src : source) (w0 : CoreWorkload).

Lemma one_NextSequenceKey w :
  static w = static w0 -> in_step src (thread_NextSequenceKey w0) (NextSequenceKey w) w.
Proof.
  intros Hw. unfold thread_NextSequenceKey, NextSequenceKey.
  assert (∀ v, BuildKeyName w0 v = BuildKeyName w v) as Hv by (intros v; symmetry; by apply BuildKeyName_static).
  intros st n. destruct (in_step_next src next_key (λ w, draw w (key_generator_ w)) set_key_generator (BuildKeyName w) w
    eq_refl (λ _, eq_refl) st n) as [H1 H2].
  split; [|exact H2]. rewrite <-H1, !interp_bind. by destruct (interp _ (call next_key) _) as [[v s]|]; [rewrite Hv|].
Qed.

Lemma one_field_value w : in_step src thread_field_value (field_value w) w.
Proof.
  intros st n. unfold thread_field_value, field_value. rewrite interp_bind, drawn_bind.
  cbn [interp call thread_serve]. unfold mbind at 1, M_bind, mret, M_ret, next_of. cbn [sh_workload sh_drawn sh_store].
  by destruct (drawn src (draw w (field_len_generator_ w)) n) as [[[v g] n']|].
Qed.

Lemma one_values_loop k i w values : in_step src (thread_values_loop k i values) (values_loop k i w values) w.
Proof.
  revert i w values. induction k as [|k IH]; intros i w values; [apply in_step_ret|].
  cbn [thread_values_loop values_loop]. apply in_step_bind; [apply one_field_value|]. intros v w' _. apply IH.
Qed.

Lemma one_BuildValues w : static w = static w0 -> in_step src (thread_BuildValues w0) (BuildValues w) w.
Proof.
  intros Hw. unfold thread_BuildValues, BuildValues.
  assert (field_count_ w0 = field_count_ w) as -> by (injection Hw; congruence). apply one_values_loop.
Qed.

Lemma one_NextFieldName w : in_step src thread_NextFieldName (NextFieldName w) w.
Proof. by apply (in_step_next src next_field (λ w, draw w (field_chooser_ w)) set_field_chooser field_name). Qed.

Lemma one_BuildUpdate w : in_step src thread_BuildUpdate (BuildUpdate w) w.
Proof.
  apply in_step_bind; [apply one_NextFieldName|]. intros f w1 _.
  apply in_step_bind; [apply one_field_value|]. intros v w2 _. apply in_step_ret.
Qed.

(** The thread [p] and the client [q], from the same world. *)
Definition agrees {A} (p : prog thread_call A) (q : prog client_call (A * CoreWorkload)) w : Prop :=
  ∀ st n, let r := interp (client_serve src) q (st, n) in
    interp (thread_serve src) p (Shared w st n) = as_shared r ∧
    match r with Ok ((_, w'), _) => static w' = static w0 | Stuck => True end.

Lemma agrees_ret {A} (a : A) w : static w = static w0 -> agrees (mret a) (mret (a, w)) w.
Proof. done. Qed.

Lemma agrees_bind {A B} (p : prog thread_call A) q (f : A -> prog thread_call B) g w :
  agrees p q w -> (∀ a w', static w' = static w0 -> agrees (f a) (g (a, w')) w') ->
  agrees (p ≫= f) (q ≫= g) w.
Proof.
  intros Hp Hf st n. cbv zeta. rewrite !interp_bind. destruct (Hp st n) as [-> Hs].
  destruct (interp (client_serve src) q (st, n)) as [[[a w'] [st' n']]|]; [|done]. by apply Hf.
Qed.

Lemma agrees_draws {A} (p : prog thread_call A) (q : prog rnd (A * CoreWorkload)) w :
  static w = static w0 -> in_step src p q w -> agrees p (workload_ q) w.
Proof.
  intros Hw Hp st n. cbv zeta. rewrite interp_workload. destruct (Hp st n) as [-> Hs].
  destruct (drawn src q n) as [[[a w'] n']|]; [|done]. split; [done|congruence].
Qed.

Lemma interp_on_db o st n :
  interp (client_serve src) (r ← call (on_db o); mret r.1) (st, n) =
  match interp serve (perform o) st with Ok (r, st') => Ok (r.1, (st', n)) | Stuck => Stuck end.
Proof.
  rewrite interp_bind. cbn [interp call]. unfold mbind, M_bind. cbn [client_serve fst snd].
  by destruct (interp serve (perform o) st) as [[r st']|].
Qed.

Lemma interp_thread_db o w st n :
  interp (thread_serve src) (thread_db o) (Shared w st n) =
  match interp serve (perform o) st with Ok (r, st') => Ok (r.1, Shared w st' n) | Stuck => Stuck end.
Proof.
  unfold thread_db. rewrite interp_bind, interp_in_db.
  change (Z * list (list KVPair))%type with result.
  by destruct (interp serve (perform o) st) as [[r st']|].
Qed.

(** An operation of the database, and then the rest. *)
Lemma agrees_db {B} o (f : Z -> prog thread_call B) g w :
  (∀ z, agrees (f z) (g z) w) -> agrees (thread_db o ≫= f) ((r ← call (on_db o); mret r.1) ≫= g) w.
Proof.
  intros Hf st n. cbv zeta. rewrite (interp_bind _ _ g), interp_on_db, (interp_bind _ _ f), interp_thread_db.
  destruct (interp serve (perform o) st) as [[r st']|]; [apply Hf|done].
Qed.

(** An operation at the end of a transaction. *)
Lemma agrees_last o w :
  static w = static w0 -> agrees (thread_db o) (z ← (r ← call (on_db o); mret r.1); mret (z, w)) w.
Proof.
  intros Hw st n. assert (agrees (thread_db o ≫= mret) (z ← (r ← call (on_db o); mret r.1); mret (z, w)) w) as H
    by (apply agrees_db; intros z; by apply agrees_ret).
  specialize (H st n). cbv zeta in H |- *. destruct H as [H1 H2]. split; [|exact H2].
  refine (eq_trans _ H1). rewrite interp_bind.
  by destruct (interp (thread_serve src) (thread_db o) _) as [[z s]|].
Qed.

Lemma same_fields w : static w = static w0 ->
  table_name_ w = table_name_ w0 ∧ read_all_fields_ w = read_all_fields_ w0 ∧
  write_all_fields_ w = write_all_fields_ w0 ∧ insert_key_sequence_ w = insert_key_sequence_ w0.
Proof. intros [=]. done. Qed.

Lemma agrees_DoInsert w : static w = static w0 -> agrees (thread_DoInsert w0) (DoInsert w) w.
Proof.
  intros Hw. apply agrees_bind; [by apply agrees_draws, one_NextSequenceKey|]. intros key w1 H1.
  apply agrees_bind; [by apply agrees_draws, one_BuildValues|]. intros values w2 H2.
  destruct (same_fields w2 H2) as [<- _]. apply agrees_db. intros z. by apply agrees_ret.
Qed.

Lemma agrees_TransactionInsert w : static w = static w0 -> agrees (thread_TransactionInsert w0) (TransactionInsert w) w.
Proof.
  intros Hw. apply agrees_bind; [by apply agrees_draws, one_NextSequenceKey|]. intros key w1 H1.
  apply agrees_bind; [by apply agrees_draws, one_BuildValues|]. intros values w2 H2.
  destruct (same_fields w2 H2) as [<- _]. by apply agrees_last.
Qed.

Lemma agrees_read_fields w : static w = static w0 -> agrees (thread_read_fields w0) (read_fields w) w.
Proof.
  intros Hw. unfold thread_read_fields, read_fields. destruct (same_fields w Hw) as (_ & -> & _).
  destruct (negb (read_all_fields_ w0)); [|by apply agrees_ret].
  apply agrees_bind; [by apply agrees_draws, one_NextFieldName|]. intros f w1 H1. by apply agrees_ret.
Qed.

Lemma agrees_write_values w : static w = static w0 -> agrees (thread_write_values w0) (write_values w) w.
Proof.
  intros Hw. unfold thread_write_values, write_values. destruct (same_fields w Hw) as (_ & _ & -> & _).
  apply agrees_draws; [done|]. destruct (write_all_fields_ w0); [by apply one_BuildValues|apply one_BuildUpdate].
Qed.

Lemma one_transaction_loop fuel w :
  static w = static w0 -> in_step src (thread_transaction_loop fuel w0) (transaction_loop fuel w) w.
Proof.
  revert w. induction fuel as [|fuel IH]; intros w Hw; [done|]. cbn [thread_transaction_loop transaction_loop].
  intros st n. rewrite interp_bind, drawn_bind. cbn [interp call thread_serve].
  unfold mbind at 1, M_bind, mret at 1, M_ret, next_of. cbn [sh_workload sh_drawn sh_store].
  destruct (drawn src (draw w (key_chooser_ w)) n) as [[[v g] n1]|]; [|done]. cbv zeta.
  destruct (same_fields (set_key_chooser g w) Hw) as (_ & _ & _ & ->).
  destruct (counter_last (insert_key_sequence_ w0) <? v); [|done]. exact (IH (set_key_chooser g w) Hw st n1).
Qed.

Lemma agrees_NextTransactionKey fuel w :
  static w = static w0 ->
  agrees (thread_NextTransactionKey fuel w0) (workload_ (NextTransactionKey fuel w)) w.
Proof.
  intros Hw. apply agrees_draws; [done|]. apply in_step_bind; [by apply one_transaction_loop|].
  intros v w1 H1. rewrite (BuildKeyName_static w1 w0 v) by congruence. apply in_step_ret.
Qed.

Lemma agrees_transaction fuel op w :
  static w = static w0 -> agrees (thread_transaction fuel op w0) (transaction fuel op w) w.
Proof.
  intros Hw. destruct op; cbn [thread_transaction transaction]; [by apply agrees_TransactionInsert|..];
    (apply agrees_bind; [by apply agrees_NextTransactionKey|]; intros key w1 H1).
  - apply agrees_bind; [by apply agrees_read_fields|]. intros fields w2 H2.
    destruct (same_fields w2 H2) as [<- _]. by apply agrees_last.
  - apply agrees_bind; [by apply agrees_write_values|]. intros values w2 H2.
    destruct (same_fields w2 H2) as [<- _]. by apply agrees_last.
  - apply agrees_bind.
    { apply agrees_draws; [done|].
      assert (call next_scan_len = (n ← call next_scan_len; mret n)) as -> by done.
      by apply (in_step_next src next_scan_len (λ w, draw w (scan_len_chooser_ w)) set_scan_len id). }
    intros len w2 H2. apply agrees_bind; [by apply agrees_read_fields|]. intros fields w3 H3.
    destruct (same_fields w3 H3) as [<- _]. by apply agrees_last.
  - apply agrees_bind; [by apply agrees_read_fields|]. intros fields w2 H2.
    destruct (same_fields w2 H2) as [<- _]. apply agrees_db. intros _.
    apply agrees_bind; [by apply agrees_write_values|]. intros values w3 H3.
    destruct (same_fields w3 H3) as [E _]. rewrite (proj1 (same_fields w2 H2)), <-E. by apply agrees_last.
Qed.

Lemma agrees_DoTransaction fuel w : static w = static w0 -> agrees (thread_DoTransaction fuel w0) (DoTransaction fuel w) w.
Proof.
  intros Hw. unfold thread_DoTransaction, DoTransaction. apply agrees_bind.
  { apply agrees_draws; [done|]. assert (call next_op = (n ← call next_op; mret n)) as -> by done.
    by apply (in_step_next src next_op (λ w, discrete_next (op_chooser_ w)) set_op_chooser id). }
  intros op w1 H1. apply agrees_bind; [by apply agrees_transaction|]. intros z w2 H2.
  destruct (0 <=? z); [by apply agrees_ret|done].
Qed.

Lemma agrees_DelegateClient fuel m is_loading oks w :
  static w = static w0 ->
  agrees (thread_DelegateClient fuel w0 m is_loading oks) (DelegateClient fuel m is_loading oks w) w.
Proof.
  revert oks w. induction m as [|m IH]; intros oks w Hw; [by apply agrees_ret|].
  cbn [thread_DelegateClient DelegateClient]. apply agrees_bind; [|intros ok w1 H1; by apply IH].
  destruct is_loading; [by apply agrees_DoInsert|by apply agrees_DoTransaction].
Qed.
End one.

(** One thread of the shared workload is the client that owns its
    workload.  Whether it loads records or runs transactions, and from any
    workload, store and source of random numbers, it returns the same count
    of successes and leaves the same workload and the same store, or it is
    stuck when the client is. *)
Theorem one_thread_is_the_client src fuel w total_ops is_loading st n :
  match phase_threads fuel w 1 total_ops is_loading with
  | [p] => interp (thread_serve src) p (Shared w st n) =
           as_shared (interp (client_serve src) (DelegateClient fuel (Z.to_nat total_ops) is_loading 0 w) (st, n))
  | _ => False
  end.
Proof. unfold phase_threads. rewrite Z.quot_1_r. by apply agrees_DelegateClient. Qed.
End threads.
