(* ===== verification/ThreadsSpec.v ===== *)
(** * ThreadsSpec: the part that a thread has of the shared world

    The records that a thread inserts are its own: the shared counter gives
    every key number to one thread, and other threads touch neither its keys,
    nor its tables, nor its strings.  What a thread has seen of other records
    stays alive as long as nothing is freed.  [thread_spec] says which calls
    a thread may make by its view and what they do to the view; calls that
    free or replace are not among them.  [calls_framed]: such a call leaves
    the views of the other threads alone. *)

From Stdlib Require Import ZArith Lia.
From stdpp Require Import base list list_numbers strings gmap sets fin_maps fin_map_dom.
From S2P Require Import Prelude Calls Parallel YcsbUtils Generators Workload WorkloadSpec.
From S2P Require Import Table StringHashtable HashtableDb HashtableSpec HashtableOps Client.
From S2P Require Import WorkloadRun WorkloadTheorems Threads.

(** ** The view of a thread

    The key numbers it has taken and may still take, its keys and tables, its
    loose strings, and the tables and strings it has seen. *)
Record view := View {
  nums : list Z;
  quota : nat;
  vK : gmap string loc;
  vR : gmap loc record;
  vE : list (loc * string);
  vT : gset loc;
  vS : gset loc
}.

Definition new_view (n : nat) : view := View [] n ∅ ∅ [] ∅ ∅.
Definition take_num (n : Z) (s : view) : view :=
  View (n :: nums s) (pred (quota s)) (vK s) (vR s) (vE s) (vT s) (vS s).
Definition put_key (key : string) (t : loc) (s : view) : view :=
  View (nums s) (quota s) (<[key := t]> (vK s)) (vR s) (vE s) (vT s) (vS s).
Definition put_record (t : loc) (fs : record) (es : list (loc * string)) (s : view) : view :=
  View (nums s) (quota s) (vK s) (<[t := fs]> (vR s)) es (vT s) (vS s).
Definition hold (v : loc) (x : string) (s : view) : view :=
  View (nums s) (quota s) (vK s) (vR s) ((v, x) :: vE s) (vT s) (vS s).
Definition see_tables (ts : list loc) (s : view) : view :=
  View (nums s) (quota s) (vK s) (vR s) (vE s) (list_to_set ts ∪ vT s) (vS s).
Definition see_strings (ss : list loc) (s : view) : view :=
  View (nums s) (quota s) (vK s) (vR s) (vE s) (vT s) (list_to_set ss ∪ vS s).

Section spec.
Context {HT : StringHashtable} {D : Doubles}.
(** The workload before the run, a bound of all key numbers, the view of what
    was there before the run, and the operations that the workload chooses. *)
Variables (w0 : CoreWorkload) (N : Z) (base : view) (chosen : Operation -> Prop).
Hypothesis (Hready : ready w0) (Hdistinct : distinct w0 N) (HN : N < 2 ^ 64).

Definition named (s : view) (key : string) : Prop := ∃ n, n ∈ nums s ∧ key = kname w0 n.

(** What a thread may call, and how its view changes. *)
Definition db_spec X (e : db_call X) (s : view) : (X -> view -> Prop) -> Prop :=
  match e in db_call X return (X -> view -> Prop) -> Prop with
  | key_Get key => λ P, ∀ o,
      (named s key -> o = vK s !! key) -> (is_Some (vK base !! key) -> is_Some o) ->
      P o (see_tables (option_list o) s)
  | key_Insert key t => λ P,
      named s key ∧ vK s !! key = None ∧ is_Some (vR s !! t) ∧ P true (put_key key t s)
  | key_Entries (Some _) n => λ P, 0 ≤ n ∧ ∀ es, P es (see_tables es.*2 s)
  | field_Get t _ => λ P, t ∈ vT s ∧ ∀ o, P o (see_strings (option_list o) s)
  | field_Entries t => λ P, t ∈ vT s ∧ ∀ es, P es (see_strings es.*2 s)
  | read_string v => λ P, v ∈ vS s ∧ ∀ x, P x s
  | NewFieldHashtable => λ P, ∀ t, vR s !! t = None -> P t (put_record t ∅ (vE s) s)
  | CopyString x => λ P, ∀ v, P v (hold v (c_str x) s)
  | field_Insert t f v => λ P, ∃ fs x es,
      vR s !! t = Some fs ∧ fs !! f = None ∧ vE s = (v, x) :: es ∧
      P true (put_record t (<[f := x]> fs) es s)
  | _ => λ _, False
  end.

Definition thread_spec X (e : thread_call X) (s : view) : (X -> view -> Prop) -> Prop :=
  match e in thread_call X return (X -> view -> Prop) -> Prop with
  | next_key => λ P, (0 < quota s)%nat ∧ ∀ n, 0 ≤ n < N -> n ∉ nums s -> P n (take_num n s)
  | next_request => λ P, ∀ v, 0 ≤ v < insert_key_sequence_ w0 -> P v s
  | next_op => λ P, ∀ o, chosen o -> P o s
  | next_len | next_char | next_field | next_scan_len => λ P, ∀ v, P v s
  | in_db e => db_spec _ e s
  end.

Lemma thread_spec_mono X (e : thread_call X) s (P Q : X -> view -> Prop) :
  thread_spec X e s P -> (∀ x s', P x s' -> Q x s') -> thread_spec X e s Q.
Proof. destruct e as [| | | | | | |X [ | | | [] | | | | | | | | | | ]]; cbn; naive_solver. Qed.

(** ** The shared world and all views *)
Record world_is (s : shared) (vs : list view) : Prop := {
  wi_quota : Z.of_nat (length (concat (nums <$> vs)) + sum_list (quota <$> vs)) ≤ N;
  wi_nums : concat (nums <$> vs) ≡ₚ seqZ 0 (Z.of_nat (length (concat (nums <$> vs))));
  wi_workload : after w0 (Z.of_nat (length (concat (nums <$> vs)))) (sh_workload s);
  wi_chosen : Forall (λ x, chosen x.1) (values_ (op_chooser_ (sh_workload s)));
  wi_named : Forall (λ v, ∀ key, is_Some (vK v !! key) -> named v key) vs;
  wi_seen : Forall (λ v, vT v ⊆ dom (tables (sh_store s)) ∧ vS v ⊆ dom (strs (sh_store s))) vs;
  wi_store : ∃ K R, parts K (vK <$> vs) ∧ parts R (vR <$> vs) ∧
    (∀ key t, K !! key = Some t -> is_Some (R !! t)) ∧
    models (sh_store s) K R (concat (vE <$> vs)) 0
}.

(** The threads beside what was there before. *)
Definition world_of (s : shared) (vs : list view) : Prop := world_is s (base :: vs).

Lemma wi_range s vs i v n :
  world_is s vs -> vs !! i = Some v -> n ∈ nums v ->
  0 ≤ n < Z.of_nat (length (concat (nums <$> vs))).
Proof.
  intros H Hi Hn. assert (n ∈ concat (nums <$> vs)) as Hin.
  { rewrite (concat_part _ i (nums v)) by (by rewrite list_lookup_fmap, Hi). apply elem_of_app. by left. }
  rewrite (wi_nums _ _ H), elem_of_seqZ in Hin. lia.
Qed.

Lemma wi_range_N s vs i v n : world_is s vs -> vs !! i = Some v -> n ∈ nums v -> 0 ≤ n < N.
Proof. intros H Hi Hn. pose proof (wi_range _ _ _ _ _ H Hi Hn). pose proof (wi_quota _ _ H). lia. Qed.

Lemma sum_insert (l : list nat) i x y :
  l !! i = Some x -> (sum_list (<[i := y]> l) + x = sum_list l + y)%nat.
Proof.
  revert i. induction l as [|z l IH]; intros [|i] Hi; [done..|injection Hi as ->; cbn; unfold id; lia|].
  specialize (IH i Hi). change (z + sum_list (<[i := y]> l) + x = z + sum_list l + y)%nat. lia.
Qed.

(** The store, with the strings of the view [i] in front. *)
Lemma world_open s vs i v :
  world_is s vs -> vs !! i = Some v ->
  ∃ K R, parts K (vK <$> vs) ∧ parts R (vR <$> vs) ∧ (∀ key t, K !! key = Some t -> is_Some (R !! t)) ∧
    (vK <$> vs) !! i = Some (vK v) ∧ (vR <$> vs) !! i = Some (vR v) ∧
    models (sh_store s) K R (vE v ++ concat (delete i (vE <$> vs))) 0 ∧
    vT v ⊆ dom (tables (sh_store s)) ∧ vS v ⊆ dom (strs (sh_store s)).
Proof.
  intros H Hi. destruct (wi_store _ _ H) as (K & R & HK & HR & HL & Hm). exists K, R.
  pose proof (wi_seen _ _ H) as Hs. rewrite Forall_lookup in Hs. destruct (Hs i v Hi) as [H1 H2].
  rewrite !list_lookup_fmap, Hi. split_and!; [done..| |done|done]. eapply models_perm; [|exact Hm].
  apply concat_part. by rewrite list_lookup_fmap, Hi.
Qed.

Lemma fmap_same {B} (f : view -> B) (vs : list view) (i : nat) v v' :
  vs !! i = Some v -> f v' = f v -> f <$> <[i := v']> vs = f <$> vs.
Proof.
  intros Hi Hf. rewrite list_fmap_insert. apply list_insert_id. by rewrite list_lookup_fmap, Hi, Hf.
Qed.

(** What a call of the database leaves: [v'] in the place of [v]. *)
Record moved (st : HashtableDb.store) (vs : list view) (i : nat) (v v' : view) (st' : HashtableDb.store) : Prop := {
  mv_nums : nums v' = nums v;
  mv_quota : quota v' = quota v;
  mv_named key : is_Some (vK v' !! key) -> named v' key;
  mv_tables : vT v' ⊆ dom (tables st);
  mv_strings : vS v' ⊆ dom (strs st);
  mv_store : ∃ K R, parts K (<[i := vK v']> (vK <$> vs)) ∧ parts R (<[i := vR v']> (vR <$> vs)) ∧
    (∀ key t, K !! key = Some t -> is_Some (R !! t)) ∧ models st' K R (vE v' ++ concat (delete i (vE <$> vs))) 0
}.

Lemma world_close s vs i v v' st' :
  world_is s vs -> vs !! i = Some v -> moved (sh_store s) vs i v v' st' ->
  dom (tables (sh_store s)) ⊆ dom (tables st') -> dom (strs (sh_store s)) ⊆ dom (strs st') ->
  world_is (Shared (sh_workload s) st' (sh_drawn s)) (<[i := v']> vs).
Proof.
  intros H Hi [Hn Hq Hk HT' HS' (K & R & HK & HR & HL & Hm)] Ht Hs.
  split; rewrite ?(fmap_same nums vs i v v' Hi Hn), ?(fmap_same quota vs i v v' Hi Hq).
  - apply (wi_quota _ _ H).
  - apply (wi_nums _ _ H).
  - apply (wi_workload _ _ H).
  - apply (wi_chosen _ _ H).
  - apply Forall_insert; [apply (wi_named _ _ H)|done].
  - apply Forall_insert; [|set_solver]. eapply Forall_impl; [apply (wi_seen _ _ H)|]. cbn. intros x [H1 H2]. set_solver.
  - exists K, R. rewrite !list_fmap_insert. split_and!; [done..|]. eapply models_perm; [|exact Hm].
    symmetry. apply (concat_replace _ i (vE v)). by rewrite list_lookup_fmap, Hi.
Qed.

Lemma world_named s vs i v key : world_is s vs -> vs !! i = Some v -> is_Some (vK v !! key) -> named v key.
Proof. intros H Hi. pose proof (wi_named _ _ H) as Hn. rewrite Forall_lookup in Hn. by apply (Hn i). Qed.

(** Names are of one number, and numbers of one view. *)
Lemma kname_one i j : 0 ≤ i < N -> 0 ≤ j < N -> kname w0 i = kname w0 j -> i = j.
Proof.
  intros Hi Hj E. rewrite !kname_eq in E by (done || lia). apply str_inj, app_inv_head in E. by apply Hdistinct.
Qed.

Lemma nums_one s vs i j v v' n :
  world_is s vs -> vs !! i = Some v -> vs !! j = Some v' -> n ∈ nums v -> n ∈ nums v' -> i = j.
Proof.
  intros H Hi Hj. apply (concat_one (nums <$> vs) i j (nums v) (nums v') n).
  - rewrite (wi_nums _ _ H). apply NoDup_seqZ.
  - by rewrite list_lookup_fmap, Hi.
  - by rewrite list_lookup_fmap, Hj.
Qed.

(** A key of the view is where the view says, or nowhere. *)
Lemma world_key s vs i v K key :
  world_is s vs -> vs !! i = Some v -> parts K (vK <$> vs) -> named v key -> K !! key = vK v !! key.
Proof.
  intros H Hi HK (n & Hn & ->).
  assert ((vK <$> vs) !! i = Some (vK v)) as Hi' by (by rewrite list_lookup_fmap, Hi).
  destruct (vK v !! kname w0 n) as [t|] eqn:Hk; [by eapply parts_lookup|].
  apply (parts_none K (vK <$> vs) i (vK v)); [done..|]. intros j mj Hj Hji.
  rewrite list_lookup_fmap in Hj. destruct (vs !! j) as [v'|] eqn:Hv; [|done]. injection Hj as <-.
  apply eq_None_not_Some. intros Hs. destruct (world_named _ _ _ _ _ H Hv Hs) as (n' & Hn' & E).
  apply kname_one in E; [|exact (wi_range_N _ _ _ _ _ H Hi Hn)|exact (wi_range_N _ _ _ _ _ H Hv Hn')]. subst n'. apply Hji. by eapply nums_one.
Qed.

(** ** Every call leaves the other views alone *)
Lemma drawn_ends {A} src (p : prog rnd A) (Q : A -> Prop) n :
  documented src -> ends p Q -> ∃ a n', drawn src p n = Ok (a, n') ∧ Q a.
Proof.
  intros Hsrc H. assert (wp (drawn src p) (λ a _, ∃ s' : unit, Q a ∧ True) n) as Hd.
  { apply (dpost_interp rnd_spec _ (λ _ _, True) p (λ a _, Q a) tt); [|exact H|done].
    intros X e [] m P _ He. exists tt. split; [|done]. exact (Hsrc m X e P He). }
  unfold wp in Hd. destruct (drawn src p n) as [[a n']|]; [|done]. exists a, n'. by destruct Hd as (_ & ? & _).
Qed.

(** Only the calls that free make the store smaller. *)
Definition frees {X} (e : db_call X) : bool :=
  match e with delete_keys | delete_table _ | DeleteString _ => true | _ => false end.

Lemma serve_grows X (e : db_call X) st x st' :
  frees e = false -> serve X e st = Ok (x, st') ->
  dom (tables st) ⊆ dom (tables st') ∧ dom (strs st) ⊆ dom (strs st').
Proof.
  destruct e; cbn; unfold mbind, M_bind, get_keys, set_keys, on_keys, get_table, set_table, mret, M_ret; try done; intros _ H;
    repeat case_match; simplify_eq; cbn; set_solver.
Qed.

Lemma seen_table st K R es L t : models st K R es L -> is_Some (R !! t) -> t ∈ dom (tables st).
Proof.
  intros Hm HR. apply elem_of_dom. rewrite <-(m_records _ _ _ _ _ Hm) in HR. unfold records_of in HR.
  rewrite lookup_fmap in HR. by apply fmap_is_Some in HR.
Qed.

Lemma seen_string st K R es L v : models st K R es L -> v ∈ owned (tables st) -> v ∈ dom (strs st).
Proof. intros Hm Hv. apply elem_of_dom. destruct (models_live _ _ _ _ _ _ Hm Hv) as [s ->]. by eexists. Qed.

Section moves.
Variables (s : shared) (vs : list view) (i : nat) (v : view).
Hypothesis (H : world_is s vs) (H0 : vs !! 0%nat = Some base) (Hi : vs !! i = Some v).

(** The view sees more of what is there. *)
Lemma moved_sees T' S' K R :
  T' ⊆ dom (tables (sh_store s)) -> S' ⊆ dom (strs (sh_store s)) ->
  parts K (vK <$> vs) -> parts R (vR <$> vs) -> (∀ key t, K !! key = Some t -> is_Some (R !! t)) ->
  models (sh_store s) K R (vE v ++ concat (delete i (vE <$> vs))) 0 ->
  moved (sh_store s) vs i v (View (nums v) (quota v) (vK v) (vR v) (vE v) T' S') (sh_store s).
Proof.
  intros H1 H2 HK HR HL Hm. split; cbn; try done.
  - intros key Hk. destruct (world_named _ _ _ _ _ H Hi Hk) as (n & Hn). by exists n.
  - exists K, R. rewrite !list_insert_id by (by rewrite list_lookup_fmap, Hi). done.
Qed.

(** The view has its own changes. *)
Lemma moved_owns K R K' R' E' st' :
  (∀ key, is_Some (K' !! key) -> named v key) -> vT v ⊆ dom (tables (sh_store s)) -> vS v ⊆ dom (strs (sh_store s)) ->
  parts K (<[i := K']> (vK <$> vs)) -> parts R (<[i := R']> (vR <$> vs)) ->
  (∀ key t, K !! key = Some t -> is_Some (R !! t)) -> models st' K R (E' ++ concat (delete i (vE <$> vs))) 0 ->
  moved (sh_store s) vs i v (View (nums v) (quota v) K' R' E' (vT v) (vS v)) st'.
Proof. intros. split; try done. by exists K, R. Qed.

Lemma db_moves X (e : db_call X) (P : X -> view -> Prop) :
  db_spec X e v P -> wp (serve X e) (λ x st', ∃ v', P x v' ∧ moved (sh_store s) vs i v v' st') (sh_store s).
Proof.
  intros Hspec. destruct (world_open _ _ _ _ H Hi) as (K & R & HK & HR & HL & HKi & HRi & Hm & Hvt & Hvs).
  assert (∀ key, is_Some (vK v !! key) -> named v key) as Hnm by (intros key; by eapply world_named).
  assert (parts K (<[i := vK v]> (vK <$> vs))) as HKs by (by rewrite list_insert_id).
  assert (parts R (<[i := vR v]> (vR <$> vs))) as HRs by (by rewrite list_insert_id).
  destruct e as [key|key t| |[key|] n| |t f|t f x| |t| | |x| |x]; cbn in Hspec; try done.
  - eapply key_Get_rule; [exact Hm|]. eexists. split.
    { apply Hspec; [by eapply world_key|]. intros [t Ht]. exists t.
      apply (parts_lookup _ _ 0%nat (vK base) _ _ HK); [by rewrite list_lookup_fmap, H0|done]. }
    apply (moved_sees _ _ K R); try done. destruct (K !! key) as [t|] eqn:Hk; cbn; [|set_solver].
    pose proof (seen_table _ _ _ _ _ t Hm (HL _ _ Hk)). set_solver.
  - destruct Hspec as (Hn & Hk & Ht & HP). pose proof (world_key _ _ _ _ _ _ H Hi HK Hn) as Hk'. rewrite Hk in Hk'.
    eapply key_Insert_rule; [exact Hm|exact Hk'|]. intros st' Hm'. eexists. split; [exact HP|].
    eapply moved_owns; [|done|done| |exact HRs| |exact Hm'].
    + intros key'. rewrite lookup_insert_is_Some'. intros [<-|Hs]; [exact Hn|by apply Hnm].
    + apply parts_insert; [done..|by left].
    + intros key' t' [[<- <-]|[_ Hkt]]%lookup_insert_Some; [|by eapply HL].
      destruct Ht as [fs Ht]. exists fs. exact (parts_lookup _ _ _ _ _ _ HR HRi Ht).
  - destruct Hspec as [Hn HP]. eapply key_Entries_rule; [exact Hm|exact Hn|]. intros l Hl _ _ _.
    eexists. split; [apply HP|]. apply (moved_sees _ _ K R); try done.
    intros t [Ht|Ht]%elem_of_union; [|by apply Hvt]. apply elem_of_list_to_set, list_elem_of_fmap in Ht as (e & -> & He).
    rewrite Forall_forall in Hl. eapply seen_table; [exact Hm|]. eapply HL. by apply Hl.
  - destruct Hspec as [Ht HP]. apply Hvt, elem_of_dom in Ht as [ft Ht].
    unfold wp. cbn [serve]. unfold mbind, M_bind, get_table, mret, M_ret. rewrite Ht.
    eexists. split; [apply HP|]. apply (moved_sees _ _ K R); try done.
    rewrite Get_law by (by apply (m_tables_ok _ _ _ _ _ Hm t)). intros y [Hy|Hy]%elem_of_union; [|by apply Hvs].
    apply elem_of_list_to_set in Hy. eapply seen_string; [exact Hm|]. eapply (tmap_owned f y); [|exact Ht].
    unfold tmap. destruct (map_of (ht_pairs ft) !! f) as [z|]; [|by apply not_elem_of_nil in Hy].
    by apply list_elem_of_singleton in Hy as ->.
  - destruct Hspec as (fs & y & es & Ht & Hf & Hes & HP). rewrite Hes in Hm.
    eapply field_Insert_rule; [exact Hm|exact (parts_lookup _ _ _ _ _ _ HR HRi Ht)|exact Hf|]. intros st' Hm'. eexists.
    split; [exact HP|]. eapply moved_owns; [exact Hnm|done|done|exact HKs| | |exact Hm'].
    + apply parts_insert; [done..|right; by eexists].
    + intros key t' Hk. rewrite lookup_insert_is_Some'. right. by eapply HL.
  - destruct Hspec as [Ht HP]. apply Hvt, elem_of_dom in Ht as [ft Ht].
    unfold wp. cbn [serve]. unfold mbind, M_bind, get_table, mret, M_ret. rewrite Ht.
    eexists. split; [apply HP|]. apply (moved_sees _ _ K R); try done.
    intros y [Hy|Hy]%elem_of_union; [|by apply Hvs].
    apply elem_of_list_to_set, list_elem_of_fmap in Hy as (e & -> & He). eapply seen_string; [exact Hm|].
    rewrite (owned_split _ _ _ Ht). apply elem_of_app. left. apply list_elem_of_fmap. exists e. split; [done|].
    by eapply Entries_none_law.
  - eapply New_rule; [exact Hm|]. intros t st' Ht Hm'.
    assert (vR v !! t = None) as Hv.
    { destruct (vR v !! t) as [fs|] eqn:Hfs; [|done]. by rewrite (parts_lookup _ _ _ _ _ _ HR HRi Hfs) in Ht. }
    eexists. split; [by apply Hspec|]. eapply moved_owns; [exact Hnm|done|done|exact HKs| | |exact Hm'].
    + apply parts_insert; [done..|by left].
    + intros key t' Hk. rewrite lookup_insert_is_Some'. right. by eapply HL.
  - eapply CopyString_rule; [exact Hm|]. intros y st' Hm'. eexists. split; [apply Hspec|].
    by eapply (moved_owns K R _ _ _ _ Hnm).
  - destruct Hspec as [Hx HP]. apply Hvs, elem_of_dom in Hx as [y Hx]. eapply read_string_rule; [exact Hx|].
    exists v. split; [apply HP|]. pose proof (moved_sees (vT v) (vS v) K R Hvt Hvs HK HR HL Hm) as Hs. by destruct v.
Qed.

Lemma db_framed X (e : db_call X) (P : X -> view -> Prop) :
  db_spec X e v P ->
  wp (serve X e) (λ x st, ∃ v', P x v' ∧ world_is (Shared (sh_workload s) st (sh_drawn s)) (<[i := v']> vs)) (sh_store s).
Proof.
  intros Hspec. pose proof (db_moves X e P Hspec) as Hmv. unfold wp in *.
  destruct (serve X e (sh_store s)) as [[x st']|] eqn:E; [|done]. destruct Hmv as (v' & HP & Hm).
  exists v'. split; [exact HP|]. apply serve_grows in E as [H1 H2]; [|by destruct e].
  by eapply world_close.
Qed.

(** A draw that takes no number. *)
Lemma next_of_framed src {V G} (next : CoreWorkload -> prog rnd (V * G)) set_g (P : V -> view -> Prop) (Q : V * G -> Prop) :
  documented src -> ends (next (sh_workload s)) Q ->
  (∀ x g, Q (x, g) -> let w := set_g g (sh_workload s) in
     P x v ∧ ready w ∧ static w = static (sh_workload s) ∧ key_generator_ w = key_generator_ (sh_workload s) ∧
     Forall (λ y, chosen y.1) (values_ (op_chooser_ w))) ->
  wp (next_of src next set_g) (λ x s', ∃ v', P x v' ∧ world_is s' (<[i := v']> vs)) s.
Proof.
  intros Hsrc He HQ. destruct (drawn_ends src _ _ (sh_drawn s) Hsrc He) as ([x g] & n & E & Hx).
  unfold wp, next_of. rewrite E. destruct (HQ x g Hx) as (HP & Hr & Hs & Hk & Hc). exists v. split; [exact HP|].
  rewrite list_insert_id by done. destruct H as [? ? [Hs0 _ Hk0] ? ? ? ?].
  split; try done. split; cbn [sh_workload]; [by rewrite Hs|done|by rewrite Hk].
Qed.

(** The counter gives a number that no view has. *)
Lemma next_key_framed src (P : Z -> view -> Prop) :
  thread_spec _ next_key v P ->
  wp (thread_serve src _ next_key) (λ x s', ∃ v', P x v' ∧ world_is s' (<[i := v']> vs)) s.
Proof.
  intros [Hq HP]. destruct H as [Hquota Hnums Ha Hc Hnm Hseen (K & R & HK & HR & HL & Hm)].
  assert ((nums <$> vs) !! i = Some (nums v)) as Hin by (by rewrite list_lookup_fmap, Hi).
  assert ((quota <$> vs) !! i = Some (quota v)) as Hiq by (by rewrite list_lookup_fmap, Hi).
  pose proof (sum_insert (quota <$> vs) i (quota v) (pred (quota v)) Hiq) as Hsum.
  set (c := Z.of_nat (length (concat (nums <$> vs)))) in *.
  assert (0 ≤ c < N) as Hcn by lia.
  cbn [thread_serve]. unfold wp, next_of. rewrite (af_next _ _ _ Ha). unfold drawn, draw. cbn [Next interp].
  unfold mret, M_ret, prog_ret. cbn [interp]. rewrite u64_small by lia.
  exists (take_num c v). split.
  { apply HP; [exact Hcn|]. intros Hcv. pose proof (wi_range _ _ _ _ _ H Hi Hcv). unfold c in *. lia. }
  assert (concat (nums <$> <[i := take_num c v]> vs) ≡ₚ c :: concat (nums <$> vs)) as Hp.
  { rewrite list_fmap_insert, (concat_replace _ _ _ _ Hin), (concat_part _ _ _ Hin). done. }
  assert (Z.of_nat (length (concat (nums <$> <[i := take_num c v]> vs))) = c + 1) as Hlen.
  { rewrite Hp. cbn [length]. lia. }
  split.
  - rewrite (list_fmap_insert quota). cbn [quota take_num]. lia.
  - rewrite Hlen, Hp, Hnums, seqZ_app by lia. cbn. solve_Permutation.
  - rewrite Hlen. destruct Ha as [Hs [] Hk]. cbn [sh_workload]. split; [exact Hs|split; cbn; eauto|done].
  - done.
  - apply Forall_insert; [exact Hnm|]. intros key Hs.
    destruct (world_named _ _ _ _ _ H Hi Hs) as (n & Hn & ->). exists n. split; [by right|done].
  - apply Forall_insert; [exact Hseen|]. rewrite Forall_lookup in Hseen. exact (Hseen i v Hi).
  - exists K, R. rewrite !list_fmap_insert, !list_insert_id by (by rewrite list_lookup_fmap, Hi). done.
Qed.
End moves.

(** What is drawn is among the values. *)
Lemma choose_elem {V} sum (l : list (V * double)) u x : choose sum l u = Some x -> x ∈ l.*1.
Proof.
  revert u. induction l as [|[y w] l IH]; intros u; cbn; [done|]. destruct (d_lt u _); [intros [= ->]; left|].
  intros Hx. right. by eapply IH.
Qed.

Lemma discrete_next_elem {V} (c : discrete V) :
  total c -> ends (discrete_next c) (λ r, total r.2 ∧ values_ r.2 = values_ c ∧ r.1 ∈ (values_ c).*1).
Proof.
  intros Hc u Hu. destruct (Hc u Hu) as [x Hx]. cbn. rewrite Hx. cbn. split; [exact Hc|]. split; [done|].
  by eapply choose_elem.
Qed.

Lemma calls_framed src : documented src -> framed (thread_serve src) thread_spec world_of.
Proof.
  intros Hsrc X e i v vs s P H Hi Hspec.
  assert ((base :: vs) !! S i = Some v) as HSi by done.
  pose proof (wi_workload _ _ H) as [Hst Hrd Hk]. pose proof (wi_chosen _ _ H) as Hc.
  assert (insert_key_sequence_ (sh_workload s) = insert_key_sequence_ w0) as Hseq by (injection Hst; congruence).
  unfold world_of. change (λ x s', ∃ v', P x v' ∧ world_is s' (base :: <[i := v']> vs))
    with (λ x s', ∃ v', P x v' ∧ world_is s' (<[S i := v']> (base :: vs))).
  destruct e as [| | | | | | |X e].
  - by apply (next_key_framed s _ _ v).
  - destruct (rd_len _ Hrd) as (lo & hi & Hr).
    apply (next_of_framed s (base :: vs) (S i) v H HSi src _ _ P _ Hsrc (ranged_next _ _ _ _ Hr)).
    intros x g [_ Hg]. split; [apply Hspec|]. split; [|done]. destruct Hrd. split; cbn; eauto.
  - cbn [thread_serve]. exists v. split; [apply Hspec|]. rewrite list_insert_id by done.
    by destruct H as [? ? ? ? ? ? ?].
  - apply (next_of_framed s (base :: vs) (S i) v H HSi src _ _ P _ Hsrc (discrete_next_elem _ (rd_ops _ Hrd))).
    intros x g (Hg & Hv & Hx). cbn in Hg, Hv, Hx. split.
    { apply Hspec. apply list_elem_of_fmap in Hx as (y & -> & Hy). rewrite Forall_forall in Hc. by apply Hc. }
    split; [destruct Hrd; split; cbn; eauto|]. split; [done|]. split; [done|]. cbn. by rewrite Hv.
  - apply (next_of_framed s (base :: vs) (S i) v H HSi src _ _ P _ Hsrc (ranged_next _ _ _ _ (rd_keys _ Hrd))).
    intros x g [Hx Hg]. cbn in Hx. split; [apply Hspec; lia|]. split; [|done]. destruct Hrd. split; cbn; eauto.
  - apply (next_of_framed s (base :: vs) (S i) v H HSi src _ _ P _ Hsrc (ranged_next _ _ _ _ (rd_field _ Hrd))).
    intros x g [_ Hg]. split; [apply Hspec|]. split; [|done]. destruct Hrd. split; cbn; eauto.
  - destruct (rd_scan _ Hrd) as (lo & hi & Hr).
    apply (next_of_framed s (base :: vs) (S i) v H HSi src _ _ P _ Hsrc (ranged_next _ _ _ _ Hr)).
    intros x g [_ Hg]. split; [apply Hspec|]. split; [|done]. destruct Hrd. split; cbn; eauto.
  - cbn in Hspec. pose proof (db_framed s (base :: vs) (S i) v H eq_refl HSi _ e P Hspec) as Hd. unfold wp in *.
    cbn [thread_serve]. by destruct (serve X e (sh_store s)) as [[x st]|].
Qed.
End spec.
