(* ===== verification/ThreadsTheorems.v ===== *)
(** * ThreadsTheorems: the two phases in parallel (ycsbc.cc)

    Each thread is verified alone, on a view of its own (ThreadsSpec.v), and
    Parallel.v carries the result to every schedule: the load completes, and
    so do transactions that read, scan and insert.  The arithmetic of [double]
    is any instance of [Doubles]: where operations are chosen, the condition is
    that the shares as this arithmetic subtracts them leave no number without
    one ([total]), which rounding can break; the witnesses are in binary64. *)

From Stdlib Require Import ZArith Lia QArith.
From stdpp Require Import base list list_numbers strings gmap sets fin_maps fin_map_dom.
From S2P Require Import Prelude Calls Parallel YcsbUtils Generators Workload WorkloadSpec.
From S2P Require Import Table StringHashtable HashtableDb HashtableSpec HashtableOps HashtableTheorems Client.
From S2P Require Import WorkloadRun Binary64 WorkloadTheorems Threads ThreadsSpec.

Section alone.
Context {HT : StringHashtable} {D : Doubles}.
Variables (w0 : CoreWorkload) (N : Z) (base : view) (chosen : Operation -> Prop).
Hypothesis (Hready : ready w0) (Hdistinct : distinct w0 N) (HN : N < 2 ^ 64).

Abbreviation post := (dpost (thread_spec w0 N base chosen)).
Abbreviation db_post := (dpost (db_spec w0 base)).

Lemma db_spec_mono X (e : db_call X) s (P Q : X -> view -> Prop) :
  db_spec w0 base X e s P -> (∀ x s', P x s' -> Q x s') -> db_spec w0 base X e s Q.
Proof. apply (thread_spec_mono w0 N base chosen X (in_db e)). Qed.

Lemma thread_bind {A B} (p : prog thread_call A) (f : A -> prog thread_call B) Q s :
  post p (λ a s', post (f a) Q s') s -> post (p ≫= f) Q s.
Proof. apply dpost_bind, thread_spec_mono. Qed.

Lemma thread_mono {A} (p : prog thread_call A) (P Q : A -> view -> Prop) s :
  post p P s -> (∀ a s', P a s' -> Q a s') -> post p Q s.
Proof. apply dpost_mono, thread_spec_mono. Qed.

Lemma db_bind {A B} (p : prog db_call A) (f : A -> prog db_call B) Q s :
  db_post p (λ a s', db_post (f a) Q s') s -> db_post (p ≫= f) Q s.
Proof. apply dpost_bind, db_spec_mono. Qed.

(** An operation of the database. *)
Lemma post_db o (Q : Z -> view -> Prop) s :
  db_post (perform o) (λ r s', Q r.1 s') s -> post (thread_db o) Q s.
Proof.
  intros H. apply thread_bind. revert s H. induction (perform o) as [a|X e q IH|]; intros s; [done| |done]. cbn.
  intros H. eapply db_spec_mono; [exact H|]. intros x s'. apply IH.
Qed.

(** What a thread holds between its operations: full records of its keys. *)
Record alone (s : view) : Prop := {
  al_range : Forall (λ n, 0 ≤ n < N) (nums s);
  al_loose : vE s = [];
  al_linked : linked (vK s) (vR s);
  al_all n : n ∈ nums s -> is_Some (vK s !! kname w0 n);
  al_named key : is_Some (vK s !! key) -> named w0 s key;
  al_full t fs : vR s !! t = Some fs -> full w0 fs
}.

Lemma alone_new n : alone (new_view n).
Proof.
  split; cbn; try done.
  - apply linked_empty.
  - intros m Hm. by apply not_elem_of_nil in Hm.
  - intros key. rewrite lookup_empty. by intros [? ?].
Qed.

(** The same but for what was seen. *)
Record sees (s s' : view) : Prop := {
  se_nums : nums s' = nums s;
  se_quota : quota s' = quota s;
  se_K : vK s' = vK s;
  se_R : vR s' = vR s;
  se_E : vE s' = vE s;
  se_T : vT s ⊆ vT s';
  se_S : vS s ⊆ vS s'
}.

Lemma sees_refl s : sees s s.
Proof. done. Qed.

Lemma sees_trans s1 s2 s3 : sees s1 s2 -> sees s2 s3 -> sees s1 s3.
Proof. intros [? ? ? ? ? ? ?] [? ? ? ? ? ? ?]. split; try congruence; set_solver. Qed.

Lemma sees_tables ts s : sees s (see_tables ts s).
Proof. split; cbn; set_solver. Qed.

Lemma sees_strings ss s : sees s (see_strings ss s).
Proof. split; cbn; set_solver. Qed.

Lemma sees_alone s s' : sees s s' -> alone s -> alone s'.
Proof.
  intros [Hn _ HK HR HE _ _] [H1 H2 H3 H4 H5 H6].
  split; unfold named; rewrite ?Hn, ?HK, ?HR, ?HE; done.
Qed.

(** ** Insertions *)
Lemma post_values_loop m i values (Q : Workload.pairs -> view -> Prop) s :
  (∀ vs, vs.*1 = values.*1 ++ (field_name <$> seqZ i (Z.of_nat m)) -> Q vs s) ->
  post (thread_values_loop m i values) Q s.
Proof.
  revert i values. induction m as [|m IH]; intros i values HQ.
  - apply HQ. cbn. by rewrite app_nil_r.
  - cbn [thread_values_loop]. apply thread_bind. intros n r. apply IH. intros vs Hvs. apply HQ.
    rewrite Hvs, fmap_app, <-app_assoc. f_equal. rewrite (seqZ_cons i) by lia. cbn.
    by rewrite <-Nat2Z.inj_pred by lia.
Qed.

Lemma post_insert_loop t values fs (Q : Z -> view -> Prop) s :
  vR s !! t = Some fs -> vE s = [] -> NoDup ((λ v, c_str v.1) <$> values) ->
  (∀ v, v ∈ values -> fs !! c_str v.1 = None) ->
  Q kOK (put_record t (upsert fs values) [] s) ->
  db_post (insert_loop t values) Q s.
Proof.
  revert fs s. induction values as [|[f x] values IH]; intros fs s Ht He Hnd Hnew HQ.
  - cbn. unfold put_record in HQ. cbn in HQ. rewrite insert_id in HQ by done. rewrite <-He in HQ. by destruct s.
  - apply NoDup_cons in Hnd as [Hf Hnd]. cbn [insert_loop]. apply db_bind.
    intros v. cbn [dpost]. apply db_bind. exists fs, (c_str x), []. cbn [hold vR vE].
    split_and!; [done|by apply (Hnew (f, x)); left|by rewrite He|].
    cbn [dpost negb]. apply (IH (<[c_str f := c_str x]> fs)); cbn [put_record hold nums quota vK vR vE vT vS].
    + apply lookup_insert_eq.
    + done.
    + done.
    + intros w Hw. rewrite lookup_insert_ne; [apply Hnew; by right|].
      intros E. apply Hf. apply list_elem_of_fmap. by exists w.
    + unfold put_record. cbn. rewrite insert_insert_eq. exact HQ.
Qed.

(** The record of a new number. *)
Lemma post_OInsert n values (Q : Z -> view -> Prop) s :
  alone s -> 0 ≤ n < N -> n ∉ nums s -> values.*1 = field_names w0 ->
  (∀ s', alone s' -> nums s' = n :: nums s -> quota s' = pred (quota s) -> Q kOK s') ->
  post (thread_db (OInsert (str (table_name_ w0)) (str (BuildKeyName w0 n)) (str_pairs values))) Q (take_num n s).
Proof.
  intros [Hr He HL Hall Hnm Hfull] Hn Hnew Hv HQ. pose proof (names_of _ _ Hv (field_names_clean w0)) as Hnames.
  apply post_db. cbn [perform]. apply db_bind. unfold Insert. cbv zeta.
  fold (index (str (table_name_ w0)) (str (BuildKeyName w0 n))). fold (kname w0 n). apply db_bind.
  assert (named w0 (take_num n s) (kname w0 n)) as Hname by (exists n; split; [left|done]).
  assert (vK s !! kname w0 n = None) as Hnone.
  { apply eq_None_not_Some. intros (n' & Hn' & E)%Hnm. rewrite Forall_forall in Hr.
    apply (kname_one w0 N Hready Hdistinct HN) in E; [by subst|done|by apply Hr]. }
  intros o Ho _. cbn [take_num vK] in Ho. rewrite (Ho Hname), Hnone. cbn [dpost]. apply db_bind, db_bind.
  intros t Ht. cbn [dpost]. apply db_bind. cbn in Ht. split; [exact Hname|]. split; [done|].
  split; [cbn; rewrite lookup_insert_eq; by eexists|]. cbn [dpost].
  apply (post_insert_loop _ _ ∅); cbn [put_key put_record see_tables take_num option_list nums quota vK vR vE vT vS];
    [apply lookup_insert_eq|done| |done|].
  { rewrite Hnames. by apply field_names_nodup. }
  unfold put_record, put_key, see_tables, take_num. cbn [nums quota vK vR vE vT vS]. rewrite insert_insert_eq.
  set (fs := upsert ∅ (str_pairs values)). destruct (link_new _ _ (kname w0 n) t fs HL Hnone Ht) as [HL' _].
  apply HQ; [|done..]. split; cbn [nums vK vR vE]; [by constructor|done|done| | |].
  - intros n' [->|Hn']%elem_of_cons; [by rewrite lookup_insert_eq; eexists|].
    rewrite lookup_insert_is_Some'. right. by apply Hall.
  - intros key [<-|Hs]%lookup_insert_is_Some'; [by exists n; split; [left|]|].
    destruct (Hnm _ Hs) as (n' & Hn' & ->). exists n'. split; [by right|done].
  - intros t' fs' [[<- <-]|[_ Hfs]]%lookup_insert_Some; [|by eapply Hfull].
    unfold fs, full. by rewrite dom_upsert, Hnames, dom_empty_L, (left_id_L ∅ (∪)).
Qed.

(** A new number with the values of a full record, and then [f]. *)
Lemma post_new_record {B} (f : text -> Workload.pairs -> prog thread_call B) (Q : B -> view -> Prop) s :
  (0 < quota s)%nat ->
  (∀ n values, 0 ≤ n < N -> n ∉ nums s -> values.*1 = field_names w0 ->
     post (f (BuildKeyName w0 n) values) Q (take_num n s)) ->
  post (key ← thread_NextSequenceKey w0; values ← thread_BuildValues w0; f key values) Q s.
Proof.
  intros Hq Hf. apply thread_bind, thread_bind. split; [exact Hq|]. intros n Hn Hnew. cbn [dpost]. apply thread_bind.
  apply post_values_loop. cbn [app fmap list_fmap]. intros values Hv.
  pose proof (rd_count _ Hready) as Hc. rewrite Z2Nat.id in Hv by lia. by apply Hf.
Qed.

(** ** Reads and scans *)
Lemma post_push_entries es result (Q : list KVPair -> view -> Prop) s :
  (∀ e, e ∈ es -> e.2 ∈ vS s) -> (∀ r, Q r s) -> db_post (push_entries es result) Q s.
Proof.
  intros Hes HQ. revert result. induction es as [|[f v] es IH]; intros result; [apply HQ|].
  cbn [push_entries]. apply db_bind. split; [by apply (Hes (f, v)); left|]. intros x. cbn [dpost].
  apply IH. intros e He. apply Hes. by right.
Qed.

Lemma post_push_fields t fields result (Q : list KVPair -> view -> Prop) s :
  t ∈ vT s -> (∀ r s', sees s s' -> Q r s') -> db_post (push_fields t fields result) Q s.
Proof.
  revert result s. induction fields as [|f fields IH]; intros result s Ht HQ; [apply HQ, sees_refl|].
  cbn [push_fields]. apply db_bind. split; [done|]. intros [v|]; cbn [dpost].
  - apply db_bind. split; [cbn; set_solver|]. intros x. cbn [dpost]. apply IH; [done|].
    intros r s' Hs. apply HQ. eapply sees_trans; [apply sees_strings|exact Hs].
  - apply IH; [done|]. intros r s' Hs. apply HQ. eapply sees_trans; [apply sees_strings|exact Hs].
Qed.

Lemma post_read_record t fields (Q : list KVPair -> view -> Prop) s :
  t ∈ vT s -> (∀ r s', sees s s' -> Q r s') -> db_post (read_record t fields) Q s.
Proof.
  intros Ht HQ. destruct fields as [fields|]; cbn [read_record]; [by apply post_push_fields|].
  apply db_bind. split; [done|]. intros es. cbn [dpost]. apply post_push_entries.
  - intros e He. cbn. apply elem_of_union. left. apply elem_of_list_to_set, list_elem_of_fmap. by exists e.
  - intros r. apply HQ, sees_strings.
Qed.

Lemma post_scan_loop es fields result (Q : list (list KVPair) -> view -> Prop) s :
  (∀ e, e ∈ es -> e.2 ∈ vT s) -> (∀ r s', sees s s' -> Q r s') -> db_post (scan_loop es fields result) Q s.
Proof.
  revert result s. induction es as [|[k t] es IH]; intros result s Hes HQ; [apply HQ, sees_refl|].
  cbn [scan_loop]. apply db_bind, post_read_record; [by apply (Hes (k, t)); left|]. intros r s1 H1.
  apply IH.
  - intros e He. apply (se_T _ _ H1), Hes. by right.
  - intros r' s' Hs. apply HQ. by eapply sees_trans.
Qed.

(** A key that was there before the run is found. *)
Lemma post_ORead table key fields (Q : Z -> view -> Prop) s :
  is_Some (vK base !! index table key) -> (∀ s', sees s s' -> Q kOK s') ->
  post (thread_db (ORead table key fields)) Q s.
Proof.
  intros Hkey HQ. apply post_db. cbn [perform]. apply db_bind. unfold Read. cbv zeta. fold (index table key).
  apply db_bind. intros o _ Ho. destruct (Ho Hkey) as [t ->]. cbn [dpost]. apply db_bind.
  apply post_read_record; [cbn; set_solver|]. intros r s' Hs. cbn. apply HQ. eapply sees_trans; [apply sees_tables|exact Hs].
Qed.

Lemma post_OScan table key len fields (Q : Z -> view -> Prop) s :
  (∀ s', sees s s' -> Q kOK s') -> post (thread_db (OScan table key len fields)) Q s.
Proof.
  intros HQ. apply post_db. cbn [perform]. unfold Scan. cbv zeta. apply db_bind.
  split; [apply wrap_range; lia|]. intros es. cbn [dpost]. apply db_bind. apply post_scan_loop.
  - intros e He. cbn. apply elem_of_union. left. apply elem_of_list_to_set, list_elem_of_fmap. by exists e.
  - intros r s' Hs. cbn. apply HQ. eapply sees_trans; [apply sees_tables|exact Hs].
Qed.

Lemma post_read_fields (Q : option (list text) -> view -> Prop) s :
  (∀ fields, Q fields s) -> post (thread_read_fields w0) Q s.
Proof. intros HQ. unfold thread_read_fields. destruct (read_all_fields_ w0); cbn; [|intros v]; apply HQ. Qed.

(** ** Transactions on records that were there before *)
Hypothesis (Hbase : ∀ i, 0 ≤ i < insert_key_sequence_ w0 -> is_Some (vK base !! kname w0 i)).
Hypothesis (Hchosen : ∀ o, chosen o -> o ≠ UPDATE ∧ o ≠ READMODIFYWRITE).

(** The first request is taken. *)
Lemma post_NextTransactionKey fuel (Q : text -> view -> Prop) s :
  (∀ i, 0 ≤ i < insert_key_sequence_ w0 -> Q (BuildKeyName w0 i) s) ->
  post (thread_NextTransactionKey (S fuel) w0) Q s.
Proof.
  intros HQ. apply thread_bind. cbn [thread_transaction_loop]. apply thread_bind. intros v Hv. cbn [dpost].
  pose proof (rd_seq _ Hready). unfold counter_last. rewrite u64_small by lia.
  rewrite (proj2 (Z.ltb_ge _ _)) by lia. by apply HQ.
Qed.

Lemma post_DoTransaction fuel (Q : bool -> view -> Prop) s :
  alone s -> (0 < quota s)%nat ->
  (∀ s', alone s' -> (pred (quota s) <= quota s')%nat -> Q true s') ->
  post (thread_DoTransaction (S fuel) w0) Q s.
Proof.
  intros Hs Hq HQ. assert (∀ s', sees s s' -> Q true s') as HQs.
  { intros s' Hss. apply HQ; [by eapply sees_alone|]. rewrite (se_quota _ _ Hss). lia. }
  apply thread_bind. intros op Hop. cbn [dpost]. apply thread_bind. apply Hchosen in Hop as [Hu Hm].
  destruct op; cbn [thread_transaction]; try done.
  - apply post_new_record; [done|]. intros n values Hn Hnew Hv. apply post_OInsert; [done..|].
    intros s' Hs' _ Hq'. apply HQ; [done|lia].
  - apply thread_bind, post_NextTransactionKey. intros i Hi. apply thread_bind, post_read_fields. intros fields.
    apply post_ORead; [by apply Hbase|exact HQs].
  - apply thread_bind, post_NextTransactionKey. intros i Hi. apply thread_bind. intros len. cbn [dpost].
    apply thread_bind, post_read_fields. intros fields. apply post_OScan. exact HQs.
Qed.

Lemma post_transactions fuel m oks s :
  alone s -> (m <= quota s)%nat -> 0 ≤ oks -> oks + Z.of_nat m < 2 ^ 31 ->
  post (thread_DelegateClient (S fuel) w0 m false oks) (λ z s', z = oks + Z.of_nat m ∧ alone s') s.
Proof.
  revert oks s. induction m as [|m IH]; intros oks s Hs Hq H0 H1; [split; [lia|done]|].
  cbn [thread_DelegateClient]. apply thread_bind, post_DoTransaction; [done|lia|]. intros s' Hs' Hq'.
  rewrite i32_small by (cbn; lia). eapply thread_mono; [apply IH; [done|lia|cbn; lia..]|].
  intros z s2 [-> H2]. split; [cbn; lia|done].
Qed.

(** ** The load *)
Lemma post_load fuel m oks s :
  alone s -> (m <= quota s)%nat -> 0 ≤ oks -> oks + Z.of_nat m < 2 ^ 31 ->
  post (thread_DelegateClient fuel w0 m true oks)
    (λ z s', z = oks + Z.of_nat m ∧ alone s' ∧ length (nums s') = (length (nums s) + m)%nat) s.
Proof.
  revert oks s. induction m as [|m IH]; intros oks s Hs Hq H0 H1; [split; [lia|split; [done|lia]]|].
  cbn [thread_DelegateClient]. apply thread_bind, post_new_record; [lia|]. intros n values Hn Hnew Hv.
  apply thread_bind, post_OInsert; [done..|]. intros s' Hs' Hn' Hq'. unfold mret, prog_ret. cbn [dpost].
  rewrite i32_small by (cbn; lia). eapply thread_mono; [apply IH; [done|lia|cbn; lia..]|].
  intros z s2 (-> & H2 & Hn2). rewrite Hn' in Hn2. cbn [length] in Hn2. split; [cbn; lia|]. split; [done|lia].
Qed.
End alone.

(** ** The start and the end of a phase *)
Section phase.
Context {HT : StringHashtable} {D : Doubles}.
Variables (w0 : CoreWorkload) (N : Z) (chosen : Operation -> Prop).
Hypothesis (Hready : ready w0) (Hdistinct : distinct w0 N) (HN : N < 2 ^ 64).

(** The view of the records that are loaded. *)
Definition loaded_view (n : Z) (K : gmap string loc) (R : gmap loc record) : view :=
  View (seqZ 0 n) 0 K R [] ∅ ∅.

Lemma loaded_alone K R n :
  linked K R -> loaded w0 n (contents K R) -> n ≤ N -> alone w0 N (loaded_view n K R).
Proof.
  intros HL [H1 H2] Hn. assert (∀ key t, K !! key = Some t -> ∃ fs, R !! t = Some fs ∧ contents K R !! key = Some fs) as Hat.
  { intros key t Hk. pose proof (contents_at K R key HL) as H. by rewrite Hk in H. }
  split; cbn [loaded_view nums vK vR vE]; [|done|done|..].
  - apply Forall_forall. intros i Hi%elem_of_seqZ. lia.
  - intros i Hi%elem_of_seqZ. destruct (H1 i ltac:(lia)) as [fs Hfs]. rewrite contents_lookup in Hfs.
    destruct (K !! kname w0 i); [by eexists|done].
  - intros key [t Hk]. destruct (Hat _ _ Hk) as (fs & _ & Hc). destruct (H2 _ _ Hc) as [_ (i & Hi & ->)].
    exists i. split; [|done]. apply elem_of_seqZ. lia.
  - intros t fs Hfs. destruct (ln_owner _ _ HL t) as [key Hk]; [by eexists|].
    destruct (Hat _ _ Hk) as (fs' & Hfs' & Hc). simplify_eq. by apply (H2 _ _ Hc).
Qed.

Lemma concat_nils {A} n : concat (replicate n (@nil A)) = [].
Proof. by induction n. Qed.

Lemma sum_replicate n k : sum_list (replicate n k) = (n * k)%nat.
Proof. induction n as [|n IH]; [done|]. change (k + sum_list (replicate n k) = S n * k)%nat. rewrite IH. lia. Qed.

Lemma parts_one {K V} `{!EqDecision K, !Countable K} (m : gmap K V) n : parts m (m :: replicate n ∅).
Proof.
  assert (∀ j mj, replicate n (∅ : gmap K V) !! j = Some mj -> mj = ∅) as Hr by (by intros j mj [-> _]%lookup_replicate).
  split.
  - intros k v. split; [intros Hk; by exists 0%nat, m|]. intros ([|j] & mj & Hj & Hk); [by injection Hj as ->|].
    cbn in Hj. by rewrite (Hr _ _ Hj), lookup_empty in Hk.
  - intros [|i] [|j] mi mj k Hi Hj; cbn in Hi, Hj; rewrite ?(Hr _ _ Hi), ?(Hr _ _ Hj), ?lookup_empty;
      [done|intros _ [? ?]; done|intros [? ?]; done|intros [? ?]; done].
Qed.

(** A phase starts with what is loaded, and threads that have nothing. *)
Lemma start_world s n db T k :
  after w0 n (sh_workload s) -> Forall (λ x, chosen x.1) (values_ (op_chooser_ (sh_workload s))) ->
  store_is (sh_store s) db -> loaded w0 n db -> 0 ≤ n -> n + Z.of_nat (T * k) ≤ N ->
  ∃ K R, alone w0 N (loaded_view n K R) ∧ (∀ i, 0 ≤ i < n -> is_Some (K !! kname w0 i)) ∧
    world_of w0 N (loaded_view n K R) chosen s (replicate T (new_view k)).
Proof.
  intros Ha Hc (K & R & Hm & HL & <-) Hl Hn HNk. exists K, R. pose proof (loaded_alone K R n HL Hl ltac:(lia)) as Hal.
  split; [exact Hal|]. split; [intros i Hi; apply (al_all _ _ _ Hal), elem_of_seqZ; lia|].
  assert (concat (nums <$> loaded_view n K R :: replicate T (new_view k)) = seqZ 0 n) as Hnums.
  { cbn. rewrite fmap_replicate. change (nums (new_view k)) with (@nil Z). by rewrite concat_nils, app_nil_r. }
  assert (Z.of_nat (length (seqZ 0 n)) = n) as Hlen by (rewrite length_seqZ; lia).
  split; rewrite ?Hnums, ?Hlen; [|done|done|done|..].
  - rewrite fmap_cons, fmap_replicate. cbn [loaded_view quota new_view].
    change (sum_list (0%nat :: replicate T k)) with (sum_list (replicate T k)). rewrite sum_replicate. lia.
  - apply Forall_cons. split; [exact (al_named _ _ _ Hal)|]. apply Forall_replicate. exact (al_named _ _ _ (alone_new w0 N k)).
  - apply Forall_cons. split; [|apply Forall_replicate]; cbn; set_solver.
  - exists K, R. cbn [fmap list_fmap]. rewrite !fmap_replicate. cbn [loaded_view new_view vK vR vE concat].
    change (vE (new_view k)) with (@nil (loc * string)).
    rewrite concat_nils. split_and!; [apply parts_one..|apply (ln_live _ _ HL)|done].
Qed.

Lemma parts_linked vs K R :
  parts K (vK <$> vs) -> parts R (vR <$> vs) -> Forall (alone w0 N) vs -> linked K R.
Proof.
  intros HK HR Hall. rewrite Forall_lookup in Hall.
  assert (∀ key t, K !! key = Some t <-> ∃ i v, vs !! i = Some v ∧ vK v !! key = Some t) as HKv.
  { intros key t. rewrite (pt_all _ _ HK). setoid_rewrite list_lookup_fmap. split.
    - intros (i & m & Hm & Ht). destruct (vs !! i) as [v|] eqn:Hv; [|done]. injection Hm as <-. eauto.
    - intros (i & v & Hv & Ht). exists i, (vK v). by rewrite Hv. }
  assert (∀ i v key t, vs !! i = Some v -> vK v !! key = Some t -> is_Some (vR v !! t)) as Hown.
  { intros i v key t Hv Ht. by apply (ln_live _ _ (al_linked _ _ _ (Hall _ _ Hv)) key). }
  split.
  - intros key t (i & v & Hv & Ht)%HKv. destruct (Hown _ _ _ _ Hv Ht) as [fs Hfs]. exists fs.
    apply (parts_lookup _ _ i (vR v) _ _ HR); [|done]. by rewrite list_lookup_fmap, Hv.
  - intros k1 k2 t (i & v & Hv & Ht)%HKv (j & v' & Hv' & Ht')%HKv.
    assert (i = j) as ->.
    { apply (pt_one _ _ HR i j (vR v) (vR v') t); rewrite ?list_lookup_fmap, ?Hv, ?Hv'; [done..| |]; eauto. }
    simplify_eq. by apply (ln_inj _ _ (al_linked _ _ _ (Hall _ _ Hv)) _ _ t).
  - intros t [fs Hfs]. apply (pt_all _ _ HR) in Hfs as (i & m & Hm & Hfs).
    rewrite list_lookup_fmap in Hm. destruct (vs !! i) as [v|] eqn:Hv; [|done]. injection Hm as <-.
    destruct (ln_owner _ _ (al_linked _ _ _ (Hall _ _ Hv)) t) as [key Hkey]; [by eexists|].
    exists key. apply HKv. eauto.
Qed.

(** When nobody is in the middle of an operation, what is there is loaded. *)
Lemma end_world s vs :
  world_is w0 N chosen s vs -> Forall (alone w0 N) vs ->
  let m := Z.of_nat (length (concat (nums <$> vs))) in
  after w0 m (sh_workload s) ∧ ∃ db, store_is (sh_store s) db ∧ loaded w0 m db.
Proof.
  intros H Hall m. split; [apply (wi_workload _ _ _ _ _ H)|].
  destruct (wi_store _ _ _ _ _ H) as (K & R & HK & HR & _ & Hm).
  assert (concat (vE <$> vs) = []) as He.
  { clear -Hall. induction Hall as [|v vs Hv _ IH]; [done|]. cbn. by rewrite (al_loose _ _ _ Hv), IH. }
  rewrite He in Hm. pose proof (parts_linked _ _ _ HK HR Hall) as HL.
  exists (contents K R). split; [by exists K, R|]. rewrite Forall_lookup in Hall. split.
  - intros i Hi. assert (i ∈ concat (nums <$> vs)) as Hin by (rewrite (wi_nums _ _ _ _ _ H), elem_of_seqZ; lia).
    apply list_elem_of_In, in_concat in Hin as (l & Hl1 & Hl2). apply list_elem_of_In in Hl1, Hl2.
    apply list_elem_of_fmap in Hl1 as (v & -> & Hv). apply list_elem_of_lookup in Hv as [j Hv].
    destruct (al_all _ _ _ (Hall _ _ Hv) i Hl2) as [t Ht].
    assert (K !! kname w0 i = Some t) as HKt by (apply (parts_lookup _ _ j (vK v) _ _ HK); [by rewrite list_lookup_fmap, Hv|done]).
    pose proof (contents_at K R (kname w0 i) HL) as Hat. rewrite HKt in Hat.
    destruct Hat as (fs & _ & ->). by eexists.
  - intros key fs. rewrite contents_lookup. destruct (K !! key) as [t|] eqn:HKt; [|done]. cbn. intros HRt.
    apply (pt_all _ _ HK) in HKt as (j & mj & Hmj & HKt). apply (pt_all _ _ HR) in HRt as (j' & mj' & Hmj' & HRt).
    rewrite list_lookup_fmap in Hmj. rewrite list_lookup_fmap in Hmj'. destruct (vs !! j) as [v|] eqn:Hv; [|done].
    destruct (vs !! j') as [v'|] eqn:Hv'; [|done]. injection Hmj as <-. injection Hmj' as <-.
    split; [by apply (al_full _ _ _ (Hall _ _ Hv') t)|].
    destruct (al_named _ _ _ (Hall _ _ Hv) key) as (n & Hn & ->); [by eexists|]. exists n. split; [|done].
    eapply wi_range; [exact H|exact Hv|exact Hn].
Qed.
End phase.

(** ** How long a load runs *)
Section turns.
Context {HT : StringHashtable} {D : Doubles}.

Lemma within_in_db {A} n (p : prog db_call A) : within n p -> within n (translate (@in_db) p).
Proof. revert n. induction p as [a|X e k IH|]; intros n; [done| |done]. destruct n as [|n]; [done|]. cbn. eauto. Qed.

Lemma within_values_loop {B} m i values n (f : Workload.pairs -> prog thread_call B) :
  (∀ vs, length vs = (length values + m)%nat -> within n (f vs)) ->
  within (2 * m + n) (thread_values_loop m i values ≫= f).
Proof.
  revert i values. induction m as [|m IH]; intros i values Hf.
  - apply Hf. lia.
  - replace (2 * S m + n)%nat with (S (S (2 * m + n))) by lia. intros l r.
    apply (IH (i + 1)). intros vs Hvs. apply Hf. rewrite Hvs, length_app. cbn. lia.
Qed.

Lemma within_insert_loop t values : within (2 * length values + 1) (insert_loop t values).
Proof.
  induction values as [|[f x] values IH]; [done|].
  change (length ((f, x) :: values)) with (S (length values)).
  replace (2 * S (length values) + 1)%nat with (S (S (S (2 * length values)))) by lia.
  intros v ok. destruct ok; [|by intros []].
  replace (S (2 * length values)) with (2 * length values + 1)%nat by lia. exact IH.
Qed.

Lemma within_OInsert table key values : within (2 * length values + 4) (thread_db (OInsert table key values)).
Proof.
  replace (2 * length values + 4)%nat with (1 + (2 + (2 * length values + 1)) + 0 + 0)%nat by lia.
  apply within_bind; [|done]. apply within_in_db, within_bind; [|done].
  apply within_bind; [done|]. intros o. apply within_bind; [by destruct o|]. intros t. apply within_insert_loop.
Qed.

(** The turns that the load of [m] records takes. *)
Definition load_turns (w : CoreWorkload) (m : nat) : nat := m * (4 * Z.to_nat (field_count_ w) + 5).

Lemma within_load fuel w m oks : within (load_turns w m) (thread_DelegateClient fuel w m true oks).
Proof.
  unfold load_turns. set (F := Z.to_nat (field_count_ w)). revert oks.
  induction m as [|m IH]; intros oks; [done|]. cbn [thread_DelegateClient]. apply within_bind; [|intros b; apply IH].
  unfold thread_DoInsert, thread_BuildValues. fold F.
  replace (4 * F + 5)%nat with (1 + (2 * F + (2 * F + 4 + 0)))%nat by lia.
  apply within_bind; [done|]. intros key. apply within_values_loop. intros vs Hvs.
  apply within_bind; [|done].
  replace F with (length (str_pairs vs)) by (unfold str_pairs; by rewrite length_fmap, Hvs).
  apply within_OInsert.
Qed.

Lemma sum_ops_small T n :
  0 ≤ n -> Z.of_nat T * n < 2 ^ 31 -> sum_ops (replicate T n) = Z.of_nat T * n.
Proof.
  intros Hn HT'. unfold sum_ops. assert (∀ acc, 0 ≤ acc -> acc + Z.of_nat T * n < 2 ^ 31 ->
    foldl (λ sum n, i32 (sum + n)) acc (replicate T n) = acc + Z.of_nat T * n) as H; [|by rewrite H by lia].
  clear HT'. induction T as [|T IH]; intros acc H0 H1; [cbn; lia|].
  cbn [replicate foldl]. rewrite i32_small by (cbn; nia). rewrite IH by lia. lia.
Qed.
End turns.

(** ** The phases of [main] *)
Section main.
Context {HT : StringHashtable} {D : Doubles}.

(** A thread that has ended has met its post. *)
Lemma ended_all {E : Type -> Type} {A S} (spec : ∀ X, E X -> S -> (X -> S -> Prop) -> Prop)
    (ps : list (prog E A)) (vs : list S) (z : A) (P : S -> Prop) :
  Forall2 (λ p v, dpost spec p (λ a v, a = z ∧ P v) v) ps vs ->
  (∀ i, (i < length ps)%nat -> ended (ps !! i)) ->
  ps = replicate (length vs) (Ret z) ∧ Forall P vs.
Proof.
  intros Hps Hend. assert (Forall2 (λ p v, p = Ret z ∧ P v) ps vs) as H.
  { apply Forall2_same_length_lookup. split; [by eapply Forall2_length|]. intros i p v Hp Hv.
    pose proof (Forall2_lookup_lr _ _ _ _ _ _ Hps Hp Hv) as Hpost. cbn in Hpost.
    destruct (Hend i) as [Hu|[a Ha]]; [by eapply lookup_lt_Some| |].
    - rewrite Hp in Hu. by injection Hu as ->.
    - rewrite Hp in Ha. injection Ha as ->. cbn in Hpost. by destruct Hpost as [-> ?]. }
  split.
  - symmetry. apply replicate_as_Forall. split; [by rewrite (Forall2_length _ _ _ H)|].
    eapply Forall2_Forall_l; [exact H|]. apply Forall_true. by intros v p [-> _].
  - eapply Forall2_Forall_r; [exact H|]. apply Forall_true. by intros p v [_ ?].
Qed.

Lemma returned_all T z : returned (replicate T (Ret z)) = Some (replicate T z).
Proof. unfold returned. induction T as [|T IH]; [done|]. cbn. by rewrite IH. Qed.

Lemma returned_ended ps zs i : returned ps = Some zs -> (i < length ps)%nat -> ended (ps !! i).
Proof.
  unfold returned. intros H%mapM_Some Hi. destruct (lookup_lt_is_Some_2 ps i Hi) as [q Hq].
  destruct (Forall2_lookup_l _ _ _ _ _ H Hq) as (z & _ & Hz). destruct q as [a|X e k|]; try done.
  right. by exists a.
Qed.

Lemma load_rule chosen src fuel w s n db T k l :
  documented src -> ready w -> after w n (sh_workload s) ->
  Forall (λ x, chosen x.1) (values_ (op_chooser_ (sh_workload s))) ->
  store_is (sh_store s) db -> loaded w n db -> 0 ≤ n ->
  distinct w (n + Z.of_nat (T * k)) -> n + Z.of_nat (T * k) < 2 ^ 64 -> Z.of_nat k < 2 ^ 31 ->
  ∃ ps s', schedule (thread_serve src) l (replicate T (thread_DelegateClient fuel w k true 0)) s = Ok (ps, s') ∧
    length ps = T ∧
    ((∀ i, (i < T)%nat -> ended (ps !! i)) ->
     ps = replicate T (Ret (Z.of_nat k)) ∧ after w (n + Z.of_nat (T * k)) (sh_workload s') ∧
     Forall (λ x, chosen x.1) (values_ (op_chooser_ (sh_workload s'))) ∧
     ∃ db', store_is (sh_store s') db' ∧ loaded w (n + Z.of_nat (T * k)) db').
Proof.
  intros Hsrc Hw Ha Hc Hst Hl Hn Hd HN Hk. set (N := n + Z.of_nat (T * k)) in *.
  destruct (start_world w N chosen Hw Hd HN s n db T k Ha) as (K & R & Hal & _ & Hworld); [done..|lia|].
  destruct (schedule_rule (thread_serve src) _ _ (λ z s', z = 0 + Z.of_nat k ∧ (alone w N s' ∧ length (nums s') = (0 + k)%nat)) l
    (replicate T (thread_DelegateClient fuel w k true 0)) _ s (calls_framed w N _ _ Hw Hd HN src Hsrc) Hworld)
    as (ps & vs & s' & Hrun & Hs' & Hlen & Hps).
  { apply Forall2_replicate. apply (post_load w N _ _ Hw Hd HN fuel k 0 (new_view k)); [apply alone_new|done|lia|lia]. }
  rewrite length_replicate in Hlen.
  exists ps, s'. split; [done|]. split; [by rewrite (Forall2_length _ _ _ Hps)|]. intros Hend.
  destruct (ended_all _ ps vs (0 + Z.of_nat k) _ Hps) as [Hret Hvs].
  { by rewrite (Forall2_length _ _ _ Hps), Hlen. }
  split; [by rewrite Hret, Hlen|].
  assert (Z.of_nat (length (concat (nums <$> loaded_view n K R :: vs))) = N) as HNn.
  { cbn [fmap list_fmap concat loaded_view nums]. rewrite length_app, length_seqZ.
    assert (length (concat (nums <$> vs)) = (length vs * k)%nat) as ->; [|lia].
    clear -Hvs. induction Hvs as [|v vs [_ Hv] _ IH]; [done|]. cbn. rewrite length_app, Hv. by rewrite IH. }
  destruct (end_world _ _ _ _ _ Hs') as [Ha' Hdb].
  { apply Forall_cons. split; [exact Hal|]. eapply Forall_impl; [exact Hvs|]. by intros v [? _]. }
  cbv zeta in Ha', Hdb. rewrite HNn in Ha', Hdb. split; [done|]. split; [apply (wi_chosen _ _ _ _ _ Hs')|done].
Qed.

(** Transactions that do not update, in a schedule without an end. *)
Lemma transactions_rule src fuel w s n db T k :
  documented src -> ready w -> after w n (sh_workload s) ->
  Forall (λ x, x.1 ≠ UPDATE ∧ x.1 ≠ READMODIFYWRITE) (values_ (op_chooser_ (sh_workload s))) ->
  store_is (sh_store s) db -> loaded w n db -> insert_key_sequence_ w ≤ n ->
  distinct w (n + Z.of_nat (T * k)) -> n + Z.of_nat (T * k) < 2 ^ 64 -> Z.of_nat k < 2 ^ 31 ->
  let ps := replicate T (thread_DelegateClient (S fuel) w k false 0) in
  (∀ l, schedule (thread_serve src) l ps s ≠ Stuck) ∧
  ∀ f, fair T f -> ∃ turns, ∀ m, (turns <= m)%nat -> ∃ s',
    schedule (thread_serve src) (from_turn f 0 m) ps s = Ok (replicate T (Ret (Z.of_nat k)), s') ∧
    ∃ c db', n ≤ c ≤ n + Z.of_nat (T * k) ∧ after w c (sh_workload s') ∧ store_is (sh_store s') db' ∧ loaded w c db'.
Proof.
  intros Hsrc Hw Ha Hc Hst Hl Hseq Hd HN Hk ps. set (N := n + Z.of_nat (T * k)) in *. pose proof (rd_seq _ Hw) as Hseq0.
  destruct (start_world w N (λ o, o ≠ UPDATE ∧ o ≠ READMODIFYWRITE) Hw Hd HN s n db T k Ha)
    as (K & R & Hal & Hkeys & Hworld); [done..|lia|lia|].
  assert (∀ l, ∃ ps' vs' s', schedule (thread_serve src) l ps s = Ok (ps', s') ∧
    world_of w N (loaded_view n K R) (λ o, o ≠ UPDATE ∧ o ≠ READMODIFYWRITE) s' vs' ∧
    length vs' = T ∧ Forall2 (λ p v, dpost (thread_spec w N (loaded_view n K R) (λ o, o ≠ UPDATE ∧ o ≠ READMODIFYWRITE)) p
      (λ z v, z = 0 + Z.of_nat k ∧ alone w N v) v) ps' vs') as Hrun.
  { intros l. rewrite <-(length_replicate T (new_view k)).
    apply (schedule_rule _ _ _ _ l ps (replicate T (new_view k)) s (calls_framed w N _ _ Hw Hd HN src Hsrc) Hworld).
    apply Forall2_replicate, (post_transactions w N _ _ Hw Hd HN); [|done|apply alone_new|done|lia|lia].
    intros i Hi. apply Hkeys. lia. }
  assert (∀ l, schedule (thread_serve src) l ps s ≠ Stuck) as Hsafe.
  { intros l. destruct (Hrun l) as (ps' & vs' & s' & -> & _). done. }
  split; [exact Hsafe|]. intros f Hf. assert (length ps = T) as HlenT by apply length_replicate.
  destruct (fair_ends (thread_serve src) f ps s) as [m0 Hm0]; [by rewrite HlenT|intros m; apply Hsafe|].
  exists m0. intros m Hm. destruct (Hm0 m Hm) as (ps' & s' & Hs' & Hend).
  destruct (Hrun (from_turn f 0 m)) as (ps1 & vs & s1 & Hs1 & Hw1 & Hlen & Hps). rewrite Hs' in Hs1.
  injection Hs1 as <- <-. exists s'.
  destruct (ended_all _ ps' vs (0 + Z.of_nat k) _ Hps) as [Hret Hvs].
  { rewrite (Forall2_length _ _ _ Hps), Hlen, <-HlenT. exact Hend. }
  split; [by rewrite Hs', Hret, Hlen|].
  destruct (end_world _ _ _ _ _ Hw1) as [Ha' (db' & Hst' & Hl')]; [by apply Forall_cons|].
  eexists _, db'. split; [|done]. cbn [fmap list_fmap concat loaded_view nums]. rewrite length_app, length_seqZ.
  pose proof (wi_quota _ _ _ _ _ Hw1) as Hq. cbn [fmap list_fmap concat loaded_view nums] in Hq.
  rewrite length_app, length_seqZ in Hq. lia.
Qed.

(** C6: Records are loaded in parallel as they are by one client.  The threads
    of [main] share the workload and the hash-table database, each running
    its part of the load, in any interleaving of their draws, table calls
    and allocations, and with any random numbers.  No thread ever uses a
    block that another has freed or reaches an undefined step.  Once each
    thread has had its turns, all have ended and counted every insertion as a
    success, and the tables hold the full records of the keys from 0 on,
    without a gap, and nothing else; no string or table is leaked.  The
    number of records is [num_threads] times the truncated quotient. *)
Theorem parallel_load_completes src fuel w num_threads total_ops l :
  documented src -> ready w -> key_generator_ w = CounterGenerator 0 -> distinct w total_ops ->
  0 < num_threads -> 0 ≤ total_ops < 2 ^ 31 ->
  let each := total_ops `div` num_threads in
  ∃ ps s, schedule (thread_serve src) l (phase_threads fuel w num_threads total_ops true) (Shared w store0 0) = Ok (ps, s) ∧
    ((∀ i, (i < Z.to_nat num_threads)%nat -> (load_turns w (Z.to_nat each) <= turns i l)%nat) ->
     sum_ops <$> returned ps = Some (num_threads * each) ∧ after w (num_threads * each) (sh_workload s) ∧
     ∃ db, store_is (sh_store s) db ∧ loaded w (num_threads * each) db).
Proof.
  intros Hsrc Hw Hk Hd HT0 Htot each.
  assert (0 ≤ each) as He by (apply Z.div_pos; lia).
  assert (num_threads * each ≤ total_ops) as Hle by (apply Z.mul_div_le; lia).
  assert (0 + Z.of_nat (Z.to_nat num_threads * Z.to_nat each) = num_threads * each) as HN by lia.
  unfold phase_threads. rewrite Z.quot_div_nonneg by lia. fold each.
  destruct (load_rule (λ _, True) src fuel w (Shared w store0 0) 0 ∅ (Z.to_nat num_threads) (Z.to_nat each) l)
    as (ps & s & Hrun & _ & H); rewrite ?HN;
    [done|done|by split|by apply Forall_true|apply store0_is|apply loaded_empty|done| |lia|lia|].
  { intros i j Hi Hj. apply Hd; lia. }
  exists ps, s. split; [done|]. intros Hturns. destruct H as (-> & Ha & _ & Hdb).
  { intros i Hi. eapply schedule_within; [exact Hrun|by apply lookup_replicate_2|apply within_load|by apply Hturns]. }
  rewrite HN in Ha, Hdb. rewrite Z2Nat.id by lia. split; [|done].
  rewrite returned_all. cbn. f_equal. rewrite sum_ops_small by lia. lia.
Qed.
End main.

(** ** From the properties to the end *)
Section benchmark.
Context {HT : StringHashtable} {D : Doubles}.

(** Between the phases: [n] records are loaded and nobody works. *)
Definition holds (chosen : Operation -> Prop) (w : CoreWorkload) (n : Z) (s : shared) : Prop :=
  after w n (sh_workload s) ∧ Forall (λ x, chosen x.1) (values_ (op_chooser_ (sh_workload s))) ∧
  ∃ db, store_is (sh_store s) db ∧ loaded w n db.

Section phases.
Variables (src : source) (w : CoreWorkload) (num_threads : Z) (chosen : Operation -> Prop).
Hypothesis (Hsrc : documented src) (Hw : ready w) (HT0 : 0 < num_threads).

Lemma load_phase fuel each s :
  holds chosen w 0 s -> 0 ≤ each -> num_threads * each < 2 ^ 31 ->
  let phase l := main_phase src l (phase_threads fuel w num_threads (num_threads * each) true) s in
  (∀ l, ∃ o s', phase l = Ok (o, s') ∧ (is_Some o -> holds chosen w (num_threads * each) s')) ∧
  ∀ f, fair (Z.to_nat num_threads) f -> ∃ t, ∀ m, (t <= m)%nat -> ∃ s',
    phase (from_turn f 0 m) = Ok (Some (num_threads * each), s') ∧ holds chosen w (num_threads * each) s'.
Proof.
  intros (Ha & Hc & db & Hst & Hl) He Hsm. cbv zeta. unfold main_phase, phase_threads.
  rewrite Z.quot_div_nonneg by lia.
  assert ((num_threads * each) `div` num_threads = each) as -> by (rewrite (Z.mul_comm num_threads); apply Z.div_mul; lia).
  set (T := Z.to_nat num_threads). set (k := Z.to_nat each).
  set (ps0 := replicate T (thread_DelegateClient fuel w k true 0)).
  assert (length ps0 = T) as HlenT by apply length_replicate.
  assert (0 + Z.of_nat (T * k) = num_threads * each) as HN by lia.
  pose proof (λ l, load_rule chosen src fuel w s 0 db T k l Hsrc Hw Ha Hc Hst Hl ltac:(lia)
    (all_distinct w (0 + Z.of_nat (T * k)) ltac:(lia)) ltac:(lia) ltac:(lia)) as Hload.
  rewrite HN in Hload. fold ps0 in Hload. split.
  - intros l. destruct (Hload l) as (ps & s' & -> & Hlen & Hend). eexists _, s'. split; [done|].
    intros [z Hz]. destruct (returned ps) as [zs|] eqn:Hret; [|done].
    apply Hend. intros i Hi. eapply returned_ended; [exact Hret|lia].
  - intros f Hf. destruct (fair_ends (thread_serve src) f ps0 s) as [t Ht].
    { by rewrite HlenT. }
    { intros m. destruct (Hload (from_turn f 0 m)) as (ps & s1 & -> & _). done. }
    exists t. intros m Hm. destruct (Ht m Hm) as (ps & s' & Hs' & Hended). exists s'.
    destruct (Hload (from_turn f 0 m)) as (ps1 & s1 & Hs1 & _ & Hend). rewrite Hs' in Hs1. injection Hs1 as <- <-.
    destruct Hend as (-> & Hholds); [by rewrite <-HlenT|]. split; [|exact Hholds].
    rewrite Hs', returned_all. cbn [fmap option_fmap option_map]. rewrite sum_ops_small by lia.
    by rewrite <-Nat2Z.inj_mul, <-HN, Z.add_0_l.
Qed.

Lemma transactions_phase fuel n ops s :
  holds chosen w n s -> (∀ o, chosen o -> o ≠ UPDATE ∧ o ≠ READMODIFYWRITE) ->
  insert_key_sequence_ w ≤ n -> 0 ≤ ops < 2 ^ 31 -> n + ops < 2 ^ 32 ->
  let phase l := main_phase src l (phase_threads (S fuel) w num_threads ops false) s in
  (∀ l, phase l ≠ Stuck) ∧
  ∀ f, fair (Z.to_nat num_threads) f -> ∃ t, ∀ m, (t <= m)%nat -> ∃ s' c,
    phase (from_turn f 0 m) = Ok (Some (num_threads * (ops `div` num_threads)), s') ∧
    n ≤ c ≤ n + ops ∧ ∃ db, store_is (sh_store s') db ∧ loaded w c db.
Proof.
  intros (Ha & Hc & db & Hst & Hl) Hno Hseq Hops Hn. cbv zeta. unfold main_phase, phase_threads.
  pose proof (rd_seq _ Hw). rewrite Z.quot_div_nonneg by lia.
  assert (0 ≤ ops `div` num_threads) as Hper by (apply Z.div_pos; lia).
  assert (num_threads * (ops `div` num_threads) ≤ ops) as Hle by (apply Z.mul_div_le; lia).
  set (T := Z.to_nat num_threads). set (k := Z.to_nat (ops `div` num_threads)).
  assert (Z.of_nat (T * k) = num_threads * (ops `div` num_threads)) as HN by lia.
  destruct (transactions_rule src fuel w s n db T k Hsrc Hw Ha) as [Hsafe Hfair];
    [eapply Forall_impl; [exact Hc|intros x; apply Hno]|done|done|lia|apply all_distinct; lia|lia|lia|].
  split.
  - intros l. specialize (Hsafe l). by destruct (schedule (thread_serve src) l _ s) as [[ps s']|].
  - intros f Hf. destruct (Hfair f Hf) as [t Ht]. exists t. intros m Hm.
    destruct (Ht m Hm) as (s' & Hs' & c & db' & Hcr & _ & Hdb). exists s', c.
    rewrite Hs', returned_all. cbn [fmap option_fmap option_map]. rewrite sum_ops_small by lia.
    split; [by rewrite <-Nat2Z.inj_mul, HN|]. split; [lia|by exists db'].
Qed.
End phases.

(** C4: The benchmark with several threads, from its properties to its end.
    Properties describe a uniform workload without updates (a mixture of
    reads, scans and insertions), and [num_threads] divides the number of
    records.  Then no interleaving of the threads, in the load and in the
    transactions, ever reaches a freed block or another undefined step; and
    when no thread waits for ever, both phases end, every record is loaded,
    every transaction of every thread succeeds, and the tables hold full
    records without a gap.  Keys are hashed, the default, or in order.  The
    arithmetic of [double] is any; the shares of the operations, as it rounds
    them, must leave no gap in [0,1), or the assertion of the discrete
    generator could fail. *)
Theorem main_threads_succeeds src fuel nk p num_threads each ops :
  documented src -> uniform_workload p (num_threads * each) ->
  stoi (prop p "threadcount" "1") = Val num_threads -> 0 < num_threads ->
  stoi (GetProperty p (lit OPERATION_COUNT_PROPERTY) []) = Val ops -> 0 ≤ ops ->
  ~ has_share p UPDATE -> ~ has_share p READMODIFYWRITE ->
  (∀ l1 l2, main_threads src (S fuel) nk p l1 l2 ≠ Stuck) ∧
  ∀ f1 f2, fair (Z.to_nat num_threads) f1 -> fair (Z.to_nat num_threads) f2 ->
    ∃ t1, ∀ m1, (t1 <= m1)%nat -> ∃ t2, ∀ m2, (t2 <= m2)%nat -> ∃ s,
      main_threads src (S fuel) nk p (from_turn f1 0 m1) (from_turn f2 0 m2) =
        Ok (Val (Some (num_threads * each, num_threads * (ops `div` num_threads), s))) ∧
      ∃ w c db, num_threads * each ≤ c ≤ num_threads * each + ops ∧
        store_is (sh_store s) db ∧ loaded w c db ∧
        ordered_inserts_ w = ordered p ∧ table_name_ w = prop p TABLENAME_PROPERTY TABLENAME_DEFAULT.
Proof.
  intros Hsrc Hp Hth HT0 Hops Hops0 Hnu Hnm. pose proof (uw_records _ _ Hp) as [Hrc Hrc1].
  pose proof (stoi_range _ _ Hrc). pose proof (stoi_range _ _ Hops).
  assert (∀ key v, stoi (GetProperty p (lit key) []) = Val v -> property_at p (lit key) ≫= stoi = Val v) as Hat.
  { intros key v. unfold GetProperty, property_at. by destruct (p !! lit key). }
  destruct (drawn_ends src (Init nk p) _ 0%nat Hsrc (Init_ok nk p _ Hp)) as (wl & n & Hinit & w & -> & Hw & Htb & Hord & Hk & Hseq & Hch).
  unfold main_threads. rewrite Hinit. cbn [or_throw]. rewrite Hth, (Hat _ _ Hrc), (Hat _ _ Hops). cbn [or_throw].
  destruct (load_phase src w num_threads (has_share p) Hsrc Hw HT0 (S fuel) each (Shared w store0 n)) as [Hload Hloadf];
    [split; [by split|]; split; [done|]; exists ∅; split; [apply store0_is|apply loaded_empty]|lia|lia|].
  assert (∀ o, has_share p o -> o ≠ UPDATE ∧ o ≠ READMODIFYWRITE) as Hno by (intros o Ho; split; intros ->; tauto).
  pose proof (λ s Hs, transactions_phase src w num_threads (has_share p) Hsrc Hw HT0 fuel (num_threads * each) ops s Hs Hno
    ltac:(lia) ltac:(lia) ltac:(lia)) as Htrans. cbv zeta in Hload, Hloadf, Htrans. split.
  - intros l1 l2. destruct (Hload l1) as (o & s1 & -> & Hs1). destruct o as [z|]; [|done]. cbn [or_throw].
    destruct (Htrans s1 (Hs1 ltac:(by eexists))) as [Hsafe _]. specialize (Hsafe l2).
    by destruct (main_phase src l2 _ s1) as [[o2 s2]|].
  - intros f1 f2 Hf1 Hf2. destruct (Hloadf f1 Hf1) as [t1 Ht1]. exists t1. intros m1 Hm1.
    destruct (Ht1 m1 Hm1) as (s1 & -> & Hs1). cbn [or_throw]. destruct (Htrans s1 Hs1) as [_ Hfair].
    destruct (Hfair f2 Hf2) as [t2 Ht2]. exists t2. intros m2 Hm2.
    destruct (Ht2 m2 Hm2) as (s2 & c & -> & Hc & db & Hst & Hl). exists s2. split; [done|]. by exists w, c, db.
Qed.
End benchmark.

(** ** Instances *)
Section exact.
Local Existing Instance rationals.

(** Ten records and three threads: nine are loaded. *)
Lemma parallel_load_completes_witness :
  let l := concat (replicate 135 [2; 0; 1]%nat) in
  let src : @source rationals := lowest in
  ∃ ps s, schedule (@thread_serve stacks _ src) l (phase_threads 1 padded_workload 3 10 true) (Shared padded_workload store0 0) = Ok (ps, s) ∧
    sum_ops <$> returned ps = Some 9 ∧ ∃ db, store_is (sh_store s) db ∧ loaded padded_workload 9 db ∧
      db !! kname padded_workload 9 = None.
Proof.
  destruct (@parallel_load_completes stacks _ lowest 1 padded_workload 3 10 (concat (replicate 135 [2; 0; 1]%nat)))
    as (ps & s & Hrun & H); [exact lowest_documented|exact padded_ready|reflexivity| |lia|lia|].
  { intros i j Hi Hj. apply (ordered_distinct padded_workload); [reflexivity|lia|lia]. }
  exists ps, s. split; [exact Hrun|]. destruct H as (Hsum & _ & db & Hst & Hdb).
  { intros i Hi. destruct i as [|[|[|i]]]; [vm_compute; lia..|vm_compute in Hi; lia]. }
  split; [exact Hsum|]. exists db. split; [exact Hst|]. split; [exact Hdb|].
  apply (loaded_next padded_workload 9 (2 ^ 64)); [exact padded_ready|exact Hdb| |lia|lia].
  by apply ordered_distinct.
Defined.

End exact.

(** Six records, three threads and seven insertions of hashed keys, two a
    thread, with the arithmetic of the processor. *)
Section binary.
Local Instance threads_doubles : Doubles := binary64 (λ a _, a).

Definition six_records : Properties := list_to_map
  [(lit "recordcount", lit "6"); (lit "operationcount", lit "7"); (lit "threadcount", lit "3");
   (lit "readproportion", lit "0"); (lit "updateproportion", lit "0"); (lit "insertproportion", lit "1.0")].

Lemma six_records_uniform : uniform_workload six_records 6.
Proof.
  split; try (lazymatch goal with |- ex _ => fail | |- _ => by vm_compute end).
  - by repeat constructor.
  - exists 10. by vm_compute.
  - exists 100. by vm_compute.
  - exists (b64 0), (b64 0), (b64 1), (b64 0), (b64 0).
    repeat (split; [by vm_compute|]).
    change (total (add_op INSERT (b64 1 : double) new_discrete)). apply one_share; by vm_compute.
  - exists 1. by vm_compute.
  - exists 1000. by vm_compute.
  - by exists true.
  - by exists false.
Qed.

Lemma main_threads_succeeds_witness :
  let turn t := (t `mod` 3)%nat in
  (∀ l1 l2, main_threads (HT := stacks) b64_lowest 1 (λ _ _, None) six_records l1 l2 ≠ Stuck) ∧
  ∃ m1 m2 s,
    main_threads (HT := stacks) b64_lowest 1 (λ _ _, None) six_records (from_turn turn 0 m1) (from_turn turn 0 m2) = Ok (Val (Some (6, 6, s))) ∧
    ∃ w c db, 6 ≤ c ≤ 13 ∧ store_is (sh_store s) db ∧ loaded w c db ∧
      ordered_inserts_ w = false ∧ table_name_ w = lit "usertable".
Proof.
  cbv zeta.
  pose proof (fair_in_turn 3 : fair (Z.to_nat 3) _) as Hf.
  destruct (@main_threads_succeeds stacks threads_doubles b64_lowest 0 (λ _ _, None) six_records 3 2 7) as [Hsafe Hfair];
    [exact b64_lowest_documented|exact six_records_uniform|by vm_compute|lia|by vm_compute|lia|..].
  { intros (q & Hq & Hp). vm_compute in Hq. injection Hq as <-. by vm_compute in Hp. }
  { intros (q & Hq & Hp). vm_compute in Hq. injection Hq as <-. by vm_compute in Hp. }
  split; [exact Hsafe|].
  destruct (Hfair _ _ Hf Hf) as [t1 H1]. destruct (H1 t1 (le_n t1)) as [t2 H2].
  destruct (H2 t2 (le_n t2)) as (s & Hs & w & c & db & Hc & Hrest).
  exists t1, t2, s. split; [exact Hs|]. exists w, c, db. split; [lia|exact Hrest].
Defined.
End binary.
