(* ===== verification/WorkloadRequests.v ===== *)
(** * WorkloadRequests: which records and fields a run of transactions asks for

    Over every trace whose draws are in their documented ranges, whatever the
    database answers.  The insert counter of the requests is never advanced,
    so no transaction asks for a record that a transaction inserted.  And a
    read of one field puts the prefix of its name twice, so it finds
    nothing. *)

From Stdlib Require Import ZArith Lia Ascii QArith.
From stdpp Require Import base list list_numbers strings gmap sets fin_maps fin_map_dom.
From S2P Require Import Prelude Libc Printf Calls YcsbUtils Generators Workload WorkloadSpec.
From S2P Require Import Table StringHashtable HashtableDb HashtableOps HashtableTheorems Client WorkloadRun WorkloadTheorems.

#[local] Open Scope Z_scope.

Section requests.
Context {D : Doubles}.

(** ** Traces *)

(** A draw whose result is in the documented range. *)
Definition in_range (ev : event rnd) : Prop :=
  ∀ P : ev_type _ ev -> unit -> Prop, rnd_spec _ (ev_call _ ev) tt P -> P (ev_result _ ev) tt.

Definition documented_event (ev : event client_call) : Prop :=
  match ev with
  | Ev e x =>
      match e in client_call X return X -> Prop with
      | draws e => λ x, in_range (Ev e x)
      | on_db _ => λ _, True
      end x
  end.
Abbreviation documented_trace := (Forall documented_event).

(** The key of a call that is not an insert, and of an insert. *)
Definition request (ev : event client_call) : option string :=
  match ev_call _ ev with
  | on_db (ORead _ key _) | on_db (OScan _ key _ _) | on_db (OUpdate _ key _) => Some key
  | _ => None
  end.
Definition requested (tr : list (event client_call)) : list string := omap request tr.

Definition insertion (ev : event client_call) : option string :=
  match ev_call _ ev with on_db (OInsert _ key _) => Some key | _ => None end.
Definition inserted (tr : list (event client_call)) : list string := omap insertion tr.

(** The reads and the scans. *)
Definition asking (ev : event client_call) : option op :=
  match ev_call _ ev with on_db (ORead _ _ _ as o) | on_db (OScan _ _ _ _ as o) => Some o | _ => None end.
Definition asked (tr : list (event client_call)) : list op := omap asking tr.

Definition drawn_event (ev : event rnd) : event client_call := Ev (draws (ev_call _ ev)) (ev_result _ ev).

Lemma workload_traces {A} (p : prog rnd A) tr a :
  traces (workload_ p) tr a -> ∃ tr', traces p tr' a ∧ tr = drawn_event <$> tr'.
Proof.
  unfold workload_. revert tr. induction p as [b|X e k IH|]; intros tr.
  - intros [-> ->]. by exists [].
  - intros (x & tr1 & -> & H). apply IH in H as (tr2 & H2 & ->). exists (Ev e x :: tr2). split; [|done].
    by exists x, tr2.
  - intros [].
Qed.

Lemma drawn_documented tr : documented_trace (drawn_event <$> tr) -> Forall in_range tr.
Proof. rewrite Forall_fmap. intros H. eapply Forall_impl; [exact H|]. by intros [X e x]. Qed.

Lemma drawn_nothing {B} (f : event client_call -> option B) tr :
  (∀ ev, f (drawn_event ev) = None) -> omap f (drawn_event <$> tr) = [].
Proof. intros Hf. induction tr as [|ev tr IH]; [done|]. cbn. by rewrite Hf. Qed.

(** ** Requests are numbers, not negative *)

(** The choosers of keys that [Init] builds. *)
Definition unsigned (g : generator) : Prop :=
  match g with
  | UniformGenerator min max _ => 0 ≤ min ≤ max
  | ScrambledZipfianGenerator _ _ _ | SkewedLatestGenerator _ _ => True
  | _ => False
  end.

Lemma u64_nonneg z : 0 ≤ u64 z.
Proof. apply wrap_range. lia. Qed.

Lemma next_unsigned basis g tr r :
  traces (Next basis g) tr r -> Forall in_range tr -> unsigned g -> 0 ≤ r.1 ∧ unsigned r.2.
Proof.
  intros H Hd Hg. destruct g as [c|c|min max last|z|b n z|z last]; try done; cbn [Next] in H.
  - apply traces_bind in H as (tr1 & v & tr2 & -> & (x & tr3 & -> & [-> ->]) & [-> ->]). cbn.
    apply Forall_app in Hd as [[Hv _]%Forall_cons _]. cbn in Hg.
    destruct (Hv (λ v _, min ≤ v ≤ max)) as [? ?]; [split; [lia|done]|]. cbn in *. lia.
  - apply traces_bind in H as (tr1 & [v z'] & tr2 & -> & _ & [-> ->]). split; [apply u64_nonneg|done].
  - apply traces_bind in H as (tr1 & [v z'] & tr2 & -> & _ & [-> ->]). split; [apply u64_nonneg|done].
Qed.

Lemma new_key_chooser_unsigned nk p records ip tr g :
  1 ≤ records < 2 ^ 64 -> traces (new_key_chooser nk p records ip) tr (Val g) -> unsigned g.
Proof.
  intros Hr H. unfold new_key_chooser in H. repeat case_bool_decide.
  - apply traces_bind in H as (? & g' & ? & -> & H & [-> [= ->]]).
    apply traces_bind in H as (? & v & ? & -> & _ & [-> ->]). cbn. rewrite u64_small by lia. lia.
  - unfold attempt in H. destruct (stoi _); [|by destruct H].
    apply traces_bind in H as (? & k & ? & -> & _ & H).
    apply traces_bind in H as (? & g' & ? & -> & H & [-> [= ->]]).
    apply traces_bind in H as (? & z & ? & -> & _ & [-> ->]). done.
  - apply traces_bind in H as (? & g' & ? & -> & H & [-> [= ->]]).
    apply traces_bind in H as (? & z & ? & -> & _ & H).
    apply traces_bind in H as (? & [v g2] & ? & -> & H & [-> ->]). cbn [Next] in H.
    apply traces_bind in H as (? & [v' z'] & ? & -> & _ & [-> [= -> ->]]). done.
  - by destruct H.
Qed.

(** ** What the draws of the workload leave *)

(** Takes a trace of a sequence of draws apart. *)
Ltac trace_inv :=
  repeat match goal with
  | H : traces (_ ≫= _) _ _ |- _ =>
      let a := fresh "a" in let H1 := fresh "Hd" in
      apply traces_bind in H as (? & a & ? & -> & H1 & H);
      try (match type of a with (_ * _)%type => destruct a end); cbn [fst snd] in *
  | H : traces (mret _) _ _ |- _ => destruct H as [-> ->]
  end.

(** The static parts and the counter of new keys are the same, and requests
    are not negative. *)
Record kept (w w' : CoreWorkload) : Prop := {
  kp_static : static w' = static w;
  kp_chooser : unsigned (key_chooser_ w) -> unsigned (key_chooser_ w');
  kp_counter : key_generator_ w' = key_generator_ w
}.

Lemma kept_refl w : kept w w.
Proof. done. Qed.

Lemma kept_trans w1 w2 w3 : kept w1 w2 -> kept w2 w3 -> kept w1 w3.
Proof. intros [? ? ?] [? ? ?]. split; [congruence|auto|congruence]. Qed.

Definition keeps_parts (w : CoreWorkload) {A} (p : prog rnd (A * CoreWorkload)) : Prop :=
  ∀ tr r, traces p tr r -> kept w r.2.

Lemma NextOperation_kept w : keeps_parts w (NextOperation w).
Proof. intros tr r H. unfold NextOperation in H. trace_inv. done. Qed.
Lemma NextFieldName_kept w : keeps_parts w (NextFieldName w).
Proof. intros tr r H. unfold NextFieldName in H. trace_inv. done. Qed.
Lemma NextScanLength_kept w : keeps_parts w (NextScanLength w).
Proof. intros tr r H. unfold NextScanLength in H. trace_inv. done. Qed.
Lemma field_value_kept w : keeps_parts w (field_value w).
Proof. intros tr r H. unfold field_value in H. trace_inv. done. Qed.

Lemma values_loop_kept n i w values : keeps_parts w (values_loop n i w values).
Proof.
  revert i w values. induction n as [|n IH]; intros i w values tr r H; cbn [values_loop] in H; trace_inv; [done|].
  eapply kept_trans; [exact (field_value_kept w _ _ Hd)|exact (IH _ _ _ _ _ H)].
Qed.

Lemma BuildUpdate_kept w : keeps_parts w (BuildUpdate w).
Proof.
  intros tr r H. unfold BuildUpdate in H. trace_inv. cbn.
  eapply kept_trans; [exact (NextFieldName_kept w _ _ Hd)|exact (field_value_kept _ _ _ Hd0)].
Qed.

Lemma write_values_kept w : keeps_parts w (if write_all_fields_ w then BuildValues w else BuildUpdate w).
Proof. destruct (write_all_fields_ w); [apply values_loop_kept|apply BuildUpdate_kept]. Qed.

(** The number of a request is not after the last of the load. *)
Lemma transaction_loop_kept fuel w tr r :
  traces (transaction_loop fuel w) tr r -> Forall in_range tr -> unsigned (key_chooser_ w) ->
  kept w r.2 ∧ 0 ≤ r.1 ≤ counter_last (insert_key_sequence_ w).
Proof.
  revert w tr. induction fuel as [|fuel IH]; intros w tr H Hd Hu; cbn [transaction_loop] in H; [done|].
  apply traces_bind in H as (tr1 & [v g] & tr2 & -> & H1 & H). apply Forall_app in Hd as [Hd1 Hd2].
  destruct (next_unsigned _ _ _ _ H1 Hd1 Hu) as [Hv Hg]. cbn [fst snd] in *.
  assert (kept w (set_key_chooser g w)) as Hw by done.
  match type of H with traces (if ?b then _ else _) _ _ => destruct b eqn:Hb end.
  - destruct (IH _ _ H Hd2 Hg) as [Hk Hr]. split; [by eapply kept_trans|exact Hr].
  - destruct H as [-> ->]. apply Z.ltb_ge in Hb. done.
Qed.

(** A number that requests may have. *)
Definition in_load (w : CoreWorkload) (i : Z) : Prop := 0 ≤ i < insert_key_sequence_ w.

Lemma NextTransactionKey_known fuel w tr r :
  0 < insert_key_sequence_ w < 2 ^ 64 ->
  traces (NextTransactionKey fuel w) tr r -> Forall in_range tr -> unsigned (key_chooser_ w) ->
  kept w r.2 ∧ ∃ i, in_load w i ∧ r.1 = BuildKeyName w i.
Proof.
  intros Hseq H Hd Hu. unfold NextTransactionKey in H.
  apply traces_bind in H as (tr1 & [v w'] & tr2 & -> & H1 & [-> ->]). apply Forall_app in Hd as [Hd1 _].
  destruct (transaction_loop_kept _ _ _ _ H1 Hd1 Hu) as [Hk Hi]. cbn [fst snd] in *. split; [exact Hk|].
  exists v. unfold in_load, counter_last in *. rewrite u64_small in Hi by lia.
  split; [lia|]. by apply BuildKeyName_static, kp_static.
Qed.

(** ** A part of a run, by the records it asks for and inserts *)
Section run.
Variable w0 : CoreWorkload.
Hypothesis Hseq : 0 < insert_key_sequence_ w0 < 2 ^ 64.

(** The key of a loaded record. *)
Definition known (key : string) : Prop := ∃ i, in_load w0 i ∧ key = str (BuildKeyName w0 i).

Definition new_keys (n m : Z) : list string := (λ i, str (BuildKeyName w0 i)) <$> seqZ n m.

(** Every trace of [p] asks for known keys only and inserts the keys from [n]
    on, in order, to the one before [n'], and ends in [Q]. *)
Definition asks (n : Z) {A} (p : prog client_call A) (Q : A -> Z -> Prop) : Prop :=
  ∀ tr a, traces p tr a -> documented_trace tr ->
    Forall known (requested tr) ∧ ∃ m, 0 ≤ m ∧ inserted tr = new_keys n m ∧ Q a (n + m).

Lemma asks_ret n {A} (a : A) (Q : A -> Z -> Prop) : Q a n -> asks n (mret a) Q.
Proof. intros HQ tr b [-> ->] _. split; [done|]. exists 0. by rewrite Z.add_0_r. Qed.

Lemma asks_undef n {A} (Q : A -> Z -> Prop) : asks n undef Q.
Proof. by intros tr b []. Qed.

Lemma asks_bind n {A B} (p : prog client_call A) (f : A -> prog client_call B) (P : A -> Z -> Prop) Q :
  asks n p P -> (∀ a n', P a n' -> asks n' (f a) Q) -> asks n (p ≫= f) Q.
Proof.
  intros Hp Hf tr b (tr1 & a & tr2 & -> & H1 & H2)%traces_bind [Hd1 Hd2]%Forall_app.
  destruct (Hp _ _ H1 Hd1) as (K1 & m1 & Hm1 & I1 & Ha). destruct (Hf a _ Ha _ _ H2 Hd2) as (K2 & m2 & Hm2 & I2 & Hb).
  unfold requested, inserted, new_keys in *. rewrite !omap_app. split; [by apply Forall_app|].
  exists (m1 + m2). split; [lia|]. split; [by rewrite I1, I2, seqZ_app, fmap_app by done|].
  by rewrite Z.add_assoc.
Qed.

(** Draws ask for nothing. *)
Lemma asks_draws n {A} (p : prog rnd A) (Q : A -> Z -> Prop) :
  (∀ tr a, traces p tr a -> Forall in_range tr -> Q a n) -> asks n (workload_ p) Q.
Proof.
  intros HQ tr a (tr' & H & ->)%workload_traces Hd%drawn_documented. unfold requested, inserted.
  rewrite !drawn_nothing by done. split; [done|]. exists 0. rewrite Z.add_0_r. split; [done|]. split; [done|]. by eapply HQ.
Qed.

(** Calls of the database. *)
Lemma asks_db n o :
  insertion (Ev (on_db o) (0, [])) = None -> (∀ key, request (Ev (on_db o) (0, [])) = Some key -> known key) ->
  asks n (r ← call (on_db o); mret r.1) (λ _ n', n' = n).
Proof.
  intros Hi Ho tr z (r & tr' & -> & [-> ->]) _. unfold requested, inserted. split.
  - destruct o; cbn in *; repeat constructor; by apply Ho.
  - exists 0. rewrite Z.add_0_r. split; [done|]. split; [|done]. destruct o; done.
Qed.

Lemma asks_insert n table values :
  asks n (db_Insert table (BuildKeyName w0 n) values) (λ _ n', n' = n + 1).
Proof. intros tr z (r & tr' & -> & [-> ->]) _. split; [done|]. by exists 1. Qed.

(** What a part of a transaction starts from. *)
Record state (c : Z) (w : CoreWorkload) : Prop := {
  st_static : static w = static w0;
  st_chooser : unsigned (key_chooser_ w);
  st_counter : key_generator_ w = CounterGenerator c
}.

Lemma state_kept c w w' : state c w -> kept w w' -> state c w'.
Proof. intros [? ? ?] [? ? ?]. split; [congruence|auto|congruence]. Qed.

Lemma state_seq c w : state c w -> insert_key_sequence_ w = insert_key_sequence_ w0.
Proof. intros [H _ _]. injection H. congruence. Qed.

(** A part that inserts nothing. *)
Definition modest {A} (p : CoreWorkload -> prog client_call (A * CoreWorkload)) : Prop :=
  ∀ c n w, state c w -> asks n (p w) (λ r n', n' = n ∧ state c r.2).

Lemma modest_draws {A} (p : CoreWorkload -> prog rnd (A * CoreWorkload)) :
  (∀ w, keeps_parts w (p w)) -> modest (λ w, workload_ (p w)).
Proof. intros H c n w Hw. apply asks_draws. intros tr a Ha _. split; [done|]. eapply state_kept; [exact Hw|by eapply H]. Qed.

Lemma modest_bind {A B} (p : CoreWorkload -> prog client_call (A * CoreWorkload))
    (f : A -> CoreWorkload -> prog client_call (B * CoreWorkload)) :
  modest p -> (∀ a, modest (f a)) -> modest (λ w, '(a, w) ← p w; f a w).
Proof. intros Hp Hf c n w Hw. eapply asks_bind; [by apply Hp|]. intros [a w'] ? [-> Hw']. by apply Hf. Qed.

Lemma modest_db {B} (o : CoreWorkload -> op) (f : Z -> CoreWorkload -> prog client_call (B * CoreWorkload)) :
  (∀ w, insertion (Ev (on_db (o w)) (0, [])) = None) ->
  (∀ w key, request (Ev (on_db (o w)) (0, [])) = Some key -> known key) -> (∀ z, modest (f z)) ->
  modest (λ w, z ← (r ← call (on_db (o w)); mret r.1); f z w).
Proof.
  intros Hi Ho Hf c n w Hw. eapply asks_bind; [by apply asks_db; [|apply Ho]|]. intros z ? ->. by apply Hf.
Qed.

Lemma modest_ret {A} (a : A) : modest (λ w, mret (a, w)).
Proof. intros c n w Hw. by apply asks_ret. Qed.

(** A request's key, and then what is done with it. *)
Lemma modest_key {B} fuel (f : text -> CoreWorkload -> prog client_call (B * CoreWorkload)) :
  (∀ key, known (str key) -> modest (f key)) ->
  modest (λ w, '(key, w) ← workload_ (NextTransactionKey fuel w); f key w).
Proof.
  intros Hf c n w Hw. apply (asks_bind _ _ _ (λ r n', n' = n ∧ state c r.2 ∧ known (str r.1))).
  - apply asks_draws. intros tr r Hr Hd. pose proof (state_seq _ _ Hw) as Es.
    destruct (NextTransactionKey_known fuel w tr r) as (Hk & i & Hi & ->); [by rewrite Es|done|done|apply Hw|].
    split; [done|]. split; [by eapply state_kept|]. exists i. unfold in_load in *. rewrite <-Es. split; [done|].
    by rewrite (BuildKeyName_static w0 w) by apply Hw.
  - intros [key w'] ? (-> & Hw' & Hk). by apply Hf.
Qed.

Lemma read_fields_modest : modest read_fields.
Proof.
  intros c n w Hw. unfold read_fields. destruct (read_all_fields_ w); [by apply modest_ret|].
  revert c n w Hw. apply (modest_bind _ (λ f w, mret (Some [lit "field" ++ f], w))).
  - apply modest_draws, NextFieldName_kept.
  - intros f. apply modest_ret.
Qed.

Lemma write_values_modest : modest write_values.
Proof. apply modest_draws, write_values_kept. Qed.

(** A transaction inserts at most one record, the one of the counter. *)
Definition inserts_one {A} (p : CoreWorkload -> prog client_call (A * CoreWorkload)) : Prop :=
  ∀ c w, state c w -> 0 ≤ c < 2 ^ 64 - 1 -> asks c (p w) (λ r n', c ≤ n' ≤ c + 1 ∧ state n' r.2).

Lemma modest_one {A} (p : CoreWorkload -> prog client_call (A * CoreWorkload)) : modest p -> inserts_one p.
Proof.
  intros Hp c w Hw Hc tr a Htr Hd. destruct (Hp c c w Hw tr a Htr Hd) as (Hk & m & Hm & Hi & E & Hs).
  split; [done|]. exists m. split; [done|]. split; [done|]. rewrite E. split; [lia|done].
Qed.

Lemma TransactionInsert_one : inserts_one TransactionInsert.
Proof.
  intros c w Hw Hc. unfold TransactionInsert.
  apply (asks_bind _ _ _ (λ r n', n' = c ∧ r.1 = BuildKeyName w0 c ∧ state (c + 1) r.2)).
  - apply asks_draws. intros tr r H _. destruct Hw as [Hst Hu Hk]. unfold NextSequenceKey, draw in H. rewrite Hk in H.
    cbn [Next] in H. trace_inv. destruct Hd as [-> [= -> ->]]. rewrite u64_small by lia. cbn [fst snd].
    split; [done|]. split; [exact (BuildKeyName_static _ _ c Hst)|by split].
  - intros [key w1] ? (-> & Hkey & Hw1). cbn [fst snd] in Hkey, Hw1. subst key.
    eapply asks_bind; [apply (modest_draws BuildValues); [intros; apply values_loop_kept|exact Hw1]|].
    intros [values w2] ? [-> Hw2]. eapply asks_bind; [apply asks_insert|]. intros z ? ->.
    apply asks_ret. split; [lia|exact Hw2].
Qed.

Lemma transaction_one fuel op : inserts_one (transaction fuel op).
Proof.
  assert (∀ key, known (str key) ->
    modest (λ w, '(values, w) ← write_values w; z ← db_Update (table_name_ w) key values; mret (z, w))) as Hup.
  { intros key Hkey. apply modest_bind; [apply write_values_modest|]. intros values.
    apply modest_db; [done|by intros w ? [= <-]|intros; apply modest_ret]. }
  destruct op; [apply TransactionInsert_one|apply modest_one, modest_key; intros key Hkey..]; cbn beta.
  - apply modest_bind; [apply read_fields_modest|]. intros fields.
    apply modest_db; [done|by intros w ? [= <-]|intros; apply modest_ret].
  - by apply Hup.
  - apply modest_bind; [apply modest_draws, NextScanLength_kept|]. intros n.
    apply modest_bind; [apply read_fields_modest|]. intros fields.
    apply modest_db; [done|by intros w ? [= <-]|intros; apply modest_ret].
  - apply modest_bind; [apply read_fields_modest|]. intros fields.
    apply modest_db; [done|by intros w ? [= <-]|intros; by apply Hup].
Qed.

Lemma DoTransaction_one fuel : inserts_one (DoTransaction fuel).
Proof.
  intros c w Hw Hc. unfold DoTransaction.
  eapply asks_bind; [apply (modest_draws NextOperation); [apply NextOperation_kept|exact Hw]|].
  intros [op w1] ? [-> H1]. eapply asks_bind; [by apply transaction_one|]. intros [status w2] n' Hn'.
  destruct (0 <=? status); [by apply asks_ret|apply asks_undef].
Qed.

Lemma DelegateClient_asks fuel k oks c w :
  state c w -> 0 ≤ c -> c + Z.of_nat k < 2 ^ 64 ->
  asks c (DelegateClient fuel k false oks w) (λ r n', c ≤ n' ≤ c + Z.of_nat k ∧ state n' r.2).
Proof.
  revert oks c w. induction k as [|k IH]; intros oks c w Hw Hc Hk.
  - apply asks_ret. split; [lia|done].
  - cbn [DelegateClient]. cbv iota. eapply asks_bind; [apply (DoTransaction_one fuel c w Hw ltac:(lia))|].
    intros [ok w1] n1 [Hn1 H1]. cbn [snd] in H1. intros tr a Htr Hd.
    destruct (IH (i32 (oks + Z.b2z ok)) n1 w1 H1 ltac:(lia) ltac:(lia) tr a Htr Hd) as (HK & m & Hm & HI & Hn & Hs).
    split; [done|]. exists m. split; [done|]. split; [done|]. split; [lia|done].
Qed.
End run.

(** C26: New records are never requested.  After a load of at least the
    records that the counter [insert_key_sequence_] says, take any run of [k]
    transactions whose draws are in their documented ranges, whatever the
    database answers.  Inserts take the keys of the numbers that follow the
    load, in order; the key of each read, scan and update, whichever the
    distribution of the requests, is the name of a number from 0 to one less
    than the counter; as numbers below 2^32 have names of their own, hashed
    or not, no key that is requested is one that is inserted; and the counter,
    which bounds the requests and which the "latest" distribution follows, is
    the same after the run. *)
Theorem requests_never_new fuel k oks w c tr r :
  traces (DelegateClient fuel k false oks w) tr r -> documented_trace tr ->
  unsigned (key_chooser_ w) -> key_generator_ w = CounterGenerator c ->
  0 < insert_key_sequence_ w ≤ c -> c + Z.of_nat k ≤ 2 ^ 32 ->
  Forall (known w) (requested tr) ∧
  (∃ m, 0 ≤ m ≤ Z.of_nat k ∧ inserted tr = new_keys w c m) ∧
  (∀ key, key ∈ requested tr -> key ∉ inserted tr) ∧
  insert_key_sequence_ r.2 = insert_key_sequence_ w.
Proof.
  intros H Hd Hu Hc Hseq Hk.
  destruct (DelegateClient_asks w ltac:(lia) fuel k oks c w ltac:(by split) ltac:(lia) ltac:(lia) tr r H Hd)
    as (HK & m & Hm & HI & Hn & Hs).
  split; [done|]. split; [exists m; split; [lia|done]|]. split; [|by eapply state_seq].
  intros key Hr Hi. rewrite Forall_forall in HK. destruct (HK key Hr) as (i & Hi' & ->).
  rewrite HI in Hi. apply list_elem_of_fmap in Hi as (j & E & Hj%elem_of_seqZ). unfold in_load in Hi'.
  apply str_inj, (all_distinct w (2 ^ 32)) in E; lia.
Qed.

(** ** Reads of one field *)

Lemma field_prefix_twice s i :
  0 ≤ i -> c_str (str (lit "field" ++ lit "field" ++ s)) ≠ str (field_name i).
Proof.
  intros Hi. change (c_str (str (lit "field" ++ lit "field" ++ s)))
    with ("fieldfield" ++ c_str (str s))%string.
  unfold field_name. rewrite str_app. change (str (lit "field")) with "field"%string.
  pose proof (utoa_digits i Hi) as Hd. unfold to_string. intros E.
  destruct Hd as [|c l Hc _]; [done|]. injection E. intros _ <-.
  unfold is_digit in Hc. vm_compute in Hc. destruct Hc as [_ Hc]. done.
Qed.

(** The field that a read asks for: the prefix, and the name of a field. *)
Definition twice (i : Z) : string := str (lit "field" ++ field_name i).

(** No full record has it. *)
Lemma full_misses w fs i : full w fs -> pick fs [twice i] = [].
Proof.
  intros Hf. unfold pick. cbn [omap list_omap]. assert (fs !! c_str (twice i) = None) as ->; [|done].
  apply not_elem_of_dom. rewrite Hf, elem_of_list_to_set.
  intros (x & E & (j & -> & Hj%elem_of_seqZ)%list_elem_of_fmap)%list_elem_of_fmap.
  by apply (field_prefix_twice (to_string i) j) in E; [|lia].
Qed.

(** A request, as far as its fields. *)
Lemma request_then {B} fuel w (f : text * CoreWorkload -> prog client_call B) tr r :
  0 < insert_key_sequence_ w < 2 ^ 64 -> unsigned (key_chooser_ w) -> documented_trace tr ->
  traces (workload_ (NextTransactionKey fuel w) ≫= f) tr r ->
  ∃ i w' tr', in_load w i ∧ kept w w' ∧ asked tr = asked tr' ∧ traces (f (BuildKeyName w i, w')) tr' r.
Proof.
  intros Hseq Hu Hd H. apply traces_bind in H as (tr1 & [key w'] & tr' & -> & H1 & H).
  apply Forall_app in Hd as [Hd _]. apply workload_traces in H1 as (tr2 & H1 & ->). apply drawn_documented in Hd.
  destruct (NextTransactionKey_known _ _ _ _ Hseq H1 Hd Hu) as (Hk & i & Hi & E). cbn [fst snd] in E, Hk. subst key.
  exists i, w', tr'. split_and!; [done..| |done]. unfold asked. by rewrite omap_app, drawn_nothing.
Qed.

Lemma draws_then {A B} w (p : prog rnd (A * CoreWorkload)) (f : A * CoreWorkload -> prog client_call B) tr r :
  keeps_parts w p -> traces (workload_ p ≫= f) tr r ->
  ∃ a w' tr', kept w w' ∧ asked tr = asked tr' ∧ traces (f (a, w')) tr' r.
Proof.
  intros Hp H. apply traces_bind in H as (tr1 & [a w'] & tr' & -> & H1 & H).
  apply workload_traces in H1 as (tr2 & H1 & ->). exists a, w', tr'. split; [exact (Hp _ _ H1)|].
  split; [|done]. unfold asked. by rewrite omap_app, drawn_nothing.
Qed.

Lemma field_then {B} w (f : option (list text) * CoreWorkload -> prog client_call B) tr r :
  read_all_fields_ w = false -> traces (read_fields w ≫= f) tr r ->
  ∃ i w' tr', kept w w' ∧ asked tr = asked tr' ∧ traces (f (Some [lit "field" ++ field_name i], w')) tr' r.
Proof.
  intros Hall H. unfold read_fields in H. rewrite Hall in H. cbn [negb] in H.
  apply traces_bind in H as (tr1 & [fields w'] & tr' & -> & H1 & H).
  apply traces_bind in H1 as (tr2 & [fl w2] & tr3 & -> & H2 & [-> [= -> ->]]).
  apply workload_traces in H2 as (tr4 & H2 & ->). unfold NextFieldName in H2.
  apply traces_bind in H2 as (tr5 & [i g] & tr6 & -> & _ & [-> [= -> ->]]).
  exists i, (set_field_chooser g w), tr'. split; [done|]. split; [|done].
  unfold asked. rewrite !omap_app, drawn_nothing by done. by rewrite !app_nil_l.
Qed.

(** The call of a transaction that reads: one record, or a scan from one. *)
Definition asks_twice (w : CoreWorkload) (op : Operation) (o : HashtableOps.op) : Prop :=
  ∃ i f, in_load w i ∧
    let table := str (table_name_ w) in
    let key := str (BuildKeyName w i) in
    match op with
    | SCAN => ∃ len, o = OScan table key len (Some [twice f])
    | _ => o = ORead table key (Some [twice f])
    end.

Lemma transaction_asked fuel op w tr r :
  op = READ ∨ op = SCAN ∨ op = READMODIFYWRITE ->
  traces (transaction fuel op w) tr r -> documented_trace tr -> read_all_fields_ w = false ->
  unsigned (key_chooser_ w) -> 0 < insert_key_sequence_ w < 2 ^ 64 ->
  ∃ o, asked tr = [o] ∧ asks_twice w op o.
Proof.
  intros Hop H Hd Hall Hu Hseq.
  assert (∀ w', kept w w' -> read_all_fields_ w' = false) as Hkall.
  { intros w' [Hst _ _]. injection Hst. congruence. }
  assert (∀ w', kept w w' -> table_name_ w' = table_name_ w) as Htb.
  { intros w' [Hst _ _]. injection Hst. congruence. }
  destruct Hop as [ -> | [ -> | -> ] ]; cbn [transaction] in H; apply request_then in H as (i & w1 & tr1 & Hi & Hk1 & -> & H); try done.
  - apply field_then in H as (f & w2 & tr2 & Hk2 & -> & H); [|by apply Hkall].
    apply traces_bind in H as (tr3 & z & tr4 & -> & (x & tr5 & -> & [-> ->]) & [-> ->]).
    eexists. split; [reflexivity|]. exists i, f. split; [done|]. cbn. by rewrite (Htb w2) by (by eapply kept_trans).
  - apply (draws_then w1) in H as (n & w2 & tr2 & Hk2 & -> & H); [|apply NextScanLength_kept].
    assert (kept w w2) as Hk by (by eapply kept_trans).
    apply field_then in H as (f & w3 & tr3 & Hk3 & -> & H); [|by apply Hkall].
    apply traces_bind in H as (tr4 & z & tr5 & -> & (x & tr6 & -> & [-> ->]) & [-> ->]).
    eexists. split; [reflexivity|]. exists i, f. split; [done|]. exists (i32 n). cbn. by rewrite (Htb w3) by (by eapply kept_trans).
  - apply field_then in H as (f & w2 & tr2 & Hk2 & -> & H); [|by apply Hkall].
    apply traces_bind in H as (tr3 & z & tr4 & -> & (x & tr5 & -> & [-> ->]) & H).
    apply (draws_then w2) in H as (vs & w3 & tr6 & _ & E & H); [|apply write_values_kept].
    apply traces_bind in H as (tr7 & z' & tr8 & -> & (x' & tr9 & -> & [-> ->]) & [-> ->]).
    eexists. split.
    { unfold asked in *. rewrite omap_app. cbn. by rewrite E. }
    exists i, f. split; [done|]. cbn. by rewrite (Htb w2) by (by eapply kept_trans).
Qed.

(** The database's answer to it, when the records are loaded. *)
Lemma asks_twice_misses {HT : StringHashtable} w op o n st db :
  asks_twice w op o -> field_count_ w < 2 ^ 64 -> insert_key_sequence_ w ≤ n ->
  store_is st db -> loaded w n db ->
  wp (interp serve (perform o))
     (λ r st', store_is st' db ∧ r.1 = kOK ∧ Forall (λ row, row = []) r.2 ∧ (op ≠ SCAN -> r.2 = [[]])) st.
Proof.
  intros (i & f & Hi & Ho) Hfc Hn Hst Hl.
  assert (small db) as Hsz.
  { intros k fs Hk. apply (ld_only _ _ _ Hl) in Hk as [Hf _]. by eapply full_bound. }
  unfold in_load in Hi. destruct (ld_all _ _ _ Hl i ltac:(lia)) as [fs Hfs].
  pose proof (proj1 (ld_only _ _ _ Hl _ _ Hfs)) as Hfull. unfold kname in Hfs.
  set (key := str (BuildKeyName w i)) in *. set (table := str (table_name_ w)) in *.
  assert (wp (interp serve (perform (ORead table key (Some [twice f]))))
    (λ r st', store_is st' db ∧ r.1 = kOK ∧ Forall (λ row, row = []) r.2 ∧ (op ≠ SCAN -> r.2 = [[]])) st) as Hread.
  { eapply wp_mono; [apply (perform_lossless st db (ORead table key (Some [twice f])) Hst eq_refl Hsz)|]. intros r st' (db' & [-> Hr] & Hst').
    rewrite Hfs in Hr. destruct Hr as (l & -> & Hrow). cbn [reads] in Hrow. rewrite (full_misses w fs f Hfull) in Hrow.
    subst l. cbn [fst snd]. split; [exact Hst'|]. split; [reflexivity|]. split; [by constructor|reflexivity]. }
  destruct op; cbn beta match zeta in Ho; try (rewrite Ho; exact Hread). destruct Ho as (len & ->).
  eapply wp_mono; [apply (perform_lossless st db (OScan table key len (Some [twice f])) Hst eq_refl Hsz)|].
  intros r st' (db' & (-> & Hz & keys & _ & _ & Hrows & _) & Hst').
  split; [exact Hst'|]. split; [exact Hz|]. split; [|intros []; reflexivity]. clear -Hrows Hl.
  induction Hrows as [|k l keys rows (fs & Hfs & ->) _ IH]; constructor; [|exact IH].
  eapply full_misses. by apply (ld_only _ _ _ Hl) in Hfs as [? _].
Qed.

(** C33: When a workload does not read all fields, its reads find nothing.
    Every read, scan and read-modify-write makes one call that reads, and it
    asks for one field whose name has the prefix "field" twice.  Whatever the
    trace before, on a hash-table database that holds the loaded records the
    call succeeds and changes nothing: a read returns one record without a
    field, and a scan returns no field of any record. *)
Theorem single_field_reads_miss {HT : StringHashtable} fuel op w tr r :
  op = READ ∨ op = SCAN ∨ op = READMODIFYWRITE ->
  traces (transaction fuel op w) tr r -> documented_trace tr -> read_all_fields_ w = false ->
  unsigned (key_chooser_ w) -> 0 < insert_key_sequence_ w < 2 ^ 64 -> field_count_ w < 2 ^ 64 ->
  ∃ o, asked tr = [o] ∧ asks_twice w op o ∧
    ∀ n st db, insert_key_sequence_ w ≤ n -> store_is st db -> loaded w n db ->
      wp (interp serve (perform o))
         (λ r st', store_is st' db ∧ r.1 = kOK ∧ Forall (λ row, row = []) r.2 ∧ (op ≠ SCAN -> r.2 = [[]])) st.
Proof.
  intros Hop H Hd Hall Hu Hseq Hfc. destruct (transaction_asked _ _ _ _ _ Hop H Hd Hall Hu Hseq) as (o & Ho & Ht).
  exists o. split; [done|]. split; [done|]. intros n st db Hn Hst Hl. by apply (asks_twice_misses w op o n st db).
Qed.
End requests.

(** ** Instances *)
Section instances.
Local Existing Instance rationals.

(** Numbers that make the operations differ. *)
Definition alternating : source := λ i X e,
  match e in rnd X return X with
  | RandomDouble => if Nat.even (i / 2) then 0%Q else (3 # 4)%Q
  | uniform_int min _ => min
  | rand => 0
  end.

Lemma alternating_documented : documented alternating.
Proof.
  intros i X e P. destruct e; cbn; intros H; [|apply H; lia|by apply H].
  match goal with |- context [Nat.even ?n] => destruct (Nat.even n) end; apply H; split; reflexivity.
Qed.

(** A database that always answers [kOK]. *)
Definition agree X (e : client_call X) (i : nat) : X * nat :=
  match e in client_call X return X * nat with
  | draws e => (alternating i _ e, S i)
  | on_db _ => ((kOK, []), i)
  end.

Lemma agree_documented {A} (p : prog client_call A) i tr a :
  run agree p i = Some (tr, a) -> Forall documented_event tr.
Proof.
  revert i tr. induction p as [b|X e k IH|]; cbn; intros i tr.
  - by intros [= <- <-].
  - destruct (agree X e i) as [x i'] eqn:He. destruct (run agree (k x) i') as [[tr' a']|] eqn:Hr; [|done].
    intros [= <- <-]. constructor; [|by eapply IH]. destruct e as [X e|o]; [|done]. injection He as <- _.
    intros P HP. by apply alternating_documented.
  - done.
Qed.

(** Three hashed records, and reads of one field or insertions. *)
Definition mixed_workload : CoreWorkload :=
  Workload (lit "usertable") 1 false false (ConstGenerator 1) (CounterGenerator 3)
    (built [(INSERT, 1 # 2); (READ, 1 # 2)]%Q) (UniformGenerator 0 2 0) (UniformGenerator 0 0 0)
    (UniformGenerator 1 1 1) 3 false 3 1.

Lemma requests_never_new_witness :
  ∃ tr r, traces (DelegateClient 1 5 false 0 mixed_workload) tr r ∧
    requested tr ≠ [] ∧ inserted tr ≠ [] ∧
    Forall (known mixed_workload) (requested tr) ∧
    (∃ m, 0 ≤ m ≤ 5 ∧ inserted tr = new_keys mixed_workload 3 m) ∧
    (∀ key, key ∈ requested tr -> key ∉ inserted tr) ∧
    insert_key_sequence_ r.2 = 3.
Proof.
  assert (match run agree (DelegateClient 1 5 false 0 mixed_workload) 0%nat with
          | Some (tr, _) => match requested tr, inserted tr with _ :: _, _ :: _ => true | _, _ => false end
          | None => false end = true) as Hrun by (vm_compute; reflexivity).
  destruct (run agree (DelegateClient 1 5 false 0 mixed_workload) 0%nat) as [[tr r]|] eqn:Hr; [|done].
  exists tr, r. split; [exact (run_traces agree _ _ _ _ Hr)|].
  split; [by destruct (requested tr)|]. split; [destruct (requested tr), (inserted tr); done|].
  apply (requests_never_new 1 5 0 mixed_workload 3 tr r (run_traces agree _ _ _ _ Hr) (agree_documented _ _ _ _ Hr));
    [cbn; lia|reflexivity|cbn; lia|lia].
Defined.

Lemma single_field_reads_miss_witness :
  ∃ tr r o, traces (transaction 1 READMODIFYWRITE mixed_workload) tr r ∧
    asked tr = [o] ∧ asks_twice mixed_workload READMODIFYWRITE o ∧
    ∀ n st db, 3 ≤ n -> store_is (HT := stacks) st db -> loaded mixed_workload n db ->
      wp (interp serve (perform o))
         (λ r st', store_is st' db ∧ r.1 = kOK ∧ Forall (λ row, row = []) r.2 ∧
            (READMODIFYWRITE ≠ SCAN -> r.2 = [[]])) st.
Proof.
  assert (match run agree (transaction 1 READMODIFYWRITE mixed_workload) 0%nat with
          | Some _ => true | None => false end = true) as Hrun by (vm_compute; reflexivity).
  destruct (run agree (transaction 1 READMODIFYWRITE mixed_workload) 0%nat) as [[tr r]|] eqn:Hr; [|done].
  destruct (single_field_reads_miss (HT := stacks) 1 READMODIFYWRITE mixed_workload tr r) as (o & Ho & Ht & Hm);
    [by right; right|exact (run_traces agree _ _ _ _ Hr)|exact (agree_documented _ _ _ _ Hr)|reflexivity|cbn; lia..|].
  exists tr, r, o. split; [exact (run_traces agree _ _ _ _ Hr)|]. done.
Defined.
End instances.
