(* ===== verification/RedisDb.v ===== *)
(** * RedisDb: the Redis database of YCSB-C (db/redis_db.cc, db/redis_db.h, redis/redis_client.h)

    The operations as commands of the blocking client, with the reply objects
    in the heap of Replies.v.  A failed [assert] and the use of a variable
    without a value are [Stuck]. *)

From Stdlib Require Import ZArith Lia Ascii.
From stdpp Require Import base list strings gmap numbers.
From S2P Require Import Prelude Libc Printf Sds Reader Replies Command Kernel Context Net.

(** ** redis_client.h *)
Record RedisClient := Redis_client {
  context_ : redisContext nat;
  slaves_ : Z
}.

(** What an operation comes to: a client and a result, or the end of the
    program with a code. *)
Inductive redis_end (A : Type) : Type :=
  | Continues (r : RedisClient) (a : A)
  | Quits (code : Z).
Arguments Continues {A}.
Arguments Quits {A}.

Definition redis_pairs : Type := list (bytes * bytes).
Definition redis_kOK : Z := 0.

Section redis.
Context {X : Type} `{!Libc X, !Kernel (world X)}.
Abbreviation W := (world X).
Abbreviation fns := (Some (defaultFunctions (X := X))).

(** The constructor; [Quits 1] without a connection. *)
Definition new_RedisClient (host : bytes) (port slaves : Z) : M W (redis_end unit) :=
  o ← redisConnect fns host port;
  match o with
  | None => mret (Quits 1)
  | Some c =>
      if bool_decide (c_err c ≠ 0) then
        _ ← redisFree fns (Some c); mret (Quits 1)
      else mret (Continues (Redis_client c slaves) tt)
  end.

(** [reply] is [None] when the variable was never written. *)
Definition HandleError (reply : option (vptr nat)) (c : redisContext nat) : M W (redis_end Z) :=
  reply ← lift (deref reply);
  _ ← freeReplyObject reply;
  _ ← redisFree fns (Some c);
  mret (Quits 2).

(** The fuel bounds the rounds of the loops of [redisGetReply]. *)
Definition redis_Command (fuel : nat) (rc : RedisClient) (cmd : bytes) : M W (redis_end Z) :=
  '(c, _) ← redisAppendCommand (context_ rc) (cmd ++ [NUL]) [];
  '(c, _) ← (if bool_decide (slaves_ rc ≠ 0)
             then redisAppendCommand c (cstr "WAIT %d %d") [VInt (slaves_ rc); VInt 0]
             else mret (c, REDIS_OK));
  '(c, st, reply) ← redisGetReply fns fuel c;
  if bool_decide (st = REDIS_ERR) then HandleError None c else
  _ ← freeReplyObject reply;
  if bool_decide (slaves_ rc ≠ 0) then
    '(c, st, reply2) ← redisGetReply fns fuel c;
    if bool_decide (st = REDIS_ERR) then HandleError (Some reply) c else
    _ ← freeReplyObject reply2;
    mret (Continues (Redis_client c (slaves_ rc)) 0)
  else mret (Continues (Redis_client c (slaves_ rc)) 0).

(** ** redis_db.cc *)

(** The texts of the elements, beside their fields. *)
Fixpoint push_values (n : nat) (fields : list bytes) (els : list (option nat)) (result : redis_pairs)
    : M W redis_pairs :=
  match n with
  | O => mret result
  | S n' =>
      match fields, els with
      | f :: fields', e :: els' =>
          l ← lift (deref e);
          nd ← get_node l;
          value ← lift (match str nd with Some v => cstring v | None => Ok [] end);
          push_values n' fields' els' (result ++ [(f, value)])
      | _, _ => stuck
      end
  end.

(** Elements two by two: names and values. *)
Fixpoint push_pairs (n : nat) (els : list (option nat)) (result : redis_pairs) : M W redis_pairs :=
  match n with
  | O => mret result
  | S n' =>
      match els with
      | e1 :: e2 :: els' =>
          l1 ← lift (deref e1); nd1 ← get_node l1; v1 ← lift (deref (str nd1)); s1 ← lift (cstring v1);
          l2 ← lift (deref e2); nd2 ← get_node l2; v2 ← lift (deref (str nd2)); s2 ← lift (cstring v2);
          push_pairs n' els' (result ++ [(s1, s2)])
      | _ => stuck
      end
  end.

Definition redis_Read (fuel : nat) (rc : RedisClient) (table key : bytes) (fields : option (list bytes))
    (result : redis_pairs) : M W (RedisClient * Z * redis_pairs) :=
  match fields with
  | Some fields =>
      let args := bs "HMGET" :: key :: fields in
      '(c, reply) ← redisCommandArgv fns fuel (context_ rc)
                      (map (λ s, s ++ [NUL]) args) (Some (map zlen args));
      let rc := Redis_client c (slaves_ rc) in
      match reply with
      | Null => mret (rc, redis_kOK, result)
      | Cast _ => stuck
      | Obj l =>
          nd ← get_node l;
          _ ← massert (bool_decide (type nd = REDIS_REPLY_ARRAY));
          _ ← massert (bool_decide (zlen fields = elements nd));
          result ← push_values (Z.to_nat (elements nd)) fields (default [] (element nd)) result;
          _ ← freeReplyObject reply;
          mret (rc, redis_kOK, result)
      end
  | None =>
      '(c, reply) ← redisCommand fns fuel (context_ rc) (cstr "HGETALL %s") [VPtr (key ++ [NUL])];
      let rc := Redis_client c (slaves_ rc) in
      match reply with
      | Null => mret (rc, redis_kOK, result)
      | Cast _ => stuck
      | Obj l =>
          nd ← get_node l;
          _ ← massert (bool_decide (type nd = REDIS_REPLY_ARRAY));
          result ← push_pairs (Z.to_nat (elements nd / 2)) (default [] (element nd)) result;
          _ ← freeReplyObject reply;
          mret (rc, redis_kOK, result)
      end
  end.

(** The text of the command, with its assertions. *)
Fixpoint append_pairs (cmd : bytes) (values : redis_pairs) : res bytes :=
  match values with
  | [] => Ok cmd
  | (f, v) :: values' =>
      _ ← rassert (bool_decide (" "%char ∉ f));
      let cmd := cmd ++ bs " " ++ f in
      _ ← rassert (bool_decide (" "%char ∉ v));
      append_pairs (cmd ++ bs " " ++ v) values'
  end.

Definition pairs_length (len : Z) (values : redis_pairs) : Z :=
  foldl (λ len p, u64 (len + (zlen p.1 + zlen p.2 + 2))) len values.

Definition redis_Update (fuel : nat) (rc : RedisClient) (table key : bytes) (values : redis_pairs)
    : M W (redis_end Z) :=
  let cmd := bs "HMSET" in
  let len := pairs_length (zlen cmd + zlen key + 1) values in
  cmd ← lift (append_pairs (cmd ++ bs " " ++ key) values);
  _ ← massert (bool_decide (zlen cmd = len));
  r ← redis_Command fuel rc cmd;
  match r with
  | Continues rc _ => mret (Continues rc redis_kOK)
  | Quits code => mret (Quits code)
  end.

Definition redis_Insert (fuel : nat) (rc : RedisClient) (table key : bytes) (values : redis_pairs) :=
  redis_Update fuel rc table key values.

Definition redis_Delete (fuel : nat) (rc : RedisClient) (table key : bytes) : M W (redis_end Z) :=
  r ← redis_Command fuel rc (bs "DEL " ++ key);
  match r with
  | Continues rc _ => mret (Continues rc redis_kOK)
  | Quits code => mret (Quits code)
  end.
End redis.
