(* ===== verification/RedisDbTheorems.v ===== *)
(** * RedisDbTheorems: the Redis database over the client (db/redis_db.cc)

    What a read returns from the server's reply, and what an update sends:
    its text is the format of [redisAppendCommand]. *)

From Stdlib Require Import ZArith Lia Ascii.
From stdpp Require Import base list strings gmap numbers.
From S2P Require Import Prelude Libc Printf Sds SdsText SdsFormat Reader Resp ReaderSpec Replies.
From S2P Require Import Command CommandSpec CommandFormat Kernel Context Net NetSpec ContextSpec ClientSpec.
From S2P Require Import ReaderTheorems ClientTheorems RedisDb.

(** ** Texts of replies *)

(** A C++ string made from a C string stops at its terminator. *)
Fixpoint until_NUL (s : bytes) : bytes :=
  match s with
  | [] => []
  | c :: s' => if decide (c = NUL) then [] else c :: until_NUL s'
  end.

Lemma cstring_until s : cstring (s ++ [NUL]) = Ok (until_NUL s).
Proof.
  unfold cstring. induction s as [|c s IH]; [done|]. cbn [app strlen until_NUL].
  case_decide; [done|]. cbn [mbind res_bind] in *.
  destruct (strlen (s ++ [NUL])) as [n|] eqn:E; [|done]. cbn [mret res_ret] in *.
  pose proof (strlen_bounds _ _ E). injection IH as IH.
  cbn. replace (Z.to_nat (n + 1)) with (S (Z.to_nat n)) by lia. cbn. by rewrite IH.
Qed.

(** A string or nil, and the value that a read makes of it. *)
Definition field_reply (x : reply) : Prop := (∃ s, x = RString s) ∨ x = RNil.
Definition value_of (x : reply) : bytes := match x with RString s => until_NUL s | _ => [] end.

Section read.
Context {A : Type} `{!Libc A} (no_oom : ¬ oom A).
Abbreviation X := (scripted_world A).
Abbreviation W := (world X).

Lemma push_values_wp hn h ls xs D fields result (w : W) :
  trees hn ls xs D -> Forall field_reply xs -> length fields = length xs -> snd w = hn ∪ h ->
  wp (push_values (length xs) fields (map Some ls) result)
     (λ r w', w' = w ∧ r = result ++ zip fields (map value_of xs)) w.
Proof.
  intros Ht. revert fields result. induction Ht as [|l ls x xs D E Hx Hxs IH HDE];
    intros [|f fields] result Hf Hl Hw; try done; cbn [length push_values map zip zip_with].
  { wp_steps. by rewrite app_nil_r. }
  inversion_clear Hf as [|? ? Hfx Hf']. rename Hf' into Hf. injection Hl as Hl.
  assert (hn !! l = Some (leaf_node x)) as Hn.
  { destruct Hfx as [[s ->]| ->]; by inversion Hx. }
  do 3 wp_step. unfold wp at 1, get_node. rewrite Hw, (lookup_union_Some_l _ _ _ _ Hn).
  assert (match str (leaf_node x) with Some v => cstring v | None => Ok [] end = Ok (value_of x)) as Hv.
  { destruct Hfx as [[s ->]| ->]; [apply cstring_until|done]. }
  wp_step. eapply wp_lift_ok; [exact Hv|].
  eapply wp_mono; [by apply IH|]. intros r w' [-> ->]. split; [done|]. by rewrite <-app_assoc.
Qed.

(** C22: A read of given fields returns what the server says of them.  On an
    idle connection, whose peer answers [HMGET] with a string or nil for each
    field, [RedisDB::Read] sends the key and the fields byte for byte, adds
    each field with its text (up to a NUL; empty for nil) to the result,
    frees the reply with all its parts, and returns [kOK]; the connection is
    without error and has nothing left to send. *)
Theorem redis_read_returns fuel rc r s table key fields result xs extra l rest a k h :
  let args := bs "HMGET" :: key :: fields in
  idle (context_ rc) r -> c_obuf (context_ rc) = Some s -> sds_rep s [] ->
  zlen (encode (command args)) + SDS_MAX_PREALLOC + 1 < 2 ^ 31 ->
  Forall field_reply xs -> length fields = length xs ->
  peer (context_ rc) k (RArray xs) extra l rest ->
  (length (k_writes k) < fuel)%nat -> (length l ≤ fuel)%nat ->
  wp (redis_Read fuel rc table key (Some fields) result)
     (λ '(rc', st, out) w',
        st = redis_kOK ∧ out = result ++ zip fields (map value_of xs) ∧
        k_sent (script_of w') = k_sent k ++ encode (command args) ∧ snd w' = h ∧
        slaves_ rc' = slaves_ rc ∧ c_err (context_ rc') = 0 ∧ empty_obuf (context_ rc')) ((a, k), h).
Proof.
  intros args Hidle Hs Hb Hroom Hxs Hlen Hpeer Hfw Hfl. unfold redis_Read. fold args. wp_step.
  eapply wp_mono.
  { eapply (redisCommandArgv_wp no_oom fuel _ r s [] _ _ args); try done.
    split; [done|]. clearbody args. clear. induction args; constructor; [by eexists|done]. }
  intros [c o] w (Herr & Hob & (l0 & D & hn & -> & Htree & Hdom & Hdisj & Hw) & Hsent & _).
  inversion Htree as [?? Hne|l1 xs1 ls1 D1 Hnode Htrees HlD]; subst; [by destruct (Hne xs)|].
  wp_step. unfold wp at 1, get_node. rewrite Hw, (lookup_union_Some_l _ _ _ _ Hnode).
  pose proof (trees_length _ _ _ _ Htrees) as Hl1.
  assert (elements (array_node (map Some ls1)) = zlen xs) as Hel.
  { cbn. unfold zlen. by rewrite length_map, Hl1. }
  wp_step. apply wp_massert; [done|]. wp_step. apply wp_massert.
  { apply bool_decide_eq_true. rewrite Hel. unfold zlen. by rewrite Hlen. }
  wp_step. rewrite Hel, zlen_to_nat.
  replace (default [] (element (array_node (map Some ls1)))) with (map Some ls1) by (by destruct ls1).
  eapply wp_mono; [by apply (push_values_wp hn h ls1 xs D1)|]. intros out w1 [-> ->]. wp_step.
  destruct w as [x hw]. cbn [snd] in Hw. subst hw. unfold wp at 1.
  rewrite (freeReplyObject_ok h hn l0 (RArray xs) _ x) by done. wp_step. split_and!; try done.
Qed.
End read.

(** ** Texts as formats *)

(** What a word of a format without arguments stands for: a percent sign is
    written twice, and nothing else may follow one. *)
Fixpoint sent_text (s : bytes) : option bytes :=
  match s with
  | [] => Some []
  | "%"%char :: s' =>
      match s' with
      | "%"%char :: s'' => cons "%"%char <$> sent_text s''
      | _ => None
      end
  | c :: s' => if bool_decide (c = " "%char ∨ c = NUL) then None else cons c <$> sent_text s'
  end.

(** A word of a command, and the argument it becomes. *)
Definition word (s t : bytes) : Prop := s ≠ [] ∧ sent_text s = Some t.

Lemma sent_text_cons c s t :
  sent_text (c :: s) = Some t ->
  (c = "%"%char ∧ ∃ s' t', s = "%"%char :: s' ∧ t = "%"%char :: t' ∧ sent_text s' = Some t') ∨
  (c ≠ "%"%char ∧ c ≠ " "%char ∧ c ≠ NUL ∧ ∃ t', t = c :: t' ∧ sent_text s = Some t').
Proof.
  intros H. destruct (decide (c = "%"%char)) as [->|Hc].
  - left. split; [done|]. cbn [sent_text] in H. destruct s as [|d s]; [done|].
    destruct (decide (d = "%"%char)) as [->|Hd].
    + apply fmap_Some in H as (t' & Ht & ->). eauto.
    + exfalso. repeat (case_match; try done). 
  - right. split; [done|]. assert (sent_text (c :: s) =
      if bool_decide (c = " "%char ∨ c = NUL) then None else cons c <$> sent_text s) as E.
    { cbn [sent_text]. by repeat (case_match; try done). }
    rewrite E in H. case_bool_decide as Hb; [done|]. apply fmap_Some in H as (t' & Ht & ->). naive_solver.
Qed.

Lemma fmt_text s t cur rest :
  sent_text s = Some t -> fmt_args (s ++ rest) [] cur true = fmt_args rest [] (cur ++ t) true.
Proof.
  remember (length s) as n eqn:Hn. revert s t cur Hn.
  induction (lt_wf n) as [n _ IH]. intros [|c s] t cur -> Ht.
  { injection Ht as <-. by rewrite app_nil_r. }
  destruct (sent_text_cons _ _ _ Ht) as [(-> & s' & t' & -> & -> & Hs)|(Hc & Hsp & _ & t' & -> & Hs)];
    cbn [app fmt_args].
  - rewrite decide_True by done. change (directive_text "%" []) with (Some (["%"%char], @nil varg)).
    cbv beta iota.
    rewrite (IH (length s') ltac:(cbn; lia) s' t'), <-app_assoc by done. done.
  - rewrite decide_False, decide_False by done.
    rewrite (IH (length s) ltac:(cbn; lia) s t'), <-app_assoc by done. done.
Qed.

Lemma fmt_word s t rest :
  word s t -> fmt_args (s ++ rest) [] [] false = fmt_args rest [] t true.
Proof.
  intros [Hne Ht]. destruct s as [|c s]; [done|].
  rewrite <-(app_nil_l t), <-(fmt_text (c :: s) t [] rest Ht).
  destruct (sent_text_cons _ _ _ Ht) as [(-> & s' & t' & -> & _)|(Hc & Hsp & _)]; cbn [app fmt_args].
  - done.
  - by rewrite !decide_False by done.
Qed.

(** Words with a space before each. *)
Definition spaced (ws : list bytes) : bytes := concat (map (cons " "%char) ws).

Lemma fmt_words ws ts cur :
  Forall2 word ws ts -> fmt_args (spaced ws) [] cur true = Some (cur :: ts).
Proof.
  intros H. revert cur. induction H as [|s t ws ts Hw _ IH]; intros cur; [done|].
  unfold spaced. cbn [map concat app fmt_args]. rewrite decide_False, decide_True by done.
  fold (spaced ws). by rewrite (fmt_word _ _ _ Hw), IH.
Qed.

Lemma sent_text_free s t : sent_text s = Some t -> NUL ∉ s ∧ " "%char ∉ s.
Proof.
  remember (length s) as n eqn:Hn. revert s t Hn.
  induction (lt_wf n) as [n _ IH]. intros [|c s] t -> Ht; [split; apply not_elem_of_nil|].
  destruct (sent_text_cons _ _ _ Ht) as [(-> & s' & t' & -> & -> & Hs)|(_ & Hsp & HN & t' & -> & Hs)];
    [destruct (IH (length s') ltac:(cbn; lia) s' t' eq_refl Hs)|destruct (IH (length s) ltac:(cbn; lia) s t' eq_refl Hs)];
    rewrite ?not_elem_of_cons; naive_solver.
Qed.

(** Text without a percent sign is its own argument. *)
Lemma sent_text_plain s : "%"%char ∉ s -> " "%char ∉ s -> NUL ∉ s -> sent_text s = Some s.
Proof.
  induction s as [|c s IH]; [done|]. rewrite !not_elem_of_cons. intros [H1 ?] [H2 ?] [H3 ?].
  assert (sent_text (c :: s) =
    if bool_decide (c = " "%char ∨ c = NUL) then None else cons c <$> sent_text s) as ->.
  { cbn [sent_text]. by repeat (case_match; try done). }
  rewrite bool_decide_false, IH by naive_solver. done.
Qed.

(** Percent signs are halved. *)
Lemma sent_text_percents n : sent_text (replicate (2 * n) "%"%char) = Some (replicate n "%"%char).
Proof.
  induction n as [|n IH]; [done|]. replace (2 * S n)%nat with (S (S (2 * n))) by lia.
  cbn [replicate sent_text]. by rewrite IH.
Qed.

(** ** Commands *)
Section update.
Context {A : Type} `{!Libc A} (no_oom : ¬ oom A).
Abbreviation X := (scripted_world A).
Abbreviation W := (world X).

(** With slaves every command is followed by a [WAIT]. *)
Definition with_wait (slaves : Z) (ss : list bytes) : list (list bytes) :=
  ss :: (if bool_decide (slaves ≠ 0) then [[bs "WAIT"; itoa slaves; bs "0"]] else []).

Definition encode_all (cmds : list (list bytes)) : bytes := concat (map (λ ss, encode (command ss)) cmds).

Lemma fmt_signed_itoa z : - 2 ^ 31 ≤ z < 2 ^ 31 -> fmt_signed spec0 (i32 z) = itoa z.
Proof.
  intros Hz. rewrite i32_small by lia. unfold fmt_signed, fmt_field, fmt_digits, itoa, utoa.
  cbn -[rdigits pad_to]. case_bool_decide; rewrite bool_decide_false by (by intros [_ ?]);
    rewrite !pad_to_0; [rewrite Z.abs_neq by lia|rewrite Z.abs_eq by lia]; done.
Qed.

Lemma fmt_wait slaves :
  - 2 ^ 31 ≤ slaves < 2 ^ 31 ->
  fmt_args (bs "WAIT %d %d") [VInt slaves; VInt 0] [] false = Some [bs "WAIT"; itoa slaves; bs "0"].
Proof.
  intros Hs. rewrite <-fmt_signed_itoa by done.
  change (bs "0") with (fmt_signed spec0 (i32 0)).
  assert (fmt_args (bs "WAIT %d %d") [VInt slaves; VInt 0] [] false
    = Some [bs "WAIT"; fmt_signed spec0 (i32 slaves) ++ []; fmt_signed spec0 (i32 0) ++ []]) as ->
    by (by lazy -[fmt_signed i32 app]).
  by rewrite !app_nil_r.
Qed.

(** The commands were sent and answered, and the replies are freed. *)
Definition served (slaves : Z) (sent : bytes) (h : heap) (o : redis_end Z) (w : W) : Prop :=
  ∃ c, o = Continues (Redis_client c slaves) 0 ∧ k_sent (script_of w) = sent ∧ snd w = h ∧
    c_err c = 0 ∧ empty_obuf c.

Lemma append_ready_wp fuel c k b un t rest f ap ss a h :
  ready fuel c k b un t rest -> NUL ∉ f -> fmt_args f ap [] false = Some ss ->
  zlen b + zlen (encode (command ss)) + SDS_MAX_PREALLOC + 1 < 2 ^ 31 ->
  wp (redisvAppendCommand c (f ++ [NUL]) ap) (λ '(c', st) w',
    script_of w' = k ∧ snd w' = h ∧ ready fuel c' k (b ++ encode (command ss)) un t rest) ((a, k), h).
Proof.
  intros Hr Hf Hss Hroom. destruct (ready_obuf _ _ _ _ _ _ _ Hr) as (s & Hs & Hb). eapply wp_mono.
  { apply (wp_alloc_only same_but_alloc); [apply redisvAppendCommand_frame, _|].
    by apply (redisvAppendCommand_wp (client_no_oom no_oom) c s b f [] ap ss). }
  intros [c1 st] w [[_ Hc] [Hk Hh]]. split_and!; [done..|]. by eapply ready_append.
Qed.

(** A reply is taken and freed; [bad] is what follows an error. *)
Lemma take_reply_wp {B} fuel c k b un t rest rep extra a h (bad f : redisContext nat -> vptr nat -> M W B) Q :
  ready fuel c k b un t rest -> readable rep -> un ++ t = encode rep ++ extra ->
  (∀ o c' k' a' b1 b' un' t', b = b1 ++ b' -> k_sent k' = k_sent k ++ b1 -> (un = [] -> b' = []) ->
     un' ++ t' = extra -> ready fuel c' k' b' un' t' rest -> wp (f c' o) Q ((a', k'), h)) ->
  wp ('(c, st, o) ← redisGetReply (Some (defaultFunctions (X := X))) fuel c;
      if bool_decide (st = REDIS_ERR) then bad c o else _ ← freeReplyObject o; f c o) Q ((a, k), h).
Proof.
  intros Hr Hrep Hun Hf. wp_step. eapply wp_mono; [by eapply (next_reply_wp no_oom)|].
  intros [[c1 st] o] [x hw]
    (-> & (l0 & D & hn & -> & Ht & Hdom & Hdisj & Hw) & b1 & b' & un' & t' & ? & ? & ? & ? & ?).
  cbn [snd] in Hw. subst hw. rewrite bool_decide_false by done. wp_step. unfold wp at 1.
  rewrite (freeReplyObject_ok h hn l0 rep D x) by done. destruct x as [a1 k1].
  by eapply (Hf _ c1 k1 a1 b1 b' un' t').
Qed.

Lemma redis_Command_wp fuel c r s slaves f ss reps extra l rest a k h :
  idle c r -> c_obuf c = Some s -> sds_rep s [] -> NUL ∉ f -> fmt_args f [] [] false = Some ss ->
  zlen (encode_all (with_wait slaves ss)) + SDS_MAX_PREALLOC + 1 < 2 ^ 31 ->
  - 2 ^ 31 ≤ slaves < 2 ^ 31 -> length reps = length (with_wait slaves ss) -> replying c k reps extra l rest ->
  (length (k_writes k) < fuel)%nat -> (length l ≤ fuel)%nat ->
  wp (redis_Command fuel (Redis_client c slaves) f)
     (served slaves (k_sent k ++ encode_all (with_wait slaves ss)) h) ((a, k), h).
Proof.
  intros Hidle Hs Hb Hf Hss Hroom Hsl32 Hlen Hpeer Hfw Hfl. unfold redis_Command. cbn [context_ slaves_].
  pose proof (replying_ready _ _ _ _ _ _ _ _ _ _ Hidle Hs Hb Hpeer Hfw Hfl) as Hr.
  pose proof (replying_readable _ _ _ _ _ _ Hpeer) as Hreps.
  unfold encode_all, with_wait in *. cbn [map concat length] in *. rewrite zlen_app in Hroom.
  pose proof (zlen_nonneg (encode (command ss))).
  wp_step. eapply wp_mono; [eapply append_ready_wp; [exact Hr|done..|]|].
  { pose proof (zlen_nonneg (concat (map (λ ss, encode (command ss))
      (if bool_decide (slaves ≠ 0) then [[bs "WAIT"; itoa slaves; bs "0"]] else [])))).
    change (zlen (@nil ascii)) with 0. lia. }
  intros [c1 st] [[a1 k1] h1] (Hk & Hh & Hr1). unfold script_of in Hk. cbn [fst snd app] in *. subst k1 h1.
  case_bool_decide as Hsl.
  - destruct reps as [|rep [|rep2 [|? ?]]]; try done.
    inversion Hreps as [|?? Hrep Hreps']; subst. inversion_clear Hreps' as [|?? Hrep2 _].
    cbn [map concat] in Hroom. rewrite app_nil_r in *.
    wp_step. eapply wp_mono; [eapply append_ready_wp; [exact Hr1| |by apply fmt_wait|lia]|].
    { by apply (bool_decide_unpack _). }
    intros [c2 st2] [[a2 k2] h2] (Hk & Hh & Hr2). unfold script_of in Hk. cbn [fst snd app] in *. subst k2 h2.
    eapply (take_reply_wp fuel c2 k _ [] _ rest rep (encode rep2 ++ extra) a2 h (λ c _, HandleError None c));
      [exact Hr2|done|unfold encode_list; cbn [map concat]; by rewrite app_nil_r, <-app_assoc|].
    intros o c3 k3 a3 b1 b' un t Eb Hse Hb' Hun Hr3. rewrite (Hb' eq_refl) in Eb, Hr3.
    rewrite app_nil_r in Eb. subst b1.
    eapply (take_reply_wp fuel c3 k3 [] un t rest rep2 extra a3 h (λ c _, HandleError (Some o) c)); try done.
    intros o2 c4 k4 a4 b1 b2 un2 t2 E Hse2 _ _ Hr4.
    symmetry in E. apply app_eq_nil in E as [-> ->]. wp_steps. exists c4.
    rewrite app_nil_r in Hse2. unfold script_of. cbn [fst snd]. rewrite Hse2, Hse.
    cbn [map concat]. rewrite app_nil_r. split_and!; try done; apply Hr4.
  - destruct reps as [|rep [|? ?]]; try done. inversion_clear Hreps as [|?? Hrep _].
    do 2 wp_step.
    eapply (take_reply_wp fuel c1 k _ [] _ rest rep extra a1 h (λ c _, HandleError None c));
      [exact Hr1|done|unfold encode_list; cbn [map concat]; by rewrite app_nil_r|].
    intros o c3 k3 a3 b1 b' un t Eb Hse Hb' Hun Hr3. rewrite (Hb' eq_refl) in Eb, Hr3.
    rewrite app_nil_r in Eb. subst b1.
    wp_steps. exists c3. cbn [map concat]. rewrite app_nil_r. split_and!; try done; apply Hr3.
Qed.

(** The fields and values, as the words of the command. *)
Definition flatten (values : redis_pairs) : list bytes := concat (map (λ p, [p.1; p.2]) values).

Lemma append_pairs_ok cmd values :
  Forall (λ s, " "%char ∉ s) (flatten values) ->
  append_pairs cmd values = Ok (cmd ++ spaced (flatten values)).
Proof.
  revert cmd. induction values as [|[f v] values IH]; intros cmd H; cbn.
  - by rewrite app_nil_r.
  - inversion_clear H as [|?? Hf H1]. inversion_clear H1 as [|?? Hv H2].
    rewrite !bool_decide_true by done. cbn. rewrite IH by done. unfold spaced. cbn.
    by rewrite <-!app_assoc.
Qed.

Lemma pairs_length_ok len values :
  0 ≤ len -> len + zlen (spaced (flatten values)) < 2 ^ 64 ->
  pairs_length len values = len + zlen (spaced (flatten values)).
Proof.
  unfold pairs_length. revert len. induction values as [|[f v] values IH]; intros len H0 H; cbn [foldl].
  - change (zlen (spaced (flatten []))) with 0. lia.
  - assert (zlen (spaced (flatten ((f, v) :: values))) = zlen f + zlen v + 2 + zlen (spaced (flatten values))) as E.
    { unfold spaced, flatten. cbn [map concat app fst snd]. repeat rewrite ?zlen_cons, ?zlen_app. lia. }
    rewrite E in *. pose proof (zlen_nonneg f). pose proof (zlen_nonneg v).
    pose proof (zlen_nonneg (spaced (flatten values))). cbn [fst snd].
    rewrite u64_small by lia. rewrite IH by lia. lia.
Qed.

(** C21: An update passes its text as a format.  On an idle connection, for a
    key, fields and values that are words ([sent_text]: not empty, no space
    or NUL, every percent sign twice), [RedisDB::Update] sends one [HMSET] with
    the key, fields and values in order, each with its percent signs halved,
    and with slaves one [WAIT] for them after it; it waits for the reply to
    each, frees the replies and returns [kOK].  Text without a percent sign so
    arrives as it is; a value of [2 n] percent signs, which the workload makes
    like any other, arrives as [n]. *)
Theorem redis_update_sends fuel c r s slaves table key values ss reps extra l rest a k h :
  let cmds := with_wait slaves (bs "HMSET" :: ss) in
  idle c r -> c_obuf c = Some s -> sds_rep s [] -> - 2 ^ 31 ≤ slaves < 2 ^ 31 ->
  Forall2 word (key :: flatten values) ss ->
  zlen (spaced (key :: flatten values)) < 2 ^ 31 ->
  zlen (encode_all cmds) + SDS_MAX_PREALLOC + 1 < 2 ^ 31 ->
  length reps = length cmds -> replying c k reps extra l rest ->
  (length (k_writes k) < fuel)%nat -> (length l ≤ fuel)%nat ->
  wp (redis_Update fuel (Redis_client c slaves) table key values)
     (served slaves (k_sent k ++ encode_all cmds) h) ((a, k), h) ∧
  (Forall (λ t, "%"%char ∉ t) (key :: flatten values) -> ss = key :: flatten values) ∧
  (∀ n t, word (replicate (2 * n) "%"%char) t -> t = replicate n "%"%char).
Proof.
  intros cmds Hidle Hs Hb Hsl Hw Hlen Hroom Hreps Hpeer Hfw Hfl. split; [|split].
  - assert (Forall (λ s, NUL ∉ s ∧ " "%char ∉ s) (key :: flatten values)) as Hfree.
    { clear -Hw. induction Hw as [|x t xs ts [_ Hx] _ IH]; [done|]. constructor; [by eapply sent_text_free|done]. }
    inversion Hfree as [|?? [Hk0 Hksp] Hvals]; subst.
    unfold redis_Update. wp_step. eapply wp_lift_ok.
    { apply append_pairs_ok. eapply list.Forall_impl; [exact Hvals|]. by intros ? [_ ?]. }
    assert (((bs "HMSET" ++ bs " " ++ key) ++ spaced (flatten values))
      = bs "HMSET" ++ spaced (key :: flatten values)) as ->.
    { unfold spaced. cbn [map concat]. by rewrite <-!app_assoc. }
    assert (zlen (spaced (key :: flatten values)) = 1 + zlen key + zlen (spaced (flatten values))) as Hsp.
    { unfold spaced. cbn [map concat]. rewrite zlen_app, zlen_cons. lia. }
    pose proof (zlen_nonneg key). pose proof (zlen_nonneg (spaced (flatten values))).
    change (zlen (bs "HMSET")) with 5 in *.
    wp_step. apply wp_massert.
    { apply bool_decide_eq_true. rewrite pairs_length_ok by lia. rewrite zlen_app.
      change (zlen (bs "HMSET")) with 5. lia. }
    wp_step. eapply wp_mono.
    { apply (redis_Command_wp fuel c r s slaves _ (bs "HMSET" :: ss) reps extra l rest a k h); try done.
      - rewrite not_elem_of_app. split; [by apply (bool_decide_unpack _)|]. clear -Hfree.
        induction Hfree as [|x xs [Hx _] _ IH]; [apply not_elem_of_nil|].
        unfold spaced. cbn [map concat]. rewrite not_elem_of_app, not_elem_of_cons. done.
      - rewrite (fmt_word (bs "HMSET") (bs "HMSET")) by done. by apply fmt_words. }
    intros o w (c' & -> & ?). wp_step. by exists c'.
  - intros Hpl. clear -Hw Hpl.
    induction Hw as [|x t xs ts [Hne Hx] _ IH]; [done|]. inversion_clear Hpl as [|?? Hp Hps].
    destruct (sent_text_free _ _ Hx). rewrite sent_text_plain in Hx by done. injection Hx as <-.
    f_equal. by apply IH.
  - intros n t [_ Ht]. rewrite sent_text_percents in Ht. by injection Ht.
Qed.
End update.

(** ** Instances *)

(** A server that takes a command whole and answers in one read. *)
Definition server (rep : reply) : script :=
  Script 0 [] {[3]} [Accept 1000] [Chunk (encode rep); Eof] [].

Lemma server_peer rep :
  wf rep -> (depth rep ≤ 8)%nat -> zlen (encode rep) < 2 ^ 14 -> encode rep ≠ [] ->
  peer connected (server rep) rep [] [Chunk (encode rep)] [Eof].
Proof.
  intros Hwf Hd Hlen Hne. split; try done.
  - repeat constructor. cbn. tauto.
  - rewrite app_nil_r. rewrite <-(app_nil_r (encode rep)) at 2.
    apply (delivers_chunk (encode rep) [] []); [done|lia|apply delivers_nil].
  - lia.
Qed.

Definition two_values : reply := RArray [RString (bs "x" ++ [NUL] ++ bs "y"); RNil].

Lemma redis_read_returns_witness :
  let args := [bs "HMGET"; bs "user1"; bs "field0"; bs "field1"] in
  wp (redis_Read (X := scripted_world unit) 2 (Redis_client connected 0) (bs "usertable") (bs "user1")
        (Some [bs "field0"; bs "field1"]) [])
     (λ '(rc', st, out) w',
        st = redis_kOK ∧ out = [] ++ [(bs "field0", bs "x"); (bs "field1", [])] ∧
        k_sent (script_of w') = [] ++ encode (command args) ∧ snd w' = ∅ ∧
        slaves_ rc' = 0 ∧ c_err (context_ rc') = 0 ∧ empty_obuf (context_ rc'))
     ((tt, server two_values), ∅).
Proof.
  intros args.
  apply (redis_read_returns zero_libc_no_oom 2 (Redis_client connected 0) (new_reader []) (mk [] [])
    (bs "usertable") (bs "user1") [bs "field0"; bs "field1"] [] [RString (bs "x" ++ [NUL] ++ bs "y"); RNil]
    [] [Chunk (encode two_values)] [Eof] tt (server two_values) ∅); try done.
  - apply connected_idle.
  - by exists [].
  - constructor; [left; eauto|constructor; [by right|constructor]].
  - apply server_peer; [|cbn; lia|done|done]. cbn. split_and!; done.
  - cbn. lia.
  - cbn. lia.
Defined.

(** A server with two slaves: the reply of [WAIT] comes with the first one,
    in part. *)
Definition wait_reads : list read_result :=
  [Chunk (bs "+OK" ++ [CR; LF] ++ bs ":"); Chunk (bs "2" ++ [CR; LF])].

Lemma redis_update_sends_witness :
  let cmds := [[bs "HMSET"; bs "user1"; bs "field0"; bs "%%"]; [bs "WAIT"; bs "2"; bs "0"]] in
  wp (redis_Update (X := scripted_world unit) 3 (Redis_client connected 2) (bs "usertable") (bs "user1")
        [(bs "field0", bs "%%%%")])
     (served 2 ([] ++ encode_all cmds) ∅)
     ((tt, Script 0 [] {[3]} [Accept 1000] (wait_reads ++ [Eof]) []), ∅).
Proof.
  intros cmds.
  destruct (redis_update_sends zero_libc_no_oom 3 connected (new_reader []) (mk [] []) 2
    (bs "usertable") (bs "user1") [(bs "field0", bs "%%%%")] [bs "user1"; bs "field0"; bs "%%"]
    [RStatus (bs "OK"); RInteger 2] [] wait_reads [Eof] tt
    (Script 0 [] {[3]} [Accept 1000] (wait_reads ++ [Eof]) []) ∅) as [H _]; try done.
  - apply connected_idle.
  - by exists [].
  - repeat constructor; done.
  - split; try done.
    + repeat constructor; cbn; tauto.
    + apply (delivers_chunk (bs "+OK" ++ [CR; LF] ++ bs ":")); [done|done|].
      apply (delivers_chunk (bs "2" ++ [CR; LF]) [] []); [done|done|constructor].
    + repeat constructor; cbn; try lia. by intros [|? [|? [|? ?]]] ?.
  - cbn. lia.
  - cbn. lia.
Defined.
